(* ===== verification/_CoqProject ===== *)
-Q . S2P
Prelude.v
Scalar.v
ScalarField.v
FixedPoint.v
Poseidon2.v
BaseType.v
DarkpoolTypes.v
StateWrapper.v
Merkle.v
Circuit.v
CircuitTypes.v
Gadgets.v
PoseidonGadget.v
StateGadgets.v
Scoping.v
GadgetScoping.v
ProverCircuit.v
BalanceCircuits.v
FeeCircuits.v
ValidityCircuits.v
SettlementCircuits.v
CircuitScoping.v
Darkpool.v
DarkpoolExit.v
NativeAgreement.v
DarkpoolCorrect.v
ValidityBundles.v
AccountTypes.v
Book.v
Engine.v
TaskTypes.v
TaskQueue.v
TaskStorage.v
TaskStorageSpec.v
TaskApplicator.v
TaskInvariant.v
AccountStorage.v
AccountApplicator.v
AccountInvariant.v
AccountProperties.v
AccountCorrect.v
TaskProofs.v
TaskBalances.v
TaskValidity.v
TaskSettlement.v
TaskPublic.v
TaskCorrect.v
TaskStates.v
StateInterface.v
TaskDriver.v
DriverCorrect.v
TaskContext.v
Tasks.v
BalanceTasks.v
SettleTasks.v
TaskRuns.v
TaskEffects.v
BalanceRuns.v
SettleRuns.v
TasksCorrect.v
RaftLog.v
