(* ===== verification/Prelude.v ===== *)
(** * Verification of the Renegade relayer

    A relayer of the Renegade darkpool keeps the accounts, orders and balances of its users,
    matches their orders, proves the settlements in zero knowledge and submits them to the
    darkpool contract.  The parts of the program and how they meet:

    - the cryptographic state: every intent and balance is a state element with a secret
      shared plaintext, two Poseidon streams, a commitment and a nullifier
      (src/crates/{crypto,darkpool-types,circuits/circuit-types});
    - the circuits (src/crates/circuits/circuits-core), whose accepted proofs are all that
      the contract checks;
    - the replicated state (src/crates/state): raft commits state transitions, and on every
      node the applicators write them to the tables of a database, bring the in-memory
      matching engine in line and hand tasks to the task driver;
    - the matching engine (src/crates/workers/matching-engine), which offers the matchable
      amounts of orders;
    - the task driver (src/crates/workers/task-driver), which runs deposits, withdrawals,
      orders and settlements step by step: it computes witnesses and statements, gets them
      proved, submits transactions, and proposes the resulting transitions.

    ** Conventions

    A pure function of the source is a Rocq function of the same name (with a prefix or a
    suffix where two modules share a name).  Stateful fallible code is a function in the
    monad [M S E A] of this file: the state after an error is kept, and [with_tx] restores
    what a dropped transaction restores.  Machine integers are [Z] with their wrap-around
    written out ([u64_add], ...); scalars are the canonical representatives modulo
    [scalar_modulus]; identifiers are numbers; tables are stdpp maps, or ordered lists where
    the order matters.  Every [.v] file begins with the source files that it models.

    ** Files

    Foundations.  Prelude (the monad, shared lemmas, the hint database [relayer]), Scalar and
    ScalarField (crypto/src/fields.rs; the modulus is prime), FixedPoint
    (circuit-types/src/primitives/fixed_point.rs), Poseidon2 (crypto/src/hash), BaseType and
    DarkpoolTypes (the scalar serialization of the darkpool's types), StateWrapper (the
    CSPRNG, the stream cipher, commitments, nullifiers and the updates of state elements),
    Merkle (authentication paths).

    Circuits.  Circuit (what a gadget does to a constraint system, with soundness and
    completeness in one specification [wp]; the PlonkCircuit of mpc-jellyfish is a class
    with laws), CircuitTypes (variable types), Gadgets, PoseidonGadget, StateGadgets (the
    gadgets of zk_gadgets), ProverCircuit (the SingleProverCircuit trait), BalanceCircuits,
    FeeCircuits, ValidityCircuits, SettlementCircuits (the twenty circuits of zk_circuits),
    Scoping, GadgetScoping, CircuitScoping (an honest prover can always fill in a circuit),
    NativeAgreement (native state elements compute what the circuits check).

    Darkpool.  Darkpool (the ledger that accepted and linked proofs maintain), DarkpoolExit
    (a balance can always leave it), DarkpoolCorrect (the theorems about both).

    Matching.  AccountTypes (orders, balances, accounts), Book and Engine
    (matching-engine-core/src/{book,engine,lib}.rs).

    Replicated state.  TaskTypes, TaskQueue, TaskStorage, TaskApplicator
    (storage/tx/task_queue, task_assignments.rs, task_history.rs, applicator/task_queue.rs)
    with TaskStorageSpec and TaskInvariant; ValidityBundles, AccountStorage,
    AccountApplicator (storage/tx/{account_index,order_auth,matching_pools,proofs,
    merkle_proofs}.rs and their applicators) with AccountInvariant, AccountProperties and
    AccountCorrect; RaftLog (storage/tx/raft_log.rs, storage/cursor.rs and
    replication/log_store.rs).

    Tasks.  TaskProofs (the witnesses, statements and new versions that tasks compute) with
    TaskBalances, TaskValidity, TaskSettlement, TaskPublic and TaskCorrect; TaskStates
    (task_state.rs), StateInterface (interface/task_queue.rs), TaskDriver (driver.rs,
    running_task.rs, hooks.rs) with DriverCorrect; TaskContext (what tasks act on), Tasks,
    BalanceTasks and SettleTasks (the nine tasks of tasks/) with TaskRuns, TaskEffects,
    BalanceRuns, SettleRuns and TasksCorrect.

    ** Theorems

    Circuits ([settlement_circuits_correct], [balance_circuits_correct],
    [validity_circuits_correct], [fee_circuits_correct], [hash_gadgets_native]): each circuit
    accepts exactly the statements and witnesses of its relation, and an honest prover can
    fill it in.  Ledger ([reachable_solvent], [funds_can_exit], [private_settlement_exact],
    [settlement_commits]): no sequence of accepted proofs creates value, what an owner has
    can be withdrawn, and a settlement moves exactly what was agreed on.

    Matching ([matches_never_overcommit], [engine_match_sound], [find_match_best],
    [engine_offers_are_backed], [balance_update_syncs_engine]): matches are within orders,
    balances, prices and ranges, and the engine never offers more than the tables hold.

    Replicated state ([reachable_tasks_consistent], [deferred_no_deadlock],
    [drain_terminates_and_drains], [serial_preemption_all_or_nothing],
    [failed_transition_atomic], [refresh_never_reinflates], [consumed_order_removed]): the
    tables stay consistent under every transition, failures roll back, and no transition
    fails in a way that stops the raft core.  [log_store_refines]: the log store implements
    the contiguous log that openraft relies on.

    Tasks ([balance_tasks_follow_ledger], [private_match_follows_ledger],
    [public_match_proofs_accepted]): the proofs that tasks request exist, and what the
    relayer stores afterwards is what the ledger has.  [driver_run_bounded],
    [driver_commits_first], [start_task_outcome], [tasks_obey_driver]: every run ends, no
    step beyond the commit point comes before the commit, and listeners are told once.
    [balance_tasks_update_once], [settlement_tasks_settle_once]: under the driver and with
    any number of retries a task takes effect at most once, and its tables follow.

    Behaviour that the documentation or the callers do not expect is stated as a theorem as
    well ([failed_yield_destroys_settlement], [selfheal_strands_counterparty],
    [deferred_settlement_stranded], [lost_receipt_strands_deposit], [rerun_reinflates_order],
    [new_output_proof_stays], [bounded_match_needs_fee_address],
    [assignment_to_new_pool_unlists], [clear_orphans_shared_settlement],
    [match_below_input_minimum], [partial_fill_leaks_intent]).

    ** Parameters

    Code outside of the repository is a parameter with the laws that its documentation
    gives: the constraint system and the curve gadgets of mpc-jellyfish ([PlonkCircuitLaws],
    [CurveLaws]), the proof system ([ProofSystem]), the hash of a permit, and the services
    that tasks call ([Services]: raft, the proof manager, the contract behind its RPC client,
    the indexer; [contract_laws] are the two facts about the contract that are used).  The
    witnesses instantiate each of them.  What raft applies between two calls of a node is a
    schedule over which the theorems quantify (StateInterface).

    ** Bounds and fuel

    The Merkle height is the deployed one, 10.  Loops that are not structural run with fuel
    that is proved to be enough: the drain of deferred settlements with one turn more than
    the pending list has entries ([drain_terminates_and_drains]), the deletion loops of the
    log with one turn more than there are rows ([log_store_refines]), the steps of a task
    with eight, since every step moves to a later one of at most eight states
    ([driver_run_bounded]), and the exponentiation gadget with 65, the bits of its exponent.

    ** Not modelled

    Consensus itself (openraft), snapshots and the recovery from them, and the wrapper of the
    storage engine (libmdbx), of which transactions and cursors are modelled; failures of I/O
    and of decoding.  The task of external matches and the startup task beyond their states,
    since they forward calldata to a third party and wait for the network.  Concurrency of
    the matching engine's maps and of the driver's threads: their operations are atomic
    steps.  The MPC gadgets (secret shared arithmetic over an external fabric), the proof
    manager (calls of the provers), the API server, gossip and networking, chain events and
    the RPC client, the price reporter (floating point streams), configuration, metrics,
    logging and test support. *)
From stdpp Require Export base gmap list strings sorting.
From Stdlib Require Export ZArith Lia.

#[global] Set Default Goal Selector "!".
#[global] Set Warnings "-clear-no-such-hyp".

(** ** Notation *)

Declare Scope relayer_scope.
Delimit Scope relayer_scope with relayer.

(** Account, order, task and queue identifiers are [Uuid]s in the source: 128-bit
    values compared as numbers.  The nil uuid is [0]. *)
Abbreviation Uuid := Z (only parsing).

(** ** Fallible stateful code

    A storage or applicator method takes [&self] and a transaction, mutates it
    and returns a [Result].  It is a function from the state to the result and
    the new state: the state after an error is kept, because messages sent
    before an error stay sent; [with_tx] below restores what a dropped
    transaction restores. *)
Inductive result (E A : Type) : Type :=
| Ok (a : A)
| Err (e : E).
Arguments Ok {E A} a.
Arguments Err {E A} e.

Definition M (S E A : Type) : Type := S → result E A * S.

#[global] Instance M_ret {S E} : MRet (M S E) := λ A a s, (Ok a, s).
#[global] Instance M_bind {S E} : MBind (M S E) := λ A B f m s,
  match m s with
  | (Ok a, s') => f a s'
  | (Err e, s') => (Err e, s')
  end.

Section Monad.
Context {S E : Type}.

Definition get : M S E S := λ s, (Ok s, s).
Definition gets {A} (f : S → A) : M S E A := λ s, (Ok (f s), s).
Definition modify (f : S → S) : M S E unit := λ s, (Ok tt, f s).
Definition throw {A} (e : E) : M S E A := λ s, (Err e, s).

(** [opt.ok_or(e)?] *)
Definition ok_or {A} (o : option A) (e : E) : M S E A :=
  match o with Some a => mret a | None => throw e end.

(** [if !cond { return Err(e) }] *)
Definition ensure (cond : bool) (e : E) : M S E unit :=
  if cond then mret tt else throw e.

(** [for x in xs { body }] with [?] in the body *)
Fixpoint for_each {X} (xs : list X) (body : X → M S E unit) : M S E unit :=
  match xs with
  | [] => mret tt
  | x :: xs' => body x ≫= λ _, for_each xs' body
  end.

(** [for x in xs { if cond { return/break with true } }]: whether the body
    holds of some element, evaluated from the left and stopping there. *)
Fixpoint any_m {X} (xs : list X) (body : X → M S E bool) : M S E bool :=
  match xs with
  | [] => mret false
  | x :: xs' => body x ≫= λ b : bool, if b then mret true else any_m xs' body
  end.

(** [for x in xs { ...; out.push(y) }], the body giving [None] when it pushes nothing. *)
Fixpoint collect_m {X Y} (xs : list X) (body : X → M S E (option Y)) : M S E (list Y) :=
  match xs with
  | [] => mret []
  | x :: xs' =>
      body x ≫= λ y, collect_m xs' body ≫= λ ys,
      mret (match y with Some y => y :: ys | None => ys end)
  end.
End Monad.

(** Run storage code inside a larger state, mapping its error ([From]). *)
Definition zoom {S T E F A} (get : T → S) (put : S → T → T) (err : E → F)
    (m : M S E A) : M T F A := λ t,
  match m (get t) with
  | (Ok a, s') => (Ok a, put s' t)
  | (Err e, s') => (Err (err e), put s' t)
  end.

(** A write transaction: on an error the transaction is dropped without commit
    and the database part [get] of the state is what it was; everything else
    (sent messages, in-memory caches) keeps its changes. *)
Definition with_tx {S T E A} (get : T → S) (put : S → T → T) (m : M T E A)
    : M T E A := λ t,
  match m t with
  | (Ok a, t') => (Ok a, t')
  | (Err e, t') => (Err e, put (get t) t')
  end.

(** ** Reasoning about the monad *)

Section MonadLemmas.
Context {S E : Type}.

Lemma bind_Ok_inv {A B} (m : M S E A) (f : A → M S E B) s b s'' :
  (m ≫= f) s = (Ok b, s'') →
  ∃ a s', m s = (Ok a, s') ∧ f a s' = (Ok b, s'').
Proof.
  unfold mbind, M_bind. destruct (m s) as [[a|e] s'] eqn:Hm; [|done].
  intros. by exists a, s'.
Qed.

Lemma bind_Ok {A B} (m : M S E A) (f : A → M S E B) s a s' :
  m s = (Ok a, s') → (m ≫= f) s = f a s'.
Proof. unfold mbind, M_bind. by intros ->. Qed.

Lemma bind_Err {A B} (m : M S E A) (f : A → M S E B) s e s' :
  m s = (Err e, s') → (m ≫= f) s = (Err e, s').
Proof. unfold mbind, M_bind. by intros ->. Qed.

(** [reads m]: the computation does not change the state. *)
Definition reads {A} (m : M S E A) : Prop := ∀ s, (m s).2 = s.

(** [preserves I m]: a successful run of [m] keeps [I]. *)
Definition preserves {A} (I : S → Prop) (m : M S E A) : Prop :=
  ∀ s a s', I s → m s = (Ok a, s') → I s'.

Lemma reads_ret {A} (a : A) : reads (mret a : M S E A).
Proof. done. Qed.
Lemma reads_gets {A} (f : S → A) : reads (gets f : M S E A).
Proof. done. Qed.
Lemma reads_throw {A} (e : E) : reads (throw e : M S E A).
Proof. done. Qed.
Lemma reads_ok_or {A} (o : option A) (e : E) : reads (ok_or o e : M S E A).
Proof. by destruct o. Qed.
Lemma reads_ensure (c : bool) (e : E) : reads (ensure c e : M S E unit).
Proof. by destruct c. Qed.
Lemma reads_bind {A B} (m : M S E A) (f : A → M S E B) :
  reads m → (∀ a, reads (f a)) → reads (m ≫= f).
Proof.
  intros Hm Hf s. unfold mbind, M_bind. specialize (Hm s).
  destruct (m s) as [[a|e] s']; simpl in *; subst; [apply Hf|done].
Qed.
Lemma reads_any_m {X} (xs : list X) (body : X → M S E bool) :
  (∀ x, reads (body x)) → reads (any_m xs body).
Proof.
  intros Hb. induction xs as [|x xs IH]; simpl; [apply reads_ret|].
  apply reads_bind; [done|]. by intros [].
Qed.

Lemma reads_Ok {A} (m : M S E A) s a s' : reads m → m s = (Ok a, s') → s' = s.
Proof. intros Hr Hm. specialize (Hr s). by rewrite Hm in Hr. Qed.

Lemma reads_preserves {A} (I : S → Prop) (m : M S E A) : reads m → preserves I m.
Proof. intros Hr s a s' HI Hm. by rewrite (reads_Ok _ _ _ _ Hr Hm). Qed.

Lemma preserves_bind {A B} (I : S → Prop) (m : M S E A) (f : A → M S E B) :
  preserves I m → (∀ a, preserves I (f a)) → preserves I (m ≫= f).
Proof.
  intros Hm Hf s b s'' HI (a & s' & H1 & H2)%bind_Ok_inv.
  eapply Hf; [|done]. by eapply Hm.
Qed.

Lemma preserves_modify (I : S → Prop) (f : S → S) :
  (∀ s, I s → I (f s)) → preserves I (modify f : M S E unit).
Proof. intros Hf s a s' HI [= <- <-]. by apply Hf. Qed.

Lemma preserves_for_each {X} (I : S → Prop) (xs : list X) (body : X → M S E unit) :
  (∀ x, x ∈ xs → preserves I (body x)) → preserves I (for_each xs body).
Proof.
  intros Hb. induction xs as [|x xs IH]; simpl.
  - by apply reads_preserves, reads_ret.
  - apply preserves_bind; [apply Hb; by left|].
    intros _. apply IH. intros y Hy. apply Hb. by right.
Qed.

(** A loop whose turns step along a preorder and establish facts stable along it. *)
Lemma for_each_rel {X} (R : relation S) `{!PreOrder R} (P : X → S → Prop) (xs : list X)
    (body : X → M S E unit) s u s' :
  (∀ x s u s', x ∈ xs → body x s = (Ok u, s') → R s s' ∧ P x s') →
  (∀ x s s', P x s → R s s' → P x s') →
  for_each xs body s = (Ok u, s') → R s s' ∧ ∀ x, x ∈ xs → P x s'.
Proof.
  intros Hb Hstable. revert s. induction xs as [|x xs IH]; intros s; simpl.
  { intros [= <- <-]. split; [done|]. by intros ? ?%not_elem_of_nil. }
  intros (v & s1 & H1 & H)%bind_Ok_inv. apply Hb in H1 as [H1 HP]; [|by left].
  apply IH in H as [H2 Hall]; [|intros; eapply Hb; [by right|done]].
  split; [by etrans|]. intros y [->|Hy]%elem_of_cons; [by eapply Hstable|by apply Hall].
Qed.

(** The loop body is false on every element of a list that [any_m] rejects. *)
Lemma any_m_false {X} (xs : list X) (body : X → M S E bool) s s' :
  (∀ x, reads (body x)) → any_m xs body s = (Ok false, s') →
  s' = s ∧ ∀ x, x ∈ xs → body x s = (Ok false, s).
Proof.
  intros Hr. revert s s'. induction xs as [|x xs IH]; intros s s'; simpl.
  - intros [= <-]. split; [done|]. by intros x ?%not_elem_of_nil.
  - intros ([] & s1 & Hx & H)%bind_Ok_inv; [by injection H|].
    pose proof (reads_Ok _ _ _ _ (Hr x) Hx) as ->. apply IH in H as [-> H].
    split; [done|]. by intros y [->|Hy]%elem_of_cons; [|apply H].
Qed.

(** ... and true on some element of a list it accepts. *)
Lemma any_m_true {X} (xs : list X) (body : X → M S E bool) s s' :
  (∀ x, reads (body x)) → any_m xs body s = (Ok true, s') →
  s' = s ∧ ∃ x, x ∈ xs ∧ body x s = (Ok true, s).
Proof.
  intros Hr. revert s s'. induction xs as [|x xs IH]; intros s s'; simpl; [done|].
  intros (b & s1 & Hx & H)%bind_Ok_inv. pose proof (reads_Ok _ _ _ _ (Hr x) Hx) as ->.
  destruct b.
  - injection H as ->. split; [done|]. exists x. split; [by left|done].
  - apply IH in H as [-> (y & Hy & H)]. split; [done|]. exists y. split; [by right|done].
Qed.
End MonadLemmas.

Create HintDb relayer.
#[export] Hint Resolve reads_ret reads_gets reads_throw reads_ok_or reads_ensure
  reads_any_m : relayer.

(** ** Tactics *)

(** Take an equation between pairs apart, replacing the variables on its right. *)
Ltac inv_pair H :=
  injection H; clear H;
  repeat (let E := fresh in intros E;
          match type of E with
          | _ = ?v => is_var v; subst v
          | ?v = _ => is_var v; subst v
          | _ => idtac
          end).

(** Invert a successful run of a monadic computation, step by step. *)
Ltac inv_step :=
  match goal with
  | H : (_ ≫= _) _ = (Ok _, _) |- _ =>
      let a := fresh "a" in let s := fresh "s" in
      let H1 := fresh "Hm" in
      apply bind_Ok_inv in H as (a & s & H1 & H)
  | H : mret _ _ = (Ok _, _) |- _ => inv_pair H
  | H : gets _ _ = (Ok _, _) |- _ => inv_pair H
  | H : modify _ _ = (Ok _, _) |- _ => inv_pair H
  | H : throw _ _ = (Ok _, _) |- _ => discriminate H
  | H : ensure ?c _ _ = (Ok _, _) |- _ =>
      let Hc := fresh "Hc" in destruct c eqn:Hc; [inv_pair H|discriminate H]
  | H : ok_or ?o _ _ = (Ok _, _) |- _ =>
      let Ho := fresh "Ho" in destruct o eqn:Ho; [inv_pair H|discriminate H]
  end.
Ltac inv_ok := repeat (inv_step; simplify_eq/=).

(** ** Generic lemmas *)

Section ListLemmas.
Context {A : Type} (P : A → Prop) `{∀ x, Decision (P x)}.

Lemma filter_all l : Forall P l → filter P l = l.
Proof. induction 1; [done|]. rewrite filter_cons_True by done. by f_equal. Qed.
Lemma filter_none l : Forall (λ x, ¬ P x) l → filter P l = [].
Proof. induction 1; [done|]. by rewrite filter_cons_False. Qed.
End ListLemmas.

Section ZLemmas.
Local Open Scope Z_scope.

Lemma div_mul_le_bound a b : 0 < b → a / b * b ≤ a.
Proof. intros. pose proof (Z.mul_div_le a b). lia. Qed.

Lemma lt_succ_div_mul a b : 0 < b → a < (a / b + 1) * b.
Proof. intros. pose proof (Z.mul_succ_div_gt a b). lia. Qed.

(** Galois connection of floor division. *)
Lemma le_div_iff a b c : 0 < b → c ≤ a / b ↔ c * b ≤ a.
Proof.
  intros Hb. split; intros H.
  - pose proof (Z.mul_div_le a b Hb). nia.
  - apply Z.div_le_lower_bound; lia.
Qed.

Lemma mod_eq_small a b n : 0 ≤ a < n → a = b mod n → a mod n = b mod n.
Proof. intros Ha ->. apply Z.mod_mod. lia. Qed.
End ZLemmas.
