(* ===== verification/Scalar.v ===== *)
(** * Scalars, machine integers and their conversions

    The darkpool computes in the scalar field of the BN254 curve
    ([constants::ScalarField]); amounts are [u128].  This file models the field
    operations the source uses as arithmetic on canonical representatives in
    [0, p), and the conversions of src/crates/crypto/src/fields.rs. *)
From S2P Require Import Prelude.
Local Open Scope Z_scope.

(** ** Machine integers *)

Definition U64_MAX : Z := 2 ^ 64 - 1.
Definition U128_MAX : Z := 2 ^ 128 - 1.

Definition is_u64 (x : Z) : Prop := 0 ≤ x ≤ U64_MAX.
Definition is_u128 (x : Z) : Prop := 0 ≤ x ≤ U128_MAX.

(** [u64] and [u128] arithmetic as compiled in release mode: wrapping. *)
Definition u64_add (x y : Z) : Z := (x + y) mod 2 ^ 64.
Definition u64_sub (x y : Z) : Z := (x - y) mod 2 ^ 64.
Definition u128_add (x y : Z) : Z := (x + y) mod 2 ^ 128.
Definition u128_sub (x y : Z) : Z := (x - y) mod 2 ^ 128.

(** Amounts are [u128]s (circuit-types/src/lib.rs). *)
Abbreviation Amount := Z (only parsing).
(** Addresses are 20-byte values, read as big-endian numbers. *)
Abbreviation Address := Z (only parsing).

(** ** The scalar field *)

(** The modulus of the BN254 scalar field. *)
Definition scalar_modulus : Z :=
  21888242871839275222246405745257275088548364400416034343698204186575808495617.

(** A [Scalar] is represented by its canonical representative. *)
Abbreviation Scalar := Z (only parsing).
Definition is_scalar (x : Z) : Prop := 0 ≤ x < scalar_modulus.

(** [Scalar::from] on an unsigned integer reduces modulo the field order. *)
Definition scalar_from (x : Z) : Scalar := x mod scalar_modulus.
Definition scalar_add (x y : Scalar) : Scalar := (x + y) mod scalar_modulus.
Definition scalar_sub (x y : Scalar) : Scalar := (x - y) mod scalar_modulus.
Definition scalar_mul (x y : Scalar) : Scalar := (x * y) mod scalar_modulus.
Definition scalar_neg (x : Scalar) : Scalar := (- x) mod scalar_modulus.

(** ** Conversions (crypto/src/fields.rs) *)

(** [a.to_biguint()]: the canonical representative. *)
Definition scalar_to_biguint (a : Scalar) : Z := a.
Definition scalar_to_bigint (a : Scalar) : Z := a.

Definition biguint_to_scalar (a : Z) : Scalar := scalar_from a.

(** A negative big integer is the field negation of its absolute value. *)
Definition bigint_to_scalar (a : Z) : Scalar :=
  if a <? 0 then scalar_neg (scalar_from (- a)) else scalar_from a.

(** The low 8, 16 and 20 bytes of the 32-byte big-endian encoding. *)
Definition scalar_to_u64 (a : Scalar) : Z := a mod 2 ^ 64.
Definition scalar_to_u128 (a : Scalar) : Amount := a mod 2 ^ 128.
Definition scalar_to_address (a : Scalar) : Address := a mod 2 ^ 160.

(** [usize] is 64 bits on the targets the relayer is built for. *)
Definition scalar_to_usize (a : Scalar) : Z := scalar_to_u64 a.

Definition address_to_scalar (a : Address) : Scalar := scalar_from a.

(** The first [d] bits, least significant first, each as a scalar. *)
Definition bigint_to_scalar_bits (d : nat) (a : Z) : list Scalar :=
  (λ i : nat, if Z.testbit a (Z.of_nat i) then 1 else 0) <$> seq 0 d.

(** ** Facts *)

#[export] Existing Instances eqm_setoid Zplus_eqm Zminus_eqm Zmult_eqm Zopp_eqm.

(** Prove an equation between field expressions: remove the inner reductions, then
    compare the integer expressions. *)
Ltac field_mod :=
  unfold scalar_from, scalar_add, scalar_sub, scalar_mul, scalar_neg;
  match goal with |- ?x mod ?n = ?y mod ?n => change (eqm n x y) end;
  repeat setoid_rewrite Zmod_eqm;
  try (unfold eqm; f_equal; ring).

Lemma scalar_modulus_bounds : 2 ^ 253 < scalar_modulus < 2 ^ 254.
Proof. vm_compute. done. Qed.

Lemma scalar_modulus_pos : 0 < scalar_modulus.
Proof. vm_compute. done. Qed.

#[export] Hint Resolve scalar_modulus_pos : relayer.

Lemma scalar_mod_small x : 0 ≤ x < 2 ^ 253 → x mod scalar_modulus = x.
Proof. intros. apply Z.mod_small. pose proof scalar_modulus_bounds. lia. Qed.

Lemma scalar_from_small x : 0 ≤ x < 2 ^ 253 → scalar_from x = x.
Proof. apply scalar_mod_small. Qed.

Lemma scalar_from_is_scalar x : is_scalar (scalar_from x).
Proof. apply Z.mod_pos_bound, scalar_modulus_pos. Qed.

Lemma scalar_from_id x : is_scalar x → scalar_from x = x.
Proof. intros. by apply Z.mod_small. Qed.

Lemma is_u128_lt x : is_u128 x → 0 ≤ x < 2 ^ 128.
Proof. unfold is_u128, U128_MAX. lia. Qed.

Lemma u128_add_small x y : 0 ≤ x + y < 2 ^ 128 → u128_add x y = x + y.
Proof. apply Z.mod_small. Qed.
Lemma u128_sub_small x y : 0 ≤ x - y < 2 ^ 128 → u128_sub x y = x - y.
Proof. apply Z.mod_small. Qed.
Lemma u64_add_small x y : 0 ≤ x + y < 2 ^ 64 → u64_add x y = x + y.
Proof. apply Z.mod_small. Qed.
Lemma u64_sub_small x y : 0 ≤ x - y < 2 ^ 64 → u64_sub x y = x - y.
Proof. apply Z.mod_small. Qed.

Lemma scalar_to_u128_small x : 0 ≤ x < 2 ^ 128 → scalar_to_u128 x = x.
Proof. apply Z.mod_small. Qed.

Lemma scalar_to_u128_bound x : 0 ≤ scalar_to_u128 x < 2 ^ 128.
Proof. by apply Z.mod_pos_bound. Qed.

Lemma scalar_from_u128 x : is_u128 x → scalar_from x = x.
Proof. intros ?%is_u128_lt. apply scalar_from_small. lia. Qed.

Lemma bigint_to_scalar_nonneg a : 0 ≤ a → bigint_to_scalar a = scalar_from a.
Proof. intros. unfold bigint_to_scalar. by destruct (Z.ltb_spec a 0); [lia|]. Qed.

Lemma bigint_to_scalar_mod a : bigint_to_scalar a = a mod scalar_modulus.
Proof.
  unfold bigint_to_scalar, scalar_neg, scalar_from.
  destruct (Z.ltb_spec a 0); [|done].
  rewrite <-(Z.sub_0_l ((- a) mod scalar_modulus)), Zminus_mod_idemp_r.
  f_equal. lia.
Qed.

Lemma scalar_add_is_scalar x y : is_scalar (scalar_add x y).
Proof. apply Z.mod_pos_bound, scalar_modulus_pos. Qed.
Lemma scalar_sub_is_scalar x y : is_scalar (scalar_sub x y).
Proof. apply Z.mod_pos_bound, scalar_modulus_pos. Qed.
Lemma scalar_mul_is_scalar x y : is_scalar (scalar_mul x y).
Proof. apply Z.mod_pos_bound, scalar_modulus_pos. Qed.
Lemma is_scalar_0 : is_scalar 0.
Proof. split; [done|apply scalar_modulus_pos]. Qed.

#[export] Hint Resolve scalar_from_is_scalar scalar_add_is_scalar scalar_sub_is_scalar
  scalar_mul_is_scalar is_scalar_0 : relayer.

Lemma scalar_sub_add x y : scalar_sub (scalar_add x y) y = scalar_from x.
Proof.
  unfold scalar_sub, scalar_add, scalar_from. rewrite Zminus_mod_idemp_l. f_equal. lia.
Qed.

Lemma scalar_add_sub x y : scalar_add (scalar_sub x y) y = scalar_from x.
Proof.
  unfold scalar_sub, scalar_add, scalar_from. rewrite Zplus_mod_idemp_l. f_equal. lia.
Qed.

(** An address survives the trip through a scalar. *)
Lemma address_scalar_round_trip a :
  0 ≤ a < 2 ^ 160 → scalar_to_address (address_to_scalar a) = a.
Proof.
  intros. unfold scalar_to_address, address_to_scalar.
  rewrite scalar_from_small by lia. by apply Z.mod_small.
Qed.
