(* ===== verification/ScalarField.v ===== *)
(** * The scalar field is a field

    The equality gadgets of the circuits divide by a nonzero value
    (src/crates/circuits/circuits-core/src/zk_gadgets/primitives/comparators.rs): they
    rely "on the fact that modulo a prime field, all elements (except zero) have a
    valid multiplicative inverse".  This file proves that the modulus is prime, with a
    Pocklington certificate whose modular powers are evaluated in the kernel, and
    derives inverses and the absence of zero divisors. *)
From Stdlib Require Import Zdivisibility Zpow_facts.
From Stdlib Require ZmodInv.
From S2P Require Import Prelude Scalar.
Local Open Scope Z_scope.

(** ** Pocklington's criterion *)

Definition pow_mod (a e n : Z) : Z := Zpow_mod a e n.

Lemma pow_mod_eq a e n : 0 < n → 0 ≤ e → pow_mod a e n = a ^ e mod n.
Proof. intros. apply Zpow_mod_correct. lia. Qed.

(** [a] has order divisible by [q] modulo every prime divisor of [n]. *)
Definition witness_for (n a q : Z) : bool :=
  (pow_mod a (n - 1) n =? 1) && ((n - 1) mod q =? 0) &&
  (Z.gcd (pow_mod a ((n - 1) / q) n - 1) n =? 1).

Lemma pow_one_mod a e k p :
  1 < p → 0 ≤ e → 0 ≤ k → a ^ e mod p = 1 → a ^ (e * k) mod p = 1.
Proof.
  intros Hp He Hk E. rewrite Z.pow_mul_r by lia.
  rewrite <-Z.mod_pow_l, E, Z.pow_1_l by lia. by apply Z.mod_small.
Qed.

(** Nonnegative Bezout coefficients for coprime [q] and [m]. *)
Lemma bezout_nonneg q m :
  0 < q → 0 < m → Z.coprime q m → ∃ s t, 0 ≤ s ∧ 0 ≤ t ∧ s * q = 1 + t * m.
Proof.
  intros Hq Hm H. apply Z.Bezout_coprime in H as (u & v & E).
  exists (u + Z.abs u * m + Z.abs v * m), (Z.abs u * q + Z.abs v * q - v).
  split; [|split]; [nia..|nia].
Qed.

Lemma divide_mod_1 p x : 1 < p → x mod p = 1 → (p | x - 1).
Proof.
  intros Hp E. exists (x / p). pose proof (Z.div_mod x p ltac:(lia)). lia.
Qed.

Lemma mod_1_divide n p x : 1 < p → (p | n) → x mod n = 1 → x mod p = 1.
Proof.
  intros Hp [k ->] E.
  destruct (decide (k = 0)) as [->|]; [rewrite Z.mul_0_l, Z.mod_0_r in E; subst; apply Z.mod_small; lia|].
  pose proof (Z.div_mod x (k * p) ltac:(lia)) as D. rewrite E in D. rewrite D.
  replace (k * p * (x / (k * p)) + 1) with (1 + (k * (x / (k * p))) * p) by ring.
  rewrite Z_mod_plus_full. apply Z.mod_small. lia.
Qed.

Lemma order_divides n a q p :
  1 < n → Z.prime q → Z.prime p → (p | n) → witness_for n a q = true → (q | p - 1).
Proof.
  intros Hn Hq Hp Hpn W. unfold witness_for in W.
  apply andb_prop in W as [W W3]. apply andb_prop in W as [W1 W2].
  apply Z.eqb_eq in W1, W2, W3.
  pose proof (Z.prime_ge_2 _ Hp). pose proof (Z.prime_ge_2 _ Hq).
  set (m := (n - 1) / q) in *.
  assert (n - 1 = m * q) as Em by (pose proof (Z.div_mod (n - 1) q ltac:(lia)); lia).
  assert (0 ≤ m) by (apply Z.div_pos; lia).
  rewrite pow_mod_eq in W1, W3 by lia.
  destruct (decide ((p - 1) mod q = 0)) as [|Hnd]; [by apply Z.mod_divide; [lia|]|exfalso].
  rewrite Z.mod_divide in Hnd by lia.
  destruct (bezout_nonneg q (p - 1)) as (s & t & Hs & Ht & E);
    [lia..|by apply Z.coprime_prime_l|].
  assert (a mod p ≠ 0) as Ha.
  { intros Z0. apply (mod_1_divide n p) in W1; [|lia..|done].
    rewrite <-Z.mod_pow_l, Z0, Z.pow_0_l, Z.mod_0_l in W1 by lia. done. }
  assert (a ^ m mod p = 1) as Eone.
  { assert (a ^ (m * q * s) mod p = 1) as X1.
    { apply pow_one_mod; [lia..|]. apply (mod_1_divide n); [lia|done|].
      by rewrite <-Em. }
    replace (m * q * s) with (m + (p - 1) * (t * m)) in X1 by nia.
    rewrite Z.pow_add_r in X1 by nia. rewrite Zmult_mod in X1.
    rewrite (pow_one_mod a (p - 1) (t * m) p) in X1;
      [|lia|lia|nia|by apply ZmodInv.Z.fermat_nz].
    by rewrite Z.mul_1_r, Zmod_mod in X1. }
  assert (p | Z.gcd (a ^ m mod n - 1) n) as D.
  { apply Z.gcd_greatest; [|done]. apply divide_mod_1; [lia|].
    by rewrite Z.mod_mod_divide. }
  rewrite W3 in D. apply Z.divide_1_r_nonneg in D; lia.
Qed.

(** ** Prime divisors *)

Lemma prime_divisor n : 1 < n → ∃ p, Z.prime p ∧ (p | n).
Proof.
  intros Hn. assert (0 ≤ n) as H0 by lia. revert Hn.
  pattern n. apply Z_lt_induction; [|done]. clear n H0. intros n IH Hn.
  destruct (Znumtheory.prime_dec n) as [Hp%Znumtheory.prime_alt|Hnp]; [by exists n|].
  destruct (Znumtheory.not_prime_divide n Hn Hnp) as (d & Hd & Hdn).
  destruct (IH d) as (p & Hp & Hpd); [lia..|]. exists p. split; [done|].
  by trans d.
Qed.

(** A composite number has a prime divisor at most its square root. *)
Lemma prime_by_divisors n :
  1 < n → (∀ p, Z.prime p → (p | n) → n < p * p) → Z.prime n.
Proof.
  intros Hn H. split; [done|]. intros d Hd [k Hk].
  assert (1 < k) by nia.
  assert (∃ e, 1 < e ∧ (e | n) ∧ e * e ≤ n) as (e & He & Hen & Hee).
  { destruct (decide (d ≤ k)).
    - exists d. split; [lia|]. split; [by exists k|nia].
    - exists k. split; [lia|]. split; [exists d; lia|nia]. }
  destruct (prime_divisor e He) as (p & Hp & Hpe).
  pose proof (H p Hp ltac:(by trans e)). pose proof (Z.prime_ge_2 _ Hp).
  apply Z.divide_pos_le in Hpe; [nia|lia].
Qed.

Lemma pocklington1 n a q :
  1 < n → Z.prime q → n ≤ q * q → witness_for n a q = true → Z.prime n.
Proof.
  intros Hn Hq Hb W. apply prime_by_divisors; [done|]. intros p Hp Hpn.
  pose proof (order_divides n a q p Hn Hq Hp Hpn W) as D.
  pose proof (Z.prime_ge_2 _ Hp). pose proof (Z.prime_ge_2 _ Hq).
  apply Z.divide_pos_le in D; [nia|lia].
Qed.

Lemma pocklington2 n a q r :
  1 < n → Z.prime q → Z.prime r → q ≠ r → n ≤ (q * r) * (q * r) →
  witness_for n a q = true → witness_for n a r = true → Z.prime n.
Proof.
  intros Hn Hq Hr Hqr Hb Wq Wr. apply prime_by_divisors; [done|]. intros p Hp Hpn.
  pose proof (order_divides n a q p Hn Hq Hp Hpn Wq) as Dq.
  pose proof (order_divides n a r p Hn Hr Hp Hpn Wr) as [k Hk].
  pose proof (Z.prime_ge_2 _ Hp). pose proof (Z.prime_ge_2 _ Hq).
  pose proof (Z.prime_ge_2 _ Hr).
  assert (q * r | p - 1) as D.
  { rewrite Hk in Dq. apply Z.divide_prime_mul in Dq as [[j ->]|Dq]; [|..|done].
    - exists j. lia.
    - apply Z.divide_prime_prime in Dq; [done..]. }
  apply Z.divide_pos_le in D; [nia|lia].
Qed.

(** Trial division, for the leaves of the certificate. *)
Definition trial (n b : Z) : bool :=
  (n <? (b + 1) * (b + 1)) &&
  forallb (λ k : nat, negb (n mod Z.of_nat (k + 2) =? 0)) (seq 0 (Z.to_nat (b - 1))).

Lemma trial_prime n b : 1 < n → 1 < b → trial n b = true → Z.prime n.
Proof.
  intros Hn Hb T. apply andb_prop in T as [T1 T2]. apply Z.ltb_lt in T1.
  apply prime_by_divisors; [done|]. intros p Hp Hpn. pose proof (Z.prime_ge_2 _ Hp).
  destruct (decide (b < p)); [nia|]. exfalso.
  rewrite forallb_forall in T2. specialize (T2 (Z.to_nat (p - 2))).
  rewrite in_seq in T2. specialize (T2 ltac:(lia)).
  replace (Z.of_nat (Z.to_nat (p - 2) + 2)) with p in T2 by lia.
  apply negb_true_iff, Z.eqb_neq in T2. apply T2. by apply Z.mod_divide; [lia|].
Qed.

(** ** The modulus is prime *)

(** Decide a closed arithmetic goal by evaluation. *)
Ltac evaluate := first [vm_compute; reflexivity | vm_compute; discriminate].

Lemma prime_1637 : Z.prime 1637.
Proof. apply (trial_prime _ 41); evaluate. Qed.
Lemma prime_853 : Z.prime 853.
Proof. apply (trial_prime _ 30); evaluate. Qed.
Lemma prime_661 : Z.prime 661.
Proof. apply (trial_prime _ 26); evaluate. Qed.
Lemma prime_93001 : Z.prime 93001.
Proof. apply (trial_prime _ 305); evaluate. Qed.

Lemma prime_639533339 : Z.prime 639533339.
Proof.
  apply (pocklington2 _ 2 1637 853); [|exact prime_1637|exact prime_853|..]; evaluate.
Qed.
Lemma prime_65865678001877903 : Z.prime 65865678001877903.
Proof. apply (pocklington1 _ 2 639533339); [|exact prime_639533339|..]; evaluate. Qed.
Lemma prime_13818364434197438864469338081 : Z.prime 13818364434197438864469338081.
Proof. apply (pocklington1 _ 2 65865678001877903); [|exact prime_65865678001877903|..]; evaluate. Qed.
Lemma prime_12048837557 : Z.prime 12048837557.
Proof.
  apply (pocklington2 _ 2 93001 661); [|exact prime_93001|exact prime_661|..]; evaluate.
Qed.
Lemma prime_5156902474397 : Z.prime 5156902474397.
Proof. apply (pocklington1 _ 2 12048837557); [|exact prime_12048837557|..]; evaluate. Qed.
Lemma prime_1670836401704629 : Z.prime 1670836401704629.
Proof. apply (pocklington1 _ 2 5156902474397); [|exact prime_5156902474397|..]; evaluate. Qed.

Lemma scalar_modulus_prime : Z.prime scalar_modulus.
Proof.
  apply (pocklington2 _ 2 13818364434197438864469338081 1670836401704629);
    [|exact prime_13818364434197438864469338081|exact prime_1670836401704629|..]; evaluate.
Qed.

(** ** Inverses *)

(** [x.inverse()] of a nonzero scalar, by Fermat's little theorem. *)
Definition scalar_inverse (x : Scalar) : Scalar := pow_mod x (scalar_modulus - 2) scalar_modulus.

Lemma scalar_inverse_is_scalar x : is_scalar (scalar_inverse x).
Proof.
  unfold scalar_inverse. rewrite pow_mod_eq by evaluate.
  apply Z.mod_pos_bound, scalar_modulus_pos.
Qed.

Lemma scalar_inverse_mul x :
  is_scalar x → x ≠ 0 → scalar_mul x (scalar_inverse x) = 1.
Proof.
  intros Hx H0. pose proof scalar_modulus_bounds. unfold scalar_inverse, scalar_mul.
  rewrite pow_mod_eq by lia. rewrite Zmult_mod_idemp_r.
  replace (x * x ^ (scalar_modulus - 2)) with (x ^ (scalar_modulus - 1)).
  - apply ZmodInv.Z.fermat_nz; [apply scalar_modulus_prime|].
    by rewrite Z.mod_small.
  - rewrite <-Z.pow_succ_r by lia. f_equal.
Qed.

Lemma scalar_mul_zero x y :
  is_scalar x → is_scalar y → scalar_mul x y = 0 → x = 0 ∨ y = 0.
Proof.
  intros Hx Hy E. pose proof scalar_modulus_pos.
  apply Z.mod_divide in E; [|lia].
  apply Z.divide_prime_mul in E as [E|E]; [..|apply scalar_modulus_prime].
  - left. apply Z.mod_divide in E; [|lia]. by rewrite Z.mod_small in E.
  - right. apply Z.mod_divide in E; [|lia]. by rewrite Z.mod_small in E.
Qed.

Lemma scalar_sub_zero x y : is_scalar x → is_scalar y → scalar_sub x y = 0 ↔ x = y.
Proof.
  intros Hx Hy. unfold scalar_sub, is_scalar in *. split; [|intros ->; by rewrite Z.sub_diag].
  intros E. apply Z.mod_divide in E as [k E]; [|lia]. assert (k = 0) by nia. lia.
Qed.
