(* ===== verification/FixedPoint.v ===== *)
(** * Fixed-point numbers

    src/crates/circuits/circuit-types/src/primitives/fixed_point.rs (the native
    [FixedPoint] type) and the bit-length helpers of
    src/crates/circuits/circuit-types/src/lib.rs.  A fixed point is a scalar
    [repr] standing for [repr / 2^63].

    Operations that divide by a value that may be zero panic in the source; they
    return [None] here exactly when the source panics.  [inverse] returns the
    source's own [Option]. *)
From S2P Require Import Prelude Scalar.
Local Open Scope Z_scope.

(** ** Constants *)

Definition DEFAULT_FP_PRECISION : Z := 63.
Definition TWO_TO_M : Z := Z.shiftl 1 DEFAULT_FP_PRECISION.
Definition TWO_TO_2M : Z := Z.shiftl 1 (2 * DEFAULT_FP_PRECISION).
Definition TWO_TO_M_SCALAR : Scalar := biguint_to_scalar TWO_TO_M.

Definition AMOUNT_BITS : Z := 100.
Definition PRICE_BITS : Z := DEFAULT_FP_PRECISION + 64.
Definition FEE_BITS : Z := DEFAULT_FP_PRECISION.

(** ** The type *)

Record FixedPoint := mkFixedPoint { repr : Scalar }.

#[global] Instance FixedPoint_eq_dec : EqDecision FixedPoint.
Proof. solve_decision. Defined.

(** Shift a scalar right by M bits. *)
Definition right_shift_scalar_by_m (s : Scalar) : Scalar :=
  Z.shiftr s DEFAULT_FP_PRECISION.

Definition zero : FixedPoint := mkFixedPoint 0.
Definition one : FixedPoint := mkFixedPoint TWO_TO_M_SCALAR.

(** A representation above (p - 1) / 2 stands for a negative number. *)
Definition is_negative (fp : FixedPoint) : bool :=
  (scalar_modulus - 1) / 2 <? repr fp.

Definition fp_neg (fp : FixedPoint) : FixedPoint := mkFixedPoint (scalar_neg (repr fp)).

Definition abs (fp : FixedPoint) : FixedPoint :=
  if is_negative fp then fp_neg fp else fp.

(** *** Conversions *)

Definition from_repr (r : Scalar) : FixedPoint := mkFixedPoint r.

(** [impl From<Amount> for FixedPoint] *)
Definition from_amount (amount : Amount) : FixedPoint :=
  mkFixedPoint (scalar_mul (scalar_from amount) TWO_TO_M_SCALAR).

Definition from_integer (val : Z) : FixedPoint := from_amount val.

Definition from_integer_ratio (numerator denominator : Z) : option FixedPoint :=
  let shifted := Z.shiftl numerator DEFAULT_FP_PRECISION in
  if denominator =? 0 then None
  else Some (mkFixedPoint (biguint_to_scalar (shifted / denominator))).

(** *** Division and rounding *)

Definition floor (fp : FixedPoint) : Scalar :=
  bigint_to_scalar (Z.shiftr (scalar_to_bigint (repr fp)) DEFAULT_FP_PRECISION).

(** [num_integer::Integer::div_ceil] on [BigUint]. *)
Definition biguint_div_ceil (a b : Z) : Z :=
  if a mod b =? 0 then a / b else a / b + 1.

Definition floor_div (self rhs : FixedPoint) : option FixedPoint :=
  let self_repr := scalar_to_biguint (repr self) * TWO_TO_M in
  let rhs_repr := scalar_to_biguint (repr rhs) in
  if rhs_repr =? 0 then None
  else Some (mkFixedPoint (biguint_to_scalar (self_repr / rhs_repr))).

Definition ceil_div (self rhs : FixedPoint) : option FixedPoint :=
  let self_repr := scalar_to_biguint (repr self) * TWO_TO_M in
  let rhs_repr := scalar_to_biguint (repr rhs) in
  if rhs_repr =? 0 then None
  else Some (mkFixedPoint (biguint_to_scalar (biguint_div_ceil self_repr rhs_repr))).

(** [impl Mul<Scalar> for FixedPoint] *)
Definition fp_mul_scalar (fp : FixedPoint) (s : Scalar) : FixedPoint :=
  mkFixedPoint (scalar_mul (repr fp) s).

Definition floor_mul_int (fp : FixedPoint) (val : Amount) : Scalar :=
  let val_scalar := scalar_from val in
  let product := fp_mul_scalar fp val_scalar in
  floor product.

Definition ceil_mul_int (fp : FixedPoint) (val : Amount) : Scalar :=
  let product_repr := scalar_to_biguint (repr fp) * val in
  let q := product_repr / TWO_TO_M in
  let r := product_repr mod TWO_TO_M in
  let q_scalar := biguint_to_scalar q in
  if r =? 0 then q_scalar else scalar_add q_scalar 1.

Definition floor_div_int (fp : FixedPoint) (val : Amount) : option Scalar :=
  let val_repr := scalar_mul (scalar_from val) TWO_TO_M_SCALAR in
  let self_repr := scalar_to_biguint (repr fp) in
  if self_repr =? 0 then None
  else Some (biguint_to_scalar (scalar_to_biguint val_repr / self_repr)).

Definition ceil_div_int (fp : FixedPoint) (val : Amount) : option Scalar :=
  let val_repr := scalar_mul (scalar_from val) TWO_TO_M_SCALAR in
  let self_repr := scalar_to_biguint (repr fp) in
  if self_repr =? 0 then None
  else
    let q := scalar_to_biguint val_repr / self_repr in
    let r := scalar_to_biguint val_repr mod self_repr in
    let q_scalar := biguint_to_scalar q in
    Some (if r =? 0 then q_scalar else scalar_add q_scalar 1).

Definition inverse (fp : FixedPoint) : option FixedPoint :=
  if repr fp =? 0 then None
  else
    let inv_repr := TWO_TO_2M / scalar_to_biguint (repr fp) in
    Some (mkFixedPoint (biguint_to_scalar inv_repr)).

(** *** Arithmetic operators *)

Definition fp_add (x y : FixedPoint) : FixedPoint :=
  mkFixedPoint (scalar_add (repr x) (repr y)).
Definition fp_add_scalar (x : FixedPoint) (s : Scalar) : FixedPoint :=
  mkFixedPoint (scalar_add (repr x) (scalar_mul TWO_TO_M_SCALAR s)).
Definition fp_mul (x y : FixedPoint) : FixedPoint :=
  mkFixedPoint (right_shift_scalar_by_m (scalar_mul (repr x) (repr y))).
Definition fp_div_scalar (x : FixedPoint) (s : Scalar) : option FixedPoint :=
  let rhs := scalar_to_biguint s in
  if rhs =? 0 then None
  else Some (mkFixedPoint (biguint_to_scalar (scalar_to_biguint (repr x) / rhs))).
Definition fp_sub (x y : FixedPoint) : FixedPoint := fp_add x (fp_neg y).
Definition fp_sub_scalar (x : FixedPoint) (s : Scalar) : FixedPoint :=
  fp_add_scalar x (scalar_neg s).
Definition scalar_sub_fp (s : Scalar) (x : FixedPoint) : FixedPoint :=
  fp_add_scalar (fp_neg x) s.
(** [impl From<FixedPoint> for u64] *)
Definition fp_to_u64 (x : FixedPoint) : Z := scalar_to_u64 (floor x).

(** [impl Ord for FixedPoint] *)
Definition cmp (x y : FixedPoint) : comparison :=
  match is_negative x, is_negative y with
  | true, true => repr y ?= repr x
  | false, false => repr x ?= repr y
  | true, false => Lt
  | false, true => Gt
  end.

Definition fp_gtb (x y : FixedPoint) : bool :=
  match cmp x y with Gt => true | _ => false end.
Definition fp_geb (x y : FixedPoint) : bool :=
  match cmp x y with Lt => false | _ => true end.

(** *** Bit-length helpers (circuit-types/src/lib.rs) *)

Definition max_price : FixedPoint :=
  from_repr (biguint_to_scalar (Z.shiftl 1 PRICE_BITS - 1)).
Definition max_amount : Amount := Z.shiftl 1 AMOUNT_BITS - 1.
Definition validate_amount_bitlength (amount : Amount) : bool :=
  amount <=? Z.shiftl 1 AMOUNT_BITS - 1.
Definition validate_price_bitlength (price : FixedPoint) : bool :=
  repr price <=? scalar_from (Z.shiftl 1 PRICE_BITS - 1).

(** ** Specification: the value a fixed point stands for, times 2^63 *)

Definition signed_repr (fp : FixedPoint) : Z :=
  if is_negative fp then repr fp - scalar_modulus else repr fp.

Definition wf (fp : FixedPoint) : Prop := is_scalar (repr fp).

(** A price the protocol accepts: canonical, non-zero and [PRICE_BITS] wide. *)
Definition valid_price (fp : FixedPoint) : Prop := 0 < repr fp < 2 ^ 127.

(** ** Evaluation lemmas *)

Lemma TWO_TO_M_val : TWO_TO_M = 2 ^ 63.
Proof. done. Qed.
Lemma TWO_TO_2M_val : TWO_TO_2M = 2 ^ 126.
Proof. done. Qed.
Lemma TWO_TO_M_SCALAR_val : TWO_TO_M_SCALAR = 2 ^ 63.
Proof. done. Qed.
Lemma max_amount_val : max_amount = 2 ^ 100 - 1.
Proof. done. Qed.

Lemma validate_amount_bitlength_true a :
  validate_amount_bitlength a = true ↔ a < 2 ^ 100.
Proof.
  unfold validate_amount_bitlength. change (Z.shiftl 1 AMOUNT_BITS) with (2 ^ 100).
  rewrite Z.leb_le. lia.
Qed.

Lemma validate_price_bitlength_true fp :
  validate_price_bitlength fp = true ↔ repr fp < 2 ^ 127.
Proof.
  unfold validate_price_bitlength.
  change (scalar_from (Z.shiftl 1 PRICE_BITS - 1)) with (2 ^ 127 - 1).
  rewrite Z.leb_le. lia.
Qed.

Lemma floor_repr fp : 0 ≤ repr fp < 2 ^ 253 → floor fp = repr fp / 2 ^ 63.
Proof.
  intros H. unfold floor, scalar_to_bigint, DEFAULT_FP_PRECISION.
  rewrite Z.shiftr_div_pow2 by lia.
  rewrite bigint_to_scalar_nonneg by (apply Z.div_pos; lia).
  apply scalar_from_small. split; [apply Z.div_pos; lia|].
  apply Z.div_lt_upper_bound; lia.
Qed.

(** The product of a price and an amount is computed without wrapping in the
    field whenever it is below 2^253. *)
Lemma floor_mul_int_exact fp v :
  0 ≤ repr fp → 0 ≤ v < 2 ^ 253 → repr fp * v < 2 ^ 253 →
  floor_mul_int fp v = repr fp * v / 2 ^ 63.
Proof.
  intros Hr Hv Hp. unfold floor_mul_int, fp_mul_scalar.
  rewrite scalar_from_small by lia.
  assert (scalar_mul (repr fp) v = repr fp * v) as Hmul
    by (apply scalar_mod_small; nia).
  rewrite floor_repr; simpl; rewrite Hmul; [done|nia].
Qed.

(** ... and survives the truncation to [u128] whenever it fits. *)
Lemma floor_mul_int_u128 fp v :
  0 ≤ repr fp → 0 ≤ v < 2 ^ 253 → repr fp * v < 2 ^ 191 →
  scalar_to_u128 (floor_mul_int fp v) = repr fp * v / 2 ^ 63.
Proof.
  intros Hr Hv Hp. rewrite floor_mul_int_exact by lia. apply scalar_to_u128_small.
  split; [apply Z.div_pos; nia|apply Z.div_lt_upper_bound; lia].
Qed.

Lemma ceil_mul_int_exact fp v :
  0 ≤ repr fp → 0 ≤ v → repr fp * v < 2 ^ 253 →
  ceil_mul_int fp v = biguint_div_ceil (repr fp * v) (2 ^ 63).
Proof.
  intros Hr Hv Hp. unfold ceil_mul_int, scalar_to_biguint, biguint_to_scalar, biguint_div_ceil.
  rewrite TWO_TO_M_val.
  assert (0 ≤ repr fp * v) by nia.
  assert (0 ≤ repr fp * v / 2 ^ 63 < 2 ^ 190)
    by (split; [apply Z.div_pos; lia|apply Z.div_lt_upper_bound; lia]).
  rewrite scalar_from_small by lia.
  destruct (_ =? 0); [done|]. apply scalar_mod_small. lia.
Qed.

(** [biguint_div_ceil] is the least integer above the quotient. *)
Lemma biguint_div_ceil_le_iff a b c :
  0 < b → biguint_div_ceil a b ≤ c ↔ a ≤ c * b.
Proof.
  intros Hb. unfold biguint_div_ceil.
  pose proof (Z.div_mod a b ltac:(lia)) as Hd.
  pose proof (Z.mod_pos_bound a b Hb) as Hm.
  destruct (Z.eqb_spec (a mod b) 0); nia.
Qed.

(** Twice the modulus of rounding: dividing an integer by a fixed point. *)
Lemma div_int_val_repr val :
  0 ≤ val < 2 ^ 128 → scalar_mul (scalar_from val) TWO_TO_M_SCALAR = val * 2 ^ 63.
Proof.
  intros. rewrite scalar_from_small by lia. rewrite TWO_TO_M_SCALAR_val.
  apply scalar_mod_small. lia.
Qed.

Lemma inverse_exact fp :
  0 < repr fp → inverse fp = Some (mkFixedPoint (2 ^ 126 / repr fp)).
Proof.
  intros H. unfold inverse. destruct (Z.eqb_spec (repr fp) 0); [lia|].
  do 2 f_equal. unfold biguint_to_scalar, scalar_to_biguint. rewrite TWO_TO_2M_val.
  apply scalar_from_small. split; [apply Z.div_pos; lia|].
  apply Z.div_lt_upper_bound; lia.
Qed.

Lemma inverse_None fp : inverse fp = None ↔ repr fp = 0.
Proof. unfold inverse. destruct (Z.eqb_spec (repr fp) 0); split; naive_solver. Qed.

Lemma signed_repr_range fp :
  wf fp → - ((scalar_modulus - 1) / 2) ≤ signed_repr fp ≤ (scalar_modulus - 1) / 2.
Proof.
  unfold wf, is_scalar, signed_repr, is_negative. intros H.
  change ((scalar_modulus - 1) / 2) with
    10944121435919637611123202872628637544274182200208017171849102093287904247808 in *.
  unfold scalar_modulus in *.
  destruct (Z.ltb_spec 10944121435919637611123202872628637544274182200208017171849102093287904247808 (repr fp)); lia.
Qed.

Lemma cmp_nonneg x y :
  is_negative x = false → is_negative y = false → cmp x y = (repr x ?= repr y).
Proof. unfold cmp. by intros -> ->. Qed.

Lemma small_not_negative fp : repr fp < 2 ^ 252 → is_negative fp = false.
Proof.
  intros. unfold is_negative. apply Z.ltb_ge.
  assert (2 ^ 252 ≤ (scalar_modulus - 1) / 2) by (vm_compute; done). lia.
Qed.

Lemma fp_gtb_small x y :
  repr x < 2 ^ 252 → repr y < 2 ^ 252 → fp_gtb x y = (repr y <? repr x).
Proof.
  intros. unfold fp_gtb. rewrite cmp_nonneg by (by apply small_not_negative).
  unfold Z.ltb. rewrite (Z.compare_antisym (repr x)). by destruct (repr x ?= repr y).
Qed.

(** ** Properties *)

(** Multiplication by an integer rounds down or up to the nearest integer:
    for a price and an amount within the protocol's bit lengths, no field
    wrap-around occurs, [floor_mul_int] is the greatest integer [k] with
    [k * 2^63 <= repr * v], [ceil_mul_int] is the least integer [k] with
    [repr * v <= k * 2^63], and they differ by at most one. *)
Theorem mul_int_rounding (fp : FixedPoint) (v : Amount) :
  0 ≤ repr fp → 0 ≤ v →
  validate_price_bitlength fp = true → validate_amount_bitlength v = true →
  (∀ k, k ≤ floor_mul_int fp v ↔ k * 2 ^ 63 ≤ repr fp * v) ∧
  (∀ k, ceil_mul_int fp v ≤ k ↔ repr fp * v ≤ k * 2 ^ 63) ∧
  floor_mul_int fp v ≤ ceil_mul_int fp v ≤ floor_mul_int fp v + 1.
Proof.
  rewrite validate_price_bitlength_true, validate_amount_bitlength_true. intros Hr Hv Hp Ha.
  rewrite floor_mul_int_exact by nia. rewrite ceil_mul_int_exact by nia.
  split; [|split].
  - intros k. by apply le_div_iff.
  - intros k. by apply biguint_div_ceil_le_iff.
  - unfold biguint_div_ceil. destruct (_ =? 0); lia.
Qed.

Lemma mul_int_rounding_witness :
  ∃ fp v, floor_mul_int fp v = 4 ∧ ceil_mul_int fp v = 5 ∧
    floor_mul_int fp v ≤ ceil_mul_int fp v.
Proof.
  exists (mkFixedPoint (3 * 2 ^ 62)), 3.
  split; [done|]. split; [done|].
  destruct (mul_int_rounding (mkFixedPoint (3 * 2 ^ 62)) 3) as (_ & _ & H);
    [done|done|done|done|]. apply H.
Defined.

(** Dividing an integer amount by a price: [floor_div_int] is the greatest
    [a] with [a * fp <= val] and [ceil_div_int] the least [a] with [val <= a * fp]
    (both inclusive); neither wraps for any [u128]; both panic only on zero. *)
Theorem div_int_adjoint (fp : FixedPoint) (val : Amount) :
  0 < repr fp → is_u128 val →
  ∃ q c, floor_div_int fp val = Some q ∧ ceil_div_int fp val = Some c ∧
    (∀ a, a ≤ q ↔ a * repr fp ≤ val * 2 ^ 63) ∧
    (∀ a, c ≤ a ↔ val * 2 ^ 63 ≤ a * repr fp).
Proof.
  intros Hr Hv%is_u128_lt. unfold floor_div_int, ceil_div_int, scalar_to_biguint.
  rewrite div_int_val_repr by lia.
  destruct (Z.eqb_spec (repr fp) 0); [lia|].
  assert (0 ≤ val * 2 ^ 63 / repr fp < 2 ^ 192)
    by (split; [apply Z.div_pos; lia|apply Z.div_lt_upper_bound; nia]).
  unfold biguint_to_scalar. rewrite scalar_from_small by lia.
  eexists _, _. split; [done|]. split; [done|]. split.
  - intros a. by apply le_div_iff.
  - intros a. rewrite <-biguint_div_ceil_le_iff by done. unfold biguint_div_ceil.
    destruct (_ =? 0); [done|]. unfold scalar_add. rewrite scalar_mod_small by lia. done.
Qed.

Lemma div_int_adjoint_witness :
  ∃ q c, floor_div_int (mkFixedPoint (3 * 2 ^ 63)) 10 = Some q ∧
         ceil_div_int (mkFixedPoint (3 * 2 ^ 63)) 10 = Some c ∧ q = 3 ∧ c = 4.
Proof.
  destruct (div_int_adjoint (mkFixedPoint (3 * 2 ^ 63)) 10) as (q & c & Hq & Hc & _);
    [done|done|].
  exists q, c. split; [done|]. split; [done|].
  vm_compute in Hq, Hc. by simplify_eq.
Defined.

Lemma wf_compare_neg x y :
  (signed_repr x ?= signed_repr y) =
  match is_negative x, is_negative y with
  | true, true => repr x ?= repr y
  | false, false => repr x ?= repr y
  | true, false => repr x - scalar_modulus ?= repr y
  | false, true => repr x ?= repr y - scalar_modulus
  end.
Proof.
  unfold signed_repr. destruct (is_negative x), (is_negative y); try done.
  unfold Z.sub. rewrite !(Z.add_comm _ (- scalar_modulus)). apply Z.add_compare_mono_l.
Qed.

(** [Ord for FixedPoint] agrees with the order of the signed numbers the
    representations stand for unless both are negative; on two negative numbers it is
    the reverse of that order (the source's comment that a larger representation is
    more negative is wrong: -1 is p - 1 and -2 is p - 2). *)
Theorem cmp_signed (x y : FixedPoint) :
  wf x → wf y →
  cmp x y =
    if is_negative x && is_negative y then signed_repr y ?= signed_repr x
    else signed_repr x ?= signed_repr y.
Proof.
  unfold wf, is_scalar. intros Hx Hy. rewrite !wf_compare_neg. unfold cmp.
  destruct (is_negative x) eqn:Nx, (is_negative y) eqn:Ny; simpl; try done; symmetry.
  - apply Z.compare_lt_iff. lia.
  - apply Z.compare_gt_iff. lia.
Qed.

Lemma cmp_signed_witness :
  signed_repr (fp_neg one) = - 2 ^ 63 ∧ signed_repr (fp_neg (from_integer 2)) = - 2 ^ 64 ∧
  cmp (fp_neg one) (fp_neg (from_integer 2)) = Lt.
Proof.
  split; [done|]. split; [done|].
  rewrite (cmp_signed (fp_neg one) (fp_neg (from_integer 2)));
    [vm_compute; done|split; vm_compute; done|split; vm_compute; done].
Defined.

(** [inverse] of a non-zero price is the greatest fixed point whose product with
    the price is at most one, it is antitone, and inverting twice never falls below
    the original; zero is the only input without an inverse. *)
Theorem inverse_adjoint (x : FixedPoint) :
  0 < repr x →
  ∃ i, inverse x = Some i ∧
    (∀ k, k ≤ repr i ↔ k * repr x ≤ 2 ^ 126) ∧
    (∀ y j, repr x ≤ repr y → inverse y = Some j → repr j ≤ repr i) ∧
    (∀ ii, inverse i = Some ii → repr x ≤ repr ii).
Proof.
  intros Hx. eexists. split; [by apply inverse_exact|]. simpl.
  split; [|split].
  - intros k. by apply le_div_iff.
  - intros y j Hxy. rewrite inverse_exact by lia. intros [= <-]. simpl.
    apply Z.div_le_compat_l; lia.
  - intros ii Hii. set (i := 2 ^ 126 / repr x) in *.
    assert (0 ≤ i) by (apply Z.div_pos; lia).
    destruct (decide (i = 0)) as [Hi|Hi].
    + by rewrite (proj2 (inverse_None (mkFixedPoint i)) Hi) in Hii.
    + rewrite inverse_exact in Hii by (simpl; lia). simplify_eq/=.
      apply le_div_iff; [lia|]. rewrite Z.mul_comm. by apply div_mul_le_bound.
Qed.

Lemma inverse_adjoint_witness :
  ∃ i, inverse (from_integer 3) = Some i ∧ repr i = 2 ^ 63 / 3.
Proof.
  destruct (inverse_adjoint (from_integer 3)) as (i & Hi & _); [done|].
  exists i. split; [done|]. vm_compute in Hi. by simplify_eq.
Defined.
