(* ===== verification/Poseidon2.v ===== *)
(** * The Poseidon2 hash function

    src/crates/crypto/src/hash/{mod,poseidon2,constants}.rs: the permutation over
    three scalars, the rate-2 sponge built on it and [compute_poseidon_hash], with
    which commitments, nullifiers and stream-cipher pads are computed.  The round
    constants are the source's limbs.  [absorb] returns [None] where the source's
    assertion fails.

    The file shows that the optimised linear layers are the documented matrices,
    that the hash of a list never panics and is the plain block-by-block sponge, and
    that the sponge does not pad. *)
From S2P Require Import Prelude Scalar.
Local Open Scope Z_scope.

(** ** Constants (constants.rs) *)

Definition R_F : nat := 8.
Definition R_P : nat := 56.
Definition WIDTH : nat := 3.
Definition RATE : nat := 2.
Definition CAPACITY : nat := 1.

(** [ScalarField::new(BigInt::new([l0, l1, l2, l3]))]: little-endian 64-bit limbs. *)
Definition field_new (l0 l1 l2 l3 : Z) : Scalar :=
  scalar_from (l0 + l1 * 2 ^ 64 + l2 * 2 ^ 128 + l3 * 2 ^ 192).

Definition FULL_ROUND_CONSTANTS : list (list Scalar) := [
  [ field_new 6458331304642816022 9191791745966588794 10078444264992802031 2091475785534126077
  ; field_new 13196537876657739280 13242552074285594254 12411648568120336672 3015986462747209158
  ; field_new 11424359946556596689 2698455998639397967 2219105332273731329 2246365349865385472 ] ;
  [ field_new 15782428245603856869 12762929946389366497 13652592920561494567 769322212625167858
  ; field_new 656627337302130472 3963883011537030758 15489675571286521695 2473147239071445900
  ; field_new 15321051510152419125 10502964042640599943 6513797472532144639 1883790224900438088 ] ;
  [ field_new 5753026235266483322 738961277496629169 8934088858439642033 2520967471806658381
  ; field_new 17282094170399272525 16580379156546658773 11299574250627272826 1178195396411754989
  ; field_new 11843547806398251470 2387753460292841813 17734952367284543128 197758656190898648 ] ;
  [ field_new 11673112823341286564 12369618416529278774 2844207100017432099 1065502144839691590
  ; field_new 5258847900301915518 6505352688770326422 6071654207755516479 2967749481702258496
  ; field_new 892821802737558910 14727071363237210694 2792543592443165093 2830937070444722279 ] ;
  [ field_new 8705540160700578512 6746830576917213441 7092845282961761070 1931309519409552049
  ; field_new 14595188708134663589 2015698889624141507 14187205567353648784 1871427985608321894
  ; field_new 16271429997482961043 468818470830000426 7996775362779455505 2021487601170175912 ] ;
  [ field_new 1733406684830268733 18152518321385677508 5836227034235395097 1491710151164857790
  ; field_new 12660150021064259934 13267881929723736097 10315712918880346551 2108981438329286341
  ; field_new 8525962534445484028 9934399915059914018 6988064890623532430 2207548493368319419 ] ;
  [ field_new 1390870045172465649 6422021221791678552 13078062013033884631 322243138126305932
  ; field_new 2080203751875985086 7362864967529529522 17728687880877874386 1812467639561021094
  ; field_new 260056793786564966 12888488316328472437 14360227994345277611 1450833317726038835 ] ;
  [ field_new 17947676061038389710 12834170303949236259 11384599308972499080 143388347964205391
  ; field_new 6546071725730114135 12601887796104903258 8919969549330983706 1794029064565484592
  ; field_new 1021565994830986662 10934776881971040877 12375328443065392690 1135395077632659701 ]
].

Definition PARTIAL_ROUND_CONSTANTS : list Scalar := [
  field_new 5302271620417049781 14906098032514729777 13131960320030414264 1881667084089419620;
  field_new 13338254911895600183 586415510492166035 9483754624098305591 2786538975574068840;
  field_new 809569393612520424 528120150944813735 9342005836485684535 899704706212247635;
  field_new 17137185606063142037 13415865686895593136 11391838450430455070 2086742809232669367;
  field_new 8843393565329129737 1838180464329137089 6218527723244609675 1107386903008522679;
  field_new 4809630522644666222 17535228293073829195 10801336483130722817 1792268399693959384;
  field_new 5634636821807834076 15053876840384767471 7947578098813132826 357964892642556076;
  field_new 16527458989744188390 16677040905594745484 4341476110168786225 3010494594414878830;
  field_new 63306881032388373 7327841382898372030 13858532193471856477 1841200778148548229;
  field_new 5319782128374767476 12105534410073556125 7706728210739274202 2733165640907410782;
  field_new 13905011766727611265 397545458774684082 2618297833076747029 1409249416379998688;
  field_new 4617094559105111687 4793267458613048010 17791403032818154766 3486234691922257694;
  field_new 9674187949040268832 2439672703657190660 3127451649443712794 1877012939541750851;
  field_new 12273040699418823327 17004437659862682988 4609551378284273612 3118377810905829727;
  field_new 18106409021383810916 7005941813576523867 142065113101712121 1356675148274829111;
  field_new 13417219845588204063 18098831554155340941 8139412102635653279 2752703017946725000;
  field_new 9030911001104498125 17918615306737643293 777016847745710800 726472871956080806;
  field_new 15584670787591111609 2863790524049332765 1900103773593318106 2948408348452667051;
  field_new 16867895570996871532 9840099798364396799 680609925832583881 2047644432353969731;
  field_new 3617622047312850068 5723491105472485545 3108891270768987616 2290053041924610425;
  field_new 16635599629165910696 13889630767821251854 16393349863559499543 279513358749840108;
  field_new 4991402318615115981 5063502445310142847 7620324954341078828 3257591428770437702;
  field_new 15081224770952329547 5919227265182789027 17764430127524375836 669620769166038202;
  field_new 15360420589354587895 16261191412625806761 1854549200062090405 1833065620299829980;
  field_new 6975783924512399374 9737821894529518142 2291263480286660018 702362307909111359;
  field_new 6069171416060354126 3752469561037779032 5834479341906125444 1730499498393076028;
  field_new 15285076325592677980 13794437892125540525 3483915936988995384 1117085899585373406;
  field_new 9062361212365479288 12380341930130305002 15528130627563932004 1328247396736374211;
  field_new 17259757026730354065 1151600880302546424 7620006839548456097 2576626133210285583;
  field_new 8960531168600849300 4461975299424440180 17009261745893778992 3038488690496386825;
  field_new 13165667200848562987 14110818871887028667 5180761908053230572 555646921363871471;
  field_new 1381758840622748093 9986911534659916114 9826174633534139965 2824156456769809917;
  field_new 3413617401377599094 17258722595927485798 15605954241271186193 2115646988530496184;
  field_new 8945482950897992840 702592287789103350 3686043328539833836 3425852069776866095;
  field_new 7376743520743437269 2111267269708684676 15878419741432144411 2191075595829647030;
  field_new 2259619124330372427 12001441661304539563 6902370926577093337 1282945395516133573;
  field_new 16729565964201713852 6956698123409511863 3383169071491634900 2405817082479101412;
  field_new 5320921342946068874 2691715029914560996 10930922554022577632 1001529153797943229;
  field_new 11171553171900432536 15969234436173575856 16356721817558633473 3085620780208706067;
  field_new 15228643841329377399 4455358404709847991 7982463345877531625 2119812921062617820;
  field_new 14097760453325158398 856786123610740072 13335858100674396141 1612490154809976395;
  field_new 10854412943914486782 14892522000790554512 1247299884213565152 28614983888150324;
  field_new 14929667005143385101 3836713032172734107 8315888069836105516 2238834806901519768;
  field_new 1227321958173010238 4310456818987391418 12986075078568625117 2763362288870467025;
  field_new 7441031895532537359 9599919680464559728 8931488460254525139 1654118242821888559;
  field_new 16259374832042614367 6237462359444241861 11048481482555464692 1927010586885088017;
  field_new 147832287409453657 11483538217836605698 15607570256914320247 1027503282893456593;
  field_new 12124132488385046214 31921346119029583 5274767504760454943 1043762827231794559;
  field_new 5509839628418401949 7018542083821702829 1594960980879474461 581703325927526154;
  field_new 3325744805996203348 7543499699481574044 13522420521837659136 2424535168622248373;
  field_new 8264568362009840078 13623416661050546942 12497801165521077958 140459674360179844;
  field_new 5605477589105515659 10084396541222391775 183568619191429726 797512561166172386;
  field_new 3774123395629030959 2881218385746366730 17361136136679132462 2033634766325428180;
  field_new 12812937017348375870 3412938269445494740 4781767212785234811 2056393341899272936;
  field_new 10048060944186642319 2426675488974593715 17785911234421064746 230367907622696299;
  field_new 6619695695594038473 5832859038197865707 7480173222580839341 2774347868835657535
].

(** ** The permutation *)

Definition apply_sbox (val : Scalar) : Scalar :=
  let sq := scalar_mul val val in
  let quad := scalar_mul sq sq in
  scalar_mul quad val.

Definition external_add_rc (round_number : nat) (state : list Scalar) : list Scalar :=
  zip_with scalar_add state (FULL_ROUND_CONSTANTS !!! round_number).

Definition external_sbox (state : list Scalar) : list Scalar := apply_sbox <$> state.

Definition external_mds (state : list Scalar) : list Scalar :=
  let sum := foldl scalar_add 0 state in
  (λ x, scalar_add x sum) <$> state.

Definition external_round (round_number : nat) (state : list Scalar) : list Scalar :=
  external_mds (external_sbox (external_add_rc round_number state)).

Definition internal_add_rc (round_number : nat) (state : list Scalar) : list Scalar :=
  alter (λ x, scalar_add x (PARTIAL_ROUND_CONSTANTS !!! round_number)) 0%nat state.

Definition internal_sbox (state : list Scalar) : list Scalar := alter apply_sbox 0%nat state.

Definition internal_mds (state : list Scalar) : list Scalar :=
  let sum := foldl scalar_add 0 state in
  let state' := alter (λ x, scalar_add x x) (WIDTH - 1)%nat state in
  (λ x, scalar_add x sum) <$> state'.

Definition internal_round (round_number : nat) (state : list Scalar) : list Scalar :=
  internal_mds (internal_sbox (internal_add_rc round_number state)).

Definition permute (state : list Scalar) : list Scalar :=
  let HALF := (R_F / 2)%nat in
  let st := external_mds state in
  let st := foldl (λ s i, external_round i s) st (seq 0 HALF) in
  let st := foldl (λ s i, internal_round i s) st (seq 0 R_P) in
  foldl (λ s i, external_round i s) st (seq HALF (R_F - HALF)).

(** ** The sponge *)

Record Poseidon2Sponge := mkSponge {
  sp_state : list Scalar;
  sp_next_index : nat;
  sp_squeezing : bool;
}.

Definition sponge_new : Poseidon2Sponge := mkSponge (replicate WIDTH 0) 0 false.

(** [None]: the assertion that the sponge is not squeezing fails. *)
Definition absorb (s : Poseidon2Sponge) (x : Scalar) : option Poseidon2Sponge :=
  if sp_squeezing s then None else
  let s :=
    if (sp_next_index s =? RATE)%nat
    then mkSponge (permute (sp_state s)) 0 (sp_squeezing s) else s in
  let entry := (sp_next_index s + CAPACITY)%nat in
  Some (mkSponge (alter (λ y, scalar_add y x) entry (sp_state s))
          (sp_next_index s + 1) (sp_squeezing s)).

Fixpoint absorb_batch (s : Poseidon2Sponge) (xs : list Scalar) : option Poseidon2Sponge :=
  match xs with
  | [] => Some s
  | x :: xs' => absorb s x ≫= λ s', absorb_batch s' xs'
  end.

Definition squeeze (s : Poseidon2Sponge) : Scalar * Poseidon2Sponge :=
  let s :=
    if negb (sp_squeezing s) || (sp_next_index s =? RATE)%nat
    then mkSponge (permute (sp_state s)) 0 true else s in
  let entry := (sp_next_index s + CAPACITY)%nat in
  (sp_state s !!! entry, mkSponge (sp_state s) (sp_next_index s + 1) (sp_squeezing s)).

Fixpoint squeeze_batch (s : Poseidon2Sponge) (n : nat) : list Scalar * Poseidon2Sponge :=
  match n with
  | O => ([], s)
  | S n' =>
      let '(x, s') := squeeze s in
      let '(xs, s'') := squeeze_batch s' n' in (x :: xs, s'')
  end.

Definition sponge_hash (s : Poseidon2Sponge) (seq : list Scalar)
    : option (Scalar * Poseidon2Sponge) :=
  s' ← absorb_batch s seq; Some (squeeze s').

(** [compute_poseidon_hash]; a fresh sponge never panics ([sponge_hash_spec]), so the
    default is never taken. *)
Definition compute_poseidon_hash (values : list Scalar) : Scalar :=
  default 0 (fst <$> sponge_hash sponge_new values).

(** ** Reference definitions *)

(** The matrices of the documentation, and matrix multiplication in the field. *)
Definition M_E : list (list Z) := [[2; 1; 1]; [1; 2; 1]; [1; 1; 2]].
Definition M_I : list (list Z) := [[2; 1; 1]; [1; 2; 1]; [1; 1; 3]].
Definition mat_mul (m : list (list Z)) (v : list Scalar) : list Scalar :=
  (λ row, foldr (λ c acc, scalar_add (scalar_mul c.1 c.2) acc) 0 (zip row v)) <$> m.

(** Add a block to the rate part of the state. *)
Definition add_block (st : list Scalar) (x y : Scalar) : list Scalar :=
  alter (λ z, scalar_add z y) 2%nat (alter (λ z, scalar_add z x) 1%nat st).

(** The sponge over a permutation [perm], block by block. *)
Fixpoint sponge_spec (perm : list Scalar → list Scalar) (st : list Scalar)
    (xs : list Scalar) : list Scalar :=
  match xs with
  | [] => perm st
  | [x] => perm (add_block st x 0)
  | x :: y :: rest =>
      match rest with
      | [] => perm (add_block st x y)
      | _ => sponge_spec perm (perm (add_block st x y)) rest
      end
  end.

(** A state of the permutation: [WIDTH] canonical scalars. *)
Definition is_state (st : list Scalar) : Prop :=
  length st = WIDTH ∧ Forall is_scalar st.

(** ** Linear layers *)

Lemma state_inv (st : list Scalar) :
  length st = WIDTH → ∃ a b c, st = [a; b; c].
Proof. destruct st as [|a [|b [|c [|]]]]; try done. eauto. Qed.

(** Inverses of the linear layers; 4, 7 and 2 are units of the field. *)
Definition inv4 : Scalar := (scalar_modulus * 3 + 1) / 4.
Definition inv7 : Scalar := (scalar_modulus + 1) / 7.
Definition inv2 : Scalar := (scalar_modulus + 1) / 2.

Definition external_mds_inv (st : list Scalar) : list Scalar :=
  let s := scalar_mul inv4 (foldl scalar_add 0 st) in
  (λ x, scalar_sub x s) <$> st.

Definition internal_mds_inv (st : list Scalar) : list Scalar :=
  match st with
  | [x; y; z] =>
      let s := scalar_mul inv7 (scalar_sub (scalar_mul 2 (foldl scalar_add 0 st)) z) in
      [scalar_sub x s; scalar_sub y s; scalar_mul inv2 (scalar_sub z s)]
  | _ => st
  end.

Lemma inv_units :
  (inv4 * 4) mod scalar_modulus = 1 ∧ (inv7 * 7) mod scalar_modulus = 1 ∧
  (inv2 * 2) mod scalar_modulus = 1.
Proof. vm_compute. done. Qed.

Lemma unit_mul u k x : (u * k) mod scalar_modulus = 1 →
  scalar_mul u (k * x) = scalar_from x.
Proof.
  intros H. unfold scalar_mul, scalar_from.
  rewrite Z.mul_assoc, <-Zmult_mod_idemp_l, H. f_equal. lia.
Qed.

Ltac state_eq :=
  repeat (apply (f_equal2 cons); [by field_mod|]); reflexivity.

(** The layers on a state, with the sum reduced once. *)
Definition sum3 (a b c : Scalar) : Scalar := (a + b + c) mod scalar_modulus.

Lemma external_mds_3 a b c :
  external_mds [a; b; c] =
  [scalar_add a (sum3 a b c); scalar_add b (sum3 a b c); scalar_add c (sum3 a b c)].
Proof. unfold external_mds, sum3. simpl. state_eq. Qed.

Lemma internal_mds_3 a b c :
  internal_mds [a; b; c] =
  [scalar_add a (sum3 a b c); scalar_add b (sum3 a b c); scalar_add (2 * c) (sum3 a b c)].
Proof. unfold internal_mds, sum3. simpl. state_eq. Qed.

Lemma external_mds_cancel st : is_state st → external_mds_inv (external_mds st) = st.
Proof.
  intros [(a & b & c & ->)%state_inv Hst]. rewrite external_mds_3.
  unfold external_mds_inv. simpl.
  match goal with |- context [scalar_mul inv4 ?x] =>
    replace (scalar_mul inv4 x) with (sum3 a b c) end.
  - rewrite !scalar_sub_add. rewrite !Forall_cons in Hst.
    destruct Hst as (Ha & Hb & Hc & _). by rewrite !scalar_from_id.
  - trans (scalar_mul inv4 (4 * (a + b + c))).
    + rewrite unit_mul by apply inv_units. done.
    + unfold sum3. field_mod.
Qed.

Lemma internal_mds_cancel st : is_state st → internal_mds_inv (internal_mds st) = st.
Proof.
  intros [(a & b & c & ->)%state_inv Hst]. rewrite internal_mds_3.
  unfold internal_mds_inv. simpl.
  match goal with |- context [scalar_mul inv7 ?x] =>
    replace (scalar_mul inv7 x) with (sum3 a b c) end.
  - rewrite !scalar_sub_add. rewrite !Forall_cons in Hst.
    destruct Hst as (Ha & Hb & Hc & _).
    rewrite !(scalar_from_id a), !(scalar_from_id b) by done.
    do 3 f_equal. rewrite <-(scalar_from_id c) at 2 by done.
    rewrite <-(unit_mul inv2 2 c) by apply inv_units. field_mod.
  - trans (scalar_mul inv7 (7 * (a + b + c))).
    + rewrite unit_mul by apply inv_units. done.
    + unfold sum3. field_mod.
Qed.

Lemma mat_mul_3 m a b c :
  Forall (λ row, length row = 3%nat) m →
  mat_mul m [a; b; c] =
  (λ row, (row !!! 0%nat * a + row !!! 1%nat * b + row !!! 2%nat * c) mod scalar_modulus) <$> m.
Proof.
  intros Hm. apply list_fmap_ext. intros i row Hrow.
  eapply Forall_lookup_1 in Hm; [|done].
  destruct row as [|x [|y [|z [|]]]]; try done. simpl. field_mod.
Qed.

(** The optimised layers are multiplication by the documented matrices. *)
Lemma linear_layers_matrix st :
  length st = WIDTH → external_mds st = mat_mul M_E st ∧ internal_mds st = mat_mul M_I st.
Proof.
  intros (a & b & c & ->)%state_inv.
  rewrite external_mds_3, internal_mds_3, !mat_mul_3 by (repeat constructor).
  unfold sum3. simpl. split; state_eq.
Qed.

(** ** States stay states *)

Lemma Forall_is_scalar_fmap {A} (f : A → Scalar) l :
  (∀ x, is_scalar (f x)) → Forall is_scalar (f <$> l).
Proof. intros H. by apply Forall_fmap, Forall_true. Qed.

Lemma external_mds_state st : length st = WIDTH → is_state (external_mds st).
Proof.
  intros Hl. split; [unfold external_mds; by rewrite length_fmap|].
  apply Forall_is_scalar_fmap. auto with relayer.
Qed.

Lemma internal_mds_state st : length st = WIDTH → is_state (internal_mds st).
Proof.
  intros Hl. split; [unfold internal_mds; by rewrite length_fmap, length_alter|].
  apply Forall_is_scalar_fmap. auto with relayer.
Qed.

Lemma full_round_constants_width i :
  (i < R_F)%nat → length (FULL_ROUND_CONSTANTS !!! i) = WIDTH.
Proof. intros Hi. do 8 (destruct i as [|i]; [done|]). unfold R_F in Hi. lia. Qed.

Lemma external_round_state i st :
  (i < R_F)%nat → length st = WIDTH → is_state (external_round i st).
Proof.
  intros Hi Hl. apply external_mds_state. unfold external_sbox, external_add_rc.
  rewrite length_fmap, length_zip_with, full_round_constants_width by done. lia.
Qed.

Lemma internal_round_state i st : length st = WIDTH → is_state (internal_round i st).
Proof.
  intros Hl. apply internal_mds_state. unfold internal_sbox, internal_add_rc.
  by rewrite !length_alter.
Qed.

Lemma foldl_is_state (f : nat → list Scalar → list Scalar) rounds st :
  Forall (λ i, ∀ s, is_state s → is_state (f i s)) rounds →
  is_state st → is_state (foldl (λ s i, f i s) st rounds).
Proof. intros Hf. revert st. induction Hf; simpl; auto. Qed.

Lemma permute_state st : length st = WIDTH → is_state (permute st).
Proof.
  intros Hl. unfold permute.
  assert (∀ lo n, (lo + n ≤ R_F)%nat →
    Forall (λ i, ∀ s, is_state s → is_state (external_round i s)) (seq lo n)) as Hext.
  { intros lo n Hn. apply Forall_seq. intros i Hi s [Hs _]. apply external_round_state; [lia|done]. }
  apply foldl_is_state; [by apply Hext|]. apply foldl_is_state.
  - apply Forall_true. intros i s [Hs _]. by apply internal_round_state.
  - apply foldl_is_state; [apply Hext; vm_compute; lia|]. by apply external_mds_state.
Qed.

(** ** The sponge is the block-by-block sponge *)

#[local] Opaque permute.

Lemma zero_state : is_state (replicate WIDTH 0).
Proof. split; [done|]. apply Forall_replicate. auto with relayer. Qed.

Lemma add_block_state st x y : is_state st → is_state (add_block st x y).
Proof.
  intros [(a & b & c & ->)%state_inv Hst]. rewrite !Forall_cons in Hst.
  destruct Hst as (Ha & Hb & Hc & _).
  split; [done|]. unfold add_block. simpl. rewrite !Forall_cons. auto with relayer.
Qed.

Lemma add_block_0 st x :
  is_state st → add_block st x 0 = alter (λ z, scalar_add z x) 1%nat st.
Proof.
  intros [(a & b & c & ->)%state_inv Hst]. rewrite !Forall_cons in Hst. unfold add_block. simpl.
  destruct Hst as (_ & _ & Hc & _). do 3 f_equal. unfold scalar_add.
  rewrite Z.add_0_r. by apply scalar_from_id.
Qed.

Lemma absorb_0 st x :
  absorb (mkSponge st 0 false) x =
  Some (mkSponge (alter (λ y, scalar_add y x) 1%nat st) 1 false).
Proof. reflexivity. Qed.

Lemma absorb_1 st x :
  absorb (mkSponge st 1 false) x =
  Some (mkSponge (alter (λ y, scalar_add y x) 2%nat st) 2 false).
Proof. reflexivity. Qed.

Lemma absorb_full st z :
  absorb (mkSponge st 2 false) z = absorb (mkSponge (permute st) 0 false) z.
Proof. rewrite absorb_0. reflexivity. Qed.

Lemma absorb_batch_cons s x xs :
  absorb_batch s (x :: xs) = absorb s x ≫= λ s', absorb_batch s' xs.
Proof. reflexivity. Qed.

Lemma absorb_batch_spec xs st :
  is_state st →
  ∃ s', absorb_batch (mkSponge st 0 false) xs = Some s' ∧ sp_squeezing s' = false ∧
    permute (sp_state s') = sponge_spec permute st xs.
Proof.
  remember (length xs) as n eqn:Hn. revert xs st Hn.
  induction (lt_wf n) as [n _ IH]. intros xs st Hn Hst.
  destruct xs as [|x xs]; [by eexists|]. rewrite absorb_batch_cons, absorb_0.
  destruct xs as [|y xs].
  { eexists. split; [reflexivity|]. split; [reflexivity|].
    cbn [sponge_spec sp_state]. by rewrite add_block_0. }
  cbn [mbind option_bind]. rewrite absorb_batch_cons, absorb_1.
  destruct xs as [|z rest]; [by eexists|].
  cbn [mbind option_bind]. rewrite absorb_batch_cons, absorb_full, <-absorb_batch_cons.
  apply (IH (length (z :: rest)) ltac:(simpl in *; lia) (z :: rest)); [done|].
  apply permute_state, add_block_state, Hst.
Qed.

Lemma squeeze_fresh s :
  sp_squeezing s = false → (squeeze s).1 = permute (sp_state s) !!! 1%nat.
Proof. intros H. unfold squeeze. rewrite H. reflexivity. Qed.

Lemma sponge_hash_new values :
  fst <$> sponge_hash sponge_new values = Some (sponge_spec permute (replicate WIDTH 0) values !!! 1%nat).
Proof.
  destruct (absorb_batch_spec values (replicate WIDTH 0)) as (s' & Habs & Hsq & Hst).
  { apply zero_state. }
  unfold sponge_hash, sponge_new. rewrite Habs. cbn [mbind option_bind fmap option_fmap option_map].
  by rewrite squeeze_fresh, Hst.
Qed.

Lemma compute_poseidon_hash_spec values :
  compute_poseidon_hash values = sponge_spec permute (replicate WIDTH 0) values !!! 1%nat.
Proof. unfold compute_poseidon_hash. by rewrite sponge_hash_new. Qed.

Lemma sponge_spec_state xs st : is_state st → is_state (sponge_spec permute st xs).
Proof.
  remember (length xs) as n eqn:Hn. revert xs st Hn.
  induction (lt_wf n) as [n _ IH]. intros xs st Hn Hst.
  destruct xs as [|x [|y [|z rest]]]; cbn [sponge_spec].
  - apply permute_state, Hst.
  - apply permute_state, add_block_state, Hst.
  - apply permute_state, add_block_state, Hst.
  - apply (IH (length (z :: rest)) ltac:(simpl in *; lia) (z :: rest)); [done|].
    apply permute_state, add_block_state, Hst.
Qed.

Lemma compute_poseidon_hash_is_scalar values : is_scalar (compute_poseidon_hash values).
Proof.
  rewrite compute_poseidon_hash_spec.
  destruct (sponge_spec_state values (replicate WIDTH 0)) as [(a & b & c & Heq)%state_inv Hf].
  { apply zero_state. }
  rewrite Heq in *. rewrite !Forall_cons in Hf. apply Hf.
Qed.
#[export] Hint Resolve compute_poseidon_hash_is_scalar : relayer.

Lemma sponge_spec_pad xs st :
  Nat.odd (length xs) = true → sponge_spec permute st (xs ++ [0]) = sponge_spec permute st xs.
Proof.
  remember (length xs) as n eqn:Hn. revert xs st Hn.
  induction (lt_wf n) as [n _ IH]. intros xs st -> Hodd.
  destruct xs as [|x [|y [|z rest]]]; try done.
  cbn [sponge_spec app].
  by apply (IH (length (z :: rest)) ltac:(simpl in *; lia) (z :: rest)).
Qed.

(** ** Properties *)

(** The optimised linear layers of the permutation are multiplication by the
    documented matrices circ(2,1,1) and [[2,1,1],[1,2,1],[1,1,3]] in the field, and both
    are invertible on canonical states. *)
Theorem poseidon2_linear_layers (st : list Scalar) :
  is_state st →
  external_mds st = mat_mul M_E st ∧ internal_mds st = mat_mul M_I st ∧
  external_mds_inv (external_mds st) = st ∧ internal_mds_inv (internal_mds st) = st.
Proof.
  intros Hst. destruct (linear_layers_matrix st (proj1 Hst)).
  split_and!; [done|done|by apply external_mds_cancel|by apply internal_mds_cancel].
Qed.

Lemma poseidon2_linear_layers_witness :
  external_mds [1; 2; 3] = [7; 8; 9] ∧ internal_mds [1; 2; 3] = mat_mul M_I [1; 2; 3].
Proof.
  split; [done|].
  apply (poseidon2_linear_layers [1; 2; 3]).
  split; [done|]. repeat constructor; vm_compute; done.
Defined.

(** Hashing with a fresh sponge never trips the squeezing assertion, and the
    element-wise absorb with its lazy permutation computes the block-by-block sponge:
    two scalars are added to the rate, then the state is permuted, and the first rate
    element of the last state is the digest, a canonical scalar.  The sponge does not
    pad: an odd-length input and the same input followed by zero have the same digest. *)
Theorem poseidon_hash_spec (values : list Scalar) :
  fst <$> sponge_hash sponge_new values =
    Some (sponge_spec permute (replicate WIDTH 0) values !!! 1%nat) ∧
  compute_poseidon_hash values = sponge_spec permute (replicate WIDTH 0) values !!! 1%nat ∧
  is_scalar (compute_poseidon_hash values) ∧
  (Nat.odd (length values) = true →
   compute_poseidon_hash (values ++ [0]) = compute_poseidon_hash values).
Proof.
  split_and!; [apply sponge_hash_new|apply compute_poseidon_hash_spec|
               apply compute_poseidon_hash_is_scalar|].
  intros Hodd. rewrite !compute_poseidon_hash_spec. by rewrite sponge_spec_pad.
Qed.

#[global] Opaque compute_poseidon_hash.

(** The hash with its definition hidden, for specifications: comparing two digests
    must never run the permutation. *)
Lemma sealed_hash : { f : list Scalar → Scalar | f = compute_poseidon_hash }.
Proof. by eexists. Qed.
Definition poseidon_hash : list Scalar → Scalar := proj1_sig sealed_hash.
Definition H2 (a b : Scalar) : Scalar := poseidon_hash [a; b].

Lemma poseidon_hash_eq : poseidon_hash = compute_poseidon_hash.
Proof. apply (proj2_sig sealed_hash). Qed.
Lemma poseidon_hash_is_scalar values : is_scalar (poseidon_hash values).
Proof. rewrite poseidon_hash_eq. apply compute_poseidon_hash_is_scalar. Qed.
#[export] Hint Resolve poseidon_hash_is_scalar : relayer.
