(* ===== verification/BaseType.v ===== *)
(** * Serialization of darkpool types to scalars

    The [BaseType] and [SecretShareBaseType] traits of
    src/crates/circuits/circuit-types/src/traits.rs, their instances for machine
    integers, scalars and addresses, and the struct instances the [circuit_type]
    macro generates (src/crates/circuits/circuit-macros/src/circuit_type.rs): a
    struct is the concatenation of its fields, in order.

    [from_scalars] consumes an iterator: it takes a list and returns the value and
    the rest, or [None] where the source's [unwrap] panics. *)
From S2P Require Import Prelude Scalar FixedPoint.
Local Open Scope Z_scope.

Record BaseType (T : Type) := mkBaseType {
  NUM_SCALARS : nat;
  to_scalars : T → list Scalar;
  from_scalars : list Scalar → option (T * list Scalar);
}.
Arguments NUM_SCALARS {T} _.
Arguments to_scalars {T} _ _.
Arguments from_scalars {T} _ _.

(** An instance that occupies one scalar. *)
Definition single_base {T} (enc : T → Scalar) (dec : Scalar → T) : BaseType T := {|
  NUM_SCALARS := 1;
  to_scalars x := [enc x];
  from_scalars l := match l with s :: rest => Some (dec s, rest) | [] => None end;
|}.

Definition scalar_base : BaseType Scalar := single_base id id.
Definition u64_base : BaseType Z := single_base scalar_from scalar_to_u64.
Definition u128_base : BaseType Amount := single_base scalar_from scalar_to_u128.
Definition usize_base : BaseType Z := single_base scalar_from scalar_to_usize.
Definition address_base : BaseType Address := single_base address_to_scalar scalar_to_address.
Definition biguint_base : BaseType Z := single_base biguint_to_scalar scalar_to_biguint.

Definition bool_base : BaseType bool := {|
  NUM_SCALARS := 1;
  to_scalars (b : bool) := [scalar_from (if b then 1 else 0)];
  from_scalars l :=
    match l with
    | val :: rest =>
        let is_bool := scalar_mul val (scalar_sub 1 val) =? 0 in
        if is_bool then Some (val =? 1, rest) else None
    | [] => None
    end;
|}.

Definition unit_base : BaseType unit := {|
  NUM_SCALARS := 0;
  to_scalars _ := [];
  from_scalars l := Some (tt, l);
|}.

(** [[T; N]]: parse [n] values in sequence. *)
Fixpoint array_from_scalars {T} (c : BaseType T) (n : nat) (l : list Scalar)
    : option (list T * list Scalar) :=
  match n with
  | O => Some ([], l)
  | S n' =>
      '(x, l') ← from_scalars c l;
      '(xs, l'') ← array_from_scalars c n' l';
      Some (x :: xs, l'')
  end.
Definition array_base {T} (n : nat) (c : BaseType T) : BaseType (list T) := {|
  NUM_SCALARS := n * NUM_SCALARS c;
  to_scalars xs := xs ≫= to_scalars c;
  from_scalars := array_from_scalars c n;
|}.

(** The macro's struct instances: fields one after the other, ... *)
Definition pair_base {A B} (a : BaseType A) (b : BaseType B) : BaseType (A * B) := {|
  NUM_SCALARS := NUM_SCALARS a + NUM_SCALARS b;
  to_scalars x := to_scalars a x.1 ++ to_scalars b x.2;
  from_scalars l :=
    '(x, l') ← from_scalars a l;
    '(y, l'') ← from_scalars b l';
    Some ((x, y), l'');
|}.

(** ... gathered into the struct. *)
Definition struct_base {A T} (fields : BaseType A) (mk : A → T) (get : T → A)
    : BaseType T := {|
  NUM_SCALARS := NUM_SCALARS fields;
  to_scalars x := to_scalars fields (get x);
  from_scalars l := '(a, l') ← from_scalars fields l; Some (mk a, l');
|}.

Definition fixed_point_base : BaseType FixedPoint := struct_base scalar_base mkFixedPoint repr.

(** ** Laws *)

(** The values in [valid] survive serialization, into canonical scalars. *)
Record lawful {T} (c : BaseType T) (valid : T → Prop) : Prop := {
  lawful_len : ∀ x, length (to_scalars c x) = NUM_SCALARS c;
  lawful_canonical : ∀ x, valid x → Forall is_scalar (to_scalars c x);
  lawful_round_trip : ∀ x rest, valid x →
    from_scalars c (to_scalars c x ++ rest) = Some (x, rest);
}.

(** Any canonical scalars of the right number are a value: secret shares are such a
    type, since a one-time pad may produce any scalars. *)
Definition full {T} (c : BaseType T) : Prop :=
  ∀ ss rest, length ss = NUM_SCALARS c → Forall is_scalar ss →
    ∃ x, from_scalars c (ss ++ rest) = Some (x, rest) ∧ to_scalars c x = ss.

Lemma single_lawful {T} (enc : T → Scalar) dec (valid : T → Prop) :
  (∀ x, valid x → is_scalar (enc x) ∧ dec (enc x) = x) → lawful (single_base enc dec) valid.
Proof.
  intros H. split; simpl; [done| |].
  - intros x Hx. rewrite Forall_singleton. by apply H.
  - intros x rest Hx. by rewrite (proj2 (H x Hx)).
Qed.

Lemma pair_lawful {A B} (a : BaseType A) (b : BaseType B) va vb :
  lawful a va → lawful b vb → lawful (pair_base a b) (λ x, va x.1 ∧ vb x.2).
Proof.
  intros [La Ca Ra] [Lb Cb Rb]. split; simpl.
  - intros [x y]. by rewrite length_app, La, Lb.
  - intros [x y] [Hx Hy]. apply Forall_app. eauto.
  - intros [x y] rest [Hx Hy]. simpl in *.
    rewrite <-app_assoc, Ra by done. simpl. by rewrite Rb.
Qed.

Lemma struct_lawful {A T} (a : BaseType A) (mk : A → T) get va :
  lawful a va → (∀ x, mk (get x) = x) → lawful (struct_base a mk get) (λ x, va (get x)).
Proof.
  intros [La Ca Ra] Hmk. split; simpl; [done|eauto|].
  intros x rest Hx. rewrite Ra by done. simpl. by rewrite Hmk.
Qed.

Lemma lawful_impl {T} (c : BaseType T) (v v' : T → Prop) :
  lawful c v → (∀ x, v' x → v x) → lawful c v'.
Proof. intros [L C R] H. split; eauto. Qed.

Lemma pair_full {A B} (a : BaseType A) (b : BaseType B) :
  full a → full b → full (pair_base a b).
Proof.
  intros Fa Fb ss rest Hlen Hcan. simpl in Hlen.
  rewrite <-(take_drop (NUM_SCALARS a) ss) in Hcan |- *.
  apply Forall_app in Hcan as [Ha Hb].
  rewrite <-app_assoc.
  destruct (Fa (take (NUM_SCALARS a) ss) (drop (NUM_SCALARS a) ss ++ rest))
    as (x & Hx & Ex); [rewrite length_take; lia|done|].
  destruct (Fb (drop (NUM_SCALARS a) ss) rest) as (y & Hy & Ey);
    [rewrite length_drop; lia|done|].
  exists (x, y). simpl. by rewrite Hx, Ex, Ey; simpl; rewrite Hy.
Qed.

Lemma struct_full {A T} (a : BaseType A) (mk : A → T) get :
  full a → (∀ x, get (mk x) = x) → full (struct_base a mk get).
Proof.
  intros Fa Hmk ss rest Hlen Hcan.
  destruct (Fa ss rest Hlen Hcan) as (x & Hx & Ex).
  exists (mk x). simpl. by rewrite Hx, Hmk.
Qed.

Lemma scalar_base_full : full scalar_base.
Proof.
  intros [|s [|]] rest Hlen Hcan; try done. by exists s.
Qed.

Lemma scalar_base_lawful : lawful scalar_base is_scalar.
Proof. by apply single_lawful. Qed.

Lemma u128_base_lawful : lawful u128_base is_u128.
Proof.
  apply single_lawful. intros x Hx. split; [apply scalar_from_is_scalar|].
  rewrite scalar_from_u128 by done. by apply scalar_to_u128_small, is_u128_lt.
Qed.

Definition is_address (a : Address) : Prop := 0 ≤ a < 2 ^ 160.

Lemma address_base_lawful : lawful address_base is_address.
Proof.
  apply single_lawful. intros x Hx. split; [apply scalar_from_is_scalar|].
  by apply address_scalar_round_trip.
Qed.

Lemma u64_base_lawful : lawful u64_base is_u64.
Proof.
  apply single_lawful. intros x Hx. split; [apply scalar_from_is_scalar|].
  unfold is_u64, U64_MAX in Hx. rewrite scalar_from_small by lia. apply Z.mod_small. lia.
Qed.

Lemma fixed_point_base_lawful : lawful fixed_point_base wf.
Proof. by apply (struct_lawful _ _ _ _ scalar_base_lawful); intros []. Qed.

Lemma fixed_point_base_full : full fixed_point_base.
Proof. by apply struct_full; [apply scalar_base_full|]. Qed.

#[export] Hint Resolve scalar_base_lawful u128_base_lawful u64_base_lawful
  address_base_lawful fixed_point_base_lawful : relayer.

(** A struct of lawful fields is lawful, a struct of full fields is full. *)
Ltac solve_lawful :=
  eapply lawful_impl;
    [ eapply struct_lawful; [repeat eapply pair_lawful; eauto with relayer|by intros []]
    | intros x Hx; exact Hx ].
Ltac solve_full :=
  apply struct_full; [repeat apply pair_full; auto with relayer|];
  intros x; repeat match goal with p : prod _ _ |- _ => destruct p end; reflexivity.

#[export] Hint Resolve scalar_base_full fixed_point_base_full pair_full struct_full : relayer.
