(* ===== verification/DarkpoolTypes.v ===== *)
(** * Types of the darkpool

    src/crates/darkpool-types/src/{intent,balance,settlement_obligation,fee,
    bounded_match_result,note}.rs and the Schnorr public key of
    src/crates/circuits/circuit-types/src/primitives.  Each type that is secret
    shared has its share type (the [circuit_type] macro replaces every field by its
    share, a scalar) and the two serializations. *)
From S2P Require Import Prelude Scalar FixedPoint BaseType.
Local Open Scope Z_scope.

(** ** Intents *)

Record Intent := mkIntent {
  in_token : Address;
  out_token : Address;
  intent_owner : Address;
  min_price : FixedPoint;
  amount_in : Amount;
}.
#[global] Instance Intent_eq_dec : EqDecision Intent.
Proof. solve_decision. Defined.

Record IntentShare := mkIntentShare {
  in_token_share : Scalar;
  out_token_share : Scalar;
  intent_owner_share : Scalar;
  min_price_share : FixedPoint;
  amount_in_share : Scalar;
}.
#[global] Instance IntentShare_eq_dec : EqDecision IntentShare.
Proof. solve_decision. Defined.

Definition intent_base : BaseType Intent :=
  struct_base
    (pair_base address_base (pair_base address_base (pair_base address_base
      (pair_base fixed_point_base u128_base))))
    (λ '(a, (b, (c, (d, e)))), mkIntent a b c d e)
    (λ i, (in_token i, (out_token i, (intent_owner i, (min_price i, amount_in i))))).

Definition intent_share_base : BaseType IntentShare :=
  struct_base
    (pair_base scalar_base (pair_base scalar_base (pair_base scalar_base
      (pair_base fixed_point_base scalar_base))))
    (λ '(a, (b, (c, (d, e)))), mkIntentShare a b c d e)
    (λ i, (in_token_share i, (out_token_share i,
      (intent_owner_share i, (min_price_share i, amount_in_share i))))).

(** A pre-match intent has no [amount_in]. *)
Record PreMatchIntent := mkPreMatchIntent {
  pre_in_token : Address;
  pre_out_token : Address;
  pre_owner : Address;
  pre_min_price : FixedPoint;
}.
Definition pre_match_intent (intent : Intent) : PreMatchIntent :=
  mkPreMatchIntent (in_token intent) (out_token intent) (intent_owner intent) (min_price intent).

Record PreMatchIntentShare := mkPreMatchIntentShare {
  pre_in_token_share : Scalar;
  pre_out_token_share : Scalar;
  pre_owner_share : Scalar;
  pre_min_price_share : FixedPoint;
}.
Definition pre_match_intent_share (s : IntentShare) : PreMatchIntentShare :=
  mkPreMatchIntentShare (in_token_share s) (out_token_share s) (intent_owner_share s)
    (min_price_share s).

Definition is_intent (i : Intent) : Prop :=
  is_address (in_token i) ∧ is_address (out_token i) ∧ is_address (intent_owner i) ∧
  wf (min_price i) ∧ is_u128 (amount_in i).

(** ** Settlement obligations *)

Record SettlementObligation := mkSettlementObligation {
  input_token : Address;
  output_token : Address;
  obligation_amount_in : Amount;
  obligation_amount_out : Amount;
}.

(** ** Fees *)

Record FeeTake := mkFeeTake { relayer_fee : Amount; protocol_fee : Amount }.

Definition fee_total (fees : FeeTake) : Amount := u128_add (relayer_fee fees) (protocol_fee fees).

Record FeeRates := mkFeeRates { relayer_fee_rate : FixedPoint; protocol_fee_rate : FixedPoint }.

Definition compute_fee_take (rates : FeeRates) (receive_amount : Amount) : FeeTake :=
  let relayer_fee := floor_mul_int (relayer_fee_rate rates) receive_amount in
  let protocol_fee := floor_mul_int (protocol_fee_rate rates) receive_amount in
  mkFeeTake (scalar_to_u128 relayer_fee) (scalar_to_u128 protocol_fee).

(** ** Balances *)

Record BabyJubJubPoint := mkPoint { point_x : Scalar; point_y : Scalar }.
Record SchnorrPublicKey := mkSchnorrPublicKey { point : BabyJubJubPoint }.
#[global] Instance BabyJubJubPoint_eq_dec : EqDecision BabyJubJubPoint.
Proof. solve_decision. Defined.
#[global] Instance SchnorrPublicKey_eq_dec : EqDecision SchnorrPublicKey.
Proof. solve_decision. Defined.

Definition baby_jub_jub_base : BaseType BabyJubJubPoint :=
  struct_base (pair_base scalar_base scalar_base)
    (λ '(x, y), mkPoint x y) (λ p, (point_x p, point_y p)).
Definition schnorr_public_key_base : BaseType SchnorrPublicKey :=
  struct_base baby_jub_jub_base mkSchnorrPublicKey point.

Record DarkpoolBalance := mkDarkpoolBalance {
  mint : Address;
  owner : Address;
  relayer_fee_recipient : Address;
  authority : SchnorrPublicKey;
  relayer_fee_balance : Amount;
  protocol_fee_balance : Amount;
  amount : Amount;
}.
#[global] Instance DarkpoolBalance_eq_dec : EqDecision DarkpoolBalance.
Proof. solve_decision. Defined.

Record DarkpoolBalanceShare := mkDarkpoolBalanceShare {
  mint_share : Scalar;
  owner_share : Scalar;
  relayer_fee_recipient_share : Scalar;
  authority_share : SchnorrPublicKey;
  relayer_fee_balance_share : Scalar;
  protocol_fee_balance_share : Scalar;
  amount_share : Scalar;
}.
#[global] Instance DarkpoolBalanceShare_eq_dec : EqDecision DarkpoolBalanceShare.
Proof. solve_decision. Defined.

Definition balance_base : BaseType DarkpoolBalance :=
  struct_base
    (pair_base address_base (pair_base address_base (pair_base address_base
      (pair_base schnorr_public_key_base
        (pair_base u128_base (pair_base u128_base u128_base))))))
    (λ '(a, (b, (c, (d, (e, (f, g)))))), mkDarkpoolBalance a b c d e f g)
    (λ x, (mint x, (owner x, (relayer_fee_recipient x, (authority x,
      (relayer_fee_balance x, (protocol_fee_balance x, amount x))))))).

Definition balance_share_base : BaseType DarkpoolBalanceShare :=
  struct_base
    (pair_base scalar_base (pair_base scalar_base (pair_base scalar_base
      (pair_base schnorr_public_key_base
        (pair_base scalar_base (pair_base scalar_base scalar_base))))))
    (λ '(a, (b, (c, (d, (e, (f, g)))))), mkDarkpoolBalanceShare a b c d e f g)
    (λ x, (mint_share x, (owner_share x, (relayer_fee_recipient_share x, (authority_share x,
      (relayer_fee_balance_share x, (protocol_fee_balance_share x, amount_share x))))))).

Definition balance_new (m o recipient : Address) (auth : SchnorrPublicKey) : DarkpoolBalance :=
  mkDarkpoolBalance m o recipient auth 0 0 0.

Definition with_amount (self : DarkpoolBalance) (a : Amount) : DarkpoolBalance :=
  mkDarkpoolBalance (mint self) (owner self) (relayer_fee_recipient self) (authority self)
    (relayer_fee_balance self) (protocol_fee_balance self) a.

(** Balances without, and only, the fields a settlement changes. *)
Record PreMatchBalance := mkPreMatchBalance {
  pre_mint : Address;
  pre_balance_owner : Address;
  pre_relayer_fee_recipient : Address;
  pre_authority : SchnorrPublicKey;
}.
Record PostMatchBalance := mkPostMatchBalance {
  post_relayer_fee_balance : Amount;
  post_protocol_fee_balance : Amount;
  post_amount : Amount;
}.
Record PostMatchBalanceShare := mkPostMatchBalanceShare {
  post_relayer_fee_balance_share : Scalar;
  post_protocol_fee_balance_share : Scalar;
  post_amount_share : Scalar;
}.

Definition pre_match_balance (b : DarkpoolBalance) : PreMatchBalance :=
  mkPreMatchBalance (mint b) (owner b) (relayer_fee_recipient b) (authority b).
Definition post_match_balance (b : DarkpoolBalance) : PostMatchBalance :=
  mkPostMatchBalance (relayer_fee_balance b) (protocol_fee_balance b) (amount b).
Definition post_match_balance_share (s : DarkpoolBalanceShare) : PostMatchBalanceShare :=
  mkPostMatchBalanceShare (relayer_fee_balance_share s) (protocol_fee_balance_share s)
    (amount_share s).
Definition balance_from_parts (pre : PreMatchBalance) (post : PostMatchBalance)
    : DarkpoolBalance :=
  mkDarkpoolBalance (pre_mint pre) (pre_balance_owner pre) (pre_relayer_fee_recipient pre)
    (pre_authority pre) (post_relayer_fee_balance post) (post_protocol_fee_balance post)
    (post_amount post).

(** [DarkpoolBalanceShare::update_from_post_match] *)
Definition share_update_from_post_match (self : DarkpoolBalanceShare)
    (post : PostMatchBalanceShare) : DarkpoolBalanceShare :=
  mkDarkpoolBalanceShare (mint_share self) (owner_share self)
    (relayer_fee_recipient_share self) (authority_share self)
    (post_relayer_fee_balance_share post) (post_protocol_fee_balance_share post)
    (post_amount_share post).

Definition post_match_base : BaseType PostMatchBalance :=
  struct_base (pair_base u128_base (pair_base u128_base u128_base))
    (λ '(a, (b, c)), mkPostMatchBalance a b c)
    (λ x, (post_relayer_fee_balance x, (post_protocol_fee_balance x, post_amount x))).
Definition post_match_share_base : BaseType PostMatchBalanceShare :=
  struct_base (pair_base scalar_base (pair_base scalar_base scalar_base))
    (λ '(a, (b, c)), mkPostMatchBalanceShare a b c)
    (λ x, (post_relayer_fee_balance_share x,
      (post_protocol_fee_balance_share x, post_amount_share x))).

Definition is_balance (b : DarkpoolBalance) : Prop :=
  is_address (mint b) ∧ is_address (owner b) ∧ is_address (relayer_fee_recipient b) ∧
  (is_scalar (point_x (point (authority b))) ∧ is_scalar (point_y (point (authority b)))) ∧
  is_u128 (relayer_fee_balance b) ∧ is_u128 (protocol_fee_balance b) ∧ is_u128 (amount b).

(** ** Notes *)

Record Note := mkNote {
  note_mint : Address;
  note_amount : Amount;
  note_receiver : Address;
  note_blinder : Scalar;
}.

Definition note_base : BaseType Note :=
  struct_base
    (pair_base address_base (pair_base u128_base (pair_base address_base scalar_base)))
    (λ '(a, (b, (c, d))), mkNote a b c d)
    (λ n, (note_mint n, (note_amount n, (note_receiver n, note_blinder n)))).

Definition note_plaintext_elements (n : Note) : list Scalar :=
  [address_to_scalar (note_mint n); scalar_from (note_amount n); note_blinder n].

(** ** Bounded matches *)

Record BoundedMatchResult := mkBoundedMatchResult {
  internal_party_input_token : Address;
  internal_party_output_token : Address;
  min_internal_party_amount_in : Amount;
  max_internal_party_amount_in : Amount;
  bounded_price : FixedPoint;
  block_deadline : Z;
}.

Definition to_internal_obligation (r : BoundedMatchResult) (amount_in : Amount)
    : SettlementObligation :=
  let amount_out := floor_mul_int (bounded_price r) amount_in in
  mkSettlementObligation (internal_party_input_token r) (internal_party_output_token r)
    amount_in (scalar_to_u128 amount_out).

(** [None]: [expect] panics on a zero price. *)
Definition to_external_obligation (r : BoundedMatchResult) (amount_in : Amount)
    : option SettlementObligation :=
  inverse_price ← inverse (bounded_price r);
  let amount_out := floor_mul_int inverse_price amount_in in
  Some (mkSettlementObligation (internal_party_output_token r) (internal_party_input_token r)
          amount_in (scalar_to_u128 amount_out)).

(** ** Serialization lemmas *)

Lemma schnorr_base_lawful :
  lawful schnorr_public_key_base
    (λ k, is_scalar (point_x (point k)) ∧ is_scalar (point_y (point k))).
Proof.
  apply (struct_lawful baby_jub_jub_base mkSchnorrPublicKey point
    (λ p, is_scalar (point_x p) ∧ is_scalar (point_y p))); [|by intros []].
  solve_lawful.
Qed.

Lemma schnorr_base_full : full schnorr_public_key_base.
Proof. apply struct_full; [|by intros []]. solve_full. Qed.

#[export] Hint Resolve schnorr_base_lawful schnorr_base_full : relayer.

Lemma intent_base_lawful : lawful intent_base is_intent.
Proof. solve_lawful. Qed.
Lemma intent_share_base_full : full intent_share_base.
Proof. solve_full. Qed.
Lemma balance_base_lawful : lawful balance_base is_balance.
Proof. solve_lawful. Qed.
Lemma balance_share_base_full : full balance_share_base.
Proof. solve_full. Qed.
Lemma post_match_share_base_full : full post_match_share_base.
Proof. solve_full. Qed.

(** ** Fees and obligations *)

(** Rates the protocol accepts: non-negative, summing to at most one. *)
Definition valid_rates (rates : FeeRates) : Prop :=
  0 ≤ repr (relayer_fee_rate rates) ∧ 0 ≤ repr (protocol_fee_rate rates) ∧
  repr (relayer_fee_rate rates) + repr (protocol_fee_rate rates) ≤ 2 ^ 63.

Lemma compute_fee_take_exact rates a :
  valid_rates rates → is_u128 a →
  relayer_fee (compute_fee_take rates a) = repr (relayer_fee_rate rates) * a / 2 ^ 63 ∧
  protocol_fee (compute_fee_take rates a) = repr (protocol_fee_rate rates) * a / 2 ^ 63.
Proof.
  intros (Hr & Hp & Hsum) Ha%is_u128_lt. simpl. split; apply floor_mul_int_u128; nia.
Qed.

Lemma fee_take_bounds rates a :
  valid_rates rates → is_u128 a →
  0 ≤ relayer_fee (compute_fee_take rates a) ∧ 0 ≤ protocol_fee (compute_fee_take rates a) ∧
  relayer_fee (compute_fee_take rates a) + protocol_fee (compute_fee_take rates a) ≤ a.
Proof.
  intros Hv Ha. destruct (compute_fee_take_exact rates a Hv Ha) as [-> ->].
  destruct Hv as (Hr & Hp & Hsum). apply is_u128_lt in Ha.
  split; [apply Z.div_pos; nia|]. split; [apply Z.div_pos; nia|].
  pose proof (div_mul_le_bound (repr (relayer_fee_rate rates) * a) (2 ^ 63)) as H1.
  pose proof (div_mul_le_bound (repr (protocol_fee_rate rates) * a) (2 ^ 63)) as H2. nia.
Qed.

Lemma fee_total_exact rates a :
  valid_rates rates → is_u128 a →
  fee_total (compute_fee_take rates a) =
    relayer_fee (compute_fee_take rates a) + protocol_fee (compute_fee_take rates a) ∧
  0 ≤ fee_total (compute_fee_take rates a) ≤ a.
Proof.
  intros Hv Ha. pose proof (fee_take_bounds rates a Hv Ha) as (H1 & H2 & H3).
  apply is_u128_lt in Ha. unfold fee_total. rewrite u128_add_small by lia. lia.
Qed.

(** Trading [x] at a price and then trading the proceeds back at the inverse price
    never returns more than [x]. *)
Lemma mul_inverse_le p x b :
  0 < p → 0 ≤ x → b = p * x / 2 ^ 63 → 2 ^ 126 / p * b / 2 ^ 63 ≤ x.
Proof.
  intros Hp Hx ->. apply Z.div_le_upper_bound; [lia|].
  pose proof (div_mul_le_bound (2 ^ 126) p Hp) as H1.
  pose proof (div_mul_le_bound (p * x) (2 ^ 63) ltac:(lia)) as H2.
  assert (0 ≤ 2 ^ 126 / p) by (apply Z.div_pos; lia).
  assert (0 ≤ p * x / 2 ^ 63) by (apply Z.div_pos; nia).
  apply (Z.mul_le_mono_pos_r _ _ (2 ^ 63)); [lia|].
  apply (Z.le_trans _ (2 ^ 126 / p * (p * x))); [nia|].
  replace (2 ^ 63 * x * 2 ^ 63) with (2 ^ 126 * x) by lia. nia.
Qed.

(** ** Properties *)

(** Intents and balances survive the trip through their scalar serialization, and
    any canonical scalars of the right number are a share of each: serialization has the
    declared number of scalars and parsing consumes exactly those. *)
Theorem darkpool_serialization (i : Intent) (b : DarkpoolBalance) (rest : list Scalar) :
  is_intent i → is_balance b →
  from_scalars intent_base (to_scalars intent_base i ++ rest) = Some (i, rest) ∧
  from_scalars balance_base (to_scalars balance_base b ++ rest) = Some (b, rest) ∧
  length (to_scalars intent_base i) = 5%nat ∧ length (to_scalars balance_base b) = 8%nat ∧
  full intent_share_base ∧ full balance_share_base.
Proof.
  intros Hi Hb. split_and!; try done.
  - by apply (lawful_round_trip _ _ intent_base_lawful).
  - by apply (lawful_round_trip _ _ balance_base_lawful).
  - apply intent_share_base_full.
  - apply balance_share_base_full.
Qed.

Lemma darkpool_serialization_witness :
  from_scalars intent_base (to_scalars intent_base (mkIntent 1 2 3 one 10) ++ [7])
    = Some (mkIntent 1 2 3 one 10, [7]).
Proof.
  apply (darkpool_serialization (mkIntent 1 2 3 one 10)
    (balance_new 1 2 3 (mkSchnorrPublicKey (mkPoint 0 1))));
    repeat split; vm_compute; done.
Defined.

(** The fees of a trade are the exact floors of rate times amount received, never
    overflow when added, and never exceed the amount received, for any rates that sum to
    at most one. *)
Theorem fee_take_sound (rates : FeeRates) (receive_amount : Amount) :
  valid_rates rates → is_u128 receive_amount →
  let fees := compute_fee_take rates receive_amount in
  relayer_fee fees = repr (relayer_fee_rate rates) * receive_amount / 2 ^ 63 ∧
  protocol_fee fees = repr (protocol_fee_rate rates) * receive_amount / 2 ^ 63 ∧
  fee_total fees = relayer_fee fees + protocol_fee fees ∧
  0 ≤ fee_total fees ≤ receive_amount.
Proof.
  intros Hv Ha fees. destruct (compute_fee_take_exact rates receive_amount Hv Ha).
  by destruct (fee_total_exact rates receive_amount Hv Ha).
Qed.

Lemma fee_take_sound_witness :
  fee_total (compute_fee_take (mkFeeRates (mkFixedPoint (2 ^ 60)) (mkFixedPoint (2 ^ 61))) 100)
    = 12 + 25.
Proof.
  destruct (fee_take_sound (mkFeeRates (mkFixedPoint (2 ^ 60)) (mkFixedPoint (2 ^ 61))) 100)
    as (H1 & H2 & H3 & _); [repeat split; vm_compute; done|split; vm_compute; done|].
  rewrite H3, H1, H2. done.
Defined.

(** The two obligations of a bounded match mirror each other's tokens, the internal
    party receives the exact floor of price times amount, and an external party that pays
    exactly what the internal party receives is never owed more than the internal party
    pays. *)
Theorem bounded_match_obligations (r : BoundedMatchResult) (a : Amount) :
  0 < repr (bounded_price r) → is_u128 a → repr (bounded_price r) * a < 2 ^ 191 →
  let int := to_internal_obligation r a in
  obligation_amount_out int = repr (bounded_price r) * a / 2 ^ 63 ∧
  ∃ ext, to_external_obligation r (obligation_amount_out int) = Some ext ∧
    input_token ext = output_token int ∧ output_token ext = input_token int ∧
    obligation_amount_in ext = obligation_amount_out int ∧
    obligation_amount_out ext ≤ obligation_amount_in int.
Proof.
  intros Hp Ha%is_u128_lt Hb. simpl. rewrite floor_mul_int_u128 by nia. split; [done|].
  unfold to_external_obligation. rewrite inverse_exact by done. eexists. split; [done|].
  simpl. split_and!; try done.
  set (b := repr (bounded_price r) * a / 2 ^ 63).
  pose proof (mul_inverse_le _ a b Hp ltac:(lia) eq_refl) as Hle.
  assert (0 ≤ b) by (apply Z.div_pos; nia).
  assert (0 ≤ 2 ^ 126 / repr (bounded_price r)) by (apply Z.div_pos; lia).
  assert (2 ^ 126 / repr (bounded_price r) * b < (a + 1) * 2 ^ 63).
  { pose proof (lt_succ_div_mul (2 ^ 126 / repr (bounded_price r) * b) (2 ^ 63) ltac:(lia)). nia. }
  assert (b < 2 ^ 128) by (apply Z.div_lt_upper_bound; lia).
  rewrite floor_mul_int_u128; simpl; lia.
Qed.

Lemma bounded_match_obligations_witness :
  ∃ ext, to_external_obligation (mkBoundedMatchResult 1 2 1 100 (from_integer 3) 9) 30 = Some ext
    ∧ obligation_amount_out ext ≤ 10.
Proof.
  destruct (bounded_match_obligations (mkBoundedMatchResult 1 2 1 100 (from_integer 3) 9) 10)
    as (_ & ext & H & _ & _ & _ & Hle); [vm_compute; done|split; vm_compute; done|vm_compute; done|].
  by exists ext.
Defined.
