(* ===== verification/StateWrapper.v ===== *)
(** * State elements: CSPRNG, stream cipher, commitments, nullifiers

    src/crates/darkpool-types/src/{csprng,state_wrapper}.rs, the state-wrapper
    operations of balance.rs and intent.rs, and the note operations of note.rs.  A
    state element is kept with two Poseidon CSPRNGs and its public shares; the
    private shares are the one-time pads.  An update of the plaintext must change the
    public share by the same amount, or the commitment no longer opens: the theorems
    show which operations keep the private shares.

    The operations are written for any type with a [SecretShare] instance.  [None]
    is a panic (a too short scalar iterator, the assertion of
    [compute_partial_public_commitment], an index out of range); machine arithmetic
    wraps as in a release build. *)
From S2P Require Import Prelude Scalar FixedPoint BaseType DarkpoolTypes Poseidon2.
Local Open Scope Z_scope.

(** ** The CSPRNG *)

Record PoseidonCSPRNG := mkCSPRNG { seed : Scalar; index : Z }.
#[global] Instance PoseidonCSPRNG_eq_dec : EqDecision PoseidonCSPRNG.
Proof. solve_decision. Defined.

Definition csprng_base : BaseType PoseidonCSPRNG :=
  struct_base (pair_base scalar_base u64_base)
    (λ '(s, i), mkCSPRNG s i) (λ c, (seed c, index c)).

Definition csprng_new (s : Scalar) : PoseidonCSPRNG := mkCSPRNG s 0.

Definition csprng_next (c : PoseidonCSPRNG) : Scalar * PoseidonCSPRNG :=
  (compute_poseidon_hash [seed c; scalar_from (index c)],
   mkCSPRNG (seed c) (u64_add (index c) 1)).

Definition advance_by (c : PoseidonCSPRNG) (n : Z) : PoseidonCSPRNG :=
  mkCSPRNG (seed c) (u64_add (index c) n).

Definition get_ith (c : PoseidonCSPRNG) (i : Z) : Scalar :=
  compute_poseidon_hash [seed c; scalar_from i].

(** [self.take(n).collect_vec()] on a mutable iterator *)
Fixpoint csprng_take (n : nat) (c : PoseidonCSPRNG) : list Scalar * PoseidonCSPRNG :=
  match n with
  | O => ([], c)
  | S n' =>
      let '(x, c') := csprng_next c in
      let '(xs, c'') := csprng_take n' c' in (x :: xs, c'')
  end.

(** The share type of a type that can be secret shared. *)
Class SecretShare (T Sh : Type) := {
  base : BaseType T;
  share_base : BaseType Sh;
}.

(** Parse the scalars an operation produced. *)
Definition parse {T} (c : BaseType T) (l : list Scalar) : option T := fst <$> from_scalars c l.

Definition csprng_stream_cipher_encrypt `{SecretShare T Sh} (c : PoseidonCSPRNG) (value : T)
    : option Sh * PoseidonCSPRNG :=
  let value_scalars := to_scalars base value in
  let '(pads, c') := csprng_take (length value_scalars) c in
  let ciphertexts := zip_with scalar_sub value_scalars pads in
  (parse share_base ciphertexts, c').

(** [for i in start..end] *)
Definition range_u64 (start end_ : Z) : list Z :=
  (λ k : nat, start + Z.of_nat k) <$> seq 0 (Z.to_nat (end_ - start)).

Definition csprng_peek_stream_cipher_encrypt `{SecretShare T Sh} (c : PoseidonCSPRNG)
    (value : T) : option Sh :=
  let value_scalars := to_scalars base value in
  let num_values := Z.of_nat (length value_scalars) in
  let start_index := index c in
  let pads := get_ith c <$> range_u64 start_index (u64_add start_index num_values) in
  parse share_base (zip_with scalar_sub value_scalars pads).

(** ** The state wrapper *)

Record StateWrapper (T Sh : Type) := mkStateWrapper {
  recovery_stream : PoseidonCSPRNG;
  share_stream : PoseidonCSPRNG;
  inner : T;
  public_share : Sh;
}.
Arguments mkStateWrapper {T Sh} _ _ _ _.
Arguments recovery_stream {T Sh} _.
Arguments share_stream {T Sh} _.
Arguments inner {T Sh} _.
Arguments public_share {T Sh} _.
#[global] Instance StateWrapper_eq_dec `{EqDecision T, EqDecision Sh} :
  EqDecision (StateWrapper T Sh).
Proof. solve_decision. Defined.

Record PartialCommitment := mkPartialCommitment {
  private_commitment : Scalar;
  partial_public_commitment : Scalar;
}.

Section Wrapper.
Context `{SecretShare T Sh}.
Abbreviation Wrapper := (StateWrapper T Sh).

Definition state_wrapper_new (value : T) (share_stream_seed recovery_stream_seed : Scalar)
    : option Wrapper :=
  let recovery := csprng_new recovery_stream_seed in
  let share := csprng_new share_stream_seed in
  let '(public, share') := csprng_stream_cipher_encrypt share value in
  p ← public; Some (mkStateWrapper recovery share' value p).

Definition get_original_share_stream (w : Wrapper) : PoseidonCSPRNG :=
  csprng_new (seed (share_stream w)).
Definition get_original_recovery_stream (w : Wrapper) : PoseidonCSPRNG :=
  csprng_new (seed (recovery_stream w)).

(** [private_shares] as scalars, before they are gathered into a share. *)
Definition private_scalars (w : Wrapper) : list Scalar :=
  zip_with scalar_sub (to_scalars base (inner w)) (to_scalars share_base (public_share w)).
Definition private_shares (w : Wrapper) : option Sh := parse share_base (private_scalars w).

Definition compute_private_commitment (w : Wrapper) : option Scalar :=
  private ← private_shares w;
  Some (compute_poseidon_hash
    (to_scalars share_base private ++ to_scalars csprng_base (recovery_stream w) ++
     to_scalars csprng_base (share_stream w))).

Definition hash2 (acc share : Scalar) : Scalar := compute_poseidon_hash [acc; share].

Definition compute_commitment_from_private (w : Wrapper) (private : Scalar) : option Scalar :=
  match to_scalars share_base (public_share w) with
  | [] => None
  | first :: rest => Some (compute_poseidon_hash [private; foldl hash2 first rest])
  end.

Definition compute_commitment (w : Wrapper) : option Scalar :=
  private ← compute_private_commitment w; compute_commitment_from_private w private.

(** [public_scalars[1..num_shares]] panics when [num_shares] exceeds the length. *)
Definition compute_partial_public_commitment (w : Wrapper) (num_shares : nat)
    : option Scalar :=
  let public_scalars := to_scalars share_base (public_share w) in
  if (num_shares <? 1)%nat || (length public_scalars <? num_shares)%nat then None else
  match public_scalars with
  | [] => None
  | first :: rest => Some (foldl hash2 first (take (num_shares - 1) rest))
  end.

Definition compute_partial_commitment (w : Wrapper) (num_shares : nat)
    : option PartialCommitment :=
  private ← compute_private_commitment w;
  public ← compute_partial_public_commitment w num_shares;
  Some (mkPartialCommitment private public).

Definition compute_nullifier (w : Wrapper) : Scalar :=
  let i := u64_sub (index (recovery_stream w)) 1 in
  let recovery_id := get_ith (recovery_stream w) i in
  compute_poseidon_hash [recovery_id; seed (recovery_stream w)].

Definition set_recovery_stream (c : PoseidonCSPRNG) (w : Wrapper) : Wrapper :=
  mkStateWrapper c (share_stream w) (inner w) (public_share w).
Definition set_share_stream (c : PoseidonCSPRNG) (w : Wrapper) : Wrapper :=
  mkStateWrapper (recovery_stream w) c (inner w) (public_share w).
Definition set_inner (x : T) (w : Wrapper) : Wrapper :=
  mkStateWrapper (recovery_stream w) (share_stream w) x (public_share w).
Definition set_public_share (s : Sh) (w : Wrapper) : Wrapper :=
  mkStateWrapper (recovery_stream w) (share_stream w) (inner w) s.

Definition advance_recovery_stream (w : Wrapper) : Wrapper :=
  set_recovery_stream
    (mkCSPRNG (seed (recovery_stream w)) (u64_add (index (recovery_stream w)) 1)) w.

Definition compute_recovery_id (w : Wrapper) : Scalar * Wrapper :=
  let '(rid, _) := csprng_next (recovery_stream w) in (rid, advance_recovery_stream w).

Definition peek_recovery_id (w : Wrapper) : Scalar :=
  get_ith (recovery_stream w) (index (recovery_stream w)).
End Wrapper.

(** [StateWrapper::stream_cipher_encrypt] on a value of any shareable type. *)
Definition stream_cipher_encrypt {T Sh} `{SecretShare V VSh} (w : StateWrapper T Sh)
    (value : V) : option (VSh * StateWrapper T Sh) :=
  let '(share, c) := csprng_stream_cipher_encrypt (share_stream w) value in
  s ← share; Some (s, set_share_stream c w).
Definition peek_stream_cipher_encrypt {T Sh} `{SecretShare V VSh} (w : StateWrapper T Sh)
    (value : V) : option VSh :=
  csprng_peek_stream_cipher_encrypt (share_stream w) value.

(** ** Instances *)

#[global] Instance amount_secret_share : SecretShare Amount Scalar :=
  {| base := u128_base; share_base := scalar_base |}.
#[global] Instance intent_secret_share : SecretShare Intent IntentShare :=
  {| base := intent_base; share_base := intent_share_base |}.
#[global] Instance balance_secret_share : SecretShare DarkpoolBalance DarkpoolBalanceShare :=
  {| base := balance_base; share_base := balance_share_base |}.
#[global] Instance post_match_secret_share : SecretShare PostMatchBalance PostMatchBalanceShare :=
  {| base := post_match_base; share_base := post_match_share_base |}.

Abbreviation StateIntent := (StateWrapper Intent IntentShare) (only parsing).
Abbreviation StateBalance := (StateWrapper DarkpoolBalance DarkpoolBalanceShare) (only parsing).

(** ** Intents (intent.rs) *)

Definition set_amount_in (a : Amount) (i : Intent) : Intent :=
  mkIntent (in_token i) (out_token i) (intent_owner i) (min_price i) a.
Definition set_amount_in_share (s : Scalar) (i : IntentShare) : IntentShare :=
  mkIntentShare (in_token_share i) (out_token_share i) (intent_owner_share i)
    (min_price_share i) s.

Definition reencrypt_amount_in (w : StateIntent) : option (Scalar * StateIntent) :=
  '(new_share, w') ← stream_cipher_encrypt (V:=Amount) w (amount_in (inner w));
  Some (new_share, set_public_share (set_amount_in_share new_share (public_share w')) w').

(** [self.inner.amount_in -= a; self.public_share.amount_in -= Scalar::from(a)] *)
Definition sub_amount_in (a : Amount) (w : StateIntent) : StateIntent :=
  set_public_share
    (set_amount_in_share (scalar_sub (amount_in_share (public_share w)) (scalar_from a))
      (public_share w))
    (set_inner (set_amount_in (u128_sub (amount_in (inner w)) a) (inner w)) w).

Definition apply_settlement_obligation (w : StateIntent) (o : SettlementObligation)
    : StateIntent := sub_amount_in (obligation_amount_in o) w.

(** ** Balances (balance.rs) *)

Definition set_amounts (r p a : Amount) (b : DarkpoolBalance) : DarkpoolBalance :=
  mkDarkpoolBalance (mint b) (owner b) (relayer_fee_recipient b) (authority b) r p a.
Definition set_amount_shares (r p a : Scalar) (s : DarkpoolBalanceShare)
    : DarkpoolBalanceShare :=
  mkDarkpoolBalanceShare (mint_share s) (owner_share s) (relayer_fee_recipient_share s)
    (authority_share s) r p a.

(** Assign the fee and amount fields of the plaintext and of the public share. *)
Definition update_amounts (w : StateBalance) (r p a : Amount) (rs ps as_ : Scalar)
    : StateBalance :=
  set_public_share (set_amount_shares rs ps as_ (public_share w))
    (set_inner (set_amounts r p a (inner w)) w).

Definition apply_obligation_in_balance (w : StateBalance) (o : SettlementObligation)
    : StateBalance :=
  let b := inner w in let s := public_share w in
  update_amounts w (relayer_fee_balance b) (protocol_fee_balance b)
    (u128_sub (amount b) (obligation_amount_in o))
    (relayer_fee_balance_share s) (protocol_fee_balance_share s)
    (scalar_sub (amount_share s) (scalar_from (obligation_amount_in o))).

Definition apply_obligation_out_balance_no_fees (w : StateBalance) (o : SettlementObligation)
    (fees : FeeTake) : StateBalance :=
  let b := inner w in let s := public_share w in
  let receive_amt := u128_sub (obligation_amount_out o) (fee_total fees) in
  update_amounts w (relayer_fee_balance b) (protocol_fee_balance b)
    (u128_add (amount b) receive_amt)
    (relayer_fee_balance_share s) (protocol_fee_balance_share s)
    (scalar_add (amount_share s) (scalar_from receive_amt)).

Definition add_fees (w : StateBalance) (fees : FeeTake) : StateBalance :=
  let b := inner w in let s := public_share w in
  update_amounts w (u128_add (relayer_fee_balance b) (relayer_fee fees))
    (u128_add (protocol_fee_balance b) (protocol_fee fees)) (amount b)
    (scalar_add (relayer_fee_balance_share s) (scalar_from (relayer_fee fees)))
    (scalar_add (protocol_fee_balance_share s) (scalar_from (protocol_fee fees)))
    (amount_share s).

Definition apply_obligation_out_balance (w : StateBalance) (o : SettlementObligation)
    (fees : FeeTake) : StateBalance :=
  add_fees (apply_obligation_out_balance_no_fees w o fees) fees.

Definition post_match_share (w : StateBalance) : PostMatchBalanceShare :=
  post_match_balance_share (public_share w).
Definition update_from_post_match (w : StateBalance) (post : PostMatchBalanceShare)
    : StateBalance :=
  set_public_share (share_update_from_post_match (public_share w) post) w.

Definition reencrypt_amount_share (w : StateBalance) : option (Scalar * StateBalance) :=
  '(new_share, w') ← stream_cipher_encrypt (V:=Amount) w (amount (inner w));
  let s := public_share w' in
  Some (new_share, set_public_share
    (set_amount_shares (relayer_fee_balance_share s) (protocol_fee_balance_share s) new_share s) w').

Definition reencrypt_post_match_share (w : StateBalance)
    : option (PostMatchBalanceShare * StateBalance) :=
  '(post, w') ← stream_cipher_encrypt w (post_match_balance (inner w));
  Some (post, update_from_post_match w' post).

(** The blinder is sampled; it is an argument here. *)
Definition pay_relayer_fee (w : StateBalance) (blinder : Scalar) : Note * StateBalance :=
  let b := inner w in let s := public_share w in
  let note := mkNote (mint b) (relayer_fee_balance b) (relayer_fee_recipient b) blinder in
  (note, update_amounts w 0 (protocol_fee_balance b) (amount b)
    (scalar_sub (relayer_fee_balance_share s) (scalar_from (note_amount note)))
    (protocol_fee_balance_share s) (amount_share s)).

Definition pay_protocol_fee (w : StateBalance) (protocol_fee_receiver : Address)
    (blinder : Scalar) : Note * StateBalance :=
  let b := inner w in let s := public_share w in
  let note := mkNote (mint b) (protocol_fee_balance b) protocol_fee_receiver blinder in
  (note, update_amounts w (relayer_fee_balance b) 0 (amount b)
    (relayer_fee_balance_share s)
    (scalar_sub (protocol_fee_balance_share s) (scalar_from (note_amount note)))
    (amount_share s)).

Definition reencrypt_relayer_fee (w : StateBalance) : option (Scalar * StateBalance) :=
  '(new_share, w') ← stream_cipher_encrypt (V:=Amount) w (relayer_fee_balance (inner w));
  let s := public_share w' in
  Some (new_share, set_public_share
    (set_amount_shares new_share (protocol_fee_balance_share s) (amount_share s) s) w').

Definition reencrypt_protocol_fee (w : StateBalance) : option (Scalar * StateBalance) :=
  '(new_share, w') ← stream_cipher_encrypt (V:=Amount) w (protocol_fee_balance (inner w));
  let s := public_share w' in
  Some (new_share, set_public_share
    (set_amount_shares (relayer_fee_balance_share s) new_share (amount_share s) s) w').

(** ** Notes (note.rs) *)

Definition note_commitment (n : Note) : Scalar :=
  compute_poseidon_hash (to_scalars note_base n).
Definition note_nullifier (n : Note) : Scalar :=
  compute_poseidon_hash [note_commitment n; note_blinder n].

(** [SecretShareType::add_shares] (traits.rs): recover a value from its two shares. *)
Definition add_shares `{SecretShare T Sh} (s1 s2 : Sh) : option T :=
  parse base (zip_with scalar_add (to_scalars share_base s1) (to_scalars share_base s2)).

(** ** Laws of shareable types *)

Class SecretShareLaws (T Sh : Type) `{SecretShare T Sh} (valid : T → Prop) : Prop := {
  base_lawful : lawful base valid;
  share_full : full share_base;
  share_num : NUM_SCALARS share_base = NUM_SCALARS base;
}.

#[global] Instance amount_share_laws : SecretShareLaws Amount Scalar is_u128.
Proof. split; [apply u128_base_lawful|apply scalar_base_full|done]. Qed.
#[global] Instance intent_share_laws : SecretShareLaws Intent IntentShare is_intent.
Proof. split; [apply intent_base_lawful|apply intent_share_base_full|done]. Qed.
#[global] Instance balance_share_laws : SecretShareLaws DarkpoolBalance DarkpoolBalanceShare is_balance.
Proof. split; [apply balance_base_lawful|apply balance_share_base_full|done]. Qed.

(** ** The stream cipher *)

(** The [n] pads from the current index on. *)
Definition pads (c : PoseidonCSPRNG) (n : nat) : list Scalar :=
  (λ k : nat, get_ith c (index c + Z.of_nat k)) <$> seq 0 n.

Lemma length_pads c n : length (pads c n) = n.
Proof. unfold pads. by rewrite length_fmap, length_seq. Qed.

Lemma csprng_next_eq s i :
  csprng_next (mkCSPRNG s i) = (get_ith (mkCSPRNG s i) i, mkCSPRNG s (u64_add i 1)).
Proof. unfold csprng_next, get_ith. generalize compute_poseidon_hash. reflexivity. Qed.

Lemma pads_S s i n :
  pads (mkCSPRNG s i) (S n) = get_ith (mkCSPRNG s i) i :: pads (mkCSPRNG s (i + 1)) n.
Proof.
  unfold pads, get_ith. generalize compute_poseidon_hash as h. intros h. simpl.
  rewrite Z.add_0_r. f_equal. rewrite <-fmap_S_seq, <-list_fmap_compose.
  apply list_fmap_ext. intros k x _. simpl. do 4 f_equal. lia.
Qed.

Lemma csprng_take_S n c :
  csprng_take (S n) c =
  let '(x, c') := csprng_next c in let '(xs, c'') := csprng_take n c' in (x :: xs, c'').
Proof. reflexivity. Qed.

Lemma csprng_take_pads n c :
  0 ≤ index c → index c + Z.of_nat n < 2 ^ 64 →
  csprng_take n c = (pads c n, mkCSPRNG (seed c) (index c + Z.of_nat n)).
Proof.
  revert c. induction n as [|n IH]; intros [s i] Hi Hn; cbn [seed index] in *.
  - by rewrite Z.add_0_r.
  - rewrite csprng_take_S, csprng_next_eq, u64_add_small by lia.
    rewrite IH by (cbn [index]; lia). rewrite pads_S. cbn [seed index].
    by replace (i + Z.of_nat (S n)) with (i + 1 + Z.of_nat n) by lia.
Qed.

Lemma range_u64_pads c n :
  0 ≤ index c → index c + Z.of_nat n < 2 ^ 64 →
  get_ith c <$> range_u64 (index c) (u64_add (index c) (Z.of_nat n)) = pads c n.
Proof.
  intros Hi Hn. unfold range_u64, pads. rewrite u64_add_small by lia.
  rewrite <-list_fmap_compose.
  by replace (Z.to_nat (index c + Z.of_nat n - index c)) with n by lia.
Qed.

Lemma zip_sub_add (xs ys : list Scalar) :
  Forall is_scalar xs → length ys = length xs →
  zip_with scalar_add (zip_with scalar_sub xs ys) ys = xs.
Proof.
  intros Hx. revert ys. induction Hx as [|x xs Hx _ IH]; intros [|y ys] Hlen; try done.
  simpl. rewrite scalar_add_sub, scalar_from_id by done. f_equal. apply IH. simpl in Hlen. lia.
Qed.

Lemma zip_sub_sub (xs ys : list Scalar) :
  Forall is_scalar ys → length ys = length xs →
  zip_with scalar_sub xs (zip_with scalar_sub xs ys) = ys.
Proof.
  intros Hy. revert xs. induction Hy as [|y ys Hy _ IH]; intros [|x xs] Hlen; try done.
  simpl. f_equal.
  - rewrite <-(scalar_from_id y) at 2 by done. field_mod.
  - apply IH. simpl in Hlen. lia.
Qed.

Lemma Forall_zip_sub (xs ys : list Scalar) : Forall is_scalar (zip_with scalar_sub xs ys).
Proof.
  revert ys. induction xs as [|x xs IH]; intros [|y ys]; simpl; constructor; auto with relayer.
Qed.

Lemma pads_canonical c n : Forall is_scalar (pads c n).
Proof. unfold pads, get_ith. apply Forall_fmap, Forall_true. simpl. auto with relayer. Qed.

Section Cipher.
Context {T Sh : Type} `{Hs : SecretShare T Sh} {valid : T → Prop}.
Context `{Hl : !SecretShareLaws T Sh valid}.
Abbreviation n := (NUM_SCALARS (base (T:=T))).

Lemma encrypt_share c v :
  valid v → 0 ≤ index c → index c + Z.of_nat n < 2 ^ 64 →
  ∃ share, csprng_stream_cipher_encrypt c v =
      (Some share, mkCSPRNG (seed c) (index c + Z.of_nat n)) ∧
    csprng_peek_stream_cipher_encrypt c v = Some share ∧
    to_scalars share_base share = zip_with scalar_sub (to_scalars base v) (pads c n).
Proof.
  intros Hv Hi Hn.
  pose proof (lawful_len _ _ base_lawful v) as Hlen.
  destruct (share_full (zip_with scalar_sub (to_scalars base v) (pads c n)) [])
    as (share & Hparse & Hshare).
  { rewrite length_zip_with, length_pads, Hlen, share_num. lia. }
  { apply Forall_zip_sub. }
  exists share. unfold csprng_stream_cipher_encrypt, csprng_peek_stream_cipher_encrypt, parse.
  rewrite Hlen, csprng_take_pads, range_u64_pads by done.
  rewrite app_nil_r in Hparse. by rewrite Hparse.
Qed.
End Cipher.

(** ** Private shares under updates *)

Ltac scalars_eq := repeat (apply (f_equal2 cons); [first [reflexivity|by field_mod]|]); reflexivity.

Lemma balance_scalars b :
  to_scalars balance_base b =
  [address_to_scalar (mint b); address_to_scalar (owner b);
   address_to_scalar (relayer_fee_recipient b); point_x (point (authority b));
   point_y (point (authority b)); scalar_from (relayer_fee_balance b);
   scalar_from (protocol_fee_balance b); scalar_from (amount b)].
Proof. reflexivity. Qed.

Lemma balance_share_scalars s :
  to_scalars balance_share_base s =
  [mint_share s; owner_share s; relayer_fee_recipient_share s;
   point_x (point (authority_share s)); point_y (point (authority_share s));
   relayer_fee_balance_share s; protocol_fee_balance_share s; amount_share s].
Proof. reflexivity. Qed.

(** The private shares of the fee and amount fields of a balance; the other fields'
    private shares are untouched by every operation below. *)
Definition private_amounts (w : StateBalance) : Scalar * Scalar * Scalar :=
  (scalar_sub (scalar_from (relayer_fee_balance (inner w)))
     (relayer_fee_balance_share (public_share w)),
   scalar_sub (scalar_from (protocol_fee_balance (inner w)))
     (protocol_fee_balance_share (public_share w)),
   scalar_sub (scalar_from (amount (inner w))) (amount_share (public_share w))).

Lemma update_amounts_private (w : StateBalance) r p a rs ps as_ :
  private_amounts (update_amounts w r p a rs ps as_) = private_amounts w →
  private_scalars (update_amounts w r p a rs ps as_) = private_scalars w.
Proof.
  unfold private_scalars, private_amounts. simpl base. simpl share_base.
  rewrite !balance_scalars, !balance_share_scalars. simpl. intros [= -> -> ->]. done.
Qed.

Lemma scalar_add_shift x d s :
  scalar_sub (scalar_from (x + d)) (scalar_add s (scalar_from d)) = scalar_sub (scalar_from x) s.
Proof. field_mod. Qed.
Lemma scalar_sub_shift x d s :
  scalar_sub (scalar_from (x - d)) (scalar_sub s (scalar_from d)) = scalar_sub (scalar_from x) s.
Proof. field_mod. Qed.

Lemma apply_in_private w o :
  is_u128 (amount (inner w)) → 0 ≤ obligation_amount_in o ≤ amount (inner w) →
  private_scalars (apply_obligation_in_balance w o) = private_scalars w ∧
  amount (inner (apply_obligation_in_balance w o)) = amount (inner w) - obligation_amount_in o.
Proof.
  intros Ha%is_u128_lt Ho.
  assert (u128_sub (amount (inner w)) (obligation_amount_in o) =
    amount (inner w) - obligation_amount_in o) as Hsub by (apply u128_sub_small; lia).
  unfold apply_obligation_in_balance. split; [|done]. apply update_amounts_private.
  unfold private_amounts. simpl. by rewrite Hsub, scalar_sub_shift.
Qed.

Lemma apply_out_private w o fees :
  fee_total fees = relayer_fee fees + protocol_fee fees →
  0 ≤ relayer_fee fees → 0 ≤ protocol_fee fees →
  0 ≤ amount (inner w) → 0 ≤ relayer_fee_balance (inner w) →
  0 ≤ protocol_fee_balance (inner w) →
  fee_total fees ≤ obligation_amount_out o →
  amount (inner w) + obligation_amount_out o < 2 ^ 128 →
  relayer_fee_balance (inner w) + obligation_amount_out o < 2 ^ 128 →
  protocol_fee_balance (inner w) + obligation_amount_out o < 2 ^ 128 →
  private_scalars (apply_obligation_out_balance w o fees) = private_scalars w ∧
  inner (apply_obligation_out_balance w o fees) =
    set_amounts (relayer_fee_balance (inner w) + relayer_fee fees)
      (protocol_fee_balance (inner w) + protocol_fee fees)
      (amount (inner w) + (obligation_amount_out o - fee_total fees)) (inner w).
Proof.
  intros Ht Hr Hp Ha Hrb Hpb Hle Ha' Hr' Hp'.
  unfold apply_obligation_out_balance, add_fees.
  set (w1 := apply_obligation_out_balance_no_fees w o fees).
  assert (private_scalars w1 = private_scalars w) as <-.
  { apply update_amounts_private. unfold private_amounts. simpl.
    rewrite u128_sub_small, u128_add_small, scalar_add_shift by lia. done. }
  split.
  - apply update_amounts_private. unfold private_amounts. simpl.
    rewrite !u128_add_small, !scalar_add_shift by lia. done.
  - simpl. unfold set_amounts. simpl.
    rewrite u128_sub_small, !u128_add_small by (try rewrite u128_sub_small; lia). done.
Qed.

Lemma pay_relayer_private w blinder :
  private_scalars (pay_relayer_fee w blinder).2 = private_scalars w.
Proof.
  unfold pay_relayer_fee. simpl snd. apply update_amounts_private. unfold private_amounts. simpl.
  rewrite <-(scalar_sub_shift (relayer_fee_balance (inner w)) (relayer_fee_balance (inner w))).
  by rewrite Z.sub_diag.
Qed.

Lemma pay_protocol_private w receiver blinder :
  private_scalars (pay_protocol_fee w receiver blinder).2 = private_scalars w.
Proof.
  unfold pay_protocol_fee. simpl snd. apply update_amounts_private. unfold private_amounts. simpl.
  rewrite <-(scalar_sub_shift (protocol_fee_balance (inner w)) (protocol_fee_balance (inner w))).
  by rewrite Z.sub_diag.
Qed.

Lemma sub_amount_in_private (w : StateIntent) a :
  is_u128 (amount_in (inner w)) → 0 ≤ a ≤ amount_in (inner w) →
  private_scalars (sub_amount_in a w) = private_scalars w ∧
  amount_in (inner (sub_amount_in a w)) = amount_in (inner w) - a.
Proof.
  intros Hu%is_u128_lt Ha.
  assert (u128_sub (amount_in (inner w)) a = amount_in (inner w) - a) as Hsub
    by (apply u128_sub_small; lia).
  split; [|done]. unfold private_scalars. simpl. rewrite Hsub, scalar_sub_shift. done.
Qed.

(** ** Re-encryption *)

Lemma amount_encrypt {T Sh} (w : StateWrapper T Sh) v :
  is_u128 v → 0 ≤ index (share_stream w) → index (share_stream w) + 1 < 2 ^ 64 →
  stream_cipher_encrypt (V:=Amount) w v =
    Some (scalar_sub (scalar_from v) (get_ith (share_stream w) (index (share_stream w))),
          set_share_stream (mkCSPRNG (seed (share_stream w)) (index (share_stream w) + 1)) w).
Proof.
  intros Hv Hi Hn. destruct (encrypt_share (Hl:=amount_share_laws) (share_stream w) v Hv Hi Hn)
    as (share & Henc & _ & Hsh).
  unfold stream_cipher_encrypt. rewrite Henc. cbn [mbind option_bind].
  destruct (share_stream w) as [s i]. cbn [index seed] in *.
  change (NUM_SCALARS base) with 1%nat in *. rewrite pads_S in Hsh.
  cbn -[get_ith scalar_sub scalar_from] in Hsh. by injection Hsh as ->.
Qed.

Lemma post_match_encrypt (w : StateBalance) :
  is_balance (inner w) → 0 ≤ index (share_stream w) → index (share_stream w) + 3 < 2 ^ 64 →
  let c := share_stream w in
  stream_cipher_encrypt w (post_match_balance (inner w)) =
    Some (mkPostMatchBalanceShare
            (scalar_sub (scalar_from (relayer_fee_balance (inner w))) (get_ith c (index c)))
            (scalar_sub (scalar_from (protocol_fee_balance (inner w))) (get_ith c (index c + 1)))
            (scalar_sub (scalar_from (amount (inner w))) (get_ith c (index c + 2))),
          set_share_stream (mkCSPRNG (seed c) (index c + 3)) w).
Proof.
  intros Hb Hi Hn c. unfold stream_cipher_encrypt, csprng_stream_cipher_encrypt.
  change (length (to_scalars base (post_match_balance (inner w)))) with 3%nat.
  rewrite csprng_take_pads by done. fold c in Hi, Hn |- *. cbn [seed index].
  destruct c as [s i]. cbn [index seed] in *.
  rewrite !pads_S. cbn -[get_ith scalar_sub scalar_from].
  replace (i + 1 + 1) with (i + 2) by lia. reflexivity.
Qed.

(** ** Commitments *)

Lemma foldl_take_drop {A B} (f : A → B → A) a l k :
  foldl f a l = foldl f (foldl f a (take k l)) (drop k l).
Proof. by rewrite <-foldl_app, take_drop. Qed.

(** ** Properties *)

(** The stream cipher is correct for every shareable type: encrypting a valid value
    never fails, advances the stream by exactly the number of scalars of the value, gives
    the same ciphertext as peeking, and adding the pads back recovers the value. *)
Theorem stream_cipher_correct {T Sh} `{SecretShare T Sh} (valid : T → Prop)
    `{!SecretShareLaws T Sh valid} (c : PoseidonCSPRNG) (v : T) :
  let n := NUM_SCALARS (base (T:=T)) in
  valid v → 0 ≤ index c → index c + Z.of_nat n < 2 ^ 64 →
  ∃ share, csprng_stream_cipher_encrypt c v =
      (Some share, mkCSPRNG (seed c) (index c + Z.of_nat n)) ∧
    csprng_peek_stream_cipher_encrypt c v = Some share ∧
    parse base (zip_with scalar_add (to_scalars share_base share) (pads c n)) = Some v.
Proof.
  intros n Hv Hi Hn. destruct (encrypt_share c v Hv Hi Hn) as (share & Henc & Hpeek & Hsh).
  exists share. split; [done|]. split; [done|].
  rewrite Hsh, zip_sub_add;
    [|by apply (lawful_canonical _ _ base_lawful)
     |by rewrite length_pads, (lawful_len _ _ base_lawful)].
  unfold parse. rewrite <-(app_nil_r (to_scalars base v)).
  by rewrite (lawful_round_trip _ _ base_lawful).
Qed.

Lemma stream_cipher_correct_witness :
  ∃ share : Scalar,
    csprng_stream_cipher_encrypt (csprng_new 5) (100 : Amount) = (Some share, mkCSPRNG 5 1) ∧
    parse u128_base (zip_with scalar_add [share] (pads (csprng_new 5) 1)) = Some 100.
Proof.
  destruct (stream_cipher_correct (T:=Amount) (Sh:=Scalar) is_u128 (csprng_new 5) 100)
    as (share & H1 & _ & H3); [split; vm_compute; done|done|done|].
  exists share. split; [exact H1|exact H3].
Defined.

(** A new state element's private shares are the first pads of its share stream, the
    two shares recover the element, the share stream has advanced past the pads and the
    recovery stream is fresh. *)
Theorem state_wrapper_new_shares {T Sh} `{SecretShare T Sh} (valid : T → Prop)
    `{!SecretShareLaws T Sh valid} (v : T) (share_seed recovery_seed : Scalar) :
  let n := NUM_SCALARS (base (T:=T)) in
  valid v → Z.of_nat n < 2 ^ 64 →
  ∃ w private, state_wrapper_new v share_seed recovery_seed = Some w ∧
    private_shares w = Some private ∧
    to_scalars share_base private = pads (csprng_new share_seed) n ∧
    add_shares (public_share w) private = Some v ∧ inner w = v ∧
    share_stream w = mkCSPRNG share_seed (Z.of_nat n) ∧
    recovery_stream w = csprng_new recovery_seed.
Proof.
  intros n Hv Hn. subst n.
  destruct (encrypt_share (csprng_new share_seed) v Hv) as (share & Henc & _ & Hsh); [done|done|].
  pose proof (lawful_len _ _ base_lawful v) as Hlen.
  destruct (share_full (pads (csprng_new share_seed) (NUM_SCALARS base)) []) as (private & Hp & Hps).
  { by rewrite length_pads, share_num. }
  { apply pads_canonical. }
  eexists _, private. unfold state_wrapper_new. rewrite Henc. split; [reflexivity|].
  unfold private_shares, private_scalars, add_shares, parse. cbn [inner public_share].
  rewrite Hsh, Hps, zip_sub_sub, zip_sub_add;
    [|by apply (lawful_canonical _ _ base_lawful)|by rewrite length_pads
     |apply pads_canonical|by rewrite length_pads].
  rewrite app_nil_r in Hp. split_and!; [by rewrite Hp|done| |done|done|done].
  rewrite <-(app_nil_r (to_scalars base v)). by rewrite (lawful_round_trip _ _ base_lawful).
Qed.

Lemma state_wrapper_new_shares_witness :
  ∃ (w : StateWrapper Amount Scalar) private,
    state_wrapper_new (100 : Amount) 5 6 = Some w ∧
    add_shares (public_share w) private = Some 100.
Proof.
  destruct (state_wrapper_new_shares (T:=Amount) (Sh:=Scalar) is_u128 100 5 6)
    as (w & private & H1 & _ & _ & H4 & _); [split; vm_compute; done|done|].
  by exists w, private.
Defined.

(** Settling an obligation keeps the private shares of both balances, so that the new
    public shares still open the committed plaintext: the input balance pays exactly the
    input amount, the output balance receives the output amount less the fees, the fees
    are credited to the fee balances, and the total value credited is the output amount;
    paying the fees out as notes moves the whole fee balance and keeps the shares too. *)
Theorem settlement_keeps_shares (w_in w_out : StateBalance) (o : SettlementObligation)
    (rates : FeeRates) (receiver : Address) (blinder : Scalar) :
  is_balance (inner w_in) → is_balance (inner w_out) → valid_rates rates →
  0 ≤ obligation_amount_in o ≤ amount (inner w_in) → is_u128 (obligation_amount_out o) →
  amount (inner w_out) + obligation_amount_out o < 2 ^ 128 →
  relayer_fee_balance (inner w_out) + obligation_amount_out o < 2 ^ 128 →
  protocol_fee_balance (inner w_out) + obligation_amount_out o < 2 ^ 128 →
  let fees := compute_fee_take rates (obligation_amount_out o) in
  let w_in' := apply_obligation_in_balance w_in o in
  let w_out' := apply_obligation_out_balance w_out o fees in
  let total b := amount b + relayer_fee_balance b + protocol_fee_balance b in
  private_scalars w_in' = private_scalars w_in ∧
  private_scalars w_out' = private_scalars w_out ∧
  amount (inner w_in') = amount (inner w_in) - obligation_amount_in o ∧
  total (inner w_out') = total (inner w_out) + obligation_amount_out o ∧
  amount (inner w_out) ≤ amount (inner w_out') ∧
  private_scalars (pay_relayer_fee w_out' blinder).2 = private_scalars w_out' ∧
  private_scalars (pay_protocol_fee w_out' receiver blinder).2 = private_scalars w_out' ∧
  note_amount (pay_relayer_fee w_out' blinder).1 =
    relayer_fee_balance (inner w_out) + relayer_fee fees.
Proof.
  intros (_ & _ & _ & _ & _ & _ & Hi) (_ & _ & _ & _ & Hr & Hp & Ha) Hrates Ho Hout B1 B2 B3
    fees w_in' w_out' total.
  pose proof (fee_total_exact rates _ Hrates Hout) as [Ht Hb].
  pose proof (fee_take_bounds rates _ Hrates Hout) as (F1 & F2 & _).
  fold fees in Ht, Hb, F1, F2. clearbody fees.
  apply is_u128_lt in Hr, Hp, Ha.
  destruct (apply_in_private w_in o Hi Ho) as [H1 H2].
  destruct (apply_out_private w_out o fees) as [H3 H4]; [lia..|].
  fold w_out' in H3, H4. unfold total. rewrite H4.
  split_and!; try done.
  - simpl. lia.
  - simpl. lia.
  - apply pay_relayer_private.
  - apply pay_protocol_private.
  - unfold pay_relayer_fee. cbn [fst note_amount]. by rewrite H4.
Qed.

Lemma settlement_keeps_shares_witness :
  let key := mkSchnorrPublicKey (mkPoint 0 1) in
  let w m a := mkStateWrapper (csprng_new 1) (csprng_new 2)
    (with_amount (balance_new m 2 3 key) a)
    (mkDarkpoolBalanceShare 9 8 7 key 6 5 4) in
  let o := mkSettlementObligation 1 2 40 100 in
  let rates := mkFeeRates (mkFixedPoint (2 ^ 60)) (mkFixedPoint (2 ^ 61)) in
  let w_out' := apply_obligation_out_balance (w 2 7) o (compute_fee_take rates 100) in
  amount (inner w_out') = 70 ∧
  amount (inner w_out') + relayer_fee_balance (inner w_out') +
    protocol_fee_balance (inner w_out') = 107.
Proof.
  intros key w o rates w_out'. split; [vm_compute; done|].
  refine (proj1 (proj2 (proj2 (proj2 (settlement_keeps_shares (w 1 50) (w 2 7) o rates 0 0
    _ _ _ _ _ _ _ _)))));
    repeat split; vm_compute; done.
Defined.

(** Re-encrypting the post-match fields of a balance leaves the plaintext alone, gives
    each field the next fresh pad of the share stream (in the order relayer fee, protocol
    fee, amount), keeps the private shares of the other fields, and returns the new public
    shares it stored. *)
Theorem reencrypt_post_match_fresh (w : StateBalance) :
  is_balance (inner w) → 0 ≤ index (share_stream w) → index (share_stream w) + 3 < 2 ^ 64 →
  ∃ post w', reencrypt_post_match_share w = Some (post, w') ∧
    inner w' = inner w ∧ post_match_share w' = post ∧
    recovery_stream w' = recovery_stream w ∧
    share_stream w' = mkCSPRNG (seed (share_stream w)) (index (share_stream w) + 3) ∧
    private_scalars w' = take 5 (private_scalars w) ++ pads (share_stream w) 3.
Proof.
  intros Hb Hi Hn. unfold reencrypt_post_match_share.
  rewrite post_match_encrypt by done. cbn [mbind option_bind].
  eexists _, _. split; [reflexivity|]. split_and!; try done.
  unfold private_scalars, update_from_post_match, share_update_from_post_match.
  simpl base. simpl share_base. rewrite balance_share_scalars, balance_scalars.
  destruct (share_stream w) as [s i]. cbn [index seed] in *. rewrite !pads_S.
  cbn [set_public_share set_share_stream inner public_share take app zip_with
    mint_share owner_share relayer_fee_recipient_share authority_share
    relayer_fee_balance_share protocol_fee_balance_share amount_share
    post_relayer_fee_balance_share post_protocol_fee_balance_share post_amount_share].
  replace (i + 1 + 1) with (i + 2) by lia.
  assert (∀ x k : Z, is_scalar k → scalar_sub x (scalar_sub x k) = k) as Hcancel.
  { intros x k Hk. rewrite <-(scalar_from_id k) at 2 by done. field_mod. }
  rewrite !Hcancel by apply compute_poseidon_hash_is_scalar.
  unfold get_ith. generalize compute_poseidon_hash. reflexivity.
Qed.

Lemma reencrypt_post_match_fresh_witness :
  let key := mkSchnorrPublicKey (mkPoint 0 1) in
  let w := mkStateWrapper (csprng_new 1) (csprng_new 2) (balance_new 1 2 3 key)
    (mkDarkpoolBalanceShare 9 8 7 key 6 5 4) in
  ∃ post w', reencrypt_post_match_share w = Some (post, w') ∧ share_stream w' = mkCSPRNG 2 3.
Proof.
  intros key w.
  destruct (reencrypt_post_match_fresh w) as (post & w' & H & _ & _ & _ & Hs & _);
    [repeat split; vm_compute; done|done|done|].
  exists post, w'. split; [exact H|exact Hs].
Defined.

(** A partial commitment to the first [k] public shares can be completed with the
    remaining public shares to the full commitment, for every [k] between 1 and the number
    of shares; for other [k] it panics. *)
Theorem partial_commitment_completes {T Sh} `{SecretShare T Sh} (w : StateWrapper T Sh)
    (k : nat) :
  let public := to_scalars share_base (public_share w) in
  is_Some (private_shares w) →
  match compute_partial_commitment w k with
  | Some pc =>
      (1 ≤ k ≤ length public)%nat ∧
      compute_commitment w =
        Some (compute_poseidon_hash
          [private_commitment pc;
           foldl hash2 (partial_public_commitment pc) (drop k public)])
  | None => (k < 1 ∨ length public < k)%nat
  end.
Proof.
  intros public [private Hpriv]. unfold compute_partial_commitment, compute_commitment,
    compute_private_commitment, compute_partial_public_commitment, compute_commitment_from_private.
  rewrite Hpriv. cbn [mbind option_bind]. fold public.
  destruct (Nat.ltb_spec k 1) as [|Hk]; [by left|].
  destruct (Nat.ltb_spec (length public) k) as [|Hl]; [by right|]. simpl.
  destruct public as [|x rest]; [simpl in Hl; lia|]. cbn [mbind option_bind]. split; [lia|].
  cbn [private_commitment partial_public_commitment].
  destruct k as [|k]; [lia|]. cbn [drop]. replace (S k - 1)%nat with k by lia.
  rewrite <-foldl_take_drop. reflexivity.
Qed.

Lemma partial_commitment_completes_witness :
  let w := mkStateWrapper (csprng_new 1) (csprng_new 2) (mkIntent 1 2 3 one 10)
    (mkIntentShare 1 2 3 one 4) in
  compute_partial_commitment w 9 = None.
Proof.
  intros w. pose proof (partial_commitment_completes w 9 ltac:(by eexists)) as H.
  destruct (compute_partial_commitment w 9); [|done].
  destruct H as [[_ H] _]. simpl in H. lia.
Defined.

(** The recovery identifier an update publishes is the one [peek_recovery_id] showed,
    each update advances the recovery stream by one, and the nullifier of the updated
    element is the hash of exactly that identifier and the stream's seed, for every index
    including the one where the counter wraps. *)
Theorem nullifier_of_recovery_id {T Sh} (w : StateWrapper T Sh) :
  is_u64 (index (recovery_stream w)) →
  let '(rid, w') := compute_recovery_id w in
  rid = peek_recovery_id w ∧
  compute_nullifier w' = compute_poseidon_hash [rid; seed (recovery_stream w)] ∧
  recovery_stream w' =
    mkCSPRNG (seed (recovery_stream w)) (u64_add (index (recovery_stream w)) 1) ∧
  inner w' = inner w ∧ public_share w' = public_share w ∧ share_stream w' = share_stream w.
Proof.
  intros Hi. unfold compute_recovery_id, peek_recovery_id, compute_nullifier.
  destruct (recovery_stream w) as [s i] eqn:Hr. rewrite csprng_next_eq.
  unfold advance_recovery_stream. rewrite Hr. cbn [set_recovery_stream recovery_stream inner
    public_share share_stream index seed] in *.
  assert (u64_sub (u64_add i 1) 1 = i) as ->.
  { unfold u64_sub, u64_add, is_u64, U64_MAX in *. rewrite Zminus_mod_idemp_l.
    replace (i + 1 - 1) with i by lia. apply Z.mod_small. lia. }
  unfold get_ith. generalize compute_poseidon_hash. intros h. split_and!; reflexivity.
Qed.

Lemma nullifier_of_recovery_id_witness :
  let w := mkStateWrapper (csprng_new 1) (csprng_new 2) (10 : Amount) (4 : Scalar) in
  compute_nullifier (compute_recovery_id w).2 =
    compute_poseidon_hash [peek_recovery_id w; 1].
Proof.
  intros w. pose proof (nullifier_of_recovery_id w ltac:(split; vm_compute; done)) as H.
  destruct (compute_recovery_id w) as [rid w']. destruct H as (-> & H & _). exact H.
Defined.
