(* ===== verification/Merkle.v ===== *)
(** * Merkle authentication paths

    src/crates/relayer-types/types-account/src/merkle.rs: the coordinates of the
    siblings of a leaf, the root that a path implies, and the conversion to the opening
    that the circuits take ([MerkleOpening] of
    src/crates/circuits/circuit-types/src/primitives/merkle.rs).

    The file shows that the siblings a client fetches at the computed coordinates make
    [compute_root] return the root of the tree, that the opening given to the circuits
    has the same root, and that a path binds its leaf: two paths for the same leaf index
    and the same root hold the same leaf, or exhibit a collision of the hash. *)
From S2P Require Import Prelude Scalar Poseidon2 StateWrapper.
Local Open Scope Z_scope.

Definition MERKLE_HEIGHT : nat := 10.

Record MerkleTreeCoords := mkTreeCoords { tc_height : nat; tc_index : Z }.

Record MerkleAuthenticationPath := mkAuthPath {
  path_siblings : list Scalar;
  leaf_index : Z;
  value : Scalar;
}.

(** The index is a [BigUint]. *)
Fixpoint construct_path_coords (curr_height_index : Z) (height : nat) : list MerkleTreeCoords :=
  match height with
  | O => []
  | S height' =>
      let sibling_index :=
        if curr_height_index mod 2 =? 0 then curr_height_index + 1 else curr_height_index - 1 in
      mkTreeCoords height sibling_index ::
      construct_path_coords (Z.shiftr curr_height_index 1) height'
  end.

(** The same loop over a [u64] index. *)
Fixpoint auth_path_coords_loop (current_index : Z) (height : nat) : list MerkleTreeCoords :=
  match height with
  | O => []
  | S height' =>
      let sibling_index :=
        if current_index mod 2 =? 0 then u64_add current_index 1
        else u64_sub current_index 1 in
      mkTreeCoords height sibling_index :: auth_path_coords_loop (Z.shiftr current_index 1) height'
  end.
Definition compute_authentication_path_coords (self : MerkleAuthenticationPath)
    : list MerkleTreeCoords :=
  auth_path_coords_loop (leaf_index self) MERKLE_HEIGHT.

Definition compute_root (self : MerkleAuthenticationPath) : Scalar :=
  (foldl (λ '(current_index, current_value) sibling,
     (Z.shiftr current_index 1,
      if current_index mod 2 =? 0 then compute_poseidon_hash [current_value; sibling]
      else compute_poseidon_hash [sibling; current_value]))
    (leaf_index self, value self) (path_siblings self)).2.

Record MerkleOpening := mkOpening { elems : list Scalar; indices : list bool }.

Definition opening_from_path (native_path : MerkleAuthenticationPath) : MerkleOpening :=
  mkOpening (path_siblings native_path)
    ((λ bit : nat, Z.land (Z.shiftr (leaf_index native_path) (Z.of_nat bit)) 1 =? 1)
       <$> seq 0 MERKLE_HEIGHT).

(** ** The root of an opening *)

Definition hash_pair (is_right : bool) (current sibling : Scalar) : Scalar :=
  if is_right then H2 sibling current else H2 current sibling.

Definition opening_root (leaf : Scalar) (path : list (Scalar * bool)) : Scalar :=
  foldl (λ current '(sibling, is_right), hash_pair is_right current sibling) leaf path.

Lemma H2_eq a b : H2 a b = hash2 a b.
Proof. unfold H2. by rewrite poseidon_hash_eq. Qed.

(** The bits of an index, from the leaf up. *)
Definition index_bits (i : Z) (n : nat) : list bool :=
  (λ bit : nat, Z.testbit i (Z.of_nat bit)) <$> seq 0 n.

Lemma index_bits_succ i n : index_bits i (S n) = Z.odd i :: index_bits (Z.shiftr i 1) n.
Proof.
  unfold index_bits. cbn [seq]. rewrite fmap_cons. f_equal.
  rewrite <-fmap_S_seq, <-list_fmap_compose. apply list_fmap_ext. intros j x _.
  cbv beta delta [compose]. rewrite Z.shiftr_spec by lia. f_equal. lia.
Qed.

Lemma land_1_testbit x n : 0 ≤ n → (Z.land (Z.shiftr x n) 1 =? 1) = Z.testbit x n.
Proof.
  intros Hn. rewrite Z.land_comm. change 1 with (Z.ones 1) at 1.
  rewrite Z.land_comm, Z.land_ones by lia. change (2 ^ 1) with 2.
  rewrite Zmod_odd, <-Z.bit0_odd, Z.shiftr_spec, Z.add_0_l by lia. by destruct (Z.testbit x n).
Qed.

Lemma opening_indices p : indices (opening_from_path p) = index_bits (leaf_index p) MERKLE_HEIGHT.
Proof. apply list_fmap_ext. intros i bit _. apply land_1_testbit. lia. Qed.

Lemma mod2_odd i : (i mod 2 =? 0) = negb (Z.odd i).
Proof. rewrite Zmod_odd. by destruct (Z.odd i). Qed.

Lemma compute_root_bits sibs i v :
  compute_root (mkAuthPath sibs i v) = opening_root v (zip sibs (index_bits i (length sibs))).
Proof.
  unfold compute_root, opening_root. cbn [leaf_index value path_siblings].
  revert i v. induction sibs as [|s sibs IH]; intros i v; [done|].
  cbn [foldl length]. rewrite index_bits_succ. cbn [zip zip_with foldl].
  rewrite IH, mod2_odd. unfold hash_pair. rewrite !H2_eq. unfold hash2. by destruct (Z.odd i).
Qed.

(** ** Paths of a tree *)

(** A complete tree of hashes with its leaves at depth [height]. *)
Definition merkle_tree (node : nat → Z → Scalar) (height : nat) : Prop :=
  ∀ d i, (d < height)%nat → node d i = hash2 (node (S d) (2 * i)) (node (S d) (2 * i + 1)).

Definition node_at (node : nat → Z → Scalar) (c : MerkleTreeCoords) : Scalar :=
  node (tc_height c) (tc_index c).

Lemma path_reaches_root node height i :
  merkle_tree node height → 0 ≤ i < 2 ^ Z.of_nat height →
  compute_root (mkAuthPath (node_at node <$> construct_path_coords i height) i (node height i)) =
  node 0%nat 0.
Proof.
  intros Ht. assert (∀ n k, (n ≤ height)%nat → 0 ≤ k < 2 ^ Z.of_nat n →
    compute_root (mkAuthPath (node_at node <$> construct_path_coords k n) k (node n k)) =
    node 0%nat 0) as Hgen; [|by apply Hgen].
  induction n as [|n IH]; intros k Hn Hk.
  { replace k with 0 by (simpl in Hk; lia). done. }
  cbn [construct_path_coords]. rewrite fmap_cons. rewrite Nat2Z.inj_succ, Z.pow_succ_r in Hk by lia.
  pose proof (Z.div_mod k 2 ltac:(lia)) as D. pose proof (Z.mod_pos_bound k 2 ltac:(lia)) as B.
  rewrite <-(IH (Z.shiftr k 1)); [|lia|rewrite Z.shiftr_div_pow2 by lia; change (2 ^ 1) with 2; lia].
  unfold compute_root. cbn [path_siblings leaf_index value foldl]. do 2 f_equal.
  rewrite (Ht n) by lia. rewrite Z.shiftr_div_pow2 by lia. change (2 ^ 1) with 2.
  unfold node_at, hash2. cbn [tc_height tc_index].
  destruct (Z.eqb_spec (k mod 2) 0) as [E|E].
  - by replace (2 * (k / 2)) with k by lia.
  - replace (2 * (k / 2) + 1) with k by lia. by replace (2 * (k / 2)) with (k - 1) by lia.
Qed.

(** On an index of the tree, neither loop leaves the machine word. *)
Lemma auth_path_coords_eq i n :
  is_u64 i → auth_path_coords_loop i n = construct_path_coords i n.
Proof.
  revert i. induction n as [|n IH]; intros i Hi; [done|]. cbn [auth_path_coords_loop construct_path_coords].
  pose proof (Z.div_mod i 2 ltac:(lia)) as D. pose proof (Z.mod_pos_bound i 2 ltac:(lia)) as B.
  unfold is_u64, U64_MAX in *. rewrite IH.
  - f_equal. unfold u64_add, u64_sub.
    destruct (Z.eqb_spec (i mod 2) 0); rewrite Z.mod_small by lia; done.
  - rewrite Z.shiftr_div_pow2 by lia. change (2 ^ 1) with 2. lia.
Qed.

(** ** Binding *)

Definition pair_inputs (is_right : bool) (current sibling : Scalar) : Scalar * Scalar :=
  if is_right then (sibling, current) else (current, sibling).

(** The inputs hashed along a path, from the leaf up. *)
Fixpoint hashed_inputs (current : Scalar) (path : list (Scalar * bool)) {struct path}
    : list (Scalar * Scalar) :=
  match path with
  | [] => []
  | (sibling, is_right) :: path' =>
      pair_inputs is_right current sibling :: hashed_inputs (hash_pair is_right current sibling) path'
  end.

(** Two paths contain a collision: at some level they hash different pairs to the same
    digest. *)
Definition collide (l1 l2 : list (Scalar * Scalar)) : Prop :=
  ∃ k p q, l1 !! k = Some p ∧ l2 !! k = Some q ∧ p ≠ q ∧ hash2 p.1 p.2 = hash2 q.1 q.2.

Lemma collide_cons p q l1 l2 : collide l1 l2 → collide (p :: l1) (q :: l2).
Proof. intros (k & H). by exists (S k). Qed.

Lemma hash_pair_inputs r x s : hash_pair r x s = hash2 (pair_inputs r x s).1 (pair_inputs r x s).2.
Proof. destruct r; apply H2_eq. Qed.

Lemma opening_root_binding bits sibs1 sibs2 x y :
  length sibs1 = length bits → length sibs2 = length bits →
  opening_root x (zip sibs1 bits) = opening_root y (zip sibs2 bits) →
  (x = y ∧ sibs1 = sibs2) ∨
  collide (hashed_inputs x (zip sibs1 bits)) (hashed_inputs y (zip sibs2 bits)).
Proof.
  unfold opening_root. revert sibs1 sibs2 x y.
  induction bits as [|b bits IH]; intros [|s1 l1] [|s2 l2] x y; try (simpl; congruence).
  { simpl. intros _ _ ->. by left. }
  cbn [length zip zip_with foldl hashed_inputs]. intros [= H1] [= H2] E.
  destruct (IH l1 l2 _ _ H1 H2 E) as [[E1 ->]|?]; [|right; by apply collide_cons].
  destruct (decide (pair_inputs b x s1 = pair_inputs b y s2)) as [Ep|Hne].
  - left. destruct b; injection Ep as -> ->; split; reflexivity.
  - right. exists 0%nat. do 2 eexists. split_and!; [done..|]. by rewrite <-!hash_pair_inputs.
Qed.

(** ** Properties *)

(** Fetching the siblings of leaf [i] at the coordinates the client computes, in any
    complete hash tree of the height of the darkpool's, gives a path whose [compute_root]
    is the root of the tree; the [u64] and the big-integer version of the coordinate loop
    agree, and the opening passed to the circuits has the same root. *)
Theorem authentication_path_correct (node : nat → Z → Scalar) (i : Z) :
  merkle_tree node MERKLE_HEIGHT → 0 ≤ i < 2 ^ Z.of_nat MERKLE_HEIGHT →
  let p := mkAuthPath (node_at node <$> construct_path_coords i MERKLE_HEIGHT) i
             (node MERKLE_HEIGHT i) in
  compute_root p = node 0%nat 0 ∧
  compute_authentication_path_coords p = construct_path_coords i MERKLE_HEIGHT ∧
  opening_root (value p) (zip (elems (opening_from_path p)) (indices (opening_from_path p))) =
    node 0%nat 0.
Proof.
  intros Ht Hi p. assert (compute_root p = node 0%nat 0) as Hr by by apply path_reaches_root.
  split_and!; [done|apply auth_path_coords_eq|].
  - unfold is_u64, U64_MAX. change (2 ^ Z.of_nat MERKLE_HEIGHT) with 1024 in Hi. simpl. lia.
  - rewrite <-Hr, opening_indices. symmetry. apply compute_root_bits.
Qed.

(** The tree whose leaves are all zero. *)
Fixpoint zero_tree (n : nat) : Scalar :=
  match n with O => 0 | S n' => let x := zero_tree n' in hash2 x x end.

Lemma authentication_path_correct_witness :
  compute_root (mkAuthPath ((λ c, zero_tree (MERKLE_HEIGHT - tc_height c)) <$>
      construct_path_coords 5 MERKLE_HEIGHT) 5 0) =
  zero_tree MERKLE_HEIGHT.
Proof.
  refine (proj1 (authentication_path_correct (λ d _, zero_tree (MERKLE_HEIGHT - d)) 5 _ _)).
  - intros d i Hd. replace (MERKLE_HEIGHT - d)%nat with (S (MERKLE_HEIGHT - S d)) by lia.
    reflexivity.
  - split; reflexivity || discriminate.
Defined.

(** C32: a Merkle path binds its leaf: two paths of the same length for the same leaf index
    and with the same root have the same leaf value and the same siblings, unless at some
    level they hash two different pairs to the same digest. *)
Theorem authentication_path_binding (i : Z) (sibs1 sibs2 : list Scalar) (x y : Scalar) :
  length sibs1 = length sibs2 →
  compute_root (mkAuthPath sibs1 i x) = compute_root (mkAuthPath sibs2 i y) →
  (x = y ∧ sibs1 = sibs2) ∨
  collide (hashed_inputs x (zip sibs1 (index_bits i (length sibs1))))
          (hashed_inputs y (zip sibs2 (index_bits i (length sibs2)))).
Proof.
  intros Hl. rewrite !compute_root_bits, <-Hl. intros E.
  apply opening_root_binding; [..|exact E]; unfold index_bits;
    by rewrite length_fmap, length_seq.
Qed.

Lemma authentication_path_binding_witness :
  (1 = 1 ∧ [2; 3] = [2; 3]) ∨
  collide (hashed_inputs 1 (zip [2; 3] (index_bits 1 2)))
          (hashed_inputs 1 (zip [2; 3] (index_bits 1 2))).
Proof. apply (authentication_path_binding 1 [2; 3] [2; 3] 1 1); reflexivity. Defined.
