(* ===== verification/Circuit.v ===== *)
(** * Constraint systems

    The circuits of src/crates/circuits/circuits-core build their constraints in a
    [PlonkCircuit] of the mpc-jellyfish library: they allocate variables (each with
    the value the honest prover gives it), read the value of a variable, and add
    gates.  That library is not part of the repository.  A gadget is here the sequence
    of calls it makes, a [Circuit] computation; the gates the library derives from
    these (additions, multiplexers, ...) are an interface, [PlonkCircuit], with the
    documented meaning of each method as laws, and gadgets are proved against the
    laws.  [reference_plonk] is one implementation of the interface.

    A circuit has two readings.  [accepts w c] says that the assignment [w], chosen by
    anybody, satisfies every constraint that [c] adds: soundness of a gadget speaks
    about all such [w].  [follows w c] says that [w] gives each variable the value the
    code computes for it, as the honest prover does: completeness says that such a [w]
    satisfies the constraints.  [wp] covers both in one proof. *)
From S2P Require Import Prelude Scalar.
Local Open Scope Z_scope.

(** ** Computations in a constraint system *)

Abbreviation Var := N (only parsing).
Abbreviation Assignment := (N → Z) (only parsing).

Inductive Circuit (A : Type) : Type :=
| Ret (a : A)
| New (hint : Assignment → Scalar) (k : Var → Circuit A)
| Gate (g : Assignment → bool) (c : Circuit A)
| Panic.
Arguments Ret {A} _.
Arguments New {A} _ _.
Arguments Gate {A} _ _.
Arguments Panic {A}.

Fixpoint circuit_bind {A B} (f : A → Circuit B) (c : Circuit A) : Circuit B :=
  match c with
  | Ret a => f a
  | New h k => New h (λ v, circuit_bind f (k v))
  | Gate g c => Gate g (circuit_bind f c)
  | Panic => Panic
  end.
#[global] Instance Circuit_ret : MRet Circuit := λ A a, Ret a.
#[global] Instance Circuit_bind : MBind Circuit := λ A B f c, circuit_bind f c.

(** [cs.create_variable(x)], where [x] is computed from values [cs.witness(v)]. *)
Definition create_variable (hint : Assignment → Scalar) : Circuit Var := New hint Ret.

(** A constraint, [assert!], and [unwrap] of a too short iterator. *)
Definition constrain (g : Assignment → bool) : Circuit unit := Gate g (Ret tt).
Definition assert (b : bool) : Circuit unit := if b then Ret tt else Panic.
Definition unwrap_c {A} (o : option A) : Circuit A :=
  match o with Some a => Ret a | None => Panic end.

(** [xs.map(body).collect::<Result<Vec<_>, _>>()?] *)
Fixpoint map_c {X Y} (body : X → Circuit Y) (xs : list X) : Circuit (list Y) :=
  match xs with
  | [] => mret []
  | x :: xs' => y ← body x; ys ← map_c body xs'; mret (y :: ys)
  end.

(** [for x in xs { state = body(state, x)?; }] *)
Fixpoint fold_c {X S} (body : S → X → Circuit S) (s : S) (xs : list X) : Circuit S :=
  match xs with
  | [] => mret s
  | x :: xs' => s' ← body s x; fold_c body s' xs'
  end.

(** [for x in xs { body(x)?; }] *)
Definition for_c {X} (body : X → Circuit unit) (xs : list X) : Circuit unit :=
  fold_c (λ _, body) tt xs.

(** ** Satisfying assignments *)

(** [accepts w n c a n']: built in a system with [n] variables, [c] returns [a] and
    leaves [n'] variables, and [w] satisfies the gates it adds. *)
Inductive accepts {A} (w : Assignment) : N → Circuit A → A → N → Prop :=
| accepts_ret n a : accepts w n (Ret a) a n
| accepts_new n h k a n' :
    accepts w (N.succ n) (k n) a n' → accepts w n (New h k) a n'
| accepts_gate n g c a n' :
    g w = true → accepts w n c a n' → accepts w n (Gate g c) a n'.

(** The honest prover gives each new variable the value the code computes. *)
Fixpoint follows {A} (w : Assignment) (n : N) (c : Circuit A) : Prop :=
  match c with
  | Ret _ | Panic => True
  | New h k => w n = scalar_from (h w) ∧ follows w (N.succ n) (k n)
  | Gate _ c => follows w n c
  end.

(** [wp H w c Q]: if [w] satisfies the gates of [c], its result satisfies [Q]; and
    under [H] the assignment is the honest prover's, the gates do hold and nothing
    panics.  Soundness is the case [H := False], completeness [H := True]. *)
Fixpoint wp {A} (H : Prop) (w : Assignment) (c : Circuit A) (Q : A → Prop) : Prop :=
  match c with
  | Ret a => Q a
  | New h k => ∀ v, (H → w v = scalar_from (h w)) → wp H w (k v) Q
  | Gate g c => (H → g w = true) ∧ (g w = true → wp H w c Q)
  | Panic => ¬ H
  end.

Lemma wp_sound {A} w n (c : Circuit A) a n' Q :
  wp False w c Q → accepts w n c a n' → Q a.
Proof. intros H Ha. induction Ha; simpl in H; naive_solver. Qed.

Lemma wp_complete {A} w n (c : Circuit A) Q :
  wp True w c Q → follows w n c → ∃ a n', accepts w n c a n' ∧ Q a.
Proof.
  revert n. induction c as [a|h k IH|g c IH|]; simpl; intros n H F; [..|done].
  - exists a, n. by split; [constructor|].
  - destruct F as [F1 F2]. destruct (IH n (N.succ n)) as (a & n' & Ha & HQ); [by apply H|done|].
    exists a, n'. by split; [constructor|].
  - destruct H as [H1 H2]. destruct (IH n) as (a & n' & Ha & HQ); [by apply H2; apply H1|done|].
    exists a, n'. by split; [constructor; [apply H1|]|].
Qed.

(** ** Evaluation *)

(** The store the honest prover fills while the circuit is built. *)
Record Store := mkStore { next : N; vals : gmap N Z }.
Definition val (W : Store) (v : Var) : Scalar := default 0 (vals W !! v).
Definition push (W : Store) (x : Scalar) : Store :=
  mkStore (N.succ (next W)) (<[next W := x]> (vals W)).

Fixpoint build {A} (W : Store) (c : Circuit A) : option (A * Store) :=
  match c with
  | Ret a => Some (a, W)
  | New h k => build (push W (scalar_from (h (val W)))) (k (next W))
  | Gate _ c => build W c
  | Panic => None
  end.

(** Decide [accepts]; with [honest], also [follows]. *)
Fixpoint check {A} (honest : bool) (w : Assignment) (n : N) (c : Circuit A) : option (A * N) :=
  match c with
  | Ret a => Some (a, n)
  | New h k =>
      if honest && negb (w n =? scalar_from (h w)) then None
      else check honest w (N.succ n) (k n)
  | Gate g c => if g w then check honest w n c else None
  | Panic => None
  end.

Lemma check_accepts {A} b w n (c : Circuit A) a n' :
  check b w n c = Some (a, n') → accepts w n c a n'.
Proof.
  revert n. induction c as [a'|h k IH|g c IH|]; simpl; intros n H; [..|done].
  - injection H as <- <-. constructor.
  - destruct (b && _); [done|]. constructor. by apply IH.
  - destruct (g w) eqn:E; [|done]. constructor; auto.
Qed.

Lemma check_follows {A} w n (c : Circuit A) a n' :
  check true w n c = Some (a, n') → follows w n c.
Proof.
  revert n. induction c as [a'|h k IH|g c IH|]; simpl; intros n H; [done|..|done].
  - destruct (w n =? _) eqn:E; simpl in H; [|done]. apply Z.eqb_eq in E. eauto.
  - destruct (g w); [|done]. eauto.
Qed.

(** ** Rules *)

Section Rules.
Context {H : Prop} {w : N → Z}.

Lemma wp_mono {A} (c : Circuit A) (P Q : A → Prop) :
  wp H w c P → (∀ a, P a → Q a) → wp H w c Q.
Proof. intros Hc HPQ. induction c; simpl in *; naive_solver. Qed.

Lemma wp_bind {A B} (m : Circuit A) (k : A → Circuit B) Q :
  wp H w m (λ a, wp H w (k a) Q) → wp H w (m ≫= k) Q.
Proof. induction m; simpl; naive_solver. Qed.

(** Run the first part with its specification, then the rest. *)
Lemma wp_step {A B} (m : Circuit A) (k : A → Circuit B) P Q :
  wp H w m P → (∀ a, P a → wp H w (k a) Q) → wp H w (m ≫= k) Q.
Proof. intros Hm Hk. apply wp_bind. by eapply wp_mono. Qed.

Lemma wp_create_variable h : wp H w (create_variable h) (λ v, H → w v = scalar_from (h w)).
Proof. by intros v Hv. Qed.
Lemma wp_constrain g : (H → g w = true) → wp H w (constrain g) (λ _, g w = true).
Proof. done. Qed.
Lemma wp_assert b : (H → b = true) → wp H w (assert b) (λ _, b = true).
Proof. destruct b; simpl; [done|]. naive_solver. Qed.
Lemma wp_unwrap {A} (o : option A) :
  (H → is_Some o) → wp H w (unwrap_c o) (λ a, o = Some a).
Proof. destruct o; simpl; [done|]. intros Ho Hh. by destruct (Ho Hh). Qed.

Lemma wp_map {X Y} (body : X → Circuit Y) (P : X → Y → Prop) xs :
  (∀ x, x ∈ xs → wp H w (body x) (P x)) → wp H w (map_c body xs) (Forall2 P xs).
Proof.
  induction xs as [|x xs IH]; intros Hb; simpl; [constructor|].
  eapply wp_step; [apply Hb; by left|]. intros y Hy.
  eapply wp_step; [apply IH; intros; apply Hb; by right|]. intros ys Hys. by constructor.
Qed.

(** A loop follows the fold of a function on what the states stand for. *)
Lemma wp_fold {X S T} (body : S → X → Circuit S) (R : S → T → Prop) (f : T → X → T) s t xs :
  R s t → (∀ s t x, x ∈ xs → R s t → wp H w (body s x) (λ s', R s' (f t x))) →
  wp H w (fold_c body s xs) (λ s', R s' (foldl f t xs)).
Proof.
  revert s t. induction xs as [|x xs IH]; intros s t Hs Hb; simpl; [done|].
  eapply wp_step; [apply Hb; [by left|done]|]. intros s' Hs'.
  apply IH; [done|]. intros. apply Hb; [by right|done].
Qed.

Lemma wp_for {X} (body : X → Circuit unit) (P : X → Prop) xs :
  (∀ x, x ∈ xs → wp H w (body x) (λ _, P x)) → wp H w (for_c body xs) (λ _, Forall P xs).
Proof.
  unfold for_c. intros Hb. induction xs as [|x xs IH]; simpl; [constructor|].
  eapply wp_step; [apply Hb; by left|]. intros [] Hx.
  eapply wp_mono; [apply IH; intros; apply Hb; by right|]. by constructor.
Qed.
Lemma wp_ret {A} (a : A) (Q : A → Prop) : Q a → wp H w (mret a) Q.
Proof. done. Qed.
End Rules.
#[global] Arguments wp : simpl never.

(** ** The interface of the proof system *)

(** The selectors of a gate over four input wires and an output wire, as the source
    gives them; the selectors that it leaves at their default are zero. *)
Record PlonkGate := mkGate {
  q_hash : list Scalar;
  q_lc : list Scalar;
  q_c : Scalar;
  q_o : Scalar;
}.

Definition dot (cs xs : list Z) : Z := foldr (λ p acc, p.1 * p.2 + acc) 0 (zip cs xs).

(** The gate equation: [q_o out = q_c + sum q_lc_i x_i + sum q_hash_i x_i^5]. *)
Definition gate_holds (g : PlonkGate) (ins : list Scalar) (out : Scalar) : Prop :=
  scalar_from (q_o g * out) =
  scalar_from (q_c g + dot (q_lc g) ins + dot (q_hash g) ((λ x, x ^ 5) <$> ins)).

Definition is_bit (x : Z) : Prop := x = 0 ∨ x = 1.

Class PlonkCircuit := {
  cs_zero : Var;
  cs_one : Var;
  cs_add : Var → Var → Circuit Var;
  cs_sub : Var → Var → Circuit Var;
  cs_mul : Var → Var → Circuit Var;
  cs_add_constant : Var → Scalar → Circuit Var;
  cs_mul_constant : Var → Scalar → Circuit Var;
  cs_lc : list Var → list Scalar → Circuit Var;
  cs_lc_sum : list Var → list Scalar → Circuit Var;
  cs_mux : Var → Var → Var → Circuit Var;
  cs_logic_neg : Var → Circuit Var;
  cs_logic_and_all : list Var → Circuit Var;
  cs_enforce_equal : Var → Var → Circuit unit;
  cs_enforce_bool : Var → Circuit unit;
  cs_enforce_true : Var → Circuit unit;
  cs_enforce_false : Var → Circuit unit;
  cs_create_boolean_variable : (Assignment → Scalar) → Circuit Var;
  cs_create_public_variable : Scalar → Circuit Var;
  cs_mul_gate : Var → Var → Var → Circuit unit;
  cs_mul_add_gate : Var → Var → Var → Var → Var → Scalar → Scalar → Circuit unit;
  cs_insert_gate : list Var → Var → PlonkGate → Circuit unit;
}.

(** The assignments of a constraint system: field elements, with the two constant
    variables every system has. *)
Record assignment `{PlonkCircuit} (w : Assignment) : Prop := {
  assigned_scalar : ∀ v, is_scalar (w v);
  assigned_zero : w cs_zero = 0;
  assigned_one : w cs_one = 1;
}.

(** What the library documents of each method. *)
Class PlonkCircuitLaws `{PlonkCircuit} : Prop := {
  add_law H w a b : assignment w →
    wp H w (cs_add a b) (λ v, w v = scalar_add (w a) (w b));
  sub_law H w a b : assignment w →
    wp H w (cs_sub a b) (λ v, w v = scalar_sub (w a) (w b));
  mul_law H w a b : assignment w →
    wp H w (cs_mul a b) (λ v, w v = scalar_mul (w a) (w b));
  add_constant_law H w a c : assignment w →
    wp H w (cs_add_constant a c) (λ v, w v = scalar_add (w a) c);
  mul_constant_law H w a c : assignment w →
    wp H w (cs_mul_constant a c) (λ v, w v = scalar_mul (w a) c);
  lc_law H w vs cs : assignment w → length vs = 4%nat → length cs = 4%nat →
    wp H w (cs_lc vs cs) (λ v, w v = scalar_from (dot cs (w <$> vs)));
  lc_sum_law H w vs cs : assignment w → length vs = length cs →
    wp H w (cs_lc_sum vs cs) (λ v, w v = scalar_from (dot cs (w <$> vs)));
  mux_law H w b x y : assignment w → is_bit (w b) →
    wp H w (cs_mux b x y) (λ v, w v = if w b =? 1 then w x else w y);
  logic_neg_law H w b : assignment w → is_bit (w b) →
    wp H w (cs_logic_neg b) (λ v, w v = 1 - w b);
  logic_and_all_law H w bs : assignment w → bs ≠ [] → Forall (λ b, is_bit (w b)) bs →
    wp H w (cs_logic_and_all bs)
      (λ v, w v = if forallb (λ b, w b =? 1) bs then 1 else 0);
  enforce_equal_law (H : Prop) w a b : assignment w → (H → w a = w b) →
    wp H w (cs_enforce_equal a b) (λ _, w a = w b);
  enforce_bool_law (H : Prop) w b : assignment w → (H → is_bit (w b)) →
    wp H w (cs_enforce_bool b) (λ _, is_bit (w b));
  enforce_true_law (H : Prop) w b : assignment w → (H → w b = 1) →
    wp H w (cs_enforce_true b) (λ _, w b = 1);
  enforce_false_law (H : Prop) w b : assignment w → (H → w b = 0) →
    wp H w (cs_enforce_false b) (λ _, w b = 0);
  create_boolean_law (H : Prop) w h : assignment w → (H → is_bit (h w)) →
    wp H w (cs_create_boolean_variable h) (λ v, is_bit (w v) ∧ (H → w v = h w));
  create_public_law H w x : assignment w →
    wp H w (cs_create_public_variable x) (λ v, w v = scalar_from x);
  mul_gate_law (H : Prop) w a b c : assignment w → (H → scalar_mul (w a) (w b) = w c) →
    wp H w (cs_mul_gate a b c) (λ _, scalar_mul (w a) (w b) = w c);
  mul_add_gate_law (H : Prop) w a b c d o q r : assignment w →
    (H → scalar_from (q * (w a * w b) + r * (w c * w d)) = w o) →
    wp H w (cs_mul_add_gate a b c d o q r)
      (λ _, scalar_from (q * (w a * w b) + r * (w c * w d)) = w o);
  insert_gate_law (H : Prop) w vs o g : assignment w →
    (H → gate_holds g (w <$> vs) (w o)) →
    wp H w (cs_insert_gate vs o g) (λ _, gate_holds g (w <$> vs) (w o));
}.

(** ** A reference implementation *)

(** A new variable with the value of an expression, constrained to it. *)
Definition computed (f : Assignment → Scalar) : Circuit Var :=
  New f (λ v, Gate (λ w, w v =? scalar_from (f w)) (Ret v)).

#[local] Instance gate_holds_dec g ins out : Decision (gate_holds g ins out).
Proof. unfold gate_holds. apply _. Defined.
#[local] Instance is_bit_dec x : Decision (is_bit x).
Proof. unfold is_bit. apply _. Defined.

Definition reference_plonk : PlonkCircuit := {|
  cs_zero := 0%N;
  cs_one := 1%N;
  cs_add a b := computed (λ w, scalar_add (w a) (w b));
  cs_sub a b := computed (λ w, scalar_sub (w a) (w b));
  cs_mul a b := computed (λ w, scalar_mul (w a) (w b));
  cs_add_constant a c := computed (λ w, scalar_add (w a) c);
  cs_mul_constant a c := computed (λ w, scalar_mul (w a) c);
  cs_lc vs cs := computed (λ w, dot cs (w <$> vs));
  cs_lc_sum vs cs := computed (λ w, dot cs (w <$> vs));
  cs_mux b x y := computed (λ w, if w b =? 1 then w x else w y);
  cs_logic_neg b := computed (λ w, scalar_sub 1 (w b));
  cs_logic_and_all bs := computed (λ w, if forallb (λ b, w b =? 1) bs then 1 else 0);
  cs_enforce_equal a b := constrain (λ w, w a =? w b);
  cs_enforce_bool b := constrain (λ w, bool_decide (is_bit (w b)));
  cs_enforce_true b := constrain (λ w, w b =? 1);
  cs_enforce_false b := constrain (λ w, w b =? 0);
  cs_create_boolean_variable h :=
    New h (λ v, Gate (λ w, bool_decide (is_bit (w v))) (Ret v));
  cs_create_public_variable x := computed (λ _, x);
  cs_mul_gate a b c := constrain (λ w, scalar_mul (w a) (w b) =? w c);
  cs_mul_add_gate a b c d o q r :=
    constrain (λ w, scalar_from (q * (w a * w b) + r * (w c * w d)) =? w o);
  cs_insert_gate vs o g := constrain (λ w, bool_decide (gate_holds g (w <$> vs) (w o)));
|}.

(** The store of a new system, with its two constants. *)
Definition new_turbo_plonk : Store := mkStore 2 {[ 0%N := 0; 1%N := 1 ]}.

Lemma wp_computed H w f (x : Scalar) :
  scalar_from (f w) = x → wp H w (computed f) (λ v, w v = x).
Proof. intros <- v Hv. split; [intros Hh; apply Z.eqb_eq; auto|apply Z.eqb_eq]. Qed.

Lemma wp_check (H : Prop) w (g : Assignment → bool) (P : Prop) :
  (g w = true ↔ P) → (H → P) → wp H w (constrain g) (λ _, P).
Proof. intros E HP. split; [intros Hh; by apply E, HP|]. intros G. by apply E. Qed.

Lemma scalar_from_bit x : is_bit x → scalar_from x = x.
Proof. intros [->| ->]; apply scalar_from_small; done. Qed.

#[global] Instance reference_laws : @PlonkCircuitLaws reference_plonk.
Proof.
  split; intros H w; intros;
    match goal with H : assignment w |- _ => destruct H as [Ws W0 W1] end.
  all: try (apply wp_computed; apply scalar_from_id; auto with relayer; fail).
  all: try (apply wp_computed; reflexivity).
  all: try (apply wp_check; [apply Z.eqb_eq|done]).
  all: try (apply wp_check; [apply bool_decide_eq_true|done]).
  - apply wp_computed. destruct (w b =? 1); by apply scalar_from_id.
  - apply wp_computed. rewrite scalar_from_id by auto with relayer.
    unfold scalar_sub. apply (scalar_from_bit (1 - w b)). unfold is_bit in *. lia.
  - apply wp_computed. apply scalar_from_bit. destruct (forallb _ _); [by right|by left].
  - intros v Hv. split.
    + intros Hh. rewrite bool_decide_eq_true. rewrite Hv by done.
      rewrite scalar_from_bit; auto.
    + rewrite bool_decide_eq_true. intros B. split; [done|]. intros Hh.
      rewrite Hv by done. apply scalar_from_bit; auto.
Qed.

(** The assignment of a finished store is a legal one when its constants and values
    are: decided by evaluation. *)
Definition store_ok (W : Store) : bool :=
  (val W 0 =? 0) && (val W 1 =? 1) &&
  forallb (λ p : N * Z, (0 <=? p.2) && (p.2 <? scalar_modulus)) (map_to_list (vals W)).

Lemma store_assignment W : store_ok W = true → @assignment reference_plonk (val W).
Proof.
  unfold store_ok. rewrite !andb_true_iff, !Z.eqb_eq, forallb_forall.
  intros [[H0 H1] Hs]. split; [|done..]. intros v. unfold val.
  destruct (vals W !! v) as [x|] eqn:E; simpl; [|apply is_scalar_0].
  apply elem_of_map_to_list in E. apply list_elem_of_In in E. apply Hs in E. simpl in E.
  unfold is_scalar. lia.
Qed.

(** Evaluate a closed circuit: build it honestly and check the finished assignment. *)
Definition evaluate {A} (c : Circuit A) : option (A * Store) :=
  '(a, W) ← build new_turbo_plonk c;
  _ ← check true (val W) 2 c;
  if store_ok W then Some (a, W) else None.

Lemma evaluate_sound {A} (c : Circuit A) a W :
  evaluate c = Some (a, W) →
  @assignment reference_plonk (val W) ∧ follows (val W) 2 c ∧
  ∃ a' n', accepts (val W) 2 c a' n'.
Proof.
  unfold evaluate. destruct (build new_turbo_plonk c) as [[a1 W1]|]; [|done]. simpl.
  destruct (check true (val W1) 2 c) as [[a2 n2]|] eqn:Ec; [|done]. simpl.
  destruct (store_ok W1) eqn:Eo; [|done]. intros [= <- <-]. split; [by apply store_assignment|].
  split; [by eapply check_follows|]. exists a2, n2. by eapply check_accepts.
Qed.
