(* ===== verification/CircuitTypes.v ===== *)
(** * Variable types

    The [circuit_type] macro (src/crates/circuits/circuit-macros/src/circuit_type.rs)
    derives, from each struct of the darkpool, the struct of its variables in a
    constraint system ([IntentVar], ...) and that of the variables of its secret shares
    ([IntentShareVar], ...): every field becomes a variable, in the same order.  The two
    have the same fields, so one record stands for both, with the type of a leaf as its
    parameter: [DarkpoolBalanceVar Var] is the allocated type, and
    [DarkpoolBalanceVar Scalar] holds the values of its variables, or of the scalars the
    native type serializes to.

    [CircuitType] is the trait [CircuitVarType] of
    src/crates/circuits/circuit-types/src/traits.rs. *)
From stdpp Require Import vector.
From S2P Require Import Prelude Scalar FixedPoint BaseType DarkpoolTypes Poseidon2 StateWrapper.
From S2P Require Import Circuit.
Local Open Scope Z_scope.

Class CircuitType (F : Type → Type) := {
  cmap {A B} : (A → B) → F A → F B;
  flat {A} : F A → list A;
  unflat {A} : list A → option (F A * list A);
  NUM : nat;
}.
#[global] Hint Mode CircuitType ! : typeclass_instances.

Class CircuitTypeLaws (F : Type → Type) `{CircuitType F} : Prop := {
  flat_cmap {A B} (f : A → B) (x : F A) : flat (cmap f x) = f <$> flat x;
  flat_length {A} (x : F A) : length (flat x) = NUM (F:=F);
  unflat_flat {A} (x : F A) rest : unflat (flat x ++ rest) = Some (x, rest);
  unflat_spec {A} (l : list A) (x : F A) rest : unflat l = Some (x, rest) → l = flat x ++ rest;
  unflat_total {A} (l : list A) : (NUM (F:=F) ≤ length l)%nat → is_Some (unflat (F:=F) l);
}.

Lemma flat_inj `{CircuitTypeLaws F} {A} (x y : F A) : flat x = flat y → x = y.
Proof.
  intros E. pose proof (unflat_flat x []) as X. rewrite E in X.
  rewrite unflat_flat in X. by injection X.
Qed.

(** [V::to_vars] and [V::from_vars] of a type without booleans. *)
Definition to_vars `{CircuitType F} (x : F Var) : list Var := flat x.
Definition from_vars `{CircuitType F} (l : list Var) : Circuit (F Var) :=
  '(x, _) ← unwrap_c (unflat (F:=F) l); mret x.

(** ** The types *)

(** [Variable] itself *)
Definition Id (A : Type) : Type := A.
#[global] Instance id_type : CircuitType Id := {|
  cmap A B f x := f x;
  flat A x := [x];
  unflat A l := match l with x :: r => Some (x, r) | [] => None end;
  NUM := 1;
|}.

Record FixedPointVar (A : Type) := mkFixedPointVar { fpv_repr : A }.
Arguments mkFixedPointVar {A} _.
Arguments fpv_repr {A} _.
#[global] Instance fixed_point_type : CircuitType FixedPointVar := {|
  cmap A B f x := mkFixedPointVar (f (fpv_repr x));
  flat A x := [fpv_repr x];
  unflat A l := match l with a :: r => Some (mkFixedPointVar a, r) | _ => None end;
  NUM := 1;
|}.

Record BabyJubJubPointVar (A : Type) := mkPointVar { pv_x : A; pv_y : A }.
Arguments mkPointVar {A} _ _.
Arguments pv_x {A} _.
Arguments pv_y {A} _.
#[global] Instance point_type : CircuitType BabyJubJubPointVar := {|
  cmap A B f x := mkPointVar (f (pv_x x)) (f (pv_y x));
  flat A x := [pv_x x; pv_y x];
  unflat A l := match l with a :: b :: r => Some (mkPointVar a b, r) | _ => None end;
  NUM := 2;
|}.

(** [SchnorrPublicKeyVar], a struct with one field *)
Record SchnorrPublicKeyVar (A : Type) := mkPublicKeyVar { pkv_point : BabyJubJubPointVar A }.
Arguments mkPublicKeyVar {A} _.
Arguments pkv_point {A} _.
#[global] Instance public_key_type : CircuitType SchnorrPublicKeyVar := {|
  cmap A B f x := mkPublicKeyVar (cmap f (pkv_point x));
  flat A x := flat (pkv_point x);
  unflat A l :=
    match l with a :: b :: r => Some (mkPublicKeyVar (mkPointVar a b), r) | _ => None end;
  NUM := 2;
|}.

Record SchnorrSignatureVar (A : Type) := mkSignatureVar {
  sgv_s : A;
  sgv_r : BabyJubJubPointVar A;
}.
Arguments mkSignatureVar {A} _ _.
Arguments sgv_s {A} _.
Arguments sgv_r {A} _.
#[global] Instance signature_type : CircuitType SchnorrSignatureVar := {|
  cmap A B f x := mkSignatureVar (f (sgv_s x)) (cmap f (sgv_r x));
  flat A x := sgv_s x :: flat (sgv_r x);
  unflat A l :=
    match l with
    | a :: b :: c :: r => Some (mkSignatureVar a (mkPointVar b c), r)
    | _ => None
    end;
  NUM := 3;
|}.

Record PoseidonCSPRNGVar (A : Type) := mkCSPRNGVar { csv_seed : A; csv_index : A }.
Arguments mkCSPRNGVar {A} _ _.
Arguments csv_seed {A} _.
Arguments csv_index {A} _.
#[global] Instance csprng_type : CircuitType PoseidonCSPRNGVar := {|
  cmap A B f x := mkCSPRNGVar (f (csv_seed x)) (f (csv_index x));
  flat A x := [csv_seed x; csv_index x];
  unflat A l := match l with a :: b :: r => Some (mkCSPRNGVar a b, r) | _ => None end;
  NUM := 2;
|}.

Record IntentVar (A : Type) := mkIntentVar {
  iv_in_token : A;
  iv_out_token : A;
  iv_owner : A;
  iv_min_price : FixedPointVar A;
  iv_amount_in : A;
}.
Arguments mkIntentVar {A} _ _ _ _ _.
Arguments iv_in_token {A} _.
Arguments iv_out_token {A} _.
Arguments iv_owner {A} _.
Arguments iv_min_price {A} _.
Arguments iv_amount_in {A} _.
#[global] Instance intent_type : CircuitType IntentVar := {|
  cmap A B f x :=
    mkIntentVar (f (iv_in_token x)) (f (iv_out_token x)) (f (iv_owner x))
      (cmap f (iv_min_price x)) (f (iv_amount_in x));
  flat A x :=
    [iv_in_token x; iv_out_token x; iv_owner x; fpv_repr (iv_min_price x); iv_amount_in x];
  unflat A l :=
    match l with
    | a :: b :: c :: d :: e :: r => Some (mkIntentVar a b c (mkFixedPointVar d) e, r)
    | _ => None
    end;
  NUM := 5;
|}.

Record PreMatchIntentVar (A : Type) := mkPreMatchIntentVar {
  piv_in_token : A;
  piv_out_token : A;
  piv_owner : A;
  piv_min_price : FixedPointVar A;
}.
Arguments mkPreMatchIntentVar {A} _ _ _ _.
Arguments piv_in_token {A} _.
Arguments piv_out_token {A} _.
Arguments piv_owner {A} _.
Arguments piv_min_price {A} _.
#[global] Instance pre_match_intent_type : CircuitType PreMatchIntentVar := {|
  cmap A B f x :=
    mkPreMatchIntentVar (f (piv_in_token x)) (f (piv_out_token x)) (f (piv_owner x))
      (cmap f (piv_min_price x));
  flat A x :=
    [piv_in_token x; piv_out_token x; piv_owner x; fpv_repr (piv_min_price x)];
  unflat A l :=
    match l with
    | a :: b :: c :: d :: r => Some (mkPreMatchIntentVar a b c (mkFixedPointVar d), r)
    | _ => None
    end;
  NUM := 4;
|}.

Record DarkpoolBalanceVar (A : Type) := mkBalanceVar {
  bv_mint : A;
  bv_owner : A;
  bv_relayer_fee_recipient : A;
  bv_authority : SchnorrPublicKeyVar A;
  bv_relayer_fee_balance : A;
  bv_protocol_fee_balance : A;
  bv_amount : A;
}.
Arguments mkBalanceVar {A} _ _ _ _ _ _ _.
Arguments bv_mint {A} _.
Arguments bv_owner {A} _.
Arguments bv_relayer_fee_recipient {A} _.
Arguments bv_authority {A} _.
Arguments bv_relayer_fee_balance {A} _.
Arguments bv_protocol_fee_balance {A} _.
Arguments bv_amount {A} _.
#[global] Instance balance_type : CircuitType DarkpoolBalanceVar := {|
  cmap A B f x :=
    mkBalanceVar (f (bv_mint x)) (f (bv_owner x)) (f (bv_relayer_fee_recipient x))
      (cmap f (bv_authority x)) (f (bv_relayer_fee_balance x))
      (f (bv_protocol_fee_balance x)) (f (bv_amount x));
  flat A x :=
    [bv_mint x; bv_owner x; bv_relayer_fee_recipient x] ++ flat (bv_authority x) ++
    [bv_relayer_fee_balance x; bv_protocol_fee_balance x; bv_amount x];
  unflat A l :=
    match l with
    | a :: b :: c :: d :: e :: f :: g :: h :: r =>
        Some (mkBalanceVar a b c (mkPublicKeyVar (mkPointVar d e)) f g h, r)
    | _ => None
    end;
  NUM := 8;
|}.

Record PreMatchBalanceVar (A : Type) := mkPreMatchBalanceVar {
  pbv_mint : A;
  pbv_owner : A;
  pbv_relayer_fee_recipient : A;
  pbv_authority : SchnorrPublicKeyVar A;
}.
Arguments mkPreMatchBalanceVar {A} _ _ _ _.
Arguments pbv_mint {A} _.
Arguments pbv_owner {A} _.
Arguments pbv_relayer_fee_recipient {A} _.
Arguments pbv_authority {A} _.
#[global] Instance pre_match_balance_type : CircuitType PreMatchBalanceVar := {|
  cmap A B f x :=
    mkPreMatchBalanceVar (f (pbv_mint x)) (f (pbv_owner x))
      (f (pbv_relayer_fee_recipient x)) (cmap f (pbv_authority x));
  flat A x :=
    [pbv_mint x; pbv_owner x; pbv_relayer_fee_recipient x;
     pv_x (pkv_point (pbv_authority x)); pv_y (pkv_point (pbv_authority x))];
  unflat A l :=
    match l with
    | a :: b :: c :: d :: e :: r =>
        Some (mkPreMatchBalanceVar a b c (mkPublicKeyVar (mkPointVar d e)), r)
    | _ => None
    end;
  NUM := 5;
|}.

Record PostMatchBalanceVar (A : Type) := mkPostMatchBalanceVar {
  qbv_relayer_fee_balance : A;
  qbv_protocol_fee_balance : A;
  qbv_amount : A;
}.
Arguments mkPostMatchBalanceVar {A} _ _ _.
Arguments qbv_relayer_fee_balance {A} _.
Arguments qbv_protocol_fee_balance {A} _.
Arguments qbv_amount {A} _.
#[global] Instance post_match_balance_type : CircuitType PostMatchBalanceVar := {|
  cmap A B f x :=
    mkPostMatchBalanceVar (f (qbv_relayer_fee_balance x))
      (f (qbv_protocol_fee_balance x)) (f (qbv_amount x));
  flat A x :=
    [qbv_relayer_fee_balance x; qbv_protocol_fee_balance x; qbv_amount x];
  unflat A l :=
    match l with
    | a :: b :: c :: r =>
        Some (mkPostMatchBalanceVar a b c, r)
    | _ => None
    end;
  NUM := 3;
|}.

Record SettlementObligationVar (A : Type) := mkObligationVar {
  ov_input_token : A;
  ov_output_token : A;
  ov_amount_in : A;
  ov_amount_out : A;
}.
Arguments mkObligationVar {A} _ _ _ _.
Arguments ov_input_token {A} _.
Arguments ov_output_token {A} _.
Arguments ov_amount_in {A} _.
Arguments ov_amount_out {A} _.
#[global] Instance obligation_type : CircuitType SettlementObligationVar := {|
  cmap A B f x :=
    mkObligationVar (f (ov_input_token x)) (f (ov_output_token x)) (f (ov_amount_in x))
      (f (ov_amount_out x));
  flat A x :=
    [ov_input_token x; ov_output_token x; ov_amount_in x; ov_amount_out x];
  unflat A l :=
    match l with
    | a :: b :: c :: d :: r =>
        Some (mkObligationVar a b c d, r)
    | _ => None
    end;
  NUM := 4;
|}.

Record FeeTakeVar (A : Type) := mkFeeTakeVar {
  ftv_relayer_fee : A;
  ftv_protocol_fee : A;
}.
Arguments mkFeeTakeVar {A} _ _.
Arguments ftv_relayer_fee {A} _.
Arguments ftv_protocol_fee {A} _.
#[global] Instance fee_take_type : CircuitType FeeTakeVar := {|
  cmap A B f x :=
    mkFeeTakeVar (f (ftv_relayer_fee x)) (f (ftv_protocol_fee x));
  flat A x :=
    [ftv_relayer_fee x; ftv_protocol_fee x];
  unflat A l :=
    match l with
    | a :: b :: r =>
        Some (mkFeeTakeVar a b, r)
    | _ => None
    end;
  NUM := 2;
|}.

Record FeeRatesVar (A : Type) := mkFeeRatesVar {
  frv_relayer_fee_rate : FixedPointVar A;
  frv_protocol_fee_rate : FixedPointVar A;
}.
Arguments mkFeeRatesVar {A} _ _.
Arguments frv_relayer_fee_rate {A} _.
Arguments frv_protocol_fee_rate {A} _.
#[global] Instance fee_rates_type : CircuitType FeeRatesVar := {|
  cmap A B f x :=
    mkFeeRatesVar (cmap f (frv_relayer_fee_rate x)) (cmap f (frv_protocol_fee_rate x));
  flat A x :=
    [fpv_repr (frv_relayer_fee_rate x); fpv_repr (frv_protocol_fee_rate x)];
  unflat A l :=
    match l with
    | a :: b :: r =>
        Some (mkFeeRatesVar (mkFixedPointVar a) (mkFixedPointVar b), r)
    | _ => None
    end;
  NUM := 2;
|}.

Record BoundedMatchResultVar (A : Type) := mkBoundedMatchVar {
  bmv_input_token : A;
  bmv_output_token : A;
  bmv_min_amount_in : A;
  bmv_max_amount_in : A;
  bmv_price : FixedPointVar A;
  bmv_block_deadline : A;
}.
Arguments mkBoundedMatchVar {A} _ _ _ _ _ _.
Arguments bmv_input_token {A} _.
Arguments bmv_output_token {A} _.
Arguments bmv_min_amount_in {A} _.
Arguments bmv_max_amount_in {A} _.
Arguments bmv_price {A} _.
Arguments bmv_block_deadline {A} _.
#[global] Instance bounded_match_type : CircuitType BoundedMatchResultVar := {|
  cmap A B f x :=
    mkBoundedMatchVar (f (bmv_input_token x)) (f (bmv_output_token x))
      (f (bmv_min_amount_in x)) (f (bmv_max_amount_in x)) (cmap f (bmv_price x))
      (f (bmv_block_deadline x));
  flat A x :=
    [bmv_input_token x; bmv_output_token x; bmv_min_amount_in x; bmv_max_amount_in x;
     fpv_repr (bmv_price x); bmv_block_deadline x];
  unflat A l :=
    match l with
    | a :: b :: c :: d :: e :: f :: r =>
        Some (mkBoundedMatchVar a b c d (mkFixedPointVar e) f, r)
    | _ => None
    end;
  NUM := 6;
|}.

Record NoteVar (A : Type) := mkNoteVar {
  nv_mint : A;
  nv_amount : A;
  nv_receiver : A;
  nv_blinder : A;
}.
Arguments mkNoteVar {A} _ _ _ _.
Arguments nv_mint {A} _.
Arguments nv_amount {A} _.
Arguments nv_receiver {A} _.
Arguments nv_blinder {A} _.
#[global] Instance note_type : CircuitType NoteVar := {|
  cmap A B f x :=
    mkNoteVar (f (nv_mint x)) (f (nv_amount x)) (f (nv_receiver x)) (f (nv_blinder x));
  flat A x :=
    [nv_mint x; nv_amount x; nv_receiver x; nv_blinder x];
  unflat A l :=
    match l with
    | a :: b :: c :: d :: r =>
        Some (mkNoteVar a b c d, r)
    | _ => None
    end;
  NUM := 4;
|}.

Record DepositVar (A : Type) := mkDepositVar {
  dv_from : A;
  dv_token : A;
  dv_amount : A;
}.
Arguments mkDepositVar {A} _ _ _.
Arguments dv_from {A} _.
Arguments dv_token {A} _.
Arguments dv_amount {A} _.
#[global] Instance deposit_type : CircuitType DepositVar := {|
  cmap A B f x :=
    mkDepositVar (f (dv_from x)) (f (dv_token x)) (f (dv_amount x));
  flat A x :=
    [dv_from x; dv_token x; dv_amount x];
  unflat A l :=
    match l with
    | a :: b :: c :: r =>
        Some (mkDepositVar a b c, r)
    | _ => None
    end;
  NUM := 3;
|}.

Record WithdrawalVar (A : Type) := mkWithdrawalVar {
  wv_to : A;
  wv_token : A;
  wv_amount : A;
}.
Arguments mkWithdrawalVar {A} _ _ _.
Arguments wv_to {A} _.
Arguments wv_token {A} _.
Arguments wv_amount {A} _.
#[global] Instance withdrawal_type : CircuitType WithdrawalVar := {|
  cmap A B f x :=
    mkWithdrawalVar (f (wv_to x)) (f (wv_token x)) (f (wv_amount x));
  flat A x :=
    [wv_to x; wv_token x; wv_amount x];
  unflat A l :=
    match l with
    | a :: b :: c :: r =>
        Some (mkWithdrawalVar a b c, r)
    | _ => None
    end;
  NUM := 3;
|}.

Record PartialCommitmentVar (A : Type) := mkPartialCommitmentVar {
  pcv_private_commitment : A;
  pcv_partial_public_commitment : A;
}.
Arguments mkPartialCommitmentVar {A} _ _.
Arguments pcv_private_commitment {A} _.
Arguments pcv_partial_public_commitment {A} _.
#[global] Instance partial_commitment_type : CircuitType PartialCommitmentVar := {|
  cmap A B f x :=
    mkPartialCommitmentVar (f (pcv_private_commitment x))
      (f (pcv_partial_public_commitment x));
  flat A x :=
    [pcv_private_commitment x; pcv_partial_public_commitment x];
  unflat A l :=
    match l with
    | a :: b :: r =>
        Some (mkPartialCommitmentVar a b, r)
    | _ => None
    end;
  NUM := 2;
|}.

(** [StateWrapperVar<T>] *)
Record StateWrapperVar (F : Type → Type) (A : Type) := mkWrapperVar {
  swv_recovery_stream : PoseidonCSPRNGVar A;
  swv_share_stream : PoseidonCSPRNGVar A;
  swv_inner : F A;
  swv_public_share : F A;
}.
Arguments mkWrapperVar {F A} _ _ _ _.
Arguments swv_recovery_stream {F A} _.
Arguments swv_share_stream {F A} _.
Arguments swv_inner {F A} _.
Arguments swv_public_share {F A} _.
#[global] Instance wrapper_type `{CircuitType F} : CircuitType (StateWrapperVar F) := {|
  cmap A B f x :=
    mkWrapperVar (cmap f (swv_recovery_stream x)) (cmap f (swv_share_stream x))
      (cmap f (swv_inner x)) (cmap f (swv_public_share x));
  flat A x :=
    flat (swv_recovery_stream x) ++ flat (swv_share_stream x) ++ flat (swv_inner x) ++
    flat (swv_public_share x);
  unflat A l :=
    option_bind _ _ (λ '(r, l1),
    option_bind _ _ (λ '(s, l2),
    option_bind _ _ (λ '(i, l3),
    option_bind _ _ (λ '(p, l4), Some (mkWrapperVar r s i p, l4))
      (unflat l3)) (unflat l2)) (unflat l1)) (unflat l);
  NUM := 4 + NUM (F:=F) + NUM (F:=F);
|}.

(** An array [[T; N]] of variables *)
Fixpoint take_vec {A} (n : nat) (l : list A) : option (vec A n * list A) :=
  match n with
  | O => Some ([#], l)
  | S n' =>
      match l with
      | [] => None
      | x :: l' => match take_vec n' l' with Some (v, r) => Some (x ::: v, r) | None => None end
      end
  end.
Definition Array (n : nat) (A : Type) : Type := vec A n.
#[global] Instance array_type n : CircuitType (Array n) := {|
  cmap A B f x := vmap f x;
  flat A x := vec_to_list x;
  unflat A l := take_vec n l;
  NUM := n;
|}.

(** Two consecutive fields *)
Definition ProdT (F G : Type → Type) (A : Type) : Type := (F A * G A)%type.
#[global] Instance prod_type `{CircuitType F, CircuitType G} : CircuitType (ProdT F G) := {|
  cmap A B f x := (cmap f x.1, cmap f x.2);
  flat A x := flat x.1 ++ flat x.2;
  unflat A l :=
    option_bind _ _ (λ '(a, l1),
    option_bind _ _ (λ '(b, l2), Some ((a, b), l2)) (unflat l1)) (unflat l);
  NUM := NUM (F:=F) + NUM (F:=G);
|}.

(** A struct, from the product of the types of its fields *)
Definition struct_type {P R : Type → Type} `{CircuitType P} (to : ∀ A, R A → P A)
    (from : ∀ A, P A → R A) : CircuitType R := {|
  cmap A B f x := from B (cmap f (to A x));
  flat A x := flat (to A x);
  unflat A l := match unflat l with Some (p, r) => Some (from A p, r) | None => None end;
  NUM := NUM (F:=P);
|}.

(** [ElGamalCiphertextVar<NOTE_CIPHERTEXT_SIZE>] *)
Definition NOTE_CIPHERTEXT_SIZE : nat := 3.
Record NoteCiphertextVar (A : Type) := mkCiphertextVar {
  ctv_ephemeral_key : BabyJubJubPointVar A;
  ctv_ciphertext : vec A NOTE_CIPHERTEXT_SIZE;
}.
Arguments mkCiphertextVar {A} _ _.
Arguments ctv_ephemeral_key {A} _.
Arguments ctv_ciphertext {A} _.
#[global] Instance ciphertext_type : CircuitType NoteCiphertextVar :=
  struct_type (P:=ProdT BabyJubJubPointVar (Array NOTE_CIPHERTEXT_SIZE))
    (λ A c, (ctv_ephemeral_key c, ctv_ciphertext c)) (λ A p, mkCiphertextVar p.1 p.2).

(** [MerkleOpeningVar<HEIGHT>]; the indices are [BoolVar]s *)
Record MerkleOpeningVar (n : nat) (A : Type) := mkOpeningVar {
  mov_elems : vec A n;
  mov_indices : vec A n;
}.
Arguments mkOpeningVar {n A} _ _.
Arguments mov_elems {n A} _.
Arguments mov_indices {n A} _.
#[global] Instance opening_type n : CircuitType (MerkleOpeningVar n) :=
  struct_type (P:=ProdT (Array n) (Array n)) (λ A o, (mov_elems o, mov_indices o))
    (λ A p, mkOpeningVar p.1 p.2).

(** The leaves of a witness that are [BoolVar]s. *)
Class WitnessType (F : Type → Type) := { bools {A} : F A → list A }.
#[global] Hint Mode WitnessType ! : typeclass_instances.
Class WitnessTypeLaws (F : Type → Type) `{CircuitType F, WitnessType F} : Prop :=
  { bools_cmap {A B} (f : A → B) (x : F A) : bools (cmap f x) = f <$> bools x }.

#[global] Instance plain_witness F : WitnessType F | 100 := {| bools A x := [] |}.
#[global] Instance opening_witness n : WitnessType (MerkleOpeningVar n) :=
  {| bools A x := vec_to_list (mov_indices x) |}.
#[global] Instance prod_witness `{WitnessType F, WitnessType G} : WitnessType (ProdT F G) :=
  {| bools A x := bools x.1 ++ bools x.2 |}.
Definition struct_witness {P R : Type → Type} `{WitnessType P} (to : ∀ A, R A → P A)
    : WitnessType R := {| bools A x := bools (to A x) |}.

(** ** Laws *)

(** Take the nested structs of a value apart. *)
Ltac destruct_fields :=
  repeat match goal with
  | y : FixedPointVar _ |- _ => destruct y
  | y : SchnorrPublicKeyVar _ |- _ => destruct y
  | y : BabyJubJubPointVar _ |- _ => destruct y
  end.
Ltac solve_circuit_type :=
  split;
  [ done
  | done
  | intros A x rest; first [reflexivity | destruct x; destruct_fields; reflexivity]
  | intros A l x rest E; simpl in E;
    repeat match type of E with
    | match ?l with _ => _ end = _ => destruct l; [discriminate E|]
    end; by injection E as <- <-
  | intros A l Hl; simpl in Hl |- *;
    repeat match goal with
    | |- is_Some (match ?l with _ => _ end) => destruct l; simpl in Hl; [exfalso; lia|]
    end; by eexists ].

#[global] Instance Id_laws : CircuitTypeLaws Id.
Proof. solve_circuit_type. Qed.
#[global] Instance FixedPointVar_laws : CircuitTypeLaws FixedPointVar.
Proof. solve_circuit_type. Qed.
#[global] Instance BabyJubJubPointVar_laws : CircuitTypeLaws BabyJubJubPointVar.
Proof. solve_circuit_type. Qed.
#[global] Instance SchnorrPublicKeyVar_laws : CircuitTypeLaws SchnorrPublicKeyVar.
Proof. solve_circuit_type. Qed.
#[global] Instance SchnorrSignatureVar_laws : CircuitTypeLaws SchnorrSignatureVar.
Proof. solve_circuit_type. Qed.
#[global] Instance PoseidonCSPRNGVar_laws : CircuitTypeLaws PoseidonCSPRNGVar.
Proof. solve_circuit_type. Qed.
#[global] Instance IntentVar_laws : CircuitTypeLaws IntentVar.
Proof. solve_circuit_type. Qed.
#[global] Instance PreMatchIntentVar_laws : CircuitTypeLaws PreMatchIntentVar.
Proof. solve_circuit_type. Qed.
#[global] Instance DarkpoolBalanceVar_laws : CircuitTypeLaws DarkpoolBalanceVar.
Proof. solve_circuit_type. Qed.
#[global] Instance PreMatchBalanceVar_laws : CircuitTypeLaws PreMatchBalanceVar.
Proof. solve_circuit_type. Qed.
#[global] Instance PostMatchBalanceVar_laws : CircuitTypeLaws PostMatchBalanceVar.
Proof. solve_circuit_type. Qed.
#[global] Instance SettlementObligationVar_laws : CircuitTypeLaws SettlementObligationVar.
Proof. solve_circuit_type. Qed.
#[global] Instance FeeTakeVar_laws : CircuitTypeLaws FeeTakeVar.
Proof. solve_circuit_type. Qed.
#[global] Instance FeeRatesVar_laws : CircuitTypeLaws FeeRatesVar.
Proof. solve_circuit_type. Qed.
#[global] Instance BoundedMatchResultVar_laws : CircuitTypeLaws BoundedMatchResultVar.
Proof. solve_circuit_type. Qed.
#[global] Instance NoteVar_laws : CircuitTypeLaws NoteVar.
Proof. solve_circuit_type. Qed.
#[global] Instance DepositVar_laws : CircuitTypeLaws DepositVar.
Proof. solve_circuit_type. Qed.
#[global] Instance WithdrawalVar_laws : CircuitTypeLaws WithdrawalVar.
Proof. solve_circuit_type. Qed.
#[global] Instance PartialCommitmentVar_laws : CircuitTypeLaws PartialCommitmentVar.
Proof. solve_circuit_type. Qed.

#[global] Instance wrapper_laws `{CircuitTypeLaws F} : CircuitTypeLaws (StateWrapperVar F).
Proof.
  split.
  - intros A B f x. simpl. by rewrite !fmap_app, !flat_cmap.
  - intros A x. simpl. rewrite !length_app, !flat_length. lia.
  - intros A [r s i p] rest. simpl. rewrite <-!app_assoc. destruct r, s. simpl.
    by rewrite !unflat_flat; simpl; rewrite !unflat_flat.
  - intros A l x rest E. simpl in E.
    destruct l as [|a [|b [|c [|d l2]]]]; simpl in E; [done..|].
    destruct (unflat l2) as [[i l3]|] eqn:E3; simpl in E; [|done].
    destruct (unflat l3) as [[p l4]|] eqn:E4; simpl in E; [|done].
    injection E as <- <-.
    apply unflat_spec in E3 as ->, E4 as ->. simpl. by rewrite <-!app_assoc.
  - intros A l Hl. simpl in Hl |- *.
    destruct l as [|a [|b [|c [|d l]]]]; simpl in Hl; [exfalso; lia..|]. simpl.
    destruct (unflat_total (F:=F) l) as [[i l1] E1]; [lia|]. rewrite E1. simpl.
    pose proof (unflat_spec _ _ _ E1) as ->. rewrite length_app, flat_length in Hl.
    destruct (unflat_total (F:=F) l1) as [[p l2] E2]; [lia|]. rewrite E2. simpl. by eexists.
Qed.

Lemma take_vec_app {A n} (v : vec A n) rest : take_vec n (vec_to_list v ++ rest) = Some (v, rest).
Proof. induction v as [|x n v IH]; simpl; [done|]. by rewrite IH. Qed.
Lemma take_vec_spec {A} n (l : list A) v rest :
  take_vec n l = Some (v, rest) → l = vec_to_list v ++ rest.
Proof.
  revert l v rest. induction n as [|n IH]; intros l v rest E; simpl in E.
  - by injection E as <- <-.
  - destruct l as [|x l]; [done|]. destruct (take_vec n l) as [[v' r]|] eqn:E'; [|done].
    injection E as <- <-. simpl. f_equal. by apply IH.
Qed.
Lemma take_vec_total {A} n (l : list A) : (n ≤ length l)%nat → is_Some (take_vec n l).
Proof.
  revert l. induction n as [|n IH]; intros l Hl; simpl; [by eexists|].
  destruct l as [|x l]; simpl in Hl; [lia|]. destruct (IH l) as [[v r] ->]; [lia|]. by eexists.
Qed.

#[global] Instance array_laws n : CircuitTypeLaws (Array n).
Proof.
  split.
  - intros A B f x. apply vec_to_list_map.
  - intros A x. apply length_vec_to_list.
  - intros A x rest. apply take_vec_app.
  - intros A l x rest. apply take_vec_spec.
  - intros A l. apply take_vec_total.
Qed.

#[global] Instance prod_laws `{CircuitTypeLaws F, CircuitTypeLaws G} : CircuitTypeLaws (ProdT F G).
Proof.
  split.
  - intros A B f x. simpl. by rewrite fmap_app, !flat_cmap.
  - intros A x. simpl. by rewrite length_app, !flat_length.
  - intros A [x y] rest. simpl. rewrite <-app_assoc, unflat_flat. simpl. by rewrite unflat_flat.
  - intros A l x rest E. simpl in E. destruct (unflat l) as [[a l1]|] eqn:E1; simpl in E; [|done].
    destruct (unflat l1) as [[b l2]|] eqn:E2; simpl in E; [|done]. injection E as <- <-.
    apply unflat_spec in E1 as ->, E2 as ->. simpl. by rewrite app_assoc.
  - intros A l Hl. simpl in Hl |- *. destruct (unflat_total (F:=F) l) as [[a l1] E1]; [lia|].
    rewrite E1. simpl. pose proof (unflat_spec _ _ _ E1) as ->.
    rewrite length_app, flat_length in Hl.
    destruct (unflat_total (F:=G) l1) as [[b l2] E2]; [lia|]. rewrite E2. by eexists.
Qed.

Lemma struct_laws {P R : Type → Type} `{CircuitTypeLaws P} (to : ∀ A, R A → P A)
    (from : ∀ A, P A → R A) :
  (∀ A x, from A (to A x) = x) → (∀ A p, to A (from A p) = p) →
  @CircuitTypeLaws R (struct_type to from).
Proof.
  intros H1 H2. split.
  - intros A B f x. simpl. by rewrite H2, flat_cmap.
  - intros A x. simpl. apply flat_length.
  - intros A x rest. simpl. by rewrite unflat_flat, H1.
  - intros A l x rest E. simpl in E. destruct (unflat l) as [[p r]|] eqn:E1; [|done].
    injection E as <- <-. simpl. rewrite H2. by apply unflat_spec.
  - intros A l Hl. simpl. destruct (unflat_total (F:=P) l Hl) as [[p r] ->]. by eexists.
Qed.
Ltac destruct_prods :=
  repeat match goal with p : ProdT _ _ _ |- _ => destruct p end;
  repeat match goal with
  | v : Array 0 _ |- _ => change (vec _ 0) in (type of v); inv_vec v
  | v : Array (S ?n) ?A |- _ => change (vec A (S n)) in (type of v); inv_vec v; intros
  | v : vec _ (S _) |- _ => inv_vec v; intros
  | v : vec _ 0 |- _ => inv_vec v
  end.
Ltac solve_struct := apply struct_laws; [by intros A []|by intros A p; destruct_prods].

#[global] Instance NoteCiphertextVar_laws : CircuitTypeLaws NoteCiphertextVar.
Proof. solve_struct. Qed.
#[global] Instance opening_laws n : CircuitTypeLaws (MerkleOpeningVar n).
Proof. solve_struct. Qed.

#[global] Instance plain_witness_laws `{CircuitType F} : @WitnessTypeLaws F _ (plain_witness F).
Proof. by split. Qed.
#[global] Instance opening_witness_laws n : WitnessTypeLaws (MerkleOpeningVar n).
Proof. split. intros A B f x. simpl. apply vec_to_list_map. Qed.
#[global] Instance prod_witness_laws F G `{CircuitType F, CircuitType G, WitnessType F,
    WitnessType G, !WitnessTypeLaws F, !WitnessTypeLaws G} : WitnessTypeLaws (ProdT F G).
Proof. split. intros A B f [x y]. simpl. by rewrite fmap_app, !bools_cmap. Qed.
Lemma struct_witness_laws {P R : Type → Type} `{CircuitType P, WitnessType P, !WitnessTypeLaws P}
    (to : ∀ A, R A → P A) (from : ∀ A, P A → R A) :
  (∀ A p, to A (from A p) = p) →
  @WitnessTypeLaws R (struct_type to from) (struct_witness to).
Proof. intros H2. split. intros A B f x. simpl. by rewrite H2, bools_cmap. Qed.
Ltac solve_struct_witness := apply struct_witness_laws; by intros A p; destruct_prods.

(** ** Native values as the values of variables *)

(** The scalars a native value serializes to, in the shape of its variables. *)
Definition fixed_point_values (x : FixedPoint) : FixedPointVar Scalar := mkFixedPointVar (repr x).
Definition public_key_values (k : SchnorrPublicKey) : SchnorrPublicKeyVar Scalar :=
  mkPublicKeyVar (mkPointVar (point_x (point k)) (point_y (point k))).
Definition intent_values (i : Intent) : IntentVar Scalar :=
  mkIntentVar (address_to_scalar (in_token i)) (address_to_scalar (out_token i))
    (address_to_scalar (intent_owner i)) (fixed_point_values (min_price i))
    (scalar_from (amount_in i)).
Definition intent_share_values (i : IntentShare) : IntentVar Scalar :=
  mkIntentVar (in_token_share i) (out_token_share i) (intent_owner_share i)
    (fixed_point_values (min_price_share i)) (amount_in_share i).
Definition balance_values (b : DarkpoolBalance) : DarkpoolBalanceVar Scalar :=
  mkBalanceVar (address_to_scalar (mint b)) (address_to_scalar (owner b))
    (address_to_scalar (relayer_fee_recipient b)) (public_key_values (authority b))
    (scalar_from (relayer_fee_balance b)) (scalar_from (protocol_fee_balance b))
    (scalar_from (amount b)).
Definition balance_share_values (b : DarkpoolBalanceShare) : DarkpoolBalanceVar Scalar :=
  mkBalanceVar (mint_share b) (owner_share b) (relayer_fee_recipient_share b)
    (public_key_values (authority_share b)) (relayer_fee_balance_share b)
    (protocol_fee_balance_share b) (amount_share b).
Definition csprng_values (c : PoseidonCSPRNG) : PoseidonCSPRNGVar Scalar :=
  mkCSPRNGVar (seed c) (scalar_from (index c)).
Definition note_values (n : Note) : NoteVar Scalar :=
  mkNoteVar (address_to_scalar (note_mint n)) (scalar_from (note_amount n))
    (address_to_scalar (note_receiver n)) (note_blinder n).

Lemma balance_values_flat b : flat (balance_values b) = to_scalars balance_base b.
Proof. reflexivity. Qed.
Lemma balance_share_values_flat b : flat (balance_share_values b) = to_scalars balance_share_base b.
Proof. reflexivity. Qed.
Lemma intent_values_flat i : flat (intent_values i) = to_scalars intent_base i.
Proof. reflexivity. Qed.
Lemma intent_share_values_flat i : flat (intent_share_values i) = to_scalars intent_share_base i.
Proof. reflexivity. Qed.
Lemma csprng_values_flat c : flat (csprng_values c) = to_scalars csprng_base c.
Proof. reflexivity. Qed.
Lemma note_values_flat n : flat (note_values n) = to_scalars note_base n.
Proof. reflexivity. Qed.
