(* ===== verification/Gadgets.v ===== *)
(** * Primitive gadgets

    The single-prover gadgets of
    src/crates/circuits/circuits-core/src/zk_gadgets/primitives/{comparators,bits,
    arithmetic,select,fixed_point,bitlength}.rs.  Each gadget has one specification
    that covers soundness (any satisfying assignment) and completeness (the honest
    prover satisfies the constraints when the value has the property); see [wp] in
    Circuit.v. *)
From S2P Require Import Prelude Scalar ScalarField FixedPoint Circuit CircuitTypes.
Local Open Scope Z_scope.

(** circuits-core/src/lib.rs *)
Definition SCALAR_MAX_BITS : nat := 254.
Definition SCALAR_BITS_MINUS_TWO : nat := SCALAR_MAX_BITS - 2.

Section Gadgets.
Context `{PlonkCircuit}.

(** ** Comparators *)

Definition eq_zero_var (v : Var) : Circuit Var :=
  is_zero_var ← create_variable (λ w, if w v =? 0 then 1 else 0);
  inv_var ← create_variable (λ w, if w v =? 0 then 0 else scalar_inverse (w v));
  cs_mul_add_gate v inv_var cs_one cs_one is_zero_var (scalar_neg 1) 1;;
  cs_mul_gate is_zero_var v cs_zero;;
  mret is_zero_var.

Definition eq_vec `{CircuitType F} (a b : list (F Var)) : Circuit Var :=
  assert (length a =? length b)%nat;;
  component_eq_vals ← map_c (λ '(a_val, b_val),
    a_minus_b ← cs_sub a_val b_val;
    eq_zero_var a_minus_b) (zip (a ≫= to_vars (F:=F)) (b ≫= to_vars (F:=F)));
  cs_logic_and_all component_eq_vals.

Definition eq_zero_vec `{CircuitType F} (a : list (F Var)) : Circuit Var :=
  component_eq_vals ← map_c eq_zero_var (a ≫= to_vars (F:=F));
  cs_logic_and_all component_eq_vals.

Definition constrain_eq_vec `{CircuitType F} (a b : list (F Var)) : Circuit unit :=
  assert (length a =? length b)%nat;;
  for_c (λ '(a_val, b_val), cs_enforce_equal a_val b_val) (zip (a ≫= to_vars (F:=F)) (b ≫= to_vars (F:=F))).

Definition eq_zero `{CircuitType F} (v : F Var) : Circuit Var :=
  eq_zero_vec (F:=Id) (to_vars v).

Definition eq_gadget `{CircuitType F} (a b : F Var) : Circuit Var :=
  eq_vec (F:=Id) (to_vars a) (to_vars b).

Definition constrain_eq `{CircuitType F} (a b : F Var) : Circuit unit :=
  assert (length (to_vars (F:=F) a) =? length (to_vars (F:=F) b))%nat;;
  constrain_eq_vec (F:=Id) (to_vars a) (to_vars b).

Definition not_equal (a b : Var) : Circuit Var :=
  eq ← eq_gadget (F:=Id) a b;
  cs_logic_neg eq.

Definition constrain_not_equal `{CircuitType F} (a b : F Var) : Circuit unit :=
  eq ← eq_gadget a b;
  res ← cs_logic_neg eq;
  cs_enforce_true res.

(** ** Bits *)

(** The first [n] bits, least significant first, each as a scalar. *)
Definition scalar_to_bits_le (a : Scalar) (n : nat) : list Scalar :=
  (λ i : nat, if Z.testbit a (Z.of_nat i) then 1 else 0) <$> seq 0 n.

Definition to_bits_unconstrained (a : Var) (num_bits : nat) : Circuit (list Var) :=
  map_c (λ i, cs_create_boolean_variable (λ w, scalar_to_bits_le (w a) num_bits !!! i))
    (seq 0 num_bits).

(** [(0..n).scan(one, |state, _| { let res = *state; *state *= two; Some(res) })] *)
Fixpoint scan_double (n : nat) (state : Scalar) : list Scalar :=
  match n with
  | O => []
  | S n' => state :: scan_double n' (scalar_mul state 2)
  end.

Definition bit_reconstruct (bits : list Var) : Circuit Var :=
  cs_lc_sum bits (scan_double (length bits) 1).

Definition decompose_and_reconstruct (a : Var) (num_bits : nat) : Circuit Var :=
  bits ← to_bits_unconstrained a num_bits;
  bit_reconstruct bits.

Definition to_bits (a : Var) (num_bits : nat) : Circuit (list Var) :=
  bits ← to_bits_unconstrained a num_bits;
  reconstructed ← bit_reconstruct bits;
  cs_enforce_equal reconstructed a;;
  mret bits.

Definition constrain_bit_range (a : Var) (num_bits : nat) : Circuit unit :=
  _ ← to_bits a num_bits; mret tt.

(** ** Order (comparators.rs) *)

Definition greater_than_eq_zero (x : Var) (num_bits : nat) : Circuit Var :=
  let two_to_d := scalar_from (2 ^ Z.of_nat num_bits) in
  x_plus_2_to_d ← cs_add_constant x two_to_d;
  bits ← to_bits x_plus_2_to_d (num_bits + 1);
  unwrap_c (bits !! num_bits).

Definition constrain_greater_than_eq_zero (x : Var) (num_bits : nat) : Circuit unit :=
  _ ← to_bits x num_bits; mret tt.

Definition greater_than_eq (a b : Var) (num_bits : nat) : Circuit Var :=
  a_minus_b ← cs_sub a b;
  greater_than_eq_zero a_minus_b num_bits.

Definition constrain_greater_than_eq (a b : Var) (num_bits : nat) : Circuit unit :=
  a_minus_b ← cs_sub a b;
  constrain_greater_than_eq_zero a_minus_b num_bits.

Definition less_than (a b : Var) (num_bits : nat) : Circuit Var :=
  a_geq_b ← greater_than_eq a b num_bits;
  cs_logic_neg a_geq_b.

Definition constrain_less_than (a b : Var) (num_bits : nat) : Circuit unit :=
  lt_result ← less_than a b num_bits;
  cs_enforce_true lt_result.

(** ** Arithmetic *)

Definition constrain_noop `{CircuitType F} (a : F Var) : Circuit unit :=
  for_c (λ a_var, cs_mul_gate a_var cs_zero cs_zero) (to_vars a).

Definition DIVREM_MAX_BITSIZE : nat := 100.

(** A division by zero panics in the prover, before a constraint is added; the
    constraint system itself has no assignment for it. *)
Definition div_rem (a b : Var) (num_bits : nat) : Circuit (Var * Var) :=
  assert (num_bits <=? DIVREM_MAX_BITSIZE)%nat;;
  q_var ← create_variable (λ w, scalar_from (w a / w b));
  r_var ← create_variable (λ w, scalar_from (w a mod w b));
  constrain_bit_range b num_bits;;
  constrain_bit_range q_var (SCALAR_BITS_MINUS_TWO - num_bits);;
  constrain_bit_range r_var num_bits;;
  cs_mul_add_gate b q_var r_var cs_one a 1 1;;
  constrain_less_than r_var b num_bits;;
  mret (q_var, r_var).

(** The recursion halves the exponent; [fuel] is its bit length. *)
Fixpoint exp_fuel (fuel : nat) (x : Var) (alpha : Z) : Circuit Var :=
  match fuel with
  | O => Panic
  | S fuel' =>
      if alpha =? 0 then mret cs_one
      else if alpha =? 1 then mret x
      else if Z.even alpha then
        recursive_result ← exp_fuel fuel' x (alpha / 2);
        cs_mul recursive_result recursive_result
      else
        recursive_result ← exp_fuel fuel' x ((alpha - 1) / 2);
        double ← cs_mul recursive_result recursive_result;
        cs_mul double x
  end.
(** [alpha] is a [u64]. *)
Definition exp_gadget (x : Var) (alpha : Z) : Circuit Var := exp_fuel 65 x alpha.

(** ** Selection *)

Definition cond_select `{CircuitType F} (a b : F Var) (selector : Var) : Circuit (F Var) :=
  assert (length (to_vars (F:=F) a) =? length (to_vars (F:=F) b))%nat;;
  res ← map_c (λ '(a_var, b_var), cs_mux selector a_var b_var) (zip (to_vars (F:=F) a) (to_vars (F:=F) b));
  from_vars (F:=F) res.

Definition cond_select_vec `{CircuitType F} (a b : list (F Var)) (selector : Var)
    : Circuit (list (F Var)) :=
  assert (length a =? length b)%nat;;
  map_c (λ '(a_val, b_val), cond_select a_val b_val selector) (zip a b).

(** ** Fixed point *)

Definition integer_to_fixed_point (v : Var) : Circuit (FixedPointVar Var) :=
  repr ← cs_mul_constant v TWO_TO_M_SCALAR;
  mret (mkFixedPointVar repr).

Definition constrain_equal_integer (lhs : FixedPointVar Var) (rhs : Var) : Circuit unit :=
  fixed_point_repr ← integer_to_fixed_point rhs;
  constrain_eq lhs fixed_point_repr.

Definition equal_integer (lhs : FixedPointVar Var) (rhs : Var) : Circuit Var :=
  fixed_point_repr ← integer_to_fixed_point rhs;
  eq_gadget lhs fixed_point_repr.

Definition constrain_equal_integer_ignore_fraction (lhs : FixedPointVar Var) (rhs : Var)
    : Circuit unit :=
  lhs_minus_rhs ←
    cs_lc [fpv_repr lhs; rhs; cs_zero; cs_zero] [1; scalar_neg TWO_TO_M_SCALAR; 1; 1];
  diff ←
    cs_lc [cs_one; lhs_minus_rhs; cs_zero; cs_zero]
      [scalar_sub TWO_TO_M_SCALAR 1; scalar_neg 1; 1; 1];
  constrain_greater_than_eq_zero diff (Z.to_nat DEFAULT_FP_PRECISION + 1).

Definition constrain_equal_floor (fp : FixedPointVar Var) (integer : Var) : Circuit unit :=
  lhs_minus_rhs ←
    cs_lc [fpv_repr fp; integer; cs_zero; cs_zero] [1; scalar_neg TWO_TO_M_SCALAR; 1; 1];
  constrain_bit_range lhs_minus_rhs (Z.to_nat DEFAULT_FP_PRECISION).

Definition mul_integer (lhs : FixedPointVar Var) (rhs : Var) : Circuit (FixedPointVar Var) :=
  repr ← cs_mul (fpv_repr lhs) rhs;
  mret (mkFixedPointVar repr).

(** The prover's value is [FixedPoint::floor] of the value of the variable. *)
Definition floor_gadget (v : FixedPointVar Var) : Circuit Var :=
  floor_val_var ← create_variable (λ w, floor (mkFixedPoint (w (fpv_repr v))));
  constrain_equal_floor v floor_val_var;;
  mret floor_val_var.

(** ** Bit lengths of state types *)

Definition constrain_valid_amount (amount : Var) : Circuit unit :=
  constrain_bit_range amount (Z.to_nat AMOUNT_BITS).
Definition constrain_valid_price (price : FixedPointVar Var) : Circuit unit :=
  constrain_bit_range (fpv_repr price) (Z.to_nat PRICE_BITS).
Definition constrain_valid_fee (fee : FixedPointVar Var) : Circuit unit :=
  constrain_bit_range (fpv_repr fee) (Z.to_nat FEE_BITS).
End Gadgets.

(** ** Specifications *)

(** Run the next call with its specification. *)
Ltac step_with L :=
  eapply wp_step; [eapply L; try done|cbv beta].
Tactic Notation "step" uconstr(L) := step_with L.

(** A value that fits in [n] bits. *)
Definition fits (n : nat) (x : Z) : Prop := 0 ≤ x < 2 ^ Z.of_nat n.

(** The number a list of bits stands for, least significant bit first. *)
Definition bits_value (bs : list Z) : Z := foldr (λ b acc, b + 2 * acc) 0 bs.

Lemma bits_value_fits bs : Forall is_bit bs → fits (length bs) (bits_value bs).
Proof.
  unfold fits. induction 1 as [|b bs Hb Hbs IH]; simpl bits_value; [done|].
  cbn [length]. rewrite Nat2Z.inj_succ, Z.pow_succ_r by lia. destruct Hb as [->| ->]; lia.
Qed.

Lemma scalar_to_bits_le_succ a n :
  scalar_to_bits_le a (S n) =
  (if Z.odd a then 1 else 0) :: scalar_to_bits_le (Z.div2 a) n.
Proof.
  unfold scalar_to_bits_le. cbn [seq]. rewrite fmap_cons. f_equal.
  rewrite <-fmap_S_seq, <-list_fmap_compose. apply list_fmap_ext.
  intros i x _. cbv beta delta [compose]. rewrite Z.div2_spec, Z.shiftr_spec by lia.
  by replace (Z.of_nat (S x)) with (Z.of_nat x + 1) by lia.
Qed.

Lemma bits_value_to_bits a n : fits n a → bits_value (scalar_to_bits_le a n) = a.
Proof.
  unfold fits. revert a. induction n as [|n IH]; intros a Ha; [simpl in *; lia|].
  rewrite scalar_to_bits_le_succ. simpl. rewrite Nat2Z.inj_succ, Z.pow_succ_r in Ha by lia.
  pose proof (Z.div2_odd a) as E. rewrite IH; [|destruct (Z.odd a); simpl in E; lia].
  destruct (Z.odd a); simpl in E; lia.
Qed.

Lemma to_bits_bits_value bs :
  Forall is_bit bs → scalar_to_bits_le (bits_value bs) (length bs) = bs.
Proof.
  induction 1 as [|b bs Hb Hbs IH]; [done|]. cbn [length].
  rewrite scalar_to_bits_le_succ. simpl bits_value.
  assert (Z.odd (b + 2 * bits_value bs) = (b =? 1)) as ->.
  { rewrite Z.odd_add_mul_2. by destruct Hb as [->| ->]. }
  assert (Z.div2 (b + 2 * bits_value bs) = bits_value bs) as ->.
  { rewrite Z.div2_div, (Z.mul_comm 2), Z.div_add by lia. by destruct Hb as [->| ->]. }
  rewrite IH. by destruct Hb as [->| ->].
Qed.

Lemma scalar_to_bits_le_bits a n : Forall is_bit (scalar_to_bits_le a n).
Proof.
  apply Forall_forall. intros x (i & -> & _)%list_elem_of_fmap.
  destruct (Z.testbit _ _); [by right|by left].
Qed.

Lemma scalar_to_bits_le_length a n : length (scalar_to_bits_le a n) = n.
Proof. unfold scalar_to_bits_le. by rewrite length_fmap, length_seq. Qed.

Lemma scan_double_length n x : length (scan_double n x) = n.
Proof. revert x. induction n; intros x; simpl; [done|]. by f_equal. Qed.

Lemma dot_scan_double bs x :
  scalar_from (dot (scan_double (length bs) x) bs) = scalar_from (x * bits_value bs).
Proof.
  revert x. induction bs as [|b bs IH]; intros x; [by rewrite Z.mul_0_r|].
  change (dot (scan_double (length (b :: bs)) x) (b :: bs)) with
    (x * b + dot (scan_double (length bs) (scalar_mul x 2)) bs).
  cbn [bits_value foldr]. fold (bits_value bs).
  unfold scalar_from in *. rewrite <-Zplus_mod_idemp_r, IH, Zplus_mod_idemp_r.
  unfold scalar_mul. rewrite <-Zplus_mod_idemp_r, Zmult_mod_idemp_l, Zplus_mod_idemp_r.
  f_equal. ring.
Qed.

Section Specs.
Context {Cs : PlonkCircuit} {Laws : PlonkCircuitLaws} {h : Prop} {w : N → Z} (W : assignment w).

Lemma is_zero_value v :
  is_bit (if w v =? 0 then 1 else 0).
Proof. destruct (w v =? 0); [by right|by left]. Qed.

Lemma one_minus_mul x y :
  scalar_from (scalar_neg 1 * (x * y) + 1 * (1 * 1)) = scalar_sub 1 (scalar_mul x y).
Proof. field_mod. Qed.

Lemma eq_zero_var_spec v :
  wp h w (eq_zero_var v) (λ r, w r = if w v =? 0 then 1 else 0).
Proof.
  pose proof (assigned_scalar w W) as Ws.
  step wp_create_variable. intros z Hz. step wp_create_variable. intros inv Hi.
  step (mul_add_gate_law h).
  { rewrite (assigned_one w W), one_minus_mul. intros Hh. rewrite (Hz Hh), (Hi Hh).
    destruct (Z.eqb_spec (w v) 0) as [->|Hn]; [by vm_compute|].
    rewrite (scalar_from_id (scalar_inverse _)) by apply scalar_inverse_is_scalar.
    by rewrite scalar_inverse_mul. }
  intros _ E1. rewrite (assigned_one w W), one_minus_mul in E1.
  step (mul_gate_law h).
  { rewrite (assigned_zero w W). intros Hh. rewrite (Hz Hh).
    destruct (Z.eqb_spec (w v) 0) as [->|Hn]; unfold scalar_mul; by rewrite ?Z.mul_0_r. }
  intros _ E2. rewrite (assigned_zero w W) in E2. apply wp_ret.
  destruct (Z.eqb_spec (w v) 0) as [E|Hn].
  - rewrite <-E1, E. by vm_compute.
  - by apply scalar_mul_zero in E2 as [?|?].
Qed.

(** Zero flags of a list of variables, and their conjunction. *)
Lemma zero_flags_spec vs rs :
  Forall2 (λ v r, w r = if w v =? 0 then 1 else 0) vs rs →
  Forall (λ r, is_bit (w r)) rs ∧
  forallb (λ r, w r =? 1) rs = forallb (λ v, w v =? 0) vs.
Proof.
  induction 1 as [|v r vs rs E _ [IH1 IH2]]; [by split|]. split.
  - constructor; [|done]. rewrite E. apply is_zero_value.
  - simpl. rewrite E, IH2. by destruct (w v =? 0).
Qed.

Lemma eq_zero_vec_spec `{CircuitTypeLaws F} (a : list (F Var)) :
  a ≫= to_vars (F:=F) ≠ [] →
  wp h w (eq_zero_vec a)
    (λ r, w r = if forallb (λ v, w v =? 0) (a ≫= to_vars (F:=F)) then 1 else 0).
Proof.
  intros Hne. step wp_map; [intros; apply eq_zero_var_spec|]. intros rs Hrs.
  destruct (zero_flags_spec _ _ Hrs) as [Hb Hf]. rewrite <-Hf.
  eapply wp_mono; [apply logic_and_all_law; [done| |done]|done].
  intros ->. by inversion Hrs.
Qed.

Lemma eq_zero_spec (v : Var) :
  wp h w (eq_zero (F:=Id) v) (λ r, w r = if w v =? 0 then 1 else 0).
Proof.
  eapply wp_mono; [apply (eq_zero_vec_spec (F:=Id)); done|]. simpl.
  intros r ->. by rewrite andb_true_r.
Qed.

Lemma zip_singletons (l : list N) : (l ≫= to_vars (F:=Id)) = l.
Proof. induction l; [done|]. simpl. by f_equal. Qed.

Lemma forallb_sub_zero (l1 l2 : list N) ds :
  length l1 = length l2 →
  Forall2 (λ p r, w r = if scalar_sub (w p.1) (w p.2) =? 0 then 1 else 0) (zip l1 l2) ds →
  Forall (λ r, is_bit (w r)) ds ∧
  (forallb (λ r, w r =? 1) ds = true ↔ w <$> l1 = w <$> l2).
Proof.
  pose proof (assigned_scalar w W) as Ws.
  revert l2 ds. induction l1 as [|a l1 IH]; intros [|b l2] ds Hl; try discriminate Hl;
    cbn [zip zip_with].
  - intros Hd. inversion Hd. by split.
  - intros Hd. inversion Hd as [|? r ? rs E Hrs]; subst. simpl in E.
    destruct (IH l2 rs) as [IH1 IH2]; [by injection Hl|done|]. split.
    + constructor; [|done]. rewrite E. destruct (_ =? 0); [by right|by left].
    + cbn [forallb]. rewrite !fmap_cons, andb_true_iff, IH2, E. pose proof (scalar_sub_zero (w a) (w b) (Ws a) (Ws b)).
      destruct (Z.eqb_spec (scalar_sub (w a) (w b)) 0) as [Z0|Z0].
      * split; [intros [_ Eq]; rewrite Eq; f_equal; tauto|by intros [= _ Eq]].
      * split; [by intros [? _]|]. intros [= Ea _]. tauto.
Qed.

(** Whether two values are equal, variable by variable. *)
Lemma eq_gadget_spec `{CircuitTypeLaws F} (a b : F Var) :
  NUM (F:=F) ≠ 0%nat →
  wp h w (eq_gadget a b) (λ r, w r = if bool_decide (w <$> flat a = w <$> flat b) then 1 else 0).
Proof.
  intros HN. assert (length (flat a) = length (flat b)) as El by by rewrite !flat_length.
  unfold eq_gadget, eq_vec, to_vars. rewrite !zip_singletons.
  step wp_assert; [intros; by apply Nat.eqb_eq|]. intros _ _.
  step (wp_map _ (λ p r, w r = if scalar_sub (w p.1) (w p.2) =? 0 then 1 else 0)).
  { intros [x y] _. step sub_law. intros d Hd.
    eapply wp_mono; [apply eq_zero_var_spec|]. by intros r ->; rewrite Hd. }
  intros rs Hrs. destruct (forallb_sub_zero _ _ _ El Hrs) as [Hb Hf].
  eapply wp_mono; [apply logic_and_all_law; [done| |done]|].
  - intros ->. apply Forall2_length in Hrs. rewrite length_zip, <-El, flat_length in Hrs.
    simpl in Hrs. lia.
  - intros r ->. destruct (forallb _ rs).
    + rewrite bool_decide_eq_true_2; tauto.
    + rewrite bool_decide_eq_false_2; [done|]. intros Eq. by apply Hf in Eq.
Qed.

Lemma Forall_zip_eq (l1 l2 : list N) :
  length l1 = length l2 →
  Forall (λ p : N * N, w p.1 = w p.2) (zip l1 l2) ↔ w <$> l1 = w <$> l2.
Proof.
  revert l2. induction l1 as [|a l1 IH]; intros [|b l2] Hl; try discriminate Hl; [done|].
  rewrite !fmap_cons. cbn [zip zip_with]. rewrite Forall_cons, IH by by injection Hl.
  split; [by intros [E1 E2]; f_equal|by intros [= E1 E2]].
Qed.

(** [constrain_eq] equates the values of two structs. *)
Lemma constrain_eq_spec `{CircuitTypeLaws F} (a b : F Var) :
  (h → cmap w a = cmap w b) → wp h w (constrain_eq a b) (λ _, cmap w a = cmap w b).
Proof.
  intros E. assert (length (flat a) = length (flat b)) as El by by rewrite !flat_length.
  unfold constrain_eq, constrain_eq_vec, to_vars. rewrite !zip_singletons.
  step wp_assert; [intros; by apply Nat.eqb_eq|]. intros _ _.
  step wp_assert; [intros; by apply Nat.eqb_eq|]. intros _ _.
  eapply wp_mono; [apply (wp_for _ (λ p : N * N, w p.1 = w p.2))|].
  - intros [x y] Hin. apply enforce_equal_law; [done|]. intros Hh.
    apply (f_equal flat) in E; [|done]. rewrite !flat_cmap in E.
    apply Forall_zip_eq in E; [|done]. rewrite Forall_forall in E. apply (E _ Hin).
  - intros [] Hall. apply Forall_zip_eq in Hall; [|done].
    apply flat_inj. by rewrite !flat_cmap.
Qed.

Lemma constrain_eq_var_spec (a b : Var) :
  (h → w a = w b) → wp h w (constrain_eq (F:=Id) a b) (λ _, w a = w b).
Proof. exact (constrain_eq_spec (F:=Id) a b). Qed.

Lemma not_equal_spec (a b : Var) :
  wp h w (not_equal a b) (λ r, w r = if w a =? w b then 0 else 1).
Proof.
  step (eq_gadget_spec (F:=Id)). intros e He.
  eapply wp_mono; [apply logic_neg_law; [done|]|]; simpl in He.
  - rewrite He. case_bool_decide; [by right|by left].
  - intros r ->. rewrite He. case_bool_decide as E; destruct (Z.eqb_spec (w a) (w b)) as [E'|E'];
      [done|by injection E|by rewrite E' in E|done].
Qed.

Lemma constrain_not_equal_spec `{CircuitTypeLaws F} (a b : F Var) :
  NUM (F:=F) ≠ 0%nat → (h → cmap w a ≠ cmap w b) →
  wp h w (constrain_not_equal a b) (λ _, cmap w a ≠ cmap w b).
Proof.
  intros HN Hne. step eq_gadget_spec. intros e He.
  assert (bool_decide (w <$> flat a = w <$> flat b) = true ↔ cmap w a = cmap w b) as Hd.
  { rewrite bool_decide_eq_true, <-!flat_cmap. split; [apply flat_inj|by intros ->]. }
  step logic_neg_law.
  { rewrite He. by case_bool_decide; [right|left]. }
  intros r Hr. rewrite He in Hr.
  eapply wp_mono; [apply enforce_true_law; [done|]|].
  - intros Hh. rewrite Hr. destruct (bool_decide _); [|done]. by destruct (Hne Hh); apply Hd.
  - intros [] E. rewrite Hr in E. destruct (bool_decide _); [done|]. intros ?%Hd. done.
Qed.

(** ** Bits *)

Lemma to_bits_unconstrained_spec a n :
  wp h w (to_bits_unconstrained a n)
    (λ bits, length bits = n ∧ Forall is_bit (w <$> bits) ∧
             (h → w <$> bits = scalar_to_bits_le (w a) n)).
Proof.
  eapply wp_mono.
  - apply (wp_map _ (λ i v, is_bit (w v) ∧ (h → w v = scalar_to_bits_le (w a) n !!! i))).
    intros i Hi%elem_of_seq. apply create_boolean_law; [done|]. intros _.
    pose proof (scalar_to_bits_le_bits (w a) n) as Hb. rewrite Forall_lookup in Hb.
    apply (Hb i), list_lookup_lookup_total_lt. rewrite scalar_to_bits_le_length. lia.
  - intros bits Hb. pose proof (Forall2_length _ _ _ Hb) as Hl. rewrite length_seq in Hl.
    split; [done|]. split.
    + apply Forall_fmap, Forall_lookup. intros i v Hv.
      destruct (Forall2_lookup_r _ _ _ _ _ Hb Hv) as (j & _ & Hj & _). done.
    + intros Hh. apply list_eq_same_length with n; [by rewrite scalar_to_bits_le_length|by rewrite length_fmap|].
      intros i x y Hi Hx Hy. rewrite list_lookup_fmap in Hx.
      destruct (bits !! i) as [v|] eqn:Ev; [|done]. injection Hx as <-.
      destruct (Forall2_lookup_r _ _ _ _ _ Hb Ev) as (j & Hj & _ & E).
      apply lookup_seq in Hj as [-> _]. rewrite E by done.
      by apply list_lookup_total_correct.
Qed.

(** The bits of a decomposition are the bits of the value, which must fit. *)
Lemma to_bits_spec a n :
  (n ≤ 253)%nat → (h → fits n (w a)) →
  wp h w (to_bits a n) (λ bits, w <$> bits = scalar_to_bits_le (w a) n ∧ fits n (w a)).
Proof.
  intros Hn Hf. pose proof scalar_modulus_bounds as Hp.
  step to_bits_unconstrained_spec. intros bits (Hl & Hb & Hbits).
  assert (fits n (bits_value (w <$> bits))) as Hv.
  { pose proof (bits_value_fits _ Hb) as X. by rewrite length_fmap, Hl in X. }
  assert (scalar_from (bits_value (w <$> bits)) = bits_value (w <$> bits)) as Hc.
  { apply scalar_from_small. unfold fits in Hv. split; [lia|].
    eapply Z.lt_le_trans; [apply Hv|]. apply Z.pow_le_mono_r; lia. }
  step lc_sum_law; [by rewrite scan_double_length|]. intros r Hr.
  rewrite <-(length_fmap w), dot_scan_double, Z.mul_1_l, Hc in Hr.
  step (enforce_equal_law h).
  { intros Hh. rewrite Hr, Hbits by done. apply bits_value_to_bits. auto. }
  intros [] E. apply wp_ret. rewrite Hr in E. split; [|by rewrite <-E].
  rewrite <-E. pose proof (to_bits_bits_value _ Hb) as X.
  by rewrite length_fmap, Hl in X.
Qed.

Lemma constrain_bit_range_spec a n :
  (n ≤ 253)%nat → (h → fits n (w a)) → wp h w (constrain_bit_range a n) (λ _, fits n (w a)).
Proof. intros. step to_bits_spec. by intros bits [_ Hf]. Qed.

Lemma constrain_valid_amount_spec a :
  (h → fits 100 (w a)) → wp h w (constrain_valid_amount a) (λ _, fits 100 (w a)).
Proof. apply constrain_bit_range_spec. vm_compute. lia. Qed.
Lemma constrain_valid_price_spec p :
  (h → fits 127 (w (fpv_repr p))) →
  wp h w (constrain_valid_price p) (λ _, fits 127 (w (fpv_repr p))).
Proof. apply constrain_bit_range_spec. vm_compute. lia. Qed.
Lemma constrain_valid_fee_spec p :
  (h → fits 63 (w (fpv_repr p))) →
  wp h w (constrain_valid_fee p) (λ _, fits 63 (w (fpv_repr p))).
Proof. apply constrain_bit_range_spec. vm_compute. lia. Qed.

(** ** Order *)

Lemma fits_mono m n x : (m ≤ n)%nat → fits m x → fits n x.
Proof.
  unfold fits. intros Hmn Hx. split; [lia|]. eapply Z.lt_le_trans; [apply Hx|].
  apply Z.pow_le_mono_r; lia.
Qed.

Lemma pow2_bound n k : (n ≤ k)%nat → 2 ^ Z.of_nat n ≤ 2 ^ Z.of_nat k.
Proof. intros. apply Z.pow_le_mono_r; lia. Qed.

(** A difference of short values that fits is a difference of integers. *)
Lemma scalar_sub_fits m n x y :
  (m ≤ 252)%nat → (n ≤ 252)%nat → fits m x → fits m y → fits n (scalar_sub x y) →
  y ≤ x ∧ fits n (x - y).
Proof.
  intros Hm Hn Hx Hy Hf. pose proof scalar_modulus_bounds.
  pose proof (pow2_bound m 252 Hm). pose proof (pow2_bound n 252 Hn).
  change (2 ^ Z.of_nat 252) with (2 ^ 252) in *.
  unfold fits, scalar_sub in *. destruct (decide (y ≤ x)).
  - rewrite Z.mod_small in Hf by lia. split; lia.
  - exfalso. rewrite <-(Z.mod_add _ 1), Z.mod_small in Hf by lia. lia.
Qed.

Lemma fits_scalar_sub m n x y :
  (m ≤ 252)%nat → fits m x → fits m y → fits n (x - y) → fits n (scalar_sub x y).
Proof.
  intros Hm Hx Hy Hf. pose proof scalar_modulus_bounds. pose proof (pow2_bound m 252 Hm).
  change (2 ^ Z.of_nat 252) with (2 ^ 252) in *.
  unfold fits, scalar_sub in *. rewrite Z.mod_small; lia.
Qed.

Lemma constrain_greater_than_eq_spec a b n :
  (n ≤ 252)%nat → (h → fits n (scalar_sub (w a) (w b))) →
  wp h w (constrain_greater_than_eq a b n) (λ _, fits n (scalar_sub (w a) (w b))).
Proof.
  intros Hn Hf. step sub_law. intros d Hd. rewrite <-Hd in Hf |- *.
  step to_bits_spec; [lia|]. by intros bits [_ X].
Qed.

(** The top bit of [x + 2^n] in [n + 1] bits. *)
Lemma msb_value (bits : list Var) n x :
  fits (n + 1) x → w <$> bits = scalar_to_bits_le x (n + 1) →
  ∃ v, bits !! n = Some v ∧ w v = if 2 ^ Z.of_nat n <=? x then 1 else 0.
Proof.
  intros Hx Hb. assert (length bits = (n + 1)%nat) as Hl
    by by rewrite <-(length_fmap w), Hb, scalar_to_bits_le_length.
  destruct (lookup_lt_is_Some_2 bits n) as [v Hv]; [lia|]. exists v. split; [done|].
  apply (f_equal (λ l, l !! n)) in Hb. rewrite list_lookup_fmap, Hv in Hb.
  unfold scalar_to_bits_le in Hb. rewrite list_lookup_fmap, lookup_seq_lt in Hb by lia.
  injection Hb as ->. simpl. unfold fits in Hx.
  replace (Z.of_nat (n + 1)) with (Z.succ (Z.of_nat n)) in Hx by lia.
  rewrite Z.pow_succ_r in Hx by lia.
  assert (Z.testbit x (Z.of_nat n) = (2 ^ Z.of_nat n <=? x)) as ->; [|done].
  destruct (Z.leb_spec (2 ^ Z.of_nat n) x) as [Hle|Hlt].
  - apply Z.testbit_true; [lia|]. assert (x / 2 ^ Z.of_nat n = 1) as ->; [|done].
    symmetry. apply (Z.div_unique _ _ _ (x - 2 ^ Z.of_nat n)); lia.
  - apply Z.testbit_false; [lia|]. by rewrite Z.div_small by lia.
Qed.

(** Comparison of values of [n] bits. *)
Lemma greater_than_eq_spec a b n :
  (n ≤ 252)%nat → fits n (w a) → fits n (w b) →
  wp h w (greater_than_eq a b n) (λ r, w r = if w b <=? w a then 1 else 0).
Proof.
  intros Hn Ha Hb. pose proof scalar_modulus_bounds.
  pose proof (pow2_bound n 252 Hn). change (2 ^ Z.of_nat 252) with (2 ^ 252) in *.
  step sub_law. intros d Hd. step add_constant_law. intros x Hx.
  assert (w x = w a - w b + 2 ^ Z.of_nat n) as Ex.
  { rewrite Hx, Hd. unfold scalar_add, scalar_sub, scalar_from.
    rewrite Zplus_mod_idemp_l, Zplus_mod_idemp_r. unfold fits in *. apply Z.mod_small. lia. }
  assert (fits (n + 1) (w x)) as Hf.
  { unfold fits in *. rewrite Ex.
    replace (Z.of_nat (n + 1)) with (Z.succ (Z.of_nat n)) by lia.
    rewrite Z.pow_succ_r by lia. lia. }
  step to_bits_spec; [lia|]. intros bits [Hbits _].
  destruct (msb_value bits n (w x) Hf Hbits) as (v & Hv & E).
  eapply wp_mono; [apply wp_unwrap; by rewrite Hv|]. intros r Hr.
  rewrite Hv in Hr. injection Hr as <-. rewrite E, Ex.
  destruct (Z.leb_spec (w b) (w a)), (Z.leb_spec (2 ^ Z.of_nat n) (w a - w b + 2 ^ Z.of_nat n));
    done || lia.
Qed.

Lemma less_than_spec a b n :
  (n ≤ 252)%nat → fits n (w a) → fits n (w b) →
  wp h w (less_than a b n) (λ r, w r = if w a <? w b then 1 else 0).
Proof.
  intros Hn Ha Hb. step greater_than_eq_spec. intros g Hg.
  eapply wp_mono; [apply logic_neg_law; [done|]|].
  - rewrite Hg. destruct (_ <=? _); [by right|by left].
  - intros r ->. rewrite Hg. destruct (Z.leb_spec (w b) (w a)), (Z.ltb_spec (w a) (w b));
      done || lia.
Qed.

Lemma constrain_less_than_spec a b n :
  (n ≤ 252)%nat → fits n (w a) → fits n (w b) → (h → w a < w b) →
  wp h w (constrain_less_than a b n) (λ _, w a < w b).
Proof.
  intros Hn Ha Hb Hlt. step less_than_spec. intros l Hl.
  eapply wp_mono; [apply enforce_true_law; [done|]|].
  - intros Hh. rewrite Hl. by destruct (Z.ltb_spec (w a) (w b)) as [|]; [|specialize (Hlt Hh); lia].
  - intros [] E. rewrite Hl in E. by destruct (Z.ltb_spec (w a) (w b)).
Qed.

(** ** Arithmetic *)

Lemma constrain_noop_spec `{CircuitTypeLaws F} (a : F Var) :
  wp h w (constrain_noop a) (λ _, True).
Proof.
  eapply wp_mono; [apply (wp_for _ (λ _, True))|done].
  intros v _. eapply wp_mono; [apply mul_gate_law; [done|]|done].
  intros _. unfold scalar_mul. by rewrite (assigned_zero w W), Z.mul_0_r.
Qed.

(** The bit lengths rule out a wrap-around of [b q + r]. *)
Lemma div_rem_exact n a b q r :
  (n ≤ 100)%nat → is_scalar a → fits n b → fits (252 - n) q → fits n r → r < b →
  scalar_from (1 * (b * q) + 1 * (r * 1)) = a → q = a / b ∧ r = a mod b.
Proof.
  intros Hn Ha Hb Hq Hr Hrb E. pose proof scalar_modulus_bounds.
  assert (2 ^ Z.of_nat n * 2 ^ Z.of_nat (252 - n) = 2 ^ 252) as Ep.
  { rewrite <-Z.pow_add_r by lia. f_equal. lia. }
  unfold fits in *. assert (0 ≤ b * q + r < 2 ^ 252) as Hbound.
  { split; [nia|]. rewrite <-Ep. nia. }
  unfold scalar_from in E. rewrite Z.mod_small in E by lia.
  assert (a = b * q + r) as -> by lia. split.
  - apply (Z.div_unique _ _ _ r); lia.
  - apply (Z.mod_unique _ _ q); lia.
Qed.

Lemma div_rem_spec a b n :
  (n ≤ 100)%nat → (h → 0 < w b ∧ fits n (w b) ∧ fits (252 - n) (w a / w b)) →
  wp h w (div_rem a b n) (λ p, 0 < w b ∧ w p.1 = w a / w b ∧ w p.2 = w a mod w b).
Proof.
  intros Hn Hpre. pose proof (assigned_scalar w W) as Ws. pose proof scalar_modulus_bounds.
  step wp_assert; [intros _; by apply Nat.leb_le|]. intros _ _.
  step wp_create_variable. intros q Hq. step wp_create_variable. intros r Hr.
  assert (h → w q = w a / w b ∧ w r = w a mod w b) as Hval.
  { intros Hh. destruct (Hpre Hh) as (H0 & _ & Hf).
    assert (is_scalar (w a / w b)) by (pose proof (Ws a); unfold is_scalar in *;
      split; [apply Z.div_pos; lia|apply Z.div_lt_upper_bound; nia]).
    assert (is_scalar (w a mod w b)) by (pose proof (Ws b); unfold is_scalar in *;
      pose proof (Z.mod_pos_bound (w a) (w b) H0); lia).
    by rewrite (Hq Hh), (Hr Hh), !scalar_from_id by auto with relayer. }
  step constrain_bit_range_spec; [lia|intros Hh; by apply Hpre|]. intros _ Fb.
  step constrain_bit_range_spec; [unfold SCALAR_BITS_MINUS_TWO, SCALAR_MAX_BITS; lia| |].
  { intros Hh. destruct (Hval Hh) as [-> _]. by apply Hpre. }
  intros _ Fq. step constrain_bit_range_spec; [lia| |].
  { intros Hh. destruct (Hval Hh) as [_ ->]. destruct (Hpre Hh) as (H0 & Hb & _).
    pose proof (Z.mod_pos_bound (w a) (w b) H0). unfold fits in *. lia. }
  intros _ Fr. step (mul_add_gate_law h).
  { intros Hh. destruct (Hval Hh) as [-> ->]. destruct (Hpre Hh) as (H0 & _ & _).
    rewrite (assigned_one w W). pose proof (Z.div_mod (w a) (w b) ltac:(lia)).
    transitivity (scalar_from (w a)); [f_equal; lia|by apply scalar_from_id]. }
  intros _ E. rewrite (assigned_one w W) in E.
  step constrain_less_than_spec; [lia| |].
  { intros Hh. destruct (Hval Hh) as [_ ->]. apply Z.mod_pos_bound, (Hpre Hh). }
  intros _ Hlt. apply wp_ret.
  destruct (div_rem_exact n (w a) (w b) (w q) (w r)) as [Eq Er]; [done..|].
  split; [|done]. unfold fits in Fr. lia.
Qed.

Lemma scalar_mul_pow x i j :
  0 ≤ i → 0 ≤ j → scalar_mul (scalar_from (x ^ i)) (scalar_from (x ^ j)) = scalar_from (x ^ (i + j)).
Proof. intros. rewrite Z.pow_add_r by lia. field_mod. Qed.

Lemma exp_fuel_spec f x alpha :
  (0 < f)%nat → 0 ≤ alpha < 2 ^ Z.of_nat f →
  wp h w (exp_fuel f x alpha) (λ r, w r = scalar_from (w x ^ alpha)).
Proof.
  revert alpha. induction f as [|f IH]; intros alpha Hf Ha; [lia|]. clear Hf.
  rewrite Nat2Z.inj_succ, Z.pow_succ_r in Ha by lia. cbn [exp_fuel].
  destruct (Z.eqb_spec alpha 0) as [->|H0].
  { apply wp_ret. by rewrite (assigned_one w W). }
  destruct (Z.eqb_spec alpha 1) as [->|H1].
  { apply wp_ret. rewrite Z.pow_1_r. symmetry. apply scalar_from_id, (assigned_scalar w W). }
  assert (0 < f)%nat by (destruct f; simpl in Ha; lia).
  assert (∀ k, alpha = 2 * k ∨ alpha = 2 * k + 1 → 0 ≤ k < 2 ^ Z.of_nat f) as Hk by lia.
  pose proof (scalar_from_id (w x) (assigned_scalar w W x)) as Ex.
  rewrite <-(Z.pow_1_r (w x)) in Ex at 1.
  destruct (Z.even alpha) eqn:Ev.
  - apply Z.even_spec in Ev as [k ->]. rewrite (Z.mul_comm 2 k), Z.div_mul by lia.
    step IH; [apply Hk; lia|]. intros y Hy. eapply wp_mono; [by apply mul_law|].
    intros r ->. rewrite !Hy, scalar_mul_pow by (specialize (Hk k); lia).
    do 2 f_equal. lia.
  - assert (Z.odd alpha = true) as [k ->]%Z.odd_spec by by rewrite <-Z.negb_even, Ev.
    rewrite Z.add_simpl_r, (Z.mul_comm 2 k), Z.div_mul by lia.
    step IH; [apply Hk; lia|]. intros y Hy. step mul_law. intros d Hd.
    rewrite !Hy, scalar_mul_pow in Hd by (specialize (Hk k); lia).
    eapply wp_mono; [by apply mul_law|]. intros r ->. rewrite Hd.
    transitivity (scalar_mul (scalar_from (w x ^ (k + k))) (scalar_from (w x ^ 1)));
      [by rewrite Ex|].
    rewrite scalar_mul_pow by (specialize (Hk k); lia). do 2 f_equal. lia.
Qed.

(** Square and multiply computes the power, for every [u64] exponent. *)
Lemma exp_gadget_spec x alpha :
  is_u64 alpha → wp h w (exp_gadget x alpha) (λ r, w r = scalar_from (w x ^ alpha)).
Proof.
  intros Ha. apply exp_fuel_spec; [lia|]. unfold is_u64, U64_MAX in Ha.
  change (Z.of_nat 65) with 65. lia.
Qed.

(** ** Selection *)

Lemma from_vars_spec `{CircuitTypeLaws F} (l : list Var) :
  length l = NUM (F:=F) → wp h w (from_vars (F:=F) l) (λ x, flat x = l).
Proof.
  intros Hl. destruct (unflat_total (F:=F) l) as [[x rest] E]; [lia|].
  pose proof (unflat_spec _ _ _ E) as El. unfold from_vars. rewrite E. simpl.
  apply wp_ret. assert (rest = []) as ->; [|by rewrite El, app_nil_r].
  apply nil_length_inv. apply (f_equal length) in El.
  rewrite length_app, flat_length in El. lia.
Qed.

Lemma mux_list_spec s (l1 l2 : list Var) :
  is_bit (w s) → length l1 = length l2 →
  wp h w (map_c (λ '(x, y), cs_mux s x y) (zip l1 l2))
    (λ r, w <$> r = if w s =? 1 then w <$> l1 else w <$> l2).
Proof.
  intros Hs. revert l2. induction l1 as [|x l1 IH]; intros [|y l2] Hl; try discriminate Hl.
  { apply wp_ret. by destruct (w s =? 1). }
  cbn [zip zip_with map_c]. step mux_law. intros m Hm.
  step IH; [by injection Hl|]. intros ms Hms. apply wp_ret.
  rewrite !fmap_cons, Hm, Hms. by destruct (w s =? 1).
Qed.

Lemma cond_select_spec `{CircuitTypeLaws F} (a b : F Var) s :
  is_bit (w s) →
  wp h w (cond_select a b s) (λ r, cmap w r = if w s =? 1 then cmap w a else cmap w b).
Proof.
  intros Hs. unfold cond_select, to_vars.
  step wp_assert; [intros; apply Nat.eqb_eq; by rewrite !flat_length|]. intros _ _.
  step mux_list_spec; [by rewrite !flat_length|]. intros rs Hrs.
  eapply wp_mono; [apply from_vars_spec|].
  - rewrite <-(length_fmap w), Hrs. destruct (w s =? 1); by rewrite length_fmap, flat_length.
  - intros r Hr. apply flat_inj. rewrite flat_cmap, Hr, Hrs.
    destruct (w s =? 1); by rewrite flat_cmap.
Qed.

(** ** Fixed point *)

Lemma two_to_m_scalar : TWO_TO_M_SCALAR = 2 ^ 63.
Proof. by vm_compute. Qed.

Lemma integer_to_fixed_point_spec v :
  wp h w (integer_to_fixed_point v) (λ r, w (fpv_repr r) = scalar_from (w v * 2 ^ 63)).
Proof.
  step mul_constant_law. intros r Hr. apply wp_ret. by rewrite <-two_to_m_scalar.
Qed.

Lemma constrain_equal_integer_spec lhs rhs :
  (h → w (fpv_repr lhs) = scalar_from (w rhs * 2 ^ 63)) →
  wp h w (constrain_equal_integer lhs rhs) (λ _, w (fpv_repr lhs) = scalar_from (w rhs * 2 ^ 63)).
Proof.
  intros E. step integer_to_fixed_point_spec. intros r Hr.
  eapply wp_mono; [apply constrain_eq_spec|].
  - intros Hh. destruct lhs, r. simpl in *. by rewrite E, Hr.
  - intros [] [= Eq]. by rewrite Eq, Hr.
Qed.

Lemma equal_integer_spec lhs rhs :
  wp h w (equal_integer lhs rhs)
    (λ r, w r = if w (fpv_repr lhs) =? scalar_from (w rhs * 2 ^ 63) then 1 else 0).
Proof.
  step integer_to_fixed_point_spec. intros r Hr.
  eapply wp_mono; [by apply eq_gadget_spec|]. intros e ->. rewrite <-Hr. simpl.
  case_bool_decide as E; destruct (Z.eqb_spec (w (fpv_repr lhs)) (w (fpv_repr r))) as [E'|E'];
    [done|by injection E|by rewrite E' in E|done].
Qed.

Lemma floor_dot T x k :
  scalar_from (dot [1; scalar_neg T; 1; 1] [x; k; 0; 0]) = scalar_from (x - T * k).
Proof.
  unfold dot. cbn [zip zip_with foldr fst snd].
  replace (1 * x + (scalar_neg T * k + (1 * 0 + (1 * 0 + 0)))) with (x + scalar_neg T * k) by ring.
  field_mod.
Qed.

Lemma complement_dot T x :
  scalar_from (dot [scalar_sub T 1; scalar_neg 1; 1; 1] [1; x; 0; 0]) = scalar_from (T - 1 - x).
Proof.
  unfold dot. cbn [zip zip_with foldr fst snd].
  replace (scalar_sub T 1 * 1 + (scalar_neg 1 * x + (1 * 0 + (1 * 0 + 0))))
    with (scalar_sub T 1 + scalar_neg 1 * x) by ring.
  field_mod.
Qed.

Lemma lc_two a b ca cb :
  wp h w (cs_lc [a; b; cs_zero; cs_zero] [ca; cb; 1; 1])
    (λ v, w v = scalar_from (dot [ca; cb; 1; 1] [w a; w b; 0; 0])).
Proof.
  eapply wp_mono; [by apply lc_law|]. intros v ->. simpl. by rewrite (assigned_zero w W).
Qed.

(** What the gadget for "equal when the fraction is ignored" constrains: the
    difference may lie in a range twice as wide as a fraction. *)
Lemma constrain_equal_integer_ignore_fraction_spec lhs rhs :
  (h → fits 64 (scalar_from (2 ^ 63 - 1 - (w (fpv_repr lhs) - 2 ^ 63 * w rhs)))) →
  wp h w (constrain_equal_integer_ignore_fraction lhs rhs)
    (λ _, fits 64 (scalar_from (2 ^ 63 - 1 - (w (fpv_repr lhs) - 2 ^ 63 * w rhs)))).
Proof.
  intros Hf. step lc_two. intros d Hd. rewrite floor_dot in Hd. step lc_two. intros e He.
  rewrite (assigned_one w W), complement_dot, Hd, two_to_m_scalar in He.
  assert (w e = scalar_from (2 ^ 63 - 1 - (w (fpv_repr lhs) - 2 ^ 63 * w rhs))) as Ee.
  { rewrite He. unfold scalar_from. by rewrite Zminus_mod_idemp_r. }
  rewrite <-Ee in Hf |- *. step to_bits_spec; [vm_compute; lia|]. by intros bits [_ X].
Qed.

(** [k] is the floor of the fixed point number [x], up to a multiple of the modulus. *)
Definition floor_rel (x k : Scalar) : Prop := fits 63 (scalar_from (x - 2 ^ 63 * k)).

Lemma constrain_equal_floor_spec fp k :
  (h → floor_rel (w (fpv_repr fp)) (w k)) →
  wp h w (constrain_equal_floor fp k) (λ _, floor_rel (w (fpv_repr fp)) (w k)).
Proof.
  intros Hf. step lc_two. intros d Hd. rewrite floor_dot, two_to_m_scalar in Hd.
  unfold floor_rel in *. rewrite <-Hd in Hf |- *.
  apply constrain_bit_range_spec; [vm_compute; lia|done].
Qed.

Lemma mul_integer_spec x v :
  wp h w (mul_integer x v) (λ r, w (fpv_repr r) = scalar_mul (w (fpv_repr x)) (w v)).
Proof. step mul_law. intros r Hr. by apply wp_ret. Qed.

Lemma floor_gadget_spec v :
  (h → w (fpv_repr v) < 2 ^ 253) →
  wp h w (floor_gadget v)
    (λ r, floor_rel (w (fpv_repr v)) (w r) ∧ (h → w r = w (fpv_repr v) / 2 ^ 63)).
Proof.
  intros Hlt. pose proof (assigned_scalar w W (fpv_repr v)) as Hs. unfold is_scalar in Hs.
  step wp_create_variable. intros r Hr.
  assert (h → w r = w (fpv_repr v) / 2 ^ 63) as Hv.
  { intros Hh. rewrite (Hr Hh), floor_repr by (simpl; specialize (Hlt Hh); lia).
    apply scalar_from_id. unfold is_scalar. simpl. split; [apply Z.div_pos; lia|].
    apply Z.div_lt_upper_bound; lia. }
  step constrain_equal_floor_spec.
  { intros Hh. unfold floor_rel. rewrite (Hv Hh).
    pose proof (Z.mod_pos_bound (w (fpv_repr v)) (2 ^ 63) ltac:(lia)) as B.
    rewrite Z.mod_eq in B by lia. rewrite scalar_from_small; unfold fits; lia. }
  intros _ Hf. by apply wp_ret.
Qed.
End Specs.

(** The floor is unique among short integers: the ranges that callers check on the
    result are what makes the gadget sound. *)
Lemma floor_unique x k (j : Z) :
  0 ≤ x < 2 ^ 252 → k = scalar_from j → - 2 ^ 180 < j < 2 ^ 180 → floor_rel x k →
  j = x / 2 ^ 63.
Proof.
  intros Hx -> Hj Hf. pose proof scalar_modulus_bounds.
  assert (scalar_from (x - 2 ^ 63 * scalar_from j) = scalar_from (x - 2 ^ 63 * j)) as E
    by (field_mod).
  unfold floor_rel in Hf. rewrite E in Hf. unfold fits, scalar_from in Hf.
  pose proof (Z.div_mod (x - 2 ^ 63 * j) scalar_modulus ltac:(lia)) as D.
  set (r := (x - 2 ^ 63 * j) mod scalar_modulus) in *.
  assert ((x - 2 ^ 63 * j) / scalar_modulus = 0) as Z0 by nia.
  rewrite Z0 in D. apply (Z.div_unique _ _ _ r); lia.
Qed.
