(* ===== verification/PoseidonGadget.v ===== *)
(** * Hash gadgets

    src/crates/circuits/circuits-core/src/zk_gadgets/primitives/poseidon/{gates,hash}.rs
    and merkle.rs.  The gadget fuses the round constants of one round with the linear
    layer of the previous one, in a custom gate per state element; the theorems show
    that the gates compute the permutation, the sponge and the Merkle paths of the
    native hash (Poseidon2.v). *)
From stdpp Require Import vector.
From S2P Require Import Prelude Scalar FixedPoint Poseidon2 StateWrapper Merkle Circuit.
From S2P Require Import CircuitTypes Gadgets.
Local Open Scope Z_scope.

(** ** Gates (gates.rs) *)

Definition pow5 (x : Scalar) : Scalar :=
  let x2 := scalar_mul x x in
  let x4 := scalar_mul x2 x2 in
  scalar_mul x4 x.

Record FusedExternalSboxMDSGate := mkExternalGate {
  ext_apply_sbox : bool;
  ext_round_constant : Scalar;
}.

Definition ext_compute_output (g : FusedExternalSboxMDSGate)
    (state_curr state0 state1 state2 : Scalar) : Scalar :=
  let f := if ext_apply_sbox g then pow5 else id in
  scalar_add (scalar_add (scalar_add (scalar_add (ext_round_constant g) (f state_curr))
    (f state0)) (f state1)) (f state2).

Definition ext_gate (g : FusedExternalSboxMDSGate) : PlonkGate := {|
  q_hash := if ext_apply_sbox g then [1; 1; 1; 1] else [0; 0; 0; 0];
  q_lc := if ext_apply_sbox g then [0; 0; 0; 0] else [1; 1; 1; 1];
  q_c := ext_round_constant g;
  q_o := 1;
|}.

Record FusedInternalSboxMDSGate := mkInternalGate {
  int_apply_sbox : bool;
  int_next_round_constant : Scalar;
  int_state_elem_coeff : Scalar;
}.

Definition int_compute_output (g : FusedInternalSboxMDSGate)
    (state_curr state0 state1 state2 : Scalar) : Scalar :=
  let state_elem := if int_apply_sbox g then pow5 state_curr else state_curr in
  scalar_add (scalar_add (scalar_add (scalar_add (int_next_round_constant g)
    (scalar_mul (int_state_elem_coeff g) state_elem)) (pow5 state0)) state1) state2.

Definition int_gate (g : FusedInternalSboxMDSGate) : PlonkGate := {|
  q_hash := if int_apply_sbox g then [int_state_elem_coeff g; 1; 0; 0] else [0; 1; 0; 0];
  q_lc := if int_apply_sbox g then [0; 0; 1; 1] else [int_state_elem_coeff g; 0; 1; 1];
  q_c := int_next_round_constant g;
  q_o := 1;
|}.

(** ** The hash gadget (hash.rs) *)

Record PoseidonHashGadget := mkHashGadget {
  hg_state : list Var;
  hg_next_index : nat;
  hg_in_squeeze_state : bool;
}.

Section HashGadget.
Context `{PlonkCircuit}.

(** A state element [self.state[i]]; the state always has [WIDTH] elements. *)
Definition elem (state : list Var) (i : nat) : Circuit Var := unwrap_c (state !! i).

Definition add_fused_external_sbox_mds (apply_sbox : bool) (rc : Scalar) (curr_state : Var)
    (state_vars : list Var) : Circuit Var :=
  let gate := mkExternalGate apply_sbox rc in
  s0 ← elem state_vars 0;
  s1 ← elem state_vars 1;
  s2 ← elem state_vars 2;
  out_var ← create_variable (λ w, ext_compute_output gate (w curr_state) (w s0) (w s1) (w s2));
  cs_insert_gate [curr_state; s0; s1; s2] out_var (ext_gate gate);;
  mret out_var.

Definition add_fused_internal_sbox_mds (apply_sbox : bool) (next_round_constant : Scalar)
    (state_elem_coeff : Scalar) (curr_state : Var) (state_vars : list Var) : Circuit Var :=
  let gate := mkInternalGate apply_sbox next_round_constant state_elem_coeff in
  s0 ← elem state_vars 0;
  s1 ← elem state_vars 1;
  s2 ← elem state_vars 2;
  out_var ← create_variable (λ w, int_compute_output gate (w curr_state) (w s0) (w s1) (w s2));
  cs_insert_gate [curr_state; s0; s1; s2] out_var (int_gate gate);;
  mret out_var.

Definition fused_external_mds_with_rc (apply_sbox : bool) (next_round_const : list Scalar)
    (state : list Var) : Circuit (list Var) :=
  let in_wires := state in
  state_elem ← elem state 0;
  out_var ← add_fused_external_sbox_mds apply_sbox (next_round_const !!! 0%nat) state_elem in_wires;
  let state := <[0%nat := out_var]> state in
  state_elem ← elem state 1;
  out_var ← add_fused_external_sbox_mds apply_sbox (next_round_const !!! 1%nat) state_elem in_wires;
  let state := <[1%nat := out_var]> state in
  state_elem ← elem state 2;
  out_var ← add_fused_external_sbox_mds apply_sbox (next_round_const !!! 2%nat) state_elem in_wires;
  mret (<[2%nat := out_var]> state).

Definition external_mds_with_rc (rcs : list Scalar) (state : list Var) : Circuit (list Var) :=
  fused_external_mds_with_rc false rcs state.
Definition external_sbox_mds_with_rc (rcs : list Scalar) (state : list Var) : Circuit (list Var) :=
  fused_external_mds_with_rc true rcs state.

Definition fused_internal_sbox_mds (next_round_constants : list Scalar) (state : list Var)
    : Circuit (list Var) :=
  let in_wires := state in
  state_elem ← elem state 0;
  out_var ← add_fused_internal_sbox_mds true (next_round_constants !!! 0%nat) 1 state_elem in_wires;
  let state := <[0%nat := out_var]> state in
  state_elem ← elem state 1;
  out_var ← add_fused_internal_sbox_mds false (next_round_constants !!! 1%nat) 1 state_elem in_wires;
  let state := <[1%nat := out_var]> state in
  state_elem ← elem state 2;
  out_var ← add_fused_internal_sbox_mds false (next_round_constants !!! 2%nat) 2 state_elem in_wires;
  mret (<[2%nat := out_var]> state).

Definition permute_gadget (state : list Var) : Circuit (list Var) :=
  state ← external_mds_with_rc (FULL_ROUND_CONSTANTS !!! 0%nat) state;
  let HALF := (R_F / 2)%nat in
  state ← fold_c (λ st round, external_sbox_mds_with_rc (FULL_ROUND_CONSTANTS !!! (round + 1)%nat) st)
    state (seq 0 (HALF - 1));
  state ← external_sbox_mds_with_rc [PARTIAL_ROUND_CONSTANTS !!! 0%nat; 0; 0] state;
  state ← fold_c (λ st round,
    fused_internal_sbox_mds [PARTIAL_ROUND_CONSTANTS !!! (round + 1)%nat; 0; 0] st)
    state (seq 0 (R_P - 1));
  state ← fused_internal_sbox_mds (FULL_ROUND_CONSTANTS !!! HALF) state;
  state ← fold_c (λ st round, external_sbox_mds_with_rc (FULL_ROUND_CONSTANTS !!! (round + 1)%nat) st)
    state (seq HALF (R_F - 1 - HALF));
  external_sbox_mds_with_rc [0; 0; 0] state.

Definition hasher_new : PoseidonHashGadget :=
  mkHashGadget (replicate (CAPACITY + RATE) cs_zero) 0 false.
Definition reset_state (_ : PoseidonHashGadget) : PoseidonHashGadget := hasher_new.

Definition absorb_gadget (self : PoseidonHashGadget) (a : Var) : Circuit PoseidonHashGadget :=
  assert (negb (hg_in_squeeze_state self));;
  self ←
    (if (hg_next_index self =? RATE)%nat then
       st ← permute_gadget (hg_state self);
       mret (mkHashGadget st 0 (hg_in_squeeze_state self))
     else mret self);
  let access_index := (hg_next_index self + CAPACITY)%nat in
  cur ← elem (hg_state self) access_index;
  sum ← cs_add a cur;
  mret (mkHashGadget (<[access_index := sum]> (hg_state self)) (hg_next_index self + 1)
          (hg_in_squeeze_state self)).

Definition batch_absorb (self : PoseidonHashGadget) (a : list Var) : Circuit PoseidonHashGadget :=
  fold_c absorb_gadget self a.

Definition squeeze_gadget (self : PoseidonHashGadget) : Circuit (Var * PoseidonHashGadget) :=
  self ←
    (if negb (hg_in_squeeze_state self) || (hg_next_index self =? RATE)%nat then
       st ← permute_gadget (hg_state self);
       mret (mkHashGadget st 0 true)
     else mret self);
  res ← elem (hg_state self) (CAPACITY + hg_next_index self);
  mret (res, mkHashGadget (hg_state self) (hg_next_index self + 1) (hg_in_squeeze_state self)).

(** [hash] is always called on a fresh hasher, which is not used afterwards. *)
Definition hash_gadget (self : PoseidonHashGadget) (hash_input : list Var) : Circuit Var :=
  self ← batch_absorb self hash_input;
  '(res, _) ← squeeze_gadget self;
  mret res.

Definition constrained_squeeze (self : PoseidonHashGadget) (expected : Var)
    : Circuit PoseidonHashGadget :=
  '(squeezed_elem, self) ← squeeze_gadget self;
  cs_enforce_equal expected squeezed_elem;;
  mret self.

Definition hash_constrained (self : PoseidonHashGadget) (hash_input : list Var)
    (expected_output : Var) : Circuit unit :=
  self ← batch_absorb self hash_input;
  _ ← constrained_squeeze self expected_output;
  mret tt.

Fixpoint batch_squeeze (self : PoseidonHashGadget) (n : nat)
    : Circuit (list Var * PoseidonHashGadget) :=
  match n with
  | O => mret ([], self)
  | S n' =>
      '(x, self) ← squeeze_gadget self;
      '(xs, self) ← batch_squeeze self n';
      mret (x :: xs, self)
  end.

Definition batch_constrained_squeeze (self : PoseidonHashGadget) (expected : list Var)
    : Circuit PoseidonHashGadget :=
  fold_c constrained_squeeze self expected.

(** [PoseidonCSPRNGGadget::sample] *)
Fixpoint sample (hasher : PoseidonHashGadget) (seed : Var) (num_vals : nat)
    : Circuit (list Var) :=
  match num_vals with
  | O => mret []
  | S n' =>
      hasher ← absorb_gadget hasher seed;
      '(seed, hasher) ← squeeze_gadget hasher;
      values ← sample (reset_state hasher) seed n';
      mret (seed :: values)
  end.

(** ** Merkle openings (merkle.rs) *)

Definition select_left_right (current_hash sister_node lr_select : Var) : Circuit (Var * Var) :=
  left_child ← cs_mux lr_select sister_node current_hash;
  right_child ←
    cs_lc [current_hash; sister_node; left_child; cs_zero] [1; 1; scalar_neg 1; 1];
  mret (left_child, right_child).

Definition hash_internal_nodes (left right : Var) : Circuit Var :=
  hasher ← batch_absorb hasher_new [left; right];
  '(res, _) ← squeeze_gadget hasher;
  mret res.

Definition leaf_hash (values : list Var) : Circuit Var :=
  hasher ← batch_absorb hasher_new values;
  '(res, _) ← squeeze_gadget hasher;
  mret res.

Definition compute_root_prehashed {n} (leaf_node : Var) (opening : MerkleOpeningVar n Var) : Circuit Var :=
  fold_c (λ current_hash '(path_elem, lr_select),
    '(lhs, rhs) ← select_left_right current_hash path_elem lr_select;
    hash_internal_nodes lhs rhs)
    leaf_node (zip (vec_to_list (mov_elems opening)) (vec_to_list (mov_indices opening))).

Definition compute_root_gadget (leaf_node : list Var) {n} (opening : MerkleOpeningVar n Var) : Circuit Var :=
  leaf_hash ← leaf_hash leaf_node;
  compute_root_prehashed leaf_hash opening.

Definition compute_and_constrain_root (leaf_node : list Var) {n} (opening : MerkleOpeningVar n Var)
    (expected_root : Var) : Circuit unit :=
  root ← compute_root_gadget leaf_node opening;
  cs_enforce_equal expected_root root.

Definition compute_and_constrain_root_prehashed (leaf_node : Var)
    {n} (opening : MerkleOpeningVar n Var) (expected_root : Var) : Circuit unit :=
  root ← compute_root_prehashed leaf_node opening;
  cs_enforce_equal expected_root root.
End HashGadget.

(** ** The fused rounds compute the permutation *)

(** What a fused layer computes from the values of the state. *)
Definition fused_external (sbox : bool) (rcs st : list Scalar) : list Scalar :=
  match st with
  | [a; b; c] =>
      [ext_compute_output (mkExternalGate sbox (rcs !!! 0%nat)) a a b c;
       ext_compute_output (mkExternalGate sbox (rcs !!! 1%nat)) b a b c;
       ext_compute_output (mkExternalGate sbox (rcs !!! 2%nat)) c a b c]
  | _ => []
  end.
Definition fused_internal (rcs st : list Scalar) : list Scalar :=
  match st with
  | [a; b; c] =>
      [int_compute_output (mkInternalGate true (rcs !!! 0%nat) 1) a a b c;
       int_compute_output (mkInternalGate false (rcs !!! 1%nat) 1) b a b c;
       int_compute_output (mkInternalGate false (rcs !!! 2%nat) 2) c a b c]
  | _ => []
  end.

Definition add_rcs (st rcs : list Scalar) : list Scalar := zip_with scalar_add st rcs.

Lemma pow5_sbox x : pow5 x = apply_sbox x.
Proof. reflexivity. Qed.

Lemma external_sum rc x a b c :
  scalar_add (scalar_add (scalar_add (scalar_add rc x) a) b) c =
  scalar_add (scalar_add x (sum3 a b c)) rc.
Proof. unfold sum3. field_mod. Qed.

Lemma fused_external_eq (sbox : bool) rcs st :
  length st = WIDTH → length rcs = WIDTH →
  fused_external sbox rcs st =
  add_rcs (external_mds (if sbox then external_sbox st else st)) rcs.
Proof.
  intros (a & b & c & ->)%state_inv (r & s & t & ->)%state_inv.
  destruct sbox; unfold fused_external, external_sbox, ext_compute_output;
    cbn [fmap list_fmap ext_apply_sbox ext_round_constant];
    rewrite external_mds_3; cbn [add_rcs zip_with lookup_total list_lookup_total id];
    rewrite ?pow5_sbox, !external_sum; reflexivity.
Qed.

Lemma internal_sum k x a b c r :
  scalar_add (scalar_add (scalar_add (scalar_add r (scalar_mul k x)) a) b) c =
  scalar_add (scalar_add (k * x) (sum3 a b c)) r.
Proof. unfold sum3. field_mod. Qed.

Lemma fused_internal_eq rcs st :
  length st = WIDTH → length rcs = WIDTH →
  fused_internal rcs st = add_rcs (internal_mds (internal_sbox st)) rcs.
Proof.
  intros (a & b & c & ->)%state_inv (r & s & t & ->)%state_inv.
  unfold fused_internal, internal_sbox, int_compute_output.
  cbn [alter list_alter int_apply_sbox int_next_round_constant int_state_elem_coeff].
  rewrite internal_mds_3. cbn [add_rcs zip_with lookup_total list_lookup_total].
  rewrite ?pow5_sbox, !internal_sum, !Z.mul_1_l. reflexivity.
Qed.

(** A round followed by the next constants, against constants followed by a round. *)
Lemma fold_fuse {T} (F : T → T) (add : nat → T → T) st lo n :
  foldl (λ s r, add (r + 1)%nat (F s)) (add lo st) (seq lo n) =
  add (lo + n)%nat (foldl (λ s i, F (add i s)) st (seq lo n)).
Proof.
  revert lo st. induction n as [|n IH]; intros lo st; simpl; [by rewrite Nat.add_0_r|].
  rewrite Nat.add_1_r, IH. f_equal. lia.
Qed.

(** The layers of the native permutation without their constants. *)
Definition external_layer (st : list Scalar) : list Scalar := external_mds (external_sbox st).
Definition internal_layer (st : list Scalar) : list Scalar := internal_mds (internal_sbox st).

Lemma external_layer_state st : length st = WIDTH → is_state (external_layer st).
Proof. intros Hl. apply external_mds_state. unfold external_sbox. by rewrite length_fmap. Qed.
Lemma internal_layer_state st : length st = WIDTH → is_state (internal_layer st).
Proof. intros Hl. apply internal_mds_state. unfold internal_sbox. by rewrite length_alter. Qed.

Lemma add_rcs_length st rcs :
  length st = WIDTH → length rcs = WIDTH → length (add_rcs st rcs) = WIDTH.
Proof. intros Hs Hr. unfold add_rcs. rewrite length_zip_with. lia. Qed.

Lemma add_rcs_first st k :
  is_state st → add_rcs st [k; 0; 0] = alter (λ x, scalar_add x k) 0%nat st.
Proof.
  intros [(a & b & c & ->)%state_inv Hst]. rewrite !Forall_cons in Hst.
  destruct Hst as (_ & Hb & Hc & _). cbn [add_rcs zip_with alter list_alter].
  unfold scalar_add at 2 3. rewrite !Z.add_0_r, !Z.mod_small by done. reflexivity.
Qed.

Lemma add_rcs_zero st : is_state st → add_rcs st [0; 0; 0] = st.
Proof.
  intros Hst. rewrite add_rcs_first by done. destruct Hst as [(a & b & c & ->)%state_inv Hst].
  rewrite !Forall_cons in Hst. destruct Hst as (Ha & _). cbn [alter list_alter].
  unfold scalar_add. rewrite Z.add_0_r, Z.mod_small by done. reflexivity.
Qed.

(** The permutation in the gadget's order: each layer is followed by the constants of
    the next round. *)
Definition permute_layers (st : list Scalar) : list Scalar :=
  let HALF := (R_F / 2)%nat in
  let st := external_add_rc 0 (external_mds st) in
  let st := foldl (λ s r, external_add_rc (r + 1) (external_layer s)) st (seq 0 (HALF - 1)) in
  let st := add_rcs (external_layer st) [PARTIAL_ROUND_CONSTANTS !!! 0%nat; 0; 0] in
  let st := foldl (λ s r,
    add_rcs (internal_layer s) [PARTIAL_ROUND_CONSTANTS !!! (r + 1)%nat; 0; 0]) st
    (seq 0 (R_P - 1)) in
  let st := external_add_rc HALF (internal_layer st) in
  let st := foldl (λ s r, external_add_rc (r + 1) (external_layer s)) st
    (seq HALF (R_F - 1 - HALF)) in
  add_rcs (external_layer st) [0; 0; 0].

(** The rounds of a half: the constants of round [i], then its layer. *)
Lemma external_rounds st lo n :
  external_layer (foldl (λ s r, external_add_rc (r + 1) (external_layer s))
    (external_add_rc lo st) (seq lo n)) =
  foldl (λ s i, external_round i s) st (seq lo (S n)).
Proof.
  rewrite (fold_fuse external_layer external_add_rc), seq_S, foldl_snoc. reflexivity.
Qed.

Lemma foldl_ext_inv {T X} (I : T → Prop) (f g : T → X → T) t xs :
  (∀ t x, I t → f t x = g t x ∧ I (g t x)) → I t → foldl f t xs = foldl g t xs.
Proof.
  intros Hfg. revert t. induction xs as [|x xs IH]; intros t Ht; simpl; [done|].
  destruct (Hfg t x Ht) as [-> Hi]. auto.
Qed.

Lemma internal_rounds st lo n :
  is_state st →
  internal_layer (foldl (λ s r,
    add_rcs (internal_layer s) [PARTIAL_ROUND_CONSTANTS !!! (r + 1)%nat; 0; 0])
    (add_rcs st [PARTIAL_ROUND_CONSTANTS !!! lo; 0; 0]) (seq lo n)) =
  foldl (λ s i, internal_round i s) st (seq lo (S n)).
Proof.
  intros Hst.
  rewrite (fold_fuse internal_layer (λ i s, add_rcs s [PARTIAL_ROUND_CONSTANTS !!! i; 0; 0])).
  transitivity (foldl (λ s i, internal_layer (add_rcs s [PARTIAL_ROUND_CONSTANTS !!! i; 0; 0]))
    st (seq lo (S n))); [by rewrite seq_S, foldl_snoc|].
  apply (foldl_ext_inv is_state); [|done]. intros t i Ht. split.
  - unfold internal_layer. rewrite add_rcs_first by done. reflexivity.
  - apply internal_round_state, Ht.
Qed.

Lemma external_rounds_state st lo n :
  is_state st → (lo + n ≤ R_F)%nat → is_state (foldl (λ s i, external_round i s) st (seq lo n)).
Proof.
  intros Hst Hn. apply foldl_is_state; [|done].
  apply Forall_seq. intros i Hi s [Hs _]. apply external_round_state; [lia|done].
Qed.
Lemma internal_rounds_state st lo n :
  is_state st → is_state (foldl (λ s i, internal_round i s) st (seq lo n)).
Proof.
  intros Hst. apply foldl_is_state; [|done].
  apply Forall_true. intros i s [Hs _]. by apply internal_round_state.
Qed.

Lemma permute_layers_eq st : length st = WIDTH → permute_layers st = permute st.
Proof.
  intros Hl. unfold permute_layers. cbv zeta.
  assert (is_state (external_mds st)) as Hst by by apply external_mds_state.
  rewrite (external_rounds (external_mds st)), internal_rounds, external_rounds.
  - change (S (R_F / 2 - 1)) with (R_F / 2)%nat. change (S (R_P - 1)) with R_P.
    change (S (R_F - 1 - R_F / 2)) with (R_F - R_F / 2)%nat.
    rewrite add_rcs_zero; [unfold permute; cbv zeta; reflexivity|].
    apply external_rounds_state; [|vm_compute; lia].
    apply internal_rounds_state, external_rounds_state; [done|vm_compute; lia].
  - apply external_rounds_state; [done|vm_compute; lia].
Qed.

(** ** The gates *)

Lemma gate_output (g : PlonkGate) ins out y :
  is_scalar out → q_o g = 1 →
  scalar_from (q_c g + dot (q_lc g) ins + dot (q_hash g) ((λ x, x ^ 5) <$> ins)) = y →
  gate_holds g ins out ↔ out = y.
Proof.
  intros Ho Hq <-. unfold gate_holds. by rewrite Hq, Z.mul_1_l, (scalar_from_id out).
Qed.

Lemma ext_gate_holds g x a b c out :
  is_scalar out → gate_holds (ext_gate g) [x; a; b; c] out ↔ out = ext_compute_output g x a b c.
Proof.
  intros Ho. apply gate_output; [done..|]. destruct g as [[] rc];
    unfold ext_compute_output, pow5, dot;
    cbn [ext_gate q_c q_lc q_hash ext_apply_sbox ext_round_constant fmap list_fmap zip zip_with
         foldr fst snd id]; field_mod.
Qed.
Lemma int_gate_holds g x a b c out :
  is_scalar out → gate_holds (int_gate g) [x; a; b; c] out ↔ out = int_compute_output g x a b c.
Proof.
  intros Ho. apply gate_output; [done..|]. destruct g as [[] rc k];
    unfold int_compute_output, pow5, dot;
    cbn [int_gate q_c q_lc q_hash int_apply_sbox int_next_round_constant int_state_elem_coeff
         fmap list_fmap zip zip_with foldr fst snd id]; field_mod.
Qed.

Lemma ext_compute_output_is_scalar g x a b c : is_scalar (ext_compute_output g x a b c).
Proof. unfold ext_compute_output. auto with relayer. Qed.
Lemma int_compute_output_is_scalar g x a b c : is_scalar (int_compute_output g x a b c).
Proof. unfold int_compute_output. auto with relayer. Qed.

(** ** Specifications *)

Section Specs.
Context {Cs : PlonkCircuit} {Laws : PlonkCircuitLaws} {h : Prop} {w : N → Z} (W : assignment w).

Lemma elem_spec (st : list N) (i : nat) v :
  st !! i = Some v → wp h w (elem st i) (λ x, x = v).
Proof. intros E. unfold elem. rewrite E. by apply wp_ret. Qed.

Lemma add_fused_external_spec sbox rc x a b c :
  wp h w (add_fused_external_sbox_mds sbox rc x [a; b; c])
    (λ v, w v = ext_compute_output (mkExternalGate sbox rc) (w x) (w a) (w b) (w c)).
Proof.
  unfold add_fused_external_sbox_mds.
  do 3 (step elem_spec; intros ? ->). step wp_create_variable. intros v Hv.
  eapply wp_step; [apply insert_gate_law; [done|]|].
  - intros Hh. apply ext_gate_holds; [apply W|]. rewrite Hv by done.
    apply scalar_from_id, ext_compute_output_is_scalar.
  - intros [] Hg. apply ext_gate_holds in Hg; [|apply W]. by apply wp_ret.
Qed.

Lemma add_fused_internal_spec sbox rc k x a b c :
  wp h w (add_fused_internal_sbox_mds sbox rc k x [a; b; c])
    (λ v, w v = int_compute_output (mkInternalGate sbox rc k) (w x) (w a) (w b) (w c)).
Proof.
  unfold add_fused_internal_sbox_mds.
  do 3 (step elem_spec; intros ? ->). step wp_create_variable. intros v Hv.
  eapply wp_step; [apply insert_gate_law; [done|]|].
  - intros Hh. apply int_gate_holds; [apply W|]. rewrite Hv by done.
    apply scalar_from_id, int_compute_output_is_scalar.
  - intros [] Hg. apply int_gate_holds in Hg; [|apply W]. by apply wp_ret.
Qed.

Lemma list3_inv {A} (l : list A) : length l = WIDTH → ∃ a b c, l = [a; b; c].
Proof. destruct l as [|a [|b [|c [|]]]]; try done. eauto. Qed.

Lemma fused_external_spec sbox rcs st :
  length st = WIDTH →
  wp h w (fused_external_mds_with_rc sbox rcs st)
    (λ st', w <$> st' = fused_external sbox rcs (w <$> st)).
Proof.
  intros (a & b & c & ->)%list3_inv. unfold fused_external_mds_with_rc.
  step elem_spec. intros ? ->. step add_fused_external_spec. intros v0 H0.
  step elem_spec. intros ? ->. step add_fused_external_spec. intros v1 H1.
  step elem_spec. intros ? ->. step add_fused_external_spec. intros v2 H2.
  apply wp_ret. cbn [fmap list_fmap insert list_insert fused_external].
  by rewrite H0, H1, H2.
Qed.

Lemma fused_internal_spec rcs st :
  length st = WIDTH →
  wp h w (fused_internal_sbox_mds rcs st)
    (λ st', w <$> st' = fused_internal rcs (w <$> st)).
Proof.
  intros (a & b & c & ->)%list3_inv. unfold fused_internal_sbox_mds.
  step elem_spec. intros ? ->. step add_fused_internal_spec. intros v0 H0.
  step elem_spec. intros ? ->. step add_fused_internal_spec. intros v1 H1.
  step elem_spec. intros ? ->. step add_fused_internal_spec. intros v2 H2.
  apply wp_ret. cbn [fmap list_fmap insert list_insert fused_internal].
  by rewrite H0, H1, H2.
Qed.

(** The variables [st] hold the state [t]. *)
Definition holds (st : list N) (t : list Scalar) : Prop := w <$> st = t ∧ length t = WIDTH.

Lemma holds_length st t : holds st t → length st = WIDTH.
Proof. intros [<- Hl]. by rewrite length_fmap in Hl. Qed.

Lemma external_spec (sbox : bool) rcs st t :
  holds st t → length rcs = WIDTH →
  wp h w (fused_external_mds_with_rc sbox rcs st)
    (λ st', holds st' (add_rcs (external_mds (if sbox then external_sbox t else t)) rcs)).
Proof.
  intros Hst Hr. eapply wp_mono; [by eapply fused_external_spec, holds_length|].
  intros st' E. destruct Hst as [<- Hl]. rewrite fused_external_eq in E by done. split; [done|].
  apply add_rcs_length; [|done]. apply external_mds_state.
  destruct sbox; [unfold external_sbox; by rewrite length_fmap|done].
Qed.

Lemma internal_spec rcs st t :
  holds st t → length rcs = WIDTH →
  wp h w (fused_internal_sbox_mds rcs st) (λ st', holds st' (add_rcs (internal_layer t) rcs)).
Proof.
  intros Hst Hr. eapply wp_mono; [by eapply fused_internal_spec, holds_length|].
  intros st' E. destruct Hst as [<- Hl]. rewrite fused_internal_eq in E by done. split; [done|].
  apply add_rcs_length; [|done]. by apply internal_layer_state.
Qed.

Lemma external_loop_spec st t lo n :
  holds st t → (lo + n < R_F)%nat →
  wp h w (fold_c (λ st r, external_sbox_mds_with_rc (FULL_ROUND_CONSTANTS !!! (r + 1)%nat) st)
            st (seq lo n))
    (λ st', holds st' (foldl (λ s r, external_add_rc (r + 1) (external_layer s)) t (seq lo n))).
Proof.
  intros Hst Hn. apply (wp_fold _ holds); [done|]. intros s u r Hr Hs.
  apply elem_of_seq in Hr. apply (external_spec true); [done|].
  apply full_round_constants_width. lia.
Qed.

Lemma internal_loop_spec st t lo n :
  holds st t →
  wp h w (fold_c (λ st r, fused_internal_sbox_mds
            [PARTIAL_ROUND_CONSTANTS !!! (r + 1)%nat; 0; 0] st) st (seq lo n))
    (λ st', holds st' (foldl (λ s r,
      add_rcs (internal_layer s) [PARTIAL_ROUND_CONSTANTS !!! (r + 1)%nat; 0; 0]) t (seq lo n))).
Proof. intros Hst. apply (wp_fold _ holds); [done|]. intros s u r _ Hs. by apply internal_spec. Qed.

Lemma external_mds_with_rc_spec st t r :
  holds st t → (r < R_F)%nat →
  wp h w (external_mds_with_rc (FULL_ROUND_CONSTANTS !!! r) st)
    (λ st', holds st' (external_add_rc r (external_mds t))).
Proof. intros Hst Hr. apply (external_spec false); [done|by apply full_round_constants_width]. Qed.
Lemma external_sbox_mds_with_rc_spec st t x y z :
  holds st t →
  wp h w (external_sbox_mds_with_rc [x; y; z] st)
    (λ st', holds st' (add_rcs (external_layer t) [x; y; z])).
Proof. intros Hst. by apply (external_spec true). Qed.
Lemma last_internal_spec st t r :
  holds st t → (r < R_F)%nat →
  wp h w (fused_internal_sbox_mds (FULL_ROUND_CONSTANTS !!! r) st)
    (λ st', holds st' (external_add_rc r (internal_layer t))).
Proof. intros Hst Hr. apply internal_spec; [done|by apply full_round_constants_width]. Qed.

(** The permutation gadget computes the permutation. *)
Lemma permute_gadget_spec st :
  length st = WIDTH → wp h w (permute_gadget st) (λ st', w <$> st' = permute (w <$> st)).
Proof.
  intros Hl. assert (holds st (w <$> st)) as Hst by (split; [done|by rewrite length_fmap]).
  rewrite <-permute_layers_eq by by rewrite length_fmap.
  unfold permute_gadget, permute_layers. cbv zeta.
  assert (∀ n, n < 8 → n < R_F)%nat as Hr by done.
  eapply wp_step; [apply external_mds_with_rc_spec; [exact Hst|apply Hr; lia]|]. intros st1 H1.
  eapply wp_step; [apply external_loop_spec; [exact H1|vm_compute; lia]|]. intros st2 H2.
  eapply wp_step; [apply external_sbox_mds_with_rc_spec; exact H2|]. intros st3 H3.
  eapply wp_step; [apply internal_loop_spec; exact H3|]. intros st4 H4.
  eapply wp_step; [apply last_internal_spec; [exact H4|vm_compute; lia]|]. intros st5 H5.
  eapply wp_step; [apply external_loop_spec; [exact H5|vm_compute; lia]|]. intros st6 H6.
  eapply wp_mono; [apply external_sbox_mds_with_rc_spec; exact H6|]. intros st7 [E _]. exact E.
Qed.

(** *** The sponge *)

(** The native sponge that a hasher stands for. *)
Definition sponge_of (g : PoseidonHashGadget) : Poseidon2Sponge :=
  mkSponge (w <$> hg_state g) (hg_next_index g) (hg_in_squeeze_state g).
Definition hasher_ok (g : PoseidonHashGadget) : Prop :=
  length (hg_state g) = WIDTH ∧ (hg_next_index g ≤ RATE)%nat.

#[local] Opaque permute.

Lemma permute_hasher_spec g b :
  hasher_ok g →
  wp h w (st ← permute_gadget (hg_state g); mret (mkHashGadget st 0 b))
    (λ g', hasher_ok g' ∧ hg_next_index g' = 0%nat ∧
           sponge_of g' = mkSponge (permute (sp_state (sponge_of g))) 0 b).
Proof.
  intros [Hl Hi]. step permute_gadget_spec. intros st' E. apply wp_ret.
  split_and!; [split; simpl|done|unfold sponge_of; simpl; by rewrite E].
  - rewrite <-(length_fmap w), E. apply permute_state. by rewrite length_fmap.
  - lia.
Qed.

Lemma absorb_gadget_spec g a :
  hasher_ok g → hg_in_squeeze_state g = false →
  wp h w (absorb_gadget g a)
    (λ g', hasher_ok g' ∧ absorb (sponge_of g) (w a) = Some (sponge_of g')).
Proof.
  intros Hg Hs. unfold absorb_gadget, absorb. cbn [sponge_of sp_squeezing sp_next_index].
  rewrite Hs. eapply wp_step; [by apply wp_assert|]. intros [] _.
  eapply (wp_step _ _ (λ g', hasher_ok g' ∧ (hg_next_index g' < RATE)%nat ∧ sponge_of g' =
    if (hg_next_index g =? RATE)%nat
    then mkSponge (permute (sp_state (sponge_of g))) 0 false else sponge_of g)).
  { destruct (Nat.eqb_spec (hg_next_index g) RATE).
    - eapply wp_mono; [by apply permute_hasher_spec|].
      intros g' (Hok & Hi & E). unfold RATE. split_and!; [done|lia|done].
    - apply wp_ret. destruct Hg as [Hl Hi]. split_and!; [done|lia|done]. }
  intros g' ([Hl Hi] & Hlt & E). rewrite <-E. cbn [sponge_of sp_next_index sp_squeezing sp_state].
  destruct (lookup_lt_is_Some_2 (hg_state g') (hg_next_index g' + CAPACITY)) as [cur Hcur].
  { rewrite Hl. unfold RATE, CAPACITY, WIDTH in *. lia. }
  step elem_spec. intros ? ->. eapply wp_step; [by apply add_law|]. intros sum Hsum.
  apply wp_ret. split.
  { split; simpl; [by rewrite length_insert|lia]. }
  unfold sponge_of. cbn [hg_state hg_next_index hg_in_squeeze_state].
  rewrite list_fmap_insert, Hsum. do 2 f_equal.
  apply list_eq. intros i. destruct (decide (i = hg_next_index g' + CAPACITY)%nat) as [->|Hne].
  - rewrite list_lookup_alter_eq, list_lookup_insert_eq.
    + rewrite list_lookup_fmap, Hcur. simpl. unfold scalar_add. by rewrite Z.add_comm.
    + rewrite length_fmap. by eapply lookup_lt_Some.
  - by rewrite list_lookup_alter_ne, list_lookup_insert_ne.
Qed.

Lemma absorb_keeps s x s' : absorb s x = Some s' → sp_squeezing s' = false.
Proof. unfold absorb. destruct (sp_squeezing s) eqn:E; [done|]. destruct (_ =? _)%nat; by intros [= <-]. Qed.

Lemma batch_absorb_spec g xs :
  hasher_ok g → hg_in_squeeze_state g = false →
  wp h w (batch_absorb g xs)
    (λ g', hasher_ok g' ∧ hg_in_squeeze_state g' = false ∧
           absorb_batch (sponge_of g) (w <$> xs) = Some (sponge_of g')).
Proof.
  unfold batch_absorb. revert g. induction xs as [|x xs IH]; intros g Hg Hs; [by apply wp_ret|].
  cbn [fold_c]. step absorb_gadget_spec. intros g1 [H1 E1].
  eapply wp_mono; [apply IH; [done|by apply absorb_keeps in E1]|].
  intros g2 (H2 & Hs2 & E2). split_and!; [done..|].
  rewrite fmap_cons, absorb_batch_cons, E1. exact E2.
Qed.

Lemma squeeze_gadget_spec g :
  hasher_ok g →
  wp h w (squeeze_gadget g)
    (λ '(v, g'), hasher_ok g' ∧ squeeze (sponge_of g) = (w v, sponge_of g')).
Proof.
  intros Hg. unfold squeeze_gadget, squeeze. cbn [sponge_of sp_squeezing sp_next_index].
  eapply (wp_step _ _ (λ g', hasher_ok g' ∧ (hg_next_index g' < RATE)%nat ∧ sponge_of g' =
    if negb (hg_in_squeeze_state g) || (hg_next_index g =? RATE)%nat
    then mkSponge (permute (sp_state (sponge_of g))) 0 true else sponge_of g)).
  { destruct (negb _ || _) eqn:Hb.
    - eapply wp_mono; [by apply permute_hasher_spec|].
      intros g' (Hok & Hi & E). unfold RATE. split_and!; [done|lia|done].
    - apply wp_ret. destruct Hg as [Hl Hi]. apply orb_false_iff in Hb as [_ Hb%Nat.eqb_neq].
      split_and!; [done|lia|done]. }
  intros g' ([Hl Hi] & Hlt & E). rewrite <-E. cbn [sponge_of sp_next_index sp_squeezing sp_state].
  destruct (lookup_lt_is_Some_2 (hg_state g') (CAPACITY + hg_next_index g')) as [cur Hcur].
  { rewrite Hl. unfold RATE, CAPACITY, WIDTH in *. lia. }
  step elem_spec. intros ? ->. apply wp_ret. split.
  - split; simpl; [done|lia].
  - f_equal. rewrite Nat.add_comm. rewrite list_lookup_total_alt, list_lookup_fmap, Hcur. done.
Qed.

Lemma hasher_new_ok : hasher_ok hasher_new.
Proof. split; simpl; [done|lia]. Qed.
Lemma hasher_new_sponge : sponge_of hasher_new = sponge_new.
Proof.
  unfold sponge_of, hasher_new, sponge_new. cbn [hg_state].
  by rewrite fmap_replicate, (assigned_zero _ W).
Qed.

(** What a hasher that has absorbed [xs] squeezes first. *)
Lemma squeezed_value g xs v g' :
  absorb_batch (sponge_of hasher_new) xs = Some (sponge_of g) →
  squeeze (sponge_of g) = (w v, sponge_of g') → w v = poseidon_hash xs.
Proof.
  intros Ea Es. pose proof (sponge_hash_new xs) as E. rewrite <-compute_poseidon_hash_spec, <-poseidon_hash_eq in E.
  unfold sponge_hash in E. rewrite <-hasher_new_sponge, Ea in E.
  cbn [mbind option_bind] in E. rewrite Es in E. by injection E.
Qed.

(** The hash gadget computes the native hash. *)
Lemma hash_gadget_spec xs :
  wp h w (hash_gadget hasher_new xs) (λ v, w v = poseidon_hash (w <$> xs)).
Proof.
  unfold hash_gadget. step batch_absorb_spec; [apply hasher_new_ok|].
  intros g (Hg & Hs & Ea). step squeeze_gadget_spec. intros [v g'] [_ Es]. apply wp_ret.
  by eapply squeezed_value.
Qed.

Lemma hash_constrained_spec xs out :
  (h → w out = poseidon_hash (w <$> xs)) →
  wp h w (hash_constrained hasher_new xs out) (λ _, w out = poseidon_hash (w <$> xs)).
Proof.
  intros Hout. unfold hash_constrained. step batch_absorb_spec; [apply hasher_new_ok|].
  intros g (Hg & Hs & Ea). unfold constrained_squeeze.
  apply wp_bind. step squeeze_gadget_spec. intros [v g'] [_ Es].
  pose proof (squeezed_value _ _ _ _ Ea Es) as Ev.
  step (enforce_equal_law h); [intros Hh; rewrite Ev; by apply Hout|].
  intros _ E. do 2 apply wp_ret. by rewrite E.
Qed.

Lemma leaf_hash_spec xs :
  wp h w (leaf_hash xs) (λ v, w v = poseidon_hash (w <$> xs)).
Proof. apply hash_gadget_spec. Qed.
Lemma hash_internal_nodes_spec a b :
  wp h w (hash_internal_nodes a b) (λ v, w v = H2 (w a) (w b)).
Proof. apply (hash_gadget_spec [a; b]). Qed.

(** [sample] iterates the hash from its seed. *)
Fixpoint iterate_hash (s : Scalar) (n : nat) {struct n} : list Scalar :=
  match n with
  | O => []
  | S n' => let x := poseidon_hash [s] in x :: iterate_hash x n'
  end.

Lemma sample_spec s n :
  wp h w (sample hasher_new s n) (λ vs, w <$> vs = iterate_hash (w s) n).
Proof.
  revert s. induction n as [|n IH]; intros s; [by apply wp_ret|]. cbn [sample].
  step absorb_gadget_spec; [apply hasher_new_ok|]. intros g [Hg Ea].
  step squeeze_gadget_spec. intros [v g'] [_ Es].
  step IH. intros vs Evs. apply wp_ret.
  assert (w v = poseidon_hash [w s]) as Ev.
  { eapply squeezed_value; [|exact Es]. by rewrite absorb_batch_cons, Ea. }
  rewrite fmap_cons, Evs, Ev. reflexivity.
Qed.

(** *** Merkle openings *)

Lemma select_left_right_spec cur sis lr :
  is_bit (w lr) →
  wp h w (select_left_right cur sis lr)
    (λ '(l, r), (w l, w r) = pair_inputs (w lr =? 1) (w cur) (w sis)).
Proof.
  intros Hb. unfold select_left_right. step mux_law. intros l Hl.
  step lc_law. intros r Hr. apply wp_ret. rewrite Hr, Hl.
  cbn [fmap list_fmap]. rewrite (assigned_zero _ W), Hl.
  unfold dot. cbn [zip zip_with foldr fst snd]. destruct (w lr =? 1); unfold pair_inputs; f_equal.
  - rewrite <-(scalar_from_id (w cur)) at 2 by apply W. field_mod.
  - rewrite <-(scalar_from_id (w sis)) at 2 by apply W. field_mod.
Qed.

(** The path that the values of an opening stand for. *)
Definition opening_path {n} (o : MerkleOpeningVar n Scalar) : list (Scalar * bool) :=
  zip (vec_to_list (mov_elems o)) ((λ i, i =? 1) <$> vec_to_list (mov_indices o)).

Lemma compute_root_prehashed_spec {n} leaf (o : MerkleOpeningVar n N) :
  Forall (λ i, is_bit (w i)) (bools o) →
  wp h w (compute_root_prehashed leaf o) (λ r, w r = opening_root (w leaf) (opening_path (cmap w o))).
Proof.
  destruct o as [es ixs]. unfold opening_path, compute_root_prehashed.
  cbn [mov_elems mov_indices bools opening_witness]. simpl cmap. cbn [mov_elems mov_indices].
  rewrite !vec_to_list_map, <-list_fmap_compose. generalize (vec_to_list es), (vec_to_list ixs).
  clear es ixs. intros es ixs Hb. revert leaf es. induction Hb as [|i ixs Hi Hb IH]; intros leaf es.
  { destruct es; by apply wp_ret. }
  destruct es as [|e es]; [by apply wp_ret|]. cbn [zip zip_with fold_c]. apply wp_bind.
  step select_left_right_spec. intros [l r] Elr.
  eapply wp_mono; [apply hash_internal_nodes_spec|]. intros v Hv.
  eapply wp_mono; [apply IH|]. intros root Hroot. rewrite Hroot, !fmap_cons.
  unfold opening_root. cbn [zip zip_with foldl]. rewrite Hv. apply (f_equal (λ a, foldl _ a _)).
  unfold compose, hash_pair, pair_inputs in *. by destruct (w i =? 1); injection Elr as -> ->.
Qed.

Lemma compute_and_constrain_root_prehashed_spec {n} leaf (o : MerkleOpeningVar n N) root :
  Forall (λ i, is_bit (w i)) (bools o) →
  (h → w root = opening_root (w leaf) (opening_path (cmap w o))) →
  wp h w (compute_and_constrain_root_prehashed leaf o root)
    (λ _, w root = opening_root (w leaf) (opening_path (cmap w o))).
Proof.
  intros Hb Hr. unfold compute_and_constrain_root_prehashed.
  step compute_root_prehashed_spec. intros r Er. rewrite <-Er in Hr |- *.
  by apply enforce_equal_law.
Qed.

Lemma compute_and_constrain_root_spec {n} leaf (o : MerkleOpeningVar n N) root :
  Forall (λ i, is_bit (w i)) (bools o) →
  (h → w root = opening_root (poseidon_hash (w <$> leaf)) (opening_path (cmap w o))) →
  wp h w (compute_and_constrain_root leaf o root)
    (λ _, w root = opening_root (poseidon_hash (w <$> leaf)) (opening_path (cmap w o))).
Proof.
  intros Hb Hr. unfold compute_and_constrain_root, compute_root_gadget. apply wp_bind.
  step leaf_hash_spec. intros l El. rewrite <-El in Hr |- *.
  eapply wp_mono; [by apply compute_root_prehashed_spec|]. intros r Er.
  rewrite <-Er in Hr |- *. by apply enforce_equal_law.
Qed.
End Specs.

(** The constants of a system, and zeros *)
Definition constants_only : N → Z := λ v, if (v =? 1)%N then 1 else 0.

(** C31: the hash gadgets compute the native hash, in every constraint system with the
    documented gates: [hash] gives the native Poseidon2 digest of the values of its inputs,
    [sample] iterates it, and the Merkle gadget accepts a root exactly when it is the root
    that the native path computation gives for the hashed leaf. *)
Theorem hash_gadgets_native {Cs : PlonkCircuit} {Laws : PlonkCircuitLaws} (h : Prop) (w : N → Z) :
  assignment w →
  (∀ inputs, wp h w (hash_gadget hasher_new inputs) (λ v, w v = poseidon_hash (w <$> inputs))) ∧
  (∀ seed k, wp h w (sample hasher_new seed k) (λ vs, w <$> vs = iterate_hash (w seed) k)) ∧
  (∀ n leaf (o : MerkleOpeningVar n N) root,
     let r := opening_root (poseidon_hash (w <$> leaf)) (opening_path (cmap w o)) in
     Forall (λ i, is_bit (w i)) (bools o) → (h → w root = r) →
     wp h w (compute_and_constrain_root leaf o root) (λ _, w root = r)).
Proof.
  intros W. split_and!.
  - intros inputs. by apply hash_gadget_spec.
  - intros seed k. by apply sample_spec.
  - intros n leaf o root r Hb Hr. by apply compute_and_constrain_root_spec.
Qed.

Lemma hash_gadgets_native_witness :
  @wp N True constants_only (@hash_gadget reference_plonk (@hasher_new reference_plonk) [1%N; 0%N])
    (λ v, constants_only v = poseidon_hash (constants_only <$> [1%N; 0%N])).
Proof.
  apply (@hash_gadgets_native reference_plonk reference_laws True constants_only).
  split; [|done..]. intros v. unfold constants_only, is_scalar. destruct (v =? 1)%N; by vm_compute.
Defined.
#[global] Opaque permute.
