(* ===== verification/StateGadgets.v ===== *)
(** * State gadgets

    src/crates/circuits/circuits-core/src/zk_gadgets/state_primitives/{csprng,
    stream_cipher,shares,commitment,nullifier,recovery_id,state_rotation}.rs and
    state_gadgets/{fee,note}.rs: the gadgets with which the circuits recompute, inside
    the constraint system, what the native state wrapper computes (StateWrapper.v).

    Each gadget that the code writes for an abstract state element is polymorphic here in
    the type [F] of the element.  The specification of a gadget names the function it
    computes on the values of its variables (the [v_] functions below); NativeAgreement.v
    identifies those functions, on the values of native data, with the native
    operations. *)
From S2P Require Import Prelude Scalar FixedPoint BaseType DarkpoolTypes Poseidon2 StateWrapper.
From S2P Require Import Merkle Circuit CircuitTypes Gadgets PoseidonGadget.
Local Open Scope Z_scope.

(** ** Arguments of a rotation (state_rotation.rs) *)

Record StateElementRotationArgs (F : Type → Type) (n : nat) := mkRotationArgs {
  ra_old_version : StateWrapperVar F Var;
  ra_old_private_share : F Var;
  ra_old_opening : MerkleOpeningVar n Var;
  ra_merkle_root : Var;
  ra_nullifier : Var;
  ra_new_version : StateWrapperVar F Var;
  ra_new_private_share : F Var;
  ra_new_commitment : Var;
  ra_recovery_id : Var;
}.
Arguments mkRotationArgs {F n} _ _ _ _ _ _ _ _ _.
Arguments ra_old_version {F n} _.
Arguments ra_old_private_share {F n} _.
Arguments ra_old_opening {F n} _.
Arguments ra_merkle_root {F n} _.
Arguments ra_nullifier {F n} _.
Arguments ra_new_version {F n} _.
Arguments ra_new_private_share {F n} _.
Arguments ra_new_commitment {F n} _.
Arguments ra_recovery_id {F n} _.

Record StateElementRotationArgsWithPartialCommitment (F : Type → Type) (n : nat) := mkPartialRotationArgs {
  pa_old_version : StateWrapperVar F Var;
  pa_old_private_share : F Var;
  pa_old_opening : MerkleOpeningVar n Var;
  pa_merkle_root : Var;
  pa_nullifier : Var;
  pa_new_version : StateWrapperVar F Var;
  pa_new_private_share : F Var;
  pa_new_partial_commitment : PartialCommitmentVar Var;
  pa_recovery_id : Var;
}.
Arguments mkPartialRotationArgs {F n} _ _ _ _ _ _ _ _ _.
Arguments pa_old_version {F n} _.
Arguments pa_old_private_share {F n} _.
Arguments pa_old_opening {F n} _.
Arguments pa_merkle_root {F n} _.
Arguments pa_nullifier {F n} _.
Arguments pa_new_version {F n} _.
Arguments pa_new_private_share {F n} _.
Arguments pa_new_partial_commitment {F n} _.
Arguments pa_recovery_id {F n} _.

Section Gadgets.
Context `{PlonkCircuit}.

(** ** CSPRNG (csprng.rs) *)

Definition get_ith_gadget (csprng_state : PoseidonCSPRNGVar Var) (i : Var) : Circuit Var :=
  hash_gadget hasher_new [csv_seed csprng_state; i].

Definition csprng_next_gadget (csprng_state : PoseidonCSPRNGVar Var)
    : Circuit (Var * PoseidonCSPRNGVar Var) :=
  next_value ← hash_gadget hasher_new [csv_seed csprng_state; csv_index csprng_state];
  index ← cs_add (csv_index csprng_state) cs_one;
  mret (next_value, mkCSPRNGVar (csv_seed csprng_state) index).

Fixpoint next_k (csprng_state : PoseidonCSPRNGVar Var) (k : nat)
    : Circuit (list Var * PoseidonCSPRNGVar Var) :=
  match k with
  | O => mret ([], csprng_state)
  | S k' =>
      '(x, csprng_state) ← csprng_next_gadget csprng_state;
      '(xs, csprng_state) ← next_k csprng_state k';
      mret (x :: xs, csprng_state)
  end.

(** ** Stream cipher (stream_cipher.rs): private share, public share, new state *)

Definition encrypt `{CircuitType F} (value : F Var) (csprng_state : PoseidonCSPRNGVar Var)
    : Circuit (F Var * F Var * PoseidonCSPRNGVar Var) :=
  let value_vars := to_vars value in
  '(pads, csprng_state) ← next_k csprng_state (length value_vars);
  ciphertexts ← map_c (λ '(value, pad), cs_sub value pad) (zip value_vars pads);
  private_share ← from_vars (F:=F) pads;
  public_share ← from_vars (F:=F) ciphertexts;
  mret (private_share, public_share, csprng_state).

(** ** Shares (shares.rs) *)

Definition recover_base `{CircuitType F} (private_share public_share : F Var)
    : Circuit (F Var) :=
  base_vars ← map_c (λ '(p, s), cs_add p s) (zip (to_vars public_share) (to_vars private_share));
  from_vars (F:=F) base_vars.

Definition compute_complementary_shares `{CircuitType F} (shares base : F Var)
    : Circuit (F Var) :=
  complementary ← map_c (λ '(b, s), cs_sub b s) (zip (to_vars base) (to_vars shares));
  from_vars (F:=F) complementary.

(** ** Commitments (commitment.rs) *)

(** The comparison is between variables, not between their values. *)
Fixpoint shared_prefix_loop (vars1 vars2 : list Var) : nat :=
  match vars1, vars2 with
  | v1 :: l1, v2 :: l2 => if (v1 =? v2)%N then S (shared_prefix_loop l1 l2) else O
  | _, _ => O
  end.
Definition determine_shared_prefix_length `{CircuitType F} (share1 share2 : F Var)
    : Circuit nat :=
  assert (length (to_vars share1) =? length (to_vars share2))%nat;;
  mret (shared_prefix_loop (to_vars share1) (to_vars share2)).

Definition compute_resumable_commitment (values : list Var) : Circuit Var :=
  comm ← unwrap_c (head values);
  fold_c (λ comm value, hash_gadget hasher_new [comm; value]) comm (tail values).

Definition compute_private_commitment_gadget `{CircuitType F} (private_share : F Var)
    (element : StateWrapperVar F Var) : Circuit Var :=
  hasher ← batch_absorb hasher_new (to_vars private_share);
  hasher ← batch_absorb hasher (to_vars (swv_recovery_stream element));
  hasher ← batch_absorb hasher (to_vars (swv_share_stream element));
  '(res, _) ← squeeze_gadget hasher;
  mret res.

Definition compute_commitment_from_private_gadget `{CircuitType F} (private_commitment : Var)
    (public_share : F Var) : Circuit Var :=
  public_commitment ← compute_resumable_commitment (to_vars public_share);
  hash_gadget hasher_new [private_commitment; public_commitment].

Definition compute_commitment_gadget `{CircuitType F} (element : StateWrapperVar F Var)
    (private_share : F Var) : Circuit Var :=
  private_commitment ← compute_private_commitment_gadget private_share element;
  compute_commitment_from_private_gadget private_commitment (swv_public_share element).

Definition compute_partial_public_commitment_gadget `{CircuitType F} (num_shares : nat)
    (public_shares : F Var) : Circuit Var :=
  assert (num_shares <=? length (to_vars public_shares))%nat;;
  compute_resumable_commitment (take num_shares (to_vars public_shares)).

Definition compute_partial_commitment_gadget `{CircuitType F} (num_public_shares : nat)
    (private_share : F Var) (element : StateWrapperVar F Var)
    : Circuit (PartialCommitmentVar Var) :=
  private_commitment ← compute_private_commitment_gadget private_share element;
  partial_public_commitment ←
    compute_partial_public_commitment_gadget num_public_shares (swv_public_share element);
  mret (mkPartialCommitmentVar private_commitment partial_public_commitment).

(** The last part of a private commitment, from a hasher that has absorbed a prefix. *)
Definition finish_private_commitment `{CircuitType F} (hasher : PoseidonHashGadget)
    (non_prefix : list Var) (elt : StateWrapperVar F Var) : Circuit Var :=
  hasher1 ← batch_absorb hasher non_prefix;
  hasher1 ← batch_absorb hasher1 (to_vars (swv_recovery_stream elt));
  hasher1 ← batch_absorb hasher1 (to_vars (swv_share_stream elt));
  '(comm, _) ← squeeze_gadget hasher1;
  mret comm.

Definition compute_private_commitments_with_shared_prefix `{CircuitType F}
    (private_share_1 private_share_2 : F Var) (elt1 elt2 : StateWrapperVar F Var)
    : Circuit (Var * Var) :=
  prefix_length ← determine_shared_prefix_length private_share_1 private_share_2;
  let share1_vars := to_vars private_share_1 in
  let share2_vars := to_vars private_share_2 in
  hasher ← batch_absorb hasher_new (take prefix_length share1_vars);
  comm1 ← finish_private_commitment hasher (drop prefix_length share1_vars) elt1;
  comm2 ← finish_private_commitment hasher (drop prefix_length share2_vars) elt2;
  mret (comm1, comm2).

(** The resumable commitments to two lists of shares that start with the same
    [prefix_length] variables. *)
Definition commitments_after_prefix (prefix_length : nat) (share1_vars share2_vars : list Var)
    : Circuit (Var * Var) :=
  prefix ←
    (if (0 <? prefix_length)%nat then
       partial_comm ← compute_resumable_commitment (take prefix_length share1_vars);
       mret [partial_comm]
     else mret []);
  comm1 ← compute_resumable_commitment (prefix ++ drop prefix_length share1_vars);
  comm2 ← compute_resumable_commitment (prefix ++ drop prefix_length share2_vars);
  mret (comm1, comm2).

Definition compute_public_commitments_with_shared_prefix `{CircuitType F}
    (public_share_1 public_share_2 : F Var) : Circuit (Var * Var) :=
  prefix_length ← determine_shared_prefix_length public_share_1 public_share_2;
  commitments_after_prefix prefix_length (to_vars public_share_1) (to_vars public_share_2).

Definition compute_commitments_with_shared_prefix `{CircuitType F} (private_share1 : F Var)
    (element1 : StateWrapperVar F Var) (private_share2 : F Var)
    (element2 : StateWrapperVar F Var) : Circuit (Var * Var) :=
  '(private_comm1, private_comm2) ←
    compute_private_commitments_with_shared_prefix private_share1 private_share2 element1 element2;
  '(public_comm1, public_comm2) ←
    compute_public_commitments_with_shared_prefix (swv_public_share element1)
      (swv_public_share element2);
  full_comm1 ← hash_gadget hasher_new [private_comm1; public_comm1];
  full_comm2 ← hash_gadget hasher_new [private_comm2; public_comm2];
  mret (full_comm1, full_comm2).

Definition compute_public_partial_commitments_with_shared_prefix `{CircuitType F}
    (num_shares : nat) (public_share_1 public_share_2 : F Var) : Circuit (Var * Var) :=
  assert (num_shares <=? NUM (F:=F))%nat;;
  prefix_length ← determine_shared_prefix_length public_share_1 public_share_2;
  let prefix_length := Nat.min prefix_length num_shares in
  commitments_after_prefix prefix_length (to_vars public_share_1)
    (take num_shares (to_vars public_share_2)).

Definition compute_partial_commitments_with_shared_prefix `{CircuitType F} (num_shares : nat)
    (private_share_1 : F Var) (element1 : StateWrapperVar F Var) (private_share_2 : F Var)
    (element2 : StateWrapperVar F Var) : Circuit (Var * PartialCommitmentVar Var) :=
  '(private_comm1, private_comm2) ←
    compute_private_commitments_with_shared_prefix private_share_1 private_share_2 element1 element2;
  '(public_comm1, public_comm2) ←
    compute_public_partial_commitments_with_shared_prefix num_shares
      (swv_public_share element1) (swv_public_share element2);
  full_comm ← hash_gadget hasher_new [private_comm1; public_comm1];
  mret (full_comm, mkPartialCommitmentVar private_comm2 public_comm2).

(** ** Nullifiers and recovery identifiers (nullifier.rs, recovery_id.rs) *)

Definition compute_nullifier_gadget {F} (element : StateWrapperVar F Var) : Circuit Var :=
  constrain_not_equal (F:=Id) (csv_index (swv_recovery_stream element)) cs_zero;;
  last_idx ← cs_sub (csv_index (swv_recovery_stream element)) cs_one;
  recovery_id ← get_ith_gadget (swv_recovery_stream element) last_idx;
  hash_gadget hasher_new [recovery_id; csv_seed (swv_recovery_stream element)].

Definition compute_recovery_id_gadget {F} (element : StateWrapperVar F Var)
    : Circuit (Var * StateWrapperVar F Var) :=
  '(recovery_id, recovery_stream) ← csprng_next_gadget (swv_recovery_stream element);
  mret (recovery_id,
        mkWrapperVar recovery_stream (swv_share_stream element) (swv_inner element)
          (swv_public_share element)).

(** ** State rotation (state_rotation.rs) *)

(** The new version is returned with its recovery stream advanced: the source mutates
    it in the arguments. *)
Definition rotate_version `{CircuitType F} {n} (args : StateElementRotationArgs F n)
    : Circuit (StateWrapperVar F Var) :=
  '(new_recovery_id, new_version) ← compute_recovery_id_gadget (ra_new_version args);
  cs_enforce_equal new_recovery_id (ra_recovery_id args);;
  '(old_commitment, new_commitment) ←
    compute_commitments_with_shared_prefix (ra_old_private_share args) (ra_old_version args)
      (ra_new_private_share args) new_version;
  cs_enforce_equal new_commitment (ra_new_commitment args);;
  compute_and_constrain_root_prehashed old_commitment (ra_old_opening args) (ra_merkle_root args);;
  old_nullifier ← compute_nullifier_gadget (ra_old_version args);
  cs_enforce_equal old_nullifier (ra_nullifier args);;
  mret new_version.

Definition rotate_version_with_partial_commitment `{CircuitType F} (num_shares : nat)
    {n} (args : StateElementRotationArgsWithPartialCommitment F n) : Circuit (StateWrapperVar F Var) :=
  '(new_recovery_id, new_version) ← compute_recovery_id_gadget (pa_new_version args);
  cs_enforce_equal new_recovery_id (pa_recovery_id args);;
  '(old_commitment, new_partial_commitment) ←
    compute_partial_commitments_with_shared_prefix num_shares (pa_old_private_share args)
      (pa_old_version args) (pa_new_private_share args) new_version;
  constrain_eq new_partial_commitment (pa_new_partial_commitment args);;
  compute_and_constrain_root_prehashed old_commitment (pa_old_opening args) (pa_merkle_root args);;
  old_nullifier ← compute_nullifier_gadget (pa_old_version args);
  cs_enforce_equal old_nullifier (pa_nullifier args);;
  mret new_version.

(** ** Fees (fee.rs) *)

Definition compute_fee_take (receive_amount : Var) (fee_rates : FeeRatesVar Var)
    : Circuit (FeeTakeVar Var) :=
  relayer_fee_fp ← mul_integer (frv_relayer_fee_rate fee_rates) receive_amount;
  protocol_fee_fp ← mul_integer (frv_protocol_fee_rate fee_rates) receive_amount;
  relayer_fee ← floor_gadget relayer_fee_fp;
  protocol_fee ← floor_gadget protocol_fee_fp;
  mret (mkFeeTakeVar relayer_fee protocol_fee).

Definition total_fee (fee_take : FeeTakeVar Var) : Circuit Var :=
  cs_add (ftv_relayer_fee fee_take) (ftv_protocol_fee fee_take).

(** ** Notes (note.rs) *)

Definition compute_note_commitment (note : NoteVar Var) : Circuit Var :=
  hash_gadget hasher_new (to_vars note).
Definition compute_note_nullifier (note_comm note_blinder : Var) : Circuit Var :=
  hash_gadget hasher_new [note_comm; note_blinder].
Definition verify_note_commitment (note : NoteVar Var) (expected_commitment : Var)
    : Circuit unit :=
  comm ← compute_note_commitment note;
  constrain_eq (F:=Id) comm expected_commitment.
Definition verify_note_nullifier (note_comm note_blinder expected_nullifier : Var)
    : Circuit unit :=
  nullifier ← compute_note_nullifier note_comm note_blinder;
  constrain_eq (F:=Id) nullifier expected_nullifier.
End Gadgets.

(** Shares of a part of an element (shares.rs) *)

Definition build_pre_match_intent_share {A} (s : IntentVar A) : PreMatchIntentVar A :=
  mkPreMatchIntentVar (iv_in_token s) (iv_out_token s) (iv_owner s) (iv_min_price s).
Definition build_pre_match_balance_share {A} (s : DarkpoolBalanceVar A) : PreMatchBalanceVar A :=
  mkPreMatchBalanceVar (bv_mint s) (bv_owner s) (bv_relayer_fee_recipient s) (bv_authority s).
Definition build_post_match_balance {A} (s : DarkpoolBalanceVar A) : PostMatchBalanceVar A :=
  mkPostMatchBalanceVar (bv_relayer_fee_balance s) (bv_protocol_fee_balance s) (bv_amount s).
Definition update_balance_share_post_match {A} (s : DarkpoolBalanceVar A)
    (post : PostMatchBalanceVar A) : DarkpoolBalanceVar A :=
  mkBalanceVar (bv_mint s) (bv_owner s) (bv_relayer_fee_recipient s) (bv_authority s)
    (qbv_relayer_fee_balance post) (qbv_protocol_fee_balance post) (qbv_amount post).

(** ** What the gadgets compute on values *)

(** A struct with the fields in [l]; it has [NUM] of them. *)
Definition refill `{CircuitType F} {A} (x : F A) (l : list A) : F A :=
  match unflat (F:=F) l with Some (y, _) => y | None => x end.
Definition cmap2 `{CircuitType F} {A} (f : A → A → A) (x y : F A) : F A :=
  refill x (zip_with f (flat x) (flat y)).

Lemma refill_flat `{CircuitTypeLaws F} {A} (x : F A) l :
  length l = NUM (F:=F) → flat (refill x l) = l.
Proof.
  intros Hl. unfold refill. destruct (unflat_total (F:=F) l) as [[y rest] E]; [lia|].
  rewrite E. simpl. apply unflat_spec in E. apply (f_equal length) in E as El.
  rewrite length_app, flat_length in El. destruct rest; simpl in El; [|lia].
  by rewrite E, app_nil_r.
Qed.
Lemma cmap2_flat `{CircuitTypeLaws F} {A} f (x y : F A) :
  flat (cmap2 f x y) = zip_with f (flat x) (flat y).
Proof. apply refill_flat. rewrite length_zip_with, !flat_length. lia. Qed.

Definition v_advance (c : PoseidonCSPRNGVar Scalar) (n : nat) : PoseidonCSPRNGVar Scalar :=
  mkCSPRNGVar (csv_seed c) (scalar_add (csv_index c) (Z.of_nat n)).
Definition v_get_ith (c : PoseidonCSPRNGVar Scalar) (i : Scalar) : Scalar :=
  poseidon_hash [csv_seed c; i].
Definition v_pads (c : PoseidonCSPRNGVar Scalar) (n : nat) : list Scalar :=
  (λ k : nat, v_get_ith c (scalar_add (csv_index c) (Z.of_nat k))) <$> seq 0 n.

(** The pads as the private share of a value, and its public share. *)
Definition v_private_share `{CircuitType F} (value : F Scalar) (c : PoseidonCSPRNGVar Scalar)
    : F Scalar :=
  refill value (v_pads c (NUM (F:=F))).
Definition v_public_share `{CircuitType F} (value : F Scalar) (c : PoseidonCSPRNGVar Scalar)
    : F Scalar :=
  cmap2 scalar_sub value (v_private_share value c).

Definition v_resumable (values : list Scalar) : Scalar :=
  match values with [] => 0 | x :: l => foldl H2 x l end.
Definition v_private_commitment `{CircuitType F} (private_share : F Scalar)
    (e : StateWrapperVar F Scalar) : Scalar :=
  poseidon_hash
    (flat private_share ++ flat (swv_recovery_stream e) ++ flat (swv_share_stream e)).
Definition v_commitment `{CircuitType F} (private_share : F Scalar)
    (e : StateWrapperVar F Scalar) : Scalar :=
  H2 (v_private_commitment private_share e) (v_resumable (flat (swv_public_share e))).
Definition v_partial_commitment `{CircuitType F} (n : nat) (private_share : F Scalar)
    (e : StateWrapperVar F Scalar) : PartialCommitmentVar Scalar :=
  mkPartialCommitmentVar (v_private_commitment private_share e)
    (v_resumable (take n (flat (swv_public_share e)))).

Definition v_nullifier {F} (e : StateWrapperVar F Scalar) : Scalar :=
  let c := swv_recovery_stream e in
  H2 (v_get_ith c (scalar_sub (csv_index c) 1)) (csv_seed c).
Definition v_recovery_id {F} (e : StateWrapperVar F Scalar) : Scalar :=
  v_get_ith (swv_recovery_stream e) (csv_index (swv_recovery_stream e)).
Definition v_advance_recovery {F} (e : StateWrapperVar F Scalar) : StateWrapperVar F Scalar :=
  mkWrapperVar (v_advance (swv_recovery_stream e) 1) (swv_share_stream e) (swv_inner e)
    (swv_public_share e).

Definition v_note_commitment (n : NoteVar Scalar) : Scalar := poseidon_hash (flat n).
Definition v_note_nullifier (n : NoteVar Scalar) : Scalar :=
  H2 (v_note_commitment n) (nv_blinder n).

(** The private shares of an element: what its public shares leave to its value. *)
Definition v_complement `{CircuitType F} (e : StateWrapperVar F Scalar) : F Scalar :=
  cmap2 scalar_sub (swv_inner e) (swv_public_share e).

(** What a rotation proves: the old version opens to the root and has the nullifier;
    the recovery identifier is that of the new version, which is committed with its
    recovery stream advanced. *)
Record opens_to {F} `{CircuitType F} {n} (old : StateWrapperVar F Scalar)
    (old_private : F Scalar) (opening : MerkleOpeningVar n Scalar) (root nullifier : Scalar)
    : Prop := {
  opens_root : root = opening_root (v_commitment old_private old) (opening_path opening);
  opens_index : csv_index (swv_recovery_stream old) ≠ 0;
  opens_nullifier : nullifier = v_nullifier old;
}.
Record creates {F} `{CircuitType F} (new : StateWrapperVar F Scalar) (new_private : F Scalar)
    (commitment recovery_id : Scalar) : Prop := {
  creates_recovery_id : recovery_id = v_recovery_id new;
  creates_commitment : commitment = v_commitment new_private (v_advance_recovery new);
}.
Record creates_partial {F} `{CircuitType F} (k : nat) (new : StateWrapperVar F Scalar)
    (new_private : F Scalar) (commitment : PartialCommitmentVar Scalar) (recovery_id : Scalar)
    : Prop := {
  partial_recovery_id : recovery_id = v_recovery_id new;
  partial_commitment : commitment = v_partial_commitment k new_private (v_advance_recovery new);
}.

(** ** Specifications *)

Lemma v_resumable_app l1 l2 :
  l1 ≠ [] → v_resumable (v_resumable l1 :: l2) = v_resumable (l1 ++ l2).
Proof. destruct l1 as [|x l1]; [done|]. intros _. cbn [v_resumable app]. by rewrite foldl_app. Qed.

Lemma shared_prefix_eq (l1 l2 : list N) :
  take (shared_prefix_loop l1 l2) l1 = take (shared_prefix_loop l1 l2) l2.
Proof.
  revert l2. induction l1 as [|x l1 IH]; intros [|y l2]; [done..|]. simpl.
  destruct (N.eqb_spec x y) as [->|]; simpl; [by f_equal|done].
Qed.
Lemma shared_prefix_le (l1 l2 : list N) : (shared_prefix_loop l1 l2 ≤ length l1)%nat.
Proof.
  revert l2. induction l1 as [|x l1 IH]; intros [|y l2]; simpl; [lia..|].
  destruct (x =? y)%N; [|lia]. specialize (IH l2). lia.
Qed.

Lemma absorb_batch_app s xs ys s' :
  absorb_batch s xs = Some s' → absorb_batch s (xs ++ ys) = absorb_batch s' ys.
Proof.
  revert s. induction xs as [|x xs IH]; intros s; cbn [app].
  - by intros [= <-].
  - rewrite !absorb_batch_cons. destruct (absorb s x) as [s1|]; cbn [mbind option_bind]; [|done].
    apply IH.
Qed.

Lemma v_pads_length c n : length (v_pads c n) = n.
Proof. unfold v_pads. by rewrite length_fmap, length_seq. Qed.

Section Specs.
Context {Cs : PlonkCircuit} {Laws : PlonkCircuitLaws} {h : Prop} {w : N → Z} (W : assignment w).

Lemma get_ith_gadget_spec c i :
  wp h w (get_ith_gadget c i) (λ v, w v = v_get_ith (cmap w c) (w i)).
Proof. apply (hash_gadget_spec W [csv_seed c; i]). Qed.

Lemma csprng_next_gadget_spec c :
  wp h w (csprng_next_gadget c)
    (λ '(v, c'), w v = v_get_ith (cmap w c) (w (csv_index c)) ∧ cmap w c' = v_advance (cmap w c) 1).
Proof.
  unfold csprng_next_gadget. step (hash_gadget_spec W). intros v Hv.
  step add_law. intros i Hi. apply wp_ret. split; [exact Hv|].
  rewrite (assigned_one w W) in Hi. simpl. by rewrite Hi.
Qed.

Lemma v_pads_cons c n :
  is_scalar (csv_index c) →
  v_pads c (S n) = v_get_ith c (csv_index c) :: v_pads (v_advance c 1) n.
Proof.
  intros Hc. unfold v_pads. cbn [seq]. rewrite fmap_cons. apply (f_equal2 cons).
  - unfold scalar_add. by rewrite Z.add_0_r, Z.mod_small.
  - rewrite <-fmap_S_seq, <-list_fmap_compose. apply list_fmap_ext. intros k x _.
    cbv beta delta [compose]. unfold v_get_ith, v_advance. cbn [csv_seed csv_index].
    replace (scalar_add (scalar_add (csv_index c) (Z.of_nat 1)) (Z.of_nat x))
      with (scalar_add (csv_index c) (Z.of_nat (S x))); [done|].
    replace (Z.of_nat (S x)) with (1 + Z.of_nat x) by lia. field_mod.
Qed.

Lemma v_advance_1 c n : v_advance (v_advance c 1) n = v_advance c (S n).
Proof.
  unfold v_advance. cbn [csv_seed csv_index]. f_equal.
  replace (Z.of_nat (S n)) with (1 + Z.of_nat n) by lia. field_mod.
Qed.

Lemma next_k_spec c k :
  wp h w (next_k c k)
    (λ '(vs, c'), w <$> vs = v_pads (cmap w c) k ∧ cmap w c' = v_advance (cmap w c) k).
Proof.
  revert c. induction k as [|k IH]; intros c.
  { apply wp_ret. split; [done|]. destruct c as [s i]. unfold v_advance, scalar_add. simpl.
    by rewrite Z.add_0_r, Z.mod_small by apply W. }
  cbn [next_k]. step csprng_next_gadget_spec. intros [v c1] [Hv E1].
  step IH. intros [vs c2] [Hvs E2]. apply wp_ret. rewrite E1 in Hvs, E2. split.
  - rewrite v_pads_cons by apply W. by rewrite fmap_cons, Hv, Hvs.
  - by rewrite E2, v_advance_1.
Qed.

(** Two lists combined element by element with a gadget. *)
Lemma zip_map_spec (g : N → N → Circuit N) (f : Scalar → Scalar → Scalar) l1 l2 :
  (∀ a b, wp h w (g a b) (λ v, w v = f (w a) (w b))) →
  wp h w (map_c (λ '(a, b), g a b) (zip l1 l2))
    (λ vs, w <$> vs = zip_with f (w <$> l1) (w <$> l2)).
Proof.
  intros Hg. revert l2. induction l1 as [|a l1 IH]; intros [|b l2]; try by apply wp_ret.
  cbn [zip zip_with map_c]. step Hg. intros v Hv. step IH. intros vs Hvs. apply wp_ret.
  by rewrite !fmap_cons, Hv, Hvs.
Qed.

Lemma zip_fields_spec `{CircuitTypeLaws F} (g : N → N → Circuit N) f (x y : F N) :
  (∀ a b, wp h w (g a b) (λ v, w v = f (w a) (w b))) →
  wp h w (vs ← map_c (λ '(a, b), g a b) (zip (to_vars x) (to_vars y)); from_vars (F:=F) vs)
    (λ r, cmap w r = cmap2 f (cmap w x) (cmap w y)).
Proof.
  intros Hg. step zip_map_spec. intros vs Hvs.
  assert (length vs = NUM (F:=F)) as Hl.
  { rewrite <-(length_fmap w), Hvs, length_zip_with, !length_fmap. unfold to_vars.
    rewrite !flat_length. lia. }
  eapply wp_mono; [by apply from_vars_spec|]. intros r Hr. apply flat_inj.
  by rewrite cmap2_flat, !flat_cmap, Hr.
Qed.

Lemma recover_base_spec `{CircuitTypeLaws F} (private_share public_share : F N) :
  wp h w (recover_base private_share public_share)
    (λ r, cmap w r = cmap2 scalar_add (cmap w public_share) (cmap w private_share)).
Proof. apply zip_fields_spec. intros. by apply add_law. Qed.

Lemma complementary_shares_spec `{CircuitTypeLaws F} (shares base : F N) :
  wp h w (compute_complementary_shares shares base)
    (λ r, cmap w r = cmap2 scalar_sub (cmap w base) (cmap w shares)).
Proof. apply zip_fields_spec. intros. by apply sub_law. Qed.

Lemma encrypt_spec `{CircuitTypeLaws F} (value : F N) c :
  wp h w (encrypt value c)
    (λ '(private_share, public_share, c'),
       cmap w private_share = v_private_share (cmap w value) (cmap w c) ∧
       cmap w public_share = v_public_share (cmap w value) (cmap w c) ∧
       cmap w c' = v_advance (cmap w c) (NUM (F:=F))).
Proof.
  unfold encrypt, to_vars. rewrite flat_length. step next_k_spec. intros [pads c'] [Hp Hc].
  assert (length pads = NUM (F:=F)) as Hl
    by by rewrite <-(length_fmap w), Hp, v_pads_length.
  step zip_map_spec; [intros; by apply sub_law|]. intros cts Hcts.
  step from_vars_spec. intros priv Hpriv. step from_vars_spec.
  { rewrite <-(length_fmap w), Hcts, length_zip_with, !length_fmap, Hl, flat_length. lia. }
  intros pub Hpub. apply wp_ret.
  assert (cmap w priv = v_private_share (cmap w value) (cmap w c)) as E1.
  { apply flat_inj. unfold v_private_share.
    by rewrite refill_flat, flat_cmap, Hpriv, Hp by apply v_pads_length. }
  split_and!; [done| |done]. apply flat_inj. unfold v_public_share.
  by rewrite <-E1, cmap2_flat, !flat_cmap, Hpub, Hcts, Hpriv.
Qed.

(** *** Commitments *)

Lemma resumable_spec l :
  l ≠ [] → wp h w (compute_resumable_commitment l) (λ v, w v = v_resumable (w <$> l)).
Proof.
  destruct l as [|x l]; [done|]. intros _. unfold compute_resumable_commitment.
  step wp_unwrap. intros ? [= <-]. cbn [tail]. rewrite fmap_cons. cbn [v_resumable].
  eapply wp_mono.
  - apply (wp_fold _ (λ v t, w v = t) (λ t x, H2 t (w x)) x (w x) l eq_refl).
    intros s t y _ <-. apply (hash_gadget_spec W [s; y]).
  - intros v ->. generalize (w x). induction l as [|y l IH]; intros t; [done|]. apply IH.
Qed.

Lemma finish_private_commitment_spec {F} `{CircuitTypeLaws F} g xs l (e : StateWrapperVar F N) :
  hasher_ok g → hg_in_squeeze_state g = false →
  absorb_batch (sponge_of (w:=w) hasher_new) xs = Some (sponge_of (w:=w) g) →
  wp h w (finish_private_commitment g l e)
    (λ v, w v = poseidon_hash (xs ++ (w <$> l) ++
       (w <$> to_vars (swv_recovery_stream e)) ++ (w <$> to_vars (swv_share_stream e)))).
Proof.
  intros Hg Hs Ha. unfold finish_private_commitment.
  step (batch_absorb_spec W). intros g1 (H1 & S1 & A1).
  step (batch_absorb_spec W). intros g2 (H2 & S2 & A2).
  step (batch_absorb_spec W). intros g3 (H3 & S3 & A3).
  step (squeeze_gadget_spec W). intros [v g4] [_ Es]. apply wp_ret.
  eapply (squeezed_value W); [|exact Es].
  rewrite (absorb_batch_app _ _ _ _ Ha), (absorb_batch_app _ _ _ _ A1), (absorb_batch_app _ _ _ _ A2).
  exact A3.
Qed.

Lemma private_commitment_spec {F} `{CircuitTypeLaws F} (private_share : F N) e :
  wp h w (compute_private_commitment_gadget private_share e)
    (λ v, w v = v_private_commitment (cmap w private_share) (cmap w e)).
Proof.
  eapply wp_mono.
  - apply (finish_private_commitment_spec hasher_new [] (to_vars private_share) e);
      [apply hasher_new_ok|done..].
  - intros v ->. unfold v_private_commitment. by rewrite flat_cmap.
Qed.

Lemma commitment_from_private_spec {F} `{CircuitTypeLaws F} pc (public_share : F N) :
  NUM (F:=F) ≠ 0%nat →
  wp h w (compute_commitment_from_private_gadget pc public_share)
    (λ v, w v = H2 (w pc) (v_resumable (flat (cmap w public_share)))).
Proof.
  intros HN. unfold compute_commitment_from_private_gadget. step resumable_spec.
  { unfold to_vars. intros E. pose proof (flat_length public_share) as X. rewrite E in X.
    simpl in X. lia. }
  intros v Hv. eapply wp_mono; [apply (hash_gadget_spec W)|]. intros r ->.
  rewrite flat_cmap. cbn [fmap list_fmap]. by rewrite Hv.
Qed.

Lemma commitment_spec {F} `{CircuitTypeLaws F} (private_share : F N) e :
  NUM (F:=F) ≠ 0%nat →
  wp h w (compute_commitment_gadget e private_share)
    (λ v, w v = v_commitment (cmap w private_share) (cmap w e)).
Proof.
  intros HN. step private_commitment_spec. intros pc Hpc.
  eapply wp_mono; [by apply commitment_from_private_spec|]. intros v ->.
  by rewrite Hpc.
Qed.

Lemma partial_commitment_spec {F} `{CircuitTypeLaws F} n (private_share : F N) e :
  (0 < n ≤ NUM (F:=F))%nat →
  wp h w (compute_partial_commitment_gadget n private_share e)
    (λ p, cmap w p = v_partial_commitment n (cmap w private_share) (cmap w e)).
Proof.
  intros Hn. assert (∀ x : F N, length (to_vars x) = NUM (F:=F)) as Hl by apply flat_length.
  step private_commitment_spec. intros pc Hpc. unfold compute_partial_public_commitment_gadget.
  apply wp_bind. step wp_assert; [intros _; rewrite Hl; apply Nat.leb_le; lia|]. intros _ _.
  eapply wp_mono; [apply resumable_spec|].
  { intros E. apply (f_equal length) in E. rewrite length_take, Hl in E. simpl in E. lia. }
  intros p Hp. apply wp_ret. unfold v_partial_commitment. simpl. rewrite Hpc, Hp, flat_cmap.
  by rewrite fmap_take.
Qed.

(** Splitting off the shared prefix does not change the commitments. *)
Lemma prefix_spec {F} `{CircuitTypeLaws F} (s1 s2 : F N) :
  wp h w (determine_shared_prefix_length s1 s2)
    (λ n, (n ≤ NUM (F:=F))%nat ∧ take n (to_vars s1) = take n (to_vars s2)).
Proof.
  unfold determine_shared_prefix_length, to_vars.
  step wp_assert; [intros _; rewrite !flat_length; by apply Nat.eqb_eq|].
  intros _ _. apply wp_ret. split; [|apply shared_prefix_eq].
  rewrite <-(flat_length s1). apply shared_prefix_le.
Qed.

Lemma private_shared_prefix_spec {F} `{CircuitTypeLaws F} (p1 p2 : F N) e1 e2 :
  wp h w (compute_private_commitments_with_shared_prefix p1 p2 e1 e2)
    (λ '(c1, c2), w c1 = v_private_commitment (cmap w p1) (cmap w e1) ∧
                  w c2 = v_private_commitment (cmap w p2) (cmap w e2)).
Proof.
  unfold compute_private_commitments_with_shared_prefix. step prefix_spec. intros n [_ E].
  step (batch_absorb_spec W); [apply hasher_new_ok|]. intros g (Hg & Hs & Ha).
  step finish_private_commitment_spec. intros c1 H1.
  step finish_private_commitment_spec. intros c2 H2. apply wp_ret.
  rewrite H1, H2. unfold v_private_commitment. rewrite !app_assoc, <-!fmap_app.
  rewrite E at 2. by rewrite !take_drop, !flat_cmap, !fmap_app.
Qed.

Lemma after_prefix_spec n l1 l2 :
  l1 ≠ [] → l2 ≠ [] → take n l1 = take n l2 →
  wp h w (commitments_after_prefix n l1 l2)
    (λ '(c1, c2), w c1 = v_resumable (w <$> l1) ∧ w c2 = v_resumable (w <$> l2)).
Proof.
  intros H1 H2 E. unfold commitments_after_prefix. destruct n as [|n].
  - eapply wp_step; [by apply wp_ret; instantiate (1 := λ p, p = [])|]. intros p ->.
    rewrite !drop_0. cbn [app]. step resumable_spec. intros c1 E1.
    step resumable_spec. intros c2 E2. by apply wp_ret.
  - assert (take (S n) l1 ≠ []) as Hne by by destruct l1.
    eapply (wp_step _ _ (λ p, ∃ c, p = [c] ∧ w c = v_resumable (w <$> take (S n) l1))).
    { cbn [Nat.ltb Nat.leb]. step resumable_spec. intros c Hc. apply wp_ret. eauto. }
    intros p (c & -> & Hc). cbn [app].
    assert (∀ l, take (S n) l1 = take (S n) l →
      v_resumable (w <$> c :: drop (S n) l) = v_resumable (w <$> l)) as Hr.
    { intros l El. rewrite fmap_cons, Hc, v_resumable_app by (by destruct l1).
      by rewrite <-fmap_app, El, take_drop. }
    step resumable_spec. intros c1 E1. step resumable_spec. intros c2 E2. apply wp_ret.
    by rewrite E1, E2, !Hr.
Qed.

Lemma to_vars_nonempty {F} `{CircuitTypeLaws F} (x : F N) : NUM (F:=F) ≠ 0%nat → to_vars x ≠ [].
Proof. intros HN E. pose proof (flat_length x) as X. unfold to_vars in E. by rewrite E in X. Qed.

Lemma commitments_shared_prefix_spec {F} `{CircuitTypeLaws F} (p1 p2 : F N) e1 e2 :
  NUM (F:=F) ≠ 0%nat →
  wp h w (compute_commitments_with_shared_prefix p1 e1 p2 e2)
    (λ '(c1, c2), w c1 = v_commitment (cmap w p1) (cmap w e1) ∧
                  w c2 = v_commitment (cmap w p2) (cmap w e2)).
Proof.
  intros HN. unfold compute_commitments_with_shared_prefix.
  step private_shared_prefix_spec. intros [pc1 pc2] [P1 P2].
  unfold compute_public_commitments_with_shared_prefix. apply wp_bind.
  step prefix_spec. intros n [_ E].
  eapply wp_mono; [apply after_prefix_spec; [by apply to_vars_nonempty..|exact E]|].
  intros [q1 q2] [Q1 Q2]. step (hash_gadget_spec W). intros c1 H1.
  step (hash_gadget_spec W). intros c2 H2. apply wp_ret. rewrite H1, H2.
  cbn [fmap list_fmap]. rewrite P1, P2, Q1, Q2. unfold v_commitment, to_vars.
  simpl swv_public_share. by rewrite !flat_cmap.
Qed.

Lemma partial_shared_prefix_spec {F} `{CircuitTypeLaws F} n (p1 p2 : F N) e1 e2 :
  (0 < n ≤ NUM (F:=F))%nat →
  wp h w (compute_partial_commitments_with_shared_prefix n p1 e1 p2 e2)
    (λ '(c1, c2), w c1 = v_commitment (cmap w p1) (cmap w e1) ∧
                  cmap w c2 = v_partial_commitment n (cmap w p2) (cmap w e2)).
Proof.
  intros Hn. unfold compute_partial_commitments_with_shared_prefix.
  step private_shared_prefix_spec. intros [pc1 pc2] [P1 P2].
  unfold compute_public_partial_commitments_with_shared_prefix. apply wp_bind.
  step wp_assert; [intros _; apply Nat.leb_le; lia|]. intros _ _.
  step prefix_spec. intros k [_ E].
  eapply wp_mono; [apply after_prefix_spec|].
  - apply to_vars_nonempty. lia.
  - intros X. apply (f_equal length) in X. unfold to_vars in X.
    rewrite length_take, flat_length in X. simpl in X. lia.
  - rewrite take_take. apply (f_equal (take n)) in E. rewrite !take_take in E.
    rewrite (Nat.min_l (Nat.min k n) n) by lia. by rewrite (Nat.min_comm k n).
  - intros [q1 q2] [Q1 Q2]. step (hash_gadget_spec W). intros c1 H1. apply wp_ret. split.
    + rewrite H1. cbn [fmap list_fmap]. rewrite P1, Q1. unfold v_commitment, to_vars.
      simpl swv_public_share. by rewrite !flat_cmap.
    + unfold v_partial_commitment. simpl. by rewrite P2, Q2, fmap_take, flat_cmap.
Qed.

(** *** Nullifiers, recovery identifiers, rotation *)

Lemma nullifier_spec {F} `{CircuitTypeLaws F} (e : StateWrapperVar F N) :
  (h → w (csv_index (swv_recovery_stream e)) ≠ 0) →
  wp h w (compute_nullifier_gadget e)
    (λ v, w (csv_index (swv_recovery_stream e)) ≠ 0 ∧ w v = v_nullifier (cmap w e)).
Proof.
  intros Hi. unfold compute_nullifier_gadget. step (constrain_not_equal_spec W (F:=Id)).
  { intros Hh. simpl. rewrite (assigned_zero w W). by apply Hi. }
  intros [] Hne. simpl in Hne. rewrite (assigned_zero w W) in Hne.
  step sub_law. intros j Hj. rewrite (assigned_one w W) in Hj.
  step get_ith_gadget_spec. intros r Hr.
  eapply wp_mono; [apply (hash_gadget_spec W)|]. intros v ->. split; [done|].
  cbn [fmap list_fmap]. rewrite Hr, Hj. reflexivity.
Qed.

Lemma recovery_id_spec {F} `{CircuitTypeLaws F} (e : StateWrapperVar F N) :
  wp h w (compute_recovery_id_gadget e)
    (λ '(v, e'), w v = v_recovery_id (cmap w e) ∧ cmap w e' = v_advance_recovery (cmap w e)).
Proof.
  unfold compute_recovery_id_gadget. step csprng_next_gadget_spec.
  intros [v c] [Hv Hc]. apply wp_ret. split; [exact Hv|]. simpl in Hc |- *. by rewrite Hc.
Qed.

Definition rotation_rel {F} `{CircuitType F} {n} (args : StateElementRotationArgs F n) : Prop :=
  opens_to (cmap w (ra_old_version args)) (cmap w (ra_old_private_share args))
    (cmap w (ra_old_opening args)) (w (ra_merkle_root args)) (w (ra_nullifier args)) ∧
  creates (cmap w (ra_new_version args)) (cmap w (ra_new_private_share args))
    (w (ra_new_commitment args)) (w (ra_recovery_id args)).

Lemma rotate_version_spec {F} `{CircuitTypeLaws F} {n} (args : StateElementRotationArgs F n) :
  NUM (F:=F) ≠ 0%nat → Forall (λ i, is_bit (w i)) (bools (ra_old_opening args)) →
  (h → rotation_rel args) →
  wp h w (rotate_version args)
    (λ e, rotation_rel args ∧ cmap w e = v_advance_recovery (cmap w (ra_new_version args))).
Proof.
  intros HN Hb Hrel. unfold rotate_version.
  step recovery_id_spec. intros [rid e] [Hrid He].
  step (enforce_equal_law h); [intros Hh; rewrite Hrid; symmetry; apply (Hrel Hh)|]. intros _ E1.
  step commitments_shared_prefix_spec. intros [oc nc] [Hoc Hnc]. rewrite He in Hnc.
  step (enforce_equal_law h); [intros Hh; rewrite Hnc; symmetry; apply (Hrel Hh)|]. intros _ E2.
  step (compute_and_constrain_root_prehashed_spec W).
  { intros Hh. rewrite Hoc. apply (Hrel Hh). }
  intros _ E3. rewrite Hoc in E3.
  step nullifier_spec; [intros Hh; apply (Hrel Hh)|]. intros nl [Hi Hnl].
  step (enforce_equal_law h); [intros Hh; rewrite Hnl; symmetry; apply (Hrel Hh)|]. intros _ E4.
  apply wp_ret. split; [|done]. split; split; first [exact Hi|congruence].
Qed.

Definition partial_rotation_rel {F} `{CircuitType F} {n} (k : nat)
    (args : StateElementRotationArgsWithPartialCommitment F n) : Prop :=
  opens_to (cmap w (pa_old_version args)) (cmap w (pa_old_private_share args))
    (cmap w (pa_old_opening args)) (w (pa_merkle_root args)) (w (pa_nullifier args)) ∧
  creates_partial k (cmap w (pa_new_version args)) (cmap w (pa_new_private_share args))
    (cmap w (pa_new_partial_commitment args)) (w (pa_recovery_id args)).

Lemma rotate_version_partial_spec {F} `{CircuitTypeLaws F} {n} k
    (args : StateElementRotationArgsWithPartialCommitment F n) :
  (0 < k ≤ NUM (F:=F))%nat →
  Forall (λ i, is_bit (w i)) (bools (pa_old_opening args)) →
  (h → partial_rotation_rel k args) →
  wp h w (rotate_version_with_partial_commitment k args)
    (λ e, partial_rotation_rel k args ∧
          cmap w e = v_advance_recovery (cmap w (pa_new_version args))).
Proof.
  intros Hn Hb Hrel. unfold rotate_version_with_partial_commitment.
  step recovery_id_spec. intros [rid e] [Hrid He].
  step (enforce_equal_law h); [intros Hh; rewrite Hrid; symmetry; apply (Hrel Hh)|]. intros _ E1.
  step partial_shared_prefix_spec. intros [oc nc] [Hoc Hnc]. rewrite He in Hnc.
  step (constrain_eq_spec W); [intros Hh; rewrite Hnc; symmetry; apply (Hrel Hh)|]. intros _ E2.
  step (compute_and_constrain_root_prehashed_spec W).
  { intros Hh. rewrite Hoc. apply (Hrel Hh). }
  intros _ E3. rewrite Hoc in E3.
  step nullifier_spec; [intros Hh; apply (Hrel Hh)|]. intros nl [Hi Hnl].
  step (enforce_equal_law h); [intros Hh; rewrite Hnl; symmetry; apply (Hrel Hh)|]. intros _ E4.
  apply wp_ret. split; [|done]. split; split; first [exact Hi|congruence].
Qed.

(** A rotation whose private shares are what the public shares leave: how every circuit
    calls it. *)
Lemma rotate_complement_spec {F} `{CircuitTypeLaws F} {n} old op (o : MerkleOpeningVar n N)
    root nl new np comm rid (vnew : StateWrapperVar F Scalar) :
  NUM (F:=F) ≠ 0%nat → Forall (λ i, is_bit (w i)) (bools o) →
  cmap w op = v_complement (cmap w old) → cmap w new = vnew → cmap w np = v_complement vnew →
  (h → opens_to (cmap w old) (v_complement (cmap w old)) (cmap w o) (w root) (w nl) ∧
       creates vnew (v_complement vnew) (w comm) (w rid)) →
  wp h w (rotate_version (mkRotationArgs old op o root nl new np comm rid))
    (λ _, opens_to (cmap w old) (v_complement (cmap w old)) (cmap w o) (w root) (w nl) ∧
          creates vnew (v_complement vnew) (w comm) (w rid)).
Proof.
  intros HN Hb Eop Enew Enp Hrel. rewrite <-Enp, <-Enew, <-Eop in *.
  eapply wp_mono; [by apply rotate_version_spec|]. by intros e [Hr _].
Qed.
Lemma rotate_partial_complement_spec {F} `{CircuitTypeLaws F} {n} k old op
    (o : MerkleOpeningVar n N) root nl new np comm rid (vnew : StateWrapperVar F Scalar) :
  (0 < k ≤ NUM (F:=F))%nat → Forall (λ i, is_bit (w i)) (bools o) →
  cmap w op = v_complement (cmap w old) → cmap w new = vnew → cmap w np = v_complement vnew →
  (h → opens_to (cmap w old) (v_complement (cmap w old)) (cmap w o) (w root) (w nl) ∧
       creates_partial k vnew (v_complement vnew) (cmap w comm) (w rid)) →
  wp h w (rotate_version_with_partial_commitment k
            (mkPartialRotationArgs old op o root nl new np comm rid))
    (λ _, opens_to (cmap w old) (v_complement (cmap w old)) (cmap w o) (w root) (w nl) ∧
          creates_partial k vnew (v_complement vnew) (cmap w comm) (w rid)).
Proof.
  intros HN Hb Eop Enew Enp Hrel. rewrite <-Enp, <-Enew, <-Eop in *.
  eapply wp_mono; [by apply rotate_version_partial_spec|]. by intros e [Hr _].
Qed.

(** *** Fees and notes *)

Definition fee_rel (amount rate fee : Scalar) : Prop := floor_rel (scalar_mul rate amount) fee.

Lemma fee_take_spec amount rates :
  let rr := w (fpv_repr (frv_relayer_fee_rate rates)) in
  let pr := w (fpv_repr (frv_protocol_fee_rate rates)) in
  (h → fits 189 (w amount) ∧ fits 63 rr ∧ fits 63 pr) →
  wp h w (compute_fee_take amount rates)
    (λ t, fee_rel (w amount) rr (w (ftv_relayer_fee t)) ∧
          fee_rel (w amount) pr (w (ftv_protocol_fee t)) ∧
          (h → w (ftv_relayer_fee t) = rr * w amount / 2 ^ 63 ∧
               w (ftv_protocol_fee t) = pr * w amount / 2 ^ 63)).
Proof.
  intros rr pr Hf. unfold compute_fee_take. pose proof scalar_modulus_bounds.
  assert (∀ r, h → fits 63 r → fits 189 (w amount) →
    scalar_mul r (w amount) = r * w amount ∧ r * w amount < 2 ^ 253) as Hs.
  { intros r _ Hr Ha. unfold fits, scalar_mul in *.
    change (2 ^ Z.of_nat 63) with (2 ^ 63) in *. change (2 ^ Z.of_nat 189) with (2 ^ 189) in *.
    rewrite Z.mod_small by nia. split; [done|]. nia. }
  step mul_integer_spec. intros p1 H1. step mul_integer_spec. intros p2 H2.
  fold rr in H1. fold pr in H2.
  step (floor_gadget_spec W).
  { intros Hh. rewrite H1. destruct (Hf Hh) as (Ha & Hr & _). by destruct (Hs rr Hh Hr Ha) as [-> ?]. }
  intros f1 [F1 G1]. step (floor_gadget_spec W).
  { intros Hh. rewrite H2. destruct (Hf Hh) as (Ha & _ & Hr). by destruct (Hs pr Hh Hr Ha) as [-> ?]. }
  intros f2 [F2 G2]. apply wp_ret. rewrite H1 in F1, G1. rewrite H2 in F2, G2. simpl.
  split_and!; [done..|]. intros Hh. destruct (Hf Hh) as (Ha & Hr & Hp).
  destruct (Hs rr Hh Hr Ha) as [E1 _], (Hs pr Hh Hp Ha) as [E2 _].
  by rewrite (G1 Hh), (G2 Hh), E1, E2.
Qed.

Lemma note_commitment_gadget_spec n :
  wp h w (compute_note_commitment n) (λ v, w v = v_note_commitment (cmap w n)).
Proof.
  eapply wp_mono; [apply (hash_gadget_spec W)|]. intros v ->. unfold v_note_commitment.
  by rewrite flat_cmap.
Qed.

Lemma verify_note_commitment_spec n c :
  (h → w c = v_note_commitment (cmap w n)) →
  wp h w (verify_note_commitment n c) (λ _, w c = v_note_commitment (cmap w n)).
Proof.
  intros Hc. unfold verify_note_commitment. step note_commitment_gadget_spec. intros v Hv.
  rewrite <-Hv in Hc |- *. eapply wp_mono; [apply (constrain_eq_var_spec W)|done].
  intros Hh. symmetry. by apply Hc.
Qed.

Lemma verify_note_nullifier_spec c b n :
  (h → w n = H2 (w c) (w b)) →
  wp h w (verify_note_nullifier c b n) (λ _, w n = H2 (w c) (w b)).
Proof.
  intros Hn. unfold verify_note_nullifier. step (hash_gadget_spec W). intros v Hv.
  cbn [fmap list_fmap] in Hv. fold (H2 (w c) (w b)) in Hv. rewrite <-Hv in Hn |- *.
  eapply wp_mono; [apply (constrain_eq_var_spec W)|done]. intros Hh. symmetry. by apply Hn.
Qed.
End Specs.
