(* ===== verification/Scoping.v ===== *)
(** * Constraint systems can be filled in

    Completeness of a gadget speaks about an assignment that follows the values the code
    computes.  This file shows that there is one: the values of a new variable are
    computed from variables that exist already, so the honest prover can fill in the
    assignment while the circuit is built.

    [scoped n c Q] says that, built in a system with [n] variables, [c] computes each new
    value from earlier variables; [scopes] adds that the variables it returns exist.  The
    methods of the proof library are an interface again ([PlonkScoping]), which
    [reference_plonk] satisfies. *)
From S2P Require Import Prelude Scalar Circuit CircuitTypes Gadgets.
Local Open Scope Z_scope.

(** ** Assignments to a prefix of the variables *)

Definition agree (n : N) (w w' : Assignment) : Prop := ∀ v, (v < n)%N → w v = w' v.

(** A value computed from the first [n] variables *)
Definition hint_below {A} (n : N) (h : Assignment → A) : Prop :=
  ∀ w w', agree n w w' → h w = h w'.

Fixpoint scoped {A} (n : N) (c : Circuit A) (Q : N → A → Prop) : Prop :=
  match c with
  | Ret a => Q n a
  | New h k => hint_below n h ∧ scoped (N.succ n) (k n) Q
  | Gate _ c => scoped n c Q
  | Panic => True
  end.

(** The honest prover's assignment, which keeps the variables that exist. *)
Lemma scoped_follows {A} n (c : Circuit A) Q w0 :
  scoped n c Q → (∀ v, is_scalar (w0 v)) →
  ∃ w, agree n w w0 ∧ (∀ v, is_scalar (w v)) ∧ follows w n c.
Proof.
  revert n w0. induction c as [a|h k IH|g c IH|]; intros n w0 Hc H0; simpl in Hc.
  - by exists w0.
  - destruct Hc as [Hh Hk]. set (w1 := λ v, if (v =? n)%N then scalar_from (h w0) else w0 v).
    destruct (IH n (N.succ n) w1 Hk) as (w & Hw & Hs & Hf).
    { intros v. unfold w1. destruct (v =? n)%N; auto with relayer. }
    assert (agree n w w0) as Ha.
    { intros v Hv. rewrite Hw by lia. unfold w1. by destruct (N.eqb_spec v n); [lia|]. }
    exists w. split_and!; [done..|]. split; [|done]. rewrite (Hh w w0 Ha), Hw by lia.
    unfold w1. by rewrite N.eqb_refl.
  - by apply IH.
  - by exists w0.
Qed.

(** ** Variables in scope *)

Definition below (n : N) (l : list N) : Prop := Forall (λ v, (v < n)%N) l.

Class Vars (X : Type) := vars_of : X → list N.
#[global] Instance vars_var : Vars N := λ v, [v].
#[global] Instance vars_unit : Vars unit := λ _, [].
#[global] Instance vars_nat : Vars nat := λ _, [].
#[global] Instance vars_list : Vars (list N) := λ l, l.
#[global] Instance vars_lists `{Vars X} : Vars (list X) | 5 := λ l, l ≫= vars_of.
#[global] Instance vars_prod `{Vars X, Vars Y} : Vars (X * Y) :=
  λ p, vars_of p.1 ++ vars_of p.2.
#[global] Instance vars_struct `{CircuitType F} : Vars (F N) | 10 := λ x, flat x.

Definition scopes `{Vars A} (n : N) (c : Circuit A) : Prop :=
  scoped n c (λ n' a, (n ≤ n')%N ∧ below n' (vars_of a)).

Lemma below_nil n : below n [].
Proof. constructor. Qed.
Lemma below_cons n v l : (v < n)%N → below n l → below n (v :: l).
Proof. by constructor. Qed.
Lemma below_cons_inv n v l : below n (v :: l) → (v < n)%N ∧ below n l.
Proof. intros Hl. by inversion Hl. Qed.
Lemma below_app n l1 l2 : below n l1 → below n l2 → below n (l1 ++ l2).
Proof. apply Forall_app_2. Qed.
Lemma below_app_inv n l1 l2 : below n (l1 ++ l2) → below n l1 ∧ below n l2.
Proof. apply Forall_app. Qed.
Lemma below_mono n n' l : (n ≤ n')%N → below n l → below n' l.
Proof. intros Hn Hl. eapply Forall_impl; [exact Hl|]. intros v Hv. simpl in *. lia. Qed.
Lemma below_elem n l v : below n l → v ∈ l → (v < n)%N.
Proof. unfold below. rewrite Forall_forall. auto. Qed.
Lemma below_take n k l : below n l → below n (take k l).
Proof. apply Forall_take. Qed.
Lemma below_drop n k l : below n l → below n (drop k l).
Proof. apply Forall_drop. Qed.
Lemma below_insert n (i : nat) v l : (v < n)%N → below n l → below n (<[i:=v]> l).
Proof. intros Hv Hl. by apply Forall_insert. Qed.
Lemma below_tail n l : below n l → below n (tail l).
Proof. intros Hl. destruct l; [done|]. by inversion Hl. Qed.
Lemma below_zip n l1 l2 a b : below n l1 → below n l2 → (a, b) ∈ zip l1 l2 → (a < n)%N ∧ (b < n)%N.
Proof.
  intros H1 H2 Hp. split; [apply (below_elem n l1)|apply (below_elem n l2)]; try done.
  - by eapply elem_of_zip_l.
  - by eapply elem_of_zip_r.
Qed.

(** ** Rules *)

Lemma scoped_mono {A} n (c : Circuit A) (P Q : N → A → Prop) :
  scoped n c P → (∀ n' a, P n' a → Q n' a) → scoped n c Q.
Proof. revert n. induction c; simpl; naive_solver. Qed.

Lemma scoped_bind {A B} n (m : Circuit A) (k : A → Circuit B) Q :
  scoped n m (λ n' a, scoped n' (k a) Q) → scoped n (m ≫= k) Q.
Proof. revert n. induction m; simpl; naive_solver. Qed.

Section Rules.
Context `{Vars A}.

Lemma scopes_ret n (a : A) : below n (vars_of a) → scopes n (mret a).
Proof. intros Ha. split; [lia|done]. Qed.

Lemma scopes_bind {B} `{Vars B} n (m : Circuit A) (k : A → Circuit B) :
  scopes n m →
  (∀ n' a, (n ≤ n')%N → below n' (vars_of a) → scopes n' (k a)) →
  scopes n (m ≫= k).
Proof.
  intros Hm Hk. apply scoped_bind. eapply scoped_mono; [exact Hm|]. intros n' a [Hn Ha].
  eapply scoped_mono; [by apply Hk|]. intros n'' b [Hn' Hb]. split; [lia|done].
Qed.

Lemma scopes_unwrap n (o : option A) :
  (∀ a, o = Some a → below n (vars_of a)) → scopes n (unwrap_c o).
Proof. intros Ho. destruct o as [a|]; [|done]. apply scopes_ret. auto. Qed.

Lemma scopes_fold {X} (body : A → X → Circuit A) n (s : A) xs :
  (∀ n' s x, (n ≤ n')%N → x ∈ xs → below n' (vars_of s) → scopes n' (body s x)) →
  below n (vars_of s) → scopes n (fold_c body s xs).
Proof.
  revert n s. induction xs as [|x xs IH]; intros n s Hb Hs; [by apply scopes_ret|].
  cbn [fold_c]. apply scopes_bind; [apply Hb; [lia|by left|done]|].
  intros n' s' Hn Hs'. apply IH; [|done]. intros. apply Hb; [lia|by right|done].
Qed.
End Rules.

Lemma scopes_create n h : hint_below n h → scopes n (create_variable h).
Proof.
  intros Hh. split; [done|]. split; [lia|]. apply below_cons; [lia|apply below_nil].
Qed.
Lemma scopes_gate n g : scopes n (constrain g).
Proof. split; [lia|apply below_nil]. Qed.
Lemma scopes_assert n b : scopes n (assert b).
Proof. destruct b; [|done]. split; [lia|apply below_nil]. Qed.

Lemma scopes_map {X} (body : X → Circuit N) n xs :
  (∀ n' x, (n ≤ n')%N → x ∈ xs → scopes n' (body x)) → scopes n (map_c body xs).
Proof.
  revert n. induction xs as [|x xs IH]; intros n Hb; [apply scopes_ret, below_nil|].
  cbn [map_c]. apply scopes_bind; [apply Hb; [lia|by left]|]. intros n1 y Hn1 Hy.
  apply scopes_bind; [apply IH; intros; apply Hb; [lia|by right]|]. intros n2 ys Hn2 Hys.
  apply scopes_ret. inversion Hy; subst. apply below_cons; [lia|done].
Qed.

Lemma scopes_for {X} (body : X → Circuit unit) n xs :
  (∀ n' x, (n ≤ n')%N → x ∈ xs → scopes n' (body x)) → scopes n (for_c body xs).
Proof. intros Hb. apply scopes_fold; [auto|apply below_nil]. Qed.

Lemma scopes_map_zip (body : N * N → Circuit N) n l1 l2 :
  below n l1 → below n l2 →
  (∀ n' a b, (n ≤ n')%N → (a < n)%N → (b < n)%N → scopes n' (body (a, b))) →
  scopes n (map_c body (zip l1 l2)).
Proof.
  intros H1 H2 Hb. apply scopes_map. intros n' [a b] Hn Hp.
  destruct (below_zip n l1 l2 a b) as [Ha Hb']; auto.
Qed.

Lemma from_vars_scopes `{CircuitTypeLaws F} n l : below n l → scopes n (from_vars (F:=F) l).
Proof.
  intros Hl. unfold from_vars. destruct (unflat l) as [[x rest]|] eqn:E; [|done].
  apply scopes_ret. apply unflat_spec in E. subst l. by apply below_app_inv in Hl as [? _].
Qed.

(** ** The interface of the proof system *)

(** A new system has [init] variables, the constants among them, and each method computes
    its new variables from its arguments. *)
Class PlonkScoping `{PlonkCircuit} (init : N) : Prop := {
  zero_below : (cs_zero < init)%N;
  one_below : (cs_one < init)%N;
  zero_one : cs_zero ≠ cs_one;
  add_scopes n a b : (a < n)%N → (b < n)%N → scopes n (cs_add a b);
  sub_scopes n a b : (a < n)%N → (b < n)%N → scopes n (cs_sub a b);
  mul_scopes n a b : (a < n)%N → (b < n)%N → scopes n (cs_mul a b);
  add_constant_scopes n a c : (a < n)%N → scopes n (cs_add_constant a c);
  mul_constant_scopes n a c : (a < n)%N → scopes n (cs_mul_constant a c);
  lc_scopes n vs cs : below n vs → scopes n (cs_lc vs cs);
  lc_sum_scopes n vs cs : below n vs → scopes n (cs_lc_sum vs cs);
  mux_scopes n b x y : (b < n)%N → (x < n)%N → (y < n)%N → scopes n (cs_mux b x y);
  logic_neg_scopes n b : (b < n)%N → scopes n (cs_logic_neg b);
  logic_and_all_scopes n bs : below n bs → scopes n (cs_logic_and_all bs);
  enforce_equal_scopes n a b : (a < n)%N → (b < n)%N → scopes n (cs_enforce_equal a b);
  enforce_bool_scopes n b : (b < n)%N → scopes n (cs_enforce_bool b);
  enforce_true_scopes n b : (b < n)%N → scopes n (cs_enforce_true b);
  enforce_false_scopes n b : (b < n)%N → scopes n (cs_enforce_false b);
  create_boolean_scopes n h : hint_below n h → scopes n (cs_create_boolean_variable h);
  create_public_scopes n x : scopes n (cs_create_public_variable x);
  mul_gate_scopes n a b c : below n [a; b; c] → scopes n (cs_mul_gate a b c);
  mul_add_gate_scopes n a b c d o q r : below n [a; b; c; d; o] →
    scopes n (cs_mul_add_gate a b c d o q r);
  insert_gate_scopes n vs o g : below n vs → (o < n)%N → scopes n (cs_insert_gate vs o g);
}.

Lemma computed_scopes n f : hint_below n f → scopes n (computed f).
Proof.
  intros Hf. split; [done|]. split; [lia|]. apply below_cons; [lia|apply below_nil].
Qed.

Lemma agree_fmap n w w' l : agree n w w' → below n l → w <$> l = w' <$> l.
Proof. intros Hw Hl. induction Hl as [|v l Hv _ IH]; [done|]. by rewrite !fmap_cons, IH, Hw. Qed.

Lemma agree_forallb n w w' l (p : Z → bool) :
  agree n w w' → below n l → forallb (λ v, p (w v)) l = forallb (λ v, p (w' v)) l.
Proof. intros Hw Hl. induction Hl as [|v l Hv _ IH]; [done|]. simpl. by rewrite IH, Hw. Qed.

#[global] Instance reference_scoping : @PlonkScoping reference_plonk 2.
Proof.
  split; try done; intros; simpl; try apply scopes_gate; try apply computed_scopes.
  all: try done; intros w w' Hw;
    repeat match goal with |- context [w ?v] => rewrite (Hw v) by done end;
    try rewrite (agree_fmap _ _ _ _ Hw) by done; try done.
  by rewrite (agree_forallb _ w w' _ (λ x, x =? 1) Hw) by done.
Qed.

(** ** Automation *)

Create HintDb scope_vars.
#[export] Hint Unfold vars_of vars_var vars_unit vars_nat vars_list vars_prod vars_struct to_vars
  : scope_vars.
Create HintDb scope discriminated.
#[export] Hint Constants Opaque : scope.
#[export] Hint Resolve add_scopes sub_scopes mul_scopes add_constant_scopes mul_constant_scopes
  lc_scopes lc_sum_scopes mux_scopes logic_neg_scopes logic_and_all_scopes enforce_equal_scopes
  enforce_bool_scopes enforce_true_scopes enforce_false_scopes create_boolean_scopes
  create_public_scopes mul_gate_scopes mul_add_gate_scopes insert_gate_scopes scopes_create
  scopes_assert from_vars_scopes zero_below one_below : scope.

(** A variable is in scope by a fact about an earlier state of the system. *)
Ltac in_scope :=
  match goal with
  | |- (?v < ?n)%N => first
      [ assumption
      | match goal with H : (v < ?m)%N, L : (?m ≤ n)%N |- _ =>
          exact (N.lt_le_trans _ _ _ H L) end
      | match goal with L : (_ ≤ n)%N |- _ =>
          exact (N.lt_le_trans _ _ _ zero_below L) end
      | match goal with L : (_ ≤ n)%N |- _ =>
          exact (N.lt_le_trans _ _ _ one_below L) end
      | lia ]
  | |- below ?n ?l => first
      [ assumption
      | match goal with H : below ?m l, L : (?m ≤ n)%N |- _ => exact (below_mono _ _ _ L H) end ]
  end.

(** Facts about the fields of a struct, and about the parts of a list. *)
Ltac split_below :=
  repeat match goal with
  | H : below _ [] |- _ => clear H
  | H : below _ (_ :: _) |- _ => apply below_cons_inv in H as [? H]
  | H : below _ (_ ++ _) |- _ => apply below_app_inv in H as [? H]
  end.
Ltac open_below H :=
  autounfold with scope_vars in H; cbn in H; try change (Id N) with N in H; split_below.

Ltac solve_below :=
  autounfold with scope_vars; try in_scope; cbn; try change (Id N) with N;
  repeat first
    [ apply below_nil | apply below_cons | apply below_app | in_scope
    | apply below_insert | apply below_take | apply below_drop | apply below_tail ];
  in_scope.

#[export] Hint Extern 1 (_ < _)%N => solve_below : scope.
#[export] Hint Extern 1 (below _ _) => solve_below : scope.
#[export] Hint Extern 1 (_ ≤ _)%N => lia : scope.
#[export] Hint Extern 1 (CircuitTypeLaws _) => apply _ : scope.

(** A value computed from variables in scope *)
Ltac solve_hint :=
  let w := fresh "w" in let w' := fresh "w" in let Hw := fresh "Hw" in
  intros w w' Hw;
  repeat match goal with |- context [w ?v] => rewrite (Hw v) by in_scope end; reflexivity.
#[export] Hint Extern 1 (hint_below _ _) => solve_hint : scope.

(** What holds of earlier states holds of the next one. *)
Ltac raise Hle :=
  repeat match type of Hle with (?m ≤ ?n)%N =>
    match goal with L : (?k ≤ m)%N |- _ =>
      lazymatch k with m => fail | _ => apply (λ L, N.le_trans _ _ _ L Hle) in L end
    end end.
Ltac open_result r :=
  lazymatch type of r with
  | unit => destruct r
  | (_ * _)%type => let a := fresh "r" in let b := fresh "r" in
                    destruct r as [a b]; open_result a; open_result b
  | _ => idtac
  end.
Ltac next_call :=
  let n := fresh "n" in let r := fresh "r" in let L := fresh "L" in let B := fresh "B" in
  intros n r L B; raise L; open_result r; open_below B.
Ltac call :=
  try lazymatch goal with |- @scopes (Id N) _ ?n ?c => change (@scopes N vars_var n c) end;
  try change (Id N) with N;
  solve [eauto 3 with scope nocore].
Ltac scope_step :=
  cbv beta zeta;
  lazymatch goal with
  | |- scopes _ (mbind _ _) => eapply scopes_bind; [try call|next_call]
  | |- scopes _ (mret _) => apply scopes_ret; auto 1 with scope nocore
  | |- _ => call
  end.
Ltac scope_args :=
  repeat match goal with H : below _ _ |- _ => progress open_below H end.
Ltac scope := scope_args; repeat scope_step.

(** ** Primitive gadgets *)

Section Primitive.
Context {Cs : PlonkCircuit} {init : N} {Sc : PlonkScoping init}.

Lemma eq_zero_var_scopes n v : (init ≤ n)%N → (v < n)%N → scopes n (eq_zero_var v).
Proof. intros Hn Hv. unfold eq_zero_var. scope. Qed.

Lemma sub_eq_zero_scopes n l1 l2 : (init ≤ n)%N → below n l1 → below n l2 →
  scopes n (map_c (λ '(a, b), d ← cs_sub a b; eq_zero_var d) (zip l1 l2)).
Proof.
  intros Hn H1 H2. apply scopes_map_zip; [done..|]. intros n' a b Hn' Ha Hb.
  eapply scopes_bind; [call|]. next_call. apply eq_zero_var_scopes; [lia|in_scope].
Qed.

Lemma eq_gadget_scopes `{CircuitType F} n (a b : F N) :
  (init ≤ n)%N → below n (flat a) → below n (flat b) → scopes n (eq_gadget a b).
Proof.
  intros Hn Ha Hb. unfold eq_gadget, eq_vec. scope_step. rewrite !zip_singletons.
  eapply scopes_bind; [apply sub_eq_zero_scopes; [lia|solve_below..]|]. next_call. scope.
Qed.

Lemma eq_zero_scopes `{CircuitType F} n (a : F N) :
  (init ≤ n)%N → below n (flat a) → scopes n (eq_zero a).
Proof.
  intros Hn Ha. unfold eq_zero, eq_zero_vec. rewrite zip_singletons. eapply scopes_bind.
  { apply scopes_map. intros n' x Hn' Hx. pose proof (below_elem _ _ _ Ha Hx).
    apply eq_zero_var_scopes; lia. }
  next_call. scope.
Qed.

Lemma constrain_eq_scopes `{CircuitType F} n (a b : F N) :
  below n (flat a) → below n (flat b) → scopes n (constrain_eq a b).
Proof.
  intros Ha Hb. unfold constrain_eq, constrain_eq_vec. scope_step. scope_step.
  rewrite !zip_singletons. apply scopes_for. intros n' [x y] Hn' Hp.
  apply (below_zip n) in Hp as [Hx Hy]; [|done..].
  apply enforce_equal_scopes; in_scope.
Qed.
#[local] Hint Resolve eq_zero_var_scopes eq_gadget_scopes constrain_eq_scopes : scope.

Lemma constrain_not_equal_scopes `{CircuitType F} n (a b : F N) :
  (init ≤ n)%N → below n (flat a) → below n (flat b) → scopes n (constrain_not_equal a b).
Proof. intros Hn Ha Hb. unfold constrain_not_equal. scope. Qed.

Lemma to_bits_unconstrained_scopes n a k : (a < n)%N → scopes n (to_bits_unconstrained a k).
Proof. intros Ha. apply scopes_map. intros n' i Hn' _. call. Qed.
#[local] Hint Resolve to_bits_unconstrained_scopes : scope.

Lemma to_bits_scopes n a k : (a < n)%N → scopes n (to_bits a k).
Proof. intros Ha. unfold to_bits, bit_reconstruct. scope. Qed.
#[local] Hint Resolve to_bits_scopes : scope.

Lemma constrain_bit_range_scopes n a k : (a < n)%N → scopes n (constrain_bit_range a k).
Proof. intros Ha. unfold constrain_bit_range. scope. Qed.
Lemma constrain_greater_than_eq_zero_scopes n a k :
  (a < n)%N → scopes n (constrain_greater_than_eq_zero a k).
Proof. intros Ha. unfold constrain_greater_than_eq_zero. scope. Qed.
#[local] Hint Resolve constrain_bit_range_scopes constrain_greater_than_eq_zero_scopes : scope.

Lemma lookup_scopes n (l : list N) i : below n l → scopes n (unwrap_c (l !! i)).
Proof.
  intros Hl. apply scopes_unwrap. intros a Ha. apply below_cons; [|apply below_nil].
  apply (below_elem n l); [done|]. by eapply list_elem_of_lookup_2.
Qed.
#[local] Hint Resolve lookup_scopes : scope.

Lemma greater_than_eq_zero_scopes n a k : (a < n)%N → scopes n (greater_than_eq_zero a k).
Proof. intros Ha. unfold greater_than_eq_zero. scope. Qed.
#[local] Hint Resolve greater_than_eq_zero_scopes : scope.

Lemma greater_than_eq_scopes n a b k : (a < n)%N → (b < n)%N → scopes n (greater_than_eq a b k).
Proof. intros Ha Hb. unfold greater_than_eq. scope. Qed.
Lemma constrain_greater_than_eq_scopes n a b k :
  (a < n)%N → (b < n)%N → scopes n (constrain_greater_than_eq a b k).
Proof. intros Ha Hb. unfold constrain_greater_than_eq. scope. Qed.
#[local] Hint Resolve greater_than_eq_scopes : scope.

Lemma constrain_less_than_scopes n a b k :
  (a < n)%N → (b < n)%N → scopes n (constrain_less_than a b k).
Proof. intros Ha Hb. unfold constrain_less_than, less_than. scope. Qed.

Lemma cond_select_scopes `{CircuitTypeLaws F} n (a b : F N) s :
  below n (flat a) → below n (flat b) → (s < n)%N → scopes n (cond_select a b s).
Proof.
  intros Ha Hb Hs. unfold cond_select. scope_step.
  eapply scopes_bind; [apply scopes_map_zip; [solve_below..|]; intros; call|].
  next_call. scope.
Qed.

Lemma integer_to_fixed_point_scopes n v : (v < n)%N → scopes n (integer_to_fixed_point v).
Proof. intros Hv. unfold integer_to_fixed_point. scope. Qed.
Lemma mul_integer_scopes n (x : FixedPointVar N) v :
  below n (flat x) → (v < n)%N → scopes n (mul_integer x v).
Proof. intros Hx Hv. unfold mul_integer. scope. Qed.
Lemma constrain_equal_floor_scopes n (x : FixedPointVar N) v :
  (init ≤ n)%N → below n (flat x) → (v < n)%N → scopes n (constrain_equal_floor x v).
Proof. intros Hn Hx Hv. unfold constrain_equal_floor. scope. Qed.
#[local] Hint Resolve constrain_equal_floor_scopes : scope.
Lemma floor_gadget_scopes n (x : FixedPointVar N) :
  (init ≤ n)%N → below n (flat x) → scopes n (floor_gadget x).
Proof. intros Hn Hx. unfold floor_gadget. scope. Qed.

Lemma constrain_valid_amount_scopes n a : (a < n)%N → scopes n (constrain_valid_amount a).
Proof. apply constrain_bit_range_scopes. Qed.
Lemma constrain_valid_price_scopes n (x : FixedPointVar N) :
  below n (flat x) → scopes n (constrain_valid_price x).
Proof. intros Hx. unfold constrain_valid_price. scope. Qed.
Lemma constrain_valid_fee_scopes n (x : FixedPointVar N) :
  below n (flat x) → scopes n (constrain_valid_fee x).
Proof. intros Hx. unfold constrain_valid_fee. scope. Qed.
End Primitive.
#[export] Hint Resolve eq_zero_scopes eq_gadget_scopes constrain_eq_scopes constrain_not_equal_scopes
  to_bits_scopes constrain_bit_range_scopes greater_than_eq_scopes
  constrain_greater_than_eq_zero_scopes constrain_greater_than_eq_scopes
  constrain_less_than_scopes cond_select_scopes integer_to_fixed_point_scopes
  mul_integer_scopes constrain_equal_floor_scopes floor_gadget_scopes lookup_scopes
  constrain_valid_amount_scopes constrain_valid_price_scopes constrain_valid_fee_scopes : scope.
