(* ===== verification/GadgetScoping.v ===== *)
(** * Scoping of the hash and state gadgets

    The gadgets of PoseidonGadget.v and StateGadgets.v compute every new variable from
    earlier ones; see Scoping.v. *)
From S2P Require Import Prelude Scalar FixedPoint Poseidon2 Merkle Circuit CircuitTypes Gadgets.
From S2P Require Import PoseidonGadget StateGadgets Scoping.
Local Open Scope Z_scope.

#[global] Instance vars_hasher : Vars PoseidonHashGadget := λ g, hg_state g.
#[export] Hint Unfold vars_hasher : scope_vars.

Section Hash.
Context {Cs : PlonkCircuit} {init : N} {Sc : PlonkScoping init}.

Lemma elem_scopes n l i : below n l → scopes n (elem l i).
Proof. apply lookup_scopes. Qed.
#[local] Hint Resolve elem_scopes : scope.

Lemma add_fused_external_scopes n s rc v l :
  (v < n)%N → below n l → scopes n (add_fused_external_sbox_mds s rc v l).
Proof. intros Hv Hl. unfold add_fused_external_sbox_mds. scope. Qed.
Lemma add_fused_internal_scopes n s rc k v l :
  (v < n)%N → below n l → scopes n (add_fused_internal_sbox_mds s rc k v l).
Proof. intros Hv Hl. unfold add_fused_internal_sbox_mds. scope. Qed.
#[local] Hint Resolve add_fused_external_scopes add_fused_internal_scopes : scope.

Lemma fused_external_scopes n s rcs l : below n l → scopes n (fused_external_mds_with_rc s rcs l).
Proof. intros Hl. unfold fused_external_mds_with_rc. scope. Qed.
Lemma fused_internal_scopes n rcs l : below n l → scopes n (fused_internal_sbox_mds rcs l).
Proof. intros Hl. unfold fused_internal_sbox_mds. scope. Qed.

#[local] Hint Resolve fused_external_scopes fused_internal_scopes : scope.

Lemma fused_loop_scopes n (body : list N → nat → Circuit (list N)) l rounds :
  (∀ n' l i, below n' l → scopes n' (body l i)) → below n l → scopes n (fold_c body l rounds).
Proof. intros Hb Hl. apply scopes_fold; [|done]. intros. by apply Hb. Qed.
#[local] Hint Extern 1 (scopes _ (fold_c _ _ _)) =>
  apply fused_loop_scopes; [intros; cbv beta|] : scope.

Lemma permute_scopes n l : below n l → scopes n (permute_gadget l).
Proof.
  intros Hl. unfold permute_gadget, external_mds_with_rc, external_sbox_mds_with_rc.
  scope.
Qed.
#[local] Hint Resolve permute_scopes : scope.

Lemma absorb_scopes n g a :
  below n (hg_state g) → (a < n)%N → scopes n (absorb_gadget g a).
Proof.
  intros Hg Ha. unfold absorb_gadget. scope_step.
  eapply scopes_bind; [destruct (hg_next_index g =? RATE)%nat; scope|]. next_call. scope.
Qed.
#[local] Hint Resolve absorb_scopes : scope.

Lemma batch_absorb_scopes n g l :
  below n (hg_state g) → below n l → scopes n (batch_absorb g l).
Proof.
  intros Hg Hl. apply scopes_fold; [|done]. intros n' g' x Hn Hx Hg'.
  pose proof (below_elem n l x Hl Hx). apply absorb_scopes; [done|in_scope].
Qed.
Lemma squeeze_scopes n g : below n (hg_state g) → scopes n (squeeze_gadget g).
Proof.
  intros Hg. unfold squeeze_gadget.
  eapply scopes_bind; [destruct (negb _ || _); scope|]. next_call. scope.
Qed.
#[local] Hint Resolve batch_absorb_scopes squeeze_scopes : scope.

Lemma hasher_new_below n : (init ≤ n)%N → below n (hg_state hasher_new).
Proof. intros Hn. repeat (apply below_cons; [in_scope|]). apply below_nil. Qed.
#[local] Hint Resolve hasher_new_below : scope.

Lemma hash_gadget_scopes n l : (init ≤ n)%N → below n l → scopes n (hash_gadget hasher_new l).
Proof. intros Hn Hl. pose proof (hasher_new_below n Hn). unfold hash_gadget. scope. Qed.
#[local] Hint Resolve hash_gadget_scopes : scope.

Lemma select_left_right_scopes n a b s : (init ≤ n)%N → (a < n)%N → (b < n)%N → (s < n)%N →
  scopes n (select_left_right a b s).
Proof. intros Hn Ha Hb Hs. unfold select_left_right. scope. Qed.
Lemma hash_internal_nodes_scopes n a b : (init ≤ n)%N → (a < n)%N → (b < n)%N →
  scopes n (hash_internal_nodes a b).
Proof. intros Hn Ha Hb. pose proof (hasher_new_below n Hn). unfold hash_internal_nodes. scope. Qed.
#[local] Hint Resolve select_left_right_scopes hash_internal_nodes_scopes : scope.

Lemma compute_root_prehashed_scopes {k} n leaf (o : MerkleOpeningVar k N) :
  (init ≤ n)%N → (leaf < n)%N → below n (flat o) → scopes n (compute_root_prehashed leaf o).
Proof.
  intros Hn Hl Ho. unfold compute_root_prehashed. apply below_app_inv in Ho as [H1 H2].
  apply scopes_fold; [|solve_below]. intros n' cur [e b] Hn' Hp Hc.
  apply (below_zip n) in Hp as [He Hb]; [|done..].
  assert ((init ≤ n')%N) by lia. scope.
Qed.
#[local] Hint Resolve compute_root_prehashed_scopes : scope.

Lemma compute_and_constrain_root_scopes {k} n leaf (o : MerkleOpeningVar k N) root :
  (init ≤ n)%N → below n leaf → below n (flat o) → (root < n)%N →
  scopes n (compute_and_constrain_root leaf o root).
Proof.
  intros Hn Hl Ho Hr. pose proof (hasher_new_below n Hn).
  unfold compute_and_constrain_root, compute_root_gadget, leaf_hash. scope.
Qed.
Lemma compute_and_constrain_root_prehashed_scopes {k} n leaf (o : MerkleOpeningVar k N) root :
  (init ≤ n)%N → (leaf < n)%N → below n (flat o) → (root < n)%N →
  scopes n (compute_and_constrain_root_prehashed leaf o root).
Proof. intros Hn Hl Ho Hr. unfold compute_and_constrain_root_prehashed. scope. Qed.
End Hash.
#[export] Hint Resolve batch_absorb_scopes squeeze_scopes hasher_new_below hash_gadget_scopes
  compute_and_constrain_root_scopes compute_and_constrain_root_prehashed_scopes : scope.

(** ** State gadgets *)

Section State.
Context {Cs : PlonkCircuit} {init : N} {Sc : PlonkScoping init}.

Lemma get_ith_scopes n c i : (init ≤ n)%N → below n (flat c) → (i < n)%N →
  scopes n (get_ith_gadget c i).
Proof. intros Hn Hc Hi. unfold get_ith_gadget. scope. Qed.
Lemma csprng_next_scopes n c : (init ≤ n)%N → below n (flat c) → scopes n (csprng_next_gadget c).
Proof. intros Hn Hc. unfold csprng_next_gadget. scope. Qed.
#[local] Hint Resolve get_ith_scopes csprng_next_scopes : scope.

Lemma next_k_scopes n c k : (init ≤ n)%N → below n (flat c) → scopes n (next_k c k).
Proof.
  revert n c. induction k as [|k IH]; intros n c Hn Hc; cbn [next_k]; scope.
Qed.
#[local] Hint Resolve next_k_scopes : scope.

Lemma zip_op_scopes n (op : N → N → Circuit N) l1 l2 :
  (∀ n a b, (a < n)%N → (b < n)%N → scopes n (op a b)) → below n l1 → below n l2 →
  scopes n (map_c (λ '(a, b), op a b) (zip l1 l2)).
Proof. intros Hop H1 H2. apply scopes_map_zip; [done..|]. intros. apply Hop; in_scope. Qed.
#[local] Hint Extern 1 (scopes _ (map_c (λ '(a, b), cs_sub a b) _)) =>
  apply (zip_op_scopes _ cs_sub); [apply sub_scopes|..] : scope.
#[local] Hint Extern 1 (scopes _ (map_c (λ '(a, b), cs_add a b) _)) =>
  apply (zip_op_scopes _ cs_add); [apply add_scopes|..] : scope.

Lemma encrypt_scopes `{CircuitTypeLaws F} n (x : F N) c :
  (init ≤ n)%N → below n (flat x) → below n (flat c) → scopes n (encrypt x c).
Proof. intros Hn Hx Hc. unfold encrypt. scope. Qed.
Lemma recover_base_scopes `{CircuitTypeLaws F} n (x y : F N) :
  below n (flat x) → below n (flat y) → scopes n (recover_base x y).
Proof. intros Hx Hy. unfold recover_base. scope. Qed.
Lemma compute_complementary_shares_scopes `{CircuitTypeLaws F} n (x y : F N) :
  below n (flat x) → below n (flat y) → scopes n (compute_complementary_shares x y).
Proof. intros Hx Hy. unfold compute_complementary_shares. scope. Qed.

Lemma resumable_scopes n l : (init ≤ n)%N → below n l → scopes n (compute_resumable_commitment l).
Proof.
  intros Hn Hl. unfold compute_resumable_commitment.
  eapply scopes_bind.
  { apply scopes_unwrap. intros a Ha. destruct l as [|x l]; [done|]. injection Ha as <-.
    apply below_cons; [by inversion Hl|apply below_nil]. }
  next_call. apply scopes_fold; [|solve_below]. intros n' s x Hn' Hx Hs.
  assert ((init ≤ n')%N) by lia. assert ((x < n)%N).
  { apply (below_elem n (tail l)); [by apply below_tail|done]. }
  assert ((n ≤ n')%N) by lia. scope.
Qed.
#[local] Hint Resolve resumable_scopes : scope.

Lemma private_commitment_scopes `{CircuitType F} n (x : F N) (e : StateWrapperVar F N) :
  (init ≤ n)%N → below n (flat x) → below n (flat e) →
  scopes n (compute_private_commitment_gadget x e).
Proof.
  intros Hn Hx He. pose proof (hasher_new_below n Hn).
  unfold compute_private_commitment_gadget. scope.
Qed.
#[local] Hint Resolve private_commitment_scopes : scope.

Lemma compute_commitment_from_private_scopes `{CircuitType F} n c (x : F N) :
  (init ≤ n)%N → (c < n)%N → below n (flat x) →
  scopes n (compute_commitment_from_private_gadget c x).
Proof. intros Hn Hc Hx. unfold compute_commitment_from_private_gadget. scope. Qed.
#[local] Hint Resolve compute_commitment_from_private_scopes : scope.
Lemma compute_commitment_scopes `{CircuitType F} n (x : F N) (e : StateWrapperVar F N) :
  (init ≤ n)%N → below n (flat x) → below n (flat e) → scopes n (compute_commitment_gadget e x).
Proof. intros Hn Hx He. unfold compute_commitment_gadget. scope. Qed.
Lemma compute_partial_commitment_scopes `{CircuitType F} n k (x : F N) (e : StateWrapperVar F N) :
  (init ≤ n)%N → below n (flat x) → below n (flat e) →
  scopes n (compute_partial_commitment_gadget k x e).
Proof.
  intros Hn Hx He.
  unfold compute_partial_commitment_gadget, compute_partial_public_commitment_gadget. scope.
Qed.

Lemma finish_private_commitment_scopes `{CircuitType F} n g l (e : StateWrapperVar F N) :
  below n (hg_state g) → below n l → below n (flat e) →
  scopes n (finish_private_commitment g l e).
Proof. intros Hg Hl He. unfold finish_private_commitment. scope. Qed.
#[local] Hint Resolve finish_private_commitment_scopes : scope.

Lemma private_commitments_scopes `{CircuitType F} n (x y : F N) (e f : StateWrapperVar F N) :
  (init ≤ n)%N → below n (flat x) → below n (flat y) → below n (flat e) → below n (flat f) →
  scopes n (compute_private_commitments_with_shared_prefix x y e f).
Proof.
  intros Hn Hx Hy He Hf. pose proof (hasher_new_below n Hn).
  unfold compute_private_commitments_with_shared_prefix, determine_shared_prefix_length. scope.
Qed.
Lemma commitments_after_prefix_scopes n k l1 l2 :
  (init ≤ n)%N → below n l1 → below n l2 → scopes n (commitments_after_prefix k l1 l2).
Proof.
  intros Hn H1 H2. unfold commitments_after_prefix.
  eapply scopes_bind; [destruct (0 <? k)%nat; scope|]. next_call. scope.
Qed.
#[local] Hint Resolve private_commitments_scopes commitments_after_prefix_scopes : scope.

Lemma compute_commitments_scopes `{CircuitType F} n (x y : F N) (e f : StateWrapperVar F N) :
  (init ≤ n)%N → below n (flat x) → below n (flat y) → below n (flat e) → below n (flat f) →
  scopes n (compute_commitments_with_shared_prefix x e y f).
Proof.
  intros Hn Hx Hy He Hf. unfold compute_commitments_with_shared_prefix,
    compute_public_commitments_with_shared_prefix, determine_shared_prefix_length. scope.
Qed.
Lemma compute_partial_commitments_scopes `{CircuitType F} n k (x y : F N)
    (e f : StateWrapperVar F N) :
  (init ≤ n)%N → below n (flat x) → below n (flat y) → below n (flat e) → below n (flat f) →
  scopes n (compute_partial_commitments_with_shared_prefix k x e y f).
Proof.
  intros Hn Hx Hy He Hf. unfold compute_partial_commitments_with_shared_prefix,
    compute_public_partial_commitments_with_shared_prefix, determine_shared_prefix_length. scope.
Qed.
#[local] Hint Resolve compute_commitments_scopes compute_partial_commitments_scopes : scope.

Lemma compute_nullifier_scopes `{CircuitType F} n (e : StateWrapperVar F N) :
  (init ≤ n)%N → below n (flat e) → scopes n (compute_nullifier_gadget e).
Proof. intros Hn He. unfold compute_nullifier_gadget. scope. Qed.
Lemma compute_recovery_id_scopes `{CircuitType F} n (e : StateWrapperVar F N) :
  (init ≤ n)%N → below n (flat e) → scopes n (compute_recovery_id_gadget e).
Proof. intros Hn He. unfold compute_recovery_id_gadget. scope. Qed.
#[local] Hint Resolve compute_nullifier_scopes compute_recovery_id_scopes : scope.

Definition rotation_vars `{CircuitType F} {k} (a : StateElementRotationArgs F k) : list N :=
  flat (ra_old_version a) ++ flat (ra_old_private_share a) ++ flat (ra_old_opening a) ++
  [ra_merkle_root a; ra_nullifier a] ++ flat (ra_new_version a) ++
  flat (ra_new_private_share a) ++ [ra_new_commitment a; ra_recovery_id a].
Definition partial_rotation_vars `{CircuitType F} {k}
    (a : StateElementRotationArgsWithPartialCommitment F k) : list N :=
  flat (pa_old_version a) ++ flat (pa_old_private_share a) ++ flat (pa_old_opening a) ++
  [pa_merkle_root a; pa_nullifier a] ++ flat (pa_new_version a) ++
  flat (pa_new_private_share a) ++ flat (pa_new_partial_commitment a) ++ [pa_recovery_id a].

#[local] Hint Unfold rotation_vars partial_rotation_vars : scope_vars.

Lemma rotate_version_scopes `{CircuitType F} {k} n (a : StateElementRotationArgs F k) :
  (init ≤ n)%N → below n (rotation_vars a) → scopes n (rotate_version a).
Proof. intros Hn Ha. unfold rotate_version. scope. Qed.
Lemma rotate_version_partial_scopes `{CircuitType F} {k} n m
    (a : StateElementRotationArgsWithPartialCommitment F k) :
  (init ≤ n)%N → below n (partial_rotation_vars a) →
  scopes n (rotate_version_with_partial_commitment m a).
Proof. intros Hn Ha. unfold rotate_version_with_partial_commitment. scope. Qed.

Lemma compute_fee_take_scopes n a (rates : FeeRatesVar N) :
  (init ≤ n)%N → (a < n)%N → below n (flat rates) → scopes n (compute_fee_take a rates).
Proof. intros Hn Ha Hr. unfold compute_fee_take. scope. Qed.
Lemma total_fee_scopes n (t : FeeTakeVar N) : below n (flat t) → scopes n (total_fee t).
Proof. intros Ht. unfold total_fee. scope. Qed.
Lemma compute_note_commitment_scopes n (x : NoteVar N) :
  (init ≤ n)%N → below n (flat x) → scopes n (compute_note_commitment x).
Proof. intros Hn Hx. unfold compute_note_commitment. scope. Qed.
#[local] Hint Resolve compute_note_commitment_scopes : scope.
Lemma verify_note_commitment_scopes n (x : NoteVar N) c :
  (init ≤ n)%N → below n (flat x) → (c < n)%N → scopes n (verify_note_commitment x c).
Proof. intros Hn Hx Hc. unfold verify_note_commitment. scope. Qed.
Lemma verify_note_nullifier_scopes n c b e :
  (init ≤ n)%N → (c < n)%N → (b < n)%N → (e < n)%N → scopes n (verify_note_nullifier c b e).
Proof. intros Hn Hc Hb He. unfold verify_note_nullifier, compute_note_nullifier. scope. Qed.
End State.
#[export] Hint Resolve csprng_next_scopes encrypt_scopes recover_base_scopes
  compute_complementary_shares_scopes compute_commitment_scopes compute_partial_commitment_scopes
  private_commitment_scopes private_commitments_scopes compute_commitment_from_private_scopes
  compute_partial_commitments_scopes
  compute_nullifier_scopes compute_recovery_id_scopes rotate_version_scopes
  rotate_version_partial_scopes compute_fee_take_scopes total_fee_scopes
  compute_note_commitment_scopes verify_note_commitment_scopes verify_note_nullifier_scopes : scope.
#[export] Hint Unfold rotation_vars partial_rotation_vars : scope_vars.

(** The same for a single variable, as a variable *)
Lemma encrypt_var_scopes {Cs : PlonkCircuit} {init : N} {Sc : PlonkScoping init} n (x : N) c :
  (init ≤ n)%N → (x < n)%N → below n (flat c) →
  scopes (A:=N * N * PoseidonCSPRNGVar N) n (encrypt (F:=Id) x c).
Proof.
  intros Hn Hx Hc. assert (below n (flat (F:=Id) x)) as Hx'.
  { apply below_cons; [done|apply below_nil]. }
  exact (encrypt_scopes (F:=Id) n x c Hn Hx' Hc).
Qed.
#[export] Hint Resolve encrypt_var_scopes : scope.
