(* ===== verification/ProverCircuit.v ===== *)
(** * Provable circuits

    The trait [SingleProverCircuit] of src/crates/circuits/circuit-types/src/traits.rs:
    a witness type, a statement type and the constraints over them.  [synthesize] is the
    part of [prove_with_link_hint] that builds the constraint system: allocate the
    witness, allocate the statement as public inputs, apply the constraints.  The proof
    itself is made by mpc-jellyfish and is not modelled.

    The curve gadgets that the circuits call in jf-primitives (Schnorr verification,
    ElGamal encryption, multiplication of the generator) are an interface with the
    relation each of them constrains.

    [proved C stmt wit] says that there is an assignment that satisfies the constraints of
    the circuit at the public statement and contains the witness; [circuit_correct C R]
    says that this is so exactly for the witnesses of the relation [R]: what any prover,
    honest or not, gets accepted satisfies the relation, and the honest prover can fill in
    an accepted assignment for every witness of the relation. *)
From S2P Require Import Prelude Scalar Circuit CircuitTypes Gadgets Scoping.
Local Open Scope Z_scope.

(** ** Curve gadgets of the proof library *)

(** What the gadgets check, on values. *)
Class CurveSpec := {
  schnorr_verifies : SchnorrPublicKeyVar Scalar → list Scalar → SchnorrSignatureVar Scalar → Prop;
  elgamal_encryption : BabyJubJubPointVar Scalar → list Scalar → Scalar → NoteCiphertextVar Scalar;
  generator_mul : Scalar → BabyJubJubPointVar Scalar;
}.

Class CurveGadgets := {
  cs_verify_signature :
    SchnorrPublicKeyVar Var → list Var → SchnorrSignatureVar Var → Circuit unit;
  cs_elgamal_encrypt : BabyJubJubPointVar Var → list Var → Var → Circuit (NoteCiphertextVar Var);
  cs_fixed_base_scalar_mul : Var → Circuit (BabyJubJubPointVar Var);
}.

Class CurveLaws `{PlonkCircuit} (Cg : CurveGadgets) (Cv : CurveSpec) : Prop := {
  verify_signature_law (H : Prop) w pk msg sig : assignment w →
    (H → schnorr_verifies (cmap w pk) (w <$> msg) (cmap w sig)) →
    wp H w (cs_verify_signature pk msg sig)
      (λ _, schnorr_verifies (cmap w pk) (w <$> msg) (cmap w sig));
  elgamal_encrypt_law H w pk plaintext r : assignment w →
    length plaintext = NOTE_CIPHERTEXT_SIZE →
    wp H w (cs_elgamal_encrypt pk plaintext r)
      (λ c, cmap w c = elgamal_encryption (cmap w pk) (w <$> plaintext) (w r));
  fixed_base_scalar_mul_law H w k : assignment w →
    wp H w (cs_fixed_base_scalar_mul k) (λ p, cmap w p = generator_mul (w k));
}.

Class CurveScoping `{PlonkCircuit} (init : N) (Cg : CurveGadgets) : Prop := {
  verify_signature_scopes n pk msg sig : (init ≤ n)%N →
    below n (flat pk) → below n msg → below n (flat sig) →
    scopes n (cs_verify_signature pk msg sig);
  elgamal_encrypt_scopes n pk plaintext r : (init ≤ n)%N →
    below n (flat pk) → below n plaintext → (r < n)%N →
    scopes n (cs_elgamal_encrypt pk plaintext r);
  fixed_base_scalar_mul_scopes n k : (init ≤ n)%N →
    (k < n)%N → scopes n (cs_fixed_base_scalar_mul k);
}.
#[export] Hint Resolve verify_signature_scopes elgamal_encrypt_scopes
  fixed_base_scalar_mul_scopes : scope.

(** The proof library: a constraint system, which starts with [ps_init] variables, and the
    curve gadgets. *)
Class ProofSystem (Cv : CurveSpec) := {
  ps_plonk :: PlonkCircuit;
  ps_laws :: PlonkCircuitLaws;
  ps_init : N;
  ps_scoping :: PlonkScoping ps_init;
  ps_gadgets :: CurveGadgets;
  ps_curve :: CurveLaws ps_gadgets Cv;
  ps_curve_scoping :: CurveScoping ps_init ps_gadgets;
}.

(** ** Allocation (traits.rs) *)

Section Allocation.
Context `{PlonkCircuit}.

(** [from_vars] of a type with booleans constrains each of them. *)
Definition from_vars_bools {F} `{CircuitType F, WitnessType F} (vars : list Var)
    : Circuit (F Var) :=
  x ← from_vars (F:=F) vars;
  for_c cs_enforce_bool (bools (F:=F) x);;
  mret x.

Definition create_witness {F} `{CircuitType F, WitnessType F} (self : F Scalar)
    : Circuit (F Var) :=
  vars ← map_c (λ s, create_variable (λ _, s)) (flat (F:=F) self);
  from_vars_bools (F:=F) vars.

Definition create_public_var {F} `{CircuitType F} (self : F Scalar) : Circuit (F Var) :=
  vars ← map_c cs_create_public_variable (flat (F:=F) self);
  from_vars (F:=F) vars.
End Allocation.

(** ** Circuits *)

Record SingleProverCircuit := mkCircuit {
  Witness : Type → Type;
  Statement : Type → Type;
  witness_type : CircuitType Witness;
  witness_bools : WitnessType Witness;
  statement_type : CircuitType Statement;
  apply_constraints :
    ∀ (Cs : PlonkCircuit) (Cg : CurveGadgets), Witness Var → Statement Var → Circuit unit;
}.
#[global] Existing Instance witness_type.
#[global] Existing Instance witness_bools.
#[global] Existing Instance statement_type.

Definition synthesize {Cs : PlonkCircuit} {Cg : CurveGadgets} (C : SingleProverCircuit)
    (witness : Witness C Scalar) (statement : Statement C Scalar) : Circuit unit :=
  witness_var ← create_witness witness;
  statement_var ← create_public_var statement;
  apply_constraints C _ _ witness_var statement_var.

(** ** Correctness *)

Definition canonical {F} `{CircuitType F} (x : F Scalar) : Prop := Forall is_scalar (flat x).
Definition valid_witness {F} `{CircuitType F, WitnessType F} (x : F Scalar) : Prop :=
  canonical x ∧ Forall is_bit (bools x).

(** [k] consecutive variables *)
Definition vars_from (n : N) (k : nat) : list Var := (λ i, (n + N.of_nat i)%N) <$> seq 0 k.

(** The values of the first variables allocated: the witness that the assignment [w] of a
    prover contains, when [n] variables exist before the allocation. *)
Definition assigned_witness {F} `{CircuitType F} (w : N → Z) (n : N) (x : F Scalar) : Prop :=
  flat x = w <$> vars_from n (NUM (F:=F)).

(** The constraints check the relation [R] on the values of the variables, when the
    values satisfy [Pre]: what the verifier and the linked proofs establish. *)
Definition implements_under {Cv : CurveSpec} (C : SingleProverCircuit)
    (Pre R : Statement C Scalar → Witness C Scalar → Prop) : Prop :=
  ∀ (Cs : PlonkCircuit) (Laws : PlonkCircuitLaws) (Cg : CurveGadgets) (Cl : CurveLaws Cg Cv)
    (h : Prop) (w : N → Z) (W : assignment w) wv sv,
  Forall (λ i, is_bit (w i)) (bools wv) →
  Pre (cmap w sv) (cmap w wv) →
  (h → R (cmap w sv) (cmap w wv)) →
  wp h w (apply_constraints C Cs Cg wv sv) (λ _, R (cmap w sv) (cmap w wv)).

Definition implements {Cv : CurveSpec} (C : SingleProverCircuit)
    (R : Statement C Scalar → Witness C Scalar → Prop) : Prop :=
  ∀ (Cs : PlonkCircuit) (Laws : PlonkCircuitLaws) (Cg : CurveGadgets) (Cl : CurveLaws Cg Cv)
    (h : Prop) (w : N → Z) (W : assignment w) wv sv,
  Forall (λ i, is_bit (w i)) (bools wv) →
  (h → R (cmap w sv) (cmap w wv)) →
  wp h w (apply_constraints C Cs Cg wv sv) (λ _, R (cmap w sv) (cmap w wv)).

(** The constraints compute every new variable from earlier ones. *)
Definition well_scoped (C : SingleProverCircuit) : Prop :=
  ∀ (Cs : PlonkCircuit) (init : N) (Sc : PlonkScoping init) (Cg : CurveGadgets)
    (Cc : CurveScoping init Cg) n wv sv,
  (init ≤ n)%N → below n (flat wv) → below n (flat sv) →
  scopes n (apply_constraints C Cs Cg wv sv).

(** An accepted assignment that contains the witness. *)
Definition proved {Cv : CurveSpec} {S : ProofSystem Cv} (C : SingleProverCircuit)
    (stmt : Statement C Scalar) (wit : Witness C Scalar) : Prop :=
  ∃ w hint n', assignment w ∧ canonical stmt ∧
    accepts w ps_init (synthesize C hint stmt) tt n' ∧ assigned_witness w ps_init wit.

Definition circuit_correct_under {Cv : CurveSpec} (C : SingleProverCircuit)
    (Pre R : Statement C Scalar → Witness C Scalar → Prop) : Prop :=
  ∀ (S : ProofSystem Cv) stmt wit, Pre stmt wit →
  (proved C stmt wit ↔ canonical stmt ∧ valid_witness wit ∧ R stmt wit).

Definition circuit_correct {Cv : CurveSpec} (C : SingleProverCircuit)
    (R : Statement C Scalar → Witness C Scalar → Prop) : Prop :=
  ∀ (S : ProofSystem Cv) stmt wit,
  proved C stmt wit ↔ canonical stmt ∧ valid_witness wit ∧ R stmt wit.

Section Allocation_specs.
Context {Cs : PlonkCircuit} {Laws : PlonkCircuitLaws} {h : Prop} {w : N → Z} (W : assignment w).

Lemma map_fmap_spec (body : Scalar → Circuit N) (P : Scalar → N → Prop) (Q : Prop) xs :
  (∀ x, wp h w (body x) (P x)) → (∀ x v, Q → P x v → w v = scalar_from x) →
  wp h w (map_c body xs)
    (λ vs, length vs = length xs ∧ (Q → w <$> vs = scalar_from <$> xs)).
Proof.
  intros Hb HP. induction xs as [|x xs IH]; [by apply wp_ret|]. cbn [map_c].
  step Hb. intros v Hv. step IH. intros vs [Hl Hvs]. apply wp_ret. split.
  - simpl. by f_equal.
  - intros q. rewrite !fmap_cons, Hvs by done. f_equal. eauto.
Qed.

Lemma canonical_from {F} `{CircuitTypeLaws F} (x : F Scalar) :
  canonical x → cmap scalar_from x = x.
Proof.
  unfold canonical. intros Hx. apply flat_inj. rewrite flat_cmap.
  induction Hx as [|y l Hy _ IH]; [done|]. by rewrite fmap_cons, IH, scalar_from_id.
Qed.

Lemma cmap_canonical {F} `{CircuitTypeLaws F} (x : F N) : canonical (cmap w x).
Proof.
  unfold canonical. rewrite flat_cmap. apply Forall_fmap, Forall_true. intros v. apply W.
Qed.

Lemma create_public_var_spec {F} `{CircuitTypeLaws F} (x : F Scalar) :
  canonical x → wp h w (create_public_var x) (λ y, cmap w y = x).
Proof.
  intros Hx. unfold create_public_var.
  step (map_fmap_spec _ (λ s v, w v = scalar_from s) True); [intros s; by apply create_public_law|].
  intros vs [Hl Hvs]. eapply wp_mono; [apply from_vars_spec; by rewrite Hl, flat_length|].
  intros y Hy. apply flat_inj.
  by rewrite flat_cmap, Hy, Hvs, <-flat_cmap, canonical_from.
Qed.

Lemma create_witness_spec {F} `{CircuitTypeLaws F, WitnessType F, !WitnessTypeLaws F}
    (x : F Scalar) :
  (h → valid_witness x) →
  wp h w (create_witness x)
    (λ y, Forall (λ i, is_bit (w i)) (bools y) ∧ (h → cmap w y = x)).
Proof.
  intros Hx. unfold create_witness, from_vars_bools.
  step (map_fmap_spec _ (λ s v, h → w v = scalar_from s) h);
    [intros s; apply wp_create_variable|intros s v Hh Hv; by apply Hv|].
  intros vs [Hl Hvs]. step from_vars_spec; [by rewrite Hl, flat_length|].
  intros y Hy. assert (h → cmap w y = x) as E.
  { intros Hh. apply flat_inj. rewrite flat_cmap, Hy, Hvs by done.
    rewrite <-flat_cmap, canonical_from; [done|]. by apply Hx. }
  step (wp_for _ (λ i, is_bit (w i))).
  { intros b Hb. apply enforce_bool_law; [done|]. intros Hh.
    destruct (Hx Hh) as [_ Hbits]. rewrite <-(E Hh), bools_cmap, Forall_fmap in Hbits.
    rewrite Forall_forall in Hbits. by apply (Hbits b). }
  intros [] Hb. by apply wp_ret.
Qed.
End Allocation_specs.

Lemma accepts_bind {A B} w n (c : Circuit A) (k : A → Circuit B) b n' :
  accepts w n (c ≫= k) b n' → ∃ a m, accepts w n c a m ∧ accepts w m (k a) b n'.
Proof.
  revert n. induction c as [a|hint k' IH|g c IH|]; intros n Ha.
  - exists a, n. split; [constructor|done].
  - inversion Ha as [|? ? ? ? ? Hk|]; subst. apply IH in Hk as (a & m & ? & ?).
    exists a, m. split; [by constructor|done].
  - inversion Ha as [| |? ? ? ? ? Hg Hk]; subst. apply IH in Hk as (a & m & ? & ?).
    exists a, m. split; [by constructor|done].
  - inversion Ha.
Qed.

Lemma accepts_ret_inv {A} w n (a b : A) n' : accepts w n (mret a) b n' → a = b ∧ n = n'.
Proof. intros Ha. by inversion Ha. Qed.

Lemma accepts_det {A} w n (c : Circuit A) a n1 b n2 :
  accepts w n c a n1 → accepts w n c b n2 → a = b.
Proof. intros Ha. induction Ha; intros Hb; inversion Hb; subst; auto. Qed.

Lemma follows_bind {A B} w n (c : Circuit A) (k : A → Circuit B) :
  follows w n (c ≫= k) → follows w n c.
Proof. revert n. induction c; simpl; naive_solver. Qed.

Lemma wp_follows {A} w n (c : Circuit A) a n' Q :
  wp True w c Q → accepts w n c a n' → follows w n c → Q a.
Proof.
  intros Hc Ha Hf. destruct (wp_complete w n c Q Hc Hf) as (b & m & Hb & HQ).
  by rewrite (accepts_det _ _ _ _ _ _ _ Ha Hb).
Qed.

(** Allocated variables are consecutive. *)
Lemma accepts_create_variables w n (hint : Scalar → Assignment → Scalar) xs vs n' :
  accepts w n (map_c (λ s, create_variable (hint s)) xs) vs n' →
  vs = vars_from n (length xs).
Proof.
  revert n vs n'. induction xs as [|x xs IH]; intros n vs n' Ha; cbn [map_c] in Ha.
  - by apply accepts_ret_inv in Ha as [<- _].
  - apply accepts_bind in Ha as (v & m & Hv & Ha).
    inversion Hv as [|? ? ? ? ? Hr|]; subst. apply accepts_ret_inv in Hr as [<- <-].
    apply accepts_bind in Ha as (vs' & m & Hvs & Ha). apply IH in Hvs as ->.
    apply accepts_ret_inv in Ha as [<- _]. unfold vars_from. cbn [length seq fmap list_fmap].
    f_equal; [lia|]. rewrite <-fmap_S_seq, <-list_fmap_compose. apply list_fmap_ext.
    intros i j _. simpl. lia.
Qed.

Lemma accepts_create_witness {Cs : PlonkCircuit} {Laws : PlonkCircuitLaws} {F}
    `{CircuitTypeLaws F, WitnessType F} w n (x : F Scalar) y m :
  accepts w n (create_witness x) y m → flat y = vars_from n (NUM (F:=F)).
Proof.
  intros Ha. unfold create_witness in Ha. apply accepts_bind in Ha as (vs & k & Hvs & Ha).
  apply accepts_create_variables in Hvs. rewrite flat_length in Hvs.
  unfold from_vars_bools in Ha. apply accepts_bind in Ha as (z & k' & Hz & Ha).
  apply accepts_bind in Ha as ([] & k'' & _ & Ha). apply accepts_ret_inv in Ha as [<- _].
  rewrite <-Hvs. revert Hz. apply (wp_sound w k _ _ k' (λ z, flat z = vs)).
  apply from_vars_spec. unfold vars_from in Hvs. by rewrite Hvs, length_fmap, length_seq.
Qed.

(** ** Scoping of the allocation *)

Section Allocation_scoping.
Context {Cs : PlonkCircuit} {init : N} {Sc : PlonkScoping init}.

(** The booleans of a struct are among its variables. *)
Lemma bools_below {F} `{CircuitTypeLaws F, WitnessType F, !WitnessTypeLaws F} n (x : F N) :
  (0 < n)%N → below n (flat x) → below n (bools x).
Proof.
  intros Hn Hx. set (f := λ v : N, if (v <? n)%N then v else 0%N).
  assert (cmap f x = x) as E.
  { apply flat_inj. rewrite flat_cmap. induction Hx as [|v l Hv _ IH]; [done|].
    rewrite fmap_cons, IH. f_equal. unfold f. by destruct (N.ltb_spec v n); [|lia]. }
  rewrite <-E, bools_cmap. apply Forall_fmap, Forall_true. intros v. unfold f. simpl.
  destruct (N.ltb_spec v n); lia.
Qed.

Lemma create_witness_scopes {F} `{CircuitTypeLaws F, WitnessType F, !WitnessTypeLaws F} n
    (x : F Scalar) : (init ≤ n)%N → scopes n (create_witness x).
Proof.
  intros Hn. unfold create_witness, from_vars_bools.
  eapply scopes_bind; [apply scopes_map; intros; call|]. intros n1 vs L1 Hvs.
  eapply scopes_bind; [by apply from_vars_scopes|]. intros n2 y L2 Hy.
  pose proof zero_below. assert (below n2 (bools y)) as Hb by (apply bools_below; [lia|done]).
  eapply scopes_bind.
  { apply scopes_for. intros n3 b L3 Hb'. apply enforce_bool_scopes.
    pose proof (below_elem _ _ _ Hb Hb'). lia. }
  intros n3 [] L3 _. apply scopes_ret. by apply (below_mono n2).
Qed.

Lemma create_public_var_scopes {F} `{CircuitTypeLaws F} n (x : F Scalar) :
  scopes n (create_public_var x).
Proof.
  unfold create_public_var. eapply scopes_bind; [apply scopes_map; intros; call|].
  intros n1 vs L Hvs. by apply from_vars_scopes.
Qed.
End Allocation_scoping.

(** A circuit that checks its relation accepts only witnesses of it. *)
Lemma implements_under_sound {Cv : CurveSpec} {S : ProofSystem Cv} (C : SingleProverCircuit)
    (Pre R : Statement C Scalar → Witness C Scalar → Prop)
    `{!CircuitTypeLaws (Witness C), !WitnessTypeLaws (Witness C), !CircuitTypeLaws (Statement C)}
    stmt wit :
  implements_under C Pre R → proved C stmt wit → Pre stmt wit →
  canonical stmt ∧ valid_witness wit ∧ R stmt wit.
Proof.
  intros HC (w & hint & n' & W & Hs & Ha & Hwit) HPre. unfold synthesize in Ha.
  apply accepts_bind in Ha as (wv & m & Hw & Ha). apply accepts_bind in Ha as (sv & k & Hsv & Ha).
  pose proof (accepts_create_witness _ _ _ _ _ Hw) as Ew.
  apply (wp_sound w _ _ _ m _ (create_witness_spec (h:=False) W hint ltac:(done))) in Hw as [Hb _].
  apply (wp_sound w m _ _ k _ (create_public_var_spec (h:=False) W stmt Hs)) in Hsv as Es.
  assert (wit = cmap w wv) as ->.
  { apply flat_inj. unfold assigned_witness in Hwit. by rewrite flat_cmap, Ew. }
  split_and!; [done|split|].
  - by apply cmap_canonical.
  - rewrite bools_cmap. by apply Forall_fmap.
  - rewrite <-Es in HPre |- *. exact (wp_sound w k _ _ n' _
      (HC _ _ _ _ False w W wv sv Hb HPre (λ f, match f with end)) Ha).
Qed.

(** The honest prover proves every witness of the relation. *)
Lemma implements_under_complete {Cv : CurveSpec} {S : ProofSystem Cv} (C : SingleProverCircuit)
    (Pre R : Statement C Scalar → Witness C Scalar → Prop)
    `{!CircuitTypeLaws (Witness C), !WitnessTypeLaws (Witness C), !CircuitTypeLaws (Statement C)}
    stmt wit :
  implements_under C Pre R → well_scoped C →
  canonical stmt → valid_witness wit → Pre stmt wit → R stmt wit → proved C stmt wit.
Proof.
  intros HC Hsc Hs Hw HPre HR.
  assert (scopes ps_init (synthesize C wit stmt)) as Hscope.
  { unfold synthesize. eapply scopes_bind; [apply create_witness_scopes; lia|].
    intros n1 wv L1 Hwv. eapply scopes_bind; [apply create_public_var_scopes|].
    intros n2 sv L2 Hsv. apply (Hsc _ ps_init _ _ _); [lia|by apply (below_mono n1)|done]. }
  destruct (scoped_follows _ _ _ (λ v, if (v =? cs_one)%N then 1 else 0) Hscope)
    as (w & Hag & Hsc' & Hf).
  { intros v. destruct (v =? _)%N; [by vm_compute|apply is_scalar_0]. }
  assert (assignment w) as W.
  { split; [done|..]; rewrite Hag by (apply zero_below || apply one_below).
    - destruct (N.eqb_spec cs_zero cs_one); [by destruct zero_one|done].
    - by rewrite N.eqb_refl. }
  assert (wp True w (create_witness wit ≫= λ wv, sv ← create_public_var stmt;
    apply_constraints C _ _ wv sv) (λ _, True)) as Hwp.
  { step (create_witness_spec W (h:=True)). intros wv [Hb Ew].
    step (create_public_var_spec W). intros sv Es. rewrite <-(Ew I), <-Es in HPre, HR.
    eapply wp_mono; [exact (HC _ _ _ _ True w W wv sv Hb HPre (λ _, HR))|done]. }
  destruct (wp_complete w _ _ _ Hwp Hf) as ([] & n' & Ha & _).
  exists w, wit, n'. split_and!; [done..|].
  apply accepts_bind in Ha as (wv & m & Ha & _). pose proof (accepts_create_witness _ _ _ _ _ Ha) as E.
  apply (wp_follows w _ _ _ _ _ (create_witness_spec W (h:=True) wit (λ _, Hw))) in Ha as [_ Ew];
    [|by eapply follows_bind].
  unfold assigned_witness. by rewrite <-E, <-flat_cmap, Ew.
Qed.

Lemma implements_complete {Cv : CurveSpec} {S : ProofSystem Cv} (C : SingleProverCircuit)
    (R : Statement C Scalar → Witness C Scalar → Prop)
    `{!CircuitTypeLaws (Witness C), !WitnessTypeLaws (Witness C), !CircuitTypeLaws (Statement C)}
    stmt wit :
  implements C R → well_scoped C →
  canonical stmt → valid_witness wit → R stmt wit → proved C stmt wit.
Proof.
  intros HC Hsc Hs Hw HR. apply (implements_under_complete C (λ _ _, True) R); try done.
  intros Cs Laws Cg Cl h w W wv sv Hb _. by apply HC.
Qed.

Theorem implements_under_correct {Cv : CurveSpec} (C : SingleProverCircuit)
    (Pre R : Statement C Scalar → Witness C Scalar → Prop)
    `{!CircuitTypeLaws (Witness C), !WitnessTypeLaws (Witness C), !CircuitTypeLaws (Statement C)} :
  implements_under C Pre R → well_scoped C → circuit_correct_under C Pre R.
Proof.
  intros HC Hsc S stmt wit HPre. split.
  - intros Hp. by apply (implements_under_sound C Pre R).
  - intros (Hs & Hw & HR). by apply (implements_under_complete C Pre R).
Qed.

Theorem implements_correct {Cv : CurveSpec} (C : SingleProverCircuit)
    (R : Statement C Scalar → Witness C Scalar → Prop)
    `{!CircuitTypeLaws (Witness C), !WitnessTypeLaws (Witness C), !CircuitTypeLaws (Statement C)} :
  implements C R → well_scoped C → circuit_correct C R.
Proof.
  intros HC Hsc S stmt wit. apply (implements_under_correct C (λ _ _, True) R); [|done..].
  intros Cs Laws Cg Cl h w W wv sv Hb _. by apply HC.
Qed.

(** ** A reference proof system *)

(** A curve whose group is the field itself, with [1] as generator: an instance of the
    interface on which the circuits can be run. *)
Definition reference_curve : CurveSpec := {|
  schnorr_verifies pk msg sig :=
    sgv_s sig = scalar_from (pv_x (sgv_r sig) + dot msg (replicate (length msg) 1) *
                             pv_x (pkv_point pk));
  elgamal_encryption pk plaintext r :=
    let pad i := scalar_from (default 0 (plaintext !! i) + r * pv_x pk) in
    mkCiphertextVar (mkPointVar (scalar_from r) (scalar_from r))
      [# pad 0%nat; pad 1%nat; pad 2%nat];
  generator_mul k := mkPointVar (scalar_from k) (scalar_from k);
|}.

Definition reference_gadgets : CurveGadgets := {|
  cs_verify_signature pk msg sig :=
    constrain (λ w, w (sgv_s sig) =? scalar_from (w (pv_x (sgv_r sig)) +
      dot (w <$> msg) (replicate (length msg) 1) * w (pv_x (pkv_point pk))));
  cs_elgamal_encrypt pk plaintext r :=
    p0 ← unwrap_c (plaintext !! 0%nat);
    p1 ← unwrap_c (plaintext !! 1%nat);
    p2 ← unwrap_c (plaintext !! 2%nat);
    x ← computed (λ w, w r);
    y ← computed (λ w, w r);
    c0 ← computed (λ w, w p0 + w r * w (pv_x pk));
    c1 ← computed (λ w, w p1 + w r * w (pv_x pk));
    c2 ← computed (λ w, w p2 + w r * w (pv_x pk));
    mret (mkCiphertextVar (mkPointVar x y) [# c0; c1; c2]);
  cs_fixed_base_scalar_mul k :=
    x ← computed (λ w, w k);
    y ← computed (λ w, w k);
    mret (mkPointVar x y);
|}.

#[local] Existing Instance reference_plonk.

Lemma wp_computed_eq H w f : wp H w (computed f) (λ v, w v = scalar_from (f w)).
Proof. by apply wp_computed. Qed.

#[local] Instance reference_curve_laws : CurveLaws reference_gadgets reference_curve.
Proof.
  split.
  - intros H w pk msg sig W HV. apply wp_check; [|done]. rewrite Z.eqb_eq. simpl.
    by rewrite length_fmap.
  - intros H w pk plaintext r W Hl. destruct plaintext as [|p0 [|p1 [|p2 [|]]]]; try done.
    cbn [cs_elgamal_encrypt reference_gadgets]. step (wp_unwrap (Some p0)). intros ? [= <-]. step (wp_unwrap (Some p1)). intros ? [= <-].
    step (wp_unwrap (Some p2)). intros ? [= <-].
    step wp_computed_eq. intros x Ex. step wp_computed_eq. intros y Ey.
    step wp_computed_eq. intros c0 E0. step wp_computed_eq. intros c1 E1.
    step wp_computed_eq. intros c2 E2. apply wp_ret. simpl. by rewrite Ex, Ey, E0, E1, E2.
  - intros H w k W. cbn [cs_fixed_base_scalar_mul reference_gadgets]. step wp_computed_eq. intros x Ex. step wp_computed_eq. intros y Ey.
    apply wp_ret. simpl. by rewrite Ex, Ey.
Qed.

#[local] Hint Resolve computed_scopes : scope.
#[local] Instance reference_curve_scoping : CurveScoping 2 reference_gadgets.
Proof.
  split.
  - intros. apply scopes_gate.
  - intros n pk plaintext r Hn Hpk Hp Hr. cbn [cs_elgamal_encrypt reference_gadgets]. scope.
  - intros n k Hn Hk. cbn [cs_fixed_base_scalar_mul reference_gadgets]. scope.
Qed.

Definition reference_system : ProofSystem reference_curve := {|
  ps_plonk := reference_plonk;
  ps_init := 2;
  ps_gadgets := reference_gadgets;
|}.
