(* ===== verification/BalanceCircuits.v ===== *)
(** * Circuits that update a balance

    src/crates/circuits/circuits-core/src/zk_circuits/{valid_deposit,valid_withdrawal,
    valid_balance_create,valid_order_cancellation}.rs and fees/valid_note_redemption.rs.

    Each circuit comes with the relation that it proves about the public statement and
    the witness, and with the theorem that its constraints are equivalent to that
    relation ([circuit_correct]).  The relations are written with the functions of
    StateGadgets.v, so they say which state element is consumed and which one is
    committed to: [opens_to] and [creates]. *)
From S2P Require Import Prelude Scalar FixedPoint Poseidon2 StateWrapper Merkle Circuit.
From S2P Require Import CircuitTypes Gadgets PoseidonGadget StateGadgets ProverCircuit.
Local Open Scope Z_scope.

Abbreviation StateBalanceVar := (StateWrapperVar DarkpoolBalanceVar) (only parsing).
Abbreviation StateIntentVar := (StateWrapperVar IntentVar) (only parsing).

(** Field assignments on the structs of variables. *)
Definition with_amount {A} (a : A) (b : DarkpoolBalanceVar A) : DarkpoolBalanceVar A :=
  mkBalanceVar (bv_mint b) (bv_owner b) (bv_relayer_fee_recipient b) (bv_authority b)
    (bv_relayer_fee_balance b) (bv_protocol_fee_balance b) a.
Definition with_relayer_fee_balance {A} (a : A) (b : DarkpoolBalanceVar A) : DarkpoolBalanceVar A :=
  mkBalanceVar (bv_mint b) (bv_owner b) (bv_relayer_fee_recipient b) (bv_authority b)
    a (bv_protocol_fee_balance b) (bv_amount b).
Definition with_protocol_fee_balance {A} (a : A) (b : DarkpoolBalanceVar A)
    : DarkpoolBalanceVar A :=
  mkBalanceVar (bv_mint b) (bv_owner b) (bv_relayer_fee_recipient b) (bv_authority b)
    (bv_relayer_fee_balance b) a (bv_amount b).
Definition with_element {F A} (share_stream : PoseidonCSPRNGVar A) (inner public_share : F A)
    (e : StateWrapperVar F A) : StateWrapperVar F A :=
  mkWrapperVar (swv_recovery_stream e) share_stream inner public_share.

(** ** VALID DEPOSIT (valid_deposit.rs) *)

Record ValidDepositWitness (n : nat) (A : Type) := mkDepositWitness {
  dw_old_balance : StateBalanceVar A;
  dw_old_balance_opening : MerkleOpeningVar n A;
}.
Arguments mkDepositWitness {n A} _ _.
Arguments dw_old_balance {n A} _.
Arguments dw_old_balance_opening {n A} _.
#[global] Instance deposit_witness_type n : CircuitType (ValidDepositWitness n) :=
  struct_type (P:=ProdT StateBalanceVar (MerkleOpeningVar n))
    (λ A x, (dw_old_balance x, dw_old_balance_opening x)) (λ A p, mkDepositWitness p.1 p.2).
#[global] Instance deposit_witness_bools n : WitnessType (ValidDepositWitness n) :=
  struct_witness (P:=ProdT StateBalanceVar (MerkleOpeningVar n))
    (λ A x, (dw_old_balance x, dw_old_balance_opening x)).

Record ValidDepositStatement (A : Type) := mkDepositStatement {
  ds_deposit : DepositVar A;
  ds_merkle_root : A;
  ds_old_balance_nullifier : A;
  ds_new_balance_commitment : A;
  ds_recovery_id : A;
  ds_new_amount_share : A;
}.
Arguments mkDepositStatement {A} _ _ _ _ _ _.
Arguments ds_deposit {A} _.
Arguments ds_merkle_root {A} _.
Arguments ds_old_balance_nullifier {A} _.
Arguments ds_new_balance_commitment {A} _.
Arguments ds_recovery_id {A} _.
Arguments ds_new_amount_share {A} _.
#[global] Instance deposit_statement_type : CircuitType ValidDepositStatement :=
  struct_type (P:=ProdT DepositVar (Array 5))
    (λ A x, (ds_deposit x, [# ds_merkle_root x; ds_old_balance_nullifier x;
       ds_new_balance_commitment x; ds_recovery_id x; ds_new_amount_share x]))
    (λ A p, mkDepositStatement p.1 (p.2 !!! 0%fin) (p.2 !!! 1%fin) (p.2 !!! 2%fin) (p.2 !!! 3%fin)
       (p.2 !!! 4%fin)).

Section Deposit.
Context `{PlonkCircuit} {n : nat}.

Definition validate_deposit (statement : ValidDepositStatement Var)
    (witness : ValidDepositWitness n Var) : Circuit unit :=
  let deposit := ds_deposit statement in
  constrain_valid_amount (dv_amount deposit);;
  cs_enforce_equal (dv_token deposit) (bv_mint (swv_inner (dw_old_balance witness)));;
  cs_enforce_equal (dv_from deposit) (bv_owner (swv_inner (dw_old_balance witness))).

Definition create_new_balance (old_balance_private_shares : DarkpoolBalanceVar Var)
    (statement : ValidDepositStatement Var) (witness : ValidDepositWitness n Var)
    : Circuit (StateBalanceVar Var * DarkpoolBalanceVar Var) :=
  let new_balance := dw_old_balance witness in
  amount ← cs_add (bv_amount (swv_inner new_balance)) (dv_amount (ds_deposit statement));
  constrain_valid_amount amount;;
  '(new_amount_private_share, new_amount_public_share, share_stream) ←
    encrypt (F:=Id) amount (swv_share_stream new_balance);
  cs_enforce_equal new_amount_public_share (ds_new_amount_share statement);;
  mret (with_element share_stream (with_amount amount (swv_inner new_balance))
          (with_amount new_amount_public_share (swv_public_share new_balance)) new_balance,
        with_amount new_amount_private_share old_balance_private_shares).

Definition valid_deposit_circuit (witness : ValidDepositWitness n Var)
    (statement : ValidDepositStatement Var) : Circuit unit :=
  validate_deposit statement witness;;
  old_balance_private_shares ←
    compute_complementary_shares (swv_public_share (dw_old_balance witness))
      (swv_inner (dw_old_balance witness));
  '(new_balance, new_private_share) ←
    create_new_balance old_balance_private_shares statement witness;
  _ ← rotate_version {|
    ra_old_version := dw_old_balance witness;
    ra_old_private_share := old_balance_private_shares;
    ra_old_opening := dw_old_balance_opening witness;
    ra_merkle_root := ds_merkle_root statement;
    ra_nullifier := ds_old_balance_nullifier statement;
    ra_new_version := new_balance;
    ra_new_private_share := new_private_share;
    ra_new_commitment := ds_new_balance_commitment statement;
    ra_recovery_id := ds_recovery_id statement |};
  mret tt.
End Deposit.

Definition ValidDeposit (n : nat) : SingleProverCircuit := {|
  Witness := ValidDepositWitness n;
  Statement := ValidDepositStatement;
  apply_constraints _ _ witness statement := valid_deposit_circuit witness statement;
|}.

(** ** VALID WITHDRAWAL (valid_withdrawal.rs) *)

Record ValidWithdrawalWitness (n : nat) (A : Type) := mkWithdrawalWitness {
  ww_old_balance : StateBalanceVar A;
  ww_old_balance_opening : MerkleOpeningVar n A;
}.
Arguments mkWithdrawalWitness {n A} _ _.
Arguments ww_old_balance {n A} _.
Arguments ww_old_balance_opening {n A} _.
#[global] Instance withdrawal_witness_type n : CircuitType (ValidWithdrawalWitness n) :=
  struct_type (P:=ProdT StateBalanceVar (MerkleOpeningVar n))
    (λ A x, (ww_old_balance x, ww_old_balance_opening x)) (λ A p, mkWithdrawalWitness p.1 p.2).
#[global] Instance withdrawal_witness_bools n : WitnessType (ValidWithdrawalWitness n) :=
  struct_witness (P:=ProdT StateBalanceVar (MerkleOpeningVar n))
    (λ A x, (ww_old_balance x, ww_old_balance_opening x)).

Record ValidWithdrawalStatement (A : Type) := mkWithdrawalStatement {
  ws_withdrawal : WithdrawalVar A;
  ws_merkle_root : A;
  ws_old_balance_nullifier : A;
  ws_new_balance_commitment : A;
  ws_recovery_id : A;
  ws_new_amount_share : A;
}.
Arguments mkWithdrawalStatement {A} _ _ _ _ _ _.
Arguments ws_withdrawal {A} _.
Arguments ws_merkle_root {A} _.
Arguments ws_old_balance_nullifier {A} _.
Arguments ws_new_balance_commitment {A} _.
Arguments ws_recovery_id {A} _.
Arguments ws_new_amount_share {A} _.
#[global] Instance withdrawal_statement_type : CircuitType ValidWithdrawalStatement :=
  struct_type (P:=ProdT WithdrawalVar (Array 5))
    (λ A x, (ws_withdrawal x, [# ws_merkle_root x; ws_old_balance_nullifier x;
       ws_new_balance_commitment x; ws_recovery_id x; ws_new_amount_share x]))
    (λ A p, mkWithdrawalStatement p.1 (p.2 !!! 0%fin) (p.2 !!! 1%fin) (p.2 !!! 2%fin)
       (p.2 !!! 3%fin) (p.2 !!! 4%fin)).

Section Withdrawal.
Context `{PlonkCircuit} {n : nat}.

Definition validate_withdrawal (statement : ValidWithdrawalStatement Var)
    (witness : ValidWithdrawalWitness n Var) : Circuit unit :=
  let withdrawal := ws_withdrawal statement in
  let old_balance := swv_inner (ww_old_balance witness) in
  constrain_valid_amount (wv_amount withdrawal);;
  is_zero ← eq_zero (F:=Id) (wv_amount withdrawal);
  cs_enforce_false is_zero;;
  constrain_eq (F:=Id) (wv_token withdrawal) (bv_mint old_balance);;
  constrain_eq (F:=Id) (wv_to withdrawal) (bv_owner old_balance);;
  constrain_greater_than_eq (bv_amount old_balance) (wv_amount withdrawal) (Z.to_nat AMOUNT_BITS).

Definition verify_no_outstanding_fees (old_balance : DarkpoolBalanceVar Var) : Circuit unit :=
  let zero := cs_zero in
  constrain_eq (F:=Id) (bv_relayer_fee_balance old_balance) zero;;
  constrain_eq (F:=Id) (bv_protocol_fee_balance old_balance) zero.

Definition build_and_verify_new_balance (old_balance_private_shares : DarkpoolBalanceVar Var)
    (statement : ValidWithdrawalStatement Var) (witness : ValidWithdrawalWitness n Var)
    : Circuit (StateBalanceVar Var * DarkpoolBalanceVar Var) :=
  let old_balance := ww_old_balance witness in
  amount ← cs_sub (bv_amount (swv_inner old_balance)) (wv_amount (ws_withdrawal statement));
  '(new_amount_private_share, new_amount_public_share, share_stream) ←
    encrypt (F:=Id) amount (swv_share_stream old_balance);
  constrain_eq (F:=Id) new_amount_public_share (ws_new_amount_share statement);;
  mret (with_element share_stream (with_amount amount (swv_inner old_balance))
          (with_amount new_amount_public_share (swv_public_share old_balance)) old_balance,
        with_amount new_amount_private_share old_balance_private_shares).

Definition valid_withdrawal_circuit (witness : ValidWithdrawalWitness n Var)
    (statement : ValidWithdrawalStatement Var) : Circuit unit :=
  validate_withdrawal statement witness;;
  verify_no_outstanding_fees (swv_inner (ww_old_balance witness));;
  old_private ←
    compute_complementary_shares (swv_public_share (ww_old_balance witness))
      (swv_inner (ww_old_balance witness));
  '(new_balance, new_private_share) ←
    build_and_verify_new_balance old_private statement witness;
  _ ← rotate_version {|
    ra_old_version := ww_old_balance witness;
    ra_old_private_share := old_private;
    ra_old_opening := ww_old_balance_opening witness;
    ra_merkle_root := ws_merkle_root statement;
    ra_nullifier := ws_old_balance_nullifier statement;
    ra_new_version := new_balance;
    ra_new_private_share := new_private_share;
    ra_new_commitment := ws_new_balance_commitment statement;
    ra_recovery_id := ws_recovery_id statement |};
  mret tt.
End Withdrawal.

Definition ValidWithdrawal (n : nat) : SingleProverCircuit := {|
  Witness := ValidWithdrawalWitness n;
  Statement := ValidWithdrawalStatement;
  apply_constraints _ _ witness statement := valid_withdrawal_circuit witness statement;
|}.

(** ** VALID BALANCE CREATE (valid_balance_create.rs) *)

Record ValidBalanceCreateWitness (A : Type) := mkBalanceCreateWitness {
  cw_initial_share_stream : PoseidonCSPRNGVar A;
  cw_initial_recovery_stream : PoseidonCSPRNGVar A;
  cw_balance : DarkpoolBalanceVar A;
}.
Arguments mkBalanceCreateWitness {A} _ _ _.
Arguments cw_initial_share_stream {A} _.
Arguments cw_initial_recovery_stream {A} _.
Arguments cw_balance {A} _.
#[global] Instance balance_create_witness_type : CircuitType ValidBalanceCreateWitness :=
  struct_type (P:=ProdT PoseidonCSPRNGVar (ProdT PoseidonCSPRNGVar DarkpoolBalanceVar))
    (λ A x, (cw_initial_share_stream x, (cw_initial_recovery_stream x, cw_balance x)))
    (λ A p, mkBalanceCreateWitness p.1 p.2.1 p.2.2).

Record ValidBalanceCreateStatement (A : Type) := mkBalanceCreateStatement {
  cs_deposit : DepositVar A;
  cs_balance_commitment : A;
  cs_recovery_id : A;
  cs_new_balance_share : DarkpoolBalanceVar A;
}.
Arguments mkBalanceCreateStatement {A} _ _ _ _.
Arguments cs_deposit {A} _.
Arguments cs_balance_commitment {A} _.
Arguments cs_recovery_id {A} _.
Arguments cs_new_balance_share {A} _.
#[global] Instance balance_create_statement_type : CircuitType ValidBalanceCreateStatement :=
  struct_type (P:=ProdT DepositVar (ProdT Id (ProdT Id DarkpoolBalanceVar)))
    (λ A x, (cs_deposit x, (cs_balance_commitment x, (cs_recovery_id x, cs_new_balance_share x))))
    (λ A p, mkBalanceCreateStatement p.1 p.2.1 p.2.2.1 p.2.2.2).

Section BalanceCreate.
Context `{PlonkCircuit}.

Definition validate_create_deposit (statement : ValidBalanceCreateStatement Var)
    (witness : ValidBalanceCreateWitness Var) : Circuit unit :=
  let deposit := cs_deposit statement in
  let balance := cw_balance witness in
  constrain_valid_amount (dv_amount deposit);;
  constrain_eq (F:=Id) (dv_token deposit) (bv_mint balance);;
  constrain_eq (F:=Id) (dv_from deposit) (bv_owner balance).

Definition validate_new_balance (balance : DarkpoolBalanceVar Var) (deposit : DepositVar Var)
    : Circuit unit :=
  let zero := cs_zero in
  constrain_eq (F:=Id) (bv_amount balance) (dv_amount deposit);;
  constrain_eq (F:=Id) (bv_relayer_fee_balance balance) zero;;
  constrain_eq (F:=Id) (bv_protocol_fee_balance balance) zero.

Definition verify_balance_encryption (witness : ValidBalanceCreateWitness Var)
    (statement : ValidBalanceCreateStatement Var)
    : Circuit (StateBalanceVar Var * DarkpoolBalanceVar Var) :=
  let balance := cw_balance witness in
  '(private_share, public_share, initial_share_stream) ←
    encrypt balance (cw_initial_share_stream witness);
  constrain_eq public_share (cs_new_balance_share statement);;
  mret (mkWrapperVar (cw_initial_recovery_stream witness) initial_share_stream balance public_share,
        private_share).

Definition valid_balance_create_circuit (witness : ValidBalanceCreateWitness Var)
    (statement : ValidBalanceCreateStatement Var) : Circuit unit :=
  validate_create_deposit statement witness;;
  validate_new_balance (cw_balance witness) (cs_deposit statement);;
  '(new_balance, private_share) ← verify_balance_encryption witness statement;
  '(recovery_id, new_balance) ← compute_recovery_id_gadget new_balance;
  constrain_eq (F:=Id) recovery_id (cs_recovery_id statement);;
  commitment ← compute_commitment_gadget new_balance private_share;
  constrain_eq (F:=Id) commitment (cs_balance_commitment statement).
End BalanceCreate.

Definition ValidBalanceCreate : SingleProverCircuit := {|
  Witness := ValidBalanceCreateWitness;
  Statement := ValidBalanceCreateStatement;
  apply_constraints _ _ witness statement := valid_balance_create_circuit witness statement;
|}.

(** ** VALID ORDER CANCELLATION (valid_order_cancellation.rs) *)

Record ValidOrderCancellationWitness (n : nat) (A : Type) := mkCancellationWitness {
  ocw_old_intent : StateIntentVar A;
  ocw_old_intent_opening : MerkleOpeningVar n A;
}.
Arguments mkCancellationWitness {n A} _ _.
Arguments ocw_old_intent {n A} _.
Arguments ocw_old_intent_opening {n A} _.
#[global] Instance cancellation_witness_type n : CircuitType (ValidOrderCancellationWitness n) :=
  struct_type (P:=ProdT StateIntentVar (MerkleOpeningVar n))
    (λ A x, (ocw_old_intent x, ocw_old_intent_opening x)) (λ A p, mkCancellationWitness p.1 p.2).
#[global] Instance cancellation_witness_bools n : WitnessType (ValidOrderCancellationWitness n) :=
  struct_witness (P:=ProdT StateIntentVar (MerkleOpeningVar n))
    (λ A x, (ocw_old_intent x, ocw_old_intent_opening x)).

Record ValidOrderCancellationStatement (A : Type) := mkCancellationStatement {
  oc_merkle_root : A;
  oc_old_intent_nullifier : A;
  oc_owner : A;
}.
Arguments mkCancellationStatement {A} _ _ _.
Arguments oc_merkle_root {A} _.
Arguments oc_old_intent_nullifier {A} _.
Arguments oc_owner {A} _.
#[global] Instance cancellation_statement_type : CircuitType ValidOrderCancellationStatement :=
  struct_type (P:=Array 3)
    (λ A x, [# oc_merkle_root x; oc_old_intent_nullifier x; oc_owner x])
    (λ A p, mkCancellationStatement (p !!! 0%fin) (p !!! 1%fin) (p !!! 2%fin)).

Definition valid_order_cancellation_circuit `{PlonkCircuit} {n}
    (witness : ValidOrderCancellationWitness n Var)
    (statement : ValidOrderCancellationStatement Var) : Circuit unit :=
  let intent := ocw_old_intent witness in
  old_intent_private_shares ←
    compute_complementary_shares (swv_public_share intent) (swv_inner intent);
  old_intent_commitment ← compute_commitment_gadget intent old_intent_private_shares;
  compute_and_constrain_root_prehashed old_intent_commitment (ocw_old_intent_opening witness)
    (oc_merkle_root statement);;
  nullifier ← compute_nullifier_gadget intent;
  constrain_eq (F:=Id) nullifier (oc_old_intent_nullifier statement);;
  constrain_eq (F:=Id) (iv_owner (swv_inner intent)) (oc_owner statement).

Definition ValidOrderCancellation (n : nat) : SingleProverCircuit := {|
  Witness := ValidOrderCancellationWitness n;
  Statement := ValidOrderCancellationStatement;
  apply_constraints _ _ witness statement := valid_order_cancellation_circuit witness statement;
|}.

(** ** VALID NOTE REDEMPTION (fees/valid_note_redemption.rs) *)

Record ValidNoteRedemptionWitness (n : nat) (A : Type) := mkRedemptionWitness {
  nrw_note_opening : MerkleOpeningVar n A;
}.
Arguments mkRedemptionWitness {n A} _.
Arguments nrw_note_opening {n A} _.
#[global] Instance redemption_witness_type n : CircuitType (ValidNoteRedemptionWitness n) :=
  struct_type (P:=MerkleOpeningVar n) (λ A x, nrw_note_opening x) (λ A p, mkRedemptionWitness p).
#[global] Instance redemption_witness_bools n : WitnessType (ValidNoteRedemptionWitness n) :=
  struct_witness (P:=MerkleOpeningVar n) (λ A x, nrw_note_opening x).

Record ValidNoteRedemptionStatement (A : Type) := mkRedemptionStatement {
  nr_note : NoteVar A;
  nr_note_root : A;
  nr_note_nullifier : A;
}.
Arguments mkRedemptionStatement {A} _ _ _.
Arguments nr_note {A} _.
Arguments nr_note_root {A} _.
Arguments nr_note_nullifier {A} _.
#[global] Instance redemption_statement_type : CircuitType ValidNoteRedemptionStatement :=
  struct_type (P:=ProdT NoteVar (ProdT Id Id))
    (λ A x, (nr_note x, (nr_note_root x, nr_note_nullifier x)))
    (λ A p, mkRedemptionStatement p.1 p.2.1 p.2.2).

Definition valid_note_redemption_circuit `{PlonkCircuit} {n}
    (witness : ValidNoteRedemptionWitness n Var) (statement : ValidNoteRedemptionStatement Var)
    : Circuit unit :=
  let note := nr_note statement in
  note_commitment ← compute_note_commitment note;
  compute_and_constrain_root_prehashed note_commitment (nrw_note_opening witness)
    (nr_note_root statement);;
  verify_note_nullifier note_commitment (nv_blinder note) (nr_note_nullifier statement).

Definition ValidNoteRedemption (n : nat) : SingleProverCircuit := {|
  Witness := ValidNoteRedemptionWitness n;
  Statement := ValidNoteRedemptionStatement;
  apply_constraints _ _ witness statement := valid_note_redemption_circuit witness statement;
|}.

(** ** Relations *)

(** The element after one field is changed to [a] and encrypted with the next pad. *)
Definition v_next_pad {F : Type → Type} (e : StateWrapperVar F Scalar) : Scalar :=
  v_get_ith (swv_share_stream e) (csv_index (swv_share_stream e)).
Definition v_update_field {F : Type → Type} (set : Scalar → F Scalar → F Scalar)
    (e : StateWrapperVar F Scalar) (a : Scalar) : StateWrapperVar F Scalar :=
  with_element (v_advance (swv_share_stream e) 1) (set a (swv_inner e))
    (set (scalar_sub a (v_next_pad e)) (swv_public_share e)) e.
Abbreviation v_update_amount := (v_update_field with_amount) (only parsing).

Record valid_deposit_rel {n} (s : ValidDepositStatement Scalar)
    (x : ValidDepositWitness n Scalar) : Prop := {
  vd_amount : fits 100 (dv_amount (ds_deposit s));
  vd_token : dv_token (ds_deposit s) = bv_mint (swv_inner (dw_old_balance x));
  vd_owner : dv_from (ds_deposit s) = bv_owner (swv_inner (dw_old_balance x));
  vd_new_amount :
    fits 100 (scalar_add (bv_amount (swv_inner (dw_old_balance x))) (dv_amount (ds_deposit s)));
  vd_old : opens_to (dw_old_balance x) (v_complement (dw_old_balance x))
    (dw_old_balance_opening x) (ds_merkle_root s) (ds_old_balance_nullifier s);
  vd_new :
    let new := v_update_amount (dw_old_balance x)
      (scalar_add (bv_amount (swv_inner (dw_old_balance x))) (dv_amount (ds_deposit s))) in
    creates new (v_complement new) (ds_new_balance_commitment s) (ds_recovery_id s) ∧
    ds_new_amount_share s = bv_amount (swv_public_share new);
}.

Record valid_withdrawal_rel {n} (s : ValidWithdrawalStatement Scalar)
    (x : ValidWithdrawalWitness n Scalar) : Prop := {
  vw_amount : fits 100 (wv_amount (ws_withdrawal s));
  vw_nonzero : wv_amount (ws_withdrawal s) ≠ 0;
  vw_token : wv_token (ws_withdrawal s) = bv_mint (swv_inner (ww_old_balance x));
  vw_owner : wv_to (ws_withdrawal s) = bv_owner (swv_inner (ww_old_balance x));
  vw_new_amount :
    fits 100 (scalar_sub (bv_amount (swv_inner (ww_old_balance x))) (wv_amount (ws_withdrawal s)));
  vw_no_fees :
    bv_relayer_fee_balance (swv_inner (ww_old_balance x)) = 0 ∧
    bv_protocol_fee_balance (swv_inner (ww_old_balance x)) = 0;
  vw_old : opens_to (ww_old_balance x) (v_complement (ww_old_balance x))
    (ww_old_balance_opening x) (ws_merkle_root s) (ws_old_balance_nullifier s);
  vw_new :
    let new := v_update_amount (ww_old_balance x)
      (scalar_sub (bv_amount (swv_inner (ww_old_balance x))) (wv_amount (ws_withdrawal s))) in
    creates new (v_complement new) (ws_new_balance_commitment s) (ws_recovery_id s) ∧
    ws_new_amount_share s = bv_amount (swv_public_share new);
}.

(** The element with a fresh value, encrypted from the start of its share stream. *)
Definition v_fresh_element {F} `{CircuitType F} (recovery share : PoseidonCSPRNGVar Scalar)
    (value : F Scalar) : StateWrapperVar F Scalar :=
  mkWrapperVar recovery (v_advance share (NUM (F:=F))) value (v_public_share value share).

Record valid_balance_create_rel (s : ValidBalanceCreateStatement Scalar)
    (x : ValidBalanceCreateWitness Scalar) : Prop := {
  vc_amount : fits 100 (dv_amount (cs_deposit s));
  vc_token : dv_token (cs_deposit s) = bv_mint (cw_balance x);
  vc_owner : dv_from (cs_deposit s) = bv_owner (cw_balance x);
  vc_balance : bv_amount (cw_balance x) = dv_amount (cs_deposit s);
  vc_no_fees :
    bv_relayer_fee_balance (cw_balance x) = 0 ∧ bv_protocol_fee_balance (cw_balance x) = 0;
  vc_new :
    let new := v_fresh_element (cw_initial_recovery_stream x) (cw_initial_share_stream x)
      (cw_balance x) in
    creates new (v_complement new) (cs_balance_commitment s) (cs_recovery_id s) ∧
    cs_new_balance_share s = swv_public_share new;
}.

Record valid_order_cancellation_rel {n} (s : ValidOrderCancellationStatement Scalar)
    (x : ValidOrderCancellationWitness n Scalar) : Prop := {
  vo_old : opens_to (ocw_old_intent x) (v_complement (ocw_old_intent x))
    (ocw_old_intent_opening x) (oc_merkle_root s) (oc_old_intent_nullifier s);
  vo_owner : oc_owner s = iv_owner (swv_inner (ocw_old_intent x));
}.

Record valid_note_redemption_rel {n} (s : ValidNoteRedemptionStatement Scalar)
    (x : ValidNoteRedemptionWitness n Scalar) : Prop := {
  vn_root : nr_note_root s =
    opening_root (v_note_commitment (nr_note s)) (opening_path (nrw_note_opening x));
  vn_nullifier : nr_note_nullifier s = v_note_nullifier (nr_note s);
}.

(** ** Correctness *)

#[global] Instance deposit_witness_laws n : CircuitTypeLaws (ValidDepositWitness n).
Proof. solve_struct. Qed.
#[global] Instance deposit_witness_bools_laws n : WitnessTypeLaws (ValidDepositWitness n).
Proof. solve_struct_witness. Qed.
#[global] Instance deposit_statement_laws : CircuitTypeLaws ValidDepositStatement.
Proof. solve_struct. Qed.
#[global] Instance withdrawal_witness_laws n : CircuitTypeLaws (ValidWithdrawalWitness n).
Proof. solve_struct. Qed.
#[global] Instance withdrawal_witness_bools_laws n : WitnessTypeLaws (ValidWithdrawalWitness n).
Proof. solve_struct_witness. Qed.
#[global] Instance withdrawal_statement_laws : CircuitTypeLaws ValidWithdrawalStatement.
Proof. solve_struct. Qed.
#[global] Instance balance_create_witness_laws : CircuitTypeLaws ValidBalanceCreateWitness.
Proof. solve_struct. Qed.
#[global] Instance balance_create_statement_laws : CircuitTypeLaws ValidBalanceCreateStatement.
Proof. solve_struct. Qed.
#[global] Instance cancellation_witness_laws n : CircuitTypeLaws (ValidOrderCancellationWitness n).
Proof. solve_struct. Qed.
#[global] Instance cancellation_witness_bools_laws n :
  WitnessTypeLaws (ValidOrderCancellationWitness n).
Proof. solve_struct_witness. Qed.
#[global] Instance cancellation_statement_laws : CircuitTypeLaws ValidOrderCancellationStatement.
Proof. solve_struct. Qed.
#[global] Instance redemption_witness_laws n : CircuitTypeLaws (ValidNoteRedemptionWitness n).
Proof. solve_struct. Qed.
#[global] Instance redemption_witness_bools_laws n : WitnessTypeLaws (ValidNoteRedemptionWitness n).
Proof. solve_struct_witness. Qed.
#[global] Instance redemption_statement_laws : CircuitTypeLaws ValidNoteRedemptionStatement.
Proof. solve_struct. Qed.

Lemma v_get_ith_is_scalar c i : is_scalar (v_get_ith c i).
Proof. apply poseidon_hash_is_scalar. Qed.

Lemma scalar_sub_sub a p : is_scalar p → scalar_sub a (scalar_sub a p) = p.
Proof. intros Hp. rewrite <-(scalar_from_id p) at 2 by done. field_mod. Qed.

(** The private shares of an updated element: only the pad of the field changes. *)
Definition updates_field {F : Type → Type} `{CircuitType F} (set : Scalar → F Scalar → F Scalar) : Prop :=
  ∀ e a, v_complement (v_update_field set e a) =
    set (scalar_sub a (scalar_sub a (v_next_pad e))) (v_complement e).

Lemma updates_amount : updates_field with_amount.
Proof. by intros [r s i p] a. Qed.
Lemma updates_relayer_fee : updates_field with_relayer_fee_balance.
Proof. by intros [r s i p] a. Qed.
Lemma updates_protocol_fee : updates_field with_protocol_fee_balance.
Proof. by intros [r s i p] a. Qed.

Lemma complement_update_field {F : Type → Type} `{CircuitType F} (set : Scalar → F Scalar → F Scalar) e a :
  updates_field set →
  v_complement (v_update_field set e a) = set (v_next_pad e) (v_complement e).
Proof. intros Hs. by rewrite Hs, scalar_sub_sub by apply v_get_ith_is_scalar. Qed.

Section Specs.
Context {Cs : PlonkCircuit} {Laws : PlonkCircuitLaws} {h : Prop} {w : N → Z} (W : assignment w).

Lemma encrypt_var_spec (a : N) c :
  wp h w (encrypt (F:=Id) a c)
    (λ '(p, q, c'),
       w p = v_get_ith (cmap w c) (csv_index (cmap w c)) ∧
       w q = scalar_sub (w a) (v_get_ith (cmap w c) (csv_index (cmap w c))) ∧
       cmap w c' = v_advance (cmap w c) 1).
Proof.
  eapply wp_mono; [apply (encrypt_spec W (F:=Id))|]. intros [[p q] c'] (Hp & Hq & Hc).
  assert (w p = v_get_ith (cmap w c) (csv_index (cmap w c))) as Ep.
  { change (w p) with (cmap (F:=Id) w p). rewrite Hp. unfold v_private_share.
    change (NUM (F:=Id)) with 1%nat. by rewrite v_pads_cons by apply W. }
  split_and!; [done| |done]. change (w q) with (cmap (F:=Id) w q). rewrite Hq.
  unfold v_public_share. rewrite <-Hp. simpl. by rewrite Ep.
Qed.

Lemma create_new_balance_spec {n} priv st (wit : ValidDepositWitness n N) :
  let old := cmap w (dw_old_balance wit) in
  let a := scalar_add (bv_amount (swv_inner old)) (dv_amount (cmap w (ds_deposit st))) in
  let new := v_update_amount old a in
  (h → fits 100 a ∧ w (ds_new_amount_share st) = bv_amount (swv_public_share new)) →
  wp h w (create_new_balance priv st wit)
    (λ '(e, p), cmap w e = new ∧
       cmap w p = with_amount (v_next_pad old) (cmap w priv) ∧
       fits 100 a ∧ w (ds_new_amount_share st) = bv_amount (swv_public_share new)).
Proof.
  intros old a new Hh. unfold create_new_balance. step add_law. intros v Hv.
  change (w v = a) in Hv.
  step (constrain_valid_amount_spec W); [intros H; rewrite Hv; by apply Hh|].
  intros _ Hf. rewrite Hv in Hf. step encrypt_var_spec. intros [[p q] c] (Hp & Hq & Hc).
  rewrite Hv in Hq.
  step (enforce_equal_law h); [intros H; rewrite Hq; symmetry; by apply Hh|].
  intros _ E. apply wp_ret. split_and!; [..|done|by rewrite <-E].
  - transitivity (with_element (cmap w c) (with_amount (w v) (swv_inner old))
      (with_amount (w q) (swv_public_share old)) old); [done|]. by rewrite Hc, Hv, Hq.
  - transitivity (with_amount (w p) (cmap w priv)); [done|]. by rewrite Hp.
Qed.
End Specs.

Theorem valid_deposit_implements {Cv : CurveSpec} n :
  implements (ValidDeposit n) (valid_deposit_rel (n:=n)).
Proof.
  intros Cs Laws Cg Cl h w W wit st Hb Hrel. cbn [apply_constraints ValidDeposit].
  unfold valid_deposit_circuit, validate_deposit.
  apply wp_bind. step (constrain_valid_amount_spec W); [intros H; apply (Hrel H)|]. intros _ E1.
  step (enforce_equal_law h); [intros H; apply (Hrel H)|]. intros _ E2.
  eapply wp_mono; [apply enforce_equal_law; [done|intros H; apply (Hrel H)]|]. intros [] E3.
  step (complementary_shares_spec W). intros priv Hpriv.
  step (create_new_balance_spec W).
  { intros H. split; [apply (Hrel H)|]. apply (vd_new _ _ (Hrel H)). }
  intros [new p] (Hnew & Hp & Hf & Hs). rewrite Hpriv in Hp.
  step (rotate_complement_spec W); [by rewrite (complement_update_field _ _ _ updates_amount)| |].
  { intros H. split; [apply (Hrel H)|]. apply (vd_new _ _ (Hrel H)). }
  intros _ [Ho Hn]. apply wp_ret. by split.
Qed.

Section WithdrawalSpec.
Context {Cs : PlonkCircuit} {Laws : PlonkCircuitLaws} {h : Prop} {w : N → Z} (W : assignment w).

Lemma validate_withdrawal_spec {n} st (wit : ValidWithdrawalWitness n N) :
  let P :=
    fits 100 (w (wv_amount (ws_withdrawal st))) ∧ w (wv_amount (ws_withdrawal st)) ≠ 0 ∧
    w (wv_token (ws_withdrawal st)) = w (bv_mint (swv_inner (ww_old_balance wit))) ∧
    w (wv_to (ws_withdrawal st)) = w (bv_owner (swv_inner (ww_old_balance wit))) ∧
    fits 100 (scalar_sub (w (bv_amount (swv_inner (ww_old_balance wit))))
                (w (wv_amount (ws_withdrawal st)))) in
  (h → P) → wp h w (validate_withdrawal st wit) (λ _, P).
Proof.
  intros P HP. unfold validate_withdrawal.
  step (constrain_valid_amount_spec W); [intros H; apply (HP H)|]. intros _ E1.
  step (eq_zero_spec W). intros z Hz.
  step (enforce_false_law h).
  { intros H. rewrite Hz. destruct (Z.eqb_spec (w (wv_amount (ws_withdrawal st))) 0) as [E|E]; [|done].
    by destruct (HP H) as (_ & ? & _). }
  intros _ E2. rewrite Hz in E2.
  step (constrain_eq_var_spec W); [intros H; apply (HP H)|]. intros _ E3.
  step (constrain_eq_var_spec W); [intros H; apply (HP H)|]. intros _ E4.
  eapply wp_mono; [apply (constrain_greater_than_eq_spec W)|].
  - vm_compute. lia.
  - intros H. apply (HP H).
  - intros [] E5. split_and!; [done| |done..]. by destruct (Z.eqb_spec (w (wv_amount (ws_withdrawal st))) 0).
Qed.

Lemma constrain_zero_spec (a : N) :
  (h → w a = 0) → wp h w (constrain_eq (F:=Id) a cs_zero) (λ _, w a = 0).
Proof.
  intros Ha. pose proof (constrain_eq_var_spec (h:=h) W a cs_zero) as X.
  rewrite (assigned_zero w W) in X. auto.
Qed.

Lemma build_and_verify_new_balance_spec {n} priv st (wit : ValidWithdrawalWitness n N) :
  let old := cmap w (ww_old_balance wit) in
  let a := scalar_sub (bv_amount (swv_inner old)) (wv_amount (cmap w (ws_withdrawal st))) in
  let new := v_update_amount old a in
  (h → w (ws_new_amount_share st) = bv_amount (swv_public_share new)) →
  wp h w (build_and_verify_new_balance priv st wit)
    (λ '(e, p), cmap w e = new ∧
       cmap w p = with_amount (v_next_pad old) (cmap w priv) ∧
       w (ws_new_amount_share st) = bv_amount (swv_public_share new)).
Proof.
  intros old a new Hh. unfold build_and_verify_new_balance. step sub_law. intros v Hv.
  change (w v = a) in Hv. step (encrypt_var_spec W). intros [[p q] c] (Hp & Hq & Hc).
  rewrite Hv in Hq.
  step (constrain_eq_var_spec W); [intros H; rewrite Hq; symmetry; by apply Hh|].
  intros _ E. apply wp_ret. split_and!; [..|by rewrite <-E].
  - transitivity (with_element (cmap w c) (with_amount (w v) (swv_inner old))
      (with_amount (w q) (swv_public_share old)) old); [done|]. by rewrite Hc, Hv, Hq.
  - transitivity (with_amount (w p) (cmap w priv)); [done|]. by rewrite Hp.
Qed.
End WithdrawalSpec.

Theorem valid_withdrawal_implements {Cv : CurveSpec} n :
  implements (ValidWithdrawal n) (valid_withdrawal_rel (n:=n)).
Proof.
  intros Cs Laws Cg Cl h w W wit st Hb Hrel. cbn [apply_constraints ValidWithdrawal].
  unfold valid_withdrawal_circuit.
  step (validate_withdrawal_spec W); [intros H; by destruct (Hrel H)|].
  intros _ (E1 & E2 & E3 & E4 & E5).
  unfold verify_no_outstanding_fees. apply wp_bind.
  step (constrain_zero_spec W); [intros H; apply (vw_no_fees _ _ (Hrel H))|]. intros _ E6.
  eapply wp_mono; [apply (constrain_zero_spec W); intros H; apply (vw_no_fees _ _ (Hrel H))|].
  intros [] E7. step (complementary_shares_spec W). intros priv Hpriv.
  step (build_and_verify_new_balance_spec W); [intros H; apply (vw_new _ _ (Hrel H))|].
  intros [new p] (Hnew & Hp & Hs). rewrite Hpriv in Hp.
  step (rotate_complement_spec W); [by rewrite (complement_update_field _ _ _ updates_amount)| |].
  { intros H. split; [apply (Hrel H)|]. apply (vw_new _ _ (Hrel H)). }
  intros _ [Ho Hn]. apply wp_ret. by split.
Qed.

(** The private shares of a fresh element are the pads. *)
Lemma complement_fresh {F} `{CircuitTypeLaws F} r s (x : F Scalar) :
  v_complement (v_fresh_element r s x) = v_private_share x s.
Proof.
  apply flat_inj. unfold v_complement, v_fresh_element, v_public_share, v_private_share.
  cbn [swv_inner swv_public_share]. rewrite !cmap2_flat, refill_flat by apply v_pads_length.
  apply zip_sub_sub; [|by rewrite v_pads_length, flat_length].
  apply Forall_fmap, Forall_true. intros k. apply v_get_ith_is_scalar.
Qed.

Theorem valid_balance_create_implements {Cv : CurveSpec} :
  implements ValidBalanceCreate valid_balance_create_rel.
Proof.
  intros Cs Laws Cg Cl h w W wit st _ Hrel. cbn [apply_constraints ValidBalanceCreate].
  unfold valid_balance_create_circuit, validate_create_deposit, validate_new_balance.
  apply wp_bind. step (constrain_valid_amount_spec W); [intros H; apply (Hrel H)|]. intros _ E1.
  step (constrain_eq_var_spec W); [intros H; apply (Hrel H)|]. intros _ E2.
  eapply wp_mono; [apply (constrain_eq_var_spec W); intros H; apply (Hrel H)|]. intros [] E3.
  apply wp_bind. step (constrain_eq_var_spec W); [intros H; apply (Hrel H)|]. intros _ E4.
  step (constrain_zero_spec W); [intros H; apply (vc_no_fees _ _ (Hrel H))|]. intros _ E5.
  eapply wp_mono; [apply (constrain_zero_spec W); intros H; apply (vc_no_fees _ _ (Hrel H))|].
  intros [] E6. unfold verify_balance_encryption. apply wp_bind.
  step (encrypt_spec W). intros [[priv pub] c] (Hpriv & Hpub & Hc).
  step (constrain_eq_spec W).
  { intros H. rewrite Hpub. symmetry. apply (vc_new _ _ (Hrel H)). }
  intros _ E7. rewrite Hpub in E7. apply wp_ret. 
  set (new := v_fresh_element (cmap w (cw_initial_recovery_stream wit))
    (cmap w (cw_initial_share_stream wit)) (cmap w (cw_balance wit))).
  step (recovery_id_spec W). intros [rid e] [Hrid He].
  match type of He with cmap w e = v_advance_recovery ?x =>
    assert (x = new) as Ex by (simpl; unfold new, v_fresh_element; by rewrite <-Hpub, <-Hc) end.
  rewrite Ex in Hrid, He.
  step (constrain_eq_var_spec W).
  { intros H. rewrite Hrid. symmetry. apply (vc_new _ _ (Hrel H)). }
  intros _ E8. step (commitment_spec W). intros comm Hcomm.
  rewrite He, Hpriv, <-(complement_fresh (cmap w (cw_initial_recovery_stream wit))) in Hcomm.
  eapply wp_mono; [apply (constrain_eq_var_spec W)|].
  - intros H. rewrite Hcomm. symmetry. apply (vc_new _ _ (Hrel H)).
  - intros [] E9. split; [done..|]. split; [|done].
    split; [exact (eq_trans (eq_sym E8) Hrid)|exact (eq_trans (eq_sym E9) Hcomm)].
Qed.

Theorem valid_order_cancellation_implements {Cv : CurveSpec} n :
  implements (ValidOrderCancellation n) (valid_order_cancellation_rel (n:=n)).
Proof.
  intros Cs Laws Cg Cl h w W wit st Hb Hrel. cbn [apply_constraints ValidOrderCancellation].
  unfold valid_order_cancellation_circuit.
  step (complementary_shares_spec W). intros priv Hpriv.
  step (commitment_spec W). intros comm Hcomm. rewrite Hpriv in Hcomm.
  step (compute_and_constrain_root_prehashed_spec W).
  { intros H. rewrite Hcomm. apply (vo_old _ _ (Hrel H)). }
  intros _ E1. rewrite Hcomm in E1.
  step (nullifier_spec W); [intros H; apply (vo_old _ _ (Hrel H))|]. intros nl [Hi Hnl].
  step (constrain_eq_var_spec W).
  { intros H. rewrite Hnl. symmetry. apply (vo_old _ _ (Hrel H)). }
  intros _ E2. eapply wp_mono; [apply (constrain_eq_var_spec W)|].
  - intros H. symmetry. apply (Hrel H).
  - intros [] E3. split; [|exact (eq_sym E3)].
    split; [exact E1|exact Hi|exact (eq_trans (eq_sym E2) Hnl)].
Qed.

Theorem valid_note_redemption_implements {Cv : CurveSpec} n :
  implements (ValidNoteRedemption n) (valid_note_redemption_rel (n:=n)).
Proof.
  intros Cs Laws Cg Cl h w W wit st Hb Hrel. cbn [apply_constraints ValidNoteRedemption].
  unfold valid_note_redemption_circuit.
  step (note_commitment_gadget_spec W). intros c Hc.
  step (compute_and_constrain_root_prehashed_spec W).
  { intros H. rewrite Hc. apply (Hrel H). }
  intros _ E1. rewrite Hc in E1. eapply wp_mono; [apply (verify_note_nullifier_spec W)|].
  - intros H. rewrite Hc. apply (Hrel H).
  - intros [] E2. rewrite Hc in E2. by split.
Qed.
