(* ===== verification/FeeCircuits.v ===== *)
(** * Fee payment circuits

    src/crates/circuits/circuits-core/src/zk_circuits/fees/valid_{public,private}_
    {protocol,relayer}_fee_payment.rs, with verify_note_encryption of state_gadgets/note.rs
    and check_ciphertext of primitives/elgamal.rs.  Each circuit zeroes one of the two fee
    balances of a committed balance, in exchange for a note that is public or encrypted
    and committed to. *)
From S2P Require Import Prelude Scalar FixedPoint Poseidon2 StateWrapper Merkle Circuit.
From S2P Require Import CircuitTypes Gadgets PoseidonGadget StateGadgets ProverCircuit.
From S2P Require Import BalanceCircuits.
Local Open Scope Z_scope.

(** ** Note encryption *)

Section Encryption.
Context `{PlonkCircuit, CurveGadgets}.

Definition verify_decryption_key (decryption_key : Var)
    (encryption_key : BabyJubJubPointVar Var) : Circuit unit :=
  kG_point ← cs_fixed_base_scalar_mul decryption_key;
  constrain_eq kG_point encryption_key.

Definition check_ciphertext (plaintext : list Var) (key : BabyJubJubPointVar Var)
    (randomness : Var) (expected_ciphertext : NoteCiphertextVar Var) : Circuit unit :=
  ciphertext ← cs_elgamal_encrypt key plaintext randomness;
  constrain_eq ciphertext expected_ciphertext.

Definition verify_note_encryption (note : NoteVar Var) (encryption_key : BabyJubJubPointVar Var)
    (randomness : Var) (expected_ciphertext : NoteCiphertextVar Var) : Circuit unit :=
  let plaintext_fields := [nv_mint note; nv_amount note; nv_blinder note] in
  check_ciphertext plaintext_fields encryption_key randomness expected_ciphertext.
End Encryption.

(** ** Zeroing a fee balance *)

Section PostPayment.
Context `{PlonkCircuit}.

(** [compute_post_payment_balance] of the two protocol fee circuits *)
Definition compute_post_protocol_payment_balance
    (old_balance_private_shares : DarkpoolBalanceVar Var) (expected_share : Var)
    (old_balance : StateBalanceVar Var) : Circuit (StateBalanceVar Var * DarkpoolBalanceVar Var) :=
  '(new_fee_private_share, new_fee_public_share, share_stream) ←
    encrypt (F:=Id) cs_zero (swv_share_stream old_balance);
  constrain_eq (F:=Id) new_fee_public_share expected_share;;
  mret (with_element share_stream (with_protocol_fee_balance cs_zero (swv_inner old_balance))
          (with_protocol_fee_balance new_fee_public_share (swv_public_share old_balance))
          old_balance,
        with_protocol_fee_balance new_fee_private_share old_balance_private_shares).

(** [compute_post_payment_balance] of the two relayer fee circuits *)
Definition compute_post_relayer_payment_balance
    (old_balance_private_shares : DarkpoolBalanceVar Var) (expected_share : Var)
    (old_balance : StateBalanceVar Var) : Circuit (StateBalanceVar Var * DarkpoolBalanceVar Var) :=
  '(new_fee_private_share, new_fee_public_share, share_stream) ←
    encrypt (F:=Id) cs_zero (swv_share_stream old_balance);
  constrain_eq (F:=Id) new_fee_public_share expected_share;;
  mret (with_element share_stream (with_relayer_fee_balance cs_zero (swv_inner old_balance))
          (with_relayer_fee_balance new_fee_public_share (swv_public_share old_balance))
          old_balance,
        with_relayer_fee_balance new_fee_private_share old_balance_private_shares).
End PostPayment.

(** ** Public payments *)

(** [ValidPublicProtocolFeePaymentWitness] and [ValidPublicRelayerFeePaymentWitness] *)
Record PublicFeePaymentWitness (n : nat) (A : Type) := mkPublicFeeWitness {
  pfw_old_balance : StateBalanceVar A;
  pfw_old_balance_opening : MerkleOpeningVar n A;
}.
Arguments mkPublicFeeWitness {n A} _ _.
Arguments pfw_old_balance {n A} _.
Arguments pfw_old_balance_opening {n A} _.
#[global] Instance public_fee_witness_type n : CircuitType (PublicFeePaymentWitness n) :=
  struct_type (P:=ProdT StateBalanceVar (MerkleOpeningVar n))
    (λ A x, (pfw_old_balance x, pfw_old_balance_opening x)) (λ A p, mkPublicFeeWitness p.1 p.2).
#[global] Instance public_fee_witness_bools n : WitnessType (PublicFeePaymentWitness n) :=
  struct_witness (P:=ProdT StateBalanceVar (MerkleOpeningVar n))
    (λ A x, (pfw_old_balance x, pfw_old_balance_opening x)).

(** [ValidPublicProtocolFeePaymentStatement] and [ValidPublicRelayerFeePaymentStatement];
    the share is that of the fee balance that is paid. *)
Record PublicFeePaymentStatement (A : Type) := mkPublicFeeStatement {
  pfs_merkle_root : A;
  pfs_old_balance_nullifier : A;
  pfs_new_balance_commitment : A;
  pfs_recovery_id : A;
  pfs_new_fee_balance_share : A;
  pfs_note : NoteVar A;
}.
Arguments mkPublicFeeStatement {A} _ _ _ _ _ _.
Arguments pfs_merkle_root {A} _.
Arguments pfs_old_balance_nullifier {A} _.
Arguments pfs_new_balance_commitment {A} _.
Arguments pfs_recovery_id {A} _.
Arguments pfs_new_fee_balance_share {A} _.
Arguments pfs_note {A} _.
#[global] Instance public_fee_statement_type : CircuitType PublicFeePaymentStatement :=
  struct_type (P:=ProdT (Array 5) NoteVar)
    (λ A x, ([# pfs_merkle_root x; pfs_old_balance_nullifier x; pfs_new_balance_commitment x;
       pfs_recovery_id x; pfs_new_fee_balance_share x], pfs_note x))
    (λ A p, mkPublicFeeStatement (p.1 !!! 0%fin) (p.1 !!! 1%fin) (p.1 !!! 2%fin) (p.1 !!! 3%fin)
       (p.1 !!! 4%fin) p.2).

Section PublicPayment.
Context `{PlonkCircuit} {n : nat}.

Definition verify_public_protocol_note (statement : PublicFeePaymentStatement Var)
    (witness : PublicFeePaymentWitness n Var) : Circuit unit :=
  let note := pfs_note statement in
  let balance := swv_inner (pfw_old_balance witness) in
  protocol_fee_balance_zero ← eq_zero (F:=Id) (bv_protocol_fee_balance balance);
  cs_enforce_false protocol_fee_balance_zero;;
  constrain_eq (F:=Id) (nv_mint note) (bv_mint balance);;
  constrain_eq (F:=Id) (nv_amount note) (bv_protocol_fee_balance balance).

Definition verify_public_relayer_note (statement : PublicFeePaymentStatement Var)
    (witness : PublicFeePaymentWitness n Var) : Circuit unit :=
  let note := pfs_note statement in
  let balance := swv_inner (pfw_old_balance witness) in
  relayer_fee_balance_zero ← eq_zero (F:=Id) (bv_relayer_fee_balance balance);
  cs_enforce_false relayer_fee_balance_zero;;
  constrain_eq (F:=Id) (nv_mint note) (bv_mint balance);;
  constrain_eq (F:=Id) (nv_amount note) (bv_relayer_fee_balance balance);;
  constrain_eq (F:=Id) (nv_receiver note) (bv_relayer_fee_recipient balance).

(** The rotation at the end of both circuits. *)
Definition rotate_after_public_payment (statement : PublicFeePaymentStatement Var)
    (witness : PublicFeePaymentWitness n Var) (old_private : DarkpoolBalanceVar Var)
    (new_balance : StateBalanceVar Var) (new_private : DarkpoolBalanceVar Var) : Circuit unit :=
  _ ← rotate_version {|
    ra_old_version := pfw_old_balance witness;
    ra_old_private_share := old_private;
    ra_old_opening := pfw_old_balance_opening witness;
    ra_merkle_root := pfs_merkle_root statement;
    ra_nullifier := pfs_old_balance_nullifier statement;
    ra_new_version := new_balance;
    ra_new_private_share := new_private;
    ra_new_commitment := pfs_new_balance_commitment statement;
    ra_recovery_id := pfs_recovery_id statement |};
  mret tt.

Definition valid_public_protocol_fee_payment_circuit (witness : PublicFeePaymentWitness n Var)
    (statement : PublicFeePaymentStatement Var) : Circuit unit :=
  verify_public_protocol_note statement witness;;
  old_balance_private_shares ←
    compute_complementary_shares (swv_public_share (pfw_old_balance witness))
      (swv_inner (pfw_old_balance witness));
  '(new_balance, new_balance_private_shares) ←
    compute_post_protocol_payment_balance old_balance_private_shares
      (pfs_new_fee_balance_share statement) (pfw_old_balance witness);
  rotate_after_public_payment statement witness old_balance_private_shares new_balance
    new_balance_private_shares.

Definition valid_public_relayer_fee_payment_circuit (witness : PublicFeePaymentWitness n Var)
    (statement : PublicFeePaymentStatement Var) : Circuit unit :=
  verify_public_relayer_note statement witness;;
  old_balance_private_shares ←
    compute_complementary_shares (swv_public_share (pfw_old_balance witness))
      (swv_inner (pfw_old_balance witness));
  '(new_balance, new_balance_private_shares) ←
    compute_post_relayer_payment_balance old_balance_private_shares
      (pfs_new_fee_balance_share statement) (pfw_old_balance witness);
  rotate_after_public_payment statement witness old_balance_private_shares new_balance
    new_balance_private_shares.
End PublicPayment.

Definition ValidPublicProtocolFeePayment (n : nat) : SingleProverCircuit := {|
  Witness := PublicFeePaymentWitness n;
  Statement := PublicFeePaymentStatement;
  apply_constraints _ _ witness statement :=
    valid_public_protocol_fee_payment_circuit witness statement;
|}.
Definition ValidPublicRelayerFeePayment (n : nat) : SingleProverCircuit := {|
  Witness := PublicFeePaymentWitness n;
  Statement := PublicFeePaymentStatement;
  apply_constraints _ _ witness statement :=
    valid_public_relayer_fee_payment_circuit witness statement;
|}.

(** ** Private payment of the protocol fee *)

Record ValidPrivateProtocolFeePaymentWitness (n : nat) (A : Type) := mkPrivateProtocolWitness {
  ppw_old_balance : StateBalanceVar A;
  ppw_old_balance_opening : MerkleOpeningVar n A;
  ppw_blinder : A;
  ppw_encryption_randomness : A;
}.
Arguments mkPrivateProtocolWitness {n A} _ _ _ _.
Arguments ppw_old_balance {n A} _.
Arguments ppw_old_balance_opening {n A} _.
Arguments ppw_blinder {n A} _.
Arguments ppw_encryption_randomness {n A} _.
#[global] Instance private_protocol_witness_type n :
    CircuitType (ValidPrivateProtocolFeePaymentWitness n) :=
  struct_type (P:=ProdT StateBalanceVar (ProdT (MerkleOpeningVar n) (ProdT Id Id)))
    (λ A x, (ppw_old_balance x, (ppw_old_balance_opening x,
       (ppw_blinder x, ppw_encryption_randomness x))))
    (λ A p, mkPrivateProtocolWitness p.1 p.2.1 p.2.2.1 p.2.2.2).
#[global] Instance private_protocol_witness_bools n :
    WitnessType (ValidPrivateProtocolFeePaymentWitness n) :=
  struct_witness (P:=ProdT StateBalanceVar (ProdT (MerkleOpeningVar n) (ProdT Id Id)))
    (λ A x, (ppw_old_balance x, (ppw_old_balance_opening x,
       (ppw_blinder x, ppw_encryption_randomness x)))).

Record ValidPrivateProtocolFeePaymentStatement (A : Type) := mkPrivateProtocolStatement {
  pps_merkle_root : A;
  pps_old_balance_nullifier : A;
  pps_new_balance_commitment : A;
  pps_recovery_id : A;
  pps_new_protocol_fee_balance_share : A;
  pps_protocol_fee_receiver : A;
  pps_note_commitment : A;
  pps_note_ciphertext : NoteCiphertextVar A;
  pps_protocol_encryption_key : BabyJubJubPointVar A;
}.
Arguments mkPrivateProtocolStatement {A} _ _ _ _ _ _ _ _ _.
Arguments pps_merkle_root {A} _.
Arguments pps_old_balance_nullifier {A} _.
Arguments pps_new_balance_commitment {A} _.
Arguments pps_recovery_id {A} _.
Arguments pps_new_protocol_fee_balance_share {A} _.
Arguments pps_protocol_fee_receiver {A} _.
Arguments pps_note_commitment {A} _.
Arguments pps_note_ciphertext {A} _.
Arguments pps_protocol_encryption_key {A} _.
#[global] Instance private_protocol_statement_type :
    CircuitType ValidPrivateProtocolFeePaymentStatement :=
  struct_type (P:=ProdT (Array 7) (ProdT NoteCiphertextVar BabyJubJubPointVar))
    (λ A x, ([# pps_merkle_root x; pps_old_balance_nullifier x; pps_new_balance_commitment x;
       pps_recovery_id x; pps_new_protocol_fee_balance_share x; pps_protocol_fee_receiver x;
       pps_note_commitment x], (pps_note_ciphertext x, pps_protocol_encryption_key x)))
    (λ A p, mkPrivateProtocolStatement (p.1 !!! 0%fin) (p.1 !!! 1%fin) (p.1 !!! 2%fin)
       (p.1 !!! 3%fin) (p.1 !!! 4%fin) (p.1 !!! 5%fin) (p.1 !!! 6%fin) p.2.1 p.2.2).

Section PrivateProtocol.
Context `{PlonkCircuit, CurveGadgets} {n : nat}.

Definition verify_private_protocol_note (statement : ValidPrivateProtocolFeePaymentStatement Var)
    (witness : ValidPrivateProtocolFeePaymentWitness n Var) : Circuit unit :=
  let balance := swv_inner (ppw_old_balance witness) in
  protocol_fee_balance_zero ← eq_zero (F:=Id) (bv_protocol_fee_balance balance);
  cs_enforce_false protocol_fee_balance_zero;;
  let note := mkNoteVar (bv_mint balance) (bv_protocol_fee_balance balance)
    (pps_protocol_fee_receiver statement) (ppw_blinder witness) in
  verify_note_encryption note (pps_protocol_encryption_key statement)
    (ppw_encryption_randomness witness) (pps_note_ciphertext statement);;
  verify_note_commitment note (pps_note_commitment statement).

Definition valid_private_protocol_fee_payment_circuit
    (witness : ValidPrivateProtocolFeePaymentWitness n Var)
    (statement : ValidPrivateProtocolFeePaymentStatement Var) : Circuit unit :=
  verify_private_protocol_note statement witness;;
  old_balance_private_shares ←
    compute_complementary_shares (swv_public_share (ppw_old_balance witness))
      (swv_inner (ppw_old_balance witness));
  '(new_balance, new_balance_private_shares) ←
    compute_post_protocol_payment_balance old_balance_private_shares
      (pps_new_protocol_fee_balance_share statement) (ppw_old_balance witness);
  _ ← rotate_version {|
    ra_old_version := ppw_old_balance witness;
    ra_old_private_share := old_balance_private_shares;
    ra_old_opening := ppw_old_balance_opening witness;
    ra_merkle_root := pps_merkle_root statement;
    ra_nullifier := pps_old_balance_nullifier statement;
    ra_new_version := new_balance;
    ra_new_private_share := new_balance_private_shares;
    ra_new_commitment := pps_new_balance_commitment statement;
    ra_recovery_id := pps_recovery_id statement |};
  mret tt.
End PrivateProtocol.

Definition ValidPrivateProtocolFeePayment (n : nat) : SingleProverCircuit := {|
  Witness := ValidPrivateProtocolFeePaymentWitness n;
  Statement := ValidPrivateProtocolFeePaymentStatement;
  apply_constraints _ _ witness statement :=
    valid_private_protocol_fee_payment_circuit witness statement;
|}.

(** ** Private payment of the relayer fee *)

Record ValidPrivateRelayerFeePaymentWitness (n : nat) (A : Type) := mkPrivateRelayerWitness {
  prw_old_balance : StateBalanceVar A;
  prw_old_balance_opening : MerkleOpeningVar n A;
  prw_blinder : A;
}.
Arguments mkPrivateRelayerWitness {n A} _ _ _.
Arguments prw_old_balance {n A} _.
Arguments prw_old_balance_opening {n A} _.
Arguments prw_blinder {n A} _.
#[global] Instance private_relayer_witness_type n :
    CircuitType (ValidPrivateRelayerFeePaymentWitness n) :=
  struct_type (P:=ProdT StateBalanceVar (ProdT (MerkleOpeningVar n) Id))
    (λ A x, (prw_old_balance x, (prw_old_balance_opening x, prw_blinder x)))
    (λ A p, mkPrivateRelayerWitness p.1 p.2.1 p.2.2).
#[global] Instance private_relayer_witness_bools n :
    WitnessType (ValidPrivateRelayerFeePaymentWitness n) :=
  struct_witness (P:=ProdT StateBalanceVar (ProdT (MerkleOpeningVar n) Id))
    (λ A x, (prw_old_balance x, (prw_old_balance_opening x, prw_blinder x))).

Record ValidPrivateRelayerFeePaymentStatement (A : Type) := mkPrivateRelayerStatement {
  prs_merkle_root : A;
  prs_old_balance_nullifier : A;
  prs_new_balance_commitment : A;
  prs_recovery_id : A;
  prs_new_relayer_fee_balance_share : A;
  prs_relayer_fee_receiver : A;
  prs_note_commitment : A;
}.
Arguments mkPrivateRelayerStatement {A} _ _ _ _ _ _ _.
Arguments prs_merkle_root {A} _.
Arguments prs_old_balance_nullifier {A} _.
Arguments prs_new_balance_commitment {A} _.
Arguments prs_recovery_id {A} _.
Arguments prs_new_relayer_fee_balance_share {A} _.
Arguments prs_relayer_fee_receiver {A} _.
Arguments prs_note_commitment {A} _.
#[global] Instance private_relayer_statement_type :
    CircuitType ValidPrivateRelayerFeePaymentStatement :=
  struct_type (P:=Array 7)
    (λ A x, [# prs_merkle_root x; prs_old_balance_nullifier x; prs_new_balance_commitment x;
       prs_recovery_id x; prs_new_relayer_fee_balance_share x; prs_relayer_fee_receiver x;
       prs_note_commitment x])
    (λ A p, mkPrivateRelayerStatement (p !!! 0%fin) (p !!! 1%fin) (p !!! 2%fin) (p !!! 3%fin)
       (p !!! 4%fin) (p !!! 5%fin) (p !!! 6%fin)).

Section PrivateRelayer.
Context `{PlonkCircuit} {n : nat}.

Definition verify_private_relayer_note (statement : ValidPrivateRelayerFeePaymentStatement Var)
    (witness : ValidPrivateRelayerFeePaymentWitness n Var) : Circuit unit :=
  let balance := swv_inner (prw_old_balance witness) in
  relayer_fee_balance_zero ← eq_zero (F:=Id) (bv_relayer_fee_balance balance);
  cs_enforce_false relayer_fee_balance_zero;;
  let note := mkNoteVar (bv_mint balance) (bv_relayer_fee_balance balance)
    (bv_relayer_fee_recipient balance) (prw_blinder witness) in
  constrain_eq (F:=Id) (prs_relayer_fee_receiver statement) (nv_receiver note);;
  verify_note_commitment note (prs_note_commitment statement).

Definition valid_private_relayer_fee_payment_circuit
    (witness : ValidPrivateRelayerFeePaymentWitness n Var)
    (statement : ValidPrivateRelayerFeePaymentStatement Var) : Circuit unit :=
  verify_private_relayer_note statement witness;;
  old_balance_private_shares ←
    compute_complementary_shares (swv_public_share (prw_old_balance witness))
      (swv_inner (prw_old_balance witness));
  '(new_balance, new_balance_private_shares) ←
    compute_post_relayer_payment_balance old_balance_private_shares
      (prs_new_relayer_fee_balance_share statement) (prw_old_balance witness);
  _ ← rotate_version {|
    ra_old_version := prw_old_balance witness;
    ra_old_private_share := old_balance_private_shares;
    ra_old_opening := prw_old_balance_opening witness;
    ra_merkle_root := prs_merkle_root statement;
    ra_nullifier := prs_old_balance_nullifier statement;
    ra_new_version := new_balance;
    ra_new_private_share := new_balance_private_shares;
    ra_new_commitment := prs_new_balance_commitment statement;
    ra_recovery_id := prs_recovery_id statement |};
  mret tt.
End PrivateRelayer.

Definition ValidPrivateRelayerFeePayment (n : nat) : SingleProverCircuit := {|
  Witness := ValidPrivateRelayerFeePaymentWitness n;
  Statement := ValidPrivateRelayerFeePaymentStatement;
  apply_constraints _ _ witness statement :=
    valid_private_relayer_fee_payment_circuit witness statement;
|}.

(** ** Relations *)

(** The balance rotation of a payment: the fee field that [set] writes becomes zero. *)
Definition pays_fee {n} (set : Scalar → DarkpoolBalanceVar Scalar → DarkpoolBalanceVar Scalar)
    (share : DarkpoolBalanceVar Scalar → Scalar) (old : StateBalanceVar Scalar)
    (opening : MerkleOpeningVar n Scalar) (root nullifier commitment recovery_id new_share : Scalar)
    : Prop :=
  let new := v_update_field set old 0 in
  opens_to old (v_complement old) opening root nullifier ∧
  creates new (v_complement new) commitment recovery_id ∧
  new_share = share (swv_public_share new).

Record public_protocol_fee_rel {n} (s : PublicFeePaymentStatement Scalar)
    (x : PublicFeePaymentWitness n Scalar) : Prop := {
  pp_fee : bv_protocol_fee_balance (swv_inner (pfw_old_balance x)) ≠ 0;
  pp_mint : nv_mint (pfs_note s) = bv_mint (swv_inner (pfw_old_balance x));
  pp_amount : nv_amount (pfs_note s) = bv_protocol_fee_balance (swv_inner (pfw_old_balance x));
  pp_pays : pays_fee with_protocol_fee_balance bv_protocol_fee_balance (pfw_old_balance x)
    (pfw_old_balance_opening x) (pfs_merkle_root s) (pfs_old_balance_nullifier s)
    (pfs_new_balance_commitment s) (pfs_recovery_id s) (pfs_new_fee_balance_share s);
}.

Record public_relayer_fee_rel {n} (s : PublicFeePaymentStatement Scalar)
    (x : PublicFeePaymentWitness n Scalar) : Prop := {
  pr_fee : bv_relayer_fee_balance (swv_inner (pfw_old_balance x)) ≠ 0;
  pr_mint : nv_mint (pfs_note s) = bv_mint (swv_inner (pfw_old_balance x));
  pr_amount : nv_amount (pfs_note s) = bv_relayer_fee_balance (swv_inner (pfw_old_balance x));
  pr_receiver :
    nv_receiver (pfs_note s) = bv_relayer_fee_recipient (swv_inner (pfw_old_balance x));
  pr_pays : pays_fee with_relayer_fee_balance bv_relayer_fee_balance (pfw_old_balance x)
    (pfw_old_balance_opening x) (pfs_merkle_root s) (pfs_old_balance_nullifier s)
    (pfs_new_balance_commitment s) (pfs_recovery_id s) (pfs_new_fee_balance_share s);
}.

Record private_protocol_fee_rel {Cv : CurveSpec} {n}
    (s : ValidPrivateProtocolFeePaymentStatement Scalar)
    (x : ValidPrivateProtocolFeePaymentWitness n Scalar) : Prop := {
  qp_fee : bv_protocol_fee_balance (swv_inner (ppw_old_balance x)) ≠ 0;
  qp_note :
    let b := swv_inner (ppw_old_balance x) in
    let note := mkNoteVar (bv_mint b) (bv_protocol_fee_balance b) (pps_protocol_fee_receiver s)
      (ppw_blinder x) in
    pps_note_ciphertext s =
      elgamal_encryption (pps_protocol_encryption_key s)
        [nv_mint note; nv_amount note; nv_blinder note] (ppw_encryption_randomness x) ∧
    pps_note_commitment s = v_note_commitment note;
  qp_pays : pays_fee with_protocol_fee_balance bv_protocol_fee_balance (ppw_old_balance x)
    (ppw_old_balance_opening x) (pps_merkle_root s) (pps_old_balance_nullifier s)
    (pps_new_balance_commitment s) (pps_recovery_id s) (pps_new_protocol_fee_balance_share s);
}.

Record private_relayer_fee_rel {n} (s : ValidPrivateRelayerFeePaymentStatement Scalar)
    (x : ValidPrivateRelayerFeePaymentWitness n Scalar) : Prop := {
  qr_fee : bv_relayer_fee_balance (swv_inner (prw_old_balance x)) ≠ 0;
  qr_receiver :
    prs_relayer_fee_receiver s = bv_relayer_fee_recipient (swv_inner (prw_old_balance x));
  qr_note :
    let b := swv_inner (prw_old_balance x) in
    prs_note_commitment s =
      v_note_commitment (mkNoteVar (bv_mint b) (bv_relayer_fee_balance b)
        (bv_relayer_fee_recipient b) (prw_blinder x));
  qr_pays : pays_fee with_relayer_fee_balance bv_relayer_fee_balance (prw_old_balance x)
    (prw_old_balance_opening x) (prs_merkle_root s) (prs_old_balance_nullifier s)
    (prs_new_balance_commitment s) (prs_recovery_id s) (prs_new_relayer_fee_balance_share s);
}.

(** ** Correctness *)

#[global] Instance public_fee_witness_laws n : CircuitTypeLaws (PublicFeePaymentWitness n).
Proof. solve_struct. Qed.
#[global] Instance public_fee_witness_bools_laws n : WitnessTypeLaws (PublicFeePaymentWitness n).
Proof. solve_struct_witness. Qed.
#[global] Instance public_fee_statement_laws : CircuitTypeLaws PublicFeePaymentStatement.
Proof. solve_struct. Qed.
#[global] Instance private_protocol_witness_laws n :
  CircuitTypeLaws (ValidPrivateProtocolFeePaymentWitness n).
Proof. solve_struct. Qed.
#[global] Instance private_protocol_witness_bools_laws n :
  WitnessTypeLaws (ValidPrivateProtocolFeePaymentWitness n).
Proof. solve_struct_witness. Qed.
#[global] Instance private_protocol_statement_laws :
  CircuitTypeLaws ValidPrivateProtocolFeePaymentStatement.
Proof. solve_struct. Qed.
#[global] Instance private_relayer_witness_laws n :
  CircuitTypeLaws (ValidPrivateRelayerFeePaymentWitness n).
Proof. solve_struct. Qed.
#[global] Instance private_relayer_witness_bools_laws n :
  WitnessTypeLaws (ValidPrivateRelayerFeePaymentWitness n).
Proof. solve_struct_witness. Qed.
#[global] Instance private_relayer_statement_laws :
  CircuitTypeLaws ValidPrivateRelayerFeePaymentStatement.
Proof. solve_struct. Qed.

Section Specs.
Context {Cs : PlonkCircuit} {Laws : PlonkCircuitLaws} {h : Prop} {w : N → Z} (W : assignment w).

(** [eq_zero] followed by [enforce_false] *)
Lemma enforce_nonzero_spec {B} (a : N) (k : Circuit B) Q :
  (h → w a ≠ 0) → (w a ≠ 0 → wp h w k Q) →
  wp h w (z ← eq_zero (F:=Id) a; cs_enforce_false z;; k) Q.
Proof.
  intros Hn Hk. step (eq_zero_spec W). intros z Hz. step (enforce_false_law h).
  { intros H. rewrite Hz. destruct (Z.eqb_spec (w a) 0) as [E|E]; [|done]. by destruct (Hn H). }
  intros _ E. rewrite Hz in E. apply Hk. by destruct (Z.eqb_spec (w a) 0).
Qed.

Lemma post_protocol_payment_spec priv share (old : StateBalanceVar N) :
  let new := v_update_field with_protocol_fee_balance (cmap w old) 0 in
  (h → w share = bv_protocol_fee_balance (swv_public_share new)) →
  wp h w (compute_post_protocol_payment_balance priv share old)
    (λ '(e, p), cmap w e = new ∧
       cmap w p = with_protocol_fee_balance (v_next_pad (cmap w old)) (cmap w priv) ∧
       w share = bv_protocol_fee_balance (swv_public_share new)).
Proof.
  intros new Hh. unfold compute_post_protocol_payment_balance.
  step (encrypt_var_spec W). intros [[p q] c] (Hp & Hq & Hc).
  rewrite (assigned_zero w W) in Hq.
  step (constrain_eq_var_spec W); [intros H; rewrite Hq; symmetry; by apply Hh|].
  intros _ E. apply wp_ret. split_and!; [..|by rewrite <-E].
  - transitivity (with_element (cmap w c) (with_protocol_fee_balance (w cs_zero)
      (swv_inner (cmap w old))) (with_protocol_fee_balance (w q) (swv_public_share (cmap w old)))
      (cmap w old)); [done|]. by rewrite Hc, Hq, (assigned_zero w W).
  - transitivity (with_protocol_fee_balance (w p) (cmap w priv)); [done|]. by rewrite Hp.
Qed.

Lemma post_relayer_payment_spec priv share (old : StateBalanceVar N) :
  let new := v_update_field with_relayer_fee_balance (cmap w old) 0 in
  (h → w share = bv_relayer_fee_balance (swv_public_share new)) →
  wp h w (compute_post_relayer_payment_balance priv share old)
    (λ '(e, p), cmap w e = new ∧
       cmap w p = with_relayer_fee_balance (v_next_pad (cmap w old)) (cmap w priv) ∧
       w share = bv_relayer_fee_balance (swv_public_share new)).
Proof.
  intros new Hh. unfold compute_post_relayer_payment_balance.
  step (encrypt_var_spec W). intros [[p q] c] (Hp & Hq & Hc).
  rewrite (assigned_zero w W) in Hq.
  step (constrain_eq_var_spec W); [intros H; rewrite Hq; symmetry; by apply Hh|].
  intros _ E. apply wp_ret. split_and!; [..|by rewrite <-E].
  - transitivity (with_element (cmap w c) (with_relayer_fee_balance (w cs_zero)
      (swv_inner (cmap w old))) (with_relayer_fee_balance (w q) (swv_public_share (cmap w old)))
      (cmap w old)); [done|]. by rewrite Hc, Hq, (assigned_zero w W).
  - transitivity (with_relayer_fee_balance (w p) (cmap w priv)); [done|]. by rewrite Hp.
Qed.

(** The common second half of the four circuits: complementary shares, the new balance,
    the rotation. *)
Lemma pays_fee_spec {n} set share (post : DarkpoolBalanceVar N → N → StateBalanceVar N →
      Circuit (StateBalanceVar N * DarkpoolBalanceVar N))
    old (o : MerkleOpeningVar n N) root nl comm rid sh :
  let new := v_update_field set (cmap w old) 0 in
  let P := pays_fee set share (cmap w old) (cmap w o) (w root) (w nl) (w comm) (w rid) (w sh) in
  updates_field set → Forall (λ i, is_bit (w i)) (bools o) →
  (∀ priv, (h → w sh = share (swv_public_share new)) →
     wp h w (post priv sh old) (λ '(e, p), cmap w e = new ∧
       cmap w p = set (v_next_pad (cmap w old)) (cmap w priv) ∧
       w sh = share (swv_public_share new))) →
  (h → P) →
  wp h w (priv ← compute_complementary_shares (swv_public_share old) (swv_inner old);
          '(e, p) ← post priv sh old;
          _ ← rotate_version (mkRotationArgs old priv o root nl e p comm rid);
          mret tt) (λ _, P).
Proof.
  intros new P Hset Hb Hpost HP. step (complementary_shares_spec W). intros priv Hpriv.
  step Hpost; [intros H; apply (HP H)|]. intros [e p] (He & Hp & Hs). rewrite Hpriv in Hp.
  step (rotate_complement_spec W); [unfold new; by rewrite (complement_update_field _ _ _ Hset)| |].
  { intros H. split; apply (HP H). }
  intros _ [Ho Hn]. by apply wp_ret.
Qed.
End Specs.

Theorem public_protocol_fee_implements {Cv : CurveSpec} n :
  implements (ValidPublicProtocolFeePayment n) (public_protocol_fee_rel (n:=n)).
Proof.
  intros Cs Laws Cg Cl h w W wit st Hb Hrel. cbn [apply_constraints ValidPublicProtocolFeePayment].
  unfold valid_public_protocol_fee_payment_circuit, verify_public_protocol_note. apply wp_bind.
  apply (enforce_nonzero_spec W); [intros H; apply (Hrel H)|]. intros E0.
  step (constrain_eq_var_spec W); [intros H; apply (Hrel H)|]. intros _ E1.
  eapply wp_mono; [apply (constrain_eq_var_spec W); intros H; apply (Hrel H)|]. intros [] E2.
  eapply wp_mono; [apply (pays_fee_spec W with_protocol_fee_balance bv_protocol_fee_balance);
    [apply updates_protocol_fee|exact Hb|intros; by apply (post_protocol_payment_spec W)|
     intros H; apply (Hrel H)]|].
  intros [] P. by split.
Qed.

Theorem public_relayer_fee_implements {Cv : CurveSpec} n :
  implements (ValidPublicRelayerFeePayment n) (public_relayer_fee_rel (n:=n)).
Proof.
  intros Cs Laws Cg Cl h w W wit st Hb Hrel. cbn [apply_constraints ValidPublicRelayerFeePayment].
  unfold valid_public_relayer_fee_payment_circuit, verify_public_relayer_note. apply wp_bind.
  apply (enforce_nonzero_spec W); [intros H; apply (Hrel H)|]. intros E0.
  step (constrain_eq_var_spec W); [intros H; apply (Hrel H)|]. intros _ E1.
  step (constrain_eq_var_spec W); [intros H; apply (Hrel H)|]. intros _ E2.
  eapply wp_mono; [apply (constrain_eq_var_spec W); intros H; apply (Hrel H)|]. intros [] E3.
  eapply wp_mono; [apply (pays_fee_spec W with_relayer_fee_balance bv_relayer_fee_balance);
    [apply updates_relayer_fee|exact Hb|intros; by apply (post_relayer_payment_spec W)|
     intros H; apply (Hrel H)]|].
  intros [] P. by split.
Qed.

Theorem private_protocol_fee_implements {Cv : CurveSpec} n :
  implements (ValidPrivateProtocolFeePayment n) (private_protocol_fee_rel (n:=n)).
Proof.
  intros Cs Laws Cg Cl h w W wit st Hb Hrel. cbn [apply_constraints ValidPrivateProtocolFeePayment].
  change (Forall (λ i, is_bit (w i)) (bools (ppw_old_balance_opening wit) ++ [])) in Hb.
  rewrite app_nil_r in Hb.
  unfold valid_private_protocol_fee_payment_circuit, verify_private_protocol_note. apply wp_bind.
  apply (enforce_nonzero_spec W); [intros H; apply (Hrel H)|]. intros E0.
  unfold verify_note_encryption, check_ciphertext. apply wp_bind.
  step elgamal_encrypt_law. intros ct Hct.
  eapply wp_mono; [apply (constrain_eq_spec W)|].
  { intros H. rewrite Hct. symmetry. apply (qp_note _ _ (Hrel H)). }
  intros [] E1. rewrite Hct in E1.
  eapply wp_mono; [apply (verify_note_commitment_spec W); intros H; apply (qp_note _ _ (Hrel H))|].
  intros [] E2.
  eapply wp_mono; [apply (pays_fee_spec W with_protocol_fee_balance bv_protocol_fee_balance);
    [apply updates_protocol_fee|exact Hb|
     intros; by apply (post_protocol_payment_spec W)|intros H; apply (Hrel H)]|].
  intros [] P. split; [done| |done]. split; [exact (eq_sym E1)|exact E2].
Qed.

Theorem private_relayer_fee_implements {Cv : CurveSpec} n :
  implements (ValidPrivateRelayerFeePayment n) (private_relayer_fee_rel (n:=n)).
Proof.
  intros Cs Laws Cg Cl h w W wit st Hb Hrel. cbn [apply_constraints ValidPrivateRelayerFeePayment].
  change (Forall (λ i, is_bit (w i)) (bools (prw_old_balance_opening wit) ++ [])) in Hb.
  rewrite app_nil_r in Hb.
  unfold valid_private_relayer_fee_payment_circuit, verify_private_relayer_note. apply wp_bind.
  apply (enforce_nonzero_spec W); [intros H; apply (Hrel H)|]. intros E0.
  step (constrain_eq_var_spec W); [intros H; apply (Hrel H)|]. intros _ E1.
  eapply wp_mono; [apply (verify_note_commitment_spec W); intros H; apply (Hrel H)|]. intros [] E2.
  eapply wp_mono; [apply (pays_fee_spec W with_relayer_fee_balance bv_relayer_fee_balance);
    [apply updates_relayer_fee|exact Hb|
     intros; by apply (post_relayer_payment_spec W)|intros H; apply (Hrel H)]|].
  intros [] P. by split.
Qed.
