(* ===== verification/ValidityCircuits.v ===== *)
(** * Validity circuits

    src/crates/circuits/circuits-core/src/zk_circuits/validity_proofs/{intent_only,
    intent_only_first_fill,intent_and_balance,intent_and_balance_first_fill,output_balance,
    new_output_balance}.rs.  A validity proof shows that the state elements of a party to a
    match exist (or are newly authorised), gives their nullifiers, and re-encrypts the
    fields that the settlement will change.  The commitment to the new version is
    partial: the settlement circuits determine the remaining public shares.

    The relations and theorems have the form described in BalanceCircuits.v. *)
From S2P Require Import Prelude Scalar FixedPoint Poseidon2 StateWrapper Merkle Circuit.
From S2P Require Import CircuitTypes Gadgets PoseidonGadget StateGadgets ProverCircuit.
From S2P Require Import BalanceCircuits.
Local Open Scope Z_scope.

(** [IntentShare::NUM_SCALARS - 1] *)
Definition INTENT_PARTIAL_COMMITMENT_SIZE : nat := NUM (F:=IntentVar) - 1.
(** [DarkpoolBalance::NUM_SCALARS - PostMatchBalance::NUM_SCALARS] *)
Definition BALANCE_PARTIAL_COMMITMENT_SIZE : nat :=
  NUM (F:=DarkpoolBalanceVar) - NUM (F:=PostMatchBalanceVar).

Definition with_amount_in {A} (a : A) (i : IntentVar A) : IntentVar A :=
  mkIntentVar (iv_in_token i) (iv_out_token i) (iv_owner i) (iv_min_price i) a.

(** The body shared by the [build_new_intent] functions: encrypt [amount_in] anew. *)
Definition reencrypt_amount_in_gadget `{PlonkCircuit} (private_shares : IntentVar Var)
    (old_intent : StateIntentVar Var) : Circuit (StateIntentVar Var * IntentVar Var) :=
  '(new_amount_private_share, new_amount_public_share, share_stream) ←
    encrypt (F:=Id) (iv_amount_in (swv_inner old_intent)) (swv_share_stream old_intent);
  mret (with_element share_stream (swv_inner old_intent)
          (with_amount_in new_amount_public_share (swv_public_share old_intent)) old_intent,
        with_amount_in new_amount_private_share private_shares).

(** The body shared by the functions that build a new balance: encrypt the fields that
    a match changes anew.  The post-match public share is returned with the balance. *)
Definition reencrypt_post_match_gadget `{PlonkCircuit} (private_shares : DarkpoolBalanceVar Var)
    (old_balance : StateBalanceVar Var)
    : Circuit (StateBalanceVar Var * DarkpoolBalanceVar Var * PostMatchBalanceVar Var) :=
  let post_match_balance := build_post_match_balance (swv_inner old_balance) in
  '(new_private_share, new_public_share, share_stream) ←
    encrypt post_match_balance (swv_share_stream old_balance);
  mret (with_element share_stream (swv_inner old_balance)
          (update_balance_share_post_match (swv_public_share old_balance) new_public_share)
          old_balance,
        update_balance_share_post_match private_shares new_private_share,
        new_public_share).

(** ** INTENT ONLY VALIDITY (intent_only.rs) *)

Record IntentOnlyValidityWitness (n : nat) (A : Type) := mkIntentOnlyWitness {
  iow_old_intent : StateIntentVar A;
  iow_old_intent_opening : MerkleOpeningVar n A;
  iow_intent : IntentVar A;
}.
Arguments mkIntentOnlyWitness {n A} _ _ _.
Arguments iow_old_intent {n A} _.
Arguments iow_old_intent_opening {n A} _.
Arguments iow_intent {n A} _.
#[global] Instance IntentOnlyValidityWitness_type n : CircuitType (IntentOnlyValidityWitness n) :=
  struct_type (P:=ProdT StateIntentVar (ProdT (MerkleOpeningVar n) IntentVar))
    (λ A x, (iow_old_intent x, (iow_old_intent_opening x, iow_intent x)))
    (λ A p, mkIntentOnlyWitness p.1 p.2.1 p.2.2).
#[global] Instance IntentOnlyValidityWitness_bools n : WitnessType (IntentOnlyValidityWitness n) :=
  struct_witness (P:=ProdT StateIntentVar (ProdT (MerkleOpeningVar n) IntentVar))
    (λ A x, (iow_old_intent x, (iow_old_intent_opening x, iow_intent x))).
Record IntentOnlyValidityStatement (A : Type) := mkIntentOnlyStatement {
  ios_owner : A;
  ios_merkle_root : A;
  ios_old_intent_nullifier : A;
  ios_new_amount_public_share : A;
  ios_new_intent_partial_commitment : PartialCommitmentVar A;
  ios_recovery_id : A;
}.
Arguments mkIntentOnlyStatement {A} _ _ _ _ _ _.
Arguments ios_owner {A} _.
Arguments ios_merkle_root {A} _.
Arguments ios_old_intent_nullifier {A} _.
Arguments ios_new_amount_public_share {A} _.
Arguments ios_new_intent_partial_commitment {A} _.
Arguments ios_recovery_id {A} _.
#[global] Instance IntentOnlyValidityStatement_type : CircuitType IntentOnlyValidityStatement :=
  struct_type (P:=ProdT Id (ProdT Id (ProdT Id (ProdT Id (ProdT PartialCommitmentVar Id)))))
    (λ A x, (ios_owner x, (ios_merkle_root x, (ios_old_intent_nullifier x,
      (ios_new_amount_public_share x, (ios_new_intent_partial_commitment x, ios_recovery_id
      x))))))
    (λ A p, mkIntentOnlyStatement p.1 p.2.1 p.2.2.1 p.2.2.2.1 p.2.2.2.2.1 p.2.2.2.2.2).

Definition intent_only_validity_circuit `{PlonkCircuit} {n}
    (witness : IntentOnlyValidityWitness n Var) (statement : IntentOnlyValidityStatement Var)
    : Circuit unit :=
  old_private_shares ←
    compute_complementary_shares (swv_public_share (iow_old_intent witness))
      (swv_inner (iow_old_intent witness));
  '(new_intent, new_private_shares) ←
    reencrypt_amount_in_gadget old_private_shares (iow_old_intent witness);
  constrain_eq (swv_inner new_intent) (iow_intent witness);;
  constrain_eq (F:=Id) (iv_amount_in (swv_public_share new_intent))
    (ios_new_amount_public_share statement);;
  constrain_eq (F:=Id) (iv_owner (swv_inner new_intent)) (ios_owner statement);;
  _ ← rotate_version_with_partial_commitment INTENT_PARTIAL_COMMITMENT_SIZE {|
    pa_old_version := iow_old_intent witness;
    pa_old_private_share := old_private_shares;
    pa_old_opening := iow_old_intent_opening witness;
    pa_merkle_root := ios_merkle_root statement;
    pa_nullifier := ios_old_intent_nullifier statement;
    pa_new_version := new_intent;
    pa_new_private_share := new_private_shares;
    pa_new_partial_commitment := ios_new_intent_partial_commitment statement;
    pa_recovery_id := ios_recovery_id statement |};
  mret tt.

Definition IntentOnlyValidityCircuit (n : nat) : SingleProverCircuit := {|
  Witness := IntentOnlyValidityWitness n;
  Statement := IntentOnlyValidityStatement;
  apply_constraints _ _ witness statement := intent_only_validity_circuit witness statement;
|}.

(** ** INTENT ONLY FIRST FILL VALIDITY (intent_only_first_fill.rs) *)

Record IntentOnlyFirstFillValidityWitness (A : Type) := mkIntentOnlyFirstFillWitness {
  fow_intent : IntentVar A;
  fow_initial_intent_share_stream : PoseidonCSPRNGVar A;
  fow_initial_intent_recovery_stream : PoseidonCSPRNGVar A;
  fow_private_shares : IntentVar A;
}.
Arguments mkIntentOnlyFirstFillWitness {A} _ _ _ _.
Arguments fow_intent {A} _.
Arguments fow_initial_intent_share_stream {A} _.
Arguments fow_initial_intent_recovery_stream {A} _.
Arguments fow_private_shares {A} _.
#[global] Instance IntentOnlyFirstFillValidityWitness_type : CircuitType IntentOnlyFirstFillValidityWitness :=
  struct_type (P:=ProdT IntentVar (ProdT PoseidonCSPRNGVar (ProdT PoseidonCSPRNGVar IntentVar)))
    (λ A x, (fow_intent x, (fow_initial_intent_share_stream x,
      (fow_initial_intent_recovery_stream x, fow_private_shares x))))
    (λ A p, mkIntentOnlyFirstFillWitness p.1 p.2.1 p.2.2.1 p.2.2.2).
Record IntentOnlyFirstFillValidityStatement (A : Type) := mkIntentOnlyFirstFillStatement {
  fos_owner : A;
  fos_intent_private_commitment : A;
  fos_recovery_id : A;
  fos_intent_public_share : IntentVar A;
}.
Arguments mkIntentOnlyFirstFillStatement {A} _ _ _ _.
Arguments fos_owner {A} _.
Arguments fos_intent_private_commitment {A} _.
Arguments fos_recovery_id {A} _.
Arguments fos_intent_public_share {A} _.
#[global] Instance IntentOnlyFirstFillValidityStatement_type : CircuitType IntentOnlyFirstFillValidityStatement :=
  struct_type (P:=ProdT Id (ProdT Id (ProdT Id IntentVar)))
    (λ A x, (fos_owner x, (fos_intent_private_commitment x, (fos_recovery_id x,
      fos_intent_public_share x))))
    (λ A p, mkIntentOnlyFirstFillStatement p.1 p.2.1 p.2.2.1 p.2.2.2).

Section IntentOnlyFirstFill.
Context `{PlonkCircuit}.

Definition build_and_validate_public_intent (witness : IntentOnlyFirstFillValidityWitness Var)
    (statement : IntentOnlyFirstFillValidityStatement Var) : Circuit (StateIntentVar Var) :=
  let intent := fow_intent witness in
  constrain_valid_amount (iv_amount_in intent);;
  constrain_valid_price (iv_min_price intent);;
  constrain_eq (F:=Id) (iv_owner intent) (fos_owner statement);;
  public_share ← compute_complementary_shares (fow_private_shares witness) intent;
  constrain_eq public_share (fos_intent_public_share statement);;
  mret (mkWrapperVar (fow_initial_intent_recovery_stream witness)
          (fow_initial_intent_share_stream witness) intent public_share).

Definition intent_only_first_fill_circuit (witness : IntentOnlyFirstFillValidityWitness Var)
    (statement : IntentOnlyFirstFillValidityStatement Var) : Circuit unit :=
  intent ← build_and_validate_public_intent witness statement;
  '(recovery_id, intent) ← compute_recovery_id_gadget intent;
  constrain_eq (F:=Id) recovery_id (fos_recovery_id statement);;
  private_commitment ← compute_private_commitment_gadget (fow_private_shares witness) intent;
  constrain_eq (F:=Id) private_commitment (fos_intent_private_commitment statement).
End IntentOnlyFirstFill.

Definition IntentOnlyFirstFillValidityCircuit : SingleProverCircuit := {|
  Witness := IntentOnlyFirstFillValidityWitness;
  Statement := IntentOnlyFirstFillValidityStatement;
  apply_constraints _ _ witness statement := intent_only_first_fill_circuit witness statement;
|}.

(** ** INTENT AND BALANCE VALIDITY (intent_and_balance.rs) *)

Record IntentAndBalanceValidityWitness (n : nat) (A : Type) := mkIntentAndBalanceWitness {
  ibw_old_intent : StateIntentVar A;
  ibw_old_intent_opening : MerkleOpeningVar n A;
  ibw_intent : IntentVar A;
  ibw_new_amount_public_share : A;
  ibw_old_balance : StateBalanceVar A;
  ibw_old_balance_opening : MerkleOpeningVar n A;
  ibw_balance : DarkpoolBalanceVar A;
  ibw_post_match_balance_shares : PostMatchBalanceVar A;
}.
Arguments mkIntentAndBalanceWitness {n A} _ _ _ _ _ _ _ _.
Arguments ibw_old_intent {n A} _.
Arguments ibw_old_intent_opening {n A} _.
Arguments ibw_intent {n A} _.
Arguments ibw_new_amount_public_share {n A} _.
Arguments ibw_old_balance {n A} _.
Arguments ibw_old_balance_opening {n A} _.
Arguments ibw_balance {n A} _.
Arguments ibw_post_match_balance_shares {n A} _.
#[global] Instance IntentAndBalanceValidityWitness_type n : CircuitType (IntentAndBalanceValidityWitness n) :=
  struct_type (P:=ProdT StateIntentVar (ProdT (MerkleOpeningVar n) (ProdT IntentVar (ProdT Id
    (ProdT StateBalanceVar (ProdT (MerkleOpeningVar n) (ProdT DarkpoolBalanceVar
    PostMatchBalanceVar)))))))
    (λ A x, (ibw_old_intent x, (ibw_old_intent_opening x, (ibw_intent x,
      (ibw_new_amount_public_share x, (ibw_old_balance x, (ibw_old_balance_opening x, (ibw_balance
      x, ibw_post_match_balance_shares x))))))))
    (λ A p, mkIntentAndBalanceWitness p.1 p.2.1 p.2.2.1 p.2.2.2.1 p.2.2.2.2.1 p.2.2.2.2.2.1
      p.2.2.2.2.2.2.1 p.2.2.2.2.2.2.2).
#[global] Instance IntentAndBalanceValidityWitness_bools n : WitnessType (IntentAndBalanceValidityWitness n) :=
  struct_witness (P:=ProdT StateIntentVar (ProdT (MerkleOpeningVar n) (ProdT IntentVar (ProdT Id
    (ProdT StateBalanceVar (ProdT (MerkleOpeningVar n) (ProdT DarkpoolBalanceVar
    PostMatchBalanceVar)))))))
    (λ A x, (ibw_old_intent x, (ibw_old_intent_opening x, (ibw_intent x,
      (ibw_new_amount_public_share x, (ibw_old_balance x, (ibw_old_balance_opening x, (ibw_balance
      x, ibw_post_match_balance_shares x)))))))).
Record IntentAndBalanceValidityStatement (A : Type) := mkIntentAndBalanceStatement {
  ibs_intent_merkle_root : A;
  ibs_old_intent_nullifier : A;
  ibs_new_intent_partial_commitment : PartialCommitmentVar A;
  ibs_intent_recovery_id : A;
  ibs_balance_merkle_root : A;
  ibs_old_balance_nullifier : A;
  ibs_balance_partial_commitment : PartialCommitmentVar A;
  ibs_balance_recovery_id : A;
}.
Arguments mkIntentAndBalanceStatement {A} _ _ _ _ _ _ _ _.
Arguments ibs_intent_merkle_root {A} _.
Arguments ibs_old_intent_nullifier {A} _.
Arguments ibs_new_intent_partial_commitment {A} _.
Arguments ibs_intent_recovery_id {A} _.
Arguments ibs_balance_merkle_root {A} _.
Arguments ibs_old_balance_nullifier {A} _.
Arguments ibs_balance_partial_commitment {A} _.
Arguments ibs_balance_recovery_id {A} _.
#[global] Instance IntentAndBalanceValidityStatement_type : CircuitType IntentAndBalanceValidityStatement :=
  struct_type (P:=ProdT Id (ProdT Id (ProdT PartialCommitmentVar (ProdT Id (ProdT Id (ProdT Id
    (ProdT PartialCommitmentVar Id)))))))
    (λ A x, (ibs_intent_merkle_root x, (ibs_old_intent_nullifier x,
      (ibs_new_intent_partial_commitment x, (ibs_intent_recovery_id x, (ibs_balance_merkle_root x,
      (ibs_old_balance_nullifier x, (ibs_balance_partial_commitment x, ibs_balance_recovery_id
      x))))))))
    (λ A p, mkIntentAndBalanceStatement p.1 p.2.1 p.2.2.1 p.2.2.2.1 p.2.2.2.2.1 p.2.2.2.2.2.1
      p.2.2.2.2.2.2.1 p.2.2.2.2.2.2.2).

Section IntentAndBalance.
Context `{PlonkCircuit} {n : nat}.

Definition validate_intent (witness : IntentAndBalanceValidityWitness n Var)
    (statement : IntentAndBalanceValidityStatement Var) : Circuit unit :=
  constrain_eq (ibw_intent witness) (swv_inner (ibw_old_intent witness));;
  old_private_shares ←
    compute_complementary_shares (swv_public_share (ibw_old_intent witness))
      (swv_inner (ibw_old_intent witness));
  '(new_intent, new_intent_private_shares) ←
    reencrypt_amount_in_gadget old_private_shares (ibw_old_intent witness);
  constrain_eq (F:=Id) (iv_amount_in (swv_public_share new_intent))
    (ibw_new_amount_public_share witness);;
  _ ← rotate_version_with_partial_commitment INTENT_PARTIAL_COMMITMENT_SIZE {|
    pa_old_version := ibw_old_intent witness;
    pa_old_private_share := old_private_shares;
    pa_old_opening := ibw_old_intent_opening witness;
    pa_merkle_root := ibs_intent_merkle_root statement;
    pa_nullifier := ibs_old_intent_nullifier statement;
    pa_new_version := new_intent;
    pa_new_private_share := new_intent_private_shares;
    pa_new_partial_commitment := ibs_new_intent_partial_commitment statement;
    pa_recovery_id := ibs_intent_recovery_id statement |};
  mret tt.

Definition validate_balance (witness : IntentAndBalanceValidityWitness n Var)
    (statement : IntentAndBalanceValidityStatement Var) : Circuit unit :=
  constrain_eq (ibw_balance witness) (swv_inner (ibw_old_balance witness));;
  old_private_shares ←
    compute_complementary_shares (swv_public_share (ibw_old_balance witness))
      (swv_inner (ibw_old_balance witness));
  '(new_balance, new_balance_private_shares, new_public_share) ←
    reencrypt_post_match_gadget old_private_shares (ibw_old_balance witness);
  constrain_eq new_public_share (ibw_post_match_balance_shares witness);;
  _ ← rotate_version_with_partial_commitment BALANCE_PARTIAL_COMMITMENT_SIZE {|
    pa_old_version := ibw_old_balance witness;
    pa_old_private_share := old_private_shares;
    pa_old_opening := ibw_old_balance_opening witness;
    pa_merkle_root := ibs_balance_merkle_root statement;
    pa_nullifier := ibs_old_balance_nullifier statement;
    pa_new_version := new_balance;
    pa_new_private_share := new_balance_private_shares;
    pa_new_partial_commitment := ibs_balance_partial_commitment statement;
    pa_recovery_id := ibs_balance_recovery_id statement |};
  mret tt.

Definition intent_and_balance_validity_circuit (witness : IntentAndBalanceValidityWitness n Var)
    (statement : IntentAndBalanceValidityStatement Var) : Circuit unit :=
  validate_intent witness statement;;
  validate_balance witness statement;;
  constrain_eq (F:=Id) (iv_in_token (ibw_intent witness)) (bv_mint (ibw_balance witness));;
  constrain_eq (F:=Id) (iv_owner (ibw_intent witness)) (bv_owner (ibw_balance witness)).
End IntentAndBalance.

Definition IntentAndBalanceValidityCircuit (n : nat) : SingleProverCircuit := {|
  Witness := IntentAndBalanceValidityWitness n;
  Statement := IntentAndBalanceValidityStatement;
  apply_constraints _ _ witness statement := intent_and_balance_validity_circuit witness statement;
|}.

(** ** INTENT AND BALANCE FIRST FILL VALIDITY (intent_and_balance_first_fill.rs) *)

Record IntentAndBalanceFirstFillValidityWitness (n : nat) (A : Type) := mkFirstFillWitness {
  ffw_intent : IntentVar A;
  ffw_initial_intent_share_stream : PoseidonCSPRNGVar A;
  ffw_initial_intent_recovery_stream : PoseidonCSPRNGVar A;
  ffw_private_intent_shares : IntentVar A;
  ffw_new_amount_public_share : A;
  ffw_intent_authorization_signature : SchnorrSignatureVar A;
  ffw_old_balance : StateBalanceVar A;
  ffw_balance : DarkpoolBalanceVar A;
  ffw_post_match_balance_shares : PostMatchBalanceVar A;
  ffw_balance_opening : MerkleOpeningVar n A;
}.
Arguments mkFirstFillWitness {n A} _ _ _ _ _ _ _ _ _ _.
Arguments ffw_intent {n A} _.
Arguments ffw_initial_intent_share_stream {n A} _.
Arguments ffw_initial_intent_recovery_stream {n A} _.
Arguments ffw_private_intent_shares {n A} _.
Arguments ffw_new_amount_public_share {n A} _.
Arguments ffw_intent_authorization_signature {n A} _.
Arguments ffw_old_balance {n A} _.
Arguments ffw_balance {n A} _.
Arguments ffw_post_match_balance_shares {n A} _.
Arguments ffw_balance_opening {n A} _.
#[global] Instance IntentAndBalanceFirstFillValidityWitness_type n : CircuitType (IntentAndBalanceFirstFillValidityWitness n) :=
  struct_type (P:=ProdT IntentVar (ProdT PoseidonCSPRNGVar (ProdT PoseidonCSPRNGVar (ProdT
    IntentVar (ProdT Id (ProdT SchnorrSignatureVar (ProdT StateBalanceVar (ProdT
    DarkpoolBalanceVar (ProdT PostMatchBalanceVar (MerkleOpeningVar n))))))))))
    (λ A x, (ffw_intent x, (ffw_initial_intent_share_stream x,
      (ffw_initial_intent_recovery_stream x, (ffw_private_intent_shares x,
      (ffw_new_amount_public_share x, (ffw_intent_authorization_signature x, (ffw_old_balance x,
      (ffw_balance x, (ffw_post_match_balance_shares x, ffw_balance_opening x))))))))))
    (λ A p, mkFirstFillWitness p.1 p.2.1 p.2.2.1 p.2.2.2.1 p.2.2.2.2.1 p.2.2.2.2.2.1
      p.2.2.2.2.2.2.1 p.2.2.2.2.2.2.2.1 p.2.2.2.2.2.2.2.2.1 p.2.2.2.2.2.2.2.2.2).
#[global] Instance IntentAndBalanceFirstFillValidityWitness_bools n : WitnessType (IntentAndBalanceFirstFillValidityWitness n) :=
  struct_witness (P:=ProdT IntentVar (ProdT PoseidonCSPRNGVar (ProdT PoseidonCSPRNGVar (ProdT
    IntentVar (ProdT Id (ProdT SchnorrSignatureVar (ProdT StateBalanceVar (ProdT
    DarkpoolBalanceVar (ProdT PostMatchBalanceVar (MerkleOpeningVar n))))))))))
    (λ A x, (ffw_intent x, (ffw_initial_intent_share_stream x,
      (ffw_initial_intent_recovery_stream x, (ffw_private_intent_shares x,
      (ffw_new_amount_public_share x, (ffw_intent_authorization_signature x, (ffw_old_balance x,
      (ffw_balance x, (ffw_post_match_balance_shares x, ffw_balance_opening x)))))))))).
Record IntentAndBalanceFirstFillValidityStatement (A : Type) := mkFirstFillStatement {
  ffs_merkle_root : A;
  ffs_intent_public_share : PreMatchIntentVar A;
  ffs_intent_private_share_commitment : A;
  ffs_intent_recovery_id : A;
  ffs_balance_partial_commitment : PartialCommitmentVar A;
  ffs_old_balance_nullifier : A;
  ffs_balance_recovery_id : A;
}.
Arguments mkFirstFillStatement {A} _ _ _ _ _ _ _.
Arguments ffs_merkle_root {A} _.
Arguments ffs_intent_public_share {A} _.
Arguments ffs_intent_private_share_commitment {A} _.
Arguments ffs_intent_recovery_id {A} _.
Arguments ffs_balance_partial_commitment {A} _.
Arguments ffs_old_balance_nullifier {A} _.
Arguments ffs_balance_recovery_id {A} _.
#[global] Instance IntentAndBalanceFirstFillValidityStatement_type : CircuitType IntentAndBalanceFirstFillValidityStatement :=
  struct_type (P:=ProdT Id (ProdT PreMatchIntentVar (ProdT Id (ProdT Id (ProdT
    PartialCommitmentVar (ProdT Id Id))))))
    (λ A x, (ffs_merkle_root x, (ffs_intent_public_share x, (ffs_intent_private_share_commitment
      x, (ffs_intent_recovery_id x, (ffs_balance_partial_commitment x, (ffs_old_balance_nullifier
      x, ffs_balance_recovery_id x)))))))
    (λ A p, mkFirstFillStatement p.1 p.2.1 p.2.2.1 p.2.2.2.1 p.2.2.2.2.1 p.2.2.2.2.2.1
      p.2.2.2.2.2.2).

Section FirstFill.
Context `{PlonkCircuit, CurveGadgets} {n : nat}.

Definition verify_intent_fields (witness : IntentAndBalanceFirstFillValidityWitness n Var)
    : Circuit unit :=
  let intent := ffw_intent witness in
  let balance := ffw_balance witness in
  constrain_eq (F:=Id) (iv_owner intent) (bv_owner balance);;
  constrain_valid_price (iv_min_price intent);;
  constrain_valid_amount (iv_amount_in intent);;
  constrain_eq (F:=Id) (bv_mint balance) (iv_in_token intent).

Definition build_intent_state_wrapper
    (statement : IntentAndBalanceFirstFillValidityStatement Var)
    (witness : IntentAndBalanceFirstFillValidityWitness n Var) : Circuit (StateIntentVar Var) :=
  let intent := ffw_intent witness in
  public_share ← compute_complementary_shares (ffw_private_intent_shares witness) intent;
  let expected_pre_match_share := build_pre_match_intent_share public_share in
  constrain_eq expected_pre_match_share (ffs_intent_public_share statement);;
  constrain_eq (F:=Id) (iv_amount_in public_share) (ffw_new_amount_public_share witness);;
  mret (mkWrapperVar (ffw_initial_intent_recovery_stream witness)
          (ffw_initial_intent_share_stream witness) intent public_share).

Definition compute_and_verify_intent_commitments (original_intent new_intent : StateIntentVar Var)
    (witness : IntentAndBalanceFirstFillValidityWitness n Var)
    (statement : IntentAndBalanceFirstFillValidityStatement Var) : Circuit Var :=
  '(old_private_comm, new_private_comm) ←
    compute_private_commitments_with_shared_prefix (ffw_private_intent_shares witness)
      (ffw_private_intent_shares witness) original_intent new_intent;
  initial_intent_commitment ←
    compute_commitment_from_private_gadget old_private_comm (swv_public_share original_intent);
  constrain_eq (F:=Id) new_private_comm (ffs_intent_private_share_commitment statement);;
  mret initial_intent_commitment.

Definition build_and_validate_intent (statement : IntentAndBalanceFirstFillValidityStatement Var)
    (witness : IntentAndBalanceFirstFillValidityWitness n Var) : Circuit Var :=
  verify_intent_fields witness;;
  original_intent ← build_intent_state_wrapper statement witness;
  '(recovery_id, new_intent) ← compute_recovery_id_gadget original_intent;
  constrain_eq (F:=Id) recovery_id (ffs_intent_recovery_id statement);;
  compute_and_verify_intent_commitments original_intent new_intent witness statement.

Definition validate_first_fill_balance
    (statement : IntentAndBalanceFirstFillValidityStatement Var)
    (witness : IntentAndBalanceFirstFillValidityWitness n Var) : Circuit unit :=
  let balance := ffw_old_balance witness in
  constrain_eq (ffw_balance witness) (swv_inner balance);;
  old_balance_private_shares ←
    compute_complementary_shares (swv_public_share balance) (swv_inner balance);
  '(new_balance, new_balance_private_shares, new_public_share) ←
    reencrypt_post_match_gadget old_balance_private_shares balance;
  constrain_eq new_public_share (ffw_post_match_balance_shares witness);;
  _ ← rotate_version_with_partial_commitment BALANCE_PARTIAL_COMMITMENT_SIZE {|
    pa_old_version := balance;
    pa_old_private_share := old_balance_private_shares;
    pa_old_opening := ffw_balance_opening witness;
    pa_merkle_root := ffs_merkle_root statement;
    pa_nullifier := ffs_old_balance_nullifier statement;
    pa_new_version := new_balance;
    pa_new_private_share := new_balance_private_shares;
    pa_new_partial_commitment := ffs_balance_partial_commitment statement;
    pa_recovery_id := ffs_balance_recovery_id statement |};
  mret tt.

(** [SchnorrGadget::verify_signature] of primitives/schnorr.rs *)
Definition verify_signature {F} `{CircuitType F} (signature : SchnorrSignatureVar Var)
    (message : F Var) (public_key : SchnorrPublicKeyVar Var) : Circuit unit :=
  let msg_vars := to_vars message in
  cs_verify_signature public_key msg_vars signature.

Definition intent_and_balance_first_fill_circuit
    (witness : IntentAndBalanceFirstFillValidityWitness n Var)
    (statement : IntentAndBalanceFirstFillValidityStatement Var) : Circuit unit :=
  validate_first_fill_balance statement witness;;
  original_intent_commitment ← build_and_validate_intent statement witness;
  verify_signature (F:=Id) (ffw_intent_authorization_signature witness) original_intent_commitment
    (bv_authority (ffw_balance witness)).
End FirstFill.

Definition IntentAndBalanceFirstFillValidityCircuit (n : nat) : SingleProverCircuit := {|
  Witness := IntentAndBalanceFirstFillValidityWitness n;
  Statement := IntentAndBalanceFirstFillValidityStatement;
  apply_constraints _ _ witness statement :=
    intent_and_balance_first_fill_circuit witness statement;
|}.

(** ** OUTPUT BALANCE VALIDITY (output_balance.rs) *)

Record OutputBalanceValidityWitness (n : nat) (A : Type) := mkOutputBalanceWitness {
  obw_old_balance : StateBalanceVar A;
  obw_balance_opening : MerkleOpeningVar n A;
  obw_balance : DarkpoolBalanceVar A;
  obw_post_match_balance_shares : PostMatchBalanceVar A;
}.
Arguments mkOutputBalanceWitness {n A} _ _ _ _.
Arguments obw_old_balance {n A} _.
Arguments obw_balance_opening {n A} _.
Arguments obw_balance {n A} _.
Arguments obw_post_match_balance_shares {n A} _.
#[global] Instance OutputBalanceValidityWitness_type n : CircuitType (OutputBalanceValidityWitness n) :=
  struct_type (P:=ProdT StateBalanceVar (ProdT (MerkleOpeningVar n) (ProdT DarkpoolBalanceVar
    PostMatchBalanceVar)))
    (λ A x, (obw_old_balance x, (obw_balance_opening x, (obw_balance x,
      obw_post_match_balance_shares x))))
    (λ A p, mkOutputBalanceWitness p.1 p.2.1 p.2.2.1 p.2.2.2).
#[global] Instance OutputBalanceValidityWitness_bools n : WitnessType (OutputBalanceValidityWitness n) :=
  struct_witness (P:=ProdT StateBalanceVar (ProdT (MerkleOpeningVar n) (ProdT DarkpoolBalanceVar
    PostMatchBalanceVar)))
    (λ A x, (obw_old_balance x, (obw_balance_opening x, (obw_balance x,
      obw_post_match_balance_shares x)))).
Record OutputBalanceValidityStatement (A : Type) := mkOutputBalanceStatement {
  obs_merkle_root : A;
  obs_old_balance_nullifier : A;
  obs_new_partial_commitment : PartialCommitmentVar A;
  obs_recovery_id : A;
}.
Arguments mkOutputBalanceStatement {A} _ _ _ _.
Arguments obs_merkle_root {A} _.
Arguments obs_old_balance_nullifier {A} _.
Arguments obs_new_partial_commitment {A} _.
Arguments obs_recovery_id {A} _.
#[global] Instance OutputBalanceValidityStatement_type : CircuitType OutputBalanceValidityStatement :=
  struct_type (P:=ProdT Id (ProdT Id (ProdT PartialCommitmentVar Id)))
    (λ A x, (obs_merkle_root x, (obs_old_balance_nullifier x, (obs_new_partial_commitment x,
      obs_recovery_id x))))
    (λ A p, mkOutputBalanceStatement p.1 p.2.1 p.2.2.1 p.2.2.2).

Definition output_balance_validity_circuit `{PlonkCircuit} {n}
    (witness : OutputBalanceValidityWitness n Var) (statement : OutputBalanceValidityStatement Var)
    : Circuit unit :=
  private_shares ←
    compute_complementary_shares (swv_public_share (obw_old_balance witness))
      (swv_inner (obw_old_balance witness));
  '(new_balance, new_private_shares, new_public_share) ←
    reencrypt_post_match_gadget private_shares (obw_old_balance witness);
  constrain_eq new_public_share (obw_post_match_balance_shares witness);;
  constrain_eq (swv_inner new_balance) (obw_balance witness);;
  _ ← rotate_version_with_partial_commitment BALANCE_PARTIAL_COMMITMENT_SIZE {|
    pa_old_version := obw_old_balance witness;
    pa_old_private_share := private_shares;
    pa_old_opening := obw_balance_opening witness;
    pa_merkle_root := obs_merkle_root statement;
    pa_nullifier := obs_old_balance_nullifier statement;
    pa_new_version := new_balance;
    pa_new_private_share := new_private_shares;
    pa_new_partial_commitment := obs_new_partial_commitment statement;
    pa_recovery_id := obs_recovery_id statement |};
  mret tt.

Definition OutputBalanceValidityCircuit (n : nat) : SingleProverCircuit := {|
  Witness := OutputBalanceValidityWitness n;
  Statement := OutputBalanceValidityStatement;
  apply_constraints _ _ witness statement := output_balance_validity_circuit witness statement;
|}.

(** ** NEW OUTPUT BALANCE VALIDITY (new_output_balance.rs) *)

Record NewOutputBalanceValidityWitness (n : nat) (A : Type) := mkNewOutputBalanceWitness {
  nbw_new_balance : StateBalanceVar A;
  nbw_balance : DarkpoolBalanceVar A;
  nbw_post_match_balance_shares : PostMatchBalanceVar A;
  nbw_existing_balance : StateBalanceVar A;
  nbw_existing_balance_opening : MerkleOpeningVar n A;
  nbw_new_balance_authorization_signature : SchnorrSignatureVar A;
}.
Arguments mkNewOutputBalanceWitness {n A} _ _ _ _ _ _.
Arguments nbw_new_balance {n A} _.
Arguments nbw_balance {n A} _.
Arguments nbw_post_match_balance_shares {n A} _.
Arguments nbw_existing_balance {n A} _.
Arguments nbw_existing_balance_opening {n A} _.
Arguments nbw_new_balance_authorization_signature {n A} _.
#[global] Instance NewOutputBalanceValidityWitness_type n : CircuitType (NewOutputBalanceValidityWitness n) :=
  struct_type (P:=ProdT StateBalanceVar (ProdT DarkpoolBalanceVar (ProdT PostMatchBalanceVar
    (ProdT StateBalanceVar (ProdT (MerkleOpeningVar n) SchnorrSignatureVar)))))
    (λ A x, (nbw_new_balance x, (nbw_balance x, (nbw_post_match_balance_shares x,
      (nbw_existing_balance x, (nbw_existing_balance_opening x,
      nbw_new_balance_authorization_signature x))))))
    (λ A p, mkNewOutputBalanceWitness p.1 p.2.1 p.2.2.1 p.2.2.2.1 p.2.2.2.2.1 p.2.2.2.2.2).
#[global] Instance NewOutputBalanceValidityWitness_bools n : WitnessType (NewOutputBalanceValidityWitness n) :=
  struct_witness (P:=ProdT StateBalanceVar (ProdT DarkpoolBalanceVar (ProdT PostMatchBalanceVar
    (ProdT StateBalanceVar (ProdT (MerkleOpeningVar n) SchnorrSignatureVar)))))
    (λ A x, (nbw_new_balance x, (nbw_balance x, (nbw_post_match_balance_shares x,
      (nbw_existing_balance x, (nbw_existing_balance_opening x,
      nbw_new_balance_authorization_signature x)))))).
Record NewOutputBalanceValidityStatement (A : Type) := mkNewOutputBalanceStatement {
  nbs_existing_balance_merkle_root : A;
  nbs_existing_balance_nullifier : A;
  nbs_pre_match_balance_shares : PreMatchBalanceVar A;
  nbs_new_balance_partial_commitment : PartialCommitmentVar A;
  nbs_recovery_id : A;
}.
Arguments mkNewOutputBalanceStatement {A} _ _ _ _ _.
Arguments nbs_existing_balance_merkle_root {A} _.
Arguments nbs_existing_balance_nullifier {A} _.
Arguments nbs_pre_match_balance_shares {A} _.
Arguments nbs_new_balance_partial_commitment {A} _.
Arguments nbs_recovery_id {A} _.
#[global] Instance NewOutputBalanceValidityStatement_type : CircuitType NewOutputBalanceValidityStatement :=
  struct_type (P:=ProdT Id (ProdT Id (ProdT PreMatchBalanceVar (ProdT PartialCommitmentVar
    Id))))
    (λ A x, (nbs_existing_balance_merkle_root x, (nbs_existing_balance_nullifier x,
      (nbs_pre_match_balance_shares x, (nbs_new_balance_partial_commitment x, nbs_recovery_id
      x)))))
    (λ A p, mkNewOutputBalanceStatement p.1 p.2.1 p.2.2.1 p.2.2.2.1 p.2.2.2.2).

Section NewOutputBalance.
Context `{PlonkCircuit, CurveGadgets} {n : nat}.

Definition validate_new_output_balance (witness : NewOutputBalanceValidityWitness n Var)
    : Circuit unit :=
  let balance := nbw_balance witness in
  constrain_eq balance (swv_inner (nbw_new_balance witness));;
  let zero := cs_zero in
  constrain_eq (F:=Id) (bv_amount balance) zero;;
  constrain_eq (F:=Id) (bv_relayer_fee_balance balance) zero;;
  constrain_eq (F:=Id) (bv_protocol_fee_balance balance) zero.

(** [build_post_match_balance_share] is the same projection as [build_post_match_balance]. *)
Definition validate_balance_shares (witness : NewOutputBalanceValidityWitness n Var)
    (statement : NewOutputBalanceValidityStatement Var) : Circuit (DarkpoolBalanceVar Var) :=
  let balance := nbw_balance witness in
  let public_share := swv_public_share (nbw_new_balance witness) in
  private_shares ← compute_complementary_shares public_share balance;
  let pre_match_balance_shares := build_pre_match_balance_share public_share in
  constrain_eq pre_match_balance_shares (nbs_pre_match_balance_shares statement);;
  let post_match_balance_shares := build_post_match_balance public_share in
  constrain_eq post_match_balance_shares (nbw_post_match_balance_shares witness);;
  mret private_shares.

Definition verify_existing_balance (existing_balance : StateBalanceVar Var)
    (opening : MerkleOpeningVar n Var) (root nullifier : Var) : Circuit unit :=
  existing_balance_private_shares ←
    compute_complementary_shares (swv_public_share existing_balance) (swv_inner existing_balance);
  existing_balance_commitment ←
    compute_commitment_gadget existing_balance existing_balance_private_shares;
  compute_and_constrain_root_prehashed existing_balance_commitment opening root;;
  computed_nullifier ← compute_nullifier_gadget existing_balance;
  constrain_eq (F:=Id) computed_nullifier nullifier.

Definition authorize_new_balance (new_balance_commitment : Var)
    (witness : NewOutputBalanceValidityWitness n Var)
    (statement : NewOutputBalanceValidityStatement Var) : Circuit unit :=
  verify_existing_balance (nbw_existing_balance witness) (nbw_existing_balance_opening witness)
    (nbs_existing_balance_merkle_root statement) (nbs_existing_balance_nullifier statement);;
  let key := bv_authority (swv_inner (nbw_existing_balance witness)) in
  verify_signature (F:=Id) (nbw_new_balance_authorization_signature witness)
    new_balance_commitment key;;
  let new_balance := nbw_balance witness in
  let existing_balance := swv_inner (nbw_existing_balance witness) in
  constrain_eq (F:=Id) (bv_owner new_balance) (bv_owner existing_balance);;
  constrain_eq (bv_authority new_balance) (bv_authority existing_balance);;
  constrain_eq (F:=Id) (bv_relayer_fee_recipient new_balance)
    (bv_relayer_fee_recipient existing_balance).

Definition new_output_balance_validity_circuit (witness : NewOutputBalanceValidityWitness n Var)
    (statement : NewOutputBalanceValidityStatement Var) : Circuit unit :=
  validate_new_output_balance witness;;
  private_shares ← validate_balance_shares witness statement;
  let initial_balance := nbw_new_balance witness in
  '(recovery_id, balance) ← compute_recovery_id_gadget initial_balance;
  constrain_eq (F:=Id) recovery_id (nbs_recovery_id statement);;
  '(new_balance_commitment, new_balance_partial_commitment) ←
    compute_partial_commitments_with_shared_prefix BALANCE_PARTIAL_COMMITMENT_SIZE
      private_shares initial_balance private_shares balance;
  constrain_eq new_balance_partial_commitment (nbs_new_balance_partial_commitment statement);;
  authorize_new_balance new_balance_commitment witness statement.
End NewOutputBalance.

Definition NewOutputBalanceValidityCircuit (n : nat) : SingleProverCircuit := {|
  Witness := NewOutputBalanceValidityWitness n;
  Statement := NewOutputBalanceValidityStatement;
  apply_constraints _ _ witness statement := new_output_balance_validity_circuit witness statement;
|}.

(** ** Relations *)

(** The element after [amount_in] is encrypted anew. *)
Definition v_reencrypt_amount_in (e : StateIntentVar Scalar) : StateIntentVar Scalar :=
  v_update_field with_amount_in e (iv_amount_in (swv_inner e)).

(** The element after the post-match fields are encrypted anew. *)
Definition v_reencrypt_post_match (e : StateBalanceVar Scalar) : StateBalanceVar Scalar :=
  let c := swv_share_stream e in
  with_element (v_advance c (NUM (F:=PostMatchBalanceVar))) (swv_inner e)
    (update_balance_share_post_match (swv_public_share e)
       (v_public_share (build_post_match_balance (swv_inner e)) c)) e.

Record intent_only_rel {n} (s : IntentOnlyValidityStatement Scalar)
    (x : IntentOnlyValidityWitness n Scalar) : Prop := {
  io_intent : iow_intent x = swv_inner (iow_old_intent x);
  io_owner : ios_owner s = iv_owner (swv_inner (iow_old_intent x));
  io_amount_share :
    ios_new_amount_public_share s =
    iv_amount_in (swv_public_share (v_reencrypt_amount_in (iow_old_intent x)));
  io_old : opens_to (iow_old_intent x) (v_complement (iow_old_intent x))
    (iow_old_intent_opening x) (ios_merkle_root s) (ios_old_intent_nullifier s);
  io_new :
    let new := v_reencrypt_amount_in (iow_old_intent x) in
    creates_partial INTENT_PARTIAL_COMMITMENT_SIZE new (v_complement new)
      (ios_new_intent_partial_commitment s) (ios_recovery_id s);
}.

(** An intent shared with the given private shares. *)
Definition v_shared_intent (recovery share : PoseidonCSPRNGVar Scalar)
    (intent private : IntentVar Scalar) : StateIntentVar Scalar :=
  mkWrapperVar recovery share intent (cmap2 scalar_sub intent private).

Record intent_only_first_fill_rel (s : IntentOnlyFirstFillValidityStatement Scalar)
    (x : IntentOnlyFirstFillValidityWitness Scalar) : Prop := {
  fo_amount : fits 100 (iv_amount_in (fow_intent x));
  fo_price : fits 127 (fpv_repr (iv_min_price (fow_intent x)));
  fo_owner : fos_owner s = iv_owner (fow_intent x);
  fo_element :
    let e := v_shared_intent (fow_initial_intent_recovery_stream x)
      (fow_initial_intent_share_stream x) (fow_intent x) (fow_private_shares x) in
    fos_intent_public_share s = swv_public_share e ∧
    fos_recovery_id s = v_recovery_id e ∧
    fos_intent_private_commitment s =
      v_private_commitment (fow_private_shares x) (v_advance_recovery e);
}.

Record intent_and_balance_rel {n} (s : IntentAndBalanceValidityStatement Scalar)
    (x : IntentAndBalanceValidityWitness n Scalar) : Prop := {
  ib_intent : ibw_intent x = swv_inner (ibw_old_intent x);
  ib_old_intent : opens_to (ibw_old_intent x) (v_complement (ibw_old_intent x))
    (ibw_old_intent_opening x) (ibs_intent_merkle_root s) (ibs_old_intent_nullifier s);
  ib_new_intent :
    let new := v_reencrypt_amount_in (ibw_old_intent x) in
    creates_partial INTENT_PARTIAL_COMMITMENT_SIZE new (v_complement new)
      (ibs_new_intent_partial_commitment s) (ibs_intent_recovery_id s) ∧
    ibw_new_amount_public_share x = iv_amount_in (swv_public_share new);
  ib_balance : ibw_balance x = swv_inner (ibw_old_balance x);
  ib_old_balance : opens_to (ibw_old_balance x) (v_complement (ibw_old_balance x))
    (ibw_old_balance_opening x) (ibs_balance_merkle_root s) (ibs_old_balance_nullifier s);
  ib_new_balance :
    let new := v_reencrypt_post_match (ibw_old_balance x) in
    creates_partial BALANCE_PARTIAL_COMMITMENT_SIZE new (v_complement new)
      (ibs_balance_partial_commitment s) (ibs_balance_recovery_id s) ∧
    ibw_post_match_balance_shares x = build_post_match_balance (swv_public_share new);
  ib_token : iv_in_token (ibw_intent x) = bv_mint (ibw_balance x);
  ib_owner : iv_owner (ibw_intent x) = bv_owner (ibw_balance x);
}.

Record intent_and_balance_first_fill_rel {Cv : CurveSpec} {n}
    (s : IntentAndBalanceFirstFillValidityStatement Scalar)
    (x : IntentAndBalanceFirstFillValidityWitness n Scalar) : Prop := {
  ff_balance : ffw_balance x = swv_inner (ffw_old_balance x);
  ff_old_balance : opens_to (ffw_old_balance x) (v_complement (ffw_old_balance x))
    (ffw_balance_opening x) (ffs_merkle_root s) (ffs_old_balance_nullifier s);
  ff_new_balance :
    let new := v_reencrypt_post_match (ffw_old_balance x) in
    creates_partial BALANCE_PARTIAL_COMMITMENT_SIZE new (v_complement new)
      (ffs_balance_partial_commitment s) (ffs_balance_recovery_id s) ∧
    ffw_post_match_balance_shares x = build_post_match_balance (swv_public_share new);
  ff_owner : iv_owner (ffw_intent x) = bv_owner (ffw_balance x);
  ff_price : fits 127 (fpv_repr (iv_min_price (ffw_intent x)));
  ff_amount : fits 100 (iv_amount_in (ffw_intent x));
  ff_token : bv_mint (ffw_balance x) = iv_in_token (ffw_intent x);
  ff_intent :
    let e := v_shared_intent (ffw_initial_intent_recovery_stream x)
      (ffw_initial_intent_share_stream x) (ffw_intent x) (ffw_private_intent_shares x) in
    ffs_intent_public_share s = build_pre_match_intent_share (swv_public_share e) ∧
    ffw_new_amount_public_share x = iv_amount_in (swv_public_share e) ∧
    ffs_intent_recovery_id s = v_recovery_id e ∧
    ffs_intent_private_share_commitment s =
      v_private_commitment (ffw_private_intent_shares x) (v_advance_recovery e) ∧
    schnorr_verifies (bv_authority (ffw_balance x))
      [v_commitment (ffw_private_intent_shares x) e] (ffw_intent_authorization_signature x);
}.

Record output_balance_rel {n} (s : OutputBalanceValidityStatement Scalar)
    (x : OutputBalanceValidityWitness n Scalar) : Prop := {
  ob_balance : obw_balance x = swv_inner (obw_old_balance x);
  ob_old : opens_to (obw_old_balance x) (v_complement (obw_old_balance x))
    (obw_balance_opening x) (obs_merkle_root s) (obs_old_balance_nullifier s);
  ob_new :
    let new := v_reencrypt_post_match (obw_old_balance x) in
    creates_partial BALANCE_PARTIAL_COMMITMENT_SIZE new (v_complement new)
      (obs_new_partial_commitment s) (obs_recovery_id s) ∧
    obw_post_match_balance_shares x = build_post_match_balance (swv_public_share new);
}.

Record new_output_balance_rel {Cv : CurveSpec} {n} (s : NewOutputBalanceValidityStatement Scalar)
    (x : NewOutputBalanceValidityWitness n Scalar) : Prop := {
  nb_balance : nbw_balance x = swv_inner (nbw_new_balance x);
  nb_zero : bv_amount (nbw_balance x) = 0 ∧ bv_relayer_fee_balance (nbw_balance x) = 0 ∧
    bv_protocol_fee_balance (nbw_balance x) = 0;
  nb_shares :
    nbs_pre_match_balance_shares s =
      build_pre_match_balance_share (swv_public_share (nbw_new_balance x)) ∧
    nbw_post_match_balance_shares x =
      build_post_match_balance (swv_public_share (nbw_new_balance x));
  nb_new : creates_partial BALANCE_PARTIAL_COMMITMENT_SIZE (nbw_new_balance x)
    (v_complement (nbw_new_balance x)) (nbs_new_balance_partial_commitment s) (nbs_recovery_id s);
  nb_existing : opens_to (nbw_existing_balance x) (v_complement (nbw_existing_balance x))
    (nbw_existing_balance_opening x) (nbs_existing_balance_merkle_root s)
    (nbs_existing_balance_nullifier s);
  nb_signature : schnorr_verifies (bv_authority (swv_inner (nbw_existing_balance x)))
    [v_commitment (v_complement (nbw_new_balance x)) (nbw_new_balance x)]
    (nbw_new_balance_authorization_signature x);
  nb_owner : bv_owner (nbw_balance x) = bv_owner (swv_inner (nbw_existing_balance x));
  nb_authority : bv_authority (nbw_balance x) = bv_authority (swv_inner (nbw_existing_balance x));
  nb_recipient : bv_relayer_fee_recipient (nbw_balance x) =
    bv_relayer_fee_recipient (swv_inner (nbw_existing_balance x));
}.

(** ** Correctness *)

#[global] Instance IntentOnlyValidityWitness_laws n : CircuitTypeLaws (IntentOnlyValidityWitness n).
Proof. solve_struct. Qed.
#[global] Instance IntentOnlyValidityWitness_bools_laws n : WitnessTypeLaws (IntentOnlyValidityWitness n).
Proof. solve_struct_witness. Qed.
#[global] Instance IntentOnlyValidityStatement_laws : CircuitTypeLaws IntentOnlyValidityStatement.
Proof. solve_struct. Qed.
#[global] Instance IntentOnlyFirstFillValidityWitness_laws : CircuitTypeLaws IntentOnlyFirstFillValidityWitness.
Proof. solve_struct. Qed.
#[global] Instance IntentOnlyFirstFillValidityStatement_laws : CircuitTypeLaws IntentOnlyFirstFillValidityStatement.
Proof. solve_struct. Qed.
#[global] Instance IntentAndBalanceValidityWitness_laws n : CircuitTypeLaws (IntentAndBalanceValidityWitness n).
Proof. solve_struct. Qed.
#[global] Instance IntentAndBalanceValidityWitness_bools_laws n : WitnessTypeLaws (IntentAndBalanceValidityWitness n).
Proof. solve_struct_witness. Qed.
#[global] Instance IntentAndBalanceValidityStatement_laws : CircuitTypeLaws IntentAndBalanceValidityStatement.
Proof. solve_struct. Qed.
#[global] Instance IntentAndBalanceFirstFillValidityWitness_laws n : CircuitTypeLaws (IntentAndBalanceFirstFillValidityWitness n).
Proof. solve_struct. Qed.
#[global] Instance IntentAndBalanceFirstFillValidityWitness_bools_laws n : WitnessTypeLaws (IntentAndBalanceFirstFillValidityWitness n).
Proof. solve_struct_witness. Qed.
#[global] Instance IntentAndBalanceFirstFillValidityStatement_laws : CircuitTypeLaws IntentAndBalanceFirstFillValidityStatement.
Proof. solve_struct. Qed.
#[global] Instance OutputBalanceValidityWitness_laws n : CircuitTypeLaws (OutputBalanceValidityWitness n).
Proof. solve_struct. Qed.
#[global] Instance OutputBalanceValidityWitness_bools_laws n : WitnessTypeLaws (OutputBalanceValidityWitness n).
Proof. solve_struct_witness. Qed.
#[global] Instance OutputBalanceValidityStatement_laws : CircuitTypeLaws OutputBalanceValidityStatement.
Proof. solve_struct. Qed.
#[global] Instance NewOutputBalanceValidityWitness_laws n : CircuitTypeLaws (NewOutputBalanceValidityWitness n).
Proof. solve_struct. Qed.
#[global] Instance NewOutputBalanceValidityWitness_bools_laws n : WitnessTypeLaws (NewOutputBalanceValidityWitness n).
Proof. solve_struct_witness. Qed.
#[global] Instance NewOutputBalanceValidityStatement_laws : CircuitTypeLaws NewOutputBalanceValidityStatement.
Proof. solve_struct. Qed.

(** *** Re-encryption *)

Lemma updates_amount_in : updates_field with_amount_in.
Proof. by intros [r s i p] a. Qed.

Lemma reencrypt_amount_in_inner e : swv_inner (v_reencrypt_amount_in e) = swv_inner e.
Proof. by destruct e as [r s [] p]. Qed.

Lemma complement_reencrypt_post_match e :
  v_complement (v_reencrypt_post_match e) =
  update_balance_share_post_match (v_complement e)
    (v_private_share (build_post_match_balance (swv_inner e)) (swv_share_stream e)).
Proof.
  rewrite <-(complement_fresh (swv_recovery_stream e)). by destruct e as [r s i p].
Qed.

Lemma post_match_share_updated (s : DarkpoolBalanceVar Scalar) q :
  build_post_match_balance (update_balance_share_post_match s q) = q.
Proof. by destruct q. Qed.

Section Reencryption.
Context {Cs : PlonkCircuit} {Laws : PlonkCircuitLaws} {h : Prop} {w : N → Z} (W : assignment w).

Lemma reencrypt_amount_in_spec priv old :
  cmap w priv = v_complement (cmap w old) →
  wp h w (reencrypt_amount_in_gadget priv old)
    (λ '(e, p), cmap w e = v_reencrypt_amount_in (cmap w old) ∧
       cmap w p = v_complement (v_reencrypt_amount_in (cmap w old)) ∧
       swv_inner e = swv_inner old ∧
       w (iv_amount_in (swv_public_share e)) =
         iv_amount_in (swv_public_share (v_reencrypt_amount_in (cmap w old)))).
Proof.
  intros Hpriv. unfold reencrypt_amount_in_gadget. step (encrypt_var_spec W).
  intros [[p q] c] (Hp & Hq & Hc). apply wp_ret.
  unfold v_reencrypt_amount_in. rewrite (complement_update_field _ _ _ updates_amount_in).
  split_and!; [|..|done|exact Hq].
  - transitivity (with_element (cmap w c) (cmap w (swv_inner old))
      (with_amount_in (w q) (cmap w (swv_public_share old))) (cmap w old)); [done|].
    rewrite Hc, Hq. by destruct old as [r s [] pb].
  - transitivity (with_amount_in (w p) (cmap w priv)); [done|]. by rewrite Hp, Hpriv.
Qed.

Lemma reencrypt_post_match_spec priv old :
  cmap w priv = v_complement (cmap w old) →
  wp h w (reencrypt_post_match_gadget priv old)
    (λ '(e, p, q), cmap w e = v_reencrypt_post_match (cmap w old) ∧
       cmap w p = v_complement (v_reencrypt_post_match (cmap w old)) ∧
       swv_inner e = swv_inner old ∧
       cmap w q =
         build_post_match_balance (swv_public_share (v_reencrypt_post_match (cmap w old)))).
Proof.
  intros Hpriv. unfold reencrypt_post_match_gadget. step (encrypt_spec W).
  intros [[p q] c] (Hp & Hq & Hc). apply wp_ret. rewrite complement_reencrypt_post_match.
  split_and!; [|..|done|].
  - transitivity (with_element (cmap w c) (cmap w (swv_inner old))
      (update_balance_share_post_match (cmap w (swv_public_share old)) (cmap w q)) (cmap w old));
      [done|]. by rewrite Hc, Hq.
  - transitivity (update_balance_share_post_match (cmap w priv) (cmap w p)); [done|].
    by rewrite Hp, Hpriv.
  - unfold v_reencrypt_post_match. cbn [swv_public_share with_element].
    by rewrite post_match_share_updated, Hq.
Qed.
End Reencryption.

Theorem intent_only_implements {Cv : CurveSpec} n :
  implements (IntentOnlyValidityCircuit n) (intent_only_rel (n:=n)).
Proof.
  intros Cs Laws Cg Cl h w W wit st Hb Hrel. cbn [apply_constraints IntentOnlyValidityCircuit].
  change (Forall (λ i, is_bit (w i)) (bools (iow_old_intent_opening wit) ++ [])) in Hb.
  rewrite app_nil_r in Hb. unfold intent_only_validity_circuit.
  step (complementary_shares_spec W). intros priv Hpriv.
  step (reencrypt_amount_in_spec W). intros [new p] (Hnew & Hp & Hi & Hs). rewrite Hi.
  step (constrain_eq_spec W); [intros H; symmetry; apply (Hrel H)|]. intros _ E1.
  step (constrain_eq_var_spec W); [intros H; rewrite Hs; symmetry; apply (Hrel H)|]. intros _ E2.
  step (constrain_eq_var_spec W); [intros H; symmetry; apply (Hrel H)|]. intros _ E3.
  step (rotate_partial_complement_spec W); [vm_compute; lia| |].
  { intros H. split; apply (Hrel H). }
  intros _ [Ho Hn]. apply wp_ret. rewrite Hs in E2. by split.
Qed.

Theorem intent_only_first_fill_implements {Cv : CurveSpec} :
  implements IntentOnlyFirstFillValidityCircuit intent_only_first_fill_rel.
Proof.
  intros Cs Laws Cg Cl h w W wit st _ Hrel.
  cbn [apply_constraints IntentOnlyFirstFillValidityCircuit].
  unfold intent_only_first_fill_circuit, build_and_validate_public_intent. apply wp_bind.
  step (constrain_valid_amount_spec W); [intros H; apply (Hrel H)|]. intros _ E1.
  step (constrain_valid_price_spec W); [intros H; apply (Hrel H)|]. intros _ E2.
  step (constrain_eq_var_spec W); [intros H; symmetry; apply (Hrel H)|]. intros _ E3.
  step (complementary_shares_spec W). intros pub Hpub.
  step (constrain_eq_spec W); [intros H; rewrite Hpub; symmetry; apply (fo_element _ _ (Hrel H))|].
  intros _ E4. rewrite Hpub in E4. apply wp_ret.
  step (recovery_id_spec W). intros [rid e] [Hrid He].
  set (v := v_shared_intent (cmap w (fow_initial_intent_recovery_stream wit))
    (cmap w (fow_initial_intent_share_stream wit)) (cmap w (fow_intent wit))
    (cmap w (fow_private_shares wit))).
  match type of He with cmap w e = v_advance_recovery ?x =>
    assert (x = v) as Ex by (simpl; unfold v, v_shared_intent; by rewrite <-Hpub) end.
  rewrite Ex in Hrid, He.
  step (constrain_eq_var_spec W).
  { intros H. rewrite Hrid. symmetry. apply (fo_element _ _ (Hrel H)). }
  intros _ E5. step (private_commitment_spec W). intros c Hc. rewrite He in Hc.
  eapply wp_mono; [apply (constrain_eq_var_spec W)|].
  - intros H. rewrite Hc. symmetry. apply (fo_element _ _ (Hrel H)).
  - intros [] E6. split; [done..|by symmetry|]. split_and!;
      [exact (eq_sym E4)|exact (eq_trans (eq_sym E5) Hrid)|exact (eq_trans (eq_sym E6) Hc)].
Qed.

Section BalanceRotation.
Context {Cs : PlonkCircuit} {Laws : PlonkCircuitLaws} {h : Prop} {w : N → Z} (W : assignment w).

(** How the circuits that spend a balance in a match rotate it. *)
Lemma rotate_post_match_spec {n} old (o : MerkleOpeningVar n N) root nl comm rid bal shares :
  let v := cmap w old in
  let new := v_reencrypt_post_match v in
  let P := cmap w bal = swv_inner v ∧
    opens_to v (v_complement v) (cmap w o) (w root) (w nl) ∧
    (creates_partial BALANCE_PARTIAL_COMMITMENT_SIZE new (v_complement new) (cmap w comm) (w rid) ∧
     cmap w shares = build_post_match_balance (swv_public_share new)) in
  Forall (λ i, is_bit (w i)) (bools o) → (h → P) →
  wp h w
    (constrain_eq bal (swv_inner old);;
     priv ← compute_complementary_shares (swv_public_share old) (swv_inner old);
     '(e, p, q) ← reencrypt_post_match_gadget priv old;
     constrain_eq q shares;;
     _ ← rotate_version_with_partial_commitment BALANCE_PARTIAL_COMMITMENT_SIZE
       (mkPartialRotationArgs old priv o root nl e p comm rid);
     mret tt) (λ _, P).
Proof.
  intros v new P Hb HP. step (constrain_eq_spec W); [intros H; apply (HP H)|]. intros _ E1.
  step (complementary_shares_spec W). intros priv Hpriv.
  step (reencrypt_post_match_spec W). intros [[e p] q] (He & Hp & _ & Hq).
  step (constrain_eq_spec W); [intros H; rewrite Hq; symmetry; apply (HP H)|]. intros _ E2.
  rewrite Hq in E2.
  step (rotate_partial_complement_spec W); [vm_compute; lia|intros H; split; apply (HP H)|].
  intros _ [Ho Hn]. by apply wp_ret.
Qed.

Lemma validate_intent_spec {n} (wit : IntentAndBalanceValidityWitness n N) st :
  let old := cmap w (ibw_old_intent wit) in
  let new := v_reencrypt_amount_in old in
  let P := cmap w (ibw_intent wit) = swv_inner old ∧
    opens_to old (v_complement old) (cmap w (ibw_old_intent_opening wit))
      (w (ibs_intent_merkle_root st)) (w (ibs_old_intent_nullifier st)) ∧
    creates_partial INTENT_PARTIAL_COMMITMENT_SIZE new (v_complement new)
      (cmap w (ibs_new_intent_partial_commitment st)) (w (ibs_intent_recovery_id st)) ∧
    w (ibw_new_amount_public_share wit) = iv_amount_in (swv_public_share new) in
  Forall (λ i, is_bit (w i)) (bools (ibw_old_intent_opening wit)) → (h → P) →
  wp h w (validate_intent wit st) (λ _, P).
Proof.
  intros old new P Hb HP. unfold validate_intent.
  step (constrain_eq_spec W); [intros H; apply (HP H)|]. intros _ E1.
  step (complementary_shares_spec W). intros priv Hpriv.
  step (reencrypt_amount_in_spec W). intros [e p] (He & Hp & _ & Hs).
  step (constrain_eq_var_spec W); [intros H; rewrite Hs; symmetry; apply (HP H)|]. intros _ E2.
  rewrite Hs in E2.
  step (rotate_partial_complement_spec W); [vm_compute; lia|intros H; split; apply (HP H)|].
  intros _ [Ho Hn]. by apply wp_ret.
Qed.
End BalanceRotation.

Theorem intent_and_balance_implements {Cv : CurveSpec} n :
  implements (IntentAndBalanceValidityCircuit n) (intent_and_balance_rel (n:=n)).
Proof.
  intros Cs Laws Cg Cl h w W wit st Hb Hrel. cbn [apply_constraints IntentAndBalanceValidityCircuit].
  change (Forall (λ i, is_bit (w i))
    (bools (ibw_old_intent_opening wit) ++ bools (ibw_old_balance_opening wit) ++ [])) in Hb.
  rewrite app_nil_r in Hb. apply Forall_app in Hb as [Hb1 Hb2].
  unfold intent_and_balance_validity_circuit.
  step (validate_intent_spec W); [intros H; split_and!; apply (Hrel H)|].
  intros _ (E1 & E2 & E3). unfold validate_balance.
  step (rotate_post_match_spec W); [intros H; split_and!; apply (Hrel H)|].
  intros _ (E4 & E5 & E6).
  step (constrain_eq_var_spec W); [intros H; apply (Hrel H)|]. intros _ E7.
  eapply wp_mono; [apply (constrain_eq_var_spec W); intros H; apply (Hrel H)|]. intros [] E8.
  by split.
Qed.

Theorem output_balance_implements {Cv : CurveSpec} n :
  implements (OutputBalanceValidityCircuit n) (output_balance_rel (n:=n)).
Proof.
  intros Cs Laws Cg Cl h w W wit st Hb Hrel. cbn [apply_constraints OutputBalanceValidityCircuit].
  change (Forall (λ i, is_bit (w i)) (bools (obw_balance_opening wit) ++ [])) in Hb.
  rewrite app_nil_r in Hb. unfold output_balance_validity_circuit.
  step (complementary_shares_spec W). intros priv Hpriv.
  step (reencrypt_post_match_spec W). intros [[e p] q] (He & Hp & Hi & Hq). rewrite Hi.
  step (constrain_eq_spec W).
  { intros H. rewrite Hq. symmetry. apply (ob_new _ _ (Hrel H)). }
  intros _ E1. rewrite Hq in E1.
  step (constrain_eq_spec W); [intros H; symmetry; apply (Hrel H)|]. intros _ E2.
  step (rotate_partial_complement_spec W); [vm_compute; lia|intros H; split; apply (Hrel H)|].
  intros _ [Ho Hn]. apply wp_ret. by split.
Qed.

Section FirstFillSpecs.
Context {Cs : PlonkCircuit} {Laws : PlonkCircuitLaws} {Cg : CurveGadgets} {Cv : CurveSpec}.
Context {Cl : CurveLaws Cg Cv} {h : Prop} {w : N → Z} (W : assignment w) {n : nat}.
Implicit Types wit : IntentAndBalanceFirstFillValidityWitness n N.

Lemma verify_intent_fields_spec wit :
  let i := cmap w (ffw_intent wit) in
  let b := cmap w (ffw_balance wit) in
  let P := iv_owner i = bv_owner b ∧ fits 127 (fpv_repr (iv_min_price i)) ∧
    fits 100 (iv_amount_in i) ∧ bv_mint b = iv_in_token i in
  (h → P) → wp h w (verify_intent_fields wit) (λ _, P).
Proof.
  intros i b P HP. unfold verify_intent_fields.
  step (constrain_eq_var_spec W); [intros H; apply (HP H)|]. intros _ E1.
  step (constrain_valid_price_spec W); [intros H; apply (HP H)|]. intros _ E2.
  step (constrain_valid_amount_spec W); [intros H; apply (HP H)|]. intros _ E3.
  eapply wp_mono; [apply (constrain_eq_var_spec W); intros H; apply (HP H)|]. by intros [] E4.
Qed.

Definition first_fill_element wit : StateIntentVar Scalar :=
  v_shared_intent (cmap w (ffw_initial_intent_recovery_stream wit))
    (cmap w (ffw_initial_intent_share_stream wit)) (cmap w (ffw_intent wit))
    (cmap w (ffw_private_intent_shares wit)).

Lemma build_intent_state_wrapper_spec wit st :
  let e := first_fill_element wit in
  let P := cmap w (ffs_intent_public_share st) = build_pre_match_intent_share (swv_public_share e) ∧
    w (ffw_new_amount_public_share wit) = iv_amount_in (swv_public_share e) in
  (h → P) → wp h w (build_intent_state_wrapper st wit) (λ i, cmap w i = e ∧ P).
Proof.
  intros e P HP. unfold build_intent_state_wrapper.
  step (complementary_shares_spec W). intros pub Hpub.
  assert (cmap w pub = swv_public_share e) as Ep by exact Hpub.
  assert (cmap w (build_pre_match_intent_share pub) =
    build_pre_match_intent_share (swv_public_share e)) as Eq by by rewrite <-Ep.
  step (constrain_eq_spec W); [intros H; rewrite Eq; symmetry; apply (HP H)|]. intros _ E1.
  rewrite Eq in E1. assert (w (iv_amount_in pub) = iv_amount_in (swv_public_share e)) as Ea
    by by rewrite <-Ep.
  step (constrain_eq_var_spec W); [intros H; rewrite Ea; symmetry; apply (HP H)|]. intros _ E2.
  apply wp_ret. split; [|split; [done|by rewrite <-E2]].
  transitivity (mkWrapperVar (cmap w (ffw_initial_intent_recovery_stream wit))
    (cmap w (ffw_initial_intent_share_stream wit)) (cmap w (ffw_intent wit)) (cmap w pub)); [done|].
  by rewrite Ep.
Qed.

Lemma build_and_validate_intent_spec wit st :
  let e := first_fill_element wit in
  let i := cmap w (ffw_intent wit) in
  let b := cmap w (ffw_balance wit) in
  let P := (iv_owner i = bv_owner b ∧ fits 127 (fpv_repr (iv_min_price i)) ∧
      fits 100 (iv_amount_in i) ∧ bv_mint b = iv_in_token i) ∧
    (cmap w (ffs_intent_public_share st) = build_pre_match_intent_share (swv_public_share e) ∧
     w (ffw_new_amount_public_share wit) = iv_amount_in (swv_public_share e)) ∧
    w (ffs_intent_recovery_id st) = v_recovery_id e ∧
    w (ffs_intent_private_share_commitment st) =
      v_private_commitment (cmap w (ffw_private_intent_shares wit)) (v_advance_recovery e) in
  (h → P) →
  wp h w (build_and_validate_intent st wit)
    (λ c, P ∧ w c = v_commitment (cmap w (ffw_private_intent_shares wit)) e).
Proof.
  intros e i b P HP. unfold build_and_validate_intent.
  step verify_intent_fields_spec; [intros H; apply (HP H)|]. intros _ E1.
  step build_intent_state_wrapper_spec; [intros H; apply (HP H)|]. intros v [Hv E2].
  step (recovery_id_spec W). intros [rid new] [Hrid Hnew]. rewrite Hv in Hrid, Hnew.
  step (constrain_eq_var_spec W); [intros H; rewrite Hrid; symmetry; apply (HP H)|]. intros _ E3.
  rewrite Hrid in E3. unfold compute_and_verify_intent_commitments.
  step (private_shared_prefix_spec W). intros [c1 c2] [H1 H2]. rewrite Hv in H1. rewrite Hnew in H2.
  step (commitment_from_private_spec W). intros c Hc.
  step (constrain_eq_var_spec W); [intros H; rewrite H2; symmetry; apply (HP H)|]. intros _ E4.
  rewrite H2 in E4. apply wp_ret. split; [done|]. rewrite Hc, H1.
  change (cmap w (swv_public_share v)) with (swv_public_share (cmap w v)). by rewrite Hv.
Qed.
End FirstFillSpecs.

Theorem intent_and_balance_first_fill_implements {Cv : CurveSpec} n :
  implements (IntentAndBalanceFirstFillValidityCircuit n)
    (intent_and_balance_first_fill_rel (n:=n)).
Proof.
  intros Cs Laws Cg Cl h w W wit st Hb Hrel.
  cbn [apply_constraints IntentAndBalanceFirstFillValidityCircuit].
  unfold intent_and_balance_first_fill_circuit, validate_first_fill_balance.
  step (rotate_post_match_spec W); [intros H; split_and!; apply (Hrel H)|].
  intros _ (E1 & E2 & E3).
  step (build_and_validate_intent_spec W).
  { intros H. destruct (Hrel H) as [? ? ? ? ? ? ? (? & ? & ? & ? & ?)]. by split_and!. }
  intros c [((F1 & F2 & F3 & F4) & (F5 & F6) & F7 & F8) Hc]. unfold verify_signature.
  eapply wp_mono; [apply verify_signature_law; [done|]|].
  - intros H. change (schnorr_verifies (bv_authority (cmap w (ffw_balance wit))) [w c]
      (cmap w (ffw_intent_authorization_signature wit))). rewrite Hc. apply (Hrel H).
  - intros [] E4. change (schnorr_verifies (bv_authority (cmap w (ffw_balance wit))) [w c]
      (cmap w (ffw_intent_authorization_signature wit))) in E4. rewrite Hc in E4.
    split; [done..|]. by split_and!.
Qed.

Section NewOutputBalanceSpecs.
Context {Cs : PlonkCircuit} {Laws : PlonkCircuitLaws} {Cg : CurveGadgets} {Cv : CurveSpec}.
Context {Cl : CurveLaws Cg Cv} {h : Prop} {w : N → Z} (W : assignment w) {n : nat}.
Implicit Types wit : NewOutputBalanceValidityWitness n N.

Lemma validate_new_output_balance_spec wit :
  let b := cmap w (nbw_balance wit) in
  let P := b = swv_inner (cmap w (nbw_new_balance wit)) ∧
    bv_amount b = 0 ∧ bv_relayer_fee_balance b = 0 ∧ bv_protocol_fee_balance b = 0 in
  (h → P) → wp h w (validate_new_output_balance wit) (λ _, P).
Proof.
  intros b P HP. unfold validate_new_output_balance.
  step (constrain_eq_spec W); [intros H; apply (HP H)|]. intros _ E1.
  step (constrain_zero_spec W); [intros H; apply (HP H)|]. intros _ E2.
  step (constrain_zero_spec W); [intros H; apply (HP H)|]. intros _ E3.
  eapply wp_mono; [apply (constrain_zero_spec W); intros H; apply (HP H)|]. by intros [] E4.
Qed.

Lemma validate_balance_shares_spec wit st :
  let b := cmap w (nbw_balance wit) in
  let pub := swv_public_share (cmap w (nbw_new_balance wit)) in
  let P := cmap w (nbs_pre_match_balance_shares st) = build_pre_match_balance_share pub ∧
    cmap w (nbw_post_match_balance_shares wit) = build_post_match_balance pub in
  (h → P) →
  wp h w (validate_balance_shares wit st) (λ p, cmap w p = cmap2 scalar_sub b pub ∧ P).
Proof.
  intros b pub P HP. unfold validate_balance_shares.
  step (complementary_shares_spec W). intros p Hp.
  step (constrain_eq_spec W); [intros H; symmetry; apply (HP H)|]. intros _ E1.
  step (constrain_eq_spec W); [intros H; symmetry; apply (HP H)|]. intros _ E2.
  apply wp_ret. split; [exact Hp|]. split; [exact (eq_sym E1)|exact (eq_sym E2)].
Qed.

Lemma verify_existing_balance_spec e (o : MerkleOpeningVar n N) root nl :
  let v := cmap w e in
  let P := opens_to v (v_complement v) (cmap w o) (w root) (w nl) in
  Forall (λ i, is_bit (w i)) (bools o) → (h → P) →
  wp h w (verify_existing_balance e o root nl) (λ _, P).
Proof.
  intros v P Hb HP. unfold verify_existing_balance.
  step (complementary_shares_spec W). intros p Hp. step (commitment_spec W). intros c Hc.
  rewrite Hp in Hc. step (compute_and_constrain_root_prehashed_spec W).
  { intros H. rewrite Hc. apply (HP H). }
  intros _ E1. rewrite Hc in E1.
  step (nullifier_spec W); [intros H; apply (HP H)|]. intros x [Hi Hx].
  eapply wp_mono; [apply (constrain_eq_var_spec W); intros H; rewrite Hx; symmetry; apply (HP H)|].
  intros [] E2. split; [exact E1|exact Hi|exact (eq_trans (eq_sym E2) Hx)].
Qed.
End NewOutputBalanceSpecs.

Theorem new_output_balance_implements {Cv : CurveSpec} n :
  implements (NewOutputBalanceValidityCircuit n) (new_output_balance_rel (n:=n)).
Proof.
  intros Cs Laws Cg Cl h w W wit st Hb Hrel. cbn [apply_constraints NewOutputBalanceValidityCircuit].
  change (Forall (λ i, is_bit (w i)) (bools (nbw_existing_balance_opening wit) ++ [])) in Hb.
  rewrite app_nil_r in Hb. unfold new_output_balance_validity_circuit.
  step (validate_new_output_balance_spec W); [intros H; split; apply (Hrel H)|].
  intros _ [E1 E2]. step (validate_balance_shares_spec W); [intros H; apply (Hrel H)|].
  intros p [Hp E3]. rewrite E1 in Hp. change (cmap w p = v_complement (cmap w (nbw_new_balance wit))) in Hp.
  step (recovery_id_spec W). intros [rid e] [Hrid He].
  step (constrain_eq_var_spec W).
  { intros H. rewrite Hrid. symmetry. apply (nb_new _ _ (Hrel H)). }
  intros _ E4. rewrite Hrid in E4.
  step (partial_shared_prefix_spec W); [vm_compute; lia|]. intros [c pc] [Hc Hpc].
  rewrite Hp in Hc, Hpc. rewrite He in Hpc.
  step (constrain_eq_spec W); [intros H; rewrite Hpc; symmetry; apply (nb_new _ _ (Hrel H))|].
  intros _ E5. rewrite Hpc in E5. unfold authorize_new_balance.
  step (verify_existing_balance_spec W); [intros H; apply (Hrel H)|]. intros _ E6.
  unfold verify_signature. step verify_signature_law.
  { intros H. change (w <$> to_vars (F:=Id) c) with [w c]. rewrite Hc. apply (Hrel H). }
  intros _ E7. step (constrain_eq_var_spec W); [intros H; apply (Hrel H)|]. intros _ E8.
  step (constrain_eq_spec W); [intros H; apply (Hrel H)|]. intros _ E9.
  eapply wp_mono; [apply (constrain_eq_var_spec W); intros H; apply (Hrel H)|]. intros [] E10.
  change (schnorr_verifies (bv_authority (swv_inner (cmap w (nbw_existing_balance wit)))) [w c]
    (cmap w (nbw_new_balance_authorization_signature wit))) in E7. rewrite Hc in E7.
  by split; try done; split.
Qed.
