(* ===== verification/SettlementCircuits.v ===== *)
(** * Settlement circuits

    src/crates/circuits/circuits-core/src/zk_circuits/settlement/{settlement_lib,
    intent_only_public_settlement,intent_only_bounded_settlement,
    intent_and_balance_public_settlement,intent_and_balance_bounded_settlement,
    intent_and_balance_private_settlement}.rs: the intents and balances of a match admit
    its obligations, and the public shares are updated by them.

    A settlement circuit does not check the ranges of what it receives.  The validity
    proofs it is linked with are about committed elements, whose amounts are in range,
    and the contract checks the bit lengths of the public obligations and fee rates.
    These facts are the preconditions of the theorems; under them the relations are exact
    statements about integers. *)
From S2P Require Import Prelude Scalar FixedPoint Circuit CircuitTypes Gadgets StateGadgets.
From S2P Require Import ProverCircuit BalanceCircuits.
Local Open Scope Z_scope.

(** ** Settlement gadgets (settlement_lib.rs) *)

Section Gadgets.
Context `{PlonkCircuit}.

(** [SettlementGadget::verify_intent_constraints] *)
Definition verify_intent_constraints (intent : IntentVar Var)
    (obligation : SettlementObligationVar Var) : Circuit unit :=
  constrain_eq (F:=Id) (ov_input_token obligation) (iv_in_token intent);;
  constrain_eq (F:=Id) (ov_output_token obligation) (iv_out_token intent);;
  constrain_greater_than_eq (iv_amount_in intent) (ov_amount_in obligation) (Z.to_nat AMOUNT_BITS);;
  min_output_fp ← mul_integer (iv_min_price intent) (ov_amount_in obligation);
  min_output ← floor_gadget min_output_fp;
  constrain_greater_than_eq (ov_amount_out obligation) min_output (Z.to_nat AMOUNT_BITS).

Definition verify_in_balance_constraints (in_balance : DarkpoolBalanceVar Var)
    (obligation : SettlementObligationVar Var) : Circuit unit :=
  constrain_greater_than_eq (bv_amount in_balance) (ov_amount_in obligation) (Z.to_nat AMOUNT_BITS).

Definition verify_out_balance_constraints (intent : IntentVar Var)
    (out_balance : DarkpoolBalanceVar Var) (fee_take : FeeTakeVar Var)
    (obligation : SettlementObligationVar Var) : Circuit unit :=
  constrain_eq (F:=Id) (bv_mint out_balance) (ov_output_token obligation);;
  constrain_eq (F:=Id) (bv_owner out_balance) (iv_owner intent);;
  fee ← total_fee fee_take;
  net_receive ← cs_sub (ov_amount_out obligation) fee;
  new_bal_amount ← cs_add (bv_amount out_balance) net_receive;
  constrain_valid_amount new_bal_amount;;
  new_relayer_fee_balance ← cs_add (bv_relayer_fee_balance out_balance) (ftv_relayer_fee fee_take);
  new_protocol_fee_balance ←
    cs_add (bv_protocol_fee_balance out_balance) (ftv_protocol_fee fee_take);
  constrain_valid_amount new_relayer_fee_balance;;
  constrain_valid_amount new_protocol_fee_balance.

Definition verify_intent_and_balance_obligation_constraints (intent : IntentVar Var)
    (in_balance out_balance : DarkpoolBalanceVar Var) (obligation : SettlementObligationVar Var)
    (fee_take : FeeTakeVar Var) : Circuit unit :=
  verify_intent_constraints intent obligation;;
  verify_in_balance_constraints in_balance obligation;;
  verify_out_balance_constraints intent out_balance fee_take obligation.

Definition verify_output_balance_share_updates (fee_take : FeeTakeVar Var)
    (old_shares new_shares : PostMatchBalanceVar Var) (obligation : SettlementObligationVar Var)
    : Circuit unit :=
  fee ← total_fee fee_take;
  net_receive ← cs_sub (ov_amount_out obligation) fee;
  amount ← cs_add (qbv_amount old_shares) net_receive;
  relayer_fee_balance ← cs_add (qbv_relayer_fee_balance old_shares) (ftv_relayer_fee fee_take);
  protocol_fee_balance ← cs_add (qbv_protocol_fee_balance old_shares) (ftv_protocol_fee fee_take);
  let expected_shares :=
    mkPostMatchBalanceVar relayer_fee_balance protocol_fee_balance amount in
  constrain_eq expected_shares new_shares.

Definition verify_state_updates (fee_take : FeeTakeVar Var)
    (intent_amount_public_share new_amount_public_share : Var)
    (in_balance_public_shares new_in_balance_public_shares
     out_balance_public_shares new_out_balance_public_shares : PostMatchBalanceVar Var)
    (obligation : SettlementObligationVar Var) : Circuit unit :=
  expected_amount_public_share ← cs_sub intent_amount_public_share (ov_amount_in obligation);
  constrain_eq (F:=Id) expected_amount_public_share new_amount_public_share;;
  amount ← cs_sub (qbv_amount in_balance_public_shares) (ov_amount_in obligation);
  let expected_shares :=
    mkPostMatchBalanceVar (qbv_relayer_fee_balance in_balance_public_shares)
      (qbv_protocol_fee_balance in_balance_public_shares) amount in
  constrain_eq expected_shares new_in_balance_public_shares;;
  verify_output_balance_share_updates fee_take out_balance_public_shares
    new_out_balance_public_shares obligation.

(** [BoundedSettlementGadget::verify_intent_constraints] *)
Definition verify_bounded_intent_constraints (intent : IntentVar Var)
    (bounded_match_result : BoundedMatchResultVar Var) : Circuit unit :=
  constrain_eq (F:=Id) (bmv_input_token bounded_match_result) (iv_in_token intent);;
  constrain_eq (F:=Id) (bmv_output_token bounded_match_result) (iv_out_token intent);;
  constrain_greater_than_eq (iv_amount_in intent) (bmv_max_amount_in bounded_match_result)
    (Z.to_nat AMOUNT_BITS);;
  constrain_greater_than_eq (fpv_repr (bmv_price bounded_match_result))
    (fpv_repr (iv_min_price intent)) (Z.to_nat PRICE_BITS).

(** [BoundedSettlementGadget::verify_in_balance_constraints] *)
Definition verify_bounded_in_balance_constraints (in_balance : DarkpoolBalanceVar Var)
    (bounded_match_result : BoundedMatchResultVar Var) : Circuit unit :=
  constrain_greater_than_eq (bv_amount in_balance) (bmv_max_amount_in bounded_match_result)
    (Z.to_nat AMOUNT_BITS).

(** [BoundedSettlementGadget::verify_out_balance_constraints] *)
Definition verify_bounded_out_balance_constraints (out_balance : DarkpoolBalanceVar Var)
    (intent : IntentVar Var) (bounded_match_result : BoundedMatchResultVar Var) : Circuit unit :=
  constrain_eq (F:=Id) (bv_mint out_balance) (bmv_output_token bounded_match_result);;
  constrain_eq (F:=Id) (bv_owner out_balance) (iv_owner intent);;
  max_output_fp ←
    mul_integer (bmv_price bounded_match_result) (bmv_max_amount_in bounded_match_result);
  max_output ← floor_gadget max_output_fp;
  max_bal_amount ← cs_add (bv_amount out_balance) max_output;
  constrain_valid_amount max_bal_amount.

Definition verify_intent_and_balance_bounded_match_result_constraints (intent : IntentVar Var)
    (in_balance out_balance : DarkpoolBalanceVar Var)
    (bounded_match_result : BoundedMatchResultVar Var) : Circuit unit :=
  verify_bounded_intent_constraints intent bounded_match_result;;
  verify_bounded_in_balance_constraints in_balance bounded_match_result;;
  verify_bounded_out_balance_constraints out_balance intent bounded_match_result.
End Gadgets.

(** ** INTENT ONLY PUBLIC SETTLEMENT *)

Record IntentOnlyPublicSettlementWitness (A : Type) := mkIntentOnlyPublicWitness {
  ipw_intent : IntentVar A;
}.
Arguments mkIntentOnlyPublicWitness {A} _.
Arguments ipw_intent {A} _.
#[global] Instance IntentOnlyPublicSettlementWitness_type : CircuitType IntentOnlyPublicSettlementWitness :=
  struct_type (P:=IntentVar)
    (λ A x, ipw_intent x)
    (λ A p, mkIntentOnlyPublicWitness p).
Record IntentOnlyPublicSettlementStatement (A : Type) := mkIntentOnlyPublicStatement {
  ips_settlement_obligation : SettlementObligationVar A;
  ips_relayer_fee : FixedPointVar A;
  ips_relayer_fee_recipient : A;
}.
Arguments mkIntentOnlyPublicStatement {A} _ _ _.
Arguments ips_settlement_obligation {A} _.
Arguments ips_relayer_fee {A} _.
Arguments ips_relayer_fee_recipient {A} _.
#[global] Instance IntentOnlyPublicSettlementStatement_type : CircuitType IntentOnlyPublicSettlementStatement :=
  struct_type (P:=ProdT SettlementObligationVar (ProdT FixedPointVar Id))
    (λ A x, (ips_settlement_obligation x, (ips_relayer_fee x, ips_relayer_fee_recipient x)))
    (λ A p, mkIntentOnlyPublicStatement p.1 p.2.1 p.2.2).

Definition intent_only_public_settlement_circuit `{PlonkCircuit}
    (witness : IntentOnlyPublicSettlementWitness Var)
    (statement : IntentOnlyPublicSettlementStatement Var) : Circuit unit :=
  verify_intent_constraints (ipw_intent witness) (ips_settlement_obligation statement).

Definition IntentOnlyPublicSettlementCircuit : SingleProverCircuit := {|
  Witness := IntentOnlyPublicSettlementWitness;
  Statement := IntentOnlyPublicSettlementStatement;
  apply_constraints _ _ witness statement :=
    intent_only_public_settlement_circuit witness statement;
|}.

(** ** INTENT ONLY BOUNDED SETTLEMENT *)

Record IntentOnlyBoundedSettlementWitness (A : Type) := mkIntentOnlyBoundedWitness {
  iobw_intent : IntentVar A;
}.
Arguments mkIntentOnlyBoundedWitness {A} _.
Arguments iobw_intent {A} _.
#[global] Instance IntentOnlyBoundedSettlementWitness_type : CircuitType IntentOnlyBoundedSettlementWitness :=
  struct_type (P:=IntentVar)
    (λ A x, iobw_intent x)
    (λ A p, mkIntentOnlyBoundedWitness p).
Record IntentOnlyBoundedSettlementStatement (A : Type) := mkIntentOnlyBoundedStatement {
  iobs_bounded_match_result : BoundedMatchResultVar A;
  iobs_internal_relayer_fee : FixedPointVar A;
  iobs_external_relayer_fee : FixedPointVar A;
  iobs_relayer_fee_recipient : A;
}.
Arguments mkIntentOnlyBoundedStatement {A} _ _ _ _.
Arguments iobs_bounded_match_result {A} _.
Arguments iobs_internal_relayer_fee {A} _.
Arguments iobs_external_relayer_fee {A} _.
Arguments iobs_relayer_fee_recipient {A} _.
#[global] Instance IntentOnlyBoundedSettlementStatement_type : CircuitType IntentOnlyBoundedSettlementStatement :=
  struct_type (P:=ProdT BoundedMatchResultVar (ProdT FixedPointVar (ProdT FixedPointVar Id)))
    (λ A x, (iobs_bounded_match_result x, (iobs_internal_relayer_fee x,
      (iobs_external_relayer_fee x, iobs_relayer_fee_recipient x))))
    (λ A p, mkIntentOnlyBoundedStatement p.1 p.2.1 p.2.2.1 p.2.2.2).

Definition intent_only_bounded_settlement_circuit `{PlonkCircuit}
    (witness : IntentOnlyBoundedSettlementWitness Var)
    (statement : IntentOnlyBoundedSettlementStatement Var) : Circuit unit :=
  verify_bounded_intent_constraints (iobw_intent witness) (iobs_bounded_match_result statement).

Definition IntentOnlyBoundedSettlementCircuit : SingleProverCircuit := {|
  Witness := IntentOnlyBoundedSettlementWitness;
  Statement := IntentOnlyBoundedSettlementStatement;
  apply_constraints _ _ witness statement :=
    intent_only_bounded_settlement_circuit witness statement;
|}.

(** ** INTENT AND BALANCE PUBLIC SETTLEMENT *)

Record IntentAndBalancePublicSettlementWitness (A : Type) := mkPublicSettlementWitness {
  puw_intent : IntentVar A;
  puw_pre_settlement_amount_public_share : A;
  puw_in_balance : DarkpoolBalanceVar A;
  puw_pre_settlement_in_balance_shares : PostMatchBalanceVar A;
  puw_out_balance : DarkpoolBalanceVar A;
  puw_pre_settlement_out_balance_shares : PostMatchBalanceVar A;
}.
Arguments mkPublicSettlementWitness {A} _ _ _ _ _ _.
Arguments puw_intent {A} _.
Arguments puw_pre_settlement_amount_public_share {A} _.
Arguments puw_in_balance {A} _.
Arguments puw_pre_settlement_in_balance_shares {A} _.
Arguments puw_out_balance {A} _.
Arguments puw_pre_settlement_out_balance_shares {A} _.
#[global] Instance IntentAndBalancePublicSettlementWitness_type : CircuitType IntentAndBalancePublicSettlementWitness :=
  struct_type (P:=ProdT IntentVar (ProdT Id (ProdT DarkpoolBalanceVar (ProdT PostMatchBalanceVar
    (ProdT DarkpoolBalanceVar PostMatchBalanceVar)))))
    (λ A x, (puw_intent x, (puw_pre_settlement_amount_public_share x, (puw_in_balance x,
      (puw_pre_settlement_in_balance_shares x, (puw_out_balance x,
      puw_pre_settlement_out_balance_shares x))))))
    (λ A p, mkPublicSettlementWitness p.1 p.2.1 p.2.2.1 p.2.2.2.1 p.2.2.2.2.1 p.2.2.2.2.2).
Record IntentAndBalancePublicSettlementStatement (A : Type) := mkPublicSettlementStatement {
  pus_settlement_obligation : SettlementObligationVar A;
  pus_amount_public_share : A;
  pus_in_balance_public_shares : PostMatchBalanceVar A;
  pus_out_balance_public_shares : PostMatchBalanceVar A;
  pus_fee_rates : FeeRatesVar A;
  pus_relayer_fee_recipient : A;
}.
Arguments mkPublicSettlementStatement {A} _ _ _ _ _ _.
Arguments pus_settlement_obligation {A} _.
Arguments pus_amount_public_share {A} _.
Arguments pus_in_balance_public_shares {A} _.
Arguments pus_out_balance_public_shares {A} _.
Arguments pus_fee_rates {A} _.
Arguments pus_relayer_fee_recipient {A} _.
#[global] Instance IntentAndBalancePublicSettlementStatement_type : CircuitType IntentAndBalancePublicSettlementStatement :=
  struct_type (P:=ProdT SettlementObligationVar (ProdT Id (ProdT PostMatchBalanceVar (ProdT
    PostMatchBalanceVar (ProdT FeeRatesVar Id)))))
    (λ A x, (pus_settlement_obligation x, (pus_amount_public_share x,
      (pus_in_balance_public_shares x, (pus_out_balance_public_shares x, (pus_fee_rates x,
      pus_relayer_fee_recipient x))))))
    (λ A p, mkPublicSettlementStatement p.1 p.2.1 p.2.2.1 p.2.2.2.1 p.2.2.2.2.1 p.2.2.2.2.2).

Definition intent_and_balance_public_settlement_circuit `{PlonkCircuit}
    (witness : IntentAndBalancePublicSettlementWitness Var)
    (statement : IntentAndBalancePublicSettlementStatement Var) : Circuit unit :=
  fee_take ←
    compute_fee_take (ov_amount_out (pus_settlement_obligation statement)) (pus_fee_rates statement);
  verify_intent_and_balance_obligation_constraints (puw_intent witness) (puw_in_balance witness)
    (puw_out_balance witness) (pus_settlement_obligation statement) fee_take;;
  constrain_eq (F:=Id) (puw_pre_settlement_amount_public_share witness)
    (pus_amount_public_share statement);;
  constrain_eq (puw_pre_settlement_in_balance_shares witness)
    (pus_in_balance_public_shares statement);;
  constrain_eq (puw_pre_settlement_out_balance_shares witness)
    (pus_out_balance_public_shares statement);;
  constrain_eq (F:=Id) (bv_relayer_fee_recipient (puw_out_balance witness))
    (pus_relayer_fee_recipient statement).

Definition IntentAndBalancePublicSettlementCircuit : SingleProverCircuit := {|
  Witness := IntentAndBalancePublicSettlementWitness;
  Statement := IntentAndBalancePublicSettlementStatement;
  apply_constraints _ _ witness statement :=
    intent_and_balance_public_settlement_circuit witness statement;
|}.

(** ** INTENT AND BALANCE BOUNDED SETTLEMENT *)

Record IntentAndBalanceBoundedSettlementWitness (A : Type) := mkBoundedSettlementWitness {
  bow_intent : IntentVar A;
  bow_pre_settlement_amount_public_share : A;
  bow_in_balance : DarkpoolBalanceVar A;
  bow_pre_settlement_in_balance_shares : PostMatchBalanceVar A;
  bow_out_balance : DarkpoolBalanceVar A;
  bow_pre_settlement_out_balance_shares : PostMatchBalanceVar A;
}.
Arguments mkBoundedSettlementWitness {A} _ _ _ _ _ _.
Arguments bow_intent {A} _.
Arguments bow_pre_settlement_amount_public_share {A} _.
Arguments bow_in_balance {A} _.
Arguments bow_pre_settlement_in_balance_shares {A} _.
Arguments bow_out_balance {A} _.
Arguments bow_pre_settlement_out_balance_shares {A} _.
#[global] Instance IntentAndBalanceBoundedSettlementWitness_type : CircuitType IntentAndBalanceBoundedSettlementWitness :=
  struct_type (P:=ProdT IntentVar (ProdT Id (ProdT DarkpoolBalanceVar (ProdT PostMatchBalanceVar
    (ProdT DarkpoolBalanceVar PostMatchBalanceVar)))))
    (λ A x, (bow_intent x, (bow_pre_settlement_amount_public_share x, (bow_in_balance x,
      (bow_pre_settlement_in_balance_shares x, (bow_out_balance x,
      bow_pre_settlement_out_balance_shares x))))))
    (λ A p, mkBoundedSettlementWitness p.1 p.2.1 p.2.2.1 p.2.2.2.1 p.2.2.2.2.1 p.2.2.2.2.2).
Record IntentAndBalanceBoundedSettlementStatement (A : Type) := mkBoundedSettlementStatement {
  bos_bounded_match_result : BoundedMatchResultVar A;
  bos_amount_public_share : A;
  bos_in_balance_public_shares : PostMatchBalanceVar A;
  bos_out_balance_public_shares : PostMatchBalanceVar A;
  bos_internal_relayer_fee : FixedPointVar A;
  bos_external_relayer_fee : FixedPointVar A;
  bos_relayer_fee_recipient : A;
}.
Arguments mkBoundedSettlementStatement {A} _ _ _ _ _ _ _.
Arguments bos_bounded_match_result {A} _.
Arguments bos_amount_public_share {A} _.
Arguments bos_in_balance_public_shares {A} _.
Arguments bos_out_balance_public_shares {A} _.
Arguments bos_internal_relayer_fee {A} _.
Arguments bos_external_relayer_fee {A} _.
Arguments bos_relayer_fee_recipient {A} _.
#[global] Instance IntentAndBalanceBoundedSettlementStatement_type : CircuitType IntentAndBalanceBoundedSettlementStatement :=
  struct_type (P:=ProdT BoundedMatchResultVar (ProdT Id (ProdT PostMatchBalanceVar (ProdT
    PostMatchBalanceVar (ProdT FixedPointVar (ProdT FixedPointVar Id))))))
    (λ A x, (bos_bounded_match_result x, (bos_amount_public_share x,
      (bos_in_balance_public_shares x, (bos_out_balance_public_shares x, (bos_internal_relayer_fee
      x, (bos_external_relayer_fee x, bos_relayer_fee_recipient x)))))))
    (λ A p, mkBoundedSettlementStatement p.1 p.2.1 p.2.2.1 p.2.2.2.1 p.2.2.2.2.1 p.2.2.2.2.2.1
      p.2.2.2.2.2.2).

Definition intent_and_balance_bounded_settlement_circuit `{PlonkCircuit}
    (witness : IntentAndBalanceBoundedSettlementWitness Var)
    (statement : IntentAndBalanceBoundedSettlementStatement Var) : Circuit unit :=
  verify_intent_and_balance_bounded_match_result_constraints (bow_intent witness)
    (bow_in_balance witness) (bow_out_balance witness) (bos_bounded_match_result statement);;
  constrain_eq (F:=Id) (bow_pre_settlement_amount_public_share witness)
    (bos_amount_public_share statement);;
  constrain_eq (bow_pre_settlement_in_balance_shares witness)
    (bos_in_balance_public_shares statement);;
  constrain_eq (bow_pre_settlement_out_balance_shares witness)
    (bos_out_balance_public_shares statement);;
  constrain_eq (F:=Id) (bv_relayer_fee_recipient (bow_out_balance witness))
    (bos_relayer_fee_recipient statement).

Definition IntentAndBalanceBoundedSettlementCircuit : SingleProverCircuit := {|
  Witness := IntentAndBalanceBoundedSettlementWitness;
  Statement := IntentAndBalanceBoundedSettlementStatement;
  apply_constraints _ _ witness statement :=
    intent_and_balance_bounded_settlement_circuit witness statement;
|}.

(** ** INTENT AND BALANCE PRIVATE SETTLEMENT *)

Record IntentAndBalancePrivateSettlementWitness (A : Type) := mkPrivateSettlementWitness {
  psw_settlement_obligation0 : SettlementObligationVar A;
  psw_intent0 : IntentVar A;
  psw_pre_settlement_amount_public_share0 : A;
  psw_input_balance0 : DarkpoolBalanceVar A;
  psw_pre_settlement_in_balance_shares0 : PostMatchBalanceVar A;
  psw_output_balance0 : DarkpoolBalanceVar A;
  psw_pre_settlement_out_balance_shares0 : PostMatchBalanceVar A;
  psw_settlement_obligation1 : SettlementObligationVar A;
  psw_intent1 : IntentVar A;
  psw_pre_settlement_amount_public_share1 : A;
  psw_input_balance1 : DarkpoolBalanceVar A;
  psw_pre_settlement_in_balance_shares1 : PostMatchBalanceVar A;
  psw_output_balance1 : DarkpoolBalanceVar A;
  psw_pre_settlement_out_balance_shares1 : PostMatchBalanceVar A;
}.
Arguments mkPrivateSettlementWitness {A} _ _ _ _ _ _ _ _ _ _ _ _ _ _.
Arguments psw_settlement_obligation0 {A} _.
Arguments psw_intent0 {A} _.
Arguments psw_pre_settlement_amount_public_share0 {A} _.
Arguments psw_input_balance0 {A} _.
Arguments psw_pre_settlement_in_balance_shares0 {A} _.
Arguments psw_output_balance0 {A} _.
Arguments psw_pre_settlement_out_balance_shares0 {A} _.
Arguments psw_settlement_obligation1 {A} _.
Arguments psw_intent1 {A} _.
Arguments psw_pre_settlement_amount_public_share1 {A} _.
Arguments psw_input_balance1 {A} _.
Arguments psw_pre_settlement_in_balance_shares1 {A} _.
Arguments psw_output_balance1 {A} _.
Arguments psw_pre_settlement_out_balance_shares1 {A} _.
#[global] Instance IntentAndBalancePrivateSettlementWitness_type : CircuitType IntentAndBalancePrivateSettlementWitness :=
  struct_type (P:=ProdT SettlementObligationVar (ProdT IntentVar (ProdT Id (ProdT
    DarkpoolBalanceVar (ProdT PostMatchBalanceVar (ProdT DarkpoolBalanceVar (ProdT
    PostMatchBalanceVar (ProdT SettlementObligationVar (ProdT IntentVar (ProdT Id (ProdT
    DarkpoolBalanceVar (ProdT PostMatchBalanceVar (ProdT DarkpoolBalanceVar
    PostMatchBalanceVar)))))))))))))
    (λ A x, (psw_settlement_obligation0 x, (psw_intent0 x,
      (psw_pre_settlement_amount_public_share0 x, (psw_input_balance0 x,
      (psw_pre_settlement_in_balance_shares0 x, (psw_output_balance0 x,
      (psw_pre_settlement_out_balance_shares0 x, (psw_settlement_obligation1 x, (psw_intent1 x,
      (psw_pre_settlement_amount_public_share1 x, (psw_input_balance1 x,
      (psw_pre_settlement_in_balance_shares1 x, (psw_output_balance1 x,
      psw_pre_settlement_out_balance_shares1 x))))))))))))))
    (λ A p, mkPrivateSettlementWitness p.1 p.2.1 p.2.2.1 p.2.2.2.1 p.2.2.2.2.1 p.2.2.2.2.2.1
      p.2.2.2.2.2.2.1 p.2.2.2.2.2.2.2.1 p.2.2.2.2.2.2.2.2.1 p.2.2.2.2.2.2.2.2.2.1
      p.2.2.2.2.2.2.2.2.2.2.1 p.2.2.2.2.2.2.2.2.2.2.2.1 p.2.2.2.2.2.2.2.2.2.2.2.2.1
      p.2.2.2.2.2.2.2.2.2.2.2.2.2).
Record IntentAndBalancePrivateSettlementStatement (A : Type) := mkPrivateSettlementStatement {
  pss_new_amount_public_share0 : A;
  pss_new_in_balance_public_shares0 : PostMatchBalanceVar A;
  pss_new_out_balance_public_shares0 : PostMatchBalanceVar A;
  pss_new_amount_public_share1 : A;
  pss_new_in_balance_public_shares1 : PostMatchBalanceVar A;
  pss_new_out_balance_public_shares1 : PostMatchBalanceVar A;
  pss_relayer_fee0 : FixedPointVar A;
  pss_relayer_fee1 : FixedPointVar A;
  pss_protocol_fee : FixedPointVar A;
}.
Arguments mkPrivateSettlementStatement {A} _ _ _ _ _ _ _ _ _.
Arguments pss_new_amount_public_share0 {A} _.
Arguments pss_new_in_balance_public_shares0 {A} _.
Arguments pss_new_out_balance_public_shares0 {A} _.
Arguments pss_new_amount_public_share1 {A} _.
Arguments pss_new_in_balance_public_shares1 {A} _.
Arguments pss_new_out_balance_public_shares1 {A} _.
Arguments pss_relayer_fee0 {A} _.
Arguments pss_relayer_fee1 {A} _.
Arguments pss_protocol_fee {A} _.
#[global] Instance IntentAndBalancePrivateSettlementStatement_type : CircuitType IntentAndBalancePrivateSettlementStatement :=
  struct_type (P:=ProdT Id (ProdT PostMatchBalanceVar (ProdT PostMatchBalanceVar (ProdT Id
    (ProdT PostMatchBalanceVar (ProdT PostMatchBalanceVar (ProdT FixedPointVar (ProdT
    FixedPointVar FixedPointVar))))))))
    (λ A x, (pss_new_amount_public_share0 x, (pss_new_in_balance_public_shares0 x,
      (pss_new_out_balance_public_shares0 x, (pss_new_amount_public_share1 x,
      (pss_new_in_balance_public_shares1 x, (pss_new_out_balance_public_shares1 x,
      (pss_relayer_fee0 x, (pss_relayer_fee1 x, pss_protocol_fee x)))))))))
    (λ A p, mkPrivateSettlementStatement p.1 p.2.1 p.2.2.1 p.2.2.2.1 p.2.2.2.2.1 p.2.2.2.2.2.1
      p.2.2.2.2.2.2.1 p.2.2.2.2.2.2.2.1 p.2.2.2.2.2.2.2.2).

Section PrivateSettlement.
Context `{PlonkCircuit}.

Definition validate_obligation_compatibility
    (witness : IntentAndBalancePrivateSettlementWitness Var) : Circuit unit :=
  let obligation0 := psw_settlement_obligation0 witness in
  let obligation1 := psw_settlement_obligation1 witness in
  constrain_valid_amount (ov_amount_in obligation0);;
  constrain_valid_amount (ov_amount_out obligation0);;
  constrain_valid_amount (ov_amount_in obligation1);;
  constrain_valid_amount (ov_amount_out obligation1);;
  constrain_eq (F:=Id) (ov_input_token obligation0) (ov_output_token obligation1);;
  constrain_eq (F:=Id) (ov_output_token obligation0) (ov_input_token obligation1);;
  constrain_eq (F:=Id) (ov_amount_in obligation0) (ov_amount_out obligation1);;
  constrain_eq (F:=Id) (ov_amount_out obligation0) (ov_amount_in obligation1).

Definition get_fee_takes (statement : IntentAndBalancePrivateSettlementStatement Var)
    (witness : IntentAndBalancePrivateSettlementWitness Var)
    : Circuit (FeeTakeVar Var * FeeTakeVar Var) :=
  let fee_rate0 := mkFeeRatesVar (pss_relayer_fee0 statement) (pss_protocol_fee statement) in
  let fee_rate1 := mkFeeRatesVar (pss_relayer_fee1 statement) (pss_protocol_fee statement) in
  fee_take0 ← compute_fee_take (ov_amount_out (psw_settlement_obligation0 witness)) fee_rate0;
  fee_take1 ← compute_fee_take (ov_amount_out (psw_settlement_obligation1 witness)) fee_rate1;
  mret (fee_take0, fee_take1).

Definition intent_and_balance_private_settlement_circuit
    (witness : IntentAndBalancePrivateSettlementWitness Var)
    (statement : IntentAndBalancePrivateSettlementStatement Var) : Circuit unit :=
  validate_obligation_compatibility witness;;
  '(fee_take0, fee_take1) ← get_fee_takes statement witness;
  verify_intent_and_balance_obligation_constraints (psw_intent0 witness)
    (psw_input_balance0 witness) (psw_output_balance0 witness)
    (psw_settlement_obligation0 witness) fee_take0;;
  verify_intent_and_balance_obligation_constraints (psw_intent1 witness)
    (psw_input_balance1 witness) (psw_output_balance1 witness)
    (psw_settlement_obligation1 witness) fee_take1;;
  verify_state_updates fee_take0 (psw_pre_settlement_amount_public_share0 witness)
    (pss_new_amount_public_share0 statement) (psw_pre_settlement_in_balance_shares0 witness)
    (pss_new_in_balance_public_shares0 statement) (psw_pre_settlement_out_balance_shares0 witness)
    (pss_new_out_balance_public_shares0 statement) (psw_settlement_obligation0 witness);;
  verify_state_updates fee_take1 (psw_pre_settlement_amount_public_share1 witness)
    (pss_new_amount_public_share1 statement) (psw_pre_settlement_in_balance_shares1 witness)
    (pss_new_in_balance_public_shares1 statement) (psw_pre_settlement_out_balance_shares1 witness)
    (pss_new_out_balance_public_shares1 statement) (psw_settlement_obligation1 witness).
End PrivateSettlement.

Definition IntentAndBalancePrivateSettlementCircuit : SingleProverCircuit := {|
  Witness := IntentAndBalancePrivateSettlementWitness;
  Statement := IntentAndBalancePrivateSettlementStatement;
  apply_constraints _ _ witness statement :=
    intent_and_balance_private_settlement_circuit witness statement;
|}.

(** ** Ranges *)

Record obligation_in_range (o : SettlementObligationVar Scalar) : Prop := {
  range_amount_in : fits 100 (ov_amount_in o);
  range_amount_out : fits 100 (ov_amount_out o);
}.
Record intent_in_range (i : IntentVar Scalar) : Prop := {
  range_min_price : fits 127 (fpv_repr (iv_min_price i));
  range_intent_amount : fits 100 (iv_amount_in i);
}.
Record balance_in_range (b : DarkpoolBalanceVar Scalar) : Prop := {
  range_relayer_fee : fits 100 (bv_relayer_fee_balance b);
  range_protocol_fee : fits 100 (bv_protocol_fee_balance b);
  range_amount : fits 100 (bv_amount b);
}.
Record bounded_match_in_range (r : BoundedMatchResultVar Scalar) : Prop := {
  range_max_amount : fits 100 (bmv_max_amount_in r);
  range_price : fits 127 (fpv_repr (bmv_price r));
}.
Definition rate_in_range (rate : FixedPointVar Scalar) : Prop := fits 63 (fpv_repr rate).

(** ** Relations *)

(** A price or rate times an amount, rounded down. *)
Definition floor_mul (x : FixedPointVar Scalar) (amount : Z) : Z := fpv_repr x * amount / 2 ^ 63.

(** The obligation is within the intent, at the intent's price or better. *)
Record satisfies_intent (i : IntentVar Scalar) (o : SettlementObligationVar Scalar) : Prop := {
  si_input_token : ov_input_token o = iv_in_token i;
  si_output_token : ov_output_token o = iv_out_token i;
  si_amount : ov_amount_in o ≤ iv_amount_in i;
  si_price : floor_mul (iv_min_price i) (ov_amount_in o) ≤ ov_amount_out o;
}.

(** What the output balance gains: the amount received less both fees. *)
Definition net_receive (o : SettlementObligationVar Scalar) (rates : FeeRatesVar Scalar) : Z :=
  ov_amount_out o - floor_mul (frv_relayer_fee_rate rates) (ov_amount_out o)
    - floor_mul (frv_protocol_fee_rate rates) (ov_amount_out o).

Record admits (i : IntentVar Scalar) (in_balance out_balance : DarkpoolBalanceVar Scalar)
    (o : SettlementObligationVar Scalar) (rates : FeeRatesVar Scalar) : Prop := {
  ad_intent : satisfies_intent i o;
  ad_capital : ov_amount_in o ≤ bv_amount in_balance;
  ad_mint : bv_mint out_balance = ov_output_token o;
  ad_owner : bv_owner out_balance = iv_owner i;
  ad_receive : fits 100 (bv_amount out_balance + net_receive o rates);
  ad_relayer_fee : fits 100 (bv_relayer_fee_balance out_balance +
    floor_mul (frv_relayer_fee_rate rates) (ov_amount_out o));
  ad_protocol_fee : fits 100 (bv_protocol_fee_balance out_balance +
    floor_mul (frv_protocol_fee_rate rates) (ov_amount_out o));
}.

Record satisfies_intent_bounded (i : IntentVar Scalar) (r : BoundedMatchResultVar Scalar)
    : Prop := {
  sb_input_token : bmv_input_token r = iv_in_token i;
  sb_output_token : bmv_output_token r = iv_out_token i;
  sb_amount : bmv_max_amount_in r ≤ iv_amount_in i;
  sb_price : fpv_repr (iv_min_price i) ≤ fpv_repr (bmv_price r);
}.

Record admits_bounded (i : IntentVar Scalar) (in_balance out_balance : DarkpoolBalanceVar Scalar)
    (r : BoundedMatchResultVar Scalar) : Prop := {
  ab_intent : satisfies_intent_bounded i r;
  ab_capital : bmv_max_amount_in r ≤ bv_amount in_balance;
  ab_mint : bv_mint out_balance = bmv_output_token r;
  ab_owner : bv_owner out_balance = iv_owner i;
  ab_receive : fits 100 (bv_amount out_balance + floor_mul (bmv_price r) (bmv_max_amount_in r));
}.

(** The updated public shares. *)
Definition settle_in_shares (s : PostMatchBalanceVar Scalar) (o : SettlementObligationVar Scalar)
    : PostMatchBalanceVar Scalar :=
  mkPostMatchBalanceVar (qbv_relayer_fee_balance s) (qbv_protocol_fee_balance s)
    (scalar_sub (qbv_amount s) (ov_amount_in o)).
Definition settle_out_shares (s : PostMatchBalanceVar Scalar) (o : SettlementObligationVar Scalar)
    (rates : FeeRatesVar Scalar) : PostMatchBalanceVar Scalar :=
  mkPostMatchBalanceVar
    (scalar_add (qbv_relayer_fee_balance s)
       (floor_mul (frv_relayer_fee_rate rates) (ov_amount_out o)))
    (scalar_add (qbv_protocol_fee_balance s)
       (floor_mul (frv_protocol_fee_rate rates) (ov_amount_out o)))
    (scalar_add (qbv_amount s) (net_receive o rates)).

Record public_settlement_rel (s : IntentAndBalancePublicSettlementStatement Scalar)
    (x : IntentAndBalancePublicSettlementWitness Scalar) : Prop := {
  pu_admits : admits (puw_intent x) (puw_in_balance x) (puw_out_balance x)
    (pus_settlement_obligation s) (pus_fee_rates s);
  pu_amount_share : puw_pre_settlement_amount_public_share x = pus_amount_public_share s;
  pu_in_shares : puw_pre_settlement_in_balance_shares x = pus_in_balance_public_shares s;
  pu_out_shares : puw_pre_settlement_out_balance_shares x = pus_out_balance_public_shares s;
  pu_recipient : bv_relayer_fee_recipient (puw_out_balance x) = pus_relayer_fee_recipient s;
}.

Record bounded_settlement_rel (s : IntentAndBalanceBoundedSettlementStatement Scalar)
    (x : IntentAndBalanceBoundedSettlementWitness Scalar) : Prop := {
  bo_admits : admits_bounded (bow_intent x) (bow_in_balance x) (bow_out_balance x)
    (bos_bounded_match_result s);
  bo_amount_share : bow_pre_settlement_amount_public_share x = bos_amount_public_share s;
  bo_in_shares : bow_pre_settlement_in_balance_shares x = bos_in_balance_public_shares s;
  bo_out_shares : bow_pre_settlement_out_balance_shares x = bos_out_balance_public_shares s;
  bo_recipient : bv_relayer_fee_recipient (bow_out_balance x) = bos_relayer_fee_recipient s;
}.

(** One side of a private settlement, gathered from the fields of its party. *)
Record settled_party {A : Type} := mkParty {
  sp_obligation : SettlementObligationVar A;
  sp_intent : IntentVar A;
  sp_amount_share : A;
  sp_input_balance : DarkpoolBalanceVar A;
  sp_in_shares : PostMatchBalanceVar A;
  sp_output_balance : DarkpoolBalanceVar A;
  sp_out_shares : PostMatchBalanceVar A;
}.
Arguments settled_party : clear implicits.

Definition party0 {A} (x : IntentAndBalancePrivateSettlementWitness A) : settled_party A :=
  mkParty A (psw_settlement_obligation0 x) (psw_intent0 x) (psw_pre_settlement_amount_public_share0 x)
    (psw_input_balance0 x) (psw_pre_settlement_in_balance_shares0 x) (psw_output_balance0 x)
    (psw_pre_settlement_out_balance_shares0 x).
Definition party1 {A} (x : IntentAndBalancePrivateSettlementWitness A) : settled_party A :=
  mkParty A (psw_settlement_obligation1 x) (psw_intent1 x) (psw_pre_settlement_amount_public_share1 x)
    (psw_input_balance1 x) (psw_pre_settlement_in_balance_shares1 x) (psw_output_balance1 x)
    (psw_pre_settlement_out_balance_shares1 x).

Record party_settles (p : settled_party Scalar) (rates : FeeRatesVar Scalar)
    (new_amount_share : Scalar) (new_in_shares new_out_shares : PostMatchBalanceVar Scalar)
    : Prop := {
  ps_range : obligation_in_range (sp_obligation p);
  ps_admits : admits (sp_intent p) (sp_input_balance p) (sp_output_balance p) (sp_obligation p)
    rates;
  ps_amount_share :
    new_amount_share = scalar_sub (sp_amount_share p) (ov_amount_in (sp_obligation p));
  ps_in_shares : new_in_shares = settle_in_shares (sp_in_shares p) (sp_obligation p);
  ps_out_shares : new_out_shares = settle_out_shares (sp_out_shares p) (sp_obligation p) rates;
}.

Definition rates0 {A} (s : IntentAndBalancePrivateSettlementStatement A) : FeeRatesVar A :=
  mkFeeRatesVar (pss_relayer_fee0 s) (pss_protocol_fee s).
Definition rates1 {A} (s : IntentAndBalancePrivateSettlementStatement A) : FeeRatesVar A :=
  mkFeeRatesVar (pss_relayer_fee1 s) (pss_protocol_fee s).

Record private_settlement_rel (s : IntentAndBalancePrivateSettlementStatement Scalar)
    (x : IntentAndBalancePrivateSettlementWitness Scalar) : Prop := {
  pr_opposite :
    let o0 := psw_settlement_obligation0 x in
    let o1 := psw_settlement_obligation1 x in
    ov_input_token o0 = ov_output_token o1 ∧ ov_output_token o0 = ov_input_token o1 ∧
    ov_amount_in o0 = ov_amount_out o1 ∧ ov_amount_out o0 = ov_amount_in o1;
  pr_party0 : party_settles (party0 x) (rates0 s) (pss_new_amount_public_share0 s)
    (pss_new_in_balance_public_shares0 s) (pss_new_out_balance_public_shares0 s);
  pr_party1 : party_settles (party1 x) (rates1 s) (pss_new_amount_public_share1 s)
    (pss_new_in_balance_public_shares1 s) (pss_new_out_balance_public_shares1 s);
}.

(** ** Preconditions *)

Definition intent_only_public_pre (s : IntentOnlyPublicSettlementStatement Scalar)
    (x : IntentOnlyPublicSettlementWitness Scalar) : Prop :=
  obligation_in_range (ips_settlement_obligation s) ∧ intent_in_range (ipw_intent x).
Definition intent_only_bounded_pre (s : IntentOnlyBoundedSettlementStatement Scalar)
    (x : IntentOnlyBoundedSettlementWitness Scalar) : Prop :=
  bounded_match_in_range (iobs_bounded_match_result s) ∧ intent_in_range (iobw_intent x).
Definition rates_in_range (r : FeeRatesVar Scalar) : Prop :=
  rate_in_range (frv_relayer_fee_rate r) ∧ rate_in_range (frv_protocol_fee_rate r).
Definition public_settlement_pre (s : IntentAndBalancePublicSettlementStatement Scalar)
    (x : IntentAndBalancePublicSettlementWitness Scalar) : Prop :=
  obligation_in_range (pus_settlement_obligation s) ∧ rates_in_range (pus_fee_rates s) ∧
  intent_in_range (puw_intent x) ∧ balance_in_range (puw_in_balance x) ∧
  balance_in_range (puw_out_balance x).
Definition bounded_settlement_pre (s : IntentAndBalanceBoundedSettlementStatement Scalar)
    (x : IntentAndBalanceBoundedSettlementWitness Scalar) : Prop :=
  bounded_match_in_range (bos_bounded_match_result s) ∧
  intent_in_range (bow_intent x) ∧ balance_in_range (bow_in_balance x) ∧
  balance_in_range (bow_out_balance x).
Definition party_in_range (p : settled_party Scalar) : Prop :=
  intent_in_range (sp_intent p) ∧ balance_in_range (sp_input_balance p) ∧
  balance_in_range (sp_output_balance p).
Definition private_settlement_pre (s : IntentAndBalancePrivateSettlementStatement Scalar)
    (x : IntentAndBalancePrivateSettlementWitness Scalar) : Prop :=
  rates_in_range (rates0 s) ∧ rates_in_range (rates1 s) ∧
  party_in_range (party0 x) ∧ party_in_range (party1 x).

(** ** Correctness *)

#[global] Instance IntentOnlyPublicSettlementWitness_laws : CircuitTypeLaws IntentOnlyPublicSettlementWitness.
Proof. solve_struct. Qed.
#[global] Instance IntentOnlyPublicSettlementStatement_laws : CircuitTypeLaws IntentOnlyPublicSettlementStatement.
Proof. solve_struct. Qed.
#[global] Instance IntentOnlyBoundedSettlementWitness_laws : CircuitTypeLaws IntentOnlyBoundedSettlementWitness.
Proof. solve_struct. Qed.
#[global] Instance IntentOnlyBoundedSettlementStatement_laws : CircuitTypeLaws IntentOnlyBoundedSettlementStatement.
Proof. solve_struct. Qed.
#[global] Instance IntentAndBalancePublicSettlementWitness_laws : CircuitTypeLaws IntentAndBalancePublicSettlementWitness.
Proof. solve_struct. Qed.
#[global] Instance IntentAndBalancePublicSettlementStatement_laws : CircuitTypeLaws IntentAndBalancePublicSettlementStatement.
Proof. solve_struct. Qed.
#[global] Instance IntentAndBalanceBoundedSettlementWitness_laws : CircuitTypeLaws IntentAndBalanceBoundedSettlementWitness.
Proof. solve_struct. Qed.
#[global] Instance IntentAndBalanceBoundedSettlementStatement_laws : CircuitTypeLaws IntentAndBalanceBoundedSettlementStatement.
Proof. solve_struct. Qed.
#[global] Instance IntentAndBalancePrivateSettlementWitness_laws : CircuitTypeLaws IntentAndBalancePrivateSettlementWitness.
Proof. solve_struct. Qed.
#[global] Instance IntentAndBalancePrivateSettlementStatement_laws : CircuitTypeLaws IntentAndBalancePrivateSettlementStatement.
Proof. solve_struct. Qed.

(** *** Ranges of field values *)

Lemma fits_scalar n z : (n ≤ 252)%nat → - 2 ^ 252 < z < 2 ^ 252 → fits n (scalar_from z) ↔ fits n z.
Proof.
  intros Hn Hz. pose proof scalar_modulus_bounds. unfold fits, scalar_from.
  assert (2 ^ Z.of_nat n ≤ 2 ^ 252) by (apply Z.pow_le_mono_r; lia).
  destruct (Z.le_gt_cases 0 z).
  - by rewrite Z.mod_small by lia.
  - assert (z mod scalar_modulus = z + scalar_modulus) as ->.
    { rewrite <-(Z.mod_add z 1), Z.mul_1_l by lia. apply Z.mod_small. lia. }
    split; lia.
Qed.

Lemma fits_small n k x : fits n x → (n ≤ k)%nat → 0 ≤ x < 2 ^ Z.of_nat k.
Proof.
  unfold fits. intros Hx Hn.
  assert (2 ^ Z.of_nat n ≤ 2 ^ Z.of_nat k) by (apply Z.pow_le_mono_r; lia). lia.
Qed.

Lemma fits_100 x : fits 100 x → 0 ≤ x < 2 ^ 100.
Proof. done. Qed.
Lemma fits_100_intro x : 0 ≤ x < 2 ^ 100 → fits 100 x.
Proof. done. Qed.

(** The comparison gadget on numbers in range. *)
Lemma fits_sub n a b :
  (n ≤ 250)%nat → fits n a → fits n b → fits n (scalar_sub a b) ↔ b ≤ a.
Proof.
  intros Hn Ha Hb. pose proof (fits_small n 250 a Ha Hn). pose proof (fits_small n 250 b Hb Hn).
  change (Z.of_nat 250) with 250 in *.
  change (scalar_sub a b) with (scalar_from (a - b)). rewrite fits_scalar by lia.
  unfold fits in *. lia.
Qed.

(** A rounded product that the range check of a difference or of a sum bounds is the
    rounded product of integers. *)
Lemma floor_mul_unique x a k (j : Z) :
  fits 127 (fpv_repr x) → fits 100 a → floor_rel (scalar_mul (fpv_repr x) a) k →
  k = scalar_from j → - 2 ^ 180 < j < 2 ^ 180 → j = floor_mul x a.
Proof.
  intros Hx Ha Hf Hk Hj. unfold fits in Hx, Ha. pose proof scalar_modulus_bounds.
  change (2 ^ Z.of_nat 127) with (2 ^ 127) in Hx. change (2 ^ Z.of_nat 100) with (2 ^ 100) in Ha.
  assert (0 ≤ fpv_repr x * a < 2 ^ 227) as Hp by nia.
  apply (floor_unique (fpv_repr x * a) k j); [lia|done..|].
  replace (scalar_mul (fpv_repr x) a) with (fpv_repr x * a) in Hf; [done|].
  unfold scalar_mul. by rewrite Z.mod_small by lia.
Qed.

Lemma floor_mul_range n x a :
  fits n (fpv_repr x) → fits 100 a → (63 ≤ n ≤ 127)%nat →
  0 ≤ floor_mul x a < 2 ^ (Z.of_nat n + 37).
Proof.
  unfold fits, floor_mul. intros Hx Ha Hn. change (2 ^ Z.of_nat 100) with (2 ^ 100) in Ha.
  split; [apply Z.div_pos; nia|]. apply Z.div_lt_upper_bound; [lia|].
  rewrite <-Z.pow_add_r by lia. replace (63 + (Z.of_nat n + 37)) with (Z.of_nat n + 100) by lia.
  rewrite Z.pow_add_r by lia. nia.
Qed.

Section Specs.
Context {Cs : PlonkCircuit} {Laws : PlonkCircuitLaws} {h : Prop} {w : N → Z} (W : assignment w).

(** [a * x] rounded down, with what the honest prover computes. *)
Lemma floor_mul_spec {B} (x : FixedPointVar N) (a : N) (k : N → Circuit B) Q :
  fits 127 (w (fpv_repr x)) → fits 100 (w a) →
  (∀ r, floor_rel (scalar_mul (w (fpv_repr x)) (w a)) (w r) →
        (h → w r = floor_mul (cmap w x) (w a)) → wp h w (k r) Q) →
  wp h w (p ← mul_integer x a; r ← floor_gadget p; k r) Q.
Proof.
  intros Hx Ha Hk. pose proof scalar_modulus_bounds as Hm. unfold fits in Hx, Ha.
  change (2 ^ Z.of_nat 127) with (2 ^ 127) in Hx. change (2 ^ Z.of_nat 100) with (2 ^ 100) in Ha.
  assert (0 ≤ w (fpv_repr x) * w a < 2 ^ 227) as Hp by nia.
  assert (scalar_mul (w (fpv_repr x)) (w a) = w (fpv_repr x) * w a) as E
    by (unfold scalar_mul; by rewrite Z.mod_small by lia).
  step (mul_integer_spec (h:=h)). intros p Hpv. step (floor_gadget_spec W).
  { intros _. rewrite Hpv, E. lia. }
  intros r [Hr Hh]. apply Hk; [by rewrite <-Hpv|]. intros H. by rewrite (Hh H), Hpv, E.
Qed.

(** [a] is at least [b]. *)
Lemma constrain_ge_in_range_spec a b n :
  (n ≤ 250)%nat → fits n (w a) → fits n (w b) → (h → w b ≤ w a) →
  wp h w (constrain_greater_than_eq a b n) (λ _, w b ≤ w a).
Proof.
  intros Hn Ha Hb Hh. eapply wp_mono; [apply (constrain_greater_than_eq_spec W)|].
  - lia.
  - intros H. apply fits_sub; auto.
  - intros [] E. by apply fits_sub in E.
Qed.

Lemma verify_intent_constraints_spec i o :
  let vi := cmap w i in
  let vo := cmap w o in
  intent_in_range vi → obligation_in_range vo → (h → satisfies_intent vi vo) →
  wp h w (verify_intent_constraints i o) (λ _, satisfies_intent vi vo).
Proof.
  intros vi vo [Hp Hi] [Ha Hb] Hs. unfold verify_intent_constraints.
  step (constrain_eq_var_spec W); [intros H; apply (Hs H)|]. intros _ E1.
  step (constrain_eq_var_spec W); [intros H; apply (Hs H)|]. intros _ E2.
  step constrain_ge_in_range_spec; [vm_compute; lia|intros H; apply (Hs H)|]. intros _ E3.
  apply floor_mul_spec; [done..|]. intros r Hr Hh.
  eapply wp_mono; [apply (constrain_greater_than_eq_spec W); [vm_compute; lia|]|].
  - intros H. pose proof (si_price _ _ (Hs H)) as P.
    pose proof (floor_mul_range 127 (iv_min_price vi) _ Hp Ha ltac:(lia)) as [B _].
    change (scalar_sub ?a ?b) with (scalar_from (a - b)). rewrite (Hh H).
    change (fits 100 (scalar_from (ov_amount_out vo - floor_mul (iv_min_price vi) (ov_amount_in vo)))).
    apply fits_100 in Hb. apply fits_scalar; [lia..|]. apply fits_100_intro. lia.
  - intros [] E4. split; [done..|]. apply fits_100 in E4, Hb.
    set (d := scalar_sub (w (ov_amount_out o)) (w r)) in E4.
    assert (ov_amount_out vo - d = floor_mul (iv_min_price vi) (ov_amount_in vo)) as <-; [|lia].
    apply (floor_mul_unique _ _ (w r)); [done..| |lia]. unfold d.
    change (ov_amount_out vo) with (w (ov_amount_out o)).
    rewrite <-(scalar_from_id (w r)) at 1 by apply W. field_mod.
Qed.
End Specs.

(** A sum in range whose second part is a rounded product. *)
Lemma floor_mul_pinned x a b k :
  fits 127 (fpv_repr x) → fits 100 a → fits 100 b → is_scalar k →
  floor_rel (scalar_mul (fpv_repr x) a) k → fits 100 (scalar_add b k) →
  k = floor_mul x a ∧ fits 100 (b + floor_mul x a).
Proof.
  intros Hx Ha Hb Hk Hf Hs. pose proof scalar_modulus_bounds as Hm.
  apply fits_100 in Hs, Hb. set (s := scalar_add b k) in Hs.
  assert (s - b = floor_mul x a) as E.
  { apply (floor_mul_unique x a k); [done..| |lia].
    rewrite <-(scalar_from_id k) at 1 by done. unfold s. field_mod. }
  pose proof (floor_mul_range 127 x a Hx Ha ltac:(lia)) as Hr.
  change (2 ^ (Z.of_nat 127 + 37)) with (2 ^ 164) in Hr. rewrite <-E in Hr |- *. split.
  - rewrite <-(scalar_from_id k) by done. rewrite <-(scalar_from_id (s - b)).
    + unfold s. field_mod.
    + unfold is_scalar. lia.
  - apply fits_100_intro. lia.
Qed.

Lemma scalar_add_floor x a b :
  fits 127 (fpv_repr x) → fits 100 a → fits 100 b → fits 100 (b + floor_mul x a) →
  fits 100 (scalar_add b (floor_mul x a)).
Proof.
  intros Hx Ha Hb Hs. change (scalar_add ?a ?b) with (scalar_from (a + b)).
  apply fits_scalar; [lia| |done]. apply fits_100 in Hs. lia.
Qed.

Lemma fits_rate r : rate_in_range r → fits 127 (fpv_repr r).
Proof. intros Hr. apply (fits_small 63); [done|lia]. Qed.

Lemma net_receive_bounds o rates :
  obligation_in_range o → rates_in_range rates → - 2 ^ 101 < net_receive o rates < 2 ^ 100.
Proof.
  intros [_ Ho] [H1 H2]. unfold net_receive.
  pose proof (floor_mul_range 63 _ _ H1 Ho ltac:(lia)) as B1.
  pose proof (floor_mul_range 63 _ _ H2 Ho ltac:(lia)) as B2.
  change (Z.of_nat 63 + 37) with 100 in *. apply fits_100 in Ho. lia.
Qed.

(** The fees a settlement charges. *)
Record fees_are (t : FeeTakeVar Scalar) (o : SettlementObligationVar Scalar)
    (rates : FeeRatesVar Scalar) : Prop := {
  fa_relayer : ftv_relayer_fee t = floor_mul (frv_relayer_fee_rate rates) (ov_amount_out o);
  fa_protocol : ftv_protocol_fee t = floor_mul (frv_protocol_fee_rate rates) (ov_amount_out o);
}.

(** What the constraints of [compute_fee_take] establish before the output balance is
    checked: the fees up to a multiple of the modulus. *)
Record fees_loose (t : FeeTakeVar Scalar) (o : SettlementObligationVar Scalar)
    (rates : FeeRatesVar Scalar) : Prop := {
  fl_relayer : fee_rel (ov_amount_out o) (fpv_repr (frv_relayer_fee_rate rates)) (ftv_relayer_fee t);
  fl_protocol :
    fee_rel (ov_amount_out o) (fpv_repr (frv_protocol_fee_rate rates)) (ftv_protocol_fee t);
}.

Lemma net_receive_scalar b o rates t :
  fees_are t o rates →
  scalar_add b (scalar_sub (ov_amount_out o) (scalar_add (ftv_relayer_fee t) (ftv_protocol_fee t))) =
  scalar_add b (net_receive o rates).
Proof. intros [-> ->]. unfold net_receive. field_mod. Qed.

Section BalanceSpecs.
Context {Cs : PlonkCircuit} {Laws : PlonkCircuitLaws} {h : Prop} {w : N → Z} (W : assignment w).

Lemma settlement_fee_spec o rates :
  fits 100 (w (ov_amount_out o)) → rates_in_range (cmap w rates) →
  wp h w (compute_fee_take (ov_amount_out o) rates)
    (λ t, fees_loose (cmap w t) (cmap w o) (cmap w rates) ∧
          (h → fees_are (cmap w t) (cmap w o) (cmap w rates))).
Proof.
  intros Ho [H1 H2]. eapply wp_mono; [apply (fee_take_spec W)|].
  - intros _. split_and!; [|done..]. apply (fits_small 100); [done|lia].
  - intros t (E1 & E2 & Hh). split; [by split|]. intros H. by destruct (Hh H).
Qed.

Lemma verify_out_balance_constraints_spec i b t o rates :
  let vi := cmap w i in
  let vb := cmap w b in
  let vo := cmap w o in
  let R := bv_mint vb = ov_output_token vo ∧ bv_owner vb = iv_owner vi ∧
    fits 100 (bv_amount vb + net_receive vo rates) ∧
    fits 100 (bv_relayer_fee_balance vb +
      floor_mul (frv_relayer_fee_rate rates) (ov_amount_out vo)) ∧
    fits 100 (bv_protocol_fee_balance vb +
      floor_mul (frv_protocol_fee_rate rates) (ov_amount_out vo)) in
  balance_in_range vb → obligation_in_range vo → rates_in_range rates →
  fees_loose (cmap w t) vo rates → (h → fees_are (cmap w t) vo rates) → (h → R) →
  wp h w (verify_out_balance_constraints i b t o) (λ _, R ∧ fees_are (cmap w t) vo rates).
Proof.
  intros vi vb vo R [Br Bp Ba] Ho Hr [L1 L2] Hf HR. pose proof Ho as [_ Ho'].
  pose proof Hr as [H1%fits_rate H2%fits_rate].
  pose proof (net_receive_bounds _ _ Ho Hr) as HN.
  unfold verify_out_balance_constraints, total_fee.
  step (constrain_eq_var_spec W); [intros H; apply (HR H)|]. intros _ E1.
  step (constrain_eq_var_spec W); [intros H; apply (HR H)|]. intros _ E2.
  step add_law. intros f F. step sub_law. intros n N'. step add_law. intros a A.
  rewrite N', F in A.
  assert (fees_are (cmap w t) vo rates → w a = scalar_add (bv_amount vb) (net_receive vo rates)) as EA.
  { intros X. rewrite A. exact (net_receive_scalar (bv_amount vb) vo rates (cmap w t) X). }
  assert (fits 100 (scalar_add (bv_amount vb) (net_receive vo rates)) ↔
    fits 100 (bv_amount vb + net_receive vo rates)) as EF.
  { apply fits_scalar; [lia|]. apply fits_100 in Ba. lia. }
  step (constrain_valid_amount_spec W).
  { intros H. rewrite (EA (Hf H)). apply EF. apply (HR H). }
  intros _ E3. step add_law. intros r Er. step add_law. intros p Ep.
  step (constrain_valid_amount_spec W).
  { intros H. rewrite Er. change (w (ftv_relayer_fee t)) with (ftv_relayer_fee (cmap w t)).
    rewrite (fa_relayer _ _ _ (Hf H)). apply scalar_add_floor; try done. apply (HR H). }
  intros _ E4. eapply wp_mono; [apply (constrain_valid_amount_spec W)|].
  { intros H. rewrite Ep. change (w (ftv_protocol_fee t)) with (ftv_protocol_fee (cmap w t)).
    rewrite (fa_protocol _ _ _ (Hf H)). apply scalar_add_floor; try done. apply (HR H). }
  intros [] E5. rewrite Er in E4. rewrite Ep in E5.
  destruct (floor_mul_pinned _ _ _ _ H1 Ho' Br (assigned_scalar w W _) L1 E4) as [F1 G1].
  destruct (floor_mul_pinned _ _ _ _ H2 Ho' Bp (assigned_scalar w W _) L2 E5) as [F2 G2].
  assert (fees_are (cmap w t) vo rates) as X by by split.
  split; [|done]. rewrite (EA X) in E3. apply EF in E3. by split_and!.
Qed.
End BalanceSpecs.

Section SettlementSpecs.
Context {Cs : PlonkCircuit} {Laws : PlonkCircuitLaws} {h : Prop} {w : N → Z} (W : assignment w).

Lemma obligation_constraints_spec i inb outb o t rates :
  let R := admits (cmap w i) (cmap w inb) (cmap w outb) (cmap w o) rates in
  intent_in_range (cmap w i) → balance_in_range (cmap w inb) → balance_in_range (cmap w outb) →
  obligation_in_range (cmap w o) → rates_in_range rates →
  fees_loose (cmap w t) (cmap w o) rates → (h → fees_are (cmap w t) (cmap w o) rates) → (h → R) →
  wp h w (verify_intent_and_balance_obligation_constraints i inb outb o t)
    (λ _, R ∧ fees_are (cmap w t) (cmap w o) rates).
Proof.
  intros R Hi Hin Hout Ho Hr Hl Hf HR. unfold verify_intent_and_balance_obligation_constraints.
  step (verify_intent_constraints_spec W); [intros H; apply (HR H)|]. intros _ E1.
  unfold verify_in_balance_constraints.
  step (constrain_ge_in_range_spec W); [vm_compute; lia|apply Hin|apply Ho|intros H; apply (HR H)|].
  intros _ E2. eapply wp_mono; [apply (verify_out_balance_constraints_spec W); try done|].
  - intros H. destruct (HR H). by split_and!.
  - intros [] [(? & ? & ? & ? & ?) ?]. by split.
Qed.

Lemma verify_state_updates_spec t ish ish' insh insh' outsh outsh' o rates :
  let R := w ish' = scalar_sub (w ish) (w (ov_amount_in o)) ∧
    cmap w insh' = settle_in_shares (cmap w insh) (cmap w o) ∧
    cmap w outsh' = settle_out_shares (cmap w outsh) (cmap w o) rates in
  fees_are (cmap w t) (cmap w o) rates → (h → R) →
  wp h w (verify_state_updates t ish ish' insh insh' outsh outsh' o) (λ _, R).
Proof.
  intros R Hf HR. unfold verify_state_updates, verify_output_balance_share_updates, total_fee.
  step sub_law. intros v Hv.
  step (constrain_eq_var_spec W); [intros H; rewrite Hv; symmetry; apply (HR H)|].
  intros _ E1. rewrite Hv in E1. step sub_law. intros a Ha.
  assert (cmap w (mkPostMatchBalanceVar (qbv_relayer_fee_balance insh)
    (qbv_protocol_fee_balance insh) a) = settle_in_shares (cmap w insh) (cmap w o)) as Ein
    by (unfold settle_in_shares; simpl; by rewrite Ha).
  step (constrain_eq_spec W); [intros H; rewrite Ein; symmetry; apply (HR H)|].
  intros _ E2. rewrite Ein in E2. step add_law. intros f F. step sub_law. intros n N'.
  step add_law. intros b B. step add_law. intros r Rl. step add_law. intros p P.
  rewrite N', F in B.
  assert (cmap w (mkPostMatchBalanceVar r p b) = settle_out_shares (cmap w outsh) (cmap w o) rates)
    as Eout.
  { unfold settle_out_shares. rewrite <-(net_receive_scalar _ _ _ _ Hf).
    rewrite <-(fa_relayer _ _ _ Hf), <-(fa_protocol _ _ _ Hf). simpl. by rewrite Rl, P, B. }
  eapply wp_mono; [apply (constrain_eq_spec W); intros H; rewrite Eout; symmetry; apply (HR H)|].
  intros [] E3. rewrite Eout in E3. by split_and!.
Qed.

Lemma bounded_intent_constraints_spec i r :
  let R := satisfies_intent_bounded (cmap w i) (cmap w r) in
  intent_in_range (cmap w i) → bounded_match_in_range (cmap w r) → (h → R) →
  wp h w (verify_bounded_intent_constraints i r) (λ _, R).
Proof.
  intros R [Hp Hi] [Hm Hq] HR. unfold verify_bounded_intent_constraints.
  step (constrain_eq_var_spec W); [intros H; apply (HR H)|]. intros _ E1.
  step (constrain_eq_var_spec W); [intros H; apply (HR H)|]. intros _ E2.
  step (constrain_ge_in_range_spec W); [vm_compute; lia|intros H; apply (HR H)|]. intros _ E3.
  eapply wp_mono; [apply (constrain_ge_in_range_spec W); try done|by intros [] E4; split].
  - vm_compute. lia.
  - intros H. apply (HR H).
Qed.

Lemma bounded_constraints_spec i inb outb r :
  let R := admits_bounded (cmap w i) (cmap w inb) (cmap w outb) (cmap w r) in
  intent_in_range (cmap w i) → balance_in_range (cmap w inb) → balance_in_range (cmap w outb) →
  bounded_match_in_range (cmap w r) → (h → R) →
  wp h w (verify_intent_and_balance_bounded_match_result_constraints i inb outb r) (λ _, R).
Proof.
  intros R Hi Hin [_ _ Ha] Hr HR. pose proof Hr as [Hm Hq].
  unfold verify_intent_and_balance_bounded_match_result_constraints.
  step bounded_intent_constraints_spec; [intros H; apply (HR H)|]. intros _ E1.
  unfold verify_bounded_in_balance_constraints, verify_bounded_out_balance_constraints.
  step (constrain_ge_in_range_spec W); [vm_compute; lia|apply Hin|intros H; apply (HR H)|]. intros _ E2.
  step (constrain_eq_var_spec W); [intros H; apply (HR H)|]. intros _ E3.
  step (constrain_eq_var_spec W); [intros H; apply (HR H)|]. intros _ E4.
  apply (floor_mul_spec W); [done..|]. intros m Fm Hh. step add_law. intros a Ea.
  eapply wp_mono; [apply (constrain_valid_amount_spec W)|].
  - intros H. rewrite Ea, (Hh H).
    change (fits 100 (scalar_add (bv_amount (cmap w outb))
      (floor_mul (bmv_price (cmap w r)) (bmv_max_amount_in (cmap w r))))).
    apply (scalar_add_floor (bmv_price (cmap w r)) (bmv_max_amount_in (cmap w r)) (bv_amount (cmap w outb))); try done.
    apply (HR H).
  - intros [] E5. rewrite Ea in E5.
    destruct (floor_mul_pinned (bmv_price (cmap w r)) (bmv_max_amount_in (cmap w r)) _ _
      Hq Hm Ha (assigned_scalar w W m) Fm E5). by split.
Qed.

Lemma obligation_compatibility_spec x :
  let o0 := cmap w (psw_settlement_obligation0 x) in
  let o1 := cmap w (psw_settlement_obligation1 x) in
  let R := obligation_in_range o0 ∧ obligation_in_range o1 ∧
    ov_input_token o0 = ov_output_token o1 ∧ ov_output_token o0 = ov_input_token o1 ∧
    ov_amount_in o0 = ov_amount_out o1 ∧ ov_amount_out o0 = ov_amount_in o1 in
  (h → R) → wp h w (validate_obligation_compatibility x) (λ _, R).
Proof.
  intros o0 o1 R HR. unfold validate_obligation_compatibility.
  step (constrain_valid_amount_spec W); [intros H; apply (HR H)|]. intros _ E1.
  step (constrain_valid_amount_spec W); [intros H; apply (HR H)|]. intros _ E2.
  step (constrain_valid_amount_spec W); [intros H; apply (HR H)|]. intros _ E3.
  step (constrain_valid_amount_spec W); [intros H; apply (HR H)|]. intros _ E4.
  step (constrain_eq_var_spec W); [intros H; apply (HR H)|]. intros _ E5.
  step (constrain_eq_var_spec W); [intros H; apply (HR H)|]. intros _ E6.
  step (constrain_eq_var_spec W); [intros H; apply (HR H)|]. intros _ E7.
  eapply wp_mono; [apply (constrain_eq_var_spec W); intros H; apply (HR H)|]. intros [] E8.
  by split_and!.
Qed.
End SettlementSpecs.

Lemma intent_only_public_implements {Cv : CurveSpec} :
  implements_under IntentOnlyPublicSettlementCircuit intent_only_public_pre
    (λ s x, satisfies_intent (ipw_intent x) (ips_settlement_obligation s)).
Proof.
  intros Cs Laws Cg Cl h w W wit st _ [Ho Hi] Hrel. by apply (verify_intent_constraints_spec W).
Qed.

Lemma intent_only_bounded_implements {Cv : CurveSpec} :
  implements_under IntentOnlyBoundedSettlementCircuit intent_only_bounded_pre
    (λ s x, satisfies_intent_bounded (iobw_intent x) (iobs_bounded_match_result s)).
Proof.
  intros Cs Laws Cg Cl h w W wit st _ [Ho Hi] Hrel. by apply (bounded_intent_constraints_spec W).
Qed.

Lemma public_settlement_implements {Cv : CurveSpec} :
  implements_under IntentAndBalancePublicSettlementCircuit public_settlement_pre
    public_settlement_rel.
Proof.
  intros Cs Laws Cg Cl h w W wit st _ (Ho & Hr & Hi & Hb1 & Hb2) Hrel.
  cbn [apply_constraints IntentAndBalancePublicSettlementCircuit].
  unfold intent_and_balance_public_settlement_circuit.
  step (settlement_fee_spec W); [apply Ho|]. intros t [Hl Hf].
  step (obligation_constraints_spec W); [intros H; apply (Hrel H)|]. intros _ [E1 _].
  step (constrain_eq_var_spec W); [intros H; apply (Hrel H)|]. intros _ E2.
  step (constrain_eq_spec W); [intros H; apply (Hrel H)|]. intros _ E3.
  step (constrain_eq_spec W); [intros H; apply (Hrel H)|]. intros _ E4.
  eapply wp_mono; [apply (constrain_eq_var_spec W); intros H; apply (Hrel H)|]. intros [] E5.
  by split.
Qed.

Lemma bounded_settlement_implements {Cv : CurveSpec} :
  implements_under IntentAndBalanceBoundedSettlementCircuit bounded_settlement_pre
    bounded_settlement_rel.
Proof.
  intros Cs Laws Cg Cl h w W wit st _ (Hr & Hi & Hb1 & Hb2) Hrel.
  cbn [apply_constraints IntentAndBalanceBoundedSettlementCircuit].
  unfold intent_and_balance_bounded_settlement_circuit.
  step (bounded_constraints_spec W); [intros H; apply (Hrel H)|]. intros _ E1.
  step (constrain_eq_var_spec W); [intros H; apply (Hrel H)|]. intros _ E2.
  step (constrain_eq_spec W); [intros H; apply (Hrel H)|]. intros _ E3.
  step (constrain_eq_spec W); [intros H; apply (Hrel H)|]. intros _ E4.
  eapply wp_mono; [apply (constrain_eq_var_spec W); intros H; apply (Hrel H)|]. intros [] E5.
  by split.
Qed.

Lemma private_settlement_implements {Cv : CurveSpec} :
  implements_under IntentAndBalancePrivateSettlementCircuit private_settlement_pre
    private_settlement_rel.
Proof.
  intros Cs Laws Cg Cl h w W wit st _ (Hr0 & Hr1 & (Hi0 & Hin0 & Hout0) & Hi1 & Hin1 & Hout1) Hrel.
  cbn [apply_constraints IntentAndBalancePrivateSettlementCircuit].
  unfold intent_and_balance_private_settlement_circuit.
  step (obligation_compatibility_spec W).
  { intros H. split; [apply (pr_party0 _ _ (Hrel H))|]. split; [apply (pr_party1 _ _ (Hrel H))|].
    apply (Hrel H). }
  intros _ (Ho0 & Ho1 & Hop). unfold get_fee_takes. apply wp_bind.
  step (settlement_fee_spec W); [apply Ho0|]. intros t0 [L0 F0].
  step (settlement_fee_spec W); [apply Ho1|]. intros t1 [L1 F1]. apply wp_ret.
  step (obligation_constraints_spec W _ _ _ _ _ (rates0 (cmap w st)));
    [intros H; apply (pr_party0 _ _ (Hrel H))|].
  intros _ [A0 G0].
  step (obligation_constraints_spec W _ _ _ _ _ (rates1 (cmap w st)));
    [intros H; apply (pr_party1 _ _ (Hrel H))|].
  intros _ [A1 G1].
  step (verify_state_updates_spec W); [intros H; by destruct (pr_party0 _ _ (Hrel H))|].
  intros _ (U1 & U2 & U3).
  eapply wp_mono; [apply (verify_state_updates_spec W); [exact G1|]|].
  { intros H. by destruct (pr_party1 _ _ (Hrel H)). }
  intros [] (V1 & V2 & V3). split; [done|by split..].
Qed.
