(* ===== verification/CircuitScoping.v ===== *)
(** * Scoping of the circuits

    The constraints of every circuit compute each new variable from earlier ones, so the
    honest prover can fill in an assignment ([well_scoped]; see Scoping.v). *)
From S2P Require Import Prelude Scalar FixedPoint Circuit CircuitTypes Gadgets PoseidonGadget.
From S2P Require Import StateGadgets Scoping GadgetScoping ProverCircuit BalanceCircuits.
From S2P Require Import FeeCircuits ValidityCircuits SettlementCircuits.
Local Open Scope Z_scope.

(** The parts of the circuits *)
Create HintDb circuit_parts.
#[export] Hint Unfold valid_deposit_circuit validate_deposit create_new_balance
  valid_withdrawal_circuit validate_withdrawal verify_no_outstanding_fees
  build_and_verify_new_balance valid_balance_create_circuit validate_create_deposit
  validate_new_balance verify_balance_encryption valid_order_cancellation_circuit
  valid_note_redemption_circuit : circuit_parts.
#[export] Hint Unfold verify_decryption_key check_ciphertext verify_note_encryption
  compute_post_protocol_payment_balance compute_post_relayer_payment_balance
  verify_public_protocol_note verify_public_relayer_note rotate_after_public_payment
  valid_public_protocol_fee_payment_circuit valid_public_relayer_fee_payment_circuit
  verify_private_protocol_note valid_private_protocol_fee_payment_circuit
  verify_private_relayer_note valid_private_relayer_fee_payment_circuit : circuit_parts.
#[export] Hint Unfold reencrypt_amount_in_gadget reencrypt_post_match_gadget
  intent_only_validity_circuit build_and_validate_public_intent intent_only_first_fill_circuit
  ValidityCircuits.validate_intent ValidityCircuits.validate_balance
  intent_and_balance_validity_circuit verify_intent_fields build_intent_state_wrapper
  compute_and_verify_intent_commitments build_and_validate_intent validate_first_fill_balance
  verify_signature intent_and_balance_first_fill_circuit output_balance_validity_circuit
  validate_new_output_balance validate_balance_shares verify_existing_balance
  authorize_new_balance new_output_balance_validity_circuit : circuit_parts.
#[export] Hint Unfold verify_intent_constraints verify_in_balance_constraints
  verify_out_balance_constraints verify_intent_and_balance_obligation_constraints
  verify_output_balance_share_updates verify_state_updates verify_bounded_intent_constraints
  verify_bounded_in_balance_constraints verify_bounded_out_balance_constraints
  verify_intent_and_balance_bounded_match_result_constraints
  intent_only_public_settlement_circuit intent_only_bounded_settlement_circuit
  intent_and_balance_public_settlement_circuit intent_and_balance_bounded_settlement_circuit
  validate_obligation_compatibility get_fee_takes
  intent_and_balance_private_settlement_circuit : circuit_parts.

#[export] Hint Unfold apply_constraints ValidDeposit ValidWithdrawal ValidBalanceCreate
  ValidOrderCancellation ValidNoteRedemption ValidPublicProtocolFeePayment
  ValidPublicRelayerFeePayment ValidPrivateProtocolFeePayment ValidPrivateRelayerFeePayment
  IntentOnlyValidityCircuit IntentOnlyFirstFillValidityCircuit IntentAndBalanceValidityCircuit
  IntentAndBalanceFirstFillValidityCircuit OutputBalanceValidityCircuit
  NewOutputBalanceValidityCircuit IntentOnlyPublicSettlementCircuit
  IntentOnlyBoundedSettlementCircuit IntentAndBalancePublicSettlementCircuit
  IntentAndBalanceBoundedSettlementCircuit IntentAndBalancePrivateSettlementCircuit
  : circuit_parts.

Ltac circuit_scope := intros ? ? ? ? ? ? ? ? ? ? ?; autounfold with circuit_parts; scope.

Lemma valid_deposit_scoped n : well_scoped (ValidDeposit n).
Proof. circuit_scope. Qed.
Lemma valid_withdrawal_scoped n : well_scoped (ValidWithdrawal n).
Proof. circuit_scope. Qed.
Lemma valid_balance_create_scoped : well_scoped ValidBalanceCreate.
Proof. circuit_scope. Qed.
Lemma valid_order_cancellation_scoped n : well_scoped (ValidOrderCancellation n).
Proof. circuit_scope. Qed.
Lemma valid_note_redemption_scoped n : well_scoped (ValidNoteRedemption n).
Proof. circuit_scope. Qed.

Lemma public_protocol_fee_scoped n : well_scoped (ValidPublicProtocolFeePayment n).
Proof. circuit_scope. Qed.
Lemma public_relayer_fee_scoped n : well_scoped (ValidPublicRelayerFeePayment n).
Proof. circuit_scope. Qed.
Lemma private_protocol_fee_scoped n : well_scoped (ValidPrivateProtocolFeePayment n).
Proof. circuit_scope. Qed.
Lemma private_relayer_fee_scoped n : well_scoped (ValidPrivateRelayerFeePayment n).
Proof. circuit_scope. Qed.

Lemma intent_only_scoped n : well_scoped (IntentOnlyValidityCircuit n).
Proof. circuit_scope. Qed.
Lemma intent_only_first_fill_scoped : well_scoped IntentOnlyFirstFillValidityCircuit.
Proof. circuit_scope. Qed.
Lemma intent_and_balance_scoped n : well_scoped (IntentAndBalanceValidityCircuit n).
Proof. circuit_scope. Qed.
Lemma intent_and_balance_first_fill_scoped n :
  well_scoped (IntentAndBalanceFirstFillValidityCircuit n).
Proof. circuit_scope. Qed.
Lemma output_balance_scoped n : well_scoped (OutputBalanceValidityCircuit n).
Proof. circuit_scope. Qed.
Lemma new_output_balance_scoped n : well_scoped (NewOutputBalanceValidityCircuit n).
Proof. circuit_scope. Qed.

Lemma intent_only_public_settlement_scoped : well_scoped IntentOnlyPublicSettlementCircuit.
Proof. circuit_scope. Qed.
Lemma intent_only_bounded_settlement_scoped : well_scoped IntentOnlyBoundedSettlementCircuit.
Proof. circuit_scope. Qed.
Lemma public_settlement_scoped : well_scoped IntentAndBalancePublicSettlementCircuit.
Proof. circuit_scope. Qed.
Lemma bounded_settlement_scoped : well_scoped IntentAndBalanceBoundedSettlementCircuit.
Proof. circuit_scope. Qed.
Lemma private_settlement_scoped : well_scoped IntentAndBalancePrivateSettlementCircuit.
Proof. circuit_scope. Qed.
