(* ===== verification/Darkpool.v ===== *)
(** * The darkpool as the circuits define it

    What the accepted proofs of the circuits together say about the darkpool.  The
    settlement contract is not part of the repository; the circuits are written against
    it, and their statements fix what it does with an accepted proof: it spends the
    nullifier of the old element, inserts the commitment to the new one, completes the
    partial commitments with the public shares the settlement determines, and moves the
    tokens of a deposit, withdrawal or note.  [step] is that behaviour on a ledger whose
    elements are the openings of the live commitments.

    - the link groups are the [link_groups] attributes of the witness types, and a link
      proof (src/crates/circuits/circuits-core/src/zk_circuits/proof_linking/
      {intent_and_balance,output_balance}.rs) shows that two proofs agree on a group;
    - [step] has a rule for each kind of accepted proof;
    - [invariant_step], and [reachable_solvent] in DarkpoolCorrect.v: in every reachable ledger the amounts
      are in range, and the contract holds, of every token, exactly the sum of the
      balances, the fees owed and the open notes. *)
From S2P Require Import Prelude Scalar FixedPoint Poseidon2 StateWrapper Merkle Circuit.
From S2P Require Import CircuitTypes Gadgets PoseidonGadget StateGadgets ProverCircuit.
From S2P Require Import BalanceCircuits FeeCircuits ValidityCircuits SettlementCircuits.
From Stdlib Require Import Sorting.Permutation.
Local Open Scope Z_scope.

(** ** Proof linking *)

(** The group [intent_and_balance_settlement_party{0,1}] of the validity proofs. *)
Definition intent_and_balance_link {n A} (x : IntentAndBalanceValidityWitness n A) : list A :=
  flat (ibw_intent x) ++ flat (F:=Id) (ibw_new_amount_public_share x) ++ flat (ibw_balance x) ++
  flat (ibw_post_match_balance_shares x).
Definition first_fill_link {n A} (x : IntentAndBalanceFirstFillValidityWitness n A) : list A :=
  flat (ffw_intent x) ++ flat (F:=Id) (ffw_new_amount_public_share x) ++ flat (ffw_balance x) ++
  flat (ffw_post_match_balance_shares x).

(** The group [output_balance_settlement_party{0,1}] of the output balance proofs. *)
Definition output_balance_link {n A} (x : OutputBalanceValidityWitness n A) : list A :=
  flat (obw_balance x) ++ flat (obw_post_match_balance_shares x).
Definition new_output_balance_link {n A} (x : NewOutputBalanceValidityWitness n A) : list A :=
  flat (nbw_balance x) ++ flat (nbw_post_match_balance_shares x).

(** The same groups of a party of the settlement. *)
Definition party_input_link {A} (p : settled_party A) : list A :=
  flat (sp_intent p) ++ flat (F:=Id) (sp_amount_share p) ++ flat (sp_input_balance p) ++
  flat (sp_in_shares p).
Definition party_output_link {A} (p : settled_party A) : list A :=
  flat (sp_output_balance p) ++ flat (sp_out_shares p).

(** ** The ledger *)

Record ledger := mkLedger {
  lg_balances : list (StateBalanceVar Scalar);
  lg_intents : list (StateIntentVar Scalar);
  lg_notes : list (NoteVar Scalar);
  lg_held : Scalar → Z;
}.

Definition credit (token : Scalar) (amount : Z) (held : Scalar → Z) : Scalar → Z :=
  λ t, if decide (t = token) then held t + amount else held t.

Definition empty_ledger : ledger := mkLedger [] [] [] (λ _, 0).

(** The elements after settlement: the contract commits to the new public shares, the
    private shares stay. *)
Definition settle_intent (e : StateIntentVar Scalar) (o : SettlementObligationVar Scalar)
    : StateIntentVar Scalar :=
  with_element (swv_share_stream e)
    (with_amount_in (scalar_sub (iv_amount_in (swv_inner e)) (ov_amount_in o)) (swv_inner e))
    (with_amount_in (scalar_sub (iv_amount_in (swv_public_share e)) (ov_amount_in o))
       (swv_public_share e)) e.

Definition settle_balance_with
    (f : PostMatchBalanceVar Scalar → PostMatchBalanceVar Scalar) (e : StateBalanceVar Scalar)
    : StateBalanceVar Scalar :=
  with_element (swv_share_stream e)
    (update_balance_share_post_match (swv_inner e) (f (build_post_match_balance (swv_inner e))))
    (update_balance_share_post_match (swv_public_share e)
       (f (build_post_match_balance (swv_public_share e)))) e.

Definition settle_input (e : StateBalanceVar Scalar) (o : SettlementObligationVar Scalar)
    : StateBalanceVar Scalar :=
  settle_balance_with (λ s, settle_in_shares s o) e.
Definition settle_output (e : StateBalanceVar Scalar) (o : SettlementObligationVar Scalar)
    (rates : FeeRatesVar Scalar) : StateBalanceVar Scalar :=
  settle_balance_with (λ s, settle_out_shares s o rates) e.

(** The commitment the contract completes from a partial commitment and the public
    shares that were left out. *)
Definition complete_commitment (partial : PartialCommitmentVar Scalar) (shares : list Scalar)
    : Scalar :=
  H2 (pcv_private_commitment partial) (v_resumable (pcv_partial_public_commitment partial :: shares)).

Section Step.
Context {Cv : CurveSpec} {S : ProofSystem Cv}.

(** The intent and input balance of a party: the elements they spend, and the elements
    that settlement updates. *)
Inductive party_input (p : settled_party Scalar)
    : list (StateIntentVar Scalar) → StateBalanceVar Scalar →
      StateIntentVar Scalar → StateBalanceVar Scalar → Prop :=
| input_validity n s x :
    proved (IntentAndBalanceValidityCircuit n) s x →
    intent_and_balance_link x = party_input_link p →
    party_input p [ibw_old_intent x] (ibw_old_balance x)
      (v_reencrypt_amount_in (ibw_old_intent x)) (v_reencrypt_post_match (ibw_old_balance x))
| input_first_fill n s x :
    proved (IntentAndBalanceFirstFillValidityCircuit n) s x →
    first_fill_link x = party_input_link p →
    party_input p [] (ffw_old_balance x)
      (v_shared_intent (ffw_initial_intent_recovery_stream x) (ffw_initial_intent_share_stream x)
         (ffw_intent x) (ffw_private_intent_shares x))
      (v_reencrypt_post_match (ffw_old_balance x)).

(** The output balance of a party: an existing one, or one that is new. *)
Inductive party_output (p : settled_party Scalar)
    : list (StateBalanceVar Scalar) → StateBalanceVar Scalar → Prop :=
| output_existing n s x :
    proved (OutputBalanceValidityCircuit n) s x →
    output_balance_link x = party_output_link p →
    party_output p [obw_old_balance x] (v_reencrypt_post_match (obw_old_balance x))
| output_new n s x :
    proved (NewOutputBalanceValidityCircuit n) s x →
    new_output_balance_link x = party_output_link p →
    party_output p [] (nbw_new_balance x).

Inductive step (L : ledger) : ledger → Prop :=
| step_create s x :
    proved ValidBalanceCreate s x →
    step L (mkLedger
      (v_advance_recovery (v_fresh_element (cw_initial_recovery_stream x)
         (cw_initial_share_stream x) (cw_balance x)) :: lg_balances L)
      (lg_intents L) (lg_notes L)
      (credit (dv_token (cs_deposit s)) (dv_amount (cs_deposit s)) (lg_held L)))
| step_deposit n s x rest :
    proved (ValidDeposit n) s x → lg_balances L ≡ₚ dw_old_balance x :: rest →
    step L (mkLedger
      (v_advance_recovery (v_update_amount (dw_old_balance x)
         (scalar_add (bv_amount (swv_inner (dw_old_balance x))) (dv_amount (ds_deposit s))))
       :: rest)
      (lg_intents L) (lg_notes L)
      (credit (dv_token (ds_deposit s)) (dv_amount (ds_deposit s)) (lg_held L)))
| step_withdrawal n s x rest :
    proved (ValidWithdrawal n) s x → lg_balances L ≡ₚ ww_old_balance x :: rest →
    step L (mkLedger
      (v_advance_recovery (v_update_amount (ww_old_balance x)
         (scalar_sub (bv_amount (swv_inner (ww_old_balance x))) (wv_amount (ws_withdrawal s))))
       :: rest)
      (lg_intents L) (lg_notes L)
      (credit (wv_token (ws_withdrawal s)) (- wv_amount (ws_withdrawal s)) (lg_held L)))
| step_cancel n s x rest :
    proved (ValidOrderCancellation n) s x → lg_intents L ≡ₚ ocw_old_intent x :: rest →
    step L (mkLedger (lg_balances L) rest (lg_notes L) (lg_held L))
| step_public_protocol_fee n s x rest :
    proved (ValidPublicProtocolFeePayment n) s x → lg_balances L ≡ₚ pfw_old_balance x :: rest →
    step L (mkLedger
      (v_advance_recovery (v_update_field with_protocol_fee_balance (pfw_old_balance x) 0) :: rest)
      (lg_intents L) (lg_notes L)
      (credit (nv_mint (pfs_note s)) (- nv_amount (pfs_note s)) (lg_held L)))
| step_public_relayer_fee n s x rest :
    proved (ValidPublicRelayerFeePayment n) s x → lg_balances L ≡ₚ pfw_old_balance x :: rest →
    step L (mkLedger
      (v_advance_recovery (v_update_field with_relayer_fee_balance (pfw_old_balance x) 0) :: rest)
      (lg_intents L) (lg_notes L)
      (credit (nv_mint (pfs_note s)) (- nv_amount (pfs_note s)) (lg_held L)))
| step_private_protocol_fee n s x rest note :
    proved (ValidPrivateProtocolFeePayment n) s x → lg_balances L ≡ₚ ppw_old_balance x :: rest →
    note = mkNoteVar (bv_mint (swv_inner (ppw_old_balance x)))
      (bv_protocol_fee_balance (swv_inner (ppw_old_balance x))) (pps_protocol_fee_receiver s)
      (ppw_blinder x) →
    step L (mkLedger
      (v_advance_recovery (v_update_field with_protocol_fee_balance (ppw_old_balance x) 0) :: rest)
      (lg_intents L) (note :: lg_notes L) (lg_held L))
| step_private_relayer_fee n s x rest note :
    proved (ValidPrivateRelayerFeePayment n) s x → lg_balances L ≡ₚ prw_old_balance x :: rest →
    note = mkNoteVar (bv_mint (swv_inner (prw_old_balance x)))
      (bv_relayer_fee_balance (swv_inner (prw_old_balance x)))
      (bv_relayer_fee_recipient (swv_inner (prw_old_balance x))) (prw_blinder x) →
    step L (mkLedger
      (v_advance_recovery (v_update_field with_relayer_fee_balance (prw_old_balance x) 0) :: rest)
      (lg_intents L) (note :: lg_notes L) (lg_held L))
| step_redeem n s x rest :
    proved (ValidNoteRedemption n) s x → lg_notes L ≡ₚ nr_note s :: rest →
    step L (mkLedger (lg_balances L) (lg_intents L) rest
      (credit (nv_mint (nr_note s)) (- nv_amount (nr_note s)) (lg_held L)))
| step_settle s x i0 b0 ei0 eb0 l0 eo0 i1 b1 ei1 eb1 l1 eo1 rest_b rest_i :
    proved IntentAndBalancePrivateSettlementCircuit s x →
    rates_in_range (rates0 s) → rates_in_range (rates1 s) →
    party_input (party0 x) i0 b0 ei0 eb0 → party_output (party0 x) l0 eo0 →
    party_input (party1 x) i1 b1 ei1 eb1 → party_output (party1 x) l1 eo1 →
    lg_balances L ≡ₚ b0 :: b1 :: l0 ++ l1 ++ rest_b →
    lg_intents L ≡ₚ i0 ++ i1 ++ rest_i →
    step L (mkLedger
      (v_advance_recovery (settle_input eb0 (psw_settlement_obligation0 x)) ::
       v_advance_recovery (settle_input eb1 (psw_settlement_obligation1 x)) ::
       v_advance_recovery (settle_output eo0 (psw_settlement_obligation0 x) (rates0 s)) ::
       v_advance_recovery (settle_output eo1 (psw_settlement_obligation1 x) (rates1 s)) :: rest_b)
      (v_advance_recovery (settle_intent ei0 (psw_settlement_obligation0 x)) ::
       v_advance_recovery (settle_intent ei1 (psw_settlement_obligation1 x)) :: rest_i)
      (lg_notes L) (lg_held L)).

Definition reachable (L : ledger) : Prop := rtc step empty_ledger L.
End Step.

(** ** Accounting *)

(** What a balance is worth in a token: the amount and the fees it owes. *)
Definition balance_value (t : Scalar) (b : DarkpoolBalanceVar Scalar) : Z :=
  if decide (t = bv_mint b)
  then bv_amount b + bv_relayer_fee_balance b + bv_protocol_fee_balance b else 0.
Definition note_value (t : Scalar) (n : NoteVar Scalar) : Z :=
  if decide (t = nv_mint n) then nv_amount n else 0.
Definition sum_of {A} (f : A → Z) (l : list A) : Z := foldr (λ a s, f a + s) 0 l.

Definition solvent (L : ledger) : Prop :=
  ∀ t, lg_held L t = sum_of (λ e, balance_value t (swv_inner e)) (lg_balances L) +
    sum_of (note_value t) (lg_notes L).

Record in_range (L : ledger) : Prop := {
  balances_in_range : Forall (λ e, balance_in_range (swv_inner e)) (lg_balances L);
  intents_in_range : Forall (λ e, intent_in_range (swv_inner e)) (lg_intents L);
}.

(** ** Soundness of accepted proofs *)

Lemma implements_under_proved {Cv : CurveSpec} {S : ProofSystem Cv} (C : SingleProverCircuit) Pre R
    `{!CircuitTypeLaws (Witness C), !WitnessTypeLaws (Witness C), !CircuitTypeLaws (Statement C)}
    stmt wit : implements_under C Pre R → proved C stmt wit → Pre stmt wit → R stmt wit.
Proof. intros HC Hp HPre. by destruct (implements_under_sound C Pre R stmt wit HC Hp HPre) as (_ & _ & ?). Qed.

Lemma implements_proved {Cv : CurveSpec} {S : ProofSystem Cv} (C : SingleProverCircuit) R
    `{!CircuitTypeLaws (Witness C), !WitnessTypeLaws (Witness C), !CircuitTypeLaws (Statement C)}
    stmt wit : implements C R → proved C stmt wit → R stmt wit.
Proof.
  intros HC Hp. apply (implements_under_proved C (λ _ _, True) R); [|done..].
  intros Cs Laws Cg Cl h w W wv sv Hb _. by apply HC.
Qed.

Lemma link_inj {F} `{CircuitTypeLaws F} {A} (x y : F A) l l' :
  flat x ++ l = flat y ++ l' → x = y ∧ l = l'.
Proof.
  intros E. apply app_inj_1 in E as [E ?]; [|by rewrite !flat_length].
  split; [by apply flat_inj|done].
Qed.

(** ** Parties *)

(** The elements a settlement updates are the ones of its witness. *)
Record input_backed (p : settled_party Scalar) (ei : StateIntentVar Scalar)
    (eb : StateBalanceVar Scalar) : Prop := {
  ik_intent : swv_inner ei = sp_intent p;
  ik_amount_share : iv_amount_in (swv_public_share ei) = sp_amount_share p;
  ik_balance : swv_inner eb = sp_input_balance p;
  ik_shares : build_post_match_balance (swv_public_share eb) = sp_in_shares p;
  ik_token : bv_mint (swv_inner eb) = iv_in_token (swv_inner ei);
  ik_owner : bv_owner (swv_inner eb) = iv_owner (swv_inner ei);
}.
Record output_backed (p : settled_party Scalar) (eo : StateBalanceVar Scalar) : Prop := {
  ok_balance : swv_inner eo = sp_output_balance p;
  ok_shares : build_post_match_balance (swv_public_share eo) = sp_out_shares p;
}.

Section Parties.
Context {Cv : CurveSpec} {S : ProofSystem Cv}.

Lemma party_input_backed p i b ei eb :
  party_input p i b ei eb →
  Forall (λ e, intent_in_range (swv_inner e)) i → balance_in_range (swv_inner b) →
  input_backed p ei eb ∧ swv_inner eb = swv_inner b ∧
  intent_in_range (sp_intent p) ∧ balance_in_range (sp_input_balance p).
Proof.
  intros Hp Hi Hb. destruct Hp as [n s x Hx Hl|n s x Hx Hl].
  - apply (implements_proved _ _ _ _ (intent_and_balance_implements n)) in Hx as [].
    unfold intent_and_balance_link, party_input_link in Hl.
    apply link_inj in Hl as [E1 Hl]. apply (link_inj (F:=Id)) in Hl as [E2 Hl].
    apply link_inj in Hl as [E3 E4%flat_inj]. simpl in *.
    inversion Hi as [|? ? Hi' _]; subst. rewrite <-E1, ib_intent, <-E3, ib_balance.
    split_and!; [|done..]. split.
    + by rewrite reencrypt_amount_in_inner, <-E1.
    + rewrite <-E2. symmetry. apply ib_new_intent.
    + by rewrite <-E3.
    + rewrite <-E4. symmetry. apply ib_new_balance.
    + rewrite reencrypt_amount_in_inner, <-ib_intent. by rewrite ib_token, ib_balance.
    + rewrite reencrypt_amount_in_inner, <-ib_intent. by rewrite ib_owner, ib_balance.
  - apply (implements_proved _ _ _ _ (intent_and_balance_first_fill_implements n)) in Hx as [].
    unfold first_fill_link, party_input_link in Hl.
    apply link_inj in Hl as [E1 Hl]. apply (link_inj (F:=Id)) in Hl as [E2 Hl].
    apply link_inj in Hl as [E3 E4%flat_inj]. simpl in *.
    rewrite <-E1, <-E3, ff_balance.
    split_and!; [|done| |done]; [|by split]. split; [done|..].
    + rewrite <-E2. symmetry. apply ff_intent.
    + by rewrite <-E3.
    + rewrite <-E4. symmetry. apply ff_new_balance.
    + simpl. by rewrite <-ff_token, ff_balance.
    + simpl. by rewrite ff_owner, ff_balance.
Qed.

Lemma party_output_backed p l eo :
  party_output p l eo → Forall (λ e, balance_in_range (swv_inner e)) l →
  output_backed p eo ∧ balance_in_range (sp_output_balance p) ∧
  ∀ t, sum_of (λ e, balance_value t (swv_inner e)) l = balance_value t (swv_inner eo).
Proof.
  intros Hp Hl. destruct Hp as [n s x Hx E|n s x Hx E].
  - apply (implements_proved _ _ _ _ (output_balance_implements n)) in Hx as [].
    unfold output_balance_link, party_output_link in E.
    apply link_inj in E as [E1 E2%flat_inj]. inversion Hl as [|? ? Hb _]; subst.
    rewrite <-E1, ob_balance. split_and!; [|done|].
    + split; [by rewrite <-E1|]. rewrite <-E2. symmetry. apply ob_new.
    + intros t. simpl. lia.
  - apply (implements_proved _ _ _ _ (new_output_balance_implements n)) in Hx as [].
    unfold new_output_balance_link, party_output_link in E.
    apply link_inj in E as [E1 E2%flat_inj]. destruct nb_zero as (Z1 & Z2 & Z3).
    rewrite <-E1. split_and!.
    + split; [by rewrite <-E1|]. rewrite <-E2. symmetry. apply nb_shares.
    + split; rewrite ?Z1, ?Z2, ?Z3; done.
    + intros t. unfold balance_value. rewrite <-nb_balance, Z1, Z2, Z3. simpl.
      by destruct (decide _).
Qed.
End Parties.

(** ** Settlement of the elements *)

Lemma scalar_from_fits z : fits 100 z → scalar_from z = z.
Proof.
  intros Hz%fits_100. pose proof scalar_modulus_bounds. apply scalar_from_id. unfold is_scalar. lia.
Qed.

Lemma sum_of_perm {A} (f : A → Z) l l' : l ≡ₚ l' → sum_of f l = sum_of f l'.
Proof. induction 1; simpl; lia. Qed.

Lemma sum_of_app {A} (f : A → Z) l l' : sum_of f (l ++ l') = sum_of f l + sum_of f l'.
Proof. induction l as [|a l IH]; simpl; lia. Qed.

(** What a balance gains in a token. *)
Definition gain (t mint : Scalar) (a : Z) : Z := if decide (t = mint) then a else 0.

Lemma settle_input_value e o :
  balance_in_range (swv_inner e) → obligation_in_range o →
  ov_amount_in o ≤ bv_amount (swv_inner e) →
  balance_in_range (swv_inner (settle_input e o)) ∧
  ∀ t, balance_value t (swv_inner (settle_input e o)) =
    balance_value t (swv_inner e) - gain t (bv_mint (swv_inner e)) (ov_amount_in o).
Proof.
  intros [Hr Hp Ha] [Ho _] Hle.
  assert (fits 100 (bv_amount (swv_inner e) - ov_amount_in o)) as Hf.
  { apply fits_100 in Ha, Ho. apply fits_100_intro. lia. }
  assert (bv_amount (swv_inner (settle_input e o)) = bv_amount (swv_inner e) - ov_amount_in o)
    as E by exact (scalar_from_fits _ Hf).
  split; [split; [done..|by rewrite E]|]. intros t. unfold balance_value, gain. rewrite E.
  simpl. destruct (decide _); lia.
Qed.

Lemma settle_output_value e o rates :
  balance_in_range (swv_inner e) →
  fits 100 (bv_amount (swv_inner e) + net_receive o rates) →
  fits 100 (bv_relayer_fee_balance (swv_inner e) +
    floor_mul (frv_relayer_fee_rate rates) (ov_amount_out o)) →
  fits 100 (bv_protocol_fee_balance (swv_inner e) +
    floor_mul (frv_protocol_fee_rate rates) (ov_amount_out o)) →
  balance_in_range (swv_inner (settle_output e o rates)) ∧
  ∀ t, balance_value t (swv_inner (settle_output e o rates)) =
    balance_value t (swv_inner e) + gain t (bv_mint (swv_inner e)) (ov_amount_out o).
Proof.
  intros _ H1 H2 H3. set (b := swv_inner (settle_output e o rates)).
  assert (bv_amount b = bv_amount (swv_inner e) + net_receive o rates) as E1
    by exact (scalar_from_fits _ H1).
  assert (bv_relayer_fee_balance b = bv_relayer_fee_balance (swv_inner e) +
    floor_mul (frv_relayer_fee_rate rates) (ov_amount_out o)) as E2
    by exact (scalar_from_fits _ H2).
  assert (bv_protocol_fee_balance b = bv_protocol_fee_balance (swv_inner e) +
    floor_mul (frv_protocol_fee_rate rates) (ov_amount_out o)) as E3
    by exact (scalar_from_fits _ H3).
  split; [split; by rewrite ?E1, ?E2, ?E3|]. intros t. unfold balance_value, gain.
  rewrite E1, E2, E3. unfold net_receive. simpl. destruct (decide _); lia.
Qed.

Lemma settle_intent_range e o :
  intent_in_range (swv_inner e) → obligation_in_range o →
  ov_amount_in o ≤ iv_amount_in (swv_inner e) →
  intent_in_range (swv_inner (settle_intent e o)) ∧
  iv_amount_in (swv_inner (settle_intent e o)) = iv_amount_in (swv_inner e) - ov_amount_in o.
Proof.
  intros [Hp Ha] [Ho _] Hle.
  assert (fits 100 (iv_amount_in (swv_inner e) - ov_amount_in o)) as Hf.
  { apply fits_100 in Ha, Ho. apply fits_100_intro. lia. }
  assert (iv_amount_in (swv_inner (settle_intent e o)) = iv_amount_in (swv_inner e) - ov_amount_in o)
    as E by exact (scalar_from_fits _ Hf).
  split; [split; [done|by rewrite E]|done].
Qed.

(** Both sides of a settled party. *)
Record party_outcome (p : settled_party Scalar) (rates : FeeRatesVar Scalar)
    (ei : StateIntentVar Scalar) (eb eo : StateBalanceVar Scalar) : Prop := {
  po_intent : intent_in_range (swv_inner (settle_intent ei (sp_obligation p)));
  po_input : balance_in_range (swv_inner (settle_input eb (sp_obligation p)));
  po_output : balance_in_range (swv_inner (settle_output eo (sp_obligation p) rates));
  po_remaining : iv_amount_in (swv_inner (settle_intent ei (sp_obligation p))) =
    iv_amount_in (swv_inner ei) - ov_amount_in (sp_obligation p);
  po_value t :
    balance_value t (swv_inner (settle_input eb (sp_obligation p))) +
    balance_value t (swv_inner (settle_output eo (sp_obligation p) rates)) =
    balance_value t (swv_inner eb) + balance_value t (swv_inner eo)
    - gain t (ov_input_token (sp_obligation p)) (ov_amount_in (sp_obligation p))
    + gain t (ov_output_token (sp_obligation p)) (ov_amount_out (sp_obligation p));
}.

Lemma party_settles_outcome p rates a qi qo ei eb eo :
  party_settles p rates a qi qo → party_in_range p → input_backed p ei eb → output_backed p eo →
  party_outcome p rates ei eb eo.
Proof.
  intros [Ho [[T1 T2 Ta _] Hc Hm _ H1 H2 H3] _ _ _] (Ri & Rb & Ro) [K1 _ K3 _ K5 _] [J1 _].
  rewrite <-K1 in *. rewrite <-K3 in *. rewrite <-J1 in *.
  destruct (settle_intent_range ei _ Ri Ho Ta) as [I1 I2].
  destruct (settle_input_value eb _ Rb Ho Hc) as [B1 B2].
  destruct (settle_output_value eo _ _ Ro H1 H2 H3) as [O1 O2].
  split; [done..|]. intros t. rewrite B2, O2, K5, Hm, T1. lia.
Qed.

(** ** Invariants *)

Definition invariant (L : ledger) : Prop := in_range L ∧ solvent L.

Lemma in_range_perm L old rest :
  in_range L → lg_balances L ≡ₚ old ++ rest →
  Forall (λ e, balance_in_range (swv_inner e)) old ∧
  Forall (λ e, balance_in_range (swv_inner e)) rest.
Proof. intros [Hb _] E. rewrite E in Hb. by apply Forall_app. Qed.

(** Replacing one balance, paying [notes'] more into notes and moving the rest. *)
Lemma invariant_replace L old rest new held' notes' :
  invariant L → lg_balances L ≡ₚ old :: rest →
  (balance_in_range (swv_inner old) → balance_in_range (swv_inner new) ∧ ∀ t,
    held' t - lg_held L t = balance_value t (swv_inner new) - balance_value t (swv_inner old) +
      sum_of (note_value t) notes') →
  invariant (mkLedger (v_advance_recovery new :: rest) (lg_intents L) (notes' ++ lg_notes L) held').
Proof.
  intros [Hr Hs] E H. destruct (in_range_perm L [old] rest Hr E) as [Hold Hrest].
  inversion Hold as [|? ? Ho _]; subst. destruct (H Ho) as [Hn Ht]. split.
  - split; [by constructor|apply Hr].
  - intros t. specialize (Hs t). specialize (Ht t).
    rewrite (sum_of_perm _ _ _ E) in Hs. simpl in *.
    rewrite sum_of_app. lia.
Qed.

Section Invariants.
Context {Cv : CurveSpec} {S : ProofSystem Cv}.

Lemma deposit_value old a :
  balance_in_range (swv_inner old) → fits 100 a →
  fits 100 (scalar_add (bv_amount (swv_inner old)) a) →
  let new := v_update_amount old (scalar_add (bv_amount (swv_inner old)) a) in
  balance_in_range (swv_inner new) ∧
  ∀ t, balance_value t (swv_inner new) =
    balance_value t (swv_inner old) + gain t (bv_mint (swv_inner old)) a.
Proof.
  intros [Hr Hp Ha] Hf Hn new. split; [by split|].
  apply fits_100 in Ha, Hf. pose proof scalar_modulus_bounds.
  assert (scalar_add (bv_amount (swv_inner old)) a = bv_amount (swv_inner old) + a) as E
    by (unfold scalar_add; apply Z.mod_small; lia).
  intros t. unfold balance_value, gain, new. simpl. rewrite E. destruct (decide _); lia.
Qed.

Lemma withdrawal_value old a :
  balance_in_range (swv_inner old) → fits 100 a →
  fits 100 (scalar_sub (bv_amount (swv_inner old)) a) →
  let new := v_update_amount old (scalar_sub (bv_amount (swv_inner old)) a) in
  balance_in_range (swv_inner new) ∧
  ∀ t, balance_value t (swv_inner new) =
    balance_value t (swv_inner old) - gain t (bv_mint (swv_inner old)) a.
Proof.
  intros [Hr Hp Ha] Hf Hn new. split; [by split|].
  apply fits_sub in Hn as Hle; [|lia|done..]. apply fits_100 in Ha, Hf.
  pose proof scalar_modulus_bounds.
  assert (scalar_sub (bv_amount (swv_inner old)) a = bv_amount (swv_inner old) - a) as E
    by (unfold scalar_sub; apply Z.mod_small; lia).
  intros t. unfold balance_value, gain, new. simpl. rewrite E. destruct (decide _); lia.
Qed.

(** Paying a fee moves its value out of the balance. *)
Lemma protocol_fee_value old :
  balance_in_range (swv_inner old) →
  let new := v_update_field with_protocol_fee_balance old 0 in
  balance_in_range (swv_inner new) ∧
  ∀ t, balance_value t (swv_inner new) = balance_value t (swv_inner old) -
    gain t (bv_mint (swv_inner old)) (bv_protocol_fee_balance (swv_inner old)).
Proof.
  intros [Hr Hp Ha] new. split; [by split|]. intros t. unfold balance_value, gain. simpl.
  destruct (decide _); lia.
Qed.
Lemma relayer_fee_value old :
  balance_in_range (swv_inner old) →
  let new := v_update_field with_relayer_fee_balance old 0 in
  balance_in_range (swv_inner new) ∧
  ∀ t, balance_value t (swv_inner new) = balance_value t (swv_inner old) -
    gain t (bv_mint (swv_inner old)) (bv_relayer_fee_balance (swv_inner old)).
Proof.
  intros [Hr Hp Ha] new. split; [by split|]. intros t. unfold balance_value, gain. simpl.
  destruct (decide _); lia.
Qed.

Lemma credit_gain t token a held : credit token a held t - held t = gain t token a.
Proof. unfold credit, gain. destruct (decide _); lia. Qed.
Lemma gain_opp t token a : gain t token (- a) = - gain t token a.
Proof. unfold gain. destruct (decide _); lia. Qed.

Lemma invariant_create L s x :
  valid_balance_create_rel s x → invariant L →
  invariant (mkLedger
    (v_advance_recovery (v_fresh_element (cw_initial_recovery_stream x)
       (cw_initial_share_stream x) (cw_balance x)) :: lg_balances L)
    (lg_intents L) (lg_notes L)
    (credit (dv_token (cs_deposit s)) (dv_amount (cs_deposit s)) (lg_held L))).
Proof.
  intros [Ha Ht _ Hb [F1 F2] _] [[Rb Ri] Hs]. split.
  - split; [|done]. constructor; [|done]. split; simpl; rewrite ?F1, ?F2, ?Hb; done.
  - intros t. specialize (Hs t). simpl. pose proof (credit_gain t (dv_token (cs_deposit s))
      (dv_amount (cs_deposit s)) (lg_held L)) as C. rewrite Ht in *.
    assert (balance_value t (cw_balance x) = gain t (bv_mint (cw_balance x)) (dv_amount (cs_deposit s)))
      as -> by (unfold balance_value, gain; rewrite F1, F2, Hb; destruct (decide _); lia). lia.
Qed.

(** A private settlement in a ledger with the invariant: the ranges that the settlement
    circuit presupposes hold, so its relation does. *)
Lemma settlement_outcome L s x i0 b0 ei0 eb0 l0 eo0 i1 b1 ei1 eb1 l1 eo1 rest_b rest_i :
  in_range L →
  proved IntentAndBalancePrivateSettlementCircuit s x →
  rates_in_range (rates0 s) → rates_in_range (rates1 s) →
  party_input (party0 x) i0 b0 ei0 eb0 → party_output (party0 x) l0 eo0 →
  party_input (party1 x) i1 b1 ei1 eb1 → party_output (party1 x) l1 eo1 →
  lg_balances L ≡ₚ b0 :: b1 :: l0 ++ l1 ++ rest_b →
  lg_intents L ≡ₚ i0 ++ i1 ++ rest_i →
  private_settlement_rel s x ∧
  (input_backed (party0 x) ei0 eb0 ∧ output_backed (party0 x) eo0) ∧
  (input_backed (party1 x) ei1 eb1 ∧ output_backed (party1 x) eo1) ∧
  (party_outcome (party0 x) (rates0 s) ei0 eb0 eo0 ∧
   party_outcome (party1 x) (rates1 s) ei1 eb1 eo1) ∧
  Forall (λ e, balance_in_range (swv_inner e)) rest_b ∧
  Forall (λ e, intent_in_range (swv_inner e)) rest_i ∧
  ∀ t, sum_of (λ e, balance_value t (swv_inner e)) (lg_balances L) =
    balance_value t (swv_inner eb0) + balance_value t (swv_inner eb1) +
    balance_value t (swv_inner eo0) + balance_value t (swv_inner eo1) +
    sum_of (λ e, balance_value t (swv_inner e)) rest_b.
Proof.
  intros [Rb Ri] Hx Hr0 Hr1 I0 O0 I1 O1 Eb Ei. rewrite Eb in Rb. rewrite Ei in Ri.
  rewrite !Forall_cons, !Forall_app in Rb. rewrite !Forall_app in Ri.
  destruct Rb as (R0 & R1 & R2 & R3 & R4), Ri as (Q0 & Q1 & Q2).
  destruct (party_input_backed _ _ _ _ _ I0 Q0 R0) as (K0 & M0 & P0 & P0').
  destruct (party_input_backed _ _ _ _ _ I1 Q1 R1) as (K1 & M1 & P1 & P1').
  destruct (party_output_backed _ _ _ O0 R2) as (J0 & P0'' & S0).
  destruct (party_output_backed _ _ _ O1 R3) as (J1 & P1'' & S1).
  assert (private_settlement_rel s x) as Hrel.
  { apply (implements_under_proved _ _ _ _ _ private_settlement_implements Hx). by split_and!. }
  split_and!; try done.
  - eapply party_settles_outcome; [apply (pr_party0 _ _ Hrel)|by split_and!|done..].
  - eapply party_settles_outcome; [apply (pr_party1 _ _ Hrel)|by split_and!|done..].
  - intros t. rewrite (sum_of_perm _ _ _ Eb). simpl. rewrite !sum_of_app, S0, S1, M0, M1. lia.
Qed.

Lemma invariant_step L L' : invariant L → step L L' → invariant L'.
Proof.
  intros HL Hst. pose proof HL as [HR HS]. destruct Hst.
  - apply (implements_proved _ _ _ _ valid_balance_create_implements) in H.
    by apply invariant_create.
  - apply (implements_proved _ _ _ _ (valid_deposit_implements n)) in H as [].
    apply (invariant_replace L _ _ _ _ [] HL H0). intros Ho.
    destruct (deposit_value _ _ Ho vd_amount vd_new_amount) as [? V]. split; [done|].
    intros t. rewrite V, credit_gain, vd_token. simpl. lia.
  - apply (implements_proved _ _ _ _ (valid_withdrawal_implements n)) in H as [].
    apply (invariant_replace L _ _ _ _ [] HL H0). intros Ho.
    destruct (withdrawal_value _ _ Ho vw_amount vw_new_amount) as [? V]. split; [done|].
    intros t. rewrite V, credit_gain, gain_opp, vw_token. simpl. lia.
  - destruct HR as [Rb Ri]. rewrite H0 in Ri. inversion Ri; subst. by split.
  - apply (implements_proved _ _ _ _ (public_protocol_fee_implements n)) in H as [].
    apply (invariant_replace L _ _ _ _ [] HL H0). intros Ho.
    destruct (protocol_fee_value _ Ho) as [? V]. split; [done|].
    intros t. rewrite V, credit_gain, gain_opp, pp_mint, pp_amount. simpl. lia.
  - apply (implements_proved _ _ _ _ (public_relayer_fee_implements n)) in H as [].
    apply (invariant_replace L _ _ _ _ [] HL H0). intros Ho.
    destruct (relayer_fee_value _ Ho) as [? V]. split; [done|].
    intros t. rewrite V, credit_gain, gain_opp, pr_mint, pr_amount. simpl. lia.
  - apply (invariant_replace L _ _ _ _ [note] HL H0). intros Ho.
    destruct (protocol_fee_value _ Ho) as [? V]. split; [done|].
    intros t. rewrite V. subst note. unfold gain, note_value. simpl. lia.
  - apply (invariant_replace L _ _ _ _ [note] HL H0). intros Ho.
    destruct (relayer_fee_value _ Ho) as [? V]. split; [done|].
    intros t. rewrite V. subst note. unfold gain, note_value. simpl. lia.
  - split; [by destruct HR; split|]. intros t. specialize (HS t).
    rewrite (sum_of_perm _ _ _ H0) in HS. simpl in HS |- *.
    pose proof (credit_gain t (nv_mint (nr_note s)) (- nv_amount (nr_note s)) (lg_held L)) as C.
    rewrite gain_opp in C. unfold gain in C. unfold note_value in HS at 1. lia.
  - destruct (settlement_outcome L s x i0 b0 ei0 eb0 l0 eo0 i1 b1 ei1 eb1 l1 eo1 rest_b rest_i)
      as ([(T1 & T2 & T3 & T4) _ _] & _ & _ & [P0 P1] & Fb & Fi & Hsum); [done..|].
    destruct P0 as [A0 B0 C0 _ V0], P1 as [A1 B1 C1 _ V1]. split.
    + split; cbn [lg_balances lg_intents]; rewrite !Forall_cons; by split_and!.
    + intros t. specialize (HS t). specialize (V0 t). specialize (V1 t). simpl in *.
      rewrite (Hsum t) in HS. rewrite T1, T2, T3, T4 in V0. lia.
Qed.
End Invariants.

(** ** Commitments of the settled elements *)

(** The commitment that an element is stored under, its recovery stream advanced. *)
Definition element_commitment {F} `{CircuitType F} (e : StateWrapperVar F Scalar) : Scalar :=
  v_commitment (v_complement e) (v_advance_recovery e).

Lemma sub_shares_shift x y a : scalar_sub (scalar_sub x a) (scalar_sub y a) = scalar_sub x y.
Proof. field_mod. Qed.
Lemma add_shares_shift x y a : scalar_sub (scalar_add x a) (scalar_add y a) = scalar_sub x y.
Proof. field_mod. Qed.

(** The cipher is additive: the private shares stay. *)
Lemma complement_settle_intent e o : v_complement (settle_intent e o) = v_complement e.
Proof.
  destruct e as [r s i p]. unfold v_complement, settle_intent. apply flat_inj.
  rewrite !cmap2_flat. simpl. by rewrite sub_shares_shift.
Qed.
Lemma complement_settle_input e o : v_complement (settle_input e o) = v_complement e.
Proof.
  destruct e as [r s i p]. unfold v_complement, settle_input, settle_balance_with. apply flat_inj.
  rewrite !cmap2_flat. simpl. by rewrite sub_shares_shift.
Qed.
Lemma complement_settle_output e o rates :
  v_complement (settle_output e o rates) = v_complement e.
Proof.
  destruct e as [r s i p]. unfold v_complement, settle_output, settle_balance_with. apply flat_inj.
  rewrite !cmap2_flat. simpl. by rewrite !add_shares_shift.
Qed.

(** A partial commitment to an element, completed with the shares of an element that
    agrees with it on the shares committed to. *)
Lemma complete_commitment_spec {F} `{CircuitTypeLaws F} k (e e' : StateWrapperVar F Scalar) partial
    rid shares :
  creates_partial k e (v_complement e) partial rid →
  v_complement e' = v_complement e → swv_recovery_stream e' = swv_recovery_stream e →
  swv_share_stream e' = swv_share_stream e →
  take k (flat (swv_public_share e)) ≠ [] →
  flat (swv_public_share e') = take k (flat (swv_public_share e)) ++ shares →
  complete_commitment partial shares = element_commitment e'.
Proof.
  intros [_ ->] Hc Hr Hs Hk Hf. unfold complete_commitment, element_commitment, v_commitment.
  cbn [pcv_private_commitment pcv_partial_public_commitment v_partial_commitment].
  rewrite v_resumable_app, Hc by done. unfold v_private_commitment, v_advance_recovery.
  cbn [swv_recovery_stream swv_share_stream swv_public_share]. by rewrite Hr, Hs, Hf.
Qed.
