(* ===== verification/DarkpoolExit.v ===== *)
(** * Leaving the darkpool

    Completeness of the circuits at the level of the ledger: the owner of a balance can
    prove the payment of the fees that it owes and a withdrawal of everything that is left,
    in every reachable ledger.  The proofs exist because the circuits are complete
    ([implements_under_complete]) and because every element of a reachable ledger is a
    canonical, provable witness. *)
From S2P Require Import Prelude Scalar FixedPoint Poseidon2 StateWrapper Merkle Circuit.
From S2P Require Import CircuitTypes Gadgets PoseidonGadget StateGadgets Scoping ProverCircuit.
From S2P Require Import BalanceCircuits FeeCircuits ValidityCircuits SettlementCircuits.
From S2P Require Import CircuitScoping Darkpool.
Local Open Scope Z_scope.

(** ** Canonical elements *)

#[local] Hint Resolve poseidon_hash_is_scalar : relayer.

Ltac open_canonical H :=
  unfold canonical in H; cbn [flat wrapper_type csprng_type balance_type public_key_type point_type
    app] in H; rewrite ?Forall_cons in H; decompose [and] H; clear H.
Ltac canon :=
  unfold canonical; cbn [flat wrapper_type csprng_type balance_type public_key_type point_type app];
  rewrite ?Forall_cons; split_and!;
  first [assumption | apply scalar_add_is_scalar | apply scalar_sub_is_scalar
        | apply poseidon_hash_is_scalar | by constructor].

Section Canonical.
Context (e : StateBalanceVar Scalar) (He : canonical e).

Lemma canonical_update_amount a :
  is_scalar a → canonical (v_advance_recovery (v_update_field with_amount e a)).
Proof using He. intros Ha. open_canonical He. canon. Qed.
Lemma canonical_update_protocol_fee a :
  is_scalar a → canonical (v_advance_recovery (v_update_field with_protocol_fee_balance e a)).
Proof using He. intros Ha. open_canonical He. canon. Qed.
Lemma canonical_update_relayer_fee a :
  is_scalar a → canonical (v_advance_recovery (v_update_field with_relayer_fee_balance e a)).
Proof using He. intros Ha. open_canonical He. canon. Qed.
Lemma canonical_settle_input o : canonical (v_advance_recovery (settle_input e o)).
Proof using He. open_canonical He. canon. Qed.
Lemma canonical_settle_output o rates :
  canonical (v_advance_recovery (settle_output e o rates)).
Proof using He. open_canonical He. canon. Qed.
Lemma canonical_reencrypt : canonical (v_reencrypt_post_match e).
Proof using He. open_canonical He. canon. Qed.
End Canonical.

Lemma canonical_fresh recovery share (b : DarkpoolBalanceVar Scalar) :
  canonical recovery → canonical share → canonical b →
  canonical (v_advance_recovery (v_fresh_element recovery share b)).
Proof.
  intros Hr Hs Hb. open_canonical Hr. open_canonical Hs. open_canonical Hb. canon.
Qed.

Definition canonical_balances (L : ledger) : Prop := Forall canonical (lg_balances L).

Lemma canonical_perm L (old rest : list (StateBalanceVar Scalar)) :
  canonical_balances L → lg_balances L ≡ₚ old ++ rest →
  Forall canonical old ∧ Forall canonical rest.
Proof. unfold canonical_balances. intros Hb E. rewrite E in Hb. by apply Forall_app. Qed.

Section Ledger.
Context {Cv : CurveSpec} {S : ProofSystem Cv}.

Lemma proved_canonical (C : SingleProverCircuit)
    `{!CircuitTypeLaws (Witness C), !WitnessTypeLaws (Witness C), !CircuitTypeLaws (Statement C)}
    stmt wit : proved C stmt wit → canonical wit.
Proof.
  intros (w & hint & n' & W & _ & _ & E). unfold canonical, assigned_witness in *. rewrite E.
  apply Forall_fmap, Forall_true. intros v. apply W.
Qed.

Lemma canonical_party_output p l eo :
  party_output p l eo → Forall canonical l → canonical eo.
Proof.
  intros [n s x Hx E|n s x Hx E] Hl.
  - apply canonical_reencrypt. by inversion Hl.
  - apply proved_canonical in Hx; [|apply _..]. unfold canonical in *.
    assert (∃ l, flat x = flat (nbw_new_balance x) ++ l) as [l' El] by (eexists; reflexivity).
    assert (Forall is_scalar (flat (nbw_new_balance x) ++ l')) as Hx' by (rewrite <-El; exact Hx).
    by apply Forall_app in Hx' as [? _].
Qed.

Lemma canonical_party_input p i b ei eb :
  party_input p i b ei eb → canonical b → canonical eb.
Proof. intros [n s x Hx E|n s x Hx E] Hb; by apply canonical_reencrypt. Qed.

Lemma canonical_step L L' : canonical_balances L → step L L' → canonical_balances L'.
Proof.
  intros HL Hs. unfold canonical_balances. destruct Hs; cbn [lg_balances]; try done;
    try match goal with E : lg_balances L ≡ₚ ?e :: ?rest |- _ =>
      apply (canonical_perm L [e] rest) in E as [He Hrest]; [|done];
      apply Forall_cons in He as [He _] end.
  all: lazymatch goal with
    | |- Forall _ (v_advance_recovery (v_update_field with_amount _ _) :: _) =>
        apply Forall_cons; split; [|done]; apply canonical_update_amount; [done|auto with relayer]
    | |- Forall _ (v_advance_recovery (v_update_field with_protocol_fee_balance _ _) :: _) =>
        apply Forall_cons; split; [|done]; apply canonical_update_protocol_fee;
          [done|apply is_scalar_0]
    | |- Forall _ (v_advance_recovery (v_update_field with_relayer_fee_balance _ _) :: _) =>
        apply Forall_cons; split; [|done]; apply canonical_update_relayer_fee;
          [done|apply is_scalar_0]
    | |- _ => idtac
    end.
  - apply Forall_cons; split; [|done]. apply proved_canonical in H; [|apply _..].
    unfold canonical in H.
    assert (Forall is_scalar (flat (cw_initial_share_stream x) ++
      flat (cw_initial_recovery_stream x) ++ flat (cw_balance x))) as Hx by exact H.
    rewrite !Forall_app in Hx. apply canonical_fresh; apply Hx.
  - rewrite Forall_cons, !Forall_app in Hrest. destruct Hrest as (Hb1 & Hl0 & Hl1 & Hrest).
    rewrite !Forall_cons. split_and!; [..|done].
    + apply canonical_settle_input. by eapply canonical_party_input.
    + apply canonical_settle_input. by eapply canonical_party_input.
    + apply canonical_settle_output. by eapply canonical_party_output.
    + apply canonical_settle_output. by eapply canonical_party_output.
Qed.

(** ** Provable payments and withdrawals *)

(** A path in a tree of height [n] *)
Record is_path {n} (o : MerkleOpeningVar n Scalar) : Prop := {
  path_canonical : canonical o;
  path_bits : Forall is_bit (bools o);
}.

Lemma opening_root_is_scalar leaf path : is_scalar leaf → is_scalar (opening_root leaf path).
Proof.
  unfold opening_root. revert leaf. induction path as [|[s b] path IH]; intros leaf Hl; [done|].
  simpl. apply IH. destruct b; apply poseidon_hash_is_scalar.
Qed.

Context {n : nat} (o : MerkleOpeningVar n Scalar) (Ho : is_path o).

(** What is left of a balance after everything is withdrawn *)
Definition withdraw_statement (e : StateBalanceVar Scalar) : ValidWithdrawalStatement Scalar :=
  let b := swv_inner e in
  let new := v_update_field with_amount e 0 in
  mkWithdrawalStatement (mkWithdrawalVar (bv_owner b) (bv_mint b) (bv_amount b))
    (opening_root (v_commitment (v_complement e) e) (opening_path o)) (v_nullifier e)
    (v_commitment (v_complement new) (v_advance_recovery new)) (v_recovery_id new)
    (bv_amount (swv_public_share new)).

(** Scalars that a payment or a withdrawal publishes *)
Lemma commitment_is_scalar {F} `{CircuitType F} (p : F Scalar) e : is_scalar (v_commitment p e).
Proof. apply poseidon_hash_is_scalar. Qed.
Lemma published_scalars (e : StateBalanceVar Scalar) set :
  let new := v_update_field set e 0 in
  Forall is_scalar
    [opening_root (v_commitment (v_complement e) e) (opening_path o); v_nullifier e;
     v_commitment (v_complement new) (v_advance_recovery new); v_recovery_id new].
Proof.
  intros new. rewrite !Forall_cons. split_and!; try apply poseidon_hash_is_scalar; [|by constructor].
  apply opening_root_is_scalar, commitment_is_scalar.
Qed.

Lemma balance_with_path_valid (e : StateBalanceVar Scalar) :
  canonical e → Forall is_scalar (flat e ++ flat o).
Proof using Ho. intros He. apply Forall_app. split; [done|apply Ho]. Qed.

Lemma withdrawal_proved (e : StateBalanceVar Scalar) :
  canonical e → balance_in_range (swv_inner e) → csv_index (swv_recovery_stream e) ≠ 0 →
  bv_relayer_fee_balance (swv_inner e) = 0 → bv_protocol_fee_balance (swv_inner e) = 0 →
  bv_amount (swv_inner e) ≠ 0 →
  proved (ValidWithdrawal n) (withdraw_statement e) (mkWithdrawalWitness e o).
Proof using Ho.
  intros He Hr Hi F1 F2 Ha. pose proof (range_amount _ Hr) as Hamt.
  assert (scalar_sub (bv_amount (swv_inner e)) (bv_amount (swv_inner e)) = 0) as E0.
  { unfold scalar_sub. by rewrite Z.sub_diag. }
  apply (implements_complete (ValidWithdrawal n) valid_withdrawal_rel);
    [apply valid_withdrawal_implements|apply valid_withdrawal_scoped|..].
  - pose proof (published_scalars e with_amount) as P.
    open_canonical He. change (Forall is_scalar ([bv_owner (swv_inner e); bv_mint (swv_inner e);
      bv_amount (swv_inner e)] ++ [opening_root (v_commitment (v_complement e) e) (opening_path o);
      v_nullifier e; v_commitment (v_complement (v_update_field with_amount e 0))
        (v_advance_recovery (v_update_field with_amount e 0));
      v_recovery_id (v_update_field with_amount e 0)] ++
      [scalar_sub 0 (v_next_pad e)])).
    rewrite !Forall_app. split_and!; [|done|].
    + rewrite !Forall_cons. by split_and!.
    + apply Forall_singleton. apply scalar_sub_is_scalar.
  - split; [by apply balance_with_path_valid|apply Ho].
  - unfold withdraw_statement. split; simpl; try done.
    + by rewrite E0.
    + by rewrite E0.
Qed.

(** A public payment of one of the two fees to [receiver] *)
Definition fee_statement (set : Scalar → DarkpoolBalanceVar Scalar → DarkpoolBalanceVar Scalar)
    (fee : DarkpoolBalanceVar Scalar → Scalar) (receiver : Scalar) (e : StateBalanceVar Scalar)
    : PublicFeePaymentStatement Scalar :=
  let new := v_update_field set e 0 in
  mkPublicFeeStatement
    (opening_root (v_commitment (v_complement e) e) (opening_path o)) (v_nullifier e)
    (v_commitment (v_complement new) (v_advance_recovery new)) (v_recovery_id new)
    (fee (swv_public_share new)) (mkNoteVar (bv_mint (swv_inner e)) (fee (swv_inner e)) receiver 0).

Lemma fee_statement_canonical set fee receiver (e : StateBalanceVar Scalar) :
  is_scalar (bv_mint (swv_inner e)) → is_scalar (fee (swv_inner e)) → is_scalar receiver →
  is_scalar (fee (swv_public_share (v_update_field set e 0))) →
  canonical (fee_statement set fee receiver e).
Proof.
  intros Hm Hf Hr Hs. pose proof (published_scalars e set) as P.
  change (Forall is_scalar ([opening_root (v_commitment (v_complement e) e) (opening_path o);
      v_nullifier e; v_commitment (v_complement (v_update_field set e 0))
        (v_advance_recovery (v_update_field set e 0)); v_recovery_id (v_update_field set e 0)] ++
      [fee (swv_public_share (v_update_field set e 0)); bv_mint (swv_inner e); fee (swv_inner e);
       receiver; 0])).
  apply Forall_app. split; [done|]. rewrite !Forall_cons. split_and!; done.
Qed.

Lemma protocol_fee_proved (e : StateBalanceVar Scalar) :
  canonical e → csv_index (swv_recovery_stream e) ≠ 0 →
  bv_protocol_fee_balance (swv_inner e) ≠ 0 →
  proved (ValidPublicProtocolFeePayment n)
    (fee_statement with_protocol_fee_balance bv_protocol_fee_balance 0 e) (mkPublicFeeWitness e o).
Proof using Ho.
  intros He Hi Hf.
  apply (implements_complete (ValidPublicProtocolFeePayment n) public_protocol_fee_rel);
    [apply public_protocol_fee_implements|apply public_protocol_fee_scoped|..].
  - open_canonical He. apply fee_statement_canonical; try done. apply scalar_sub_is_scalar.
  - split; [by apply balance_with_path_valid|apply Ho].
  - split; done.
Qed.

Lemma relayer_fee_proved (e : StateBalanceVar Scalar) :
  canonical e → csv_index (swv_recovery_stream e) ≠ 0 →
  bv_relayer_fee_balance (swv_inner e) ≠ 0 →
  proved (ValidPublicRelayerFeePayment n)
    (fee_statement with_relayer_fee_balance bv_relayer_fee_balance
       (bv_relayer_fee_recipient (swv_inner e)) e) (mkPublicFeeWitness e o).
Proof using Ho.
  intros He Hi Hf.
  apply (implements_complete (ValidPublicRelayerFeePayment n) public_relayer_fee_rel);
    [apply public_relayer_fee_implements|apply public_relayer_fee_scoped|..].
  - open_canonical He. apply fee_statement_canonical; try done. apply scalar_sub_is_scalar.
  - split; [by apply balance_with_path_valid|apply Ho].
  - split; done.
Qed.

(** ** Creating a balance *)

Definition create_statement (recovery share : PoseidonCSPRNGVar Scalar)
    (b : DarkpoolBalanceVar Scalar) : ValidBalanceCreateStatement Scalar :=
  let new := v_fresh_element recovery share b in
  mkBalanceCreateStatement (mkDepositVar (bv_owner b) (bv_mint b) (bv_amount b))
    (v_commitment (v_complement new) (v_advance_recovery new)) (v_recovery_id new)
    (swv_public_share new).

Lemma create_proved recovery share b :
  canonical recovery → canonical share → canonical b → fits 100 (bv_amount b) →
  bv_relayer_fee_balance b = 0 → bv_protocol_fee_balance b = 0 →
  proved ValidBalanceCreate (create_statement recovery share b)
    (mkBalanceCreateWitness share recovery b).
Proof.
  intros Hr Hs Hb Ha F1 F2.
  apply (implements_complete ValidBalanceCreate valid_balance_create_rel);
    [apply valid_balance_create_implements|apply valid_balance_create_scoped|..].
  - pose proof (canonical_fresh recovery share b Hr Hs Hb) as Hf.
    unfold canonical in Hf. cbn [flat wrapper_type] in Hf. rewrite !Forall_app in Hf.
    open_canonical Hb. change (Forall is_scalar ([bv_owner b; bv_mint b; bv_amount b] ++
      [v_commitment (v_complement (v_fresh_element recovery share b))
         (v_advance_recovery (v_fresh_element recovery share b));
       v_recovery_id (v_fresh_element recovery share b)] ++
      flat (swv_public_share (v_fresh_element recovery share b)))).
    rewrite !Forall_app. split_and!; [..|apply Hf]; rewrite !Forall_cons; split_and!; try done;
      apply poseidon_hash_is_scalar.
  - split; [|done]. change (Forall is_scalar (flat share ++ flat recovery ++ flat b)).
    by rewrite !Forall_app.
  - by split.
Qed.

(** ** Emptying a balance *)

(** From [L] with the balance [e], a ledger with [e'] in its place can be reached, in which
    the contract has paid out what the balance has lost. *)
Record pays_out (L : ledger) (e : StateBalanceVar Scalar) (rest : list (StateBalanceVar Scalar))
    (L' : ledger) (e' : StateBalanceVar Scalar) : Prop := {
  po_steps : rtc step L L';
  po_balances : lg_balances L' ≡ₚ e' :: rest;
  po_intents : lg_intents L' = lg_intents L;
  po_notes : lg_notes L' = lg_notes L;
  po_held : ∀ t, lg_held L' t - balance_value t (swv_inner e') =
    lg_held L t - balance_value t (swv_inner e);
}.

Lemma pays_out_refl L e rest : lg_balances L ≡ₚ e :: rest → pays_out L e rest L e.
Proof. intros E. split; try done. Qed.
Lemma pays_out_trans L e rest L1 e1 L2 e2 :
  pays_out L e rest L1 e1 → pays_out L1 e1 rest L2 e2 → pays_out L e rest L2 e2.
Proof.
  intros [] []. split; [by etrans|done|congruence..|]. intros t. rewrite po_held1. apply po_held0.
Qed.

(** The state of a balance on its way out *)
Record leaving (k : Z) (e : StateBalanceVar Scalar) : Prop := {
  lv_canonical : canonical e;
  lv_range : balance_in_range (swv_inner e);
  lv_index : 0 < csv_index (swv_recovery_stream e) < scalar_modulus - k;
}.

Lemma leaving_update k set e :
  0 ≤ k → leaving (k + 1) e →
  canonical (v_advance_recovery (v_update_field set e 0)) → balance_in_range (set 0 (swv_inner e)) →
  leaving k (v_advance_recovery (v_update_field set e 0)).
Proof.
  intros Hk [Hc Hr Hi] Hc' Hr'. split; [done..|].
  change (0 < scalar_add (csv_index (swv_recovery_stream e)) 1 < scalar_modulus - k).
  unfold scalar_add. rewrite (Z.mod_small (csv_index (swv_recovery_stream e) + 1)) by lia. lia.
Qed.

Lemma pay_protocol_fee_out k L e rest :
  0 ≤ k → leaving (k + 1) e → lg_balances L ≡ₚ e :: rest →
  ∃ L' e', pays_out L e rest L' e' ∧ leaving k e' ∧
    swv_inner e' = with_protocol_fee_balance 0 (swv_inner e).
Proof using Ho.
  intros Hk He E. destruct (decide (bv_protocol_fee_balance (swv_inner e) = 0)) as [Hz|Hz].
  - exists L, e. split; [by apply pays_out_refl|]. destruct He as [Hc Hr Hi]. split.
    + split; [done..|lia].
    + unfold with_protocol_fee_balance. rewrite <-Hz. by destruct e as [? ? [] ?].
  - eexists _, _. split; [|split; [apply leaving_update; [done|exact He|..]|reflexivity]].
    + split; [apply rtc_once; eapply (step_public_protocol_fee L n _ (mkPublicFeeWitness e o) rest);
        [apply protocol_fee_proved; [apply He| |done]|exact E]|done..|].
      * destruct He as [_ _ Hi]. lia.
      * intros t. simpl. unfold credit, balance_value. simpl. repeat case_decide; lia.
    + apply canonical_update_protocol_fee; [apply He|apply is_scalar_0].
    + destruct He as [_ [] _]. by split.
Qed.

Lemma pay_relayer_fee_out k L e rest :
  0 ≤ k → leaving (k + 1) e → lg_balances L ≡ₚ e :: rest →
  ∃ L' e', pays_out L e rest L' e' ∧ leaving k e' ∧
    swv_inner e' = with_relayer_fee_balance 0 (swv_inner e).
Proof using Ho.
  intros Hk He E. destruct (decide (bv_relayer_fee_balance (swv_inner e) = 0)) as [Hz|Hz].
  - exists L, e. split; [by apply pays_out_refl|]. destruct He as [Hc Hr Hi]. split.
    + split; [done..|lia].
    + unfold with_relayer_fee_balance. rewrite <-Hz. by destruct e as [? ? [] ?].
  - eexists _, _. split; [|split; [apply leaving_update; [done|exact He|..]|reflexivity]].
    + split; [apply rtc_once; eapply (step_public_relayer_fee L n _ (mkPublicFeeWitness e o) rest);
        [apply relayer_fee_proved; [apply He| |done]|exact E]|done..|].
      * destruct He as [_ _ Hi]. lia.
      * intros t. simpl. unfold credit, balance_value. simpl. repeat case_decide; lia.
    + apply canonical_update_relayer_fee; [apply He|apply is_scalar_0].
    + destruct He as [_ [] _]. by split.
Qed.

Lemma withdraw_out L e rest :
  leaving 0 e → lg_balances L ≡ₚ e :: rest →
  bv_relayer_fee_balance (swv_inner e) = 0 → bv_protocol_fee_balance (swv_inner e) = 0 →
  ∃ L' e', pays_out L e rest L' e' ∧ swv_inner e' = with_amount 0 (swv_inner e).
Proof using Ho.
  intros He E F1 F2. destruct (decide (bv_amount (swv_inner e) = 0)) as [Hz|Hz].
  - exists L, e. split; [by apply pays_out_refl|].
    unfold with_amount. rewrite <-Hz. by destruct e as [? ? [] ?].
  - assert (scalar_sub (bv_amount (swv_inner e)) (bv_amount (swv_inner e)) = 0) as E0.
    { unfold scalar_sub. by rewrite Z.sub_diag. }
    destruct He as [Hc Hr Hi].
    eexists _, (v_advance_recovery (v_update_field with_amount e 0)). split; [|reflexivity].
    split; [apply rtc_once; eapply (step_withdrawal L n (withdraw_statement e)
      (mkWithdrawalWitness e o) rest); [apply withdrawal_proved; try done; lia|exact E]|..];
      try done.
    + simpl. by rewrite E0.
    + intros t. simpl. unfold credit, balance_value. simpl. repeat case_decide; lia.
Qed.

Lemma leaving_exits L e rest :
  leaving 2 e → lg_balances L ≡ₚ e :: rest →
  ∃ L' e', pays_out L e rest L' e' ∧ ∀ t, balance_value t (swv_inner e') = 0.
Proof using Ho.
  intros He E.
  destruct (pay_protocol_fee_out 1 L e rest ltac:(lia) He E) as (L1 & e1 & P1 & H1 & I1).
  destruct (pay_relayer_fee_out 0 L1 e1 rest ltac:(lia) H1 (po_balances _ _ _ _ _ P1))
    as (L2 & e2 & P2 & H2 & I2).
  destruct (withdraw_out L2 e2 rest H2 (po_balances _ _ _ _ _ P2)) as (L3 & e3 & P3 & I3).
  - by rewrite I2.
  - by rewrite I2, I1.
  - exists L3, e3. split; [by eapply pays_out_trans, pays_out_trans|].
    intros t. unfold balance_value. rewrite I3, I2, I1. simpl. by case_decide.
Qed.
End Ledger.
