(* ===== verification/NativeAgreement.v ===== *)
(** * The native state elements and the circuits

    What a client computes with the native state wrapper (StateWrapper.v) is what the
    circuits check (the [v_] functions of StateGadgets.v, BalanceCircuits.v,
    ValidityCircuits.v and Darkpool.v): commitments, nullifiers, recovery identifiers and
    every update of an element.  A native value and its circuit variables are related by
    the scalars it serializes to ([Native]). *)
From S2P Require Import Prelude Scalar FixedPoint BaseType DarkpoolTypes Poseidon2 StateWrapper.
From S2P Require Import Merkle Circuit CircuitTypes Gadgets PoseidonGadget StateGadgets.
From S2P Require Import ProverCircuit BalanceCircuits FeeCircuits ValidityCircuits.
From S2P Require Import SettlementCircuits Darkpool.
Local Open Scope Z_scope.

(** ** Values of native data *)

Class Native (T Sh : Type) (F : Type → Type) `{SecretShare T Sh, CircuitType F} := {
  values : T → F Scalar;
  share_values : Sh → F Scalar;
  values_flat x : flat (values x) = to_scalars base x;
  share_values_flat s : flat (share_values s) = to_scalars share_base s;
}.

#[global] Instance native_intent : Native Intent IntentShare IntentVar :=
  {| values := intent_values; share_values := intent_share_values;
     values_flat := intent_values_flat; share_values_flat := intent_share_values_flat |}.
#[global] Instance native_balance : Native DarkpoolBalance DarkpoolBalanceShare DarkpoolBalanceVar :=
  {| values := balance_values; share_values := balance_share_values;
     values_flat := balance_values_flat; share_values_flat := balance_share_values_flat |}.

Definition wrapper_values {T Sh F} `{Native T Sh F} (w : StateWrapper T Sh)
    : StateWrapperVar F Scalar :=
  mkWrapperVar (csprng_values (recovery_stream w)) (csprng_values (share_stream w))
    (values (inner w)) (share_values (public_share w)).

Definition bounded_match_values (r : BoundedMatchResult) : BoundedMatchResultVar Scalar :=
  mkBoundedMatchVar (address_to_scalar (internal_party_input_token r))
    (address_to_scalar (internal_party_output_token r))
    (scalar_from (min_internal_party_amount_in r)) (scalar_from (max_internal_party_amount_in r))
    (fixed_point_values (bounded_price r)) (scalar_from (block_deadline r)).
Definition obligation_values (o : SettlementObligation) : SettlementObligationVar Scalar :=
  mkObligationVar (address_to_scalar (input_token o)) (address_to_scalar (output_token o))
    (scalar_from (obligation_amount_in o)) (scalar_from (obligation_amount_out o)).

(** Streams with room for [n] more values *)
Definition has_room (n : Z) (c : PoseidonCSPRNG) : Prop := 0 ≤ index c ∧ index c + n < 2 ^ 64.

Lemma hash_eq l : compute_poseidon_hash l = poseidon_hash l.
Proof. by rewrite poseidon_hash_eq. Qed.

Lemma foldl_hash2 a l : foldl hash2 a l = foldl H2 a l.
Proof. revert a. induction l as [|x l IH]; intros a; [done|]. simpl. by rewrite IH, H2_eq. Qed.

Lemma small_index i : 0 ≤ i < 2 ^ 64 → scalar_from i = i.
Proof. intros Hi. apply scalar_from_small. unfold is_scalar. lia. Qed.

Lemma get_ith_values c i : get_ith c i = v_get_ith (csprng_values c) (scalar_from i).
Proof. unfold get_ith, v_get_ith. by rewrite hash_eq. Qed.

Lemma pads_values c n : pads c n = v_pads (csprng_values c) n.
Proof.
  unfold pads, v_pads. apply list_fmap_ext. intros k x _. rewrite get_ith_values. f_equal.
  cbn [csprng_values csv_index]. field_mod.
Qed.

Lemma advance_values c n :
  v_advance (csprng_values c) n = csprng_values (mkCSPRNG (seed c) (index c + Z.of_nat n)).
Proof. unfold v_advance, csprng_values. cbn [csv_seed csv_index seed index]. f_equal. field_mod. Qed.

Section Agreement.
Context {T Sh : Type} {F : Type → Type}.
Context `{Hs : SecretShare T Sh, Hc : CircuitType F, !CircuitTypeLaws F}.
Context {Hn : Native T Sh F} {valid : T → Prop} `{!SecretShareLaws T Sh valid}.
Implicit Types w : StateWrapper T Sh.

Lemma values_num (x : T) : NUM_SCALARS (base (T:=T)) = NUM (F:=F).
Proof using All.
  by rewrite <-(lawful_len _ _ base_lawful x), <-values_flat, flat_length.
Qed.

Lemma complement_flat w : flat (v_complement (wrapper_values w)) = private_scalars w.
Proof using All.
  unfold v_complement, private_scalars. rewrite cmap2_flat.
  cbn [wrapper_values swv_inner swv_public_share]. by rewrite values_flat, share_values_flat.
Qed.

Lemma private_commitment_values w :
  compute_private_commitment w =
  Some (v_private_commitment (v_complement (wrapper_values w)) (wrapper_values w)).
Proof using All.
  unfold compute_private_commitment, private_shares, parse, v_private_commitment.
  destruct (share_full (private_scalars w) []) as (p & Hp & Ep).
  { rewrite <-complement_flat, flat_length, share_num. symmetry. apply values_num. exact (inner w). }
  { apply Forall_zip_sub. }
  rewrite app_nil_r in Hp. rewrite Hp. cbn [fmap option_fmap option_map fst mbind option_bind].
  by rewrite Ep, hash_eq, complement_flat.
Qed.

Lemma public_commitment_values w private :
  NUM (F:=F) ≠ 0%nat →
  compute_commitment_from_private w private =
  Some (H2 private (v_resumable (flat (swv_public_share (wrapper_values w))))).
Proof using All.
  intros HN. unfold compute_commitment_from_private. cbn [wrapper_values swv_public_share].
  pose proof (flat_length (share_values (public_share w))) as Hl. rewrite share_values_flat in *.
  destruct (to_scalars share_base (public_share w)) as [|x l]; [simpl in Hl; lia|].
  cbn [v_resumable]. by rewrite hash_eq, foldl_hash2.
Qed.

(** The commitment of an element *)
Lemma commitment_values w :
  NUM (F:=F) ≠ 0%nat →
  compute_commitment w = Some (v_commitment (v_complement (wrapper_values w)) (wrapper_values w)).
Proof using All.
  intros HN. unfold compute_commitment. rewrite private_commitment_values.
  cbn [mbind option_bind]. by rewrite public_commitment_values.
Qed.

Lemma partial_commitment_values w k :
  (1 ≤ k ≤ NUM (F:=F))%nat →
  (λ c, mkPartialCommitmentVar (private_commitment c) (partial_public_commitment c)) <$>
    compute_partial_commitment w k =
  Some (v_partial_commitment k (v_complement (wrapper_values w)) (wrapper_values w)).
Proof using All.
  intros Hk. unfold compute_partial_commitment, compute_partial_public_commitment.
  rewrite private_commitment_values. cbn [mbind option_bind].
  pose proof (flat_length (share_values (public_share w))) as Hl. rewrite share_values_flat in *.
  rewrite Hl. destruct (Nat.ltb_spec k 1); [lia|]. destruct (Nat.ltb_spec (NUM (F:=F)) k); [lia|].
  cbn [orb]. unfold v_partial_commitment. cbn [wrapper_values swv_public_share].
  rewrite share_values_flat.
  destruct (to_scalars share_base (public_share w)) as [|x l]; [simpl in Hl; lia|].
  destruct k as [|k]; [lia|]. cbn [take v_resumable mbind option_bind fmap option_fmap option_map].
  by rewrite foldl_hash2, Nat.sub_succ, Nat.sub_0_r.
Qed.

(** Nullifiers and recovery identifiers *)
Lemma nullifier_values w :
  1 ≤ index (recovery_stream w) < 2 ^ 64 → compute_nullifier w = v_nullifier (wrapper_values w).
Proof.
  intros Hi. unfold compute_nullifier, v_nullifier. rewrite u64_sub_small by lia.
  rewrite hash_eq, get_ith_values. unfold H2. do 3 f_equal.
  cbn [wrapper_values swv_recovery_stream csprng_values csv_index]. field_mod.
Qed.
Lemma recovery_id_values w : peek_recovery_id w = v_recovery_id (wrapper_values w).
Proof. unfold peek_recovery_id, v_recovery_id. by rewrite get_ith_values. Qed.

Lemma advance_recovery_values w :
  has_room 1 (recovery_stream w) →
  wrapper_values (advance_recovery_stream w) = v_advance_recovery (wrapper_values w).
Proof.
  intros [Hi Hr]. unfold v_advance_recovery. cbn [wrapper_values swv_recovery_stream
    swv_share_stream swv_inner swv_public_share]. rewrite advance_values.
  unfold wrapper_values, advance_recovery_stream, set_recovery_stream. simpl.
  by rewrite u64_add_small by lia.
Qed.

Lemma compute_recovery_id_values w :
  has_room 1 (recovery_stream w) →
  (compute_recovery_id w).1 = v_recovery_id (wrapper_values w) ∧
  wrapper_values (compute_recovery_id w).2 = v_advance_recovery (wrapper_values w).
Proof.
  intros Hr. unfold compute_recovery_id. destruct (recovery_stream w) as [s i] eqn:E.
  rewrite csprng_next_eq. cbn [fst snd]. split.
  - rewrite <-recovery_id_values. unfold peek_recovery_id. by rewrite E.
  - apply advance_recovery_values. by rewrite E.
Qed.
End Agreement.

(** ** New elements *)

Lemma share_values_public {T Sh F} `{Hn : Native T Sh F, !CircuitTypeLaws F} c (v : T) (s : Sh) n :
  n = NUM (F:=F) →
  to_scalars share_base s = zip_with scalar_sub (to_scalars base v) (pads c n) →
  share_values s = v_public_share (values v) (csprng_values c).
Proof.
  intros -> E. apply flat_inj. unfold v_public_share, v_private_share.
  rewrite cmap2_flat, refill_flat by apply v_pads_length.
  by rewrite share_values_flat, E, values_flat, pads_values.
Qed.

Lemma state_wrapper_new_values {T Sh F} `{Hn : Native T Sh F, !CircuitTypeLaws F}
    {valid : T → Prop} `{Hl : !SecretShareLaws T Sh valid} (v : T) share_seed recovery_seed :
  valid v → Z.of_nat (NUM (F:=F)) < 2 ^ 64 →
  ∃ w, state_wrapper_new v share_seed recovery_seed = Some w ∧ inner w = v ∧
    recovery_stream w = csprng_new recovery_seed ∧
    wrapper_values w =
      v_fresh_element (mkCSPRNGVar recovery_seed 0) (mkCSPRNGVar share_seed 0) (values v).
Proof.
  intros Hv HN. pose proof (values_num v) as En.
  destruct (encrypt_share (csprng_new share_seed) v Hv) as (s & Henc & _ & Hs);
    [done|cbn [csprng_new index]; rewrite En; lia|].
  unfold state_wrapper_new. rewrite Henc. cbn [mbind option_bind].
  eexists. split; [reflexivity|]. split_and!; [done..|].
  unfold wrapper_values, v_fresh_element. cbn [recovery_stream share_stream inner public_share].
  rewrite (share_values_public (csprng_new share_seed) v s _ En Hs).
  change (mkCSPRNGVar share_seed 0) with (csprng_values (csprng_new share_seed)).
  rewrite advance_values, <-En. reflexivity.
Qed.

(** ** Updates of intents and balances *)

Lemma next_pad_values {T Sh F} `{Hn : Native T Sh F} (w : StateWrapper T Sh) :
  get_ith (share_stream w) (index (share_stream w)) = v_next_pad (wrapper_values w).
Proof. unfold v_next_pad. by rewrite get_ith_values. Qed.

Ltac update_values w :=
  unfold v_update_field, with_element, wrapper_values; cbn -[scalar_sub scalar_from get_ith];
  rewrite (next_pad_values w); change 1%nat with (Z.to_nat 1);
  rewrite advance_values; reflexivity.

(** A deposit or a withdrawal: the client sets the amount and encrypts it again. *)
Lemma update_amount_values (w : StateBalance) (a : Amount) :
  is_u128 a → has_room 1 (share_stream w) →
  ∃ s w', reencrypt_amount_share (set_inner (DarkpoolTypes.with_amount (inner w) a) w) = Some (s, w') ∧
    inner w' = DarkpoolTypes.with_amount (inner w) a ∧ recovery_stream w' = recovery_stream w ∧
    wrapper_values w' = v_update_field with_amount (wrapper_values w) (scalar_from a) ∧
    s = bv_amount (swv_public_share (wrapper_values w')).
Proof.
  intros Ha [Hi Hr]. unfold reencrypt_amount_share. rewrite amount_encrypt by done.
  cbn [mbind option_bind]. do 2 eexists. split; [reflexivity|]. split_and!; [done..| |done].
  update_values w.
Qed.

(** The payment of a fee: the native operation, then the encryption of the empty fee. *)
Lemma pay_relayer_fee_values (w : StateBalance) blinder :
  has_room 1 (share_stream w) →
  ∃ s w', reencrypt_relayer_fee (pay_relayer_fee w blinder).2 = Some (s, w') ∧
    recovery_stream w' = recovery_stream w ∧
    wrapper_values w' = v_update_field with_relayer_fee_balance (wrapper_values w) 0 ∧
    s = bv_relayer_fee_balance (swv_public_share (wrapper_values w')).
Proof.
  intros [Hi Hr]. unfold reencrypt_relayer_fee. rewrite amount_encrypt by done.
  cbn [mbind option_bind]. do 2 eexists. split; [reflexivity|]. split_and!; [done..| |done].
  update_values w.
Qed.
Lemma pay_protocol_fee_values (w : StateBalance) receiver blinder :
  has_room 1 (share_stream w) →
  ∃ s w', reencrypt_protocol_fee (pay_protocol_fee w receiver blinder).2 = Some (s, w') ∧
    recovery_stream w' = recovery_stream w ∧
    wrapper_values w' = v_update_field with_protocol_fee_balance (wrapper_values w) 0 ∧
    s = bv_protocol_fee_balance (swv_public_share (wrapper_values w')).
Proof.
  intros [Hi Hr]. unfold reencrypt_protocol_fee. rewrite amount_encrypt by done.
  cbn [mbind option_bind]. do 2 eexists. split; [reflexivity|]. split_and!; [done..| |done].
  update_values w.
Qed.

(** Re-encryption before a match *)
Lemma reencrypt_amount_in_values (w : StateIntent) :
  is_u128 (amount_in (inner w)) → has_room 1 (share_stream w) →
  ∃ s w', reencrypt_amount_in w = Some (s, w') ∧ inner w' = inner w ∧
    recovery_stream w' = recovery_stream w ∧
    wrapper_values w' = v_reencrypt_amount_in (wrapper_values w) ∧
    s = iv_amount_in (swv_public_share (wrapper_values w')).
Proof.
  intros Ha [Hi Hr]. unfold reencrypt_amount_in. rewrite amount_encrypt by done.
  cbn [mbind option_bind]. do 2 eexists. split; [reflexivity|]. split_and!; [done..| |done].
  unfold v_reencrypt_amount_in. update_values w.
Qed.

Definition post_match_share_values (p : PostMatchBalanceShare) : PostMatchBalanceVar Scalar :=
  mkPostMatchBalanceVar (post_relayer_fee_balance_share p) (post_protocol_fee_balance_share p)
    (post_amount_share p).

Lemma post_match_public_values (b : DarkpoolBalance) c :
  v_public_share (build_post_match_balance (balance_values b)) (csprng_values c) =
  mkPostMatchBalanceVar
    (scalar_sub (scalar_from (relayer_fee_balance b)) (get_ith c (index c)))
    (scalar_sub (scalar_from (protocol_fee_balance b)) (get_ith c (index c + 1)))
    (scalar_sub (scalar_from (amount b)) (get_ith c (index c + 2))).
Proof.
  apply flat_inj. unfold v_public_share, v_private_share.
  rewrite cmap2_flat, refill_flat, <-pads_values by apply v_pads_length.
  destruct c as [s i]. cbn [NUM post_match_balance_type index]. rewrite !pads_S.
  cbn -[scalar_sub scalar_from get_ith]. by replace (i + 1 + 1) with (i + 2) by lia.
Qed.

Lemma reencrypt_post_match_values (w : StateBalance) :
  is_balance (inner w) → has_room 3 (share_stream w) →
  ∃ p w', reencrypt_post_match_share w = Some (p, w') ∧ inner w' = inner w ∧
    recovery_stream w' = recovery_stream w ∧
    wrapper_values w' = v_reencrypt_post_match (wrapper_values w) ∧
    post_match_share_values p = build_post_match_balance (swv_public_share (wrapper_values w')).
Proof.
  intros Hb [Hi Hr]. unfold reencrypt_post_match_share. rewrite post_match_encrypt by done.
  cbn [mbind option_bind]. do 2 eexists. split; [reflexivity|]. split_and!; [done..| |done].
  unfold v_reencrypt_post_match, with_element, wrapper_values.
  cbn -[scalar_sub scalar_from get_ith v_public_share].
  rewrite post_match_public_values, advance_values. reflexivity.
Qed.

(** Settlement *)
Lemma settle_intent_values (w : StateIntent) (o : SettlementObligation) :
  is_u128 (amount_in (inner w)) → 0 ≤ obligation_amount_in o ≤ amount_in (inner w) →
  wrapper_values (apply_settlement_obligation w o) =
  settle_intent (wrapper_values w) (obligation_values o).
Proof.
  intros Hu%is_u128_lt Ho. unfold apply_settlement_obligation, sub_amount_in, settle_intent,
    with_element, wrapper_values. cbn -[scalar_sub scalar_from u128_sub].
  rewrite u128_sub_small by lia. do 2 f_equal. unfold intent_values, with_amount_in.
  cbn -[scalar_sub scalar_from]. f_equal. field_mod.
Qed.

Lemma settle_input_values (w : StateBalance) (o : SettlementObligation) :
  is_u128 (amount (inner w)) → 0 ≤ obligation_amount_in o ≤ amount (inner w) →
  wrapper_values (apply_obligation_in_balance w o) =
  settle_input (wrapper_values w) (obligation_values o).
Proof.
  intros Hu%is_u128_lt Ho. unfold apply_obligation_in_balance, update_amounts, settle_input,
    settle_balance_with, with_element, wrapper_values. cbn -[scalar_sub scalar_from u128_sub].
  rewrite u128_sub_small by lia. do 2 f_equal. unfold balance_values, set_amounts,
    update_balance_share_post_match. cbn -[scalar_sub scalar_from]. f_equal. field_mod.
Qed.

Definition fee_rates_values (r : FeeRates) : FeeRatesVar Scalar :=
  mkFeeRatesVar (fixed_point_values (relayer_fee_rate r)) (fixed_point_values (protocol_fee_rate r)).

(** The output balance, with the fees the client computes *)
Lemma settle_output_values (w : StateBalance) (o : SettlementObligation) (rates : FeeRates) :
  valid_rates rates → is_u128 (obligation_amount_out o) →
  0 ≤ amount (inner w) → 0 ≤ relayer_fee_balance (inner w) → 0 ≤ protocol_fee_balance (inner w) →
  amount (inner w) + obligation_amount_out o < 2 ^ 128 →
  relayer_fee_balance (inner w) + obligation_amount_out o < 2 ^ 128 →
  protocol_fee_balance (inner w) + obligation_amount_out o < 2 ^ 128 →
  wrapper_values (apply_obligation_out_balance w o
    (DarkpoolTypes.compute_fee_take rates (obligation_amount_out o))) =
  settle_output (wrapper_values w) (obligation_values o) (fee_rates_values rates).
Proof.
  intros Hv Ho Ha Hrb Hpb Ha' Hr' Hp'. set (fees := DarkpoolTypes.compute_fee_take _ _).
  destruct (compute_fee_take_exact rates _ Hv Ho) as [E1 E2]. fold fees in E1, E2.
  destruct (fee_total_exact rates _ Hv Ho) as [Et Hb]. fold fees in Et, Hb.
  destruct (fee_take_bounds rates _ Hv Ho) as (B1 & B2 & B3). fold fees in B1, B2, B3.
  destruct (apply_out_private w o fees) as [_ Hi]; [done|lia..|].
  apply is_u128_lt in Ho. clearbody fees.
  assert (∀ st, settle_out_shares st (obligation_values o) (fee_rates_values rates) =
    mkPostMatchBalanceVar (scalar_add (qbv_relayer_fee_balance st) (relayer_fee fees))
      (scalar_add (qbv_protocol_fee_balance st) (protocol_fee fees))
      (scalar_add (qbv_amount st) (obligation_amount_out o - fee_total fees))) as Es.
  { intros st. unfold settle_out_shares, net_receive, floor_mul.
    cbn [ov_amount_out obligation_values frv_relayer_fee_rate frv_protocol_fee_rate
      fee_rates_values fixed_point_values fpv_repr].
    rewrite scalar_from_small by lia. by rewrite <-E1, <-E2, Et, Z.sub_add_distr. }
  unfold settle_output, settle_balance_with, with_element, wrapper_values. rewrite Hi.
  cbn -[scalar_sub scalar_add scalar_from u128_sub u128_add fee_total settle_out_shares].
  rewrite !Es, u128_sub_small by lia.
  generalize (obligation_amount_out o - fee_total fees). intros net. f_equal.
  - unfold balance_values, update_balance_share_post_match. cbn -[scalar_add scalar_from fee_total].
    f_equal; field_mod.
  - unfold balance_share_values, update_balance_share_post_match, set_amount_shares.
    cbn -[scalar_add scalar_from fee_total]. f_equal; field_mod.
Qed.
