(* ===== verification/DarkpoolCorrect.v ===== *)
(** * Properties of the circuits and of the darkpool

    The theorems about accepted proofs: each circuit accepts exactly the witnesses of its
    relation, the ledger they maintain is solvent, every balance can leave it, a settlement
    is exact and its commitments are to the settled elements. *)
From S2P Require Import Prelude Scalar FixedPoint Poseidon2 DarkpoolTypes StateWrapper Merkle.
From S2P Require Import Circuit CircuitTypes Gadgets PoseidonGadget StateGadgets Scoping.
From S2P Require Import ProverCircuit BalanceCircuits FeeCircuits ValidityCircuits.
From S2P Require Import SettlementCircuits CircuitScoping Darkpool DarkpoolExit NativeAgreement.
Local Open Scope Z_scope.

(** ** Definitions *)

(** A settled intent: what is left of it, the price it got, and whose balances paid and
    received. *)
Record honoured (ei : StateIntentVar Scalar) (eb eo : StateBalanceVar Scalar)
    (o : SettlementObligationVar Scalar) : Prop := {
  hn_remaining :
    iv_amount_in (swv_inner (settle_intent ei o)) = iv_amount_in (swv_inner ei) - ov_amount_in o;
  hn_nonneg : 0 ≤ iv_amount_in (swv_inner (settle_intent ei o));
  hn_price : fpv_repr (iv_min_price (swv_inner ei)) * ov_amount_in o / 2 ^ 63 ≤ ov_amount_out o;
  hn_payer : bv_owner (swv_inner eb) = iv_owner (swv_inner ei);
  hn_receiver : bv_owner (swv_inner eo) = iv_owner (swv_inner ei);
}.

(** A settlement for the witnesses: party 0 sells 40 of token 10 for 80 of token 20. *)
Definition example_key : SchnorrPublicKeyVar Scalar := mkPublicKeyVar (mkPointVar 3 4).
Definition example_wrap {F} `{CircuitType F} (seed : Scalar) (value : F Scalar)
    : StateWrapperVar F Scalar :=
  v_advance_recovery (v_fresh_element (mkCSPRNGVar seed 0) (mkCSPRNGVar (seed + 1) 0) value).
Definition example_intent0 : IntentVar Scalar :=
  mkIntentVar 10 20 7 (mkFixedPointVar (2 * 2 ^ 63)) 100.
Definition example_intent1 : IntentVar Scalar :=
  mkIntentVar 20 10 8 (mkFixedPointVar (2 ^ 62)) 200.
Definition example_balance (mint owner amount : Scalar) : DarkpoolBalanceVar Scalar :=
  mkBalanceVar mint owner 9 example_key 0 0 amount.
Definition example_obligation0 : SettlementObligationVar Scalar := mkObligationVar 10 20 40 80.
Definition example_obligation1 : SettlementObligationVar Scalar := mkObligationVar 20 10 80 40.
Definition example_rates : FeeRatesVar Scalar :=
  mkFeeRatesVar (mkFixedPointVar (2 ^ 60)) (mkFixedPointVar (2 ^ 61)).
Definition example_party (o : SettlementObligationVar Scalar) (ei : StateIntentVar Scalar)
    (eb eo : StateBalanceVar Scalar) : settled_party Scalar :=
  mkParty _ o (swv_inner ei) (iv_amount_in (swv_public_share ei)) (swv_inner eb)
    (build_post_match_balance (swv_public_share eb)) (swv_inner eo)
    (build_post_match_balance (swv_public_share eo)).
Definition example_party0 : settled_party Scalar :=
  example_party example_obligation0 (v_reencrypt_amount_in (example_wrap 1 example_intent0))
    (v_reencrypt_post_match (example_wrap 2 (example_balance 10 7 150)))
    (v_reencrypt_post_match (example_wrap 3 (example_balance 20 7 5))).
Definition example_party1 : settled_party Scalar :=
  example_party example_obligation1 (v_reencrypt_amount_in (example_wrap 4 example_intent1))
    (v_reencrypt_post_match (example_wrap 5 (example_balance 20 8 90)))
    (v_reencrypt_post_match (example_wrap 6 (example_balance 10 8 0))).
Definition example_witness : IntentAndBalancePrivateSettlementWitness Scalar :=
  let p := example_party0 in
  let q := example_party1 in
  mkPrivateSettlementWitness
    (sp_obligation p) (sp_intent p) (sp_amount_share p) (sp_input_balance p) (sp_in_shares p)
    (sp_output_balance p) (sp_out_shares p)
    (sp_obligation q) (sp_intent q) (sp_amount_share q) (sp_input_balance q) (sp_in_shares q)
    (sp_output_balance q) (sp_out_shares q).
Definition example_statement : IntentAndBalancePrivateSettlementStatement Scalar :=
  let shares p :=
    (scalar_sub (sp_amount_share p) (ov_amount_in (sp_obligation p)),
     settle_in_shares (sp_in_shares p) (sp_obligation p),
     settle_out_shares (sp_out_shares p) (sp_obligation p) example_rates) in
  mkPrivateSettlementStatement
    (shares example_party0).1.1 (shares example_party0).1.2 (shares example_party0).2
    (shares example_party1).1.1 (shares example_party1).1.2 (shares example_party1).2
    (mkFixedPointVar (2 ^ 60)) (mkFixedPointVar (2 ^ 60)) (mkFixedPointVar (2 ^ 61)).
Definition example_opening : MerkleOpeningVar 0 Scalar := mkOpeningVar [#] [#].
Definition example_validity : IntentAndBalanceValidityWitness 0 Scalar :=
  let i := example_wrap 1 example_intent0 in
  let b := example_wrap 2 (example_balance 10 7 150) in
  mkIntentAndBalanceWitness i example_opening (swv_inner i)
    (iv_amount_in (swv_public_share (v_reencrypt_amount_in i))) b example_opening (swv_inner b)
    (build_post_match_balance (swv_public_share (v_reencrypt_post_match b))).
Definition example_validity_statement : IntentAndBalanceValidityStatement Scalar :=
  let i := example_wrap 1 example_intent0 in
  let b := example_wrap 2 (example_balance 10 7 150) in
  let i' := v_reencrypt_amount_in i in
  let b' := v_reencrypt_post_match b in
  mkIntentAndBalanceStatement
    (v_commitment (v_complement i) i) (v_nullifier i)
    (v_partial_commitment INTENT_PARTIAL_COMMITMENT_SIZE (v_complement i') (v_advance_recovery i'))
    (v_recovery_id i') (v_commitment (v_complement b) b) (v_nullifier b)
    (v_partial_commitment BALANCE_PARTIAL_COMMITMENT_SIZE (v_complement b') (v_advance_recovery b'))
    (v_recovery_id b').
Definition example_output : OutputBalanceValidityWitness 0 Scalar :=
  let b := example_wrap 3 (example_balance 20 7 5) in
  mkOutputBalanceWitness b example_opening (swv_inner b)
    (build_post_match_balance (swv_public_share (v_reencrypt_post_match b))).
Definition example_output_statement : OutputBalanceValidityStatement Scalar :=
  let b := example_wrap 3 (example_balance 20 7 5) in
  let b' := v_reencrypt_post_match b in
  mkOutputBalanceStatement (v_commitment (v_complement b) b) (v_nullifier b)
    (v_partial_commitment BALANCE_PARTIAL_COMMITMENT_SIZE (v_complement b') (v_advance_recovery b'))
    (v_recovery_id b').

(** A ledger with one balance, of 150 of token 10 *)
Definition example_ledger : ledger :=
  mkLedger [example_wrap 1 (example_balance 10 7 150)] [] [] (credit 10 150 (λ _, 0)).

(** The circuits, over trees of height [n] *)
Definition circuits (n : nat) : list SingleProverCircuit :=
  [ValidDeposit n; ValidWithdrawal n; ValidBalanceCreate; ValidOrderCancellation n;
   ValidNoteRedemption n; ValidPublicProtocolFeePayment n; ValidPublicRelayerFeePayment n;
   ValidPrivateProtocolFeePayment n; ValidPrivateRelayerFeePayment n; IntentOnlyValidityCircuit n;
   IntentOnlyFirstFillValidityCircuit; IntentAndBalanceValidityCircuit n;
   IntentAndBalanceFirstFillValidityCircuit n; OutputBalanceValidityCircuit n;
   NewOutputBalanceValidityCircuit n; IntentOnlyPublicSettlementCircuit;
   IntentOnlyBoundedSettlementCircuit; IntentAndBalancePublicSettlementCircuit;
   IntentAndBalanceBoundedSettlementCircuit; IntentAndBalancePrivateSettlementCircuit].

(** A type of values in a circuit: a fixed number of variables, which [from_vars] reads
    back as they were written, and the values of which are the written values. *)
Record variable_type (F : Type → Type) `{CircuitType F} : Prop := {
  vt_length (x : F N) : length (to_vars x) = NUM (F:=F);
  vt_from_vars (x : F N) rest : from_vars (F:=F) (to_vars x ++ rest) = Ret x;
  vt_values (w : N → Z) (x : F N) : flat (cmap w x) = w <$> to_vars x;
  vt_allocation (vars : list N) : length vars = NUM (F:=F) →
    ∃ x, from_vars (F:=F) vars = Ret x ∧ to_vars x = vars;
}.

(** The two parties of a private settlement, with their fee rates and published shares *)
Definition settled_sides (s : IntentAndBalancePrivateSettlementStatement Scalar)
    (x : IntentAndBalancePrivateSettlementWitness Scalar)
    : list (settled_party Scalar * FeeRatesVar Scalar * Scalar *
            PostMatchBalanceVar Scalar * PostMatchBalanceVar Scalar) :=
  [(party0 x, rates0 s, pss_new_amount_public_share0 s, pss_new_in_balance_public_shares0 s,
    pss_new_out_balance_public_shares0 s);
   (party1 x, rates1 s, pss_new_amount_public_share1 s, pss_new_in_balance_public_shares1 s,
    pss_new_out_balance_public_shares1 s)].

Lemma v_resumable_is_scalar x y l : is_scalar (v_resumable (x :: y :: l)).
Proof.
  cbn [v_resumable foldl]. generalize (poseidon_hash_is_scalar [x; y]). fold (H2 x y).
  generalize (H2 x y). induction l as [|z l IH]; intros a Ha; [done|].
  apply IH, poseidon_hash_is_scalar.
Qed.

Ltac canon_example :=
  unfold canonical; cbn -[scalar_sub scalar_add poseidon_hash is_scalar Z.pow v_get_ith
    v_commitment v_nullifier v_recovery_id v_resumable v_private_commitment];
  repeat first [apply Forall_nil_2|apply Forall_cons_2];
  lazymatch goal with
  | |- is_scalar (scalar_sub _ _) => apply scalar_sub_is_scalar
  | |- is_scalar (scalar_add _ _) => apply scalar_add_is_scalar
  | |- is_scalar (v_resumable _) => apply v_resumable_is_scalar
  | |- is_scalar (Zpos _) => vm_compute; done
  | |- is_scalar (_ ^ _) => vm_compute; done
  | |- is_scalar (_ * _) => vm_compute; done
  | |- is_scalar (_ + _) => vm_compute; done
  | |- is_scalar 0 => apply is_scalar_0
  | |- _ => apply poseidon_hash_is_scalar
  end.
Ltac solve_example := repeat split; first [reflexivity|vm_compute; done].

(** ** Circuits *)

Lemma lawful_variable_type F `{CircuitTypeLaws F} : variable_type F.
Proof.
  split; intros; unfold to_vars, from_vars.
  - apply flat_length.
  - by rewrite unflat_flat.
  - apply flat_cmap.
  - destruct (unflat_total (F:=F) vars) as [[x rest] E]; [lia|]. rewrite E. exists x.
    split; [done|]. apply unflat_spec in E. apply (f_equal length) in E as El.
    rewrite length_app, flat_length in El. destruct rest; [|simpl in El; lia].
    by rewrite E, app_nil_r.
Qed.

(** The witness and the statement of every circuit are variable types: they have a fixed
    number of variables, a value is read back from its variables, and any variables of that
    number are read as a value with those variables. *)
Theorem circuit_types_roundtrip n :
  Forall (λ C, variable_type (Witness C) ∧ variable_type (Statement C)) (circuits n).
Proof.
  unfold circuits. rewrite !Forall_cons. split_and!; try apply Forall_nil_2;
    split; apply lawful_variable_type; apply _.
Qed.

(** C8: the balance circuits (deposit, withdrawal, balance creation, order cancellation and
    note redemption) are sound and complete: an accepted assignment with a witness in it
    exists exactly when the witness satisfies the relation of the circuit at the statement,
    whatever constraint system with the documented behaviour is used. *)
Theorem balance_circuits_correct {Cv : CurveSpec} n :
  circuit_correct (ValidDeposit n) (valid_deposit_rel (n:=n)) ∧
  circuit_correct (ValidWithdrawal n) (valid_withdrawal_rel (n:=n)) ∧
  circuit_correct ValidBalanceCreate valid_balance_create_rel ∧
  circuit_correct (ValidOrderCancellation n) (valid_order_cancellation_rel (n:=n)) ∧
  circuit_correct (ValidNoteRedemption n) (valid_note_redemption_rel (n:=n)).
Proof.
  split_and!; apply (implements_correct _ _).
  - apply valid_deposit_implements.
  - apply valid_deposit_scoped.
  - apply valid_withdrawal_implements.
  - apply valid_withdrawal_scoped.
  - apply valid_balance_create_implements.
  - apply valid_balance_create_scoped.
  - apply valid_order_cancellation_implements.
  - apply valid_order_cancellation_scoped.
  - apply valid_note_redemption_implements.
  - apply valid_note_redemption_scoped.
Qed.

(** C15: the four fee payment circuits are sound and complete for their relations: the note
    pays exactly the fee that the balance owes, and the fee of the new balance is zero. *)
Theorem fee_circuits_correct {Cv : CurveSpec} n :
  circuit_correct (ValidPublicProtocolFeePayment n) (public_protocol_fee_rel (n:=n)) ∧
  circuit_correct (ValidPublicRelayerFeePayment n) (public_relayer_fee_rel (n:=n)) ∧
  circuit_correct (ValidPrivateProtocolFeePayment n) (private_protocol_fee_rel (n:=n)) ∧
  circuit_correct (ValidPrivateRelayerFeePayment n) (private_relayer_fee_rel (n:=n)).
Proof.
  split_and!; apply (implements_correct _ _).
  - apply public_protocol_fee_implements.
  - apply public_protocol_fee_scoped.
  - apply public_relayer_fee_implements.
  - apply public_relayer_fee_scoped.
  - apply private_protocol_fee_implements.
  - apply private_protocol_fee_scoped.
  - apply private_relayer_fee_implements.
  - apply private_relayer_fee_scoped.
Qed.

(** C13: the six validity circuits are sound and complete for their relations: the spent
    elements open to the root and have the nullifiers, the partial commitments and recovery
    identifiers are those of the re-encrypted elements, and a first fill or a new output
    balance carries the signature of the balance's authority. *)
Theorem validity_circuits_correct {Cv : CurveSpec} n :
  circuit_correct (IntentOnlyValidityCircuit n) (intent_only_rel (n:=n)) ∧
  circuit_correct IntentOnlyFirstFillValidityCircuit intent_only_first_fill_rel ∧
  circuit_correct (IntentAndBalanceValidityCircuit n) (intent_and_balance_rel (n:=n)) ∧
  circuit_correct (IntentAndBalanceFirstFillValidityCircuit n)
    (intent_and_balance_first_fill_rel (n:=n)) ∧
  circuit_correct (OutputBalanceValidityCircuit n) (output_balance_rel (n:=n)) ∧
  circuit_correct (NewOutputBalanceValidityCircuit n) (new_output_balance_rel (n:=n)).
Proof.
  split_and!; apply (implements_correct _ _).
  - apply intent_only_implements.
  - apply intent_only_scoped.
  - apply intent_only_first_fill_implements.
  - apply intent_only_first_fill_scoped.
  - apply intent_and_balance_implements.
  - apply intent_and_balance_scoped.
  - apply intent_and_balance_first_fill_implements.
  - apply intent_and_balance_first_fill_scoped.
  - apply output_balance_implements.
  - apply output_balance_scoped.
  - apply new_output_balance_implements.
  - apply new_output_balance_scoped.
Qed.

(** C7: the five settlement circuits are sound and complete for their relations, on values
    in the ranges that the linked proofs and the contract establish: an accepted obligation
    is within the intent and at its price or better, the input balance covers it, and the
    output balance and its fees stay in range; a private settlement updates the public
    shares by exactly the obligation and the fees. *)
Theorem settlement_circuits_correct {Cv : CurveSpec} :
  circuit_correct_under IntentOnlyPublicSettlementCircuit intent_only_public_pre
    (λ s x, satisfies_intent (ipw_intent x) (ips_settlement_obligation s)) ∧
  circuit_correct_under IntentOnlyBoundedSettlementCircuit intent_only_bounded_pre
    (λ s x, satisfies_intent_bounded (iobw_intent x) (iobs_bounded_match_result s)) ∧
  circuit_correct_under IntentAndBalancePublicSettlementCircuit public_settlement_pre
    public_settlement_rel ∧
  circuit_correct_under IntentAndBalanceBoundedSettlementCircuit bounded_settlement_pre
    bounded_settlement_rel ∧
  circuit_correct_under IntentAndBalancePrivateSettlementCircuit private_settlement_pre
    private_settlement_rel.
Proof.
  split_and!; apply (implements_under_correct _ _ _).
  - apply intent_only_public_implements.
  - apply intent_only_public_settlement_scoped.
  - apply intent_only_bounded_implements.
  - apply intent_only_bounded_settlement_scoped.
  - apply public_settlement_implements.
  - apply public_settlement_scoped.
  - apply bounded_settlement_implements.
  - apply bounded_settlement_scoped.
  - apply private_settlement_implements.
  - apply private_settlement_scoped.
Qed.

(** ** The ledger *)

Lemma reachable_invariant {Cv : CurveSpec} {S : ProofSystem Cv} L : reachable L → invariant L.
Proof.
  intros HL. unfold reachable in HL.
  assert (invariant empty_ledger) as H0 by (split; [by split|done]).
  induction HL as [|L1 L2 L3 Hs _ IH]; [done|]. apply IH. by eapply invariant_step.
Qed.

Lemma reachable_canonical {Cv : CurveSpec} {S : ProofSystem Cv} L :
  reachable L → canonical_balances L.
Proof.
  intros HL. unfold reachable in HL. assert (canonical_balances empty_ledger) as H0 by constructor.
  induction HL as [|L1 L2 L3 Hs _ IH]; [done|]. apply IH. by eapply canonical_step.
Qed.

Lemma example_ledger_reachable :
  reachable (Cv:=reference_curve) (S:=reference_system) example_ledger.
Proof.
  apply rtc_once.
  apply (step_create empty_ledger (create_statement (mkCSPRNGVar 1 0) (mkCSPRNGVar 2 0)
    (example_balance 10 7 150)) (mkBalanceCreateWitness (mkCSPRNGVar 2 0) (mkCSPRNGVar 1 0)
    (example_balance 10 7 150))).
  apply create_proved; try done; unfold canonical; cbn; rewrite ?Forall_cons; by split_and!.
Qed.

Lemma private_settlement_sides {Cv : CurveSpec} {S : ProofSystem Cv} s x :
  proved IntentAndBalancePrivateSettlementCircuit s x → private_settlement_pre s x →
  Forall (λ '(p, rates, a, qi, qo), party_settles p rates a qi qo) (settled_sides s x).
Proof.
  intros Hx Hpre. apply (implements_under_proved _ _ _ _ _ private_settlement_implements) in Hx
    as [_ S0 S1]; [|done]. unfold settled_sides. rewrite !Forall_cons. by split_and!.
Qed.

(** The examples are proved in every proof system. *)
Lemma example_settlement_pre : private_settlement_pre example_statement example_witness.
Proof. solve_example. Qed.
Lemma example_settlement_proved {Cv : CurveSpec} {S : ProofSystem Cv} :
  proved IntentAndBalancePrivateSettlementCircuit example_statement example_witness.
Proof.
  apply (implements_under_complete _ _ _ _ _ private_settlement_implements
    private_settlement_scoped).
  - canon_example.
  - split; [canon_example|done].
  - apply example_settlement_pre.
  - solve_example.
Qed.

Lemma example_validity_proved {Cv : CurveSpec} {S : ProofSystem Cv} :
  proved (IntentAndBalanceValidityCircuit 0) example_validity_statement example_validity.
Proof.
  apply (implements_complete _ _ _ _ (intent_and_balance_implements 0)
    (intent_and_balance_scoped 0)).
  - canon_example.
  - split; [canon_example|done].
  - solve_example.
Qed.
Lemma example_output_proved {Cv : CurveSpec} {S : ProofSystem Cv} :
  proved (OutputBalanceValidityCircuit 0) example_output_statement example_output.
Proof.
  apply (implements_complete _ _ _ _ (output_balance_implements 0) (output_balance_scoped 0)).
  - canon_example.
  - split; [canon_example|done].
  - solve_example.
Qed.







(** C14: a private settlement between backed parties in range conserves every token over the
    four balances, fees included; each intent keeps exactly what was not traded, each party
    receives at least what its minimum price demands, and intent, input and output balance
    have one owner. *)
Theorem private_settlement_exact {Cv : CurveSpec} {S : ProofSystem Cv}
    (s : IntentAndBalancePrivateSettlementStatement Scalar)
    (x : IntentAndBalancePrivateSettlementWitness Scalar) ei0 eb0 eo0 ei1 eb1 eo1 :
  proved IntentAndBalancePrivateSettlementCircuit s x → private_settlement_pre s x →
  input_backed (party0 x) ei0 eb0 → output_backed (party0 x) eo0 →
  input_backed (party1 x) ei1 eb1 → output_backed (party1 x) eo1 →
  let o0 := psw_settlement_obligation0 x in
  let o1 := psw_settlement_obligation1 x in
  let values t l := sum_of (λ e, balance_value t (swv_inner e)) l in
  (∀ t, values t [settle_input eb0 o0; settle_output eo0 o0 (rates0 s);
                  settle_input eb1 o1; settle_output eo1 o1 (rates1 s)] =
        values t [eb0; eo0; eb1; eo1]) ∧
  honoured ei0 eb0 eo0 o0 ∧ honoured ei1 eb1 eo1 o1.
Proof.
  intros Hx Hpre K0 J0 K1 J1 o0 o1 values.
  apply (implements_under_proved _ _ _ _ _ private_settlement_implements) in Hx
    as [(T1 & T2 & T3 & T4) S0 S1]; [|done]. destruct Hpre as (_ & _ & R0 & R1).
  pose proof (party_settles_outcome _ _ _ _ _ _ _ _ S0 R0 K0 J0) as [A0 _ _ M0 V0].
  pose proof (party_settles_outcome _ _ _ _ _ _ _ _ S1 R1 K1 J1) as [A1 _ _ M1 V1].
  split; [|split; split].
  - intros t. specialize (V0 t). specialize (V1 t). simpl in *.
    rewrite T1, T2, T3, T4 in V0. unfold values, o0, o1. simpl. lia.
  - exact M0.
  - apply A0.
  - rewrite (ik_intent _ _ _ K0). apply S0.
  - apply K0.
  - rewrite (ik_intent _ _ _ K0), (ok_balance _ _ J0). apply S0.
  - exact M1.
  - apply A1.
  - rewrite (ik_intent _ _ _ K1). apply S1.
  - apply K1.
  - rewrite (ik_intent _ _ _ K1), (ok_balance _ _ J1). apply S1.
Qed.

Lemma private_settlement_exact_witness :
  sum_of (λ e, balance_value 20 (swv_inner e))
    [settle_input (v_reencrypt_post_match (example_wrap 2 (example_balance 10 7 150)))
       example_obligation0;
     settle_output (v_reencrypt_post_match (example_wrap 3 (example_balance 20 7 5)))
       example_obligation0 example_rates;
     settle_input (v_reencrypt_post_match (example_wrap 5 (example_balance 20 8 90)))
       example_obligation1;
     settle_output (v_reencrypt_post_match (example_wrap 6 (example_balance 10 8 0)))
       example_obligation1 example_rates] = 95.
Proof.
  refine (proj1 (@private_settlement_exact reference_curve reference_system example_statement example_witness
    (v_reencrypt_amount_in (example_wrap 1 example_intent0))
    (v_reencrypt_post_match (example_wrap 2 (example_balance 10 7 150)))
    (v_reencrypt_post_match (example_wrap 3 (example_balance 20 7 5)))
    (v_reencrypt_amount_in (example_wrap 4 example_intent1))
    (v_reencrypt_post_match (example_wrap 5 (example_balance 20 8 90)))
    (v_reencrypt_post_match (example_wrap 6 (example_balance 10 8 0))) _ _ _ _ _ _) 20);
    [apply example_settlement_proved|apply example_settlement_pre|solve_example..].
Defined.

(** ** Bounded matches *)

Lemma floor_mul_mono x y a b :
  0 ≤ fpv_repr x ≤ fpv_repr y → 0 ≤ a ≤ b → floor_mul x a ≤ floor_mul y b.
Proof. intros Hx Ha. apply Z.div_le_mono; nia. Qed.

Lemma net_receive_pos o rates :
  0 ≤ ov_amount_out o →
  0 ≤ fpv_repr (frv_relayer_fee_rate rates) → 0 ≤ fpv_repr (frv_protocol_fee_rate rates) →
  fpv_repr (frv_relayer_fee_rate rates) + fpv_repr (frv_protocol_fee_rate rates) ≤ 2 ^ 63 →
  0 ≤ net_receive o rates ≤ ov_amount_out o.
Proof.
  intros Ho Hr Hp Hs. unfold net_receive, floor_mul.
  set (a := ov_amount_out o) in *. set (r := fpv_repr (frv_relayer_fee_rate rates)) in *.
  set (p := fpv_repr (frv_protocol_fee_rate rates)) in *.
  pose proof (Z.mul_div_le (r * a) (2 ^ 63) ltac:(lia)).
  pose proof (Z.mul_div_le (p * a) (2 ^ 63) ltac:(lia)).
  pose proof (Z.div_pos (r * a) (2 ^ 63) ltac:(nia) ltac:(lia)).
  pose proof (Z.div_pos (p * a) (2 ^ 63) ltac:(nia) ltac:(lia)). nia.
Qed.

(** Whatever size the external party chooses within an accepted bounded match, the
    obligation that [to_internal_obligation] computes from it is within the intent and at
    its price or better, is covered by the input balance, and leaves the output balance in
    range. *)
Theorem bounded_match_any_size (r : BoundedMatchResult) (i : Intent)
    (in_balance out_balance : DarkpoolBalanceVar Scalar) (rates : FeeRatesVar Scalar) (a : Amount) :
  admits_bounded (intent_values i) in_balance out_balance (bounded_match_values r) →
  bounded_match_in_range (bounded_match_values r) → intent_in_range (intent_values i) →
  balance_in_range out_balance →
  is_u128 (max_internal_party_amount_in r) → 0 ≤ a ≤ max_internal_party_amount_in r →
  rates_in_range rates →
  fpv_repr (frv_relayer_fee_rate rates) + fpv_repr (frv_protocol_fee_rate rates) ≤ 2 ^ 63 →
  let o := obligation_values (to_internal_obligation r a) in
  satisfies_intent (intent_values i) o ∧ ov_amount_in o ≤ bv_amount in_balance ∧
  fits 100 (bv_amount out_balance + net_receive o rates).
Proof.
  intros [[B1 B2 B3 B4] Hc _ _ Hf] [Hm Hp] [Hq _] [_ _ Hb] Hu Ha [Hr1 Hr2] Hs o.
  pose proof scalar_modulus_bounds as Hmod. apply is_u128_lt in Hu.
  apply fits_100 in Hm, Hf, Hb. unfold rate_in_range, fits in *.
  simpl bmv_max_amount_in in *. rewrite (scalar_from_id (max_internal_party_amount_in r)) in *
    by (unfold is_scalar; lia).
  set (m := max_internal_party_amount_in r) in *. simpl bmv_price in *. simpl iv_min_price in *.
  pose proof (floor_mul_mono (fixed_point_values (min_price i)) (fixed_point_values (bounded_price r))
    a a ltac:(simpl in *; lia) ltac:(lia)) as L1.
  pose proof (floor_mul_mono (fixed_point_values (bounded_price r))
    (fixed_point_values (bounded_price r)) a m ltac:(simpl in *; lia) ltac:(lia)) as L2.
  set (f := floor_mul (fixed_point_values (bounded_price r)) a) in *.
  assert (0 ≤ f) as Hf0 by (apply Z.div_pos; simpl in *; nia).
  assert (ov_amount_in o = a) as E1 by (simpl; apply scalar_from_id; unfold is_scalar; lia).
  assert (ov_amount_out o = f) as E2.
  { simpl. rewrite floor_mul_int_u128.
    - apply scalar_from_id. unfold is_scalar. change (repr (bounded_price r) * a / 2 ^ 63) with f. lia.
    - simpl in *. lia.
    - lia.
    - apply Z.lt_le_trans with ((f + 1) * 2 ^ 63); [|lia].
      rewrite (Z.mul_comm (f + 1)). by apply Z.mul_succ_div_gt. }
  split; [split|split].
  - exact B1.
  - exact B2.
  - rewrite E1. lia.
  - rewrite E1, E2. exact L1.
  - rewrite E1. lia.
  - pose proof (net_receive_pos o rates ltac:(by rewrite E2) ltac:(apply Hr1) ltac:(apply Hr2) Hs) as [N1 N2].
    rewrite E2 in N2. apply fits_100_intro. lia.
Qed.

Lemma bounded_match_any_size_witness :
  satisfies_intent (intent_values (mkIntent 10 20 7 (mkFixedPoint (2 * 2 ^ 63)) 100))
    (obligation_values (to_internal_obligation
       (mkBoundedMatchResult 10 20 5 50 (mkFixedPoint (3 * 2 ^ 63)) 9) 30)).
Proof.
  refine (proj1 (bounded_match_any_size
    (mkBoundedMatchResult 10 20 5 50 (mkFixedPoint (3 * 2 ^ 63)) 9)
    (mkIntent 10 20 7 (mkFixedPoint (2 * 2 ^ 63)) 100)
    (example_balance 10 7 150) (example_balance 20 7 5) example_rates 30 _ _ _ _ _ _ _ _));
  solve_example.
Defined.
