(* ===== verification/ValidityBundles.v ===== *)
(** * Validity proof bundles

    src/crates/relayer-types/types-proofs/src/{bundles,validity_storage}.rs: what the relayer
    stores of a validity proof.  A bundle is the statement that was proved, beside the proof
    and its linking hint, which are values of the proof system and have no part in the
    model; the witness is stored with it, since a settlement reads the linked values from
    it.  Statements and witnesses are the scalars that the prover allocates for them
    (ValidityCircuits.v). *)
From S2P Require Import Prelude Scalar Merkle CircuitTypes ValidityCircuits.
Local Open Scope Z_scope.

(** The openings of the deployed circuits ([Sized...Witness]) *)
Abbreviation SizedIntentOnlyValidityWitness :=
  (IntentOnlyValidityWitness MERKLE_HEIGHT Scalar) (only parsing).
Abbreviation SizedIntentAndBalanceValidityWitness :=
  (IntentAndBalanceValidityWitness MERKLE_HEIGHT Scalar) (only parsing).
Abbreviation SizedIntentAndBalanceFirstFillValidityWitness :=
  (IntentAndBalanceFirstFillValidityWitness MERKLE_HEIGHT Scalar) (only parsing).
Abbreviation SizedOutputBalanceValidityWitness :=
  (OutputBalanceValidityWitness MERKLE_HEIGHT Scalar) (only parsing).
Abbreviation SizedNewOutputBalanceValidityWitness :=
  (NewOutputBalanceValidityWitness MERKLE_HEIGHT Scalar) (only parsing).

Inductive ValidityProofBundle :=
| IntentOnlyFirstFillBundle (bundle : IntentOnlyFirstFillValidityStatement Scalar)
    (witness : IntentOnlyFirstFillValidityWitness Scalar)
| IntentOnlyBundle (bundle : IntentOnlyValidityStatement Scalar)
    (witness : SizedIntentOnlyValidityWitness)
| IntentAndBalanceFirstFillBundle (bundle : IntentAndBalanceFirstFillValidityStatement Scalar)
    (witness : SizedIntentAndBalanceFirstFillValidityWitness)
| IntentAndBalanceBundle (bundle : IntentAndBalanceValidityStatement Scalar)
    (witness : SizedIntentAndBalanceValidityWitness)
| NewOutputBalanceBundle (bundle : NewOutputBalanceValidityStatement Scalar)
    (witness : SizedNewOutputBalanceValidityWitness)
| OutputBalanceBundle (bundle : OutputBalanceValidityStatement Scalar)
    (witness : SizedOutputBalanceValidityWitness).

(** The entries of the proof table *)
Inductive ProofPayload :=
| IntentOnlyFirstFillProof (bundle : IntentOnlyFirstFillValidityStatement Scalar)
| IntentOnlyProof (bundle : IntentOnlyValidityStatement Scalar)
| IntentAndBalanceFirstFillProof (bundle : IntentAndBalanceFirstFillValidityStatement Scalar)
| IntentAndBalanceProof (bundle : IntentAndBalanceValidityStatement Scalar)
| NewOutputBalanceProof (bundle : NewOutputBalanceValidityStatement Scalar)
| OutputBalanceProof (bundle : OutputBalanceValidityStatement Scalar)
| IntentOnlyFirstFillWitness (witness : IntentOnlyFirstFillValidityWitness Scalar)
| IntentOnlyWitness (witness : SizedIntentOnlyValidityWitness)
| IntentAndBalanceFirstFillWitness (witness : SizedIntentAndBalanceFirstFillValidityWitness)
| IntentAndBalanceWitness (witness : SizedIntentAndBalanceValidityWitness)
| NewOutputBalanceWitness (witness : SizedNewOutputBalanceValidityWitness)
| OutputBalanceWitness (witness : SizedOutputBalanceValidityWitness).

Inductive ValidityProofType :=
| IntentOnlyFirstFill | IntentOnly | IntentAndBalanceFirstFill | IntentAndBalance
| NewOutputBalance | OutputBalance.
#[global] Instance ValidityProofType_eq_dec : EqDecision ValidityProofType.
Proof. solve_decision. Defined.

Definition bundle_type (b : ValidityProofBundle) : ValidityProofType :=
  match b with
  | IntentOnlyFirstFillBundle _ _ => IntentOnlyFirstFill
  | IntentOnlyBundle _ _ => IntentOnly
  | IntentAndBalanceFirstFillBundle _ _ => IntentAndBalanceFirstFill
  | IntentAndBalanceBundle _ _ => IntentAndBalance
  | NewOutputBalanceBundle _ _ => NewOutputBalance
  | OutputBalanceBundle _ _ => OutputBalance
  end.
Definition bundle_proof (b : ValidityProofBundle) : ProofPayload :=
  match b with
  | IntentOnlyFirstFillBundle s _ => IntentOnlyFirstFillProof s
  | IntentOnlyBundle s _ => IntentOnlyProof s
  | IntentAndBalanceFirstFillBundle s _ => IntentAndBalanceFirstFillProof s
  | IntentAndBalanceBundle s _ => IntentAndBalanceProof s
  | NewOutputBalanceBundle s _ => NewOutputBalanceProof s
  | OutputBalanceBundle s _ => OutputBalanceProof s
  end.
Definition bundle_witness (b : ValidityProofBundle) : ProofPayload :=
  match b with
  | IntentOnlyFirstFillBundle _ x => IntentOnlyFirstFillWitness x
  | IntentOnlyBundle _ x => IntentOnlyWitness x
  | IntentAndBalanceFirstFillBundle _ x => IntentAndBalanceFirstFillWitness x
  | IntentAndBalanceBundle _ x => IntentAndBalanceWitness x
  | NewOutputBalanceBundle _ x => NewOutputBalanceWitness x
  | OutputBalanceBundle _ x => OutputBalanceWitness x
  end.
