(* ===== verification/AccountTypes.v ===== *)
(** * Accounts, orders and match results

    src/crates/relayer-types/types-account/src/account/{pair,order,balance,keychain,
    mod}.rs and src/crates/relayer-types/types-core/src/{match_result,price}.rs.  The
    quote token ([Token::usdc()], read from a remap the relayer downloads) is an
    argument [usdc] of the functions that use it. *)
From S2P Require Import Prelude Scalar FixedPoint BaseType DarkpoolTypes Poseidon2 StateWrapper.
Local Open Scope Z_scope.

(** ** Pairs (pair.rs) *)

Record Pair := mkPair { pair_in : Address; pair_out : Address }.
#[global] Instance Pair_eq_dec : EqDecision Pair.
Proof. solve_decision. Defined.
#[global] Instance Pair_countable : Countable Pair.
Proof.
  apply (inj_countable' (λ p, (pair_in p, pair_out p)) (λ '(a, b), mkPair a b)). by intros [].
Defined.

Definition pair_reverse (p : Pair) : Pair := mkPair (pair_out p) (pair_in p).
Definition pair_from_intent (i : Intent) : Pair := mkPair (in_token i) (out_token i).
Definition pair_from_obligation (o : SettlementObligation) : Pair :=
  mkPair (input_token o) (output_token o).
Definition is_input_quote (usdc : Address) (p : Pair) : bool := pair_in p =? usdc.
Definition pair_base_token (usdc : Address) (p : Pair) : Address :=
  if pair_in p =? usdc then pair_out p else pair_in p.
Definition pair_quote_token (usdc : Address) (p : Pair) : Address :=
  if pair_in p =? usdc then pair_in p else pair_out p.
Definition to_usdc_quoted (usdc : Address) (p : Pair) : option Pair :=
  if pair_in p =? usdc then Some (pair_reverse p)
  else if pair_out p =? usdc then Some p
  else None.

(** ** Match results (match_result.rs, price.rs) *)

Record MatchResult := mkMatchResult {
  party0_obligation : SettlementObligation;
  party1_obligation : SettlementObligation;
}.
Definition match_base_token (usdc : Address) (m : MatchResult) : Address :=
  if input_token (party0_obligation m) =? usdc then output_token (party0_obligation m)
  else input_token (party0_obligation m).
Definition quote_token_volume (usdc : Address) (m : MatchResult) : Amount :=
  let o := party0_obligation m in
  if input_token o =? usdc then obligation_amount_in o else obligation_amount_out o.

Record TimestampedPriceFp := mkTimestampedPriceFp { price : FixedPoint; timestamp : Z }.

(** ** Privacy rings and balance locations (order.rs, balance.rs) *)

Inductive BalanceLocation := EOA | Darkpool.
#[global] Instance BalanceLocation_eq_dec : EqDecision BalanceLocation.
Proof. solve_decision. Defined.
#[global] Instance BalanceLocation_countable : Countable BalanceLocation.
Proof.
  apply (inj_countable' (λ l, match l with EOA => true | Darkpool => false end)
    (λ b : bool, if b then EOA else Darkpool)). by intros [].
Defined.
Definition is_darkpool (l : BalanceLocation) : bool :=
  match l with Darkpool => true | EOA => false end.
Definition is_eoa (l : BalanceLocation) : bool :=
  match l with EOA => true | Darkpool => false end.

Inductive PrivacyRing := Ring0 | Ring1 | Ring2 | Ring3.
#[global] Instance PrivacyRing_eq_dec : EqDecision PrivacyRing.
Proof. solve_decision. Defined.

Definition min_counterparty_ring (r : PrivacyRing) : PrivacyRing :=
  match r with Ring0 | Ring1 | Ring2 => Ring0 | Ring3 => Ring2 end.
Definition ring_rank (r : PrivacyRing) : Z :=
  match r with Ring0 => 0 | Ring1 => 1 | Ring2 => 2 | Ring3 => 3 end.
Definition can_cross_with (self counterparty : PrivacyRing) : bool :=
  (ring_rank (min_counterparty_ring self) <=? ring_rank counterparty) &&
  (ring_rank (min_counterparty_ring counterparty) <=? ring_rank self).
Definition supports_private_settlement (order0_ring order1_ring : PrivacyRing) : bool :=
  let order0_supports := match order0_ring with Ring2 | Ring3 => true | _ => false end in
  let order1_supports := match order1_ring with Ring2 | Ring3 => true | _ => false end in
  order0_supports && order1_supports.
Definition balance_location (r : PrivacyRing) : BalanceLocation :=
  match r with Ring0 | Ring1 => EOA | Ring2 | Ring3 => Darkpool end.

(** ** Orders (order.rs) *)

Record OrderMetadata := mkOrderMetadata {
  metadata_min_fill_size : Amount;
  metadata_allow_external_matches : bool;
  has_been_filled : bool;
}.
#[global] Instance OrderMetadata_eq_dec : EqDecision OrderMetadata.
Proof. solve_decision. Defined.
Definition order_metadata_new (min_fill : Amount) (allow_external : bool) : OrderMetadata :=
  mkOrderMetadata min_fill allow_external false.
Definition order_metadata_default : OrderMetadata := mkOrderMetadata 0 true false.
Definition mark_filled (m : OrderMetadata) : OrderMetadata :=
  mkOrderMetadata (metadata_min_fill_size m) (metadata_allow_external_matches m) true.

Record Order := mkOrder {
  order_id : Uuid;
  order_intent : StateIntent;
  order_ring : PrivacyRing;
  order_metadata : OrderMetadata;
}.
#[global] Instance Order_eq_dec : EqDecision Order.
Proof. solve_decision. Defined.

Definition order_input_token (o : Order) : Address := in_token (inner (order_intent o)).
Definition order_output_token (o : Order) : Address := out_token (inner (order_intent o)).
Definition order_amount_in (o : Order) : Amount := amount_in (inner (order_intent o)).
Definition order_is_zero (o : Order) : bool := order_amount_in o =? 0.
Definition order_pair (o : Order) : Pair := mkPair (order_input_token o) (order_output_token o).
Definition order_min_fill_size (o : Order) : Amount := metadata_min_fill_size (order_metadata o).
Definition order_min_price (o : Order) : FixedPoint := min_price (inner (order_intent o)).
Definition order_allow_external_matches (o : Order) : bool :=
  metadata_allow_external_matches (order_metadata o).

(** The [debug_assert] is compiled out in release. *)
Definition decrement_amount_in (o : Order) (a : Amount) : Amount * Order :=
  let effective := Z.min a (order_amount_in o) in
  (effective,
   mkOrder (order_id o) (sub_amount_in effective (order_intent o)) (order_ring o)
     (order_metadata o)).

(** [None]: the ratio panics on a zero input amount. *)
Definition validate_match_price (o : Order) (input_amount output_amount : Amount)
    : option bool :=
  implied_price ← from_integer_ratio output_amount input_amount;
  Some (fp_geb implied_price (order_min_price o)).

(** ** Balances (balance.rs) *)

Record Balance := mkBalance { state_wrapper : StateBalance; location : BalanceLocation }.
#[global] Instance Balance_eq_dec : EqDecision Balance.
Proof. solve_decision. Defined.
Definition balance_mint (b : Balance) : Address := mint (inner (state_wrapper b)).
Definition balance_owner (b : Balance) : Address := owner (inner (state_wrapper b)).
Definition balance_amount (b : Balance) : Amount := amount (inner (state_wrapper b)).
Definition set_balance_amount (a : Amount) (b : Balance) : Balance :=
  mkBalance (set_inner (with_amount (inner (state_wrapper b)) a) (state_wrapper b)) (location b).
Definition balance_withdraw (b : Balance) (a : Amount) : Balance :=
  set_balance_amount (u128_sub (balance_amount b) a) b.

(** ** Keychains (keychain.rs) *)

Record PrivateKeyChain := mkPrivateKeyChain {
  symmetric_key : list Z;
  master_view_seed : Scalar;
  master_share_seed_csprng : PoseidonCSPRNG;
  master_recovery_seed_csprng : PoseidonCSPRNG;
}.
Record KeyChain := mkKeyChain {
  secret_keys : PrivateKeyChain;
  schnorr_public_key : SchnorrPublicKey;
}.
#[global] Instance PrivateKeyChain_eq_dec : EqDecision PrivateKeyChain.
Proof. solve_decision. Defined.
#[global] Instance KeyChain_eq_dec : EqDecision KeyChain.
Proof. solve_decision. Defined.

Definition keychain_sample_recovery_id_stream (k : PrivateKeyChain)
    : PoseidonCSPRNG * PrivateKeyChain :=
  let '(s, c) := csprng_next (master_recovery_seed_csprng k) in
  (csprng_new s, mkPrivateKeyChain (symmetric_key k) (master_view_seed k)
    (master_share_seed_csprng k) c).
Definition keychain_sample_share_stream (k : PrivateKeyChain)
    : PoseidonCSPRNG * PrivateKeyChain :=
  let '(s, c) := csprng_next (master_share_seed_csprng k) in
  (csprng_new s, mkPrivateKeyChain (symmetric_key k) (master_view_seed k)
    c (master_recovery_seed_csprng k)).

(** ** Accounts (mod.rs) *)

Abbreviation MatchingPoolName := string (only parsing).

Record Account := mkAccount {
  account_id : Uuid;
  orders : gmap Uuid Order;
  balances : gmap Address (gmap BalanceLocation Balance);
  keychain : KeyChain;
  default_matching_pool : option MatchingPoolName;
}.

Definition new_empty_account (id : Uuid) (k : KeyChain) : Account := mkAccount id ∅ ∅ k None.

(** [balances.entry(mint).or_default().insert(location, balance)] *)
Definition insert_balance (b : Balance) (m : gmap Address (gmap BalanceLocation Balance))
    : gmap Address (gmap BalanceLocation Balance) :=
  <[balance_mint b := <[location b := b]> (default ∅ (m !! balance_mint b))]> m.

Definition account_new (id : Uuid) (os : list Order) (bs : list Balance) (k : KeyChain)
    : Account :=
  let orders_map := foldl (λ m o, <[order_id o := o]> m) ∅ os in
  let balances_map := foldl (λ m b, insert_balance b m) ∅ bs in
  mkAccount id orders_map balances_map k None.

Definition account_get_order (a : Account) (id : Uuid) : option Order := orders a !! id.

Definition account_get_balance (a : Account) (m : Address) (l : BalanceLocation)
    : option Balance := balances a !! m ≫= λ locs, locs !! l.

Definition has_balance (a : Account) (m : Address) : bool := bool_decide (is_Some (balances a !! m)).

Definition get_matchable_amount_for_order (a : Account) (o : Order) : Amount :=
  let token := order_input_token o in
  let loc := balance_location (order_ring o) in
  let bal := default 0 (balance_amount <$> account_get_balance a token loc) in
  Z.min bal (order_amount_in o).

Definition get_all_balances (a : Account) : list Balance :=
  map_to_list (balances a) ≫= λ '(_, locs), (map_to_list locs).*2.

Definition set_secret_keys (k : PrivateKeyChain) (a : Account) : Account :=
  mkAccount (account_id a) (orders a) (balances a)
    (mkKeyChain k (schnorr_public_key (keychain a))) (default_matching_pool a).
Definition sample_recovery_id_stream_seed (a : Account) : PoseidonCSPRNG * Account :=
  let '(c, k) := keychain_sample_recovery_id_stream (secret_keys (keychain a)) in
  (c, set_secret_keys k a).
Definition sample_share_stream_seed (a : Account) : PoseidonCSPRNG * Account :=
  let '(c, k) := keychain_sample_share_stream (secret_keys (keychain a)) in
  (c, set_secret_keys k a).

Definition set_orders (m : gmap Uuid Order) (a : Account) : Account :=
  mkAccount (account_id a) m (balances a) (keychain a) (default_matching_pool a).
Definition set_balances (m : gmap Address (gmap BalanceLocation Balance)) (a : Account)
    : Account :=
  mkAccount (account_id a) (orders a) m (keychain a) (default_matching_pool a).

Definition place_order (a : Account) (id : Uuid) (intent : Intent) (ring : PrivacyRing)
    (metadata : OrderMetadata) : option Account :=
  let '(share, a) := sample_share_stream_seed a in
  let '(recovery, a) := sample_recovery_id_stream_seed a in
  wrapper ← state_wrapper_new intent (seed share) (seed recovery);
  Some (set_orders (<[id := mkOrder id wrapper ring metadata]> (orders a)) a).

Inductive AccountError := BalanceError (msg : string) | OrderError (msg : string).

Definition deposit_balance (a : Account) (m : Address) (amt : Amount) (l : BalanceLocation)
    : result AccountError Account :=
  match account_get_balance a m l with
  | None => Err (BalanceError "Balance not found for mint")
  | Some bal =>
      if max_amount <? u128_add (balance_amount bal) amt
      then Err (BalanceError "Deposit would exceed max amount")
      else
        let bal' := set_balance_amount (u128_add (balance_amount bal) amt) bal in
        Ok (set_balances (alter (λ locs, <[l := bal']> locs) m (balances a)) a)
  end.

Definition create_balance (a : Account) (token owner_ fee_recipient : Address)
    (auth : SchnorrPublicKey) (l : BalanceLocation) : option Account :=
  let '(share, a) := sample_share_stream_seed a in
  let '(recovery, a) := sample_recovery_id_stream_seed a in
  let bal_inner := balance_new token owner_ fee_recipient auth in
  wrapper ← state_wrapper_new bal_inner (seed share) (seed recovery);
  let bal := mkBalance wrapper l in
  Some (set_balances
    (<[token := <[l := bal]> (default ∅ (balances a !! token))]> (balances a)) a).

(** ** Lemmas *)

Lemma fp_geb_small x y :
  repr x < 2 ^ 252 → repr y < 2 ^ 252 → fp_geb x y = (repr y <=? repr x).
Proof.
  intros. unfold fp_geb. rewrite cmp_nonneg by (by apply small_not_negative).
  unfold Z.leb. rewrite (Z.compare_antisym (repr x)). by destruct (repr x ?= repr y).
Qed.

(** ** Properties *)

(** Ring compatibility is symmetric; two orders may cross unless one is in ring 3 and
    the other is in ring 0 or 1, so a ring-3 order only ever meets orders with which a
    private settlement is possible, and orders that support private settlement can always
    cross. *)
Theorem ring_crossing (r0 r1 : PrivacyRing) :
  can_cross_with r0 r1 = can_cross_with r1 r0 ∧
  (can_cross_with Ring3 r1 = supports_private_settlement Ring3 r1) ∧
  (supports_private_settlement r0 r1 = true → can_cross_with r0 r1 = true) ∧
  (can_cross_with r0 r1 = false ↔
    (r0 = Ring3 ∧ (r1 = Ring0 ∨ r1 = Ring1)) ∨ (r1 = Ring3 ∧ (r0 = Ring0 ∨ r0 = Ring1))).
Proof. destruct r0, r1; vm_compute; intuition discriminate. Qed.

(** [decrement_amount_in] never underflows: it takes the smaller of the request and what
    remains, reports it, and lowers the plaintext and the public share together, so that the
    private shares and hence the opening of the commitment are kept. *)
Theorem decrement_amount_in_clamps (o : Order) (a : Amount) :
  is_u128 (order_amount_in o) → is_u128 a →
  let '(taken, o') := decrement_amount_in o a in
  taken = Z.min a (order_amount_in o) ∧
  order_amount_in o' = order_amount_in o - taken ∧
  0 ≤ order_amount_in o' ∧
  private_scalars (order_intent o') = private_scalars (order_intent o) ∧
  order_pair o' = order_pair o ∧ order_min_price o' = order_min_price o.
Proof.
  intros Hu Ha. unfold decrement_amount_in, order_amount_in in *.
  destruct (sub_amount_in_private (order_intent o) (Z.min a (amount_in (inner (order_intent o)))))
    as [H1 H2]; [done|apply is_u128_lt in Hu, Ha; lia|].
  cbn [order_intent]. rewrite H2. apply is_u128_lt in Hu, Ha. split_and!; try done. lia.
Qed.

Lemma decrement_amount_in_clamps_witness :
  let o := mkOrder 1 (mkStateWrapper (csprng_new 1) (csprng_new 2) (mkIntent 1 2 3 one 10)
    (mkIntentShare 1 2 3 one 4)) Ring2 order_metadata_default in
  order_amount_in (decrement_amount_in o 15).2 = 0.
Proof.
  intros o. pose proof (decrement_amount_in_clamps o 15) as H.
  destruct (decrement_amount_in o 15) as [taken o'].
  destruct H as (Ht & Ho & _); [split; vm_compute; done|split; vm_compute; done|].
  simpl. rewrite Ho, Ht. reflexivity.
Defined.

(** The price check of an order compares exactly: it accepts a fill iff the output covers
    the order's minimum price times the input, without rounding error, and it panics exactly
    when the input amount is zero. *)
Theorem validate_match_price_exact (o : Order) (input_amount output_amount : Amount) :
  is_u128 input_amount → is_u128 output_amount → 0 ≤ repr (order_min_price o) < 2 ^ 252 →
  match validate_match_price o input_amount output_amount with
  | None => input_amount = 0
  | Some ok => input_amount ≠ 0 ∧
      (ok = true ↔ repr (order_min_price o) * input_amount ≤ output_amount * 2 ^ 63)
  end.
Proof.
  intros Hi%is_u128_lt Ho%is_u128_lt Hp. unfold validate_match_price, from_integer_ratio.
  destruct (Z.eqb_spec input_amount 0) as [|Hne]; [done|]. cbn [mbind option_bind].
  split; [done|].
  rewrite Z.shiftl_mul_pow2 by done. unfold DEFAULT_FP_PRECISION, biguint_to_scalar.
  assert (0 ≤ output_amount * 2 ^ 63 / input_amount < 2 ^ 191) by
    (split; [apply Z.div_pos; lia|apply Z.div_lt_upper_bound; nia]).
  rewrite scalar_from_small by lia.
  rewrite fp_geb_small by (simpl; lia). simpl. rewrite Z.leb_le.
  apply le_div_iff. lia.
Qed.

Lemma validate_match_price_exact_witness :
  let o := mkOrder 1 (mkStateWrapper (csprng_new 1) (csprng_new 2)
    (mkIntent 1 2 3 (from_integer 3) 10) (mkIntentShare 1 2 3 one 4)) Ring2
    order_metadata_default in
  validate_match_price o 5 15 = Some true.
Proof.
  intros o. pose proof (validate_match_price_exact o 5 15) as H.
  destruct (validate_match_price o 5 15) as [ok|].
  - destruct H as [_ H]; [split; vm_compute; done|split; vm_compute; done|split; vm_compute; done|].
    f_equal. apply H. vm_compute. done.
  - exfalso. assert (5 = 0) by (apply H; split; vm_compute; done). done.
Defined.
