(* ===== verification/Book.v ===== *)
(** * The order book of the matching engine

    src/crates/workers/matching-engine/matching-engine-core/src/book.rs.  A book keeps
    its orders in a hash map and, next to it, a [BTreeSet] of keys sorted by descending
    matchable amount; matching walks the set and looks every key up in the map.  The
    set is a strictly sorted list here.  The outer [option] of [iter] and [find_match]
    is the [unwrap] of that lookup: [None] is a panic.

    The theorems show that the two structures stay in step under every operation, that
    matching therefore never panics, and that it finds the largest eligible order. *)
From S2P Require Import Prelude Scalar FixedPoint DarkpoolTypes StateWrapper AccountTypes.
Local Open Scope Z_scope.

(** ** Keys *)

Record ReverseAmountKey := mkKey { key_amount : Amount; key_order_id : Uuid }.
#[global] Instance ReverseAmountKey_eq_dec : EqDecision ReverseAmountKey.
Proof. solve_decision. Defined.

(** [Ord for ReverseAmountKey]: amount descending, then order id ascending. *)
Definition key_cmp (self other : ReverseAmountKey) : comparison :=
  match key_amount other ?= key_amount self with
  | Eq => key_order_id self ?= key_order_id other
  | c => c
  end.
Definition key_lt (k1 k2 : ReverseAmountKey) : Prop := key_cmp k1 k2 = Lt.

(** [BTreeSet::insert] and [BTreeSet::remove] on the sorted contents. *)
Fixpoint set_insert (k : ReverseAmountKey) (l : list ReverseAmountKey)
    : list ReverseAmountKey :=
  match l with
  | [] => [k]
  | x :: l' =>
      match key_cmp k x with
      | Lt => k :: x :: l'
      | Eq => x :: l'
      | Gt => x :: set_insert k l'
      end
  end.
Fixpoint set_remove (k : ReverseAmountKey) (l : list ReverseAmountKey)
    : list ReverseAmountKey :=
  match l with
  | [] => []
  | x :: l' =>
      match key_cmp k x with
      | Lt => x :: l'
      | Eq => l'
      | Gt => x :: set_remove k l'
      end
  end.

(** ** Books *)

Record BookOrder := mkBookOrder {
  bo_account_id : Uuid;
  bo_matchable_amount : Amount;
  bo_min_price : FixedPoint;
  bo_min_fill_size : Amount;
  bo_externally_matchable : bool;
  bo_ring : PrivacyRing;
}.

Record Book := mkBook {
  order_map : gmap Uuid BookOrder;
  sorted_amounts : list ReverseAmountKey;
}.

Definition book_order_new (account : Uuid) (order : Order) (matchable : Amount) : BookOrder :=
  mkBookOrder account matchable (order_min_price order) (order_min_fill_size order)
    (order_allow_external_matches order) (order_ring order).

Definition book_new : Book := mkBook ∅ [].

Definition contains_order (b : Book) (id : Uuid) : bool :=
  bool_decide (is_Some (order_map b !! id)).

Definition get_matchable_amount (b : Book) (id : Uuid) : option Amount :=
  bo_matchable_amount <$> order_map b !! id.

Definition total_matchable_amount (b : Book) : Amount :=
  map_fold (λ _ o acc,
    if bo_min_fill_size o <=? bo_matchable_amount o
    then u128_add acc (bo_matchable_amount o) else acc) 0 (order_map b).

Definition add_order (b : Book) (account : Uuid) (order : Order) (matchable : Amount) : Book :=
  mkBook (<[order_id order := book_order_new account order matchable]> (order_map b))
    (set_insert (mkKey matchable (order_id order)) (sorted_amounts b)).

Definition remove_order (b : Book) (id : Uuid) : Book :=
  match order_map b !! id with
  | Some o =>
      mkBook (delete id (order_map b))
        (set_remove (mkKey (bo_matchable_amount o) id) (sorted_amounts b))
  | None => b
  end.

Definition update_order (b : Book) (account : Uuid) (order : Order) (matchable : Amount)
    : Book := add_order (remove_order b (order_id order)) account order matchable.

Definition set_matchable (a : Amount) (o : BookOrder) : BookOrder :=
  mkBookOrder (bo_account_id o) a (bo_min_price o) (bo_min_fill_size o)
    (bo_externally_matchable o) (bo_ring o).

Definition reserve (b : Book) (id : Uuid) (a : Amount) : Amount * Book :=
  match order_map b !! id with
  | None => (0, b)
  | Some o =>
      let reserved := Z.min a (bo_matchable_amount o) in
      if reserved =? 0 then (0, b) else
      let old_amount := bo_matchable_amount o in
      let new_amount := old_amount - reserved in
      (reserved,
       mkBook (<[id := set_matchable new_amount o]> (order_map b))
         (set_insert (mkKey new_amount id) (set_remove (mkKey old_amount id) (sorted_amounts b))))
  end.

(** ** Matching *)

Definition ranges_intersect (range1 range2 : Amount * Amount) : bool :=
  Z.max range1.1 range2.1 <=? Z.min range1.2 range2.2.

(** The conditions under which the loop does not [continue]. *)
Definition eligible (exclude : Uuid) (ring : PrivacyRing) (p : FixedPoint)
    (range : Amount * Amount) (require_external : bool) (o : BookOrder) : bool :=
  negb (exclude =? bo_account_id o) &&
  can_cross_with ring (bo_ring o) &&
  negb (fp_gtb (bo_min_price o) p ||
        negb (ranges_intersect (bo_min_fill_size o, bo_matchable_amount o) range)) &&
  negb (require_external && negb (bo_externally_matchable o)).

Definition iter (b : Book) : option (list (Uuid * BookOrder)) :=
  mapM (λ k, o ← order_map b !! key_order_id k; Some (key_order_id k, o)) (sorted_amounts b).

(** The lazy walk: a key is only looked up when it is reached. *)
Fixpoint find_match_in (m : gmap Uuid BookOrder) (keys : list ReverseAmountKey)
    (exclude : Uuid) (ring : PrivacyRing) (p : FixedPoint) (range : Amount * Amount)
    (require_external : bool) : option (option (Uuid * Amount * (Amount * Amount))) :=
  match keys with
  | [] => Some None
  | k :: keys' =>
      o ← m !! key_order_id k;
      if eligible exclude ring p range require_external o
      then
        let match_amount := Z.min (bo_matchable_amount o) range.2 in
        Some (Some (key_order_id k, match_amount, (bo_min_fill_size o, bo_matchable_amount o)))
      else find_match_in m keys' exclude ring p range require_external
  end.
Definition find_match (b : Book) (exclude : Uuid) (ring : PrivacyRing) (p : FixedPoint)
    (range : Amount * Amount) (require_external : bool)
    : option (option (Uuid * Amount * (Amount * Amount))) :=
  find_match_in (order_map b) (sorted_amounts b) exclude ring p range require_external.

(** ** The representation invariant *)

Definition book_ok (b : Book) : Prop :=
  StronglySorted key_lt (sorted_amounts b) ∧
  (∀ k, k ∈ sorted_amounts b ↔
    ∃ o, order_map b !! key_order_id k = Some o ∧ bo_matchable_amount o = key_amount k).

(** ** Keys are totally ordered *)

Lemma key_cmp_eq k1 k2 : key_cmp k1 k2 = Eq ↔ k1 = k2.
Proof.
  unfold key_cmp. destruct k1 as [a1 i1], k2 as [a2 i2]; simpl.
  destruct (Z.compare_spec a2 a1); split; intros; simplify_eq;
    try by rewrite ?Z.compare_refl.
  - by apply Z.compare_eq in H0 as ->.
  - lia.
  - lia.
Qed.

Lemma key_lt_iff k1 k2 :
  key_lt k1 k2 ↔
  key_amount k2 < key_amount k1 ∨
  (key_amount k1 = key_amount k2 ∧ key_order_id k1 < key_order_id k2).
Proof.
  unfold key_lt, key_cmp. destruct (Z.compare_spec (key_amount k2) (key_amount k1)).
  - rewrite Z.compare_lt_iff. lia.
  - split; [by left|done].
  - split; [done|lia].
Qed.

Lemma key_cmp_gt k1 k2 : key_cmp k1 k2 = Gt ↔ key_lt k2 k1.
Proof.
  unfold key_lt, key_cmp. rewrite (Z.compare_antisym (key_amount k2)).
  destruct (key_amount k2 ?= key_amount k1); simpl; try done.
  by rewrite Z.compare_antisym; destruct (key_order_id k2 ?= key_order_id k1).
Qed.

Lemma key_lt_trans k1 k2 k3 : key_lt k1 k2 → key_lt k2 k3 → key_lt k1 k3.
Proof. rewrite !key_lt_iff. lia. Qed.

Lemma key_lt_irrefl k : ¬ key_lt k k.
Proof. rewrite key_lt_iff. lia. Qed.

(** ** The sorted set *)

Lemma elem_of_set_insert k k' l : k' ∈ set_insert k l ↔ k' = k ∨ k' ∈ l.
Proof.
  induction l as [|x l IH]; simpl; [set_solver|].
  destruct (key_cmp k x) eqn:Hc; [apply key_cmp_eq in Hc as ->| |]; set_solver.
Qed.

Lemma set_insert_sorted k l :
  StronglySorted key_lt l → StronglySorted key_lt (set_insert k l).
Proof.
  induction 1 as [|x l Hl IH Hx]; simpl; [by repeat constructor|].
  destruct (key_cmp k x) eqn:Hc.
  - by constructor.
  - constructor; [by constructor|]. constructor; [done|].
    eapply Forall_impl; [done|]. intros y. by apply key_lt_trans.
  - constructor; [done|]. apply Forall_forall. intros y [->|Hy]%elem_of_set_insert.
    + by apply key_cmp_gt.
    + by eapply Forall_forall in Hx.
Qed.

Lemma elem_of_set_remove k k' l :
  StronglySorted key_lt l → k' ∈ set_remove k l ↔ k' ≠ k ∧ k' ∈ l.
Proof.
  induction 1 as [|x l Hl IH Hx]; simpl; [set_solver|].
  rewrite Forall_forall in Hx.
  destruct (key_cmp k x) eqn:Hc.
  - apply key_cmp_eq in Hc as ->. rewrite elem_of_cons. split.
    + intros Hk. split; [|by right]. intros ->. by apply (key_lt_irrefl x), Hx.
    + intros [Hne [->|Hk]]; done.
  - assert (∀ y, y ∈ x :: l → y ≠ k).
    { intros y Hy ->. apply (key_lt_irrefl k). apply elem_of_cons in Hy as [<-|Hy]; [done|].
      eapply key_lt_trans; [exact Hc|by apply Hx]. }
    naive_solver.
  - rewrite !elem_of_cons, IH. apply key_cmp_gt in Hc.
    assert (x ≠ k) by (intros ->; by apply (key_lt_irrefl k)). naive_solver.
Qed.

Lemma set_remove_subset k l : set_remove k l ⊆ l.
Proof.
  induction l as [|x l IH]; simpl; [done|]. destruct (key_cmp k x); set_solver.
Qed.

Lemma set_remove_sorted k l :
  StronglySorted key_lt l → StronglySorted key_lt (set_remove k l).
Proof.
  induction 1 as [|x l Hl IH Hx]; simpl; [constructor|].
  destruct (key_cmp k x); [done|by constructor|].
  constructor; [done|]. apply Forall_forall. intros y Hy%set_remove_subset.
  by eapply Forall_forall in Hx.
Qed.

#[export] Hint Resolve set_insert_sorted set_remove_sorted : relayer.

(** ** Operations keep the invariant *)

Lemma book_new_ok : book_ok book_new.
Proof.
  split; [constructor|]. intros k. simpl. split; [set_solver|].
  intros (o & Ho & _). by rewrite lookup_empty in Ho.
Qed.

Lemma add_order_ok b account o a :
  book_ok b → order_map b !! order_id o = None → book_ok (add_order b account o a).
Proof.
  intros [Hs Hk] Hnone. split; simpl; [by apply set_insert_sorted|].
  intros [a' i]. rewrite elem_of_set_insert, Hk. simpl. split.
  - intros [[= -> ->]|(o' & Ho' & Ha')].
    + exists (book_order_new account o a). by rewrite lookup_insert_eq.
    + exists o'. rewrite lookup_insert_ne; [done|]. intros <-. by rewrite Hnone in Ho'.
  - intros (o' & Ho' & Ha'). apply lookup_insert_Some in Ho' as [[<- <-]|[Hne Ho']].
    + left. by subst.
    + right. eauto.
Qed.

Lemma remove_order_ok b i :
  book_ok b → book_ok (remove_order b i) ∧ order_map (remove_order b i) = delete i (order_map b).
Proof.
  intros [Hs Hk]. unfold remove_order. destruct (order_map b !! i) as [o|] eqn:Ho.
  - split; [|done]. split; simpl; [by apply set_remove_sorted|].
    intros [a' i']. rewrite elem_of_set_remove by done. rewrite Hk. simpl. split.
    + intros [Hne (o' & Ho' & Ha')]. exists o'. rewrite lookup_delete_ne; [done|].
      intros ->. apply Hne. rewrite Ho in Ho'. by simplify_eq.
    + intros (o' & [Hne Ho']%lookup_delete_Some & Ha'). split; [|eauto]. by intros [= -> ->].
  - split; [done|]. by rewrite delete_id.
Qed.

Lemma update_order_ok b account o a :
  book_ok b → book_ok (update_order b account o a) ∧
  order_map (update_order b account o a) =
    <[order_id o := book_order_new account o a]> (order_map b).
Proof.
  intros Hb. destruct (remove_order_ok b (order_id o) Hb) as [Hr Hm].
  unfold update_order. split.
  - apply add_order_ok; [done|]. by rewrite Hm, lookup_delete_eq.
  - simpl. by rewrite Hm, insert_delete_eq.
Qed.

Lemma reserve_ok b i a :
  book_ok b → book_ok (reserve b i a).2.
Proof.
  intros [Hs Hk]. unfold reserve. destruct (order_map b !! i) as [o|] eqn:Ho; [|done].
  destruct (Z.eqb_spec (Z.min a (bo_matchable_amount o)) 0); [done|].
  split; simpl; [by apply set_insert_sorted, set_remove_sorted|].
  intros [a' i']. rewrite elem_of_set_insert, elem_of_set_remove by done. rewrite Hk. simpl. split.
  - intros [[= -> ->]|[Hne (o' & Ho' & Ha')]].
    + eexists. by rewrite lookup_insert_eq.
    + exists o'. rewrite lookup_insert_ne; [done|]. intros <-. apply Hne.
      rewrite Ho in Ho'. by simplify_eq.
  - intros (o' & [[-> <-]|[Hne Ho']]%lookup_insert_Some & Ha').
    + left. by simplify_eq/=.
    + right. split; [|eauto]. by intros [= -> ->].
Qed.

(** What a reservation does to the map. *)
Lemma reserve_map b i a :
  order_map (reserve b i a).2 =
  alter (λ o, set_matchable (bo_matchable_amount o - Z.min a (bo_matchable_amount o)) o) i
    (order_map b).
Proof.
  unfold reserve. destruct (order_map b !! i) as [o|] eqn:Ho.
  - destruct (Z.eqb_spec (Z.min a (bo_matchable_amount o)) 0) as [Hz|Hz].
    + symmetry. apply map_eq. intros j. destruct (decide (i = j)) as [->|Hne];
        [|by rewrite lookup_alter_ne].
      rewrite lookup_alter_eq, Ho. simpl. rewrite Hz, Z.sub_0_r. by destruct o.
    + simpl. apply map_eq. intros j. destruct (decide (i = j)) as [->|Hne].
      * by rewrite lookup_insert_eq, lookup_alter_eq, Ho.
      * by rewrite lookup_insert_ne, lookup_alter_ne.
  - simpl. apply map_eq. intros j. destruct (decide (i = j)) as [->|Hne];
      [|by rewrite lookup_alter_ne]. by rewrite lookup_alter_eq, Ho.
Qed.

#[export] Hint Resolve book_new_ok reserve_ok : relayer.

(** ** Iteration *)

Lemma book_key_lookup b k :
  book_ok b → k ∈ sorted_amounts b →
  ∃ o, order_map b !! key_order_id k = Some o ∧ bo_matchable_amount o = key_amount k.
Proof. intros [_ Hk]. by rewrite Hk. Qed.

Lemma book_lookup_key b i o :
  book_ok b → order_map b !! i = Some o → mkKey (bo_matchable_amount o) i ∈ sorted_amounts b.
Proof. intros [_ Hk] Ho. apply Hk. eauto. Qed.

Lemma iter_ok b :
  book_ok b → ∃ l, iter b = Some l ∧
    (λ x, mkKey (bo_matchable_amount x.2) x.1) <$> l = sorted_amounts b ∧
    Forall (λ x, order_map b !! x.1 = Some x.2) l.
Proof.
  intros Hb. pose proof (λ k, book_key_lookup b k Hb) as Hk. unfold iter.
  clear Hb. induction (sorted_amounts b) as [|k ks IH]; [by exists []|].
  destruct (Hk k) as (o & Ho & Ha); [by left|].
  destruct IH as (l & Hl & Hkeys & Hf). { intros k' Hk'. apply Hk. by right. }
  exists ((key_order_id k, o) :: l). split; [simpl; rewrite Ho; simpl; by rewrite Hl|].
  rewrite fmap_cons, Hkeys. simpl. split; [|by constructor].
  rewrite Ha. by destruct k.
Qed.

(** ** The walk *)

Lemma find_match_in_spec m keys exclude ring p range ext :
  (∀ k, k ∈ keys → is_Some (m !! key_order_id k)) →
  let elig := eligible exclude ring p range ext in
  ∃ r, find_match_in m keys exclude ring p range ext = Some r ∧
  match r with
  | None => ∀ k o, k ∈ keys → m !! key_order_id k = Some o → elig o = false
  | Some (i, a, bounds) =>
      ∃ pre k post o, keys = pre ++ k :: post ∧ key_order_id k = i ∧
        m !! i = Some o ∧ elig o = true ∧
        a = Z.min (bo_matchable_amount o) range.2 ∧
        bounds = (bo_min_fill_size o, bo_matchable_amount o) ∧
        (∀ k' o', k' ∈ pre → m !! key_order_id k' = Some o' → elig o' = false)
  end.
Proof.
  intros Hk elig. induction keys as [|k ks IH]; simpl.
  { exists None. split; [done|]. set_solver. }
  destruct (Hk k) as [o Ho]; [by left|]. rewrite Ho. simpl.
  destruct (eligible exclude ring p range ext o) eqn:He.
  { eexists. split; [done|]. exists [], k, ks, o. split_and!; try done. set_solver. }
  destruct IH as (r & Hr & Hspec). { intros k' Hk'. apply Hk. by right. }
  exists r. split; [done|]. destruct r as [[[i a] bounds]|].
  - destruct Hspec as (pre & k' & post & o' & -> & Hi & Hm & He' & Ha & Hbo & Hpre).
    exists (k :: pre), k', post, o'. split_and!; try done.
    intros k'' o'' [->|Hin]%elem_of_cons Ho''; [|by eapply Hpre].
    rewrite Ho in Ho''. by simplify_eq.
  - intros k' o' [->|Hin]%elem_of_cons Ho'; [|by eapply Hspec].
    rewrite Ho in Ho'. by simplify_eq.
Qed.

Lemma StronglySorted_app_lt pre k post k' :
  StronglySorted key_lt (pre ++ k :: post) → k' ∈ pre ++ k :: post → k' ∉ pre →
  k' = k ∨ key_lt k k'.
Proof.
  induction pre as [|x pre IH]; simpl; intros Hs Hin Hnot.
  - apply elem_of_cons in Hin as [->|Hin]; [by left|right].
    apply StronglySorted_inv in Hs as [_ Hf]. by eapply Forall_forall in Hf.
  - apply StronglySorted_inv in Hs as [Hs _].
    apply IH; [done| |]; set_solver.
Qed.

Lemma ranges_intersect_min lo hi range :
  ranges_intersect (lo, hi) range = true →
  lo ≤ Z.min hi range.2 ∧ range.1 ≤ Z.min hi range.2.
Proof. unfold ranges_intersect. simpl. rewrite Z.leb_le. lia. Qed.

Lemma eligible_inv exclude ring p range ext o :
  eligible exclude ring p range ext o = true →
  exclude ≠ bo_account_id o ∧ can_cross_with ring (bo_ring o) = true ∧
  fp_gtb (bo_min_price o) p = false ∧
  ranges_intersect (bo_min_fill_size o, bo_matchable_amount o) range = true ∧
  (ext = true → bo_externally_matchable o = true).
Proof.
  unfold eligible. rewrite !andb_true_iff, !negb_true_iff, orb_false_iff, negb_false_iff,
    andb_false_iff, negb_false_iff, Z.eqb_neq.
  intros [[[H1 H2] [H3 H4]] H5]. split_and!; try done. intros ->. by destruct H5.
Qed.

(** The largest eligible order. *)
Lemma find_match_ok b exclude ring p range ext :
  book_ok b →
  let elig := eligible exclude ring p range ext in
  ∃ r, find_match b exclude ring p range ext = Some r ∧
  match r with
  | None => ∀ i o, order_map b !! i = Some o → elig o = false
  | Some (i, a, bounds) =>
      ∃ o, order_map b !! i = Some o ∧ elig o = true ∧
        a = Z.min (bo_matchable_amount o) range.2 ∧
        bounds = (bo_min_fill_size o, bo_matchable_amount o) ∧
        (∀ i' o', order_map b !! i' = Some o' → elig o' = true → i' ≠ i →
          key_lt (mkKey (bo_matchable_amount o) i) (mkKey (bo_matchable_amount o') i'))
  end.
Proof.
  intros Hb elig.
  destruct (find_match_in_spec (order_map b) (sorted_amounts b) exclude ring p range ext)
    as (r & Hr & Hspec).
  { intros k (o & Ho & _)%book_key_lookup; [by eexists|done]. }
  exists r. split; [done|]. destruct r as [[[i a] bounds]|].
  - destruct Hspec as (pre & [ka ki] & post & o & Hkeys & <- & Hm & He & Ha & Hbo & Hpre).
    simpl in Hm. exists o. split_and!; try done.
    intros i' o' Ho' He' Hne.
    assert (ka = bo_matchable_amount o) as ->.
    { destruct (book_key_lookup b (mkKey ka ki) Hb) as (o2 & Ho2 & Hka);
        [rewrite Hkeys; set_solver|]. simpl in *. by simplify_eq. }
    pose proof (book_lookup_key b i' o' Hb Ho') as Hin. destruct Hb as [Hs _].
    rewrite Hkeys in Hs, Hin.
    destruct (StronglySorted_app_lt _ _ _ _ Hs Hin) as [[= _ ?]|?]; [|done|done].
    intros Hpre'. pose proof (Hpre _ _ Hpre' Ho'). unfold elig in He'. congruence.
  - intros i o Ho. eapply Hspec; [by apply book_lookup_key|done].
Qed.

(** ** Reachable books *)

(** The engine adds an order only when the book does not contain it, and updates it
    otherwise. *)
Inductive book_step : Book → Book → Prop :=
| step_add b account o a :
    contains_order b (order_id o) = false → book_step b (add_order b account o a)
| step_update b account o a : book_step b (update_order b account o a)
| step_remove b i : book_step b (remove_order b i)
| step_reserve b i a : book_step b (reserve b i a).2.

Inductive reachable_book : Book → Prop :=
| reachable_new : reachable_book book_new
| reachable_step b b' : reachable_book b → book_step b b' → reachable_book b'.

Lemma book_step_ok b b' : book_ok b → book_step b b' → book_ok b'.
Proof.
  intros Hb. destruct 1 as [b account o a Hc|b account o a|b i|b i a].
  - apply add_order_ok; [done|]. unfold contains_order in Hc.
    apply bool_decide_eq_false in Hc. by apply eq_None_not_Some.
  - by apply update_order_ok.
  - by apply remove_order_ok.
  - by apply reserve_ok.
Qed.

Lemma reachable_book_inv b : reachable_book b → book_ok b.
Proof. induction 1; [apply book_new_ok|by eapply book_step_ok]. Qed.

(** The key of an entry of the walk. *)
Definition entry_key (x : Uuid * BookOrder) : ReverseAmountKey :=
  mkKey (bo_matchable_amount x.2) x.1.

Lemma sorted_entries_NoDup (m : gmap Uuid BookOrder) l :
  StronglySorted key_lt (entry_key <$> l) → (∀ x, x ∈ l → m !! x.1 = Some x.2) → NoDup l.*1.
Proof.
  induction l as [|[i o] l IH]; csimpl; intros Hs Hm; [constructor|].
  apply StronglySorted_inv in Hs as [Hs Hlt]. constructor.
  - intros ([i' o'] & Hi & Hin)%list_elem_of_fmap. simpl in Hi. subst i'.
    pose proof (Hm (i, o) ltac:(by left)) as H1.
    pose proof (Hm (i, o') ltac:(by right)) as H2. simpl in H1, H2.
    assert (o' = o) as -> by congruence.
    rewrite Forall_forall in Hlt. apply (key_lt_irrefl (entry_key (i, o))), Hlt.
    by apply list_elem_of_fmap_2.
  - apply IH; [done|]. intros x Hx. apply Hm. by right.
Qed.

Lemma sorted_entries_desc l :
  StronglySorted key_lt (entry_key <$> l) →
  StronglySorted (λ x y, bo_matchable_amount y.2 ≤ bo_matchable_amount x.2) l.
Proof.
  induction l as [|x l IH]; csimpl; intros Hs; [constructor|].
  apply StronglySorted_inv in Hs as [Hs Hlt]. constructor; [by apply IH|].
  rewrite Forall_fmap in Hlt. eapply Forall_impl; [exact Hlt|].
  intros y. simpl. rewrite key_lt_iff. simpl. lia.
Qed.

(** ** Properties *)

(** In every book the engine can build, the sorted set and the order map agree: walking
    the book never panics on a missing order, visits every order exactly once, and visits
    them by descending matchable amount. *)
Theorem reachable_book_iter (b : Book) :
  reachable_book b →
  ∃ l, iter b = Some l ∧ NoDup l.*1 ∧
    (∀ i o, (i, o) ∈ l ↔ order_map b !! i = Some o) ∧
    StronglySorted (λ x y, bo_matchable_amount y.2 ≤ bo_matchable_amount x.2) l.
Proof.
  intros Hb%reachable_book_inv. destruct (iter_ok b Hb) as (l & Hl & Hkeys & Hf).
  rewrite Forall_forall in Hf.
  assert (StronglySorted key_lt (entry_key <$> l)) as Hs by (unfold entry_key; rewrite Hkeys; apply Hb).
  exists l. split_and!; [done|by eapply sorted_entries_NoDup| |by apply sorted_entries_desc].
  intros i o. split; [apply (Hf (i, o))|].
  intros Ho. pose proof (book_lookup_key b i o Hb Ho) as Hin. rewrite <-Hkeys in Hin.
  apply list_elem_of_fmap in Hin as ([i' o'] & [= Ha ->] & Hin).
  pose proof (Hf _ Hin). by simplify_eq/=.
Qed.

(** Two orders for witnesses. *)
Definition sample_order (i : Uuid) (a : Amount) (p : FixedPoint) : Order :=
  mkOrder i (mkStateWrapper (csprng_new 1) (csprng_new 2) (mkIntent 1 2 3 p a)
    (mkIntentShare 1 2 3 one 4)) Ring2 order_metadata_default.
Definition sample_book : Book :=
  add_order (add_order book_new 7 (sample_order 1 10 one) 10) 8 (sample_order 2 20 one) 20.

Lemma sample_book_reachable : reachable_book sample_book.
Proof. repeat (eapply reachable_step; [|by apply step_add]). apply reachable_new. Qed.

Lemma reachable_book_iter_witness : ∃ l, iter sample_book = Some l ∧ NoDup l.*1.
Proof.
  destruct (reachable_book_iter sample_book sample_book_reachable) as (l & H1 & H2 & _).
  by exists l.
Defined.

(** C30: matching against a reachable book never panics and finds the best counterparty: if
    it returns an order, that order is not the excluded account's, is ring-compatible, asks
    no more than the price, and no other eligible order has a larger matchable amount (ties
    go to the smaller order id); the matched amount lies within the requested range, is at
    least the order's minimum fill and at most its matchable amount; if it returns nothing,
    no order of the book is eligible. *)
Theorem find_match_best (b : Book) (exclude : Uuid) (ring : PrivacyRing) (p : FixedPoint)
    (range : Amount * Amount) (ext : bool) :
  reachable_book b →
  let elig := eligible exclude ring p range ext in
  ∃ r, find_match b exclude ring p range ext = Some r ∧
  match r with
  | None => ∀ i o, order_map b !! i = Some o → elig o = false
  | Some (i, a, bounds) =>
      ∃ o, order_map b !! i = Some o ∧ bo_account_id o ≠ exclude ∧
        can_cross_with ring (bo_ring o) = true ∧ fp_gtb (bo_min_price o) p = false ∧
        (ext = true → bo_externally_matchable o = true) ∧
        bounds = (bo_min_fill_size o, bo_matchable_amount o) ∧
        range.1 ≤ a ≤ range.2 ∧ bo_min_fill_size o ≤ a ≤ bo_matchable_amount o ∧
        (∀ i' o', order_map b !! i' = Some o' → elig o' = true → i' ≠ i →
          bo_matchable_amount o' < bo_matchable_amount o ∨
          (bo_matchable_amount o' = bo_matchable_amount o ∧ i < i'))
  end.
Proof.
  intros Hb%reachable_book_inv elig.
  destruct (find_match_ok b exclude ring p range ext Hb) as (r & Hr & Hspec).
  exists r. split; [done|]. destruct r as [[[i a] bounds]|]; [|done].
  destruct Hspec as (o & Ho & He & -> & -> & Hbest). exists o.
  apply eligible_inv in He as (H1 & H2 & H3 & H4 & H5).
  apply ranges_intersect_min in H4.
  split_and!; [exact Ho|by apply not_eq_sym|exact H2|exact H3|exact H5|reflexivity|lia..|].
  intros i' o' Ho' He' Hne. pose proof (Hbest i' o' Ho' He' Hne) as Hlt.
  apply key_lt_iff in Hlt. simpl in Hlt. lia.
Qed.

Lemma find_match_best_witness :
  find_match sample_book 7 Ring3 one (5, 12) true = Some (Some (2, 12, (0, 20))) ∧
  ∃ r, find_match sample_book 7 Ring3 one (5, 12) true = Some r.
Proof.
  split; [vm_compute; done|].
  destruct (find_match_best sample_book 7 Ring3 one (5, 12) true sample_book_reachable)
    as (r & H & _). by exists r.
Defined.
