(* ===== verification/Engine.v ===== *)
(** * The matching engine

    src/crates/workers/matching-engine/matching-engine-core/src/{engine,lib}.rs: one book
    per (pair, matching pool) and one all-pools book per pair.  The maps are concurrent
    ([DashMap]); each method is modelled as an atomic step, which is what holding the
    book's guard across find and reserve gives for one book.  The outer [option] of the
    find methods is a panic of the book walk; the inner one is the source's. *)
From S2P Require Import Prelude Scalar FixedPoint DarkpoolTypes StateWrapper AccountTypes Book.
Local Open Scope Z_scope.

Record MatchingEngine := mkEngine {
  book_map : gmap (Pair * MatchingPoolName) Book;
  all_pools_book : gmap Pair Book;
}.

Record SuccessfulMatch := mkSuccessfulMatch {
  other_order_id : Uuid;
  match_price : TimestampedPriceFp;
  match_result : MatchResult;
  matchable_amount_bounds : Amount * Amount;
}.

Definition engine_new : MatchingEngine := mkEngine ∅ ∅.

(** ** Order operations *)

Definition engine_contains_order (e : MatchingEngine) (o : Order) (pool : MatchingPoolName)
    : bool :=
  match book_map e !! (order_pair o, pool) with
  | Some b => contains_order b (order_id o)
  | None => false
  end.

Definition engine_get_matchable_amount (e : MatchingEngine) (o : Order)
    (pool : MatchingPoolName) : option Amount :=
  b ← book_map e !! (order_pair o, pool); get_matchable_amount b (order_id o).

(** Update the order if the book has it, add it otherwise. *)
Definition upsert_in_book (b : Book) (account : Uuid) (o : Order) (a : Amount) : Book :=
  if contains_order b (order_id o) then update_order b account o a else add_order b account o a.

Definition upsert_order (e : MatchingEngine) (account : Uuid) (o : Order) (a : Amount)
    (pool : MatchingPoolName) : MatchingEngine :=
  let pair := order_pair o in
  let b := default book_new (book_map e !! (pair, pool)) in
  let all_b := default book_new (all_pools_book e !! pair) in
  mkEngine (<[(pair, pool) := upsert_in_book b account o a]> (book_map e))
    (<[pair := upsert_in_book all_b account o a]> (all_pools_book e)).

Definition cancel_order (e : MatchingEngine) (o : Order) (pool : MatchingPoolName)
    : MatchingEngine :=
  let pair := order_pair o in
  mkEngine (alter (λ b, remove_order b (order_id o)) (pair, pool) (book_map e))
    (alter (λ b, remove_order b (order_id o)) pair (all_pools_book e)).

Definition engine_update_order (e : MatchingEngine) (account : Uuid) (o : Order) (a : Amount)
    (pool : MatchingPoolName) : MatchingEngine :=
  let pair := order_pair o in
  mkEngine (alter (λ b, update_order b account o a) (pair, pool) (book_map e))
    (alter (λ b, update_order b account o a) pair (all_pools_book e)).

(** Reserve in the books of a pair, ignoring the amount actually reserved. *)
Definition reserve_in (e : MatchingEngine) (pair : Pair) (pool : MatchingPoolName) (i : Uuid)
    (a : Amount) : MatchingEngine :=
  mkEngine (alter (λ b, (reserve b i a).2) (pair, pool) (book_map e))
    (alter (λ b, (reserve b i a).2) pair (all_pools_book e)).

Definition reserve_order (e : MatchingEngine) (o : Order) (a : Amount)
    (pool : MatchingPoolName) : MatchingEngine :=
  reserve_in e (order_pair o) pool (order_id o) a.

Definition get_liquidity_for_pair (e : MatchingEngine) (pair : Pair) : Amount * Amount :=
  let liquidity p := default 0 (total_matchable_amount <$> all_pools_book e !! p) in
  (liquidity (pair_reverse pair), liquidity pair).

(** ** Matching operations *)

Definition input_range_to_output_range (range : Amount * Amount) (p : FixedPoint)
    : Amount * Amount :=
  (scalar_to_u128 (floor_mul_int p range.1), scalar_to_u128 (floor_mul_int p range.2)).

Definition build_match_result (input_pair : Pair) (ts_price : TimestampedPriceFp)
    (counterparty_oid : Uuid) (counterparty_input_amount : Amount)
    (bounds : Amount * Amount) : option SuccessfulMatch :=
  counterparty_price ← inverse (price ts_price);
  let input_amount := scalar_to_u128 (floor_mul_int counterparty_price counterparty_input_amount) in
  let obligation1 := mkSettlementObligation (pair_in input_pair) (pair_out input_pair)
    input_amount counterparty_input_amount in
  let obligation2 := mkSettlementObligation (pair_out input_pair) (pair_in input_pair)
    counterparty_input_amount input_amount in
  Some (mkSuccessfulMatch counterparty_oid ts_price (mkMatchResult obligation1 obligation2) bounds).

Definition find_match_helper (e : MatchingEngine) (exclude : Uuid) (ring : PrivacyRing)
    (input_pair : Pair) (input_range : Amount * Amount) (pool : MatchingPoolName)
    (ts_price : TimestampedPriceFp) (require_external : bool)
    : option (option SuccessfulMatch * MatchingEngine) :=
  let counterparty_pair := pair_reverse input_pair in
  match inverse (price ts_price) with
  | None => Some (None, e)
  | Some counterparty_price =>
      let output_range := input_range_to_output_range input_range (price ts_price) in
      match book_map e !! (counterparty_pair, pool) with
      | None => Some (None, e)
      | Some b =>
          found ← find_match b exclude ring counterparty_price output_range require_external;
          match found with
          | None => Some (None, e)
          | Some (oid, a, bounds) =>
              let e' :=
                if require_external then e else reserve_in e counterparty_pair pool oid a in
              Some (build_match_result input_pair ts_price oid a bounds, e')
          end
      end
  end.

Definition engine_find_match (e : MatchingEngine) (exclude : Uuid) (ring : PrivacyRing)
    (input_pair : Pair) (input_range : Amount * Amount) (pool : MatchingPoolName)
    (ts_price : TimestampedPriceFp) : option (option SuccessfulMatch * MatchingEngine) :=
  find_match_helper e exclude ring input_pair input_range pool ts_price false.

(** External parties have no account: the nil uuid is excluded. *)
Definition find_match_external (e : MatchingEngine) (ring : PrivacyRing)
    (input_pair : Pair) (input_range : Amount * Amount) (pool : MatchingPoolName)
    (ts_price : TimestampedPriceFp) : option (option SuccessfulMatch * MatchingEngine) :=
  find_match_helper e 0 ring input_pair input_range pool ts_price true.

Definition find_match_external_all_pools (e : MatchingEngine) (ring : PrivacyRing)
    (input_pair : Pair) (input_range : Amount * Amount) (ts_price : TimestampedPriceFp)
    : option (option SuccessfulMatch) :=
  match inverse (price ts_price) with
  | None => Some None
  | Some counterparty_price =>
      let output_range := input_range_to_output_range input_range (price ts_price) in
      match all_pools_book e !! pair_reverse input_pair with
      | None => Some None
      | Some b =>
          found ← find_match b 0 ring counterparty_price output_range true;
          match found with
          | None => Some None
          | Some (oid, a, bounds) => Some (build_match_result input_pair ts_price oid a bounds)
          end
      end
  end.

(** ** Engine state as lookups *)

Definition pool_order (e : MatchingEngine) (pair : Pair) (pool : MatchingPoolName) (i : Uuid)
    : option BookOrder := b ← book_map e !! (pair, pool); order_map b !! i.
Definition all_order (e : MatchingEngine) (pair : Pair) (i : Uuid) : option BookOrder :=
  b ← all_pools_book e !! pair; order_map b !! i.

(** Every book satisfies its invariant, and a pair with a pool book has an all-pools book. *)
Definition engine_ok (e : MatchingEngine) : Prop :=
  map_Forall (λ _, book_ok) (book_map e) ∧ map_Forall (λ _, book_ok) (all_pools_book e) ∧
  (∀ pair pool, is_Some (book_map e !! (pair, pool)) → is_Some (all_pools_book e !! pair)).

(** An operation on one order changes that order only, by [f], in one pool book and in the
    all-pools book. *)
Definition local_update (e e' : MatchingEngine) (pair : Pair) (pool : MatchingPoolName)
    (i : Uuid) (f : option BookOrder → option BookOrder) : Prop :=
  pool_order e' pair pool i = f (pool_order e pair pool i) ∧
  all_order e' pair i = f (all_order e pair i) ∧
  (∀ pair' pool' i', (pair', pool', i') ≠ (pair, pool, i) →
    pool_order e' pair' pool' i' = pool_order e pair' pool' i') ∧
  (∀ pair' i', (pair', i') ≠ (pair, i) → all_order e' pair' i' = all_order e pair' i').

(** Changing the books of one key by [g]. *)
Lemma alter_local_update e pair pool i f g :
  (∀ b, book_ok b → order_map (g b) !! i = f (order_map b !! i)) →
  (∀ b j, book_ok b → j ≠ i → order_map (g b) !! j = order_map b !! j) →
  (book_map e !! (pair, pool) = None → f None = None) →
  (all_pools_book e !! pair = None → f None = None) →
  engine_ok e →
  local_update e (mkEngine (alter g (pair, pool) (book_map e)) (alter g pair (all_pools_book e)))
    pair pool i f.
Proof.
  intros Hg Hg' Hn1 Hn2 (Hb & Ha & _).
  unfold local_update, pool_order, all_order; simpl. split_and!.
  - rewrite lookup_alter_eq. destruct (book_map e !! (pair, pool)) eqn:E; simpl.
    + apply Hg. by apply (Hb _ _ E).
    + symmetry. by apply Hn1.
  - rewrite lookup_alter_eq. destruct (all_pools_book e !! pair) eqn:E; simpl.
    + apply Hg. by apply (Ha _ _ E).
    + symmetry. by apply Hn2.
  - intros pair' pool' i' Hne. destruct (decide ((pair, pool) = (pair', pool'))) as [[= <- <-]|Hk].
    + rewrite lookup_alter_eq. destruct (book_map e !! (pair, pool)) eqn:E; simpl; [|done].
      apply Hg'; [by apply (Hb _ _ E)|congruence].
    + by rewrite lookup_alter_ne.
  - intros pair' i' Hne. destruct (decide (pair = pair')) as [<-|Hk].
    + rewrite lookup_alter_eq. destruct (all_pools_book e !! pair) eqn:E; simpl; [|done].
      apply Hg'; [by apply (Ha _ _ E)|congruence].
    + by rewrite lookup_alter_ne.
Qed.

Lemma alter_engine_ok e pair pool g :
  (∀ b, book_ok b → book_ok (g b)) → engine_ok e →
  engine_ok (mkEngine (alter g (pair, pool) (book_map e)) (alter g pair (all_pools_book e))).
Proof.
  intros Hg (Hb & Ha & Hs). split_and!; simpl.
  - intros k b Hk. apply lookup_alter_Some in Hk as [(<- & b' & Hb' & ->)|[_ Hk]].
    + apply Hg. by apply (Hb _ _ Hb').
    + by apply (Hb _ _ Hk).
  - intros k b Hk. apply lookup_alter_Some in Hk as [(<- & b' & Hb' & ->)|[_ Hk]].
    + apply Hg. by apply (Ha _ _ Hb').
    + by apply (Ha _ _ Hk).
  - intros pair' pool'. rewrite !lookup_alter_is_Some. apply Hs.
Qed.

(** [upsert_order] is such a change on an engine where the two books exist. *)
Definition ensure_books (e : MatchingEngine) (pair : Pair) (pool : MatchingPoolName)
    : MatchingEngine :=
  mkEngine (<[(pair, pool) := default book_new (book_map e !! (pair, pool))]> (book_map e))
    (<[pair := default book_new (all_pools_book e !! pair)]> (all_pools_book e)).

Lemma upsert_order_alter e account o a pool :
  upsert_order e account o a pool =
  let e1 := ensure_books e (order_pair o) pool in
  mkEngine (alter (λ b, upsert_in_book b account o a) (order_pair o, pool) (book_map e1))
    (alter (λ b, upsert_in_book b account o a) (order_pair o) (all_pools_book e1)).
Proof. unfold upsert_order, ensure_books. simpl. by rewrite !alter_insert_eq. Qed.

Lemma ensure_books_ok e pair pool : engine_ok e → engine_ok (ensure_books e pair pool).
Proof.
  intros (Hb & Ha & Hs). split_and!; simpl.
  - apply map_Forall_insert_2; [|done].
    destruct (book_map e !! (pair, pool)) eqn:E; simpl; [by apply (Hb _ _ E)|apply book_new_ok].
  - apply map_Forall_insert_2; [|done].
    destruct (all_pools_book e !! pair) eqn:E; simpl; [by apply (Ha _ _ E)|apply book_new_ok].
  - intros pair' pool'. rewrite !lookup_insert_is_Some.
    destruct (decide (pair = pair')) as [<-|Hne]; [by left|].
    intros [[= ? _]|[_ H]]; [done|]. right. split; [done|]. by eapply Hs.
Qed.

Lemma ensure_books_lookup e pair pool :
  (∀ pair' pool' i, pool_order (ensure_books e pair pool) pair' pool' i = pool_order e pair' pool' i) ∧
  (∀ pair' i, all_order (ensure_books e pair pool) pair' i = all_order e pair' i).
Proof.
  unfold pool_order, all_order. split; simpl.
  - intros pair' pool' i. destruct (decide ((pair, pool) = (pair', pool'))) as [[= <- <-]|Hne].
    + rewrite lookup_insert_eq. by destruct (book_map e !! (pair, pool)).
    + by rewrite lookup_insert_ne.
  - intros pair' i. destruct (decide (pair = pair')) as [<-|Hne].
    + rewrite lookup_insert_eq. by destruct (all_pools_book e !! pair).
    + by rewrite lookup_insert_ne.
Qed.

(** ** Each operation is a local update *)

Lemma upsert_in_book_ok b account o a :
  book_ok b → book_ok (upsert_in_book b account o a) ∧
  order_map (upsert_in_book b account o a) =
    <[order_id o := book_order_new account o a]> (order_map b).
Proof.
  intros Hb. unfold upsert_in_book, contains_order. case_bool_decide as Hc.
  - by apply update_order_ok.
  - split; [|done]. apply add_order_ok; [done|]. by apply eq_None_not_Some.
Qed.

(** Carrying [local_update] through an intermediate engine with the same orders. *)
Lemma local_update_from e e1 e' pair pool i f :
  (∀ pair' pool' i', pool_order e1 pair' pool' i' = pool_order e pair' pool' i') →
  (∀ pair' i', all_order e1 pair' i' = all_order e pair' i') →
  local_update e1 e' pair pool i f → local_update e e' pair pool i f.
Proof.
  intros Hp Ha (H1 & H2 & H3 & H4). unfold local_update.
  rewrite <-Hp, <-Ha. split_and!; [done|done| |].
  - intros. rewrite <-Hp. by apply H3.
  - intros. rewrite <-Ha. by apply H4.
Qed.

Lemma upsert_order_local e account o a pool :
  engine_ok e →
  engine_ok (upsert_order e account o a pool) ∧
  local_update e (upsert_order e account o a pool) (order_pair o) pool (order_id o)
    (λ _, Some (book_order_new account o a)).
Proof.
  intros He. rewrite upsert_order_alter. cbv zeta. split.
  - apply alter_engine_ok; [by intros b Hb; apply upsert_in_book_ok|by apply ensure_books_ok].
  - apply (local_update_from _ (ensure_books e (order_pair o) pool));
      [apply ensure_books_lookup|apply ensure_books_lookup|].
    apply alter_local_update; [| | | |by apply ensure_books_ok].
    + intros b Hb. rewrite (proj2 (upsert_in_book_ok b account o a Hb)). by rewrite lookup_insert_eq.
    + intros b j Hb Hj. rewrite (proj2 (upsert_in_book_ok b account o a Hb)).
      by rewrite lookup_insert_ne.
    + simpl. by rewrite lookup_insert_eq.
    + simpl. by rewrite lookup_insert_eq.
Qed.

Lemma update_order_local e account o a pool :
  engine_ok e → is_Some (book_map e !! (order_pair o, pool)) →
  engine_ok (engine_update_order e account o a pool) ∧
  local_update e (engine_update_order e account o a pool) (order_pair o) pool (order_id o)
    (λ _, Some (book_order_new account o a)).
Proof.
  intros He Hs. split.
  - apply alter_engine_ok; [by intros b Hb; apply update_order_ok|done].
  - apply alter_local_update; [| | | |done].
    + intros b Hb. rewrite (proj2 (update_order_ok b account o a Hb)). by rewrite lookup_insert_eq.
    + intros b j Hb Hj. rewrite (proj2 (update_order_ok b account o a Hb)).
      by rewrite lookup_insert_ne.
    + intros Hn. rewrite Hn in Hs. by destruct Hs.
    + intros Hn. destruct He as (_ & _ & He). destruct (He _ _ Hs) as [? Hx]. by rewrite Hn in Hx.
Qed.

Lemma cancel_order_local e o pool :
  engine_ok e →
  engine_ok (cancel_order e o pool) ∧
  local_update e (cancel_order e o pool) (order_pair o) pool (order_id o) (λ _, None).
Proof.
  intros He. split.
  - apply alter_engine_ok; [by intros b Hb; apply remove_order_ok|done].
  - apply alter_local_update; [| |done|done|done].
    + intros b Hb. rewrite (proj2 (remove_order_ok b _ Hb)). by rewrite lookup_delete_eq.
    + intros b j Hb Hj. rewrite (proj2 (remove_order_ok b _ Hb)). by rewrite lookup_delete_ne.
Qed.

(** What a reservation does to an order. *)
Definition reserved (a : Amount) (o : BookOrder) : BookOrder :=
  set_matchable (bo_matchable_amount o - Z.min a (bo_matchable_amount o)) o.

Lemma reserve_in_local e pair pool i a :
  engine_ok e →
  engine_ok (reserve_in e pair pool i a) ∧
  local_update e (reserve_in e pair pool i a) pair pool i (fmap (reserved a)).
Proof.
  intros He. split.
  - apply alter_engine_ok; [by intros b Hb; apply reserve_ok|done].
  - apply alter_local_update; [| |done|done|done].
    + intros b Hb. rewrite reserve_map. by rewrite lookup_alter_eq.
    + intros b j Hb Hj. rewrite reserve_map. by rewrite lookup_alter_ne.
Qed.

(** What the helper does, for a valid engine: nothing, or a match of the best eligible
    order of the counterparty's book, reserved when the match is internal. *)
Lemma find_match_helper_ok e exclude ring input_pair range pool ts ext :
  engine_ok e →
  ∃ r e', find_match_helper e exclude ring input_pair range pool ts ext = Some (r, e') ∧
  match r with
  | None => e' = e
  | Some m =>
      ∃ p o a, inverse (price ts) = Some p ∧
        pool_order e (pair_reverse input_pair) pool (other_order_id m) = Some o ∧
        eligible exclude ring p (input_range_to_output_range range (price ts)) ext o = true ∧
        a = Z.min (bo_matchable_amount o) (input_range_to_output_range range (price ts)).2 ∧
        build_match_result input_pair ts (other_order_id m) a
          (bo_min_fill_size o, bo_matchable_amount o) = Some m ∧
        e' = if ext then e else reserve_in e (pair_reverse input_pair) pool (other_order_id m) a
  end.
Proof.
  intros (Hb & _ & _). unfold find_match_helper, pool_order.
  destruct (inverse (price ts)) as [p|] eqn:Hp; [|by exists None, e].
  destruct (book_map e !! (pair_reverse input_pair, pool)) as [b|] eqn:Hbk; [|by exists None, e].
  destruct (find_match_ok b exclude ring p (input_range_to_output_range range (price ts)) ext)
    as (r & Hr & Hspec); [by apply (Hb _ _ Hbk)|].
  rewrite Hr. cbn [mbind option_bind]. destruct r as [[[i a] bounds]|]; [|by exists None, e].
  destruct Hspec as (o & Ho & He & Ha & Hbo & _). rewrite Hbo.
  assert (∃ m, build_match_result input_pair ts i a (bo_min_fill_size o, bo_matchable_amount o)
    = Some m ∧ other_order_id m = i) as (m & Hm & Hi).
  { unfold build_match_result. rewrite Hp. by eexists. }
  eexists _, _. split; [reflexivity|]. rewrite Hm. exists p, o, a. rewrite Hi. done.
Qed.

(** ** Pools and the all-pools view *)

Section Coherence.
(** The pool every order is assigned to. *)
Context (pool_of : Uuid → MatchingPoolName).

Definition coherent (e : MatchingEngine) : Prop :=
  engine_ok e ∧
  (∀ pair i, all_order e pair i = pool_order e pair (pool_of i) i) ∧
  (∀ pair pool i, pool ≠ pool_of i → pool_order e pair pool i = None).

(** The engine's operations, each on an order in its own pool; [engine_update_order] on a
    pool whose book exists. *)
Inductive engine_step : MatchingEngine → MatchingEngine → Prop :=
| step_upsert e account o a :
    engine_step e (upsert_order e account o a (pool_of (order_id o)))
| step_cancel e o : engine_step e (cancel_order e o (pool_of (order_id o)))
| step_engine_update e account o a :
    is_Some (book_map e !! (order_pair o, pool_of (order_id o))) →
    engine_step e (engine_update_order e account o a (pool_of (order_id o)))
| step_reserve_order e o a : engine_step e (reserve_order e o a (pool_of (order_id o)))
| step_find e exclude ring pair range pool ts ext r e' :
    find_match_helper e exclude ring pair range pool ts ext = Some (r, e') → engine_step e e'.

Inductive reachable_engine : MatchingEngine → Prop :=
| reachable_engine_new : reachable_engine engine_new
| reachable_engine_step e e' : reachable_engine e → engine_step e e' → reachable_engine e'.

Lemma local_update_coherent e e' pair i f :
  coherent e → engine_ok e' → local_update e e' pair (pool_of i) i f → coherent e'.
Proof.
  intros (_ & Hall & Hnone) Hok (H1 & H2 & H3 & H4). split_and!; [done| |].
  - intros pair' i'. destruct (decide ((pair', i') = (pair, i))) as [[= -> ->]|Hne].
    + by rewrite H1, H2, Hall.
    + rewrite H4, H3, Hall; [done|congruence|done].
  - intros pair' pool i' Hne. rewrite H3; [by apply Hnone|congruence].
Qed.

Lemma engine_step_coherent e e' : coherent e → engine_step e e' → coherent e'.
Proof.
  intros Hc Hstep. pose proof (proj1 Hc) as Hok.
  destruct Hstep as [e account o a|e o|e account o a Hs|e o a|e exclude ring pair range pool ts ext r e' Hf].
  - destruct (upsert_order_local e account o a (pool_of (order_id o)) Hok).
    by eapply local_update_coherent.
  - destruct (cancel_order_local e o (pool_of (order_id o)) Hok). by eapply local_update_coherent.
  - destruct (update_order_local e account o a (pool_of (order_id o)) Hok Hs).
    by eapply local_update_coherent.
  - destruct (reserve_in_local e (order_pair o) (pool_of (order_id o)) (order_id o) a Hok).
    by eapply local_update_coherent.
  - destruct (find_match_helper_ok e exclude ring pair range pool ts ext Hok)
      as (r' & e'' & Hf' & Hspec). rewrite Hf' in Hf. simplify_eq.
    destruct r as [m|]; [|by subst].
    destruct Hspec as (p & o & a & _ & Ho & _ & _ & _ & He). destruct ext; [by subst|].
    assert (pool = pool_of (other_order_id m)) as ->.
    { destruct (decide (pool = pool_of (other_order_id m))) as [|Hne]; [done|].
      destruct Hc as (_ & _ & Hnone). by rewrite Hnone in Ho. }
    destruct (reserve_in_local e (pair_reverse pair) (pool_of (other_order_id m))
      (other_order_id m) a Hok). subst. by eapply local_update_coherent.
Qed.

Lemma engine_new_coherent : coherent engine_new.
Proof.
  split_and!.
  - split_and!; [apply map_Forall_empty|apply map_Forall_empty|].
    intros pair pool [? H]. simpl in H. by rewrite lookup_empty in H.
  - intros pair i. unfold all_order, pool_order. simpl. by rewrite !lookup_empty.
  - intros pair pool i _. unfold pool_order. simpl. by rewrite lookup_empty.
Qed.

Lemma reachable_engine_coherent e : reachable_engine e → coherent e.
Proof. induction 1; [apply engine_new_coherent|by eapply engine_step_coherent]. Qed.
End Coherence.

(** ** Amounts of a match *)

(** The bounds under which price computations do not leave 128 bits. *)
Definition price_ok (p : FixedPoint) (range : Amount * Amount) : Prop :=
  0 < repr p ∧ 0 ≤ range.1 ∧ 0 ≤ range.2 ∧
  repr p * range.1 < 2 ^ 191 ∧ repr p * range.2 < 2 ^ 191 ∧ range.1 < 2 ^ 128 ∧ range.2 < 2 ^ 128.

Lemma output_range_exact p range :
  price_ok p range →
  input_range_to_output_range range p = (repr p * range.1 / 2 ^ 63, repr p * range.2 / 2 ^ 63).
Proof.
  intros (Hp & H1 & H2 & B1 & B2 & L1 & L2). unfold input_range_to_output_range.
  by rewrite !floor_mul_int_u128 by lia.
Qed.

Lemma input_amount_bounds p (c hi : Z) :
  0 < p → 0 ≤ hi < 2 ^ 128 → p * hi < 2 ^ 191 → 0 ≤ c ≤ p * hi / 2 ^ 63 →
  let inv := 2 ^ 126 / p in
  scalar_to_u128 (floor_mul_int (mkFixedPoint inv) c) = inv * c / 2 ^ 63 ∧
  0 ≤ inv * c / 2 ^ 63 ≤ hi ∧ p * (inv * c / 2 ^ 63) ≤ c * 2 ^ 63.
Proof.
  intros Hp Hhi Hb Hc inv.
  assert (0 ≤ inv) by (apply Z.div_pos; lia).
  pose proof (mul_inverse_le p hi (p * hi / 2 ^ 63) Hp ltac:(lia) eq_refl) as Hle. fold inv in Hle.
  assert (c < 2 ^ 128) by (apply (Z.le_lt_trans _ (p * hi / 2 ^ 63));
    [lia|apply Z.div_lt_upper_bound; lia]).
  assert (inv * c / 2 ^ 63 ≤ hi).
  { etrans; [|exact Hle]. apply Z.div_le_mono; [lia|nia]. }
  assert (0 ≤ inv * c / 2 ^ 63) by (apply Z.div_pos; nia).
  pose proof (lt_succ_div_mul (inv * c) (2 ^ 63) ltac:(lia)).
  pose proof (div_mul_le_bound (inv * c) (2 ^ 63) ltac:(lia)).
  pose proof (div_mul_le_bound (2 ^ 126) p Hp) as Hinv. fold inv in Hinv.
  split; [|split; [lia|]].
  - rewrite floor_mul_int_u128; simpl; [done|lia|lia|nia].
  - apply (Z.mul_le_mono_pos_r _ _ (2 ^ 63)); [lia|]. nia.
Qed.

Lemma build_match_amounts input_pair ts i c bounds m hi :
  build_match_result input_pair ts i c bounds = Some m →
  0 < repr (price ts) → 0 ≤ hi < 2 ^ 128 → repr (price ts) * hi < 2 ^ 191 →
  0 ≤ c ≤ repr (price ts) * hi / 2 ^ 63 →
  ∃ x, match_result m =
      mkMatchResult (mkSettlementObligation (pair_in input_pair) (pair_out input_pair) x c)
        (mkSettlementObligation (pair_out input_pair) (pair_in input_pair) c x) ∧
    other_order_id m = i ∧ matchable_amount_bounds m = bounds ∧
    x = 2 ^ 126 / repr (price ts) * c / 2 ^ 63 ∧
    0 ≤ x ≤ hi ∧ repr (price ts) * x ≤ c * 2 ^ 63.
Proof.
  intros Hm Hp Hhi Hb Hc. unfold build_match_result in Hm.
  rewrite inverse_exact in Hm by done. cbn [mbind option_bind] in Hm. injection Hm as <-.
  destruct (input_amount_bounds (repr (price ts)) c hi Hp Hhi Hb Hc) as (H1 & H2 & H3).
  eexists. cbn [match_result other_order_id matchable_amount_bounds]. rewrite H1.
  split_and!; try reflexivity; lia.
Qed.

(** ** Properties *)

(** Whatever sequence of upserts, cancels, updates, reservations and matches the engine
    runs, as long as each order is used in its own pool, the all-pools book of a pair shows
    exactly the orders of the pools' books (with the same remaining amounts), no order sits
    in the book of another pool, every book satisfies its invariant, and no match attempt
    panics. *)
Theorem engine_pools_coherent (pool_of : Uuid → MatchingPoolName) (e : MatchingEngine) :
  reachable_engine pool_of e →
  (∀ pair i, all_order e pair i = pool_order e pair (pool_of i) i) ∧
  (∀ pair pool i, pool ≠ pool_of i → pool_order e pair pool i = None) ∧
  engine_ok e ∧
  (∀ exclude ring pair range pool ts ext,
    is_Some (find_match_helper e exclude ring pair range pool ts ext)).
Proof.
  intros He%reachable_engine_coherent. destruct He as (Hok & H1 & H2). split_and!; try done.
  intros. destruct (find_match_helper_ok e exclude ring pair range pool ts ext Hok)
    as (r & e' & H & _). by exists (r, e').
Qed.

(** An engine with the two sample orders in the global pool. *)
Definition sample_engine : MatchingEngine :=
  upsert_order (upsert_order engine_new 7 (sample_order 1 10 one) 10 "global")
    8 (sample_order 2 20 one) 20 "global".

Lemma sample_engine_reachable : reachable_engine (λ _, "global"%string) sample_engine.
Proof.
  eapply reachable_engine_step; [eapply reachable_engine_step; [apply reachable_engine_new|]|];
    [apply (step_upsert (λ _, "global"%string))|apply (step_upsert (λ _, "global"%string))].
Qed.

Lemma engine_pools_coherent_witness :
  pool_order sample_engine (mkPair 1 2) "global" 2 = all_order sample_engine (mkPair 1 2) 2 ∧
  is_Some (all_order sample_engine (mkPair 1 2) 2).
Proof.
  split; [|vm_compute; by eexists]. symmetry.
  apply (engine_pools_coherent (λ _, "global"%string) sample_engine sample_engine_reachable).
Defined.

(** C21: a match the engine returns is fair to both sides.  The counterparty is another
    account's, ring-compatible and (for external matches) externally matchable order of the
    requested pool; the two obligations are mirror images; the counterparty pays an amount
    within its fill bounds and within the requested output range; the input party pays at
    most its range's end and gets at least the requested price; the counterparty gets at
    least its minimum price times what it pays, rounded down. *)
Theorem engine_match_sound (pool_of : Uuid → MatchingPoolName) (e : MatchingEngine)
    (exclude : Uuid) (ring : PrivacyRing) (input_pair : Pair) (range : Amount * Amount)
    (pool : MatchingPoolName) (ts : TimestampedPriceFp) (ext : bool)
    (m : SuccessfulMatch) (e' : MatchingEngine) :
  reachable_engine pool_of e → price_ok (price ts) range →
  find_match_helper e exclude ring input_pair range pool ts ext = Some (Some m, e') →
  ∃ o x c, pool_order e (pair_reverse input_pair) pool (other_order_id m) = Some o ∧
    bo_account_id o ≠ exclude ∧ can_cross_with ring (bo_ring o) = true ∧
    (ext = true → bo_externally_matchable o = true) ∧
    match_result m =
      mkMatchResult (mkSettlementObligation (pair_in input_pair) (pair_out input_pair) x c)
        (mkSettlementObligation (pair_out input_pair) (pair_in input_pair) c x) ∧
    bo_min_fill_size o ≤ c ≤ bo_matchable_amount o ∧
    repr (price ts) * range.1 / 2 ^ 63 ≤ c ≤ repr (price ts) * range.2 / 2 ^ 63 ∧
    0 ≤ x ≤ range.2 ∧ repr (price ts) * x ≤ c * 2 ^ 63 ∧
    (0 ≤ repr (bo_min_price o) < 2 ^ 252 → repr (bo_min_price o) * c / 2 ^ 63 ≤ x).
Proof.
  intros He%reachable_engine_coherent Hpr Hf. destruct He as (Hok & _ & _).
  destruct (find_match_helper_ok e exclude ring input_pair range pool ts ext Hok)
    as (r & e'' & Hf' & Hspec). rewrite Hf' in Hf. injection Hf as -> ->.
  destruct Hspec as (p & o & a & Hp & Ho & He & Ha & Hm & _).
  apply eligible_inv in He as (H1 & H2 & H3 & H4 & H5).
  apply ranges_intersect_min in H4. rewrite output_range_exact in Ha, H4 by done.
  cbn [fst snd] in Ha, H4. rewrite <-Ha in H4.
  destruct Hpr as (Hpp & R1 & R2 & B1 & B2 & L1 & L2).
  assert (0 ≤ repr (price ts) * range.1 / 2 ^ 63) by (apply Z.div_pos; nia).
  destruct (build_match_amounts _ _ _ _ _ _ range.2 Hm Hpp) as (x & Hres & _ & _ & Hx & Hx1 & Hx2);
    [lia|lia|lia|].
  exists o, x, a. split_and!; [exact Ho|by apply not_eq_sym|exact H2|exact H5|exact Hres|lia..|].
  intros Hmin. rewrite inverse_exact in Hp by done. injection Hp as <-.
  assert (0 ≤ 2 ^ 126 / repr (price ts) ≤ 2 ^ 126) by
    (split; [apply Z.div_pos; lia|apply Z.div_le_upper_bound; nia]).
  rewrite fp_gtb_small in H3 by (simpl; lia). apply Z.ltb_ge in H3. simpl in H3.
  rewrite Hx. apply Z.div_le_mono; [lia|]. apply Z.mul_le_mono_nonneg_r; lia.
Qed.

Lemma engine_match_sound_witness :
  ∃ m e' o x c,
    find_match_helper sample_engine 7 Ring3 (mkPair 2 1) (5, 12) "global"
      (mkTimestampedPriceFp one 0) false = Some (Some m, e') ∧
    match_result m = mkMatchResult (mkSettlementObligation 2 1 x c)
      (mkSettlementObligation 1 2 c x) ∧
    pool_order sample_engine (mkPair 1 2) "global" (other_order_id m) = Some o.
Proof.
  destruct (find_match_helper sample_engine 7 Ring3 (mkPair 2 1) (5, 12) "global"
      (mkTimestampedPriceFp one 0) false) as [[[m|] e']|] eqn:Hf;
    [|vm_compute in Hf; discriminate Hf..].
  destruct (engine_match_sound (λ _, "global"%string) sample_engine 7 Ring3 (mkPair 2 1) (5, 12)
    "global" (mkTimestampedPriceFp one 0) false m e' sample_engine_reachable)
    as (o & x & c & Ho & _ & _ & _ & Hres & _); [repeat split; vm_compute; done|exact Hf|].
  exists m, e', o, x, c. split; [reflexivity|split; [exact Hres|exact Ho]].
Defined.

(** ** Runs of internal matches *)

Record MatchRequest := mkMatchRequest {
  rq_exclude : Uuid;
  rq_ring : PrivacyRing;
  rq_pair : Pair;
  rq_range : Amount * Amount;
  rq_pool : MatchingPoolName;
  rq_price : TimestampedPriceFp;
}.

(** Serve the requests one after the other, collecting the matches. *)
Fixpoint run_matches (e : MatchingEngine) (rqs : list MatchRequest)
    : option (list (MatchRequest * SuccessfulMatch) * MatchingEngine) :=
  match rqs with
  | [] => Some ([], e)
  | rq :: rqs' =>
      '(r, e1) ← engine_find_match e (rq_exclude rq) (rq_ring rq) (rq_pair rq) (rq_range rq)
        (rq_pool rq) (rq_price rq);
      '(log, e2) ← run_matches e1 rqs';
      Some (match r with Some m => (rq, m) :: log | None => log end, e2)
  end.

(** What one match takes from the order [i] of a pool's book. *)
Definition taken (pair : Pair) (pool : MatchingPoolName) (i : Uuid)
    (x : MatchRequest * SuccessfulMatch) : Amount :=
  if decide ((pair_reverse (rq_pair x.1), rq_pool x.1, other_order_id x.2) = (pair, pool, i))
  then obligation_amount_in (party1_obligation (match_result x.2)) else 0.
Definition committed (pair : Pair) (pool : MatchingPoolName) (i : Uuid)
    (log : list (MatchRequest * SuccessfulMatch)) : Amount :=
  foldr (λ x acc, taken pair pool i x + acc) 0 log.

(** One internal match moves exactly its amount out of the book. *)
Lemma find_match_takes e rq :
  engine_ok e →
  ∃ r e1, engine_find_match e (rq_exclude rq) (rq_ring rq) (rq_pair rq) (rq_range rq)
      (rq_pool rq) (rq_price rq) = Some (r, e1) ∧ engine_ok e1 ∧
    ∀ pair pool i o, pool_order e pair pool i = Some o →
      ∃ o1, pool_order e1 pair pool i = Some o1 ∧
        bo_matchable_amount o1 =
          bo_matchable_amount o - from_option (λ m, taken pair pool i (rq, m)) 0 r ∧
        (0 ≤ bo_matchable_amount o → 0 ≤ bo_matchable_amount o1 ≤ bo_matchable_amount o).
Proof.
  intros Hok.
  destruct (find_match_helper_ok e (rq_exclude rq) (rq_ring rq) (rq_pair rq) (rq_range rq)
    (rq_pool rq) (rq_price rq) false Hok) as (r & e1 & Hf & Hspec).
  exists r, e1. split; [exact Hf|]. destruct r as [m|]; simpl.
  2: { subst e1. split; [done|]. intros pair pool i o Ho. exists o. split_and!; [done|lia|lia]. }
  destruct Hspec as (p & o0 & a & Hp & Ho0 & _ & Ha & Hm & ->).
  destruct (reserve_in_local e (pair_reverse (rq_pair rq)) (rq_pool rq) (other_order_id m) a Hok)
    as [Hok1 (H1 & _ & H3 & _)].
  split; [done|]. intros pair pool i o Ho. unfold taken. cbn [fst snd].
  assert (obligation_amount_in (party1_obligation (match_result m)) = a) as ->.
  { unfold build_match_result in Hm. rewrite Hp in Hm. cbn [mbind option_bind] in Hm.
    by injection Hm as <-. }
  destruct (decide _) as [[= <- <- <-]|Hne].
  - rewrite Ho in Ho0. injection Ho0 as <-. rewrite H1, Ho. eexists. split; [done|].
    assert (0 ≤ (input_range_to_output_range (rq_range rq) (price (rq_price rq))).2)
      by apply scalar_to_u128_bound. simpl. lia.
  - rewrite H3 by congruence. exists o. split_and!; [done|lia|lia].
Qed.

(** C20: internal matches never over-commit an order: however many requests are served
    between two refreshes of the book, the run does not panic and what an order has left is
    exactly what it had less the sum of the amounts matched against it, which never exceeds
    what it had. *)
Theorem matches_never_overcommit (pool_of : Uuid → MatchingPoolName) (e : MatchingEngine)
    (rqs : list MatchRequest) :
  reachable_engine pool_of e →
  ∃ log e', run_matches e rqs = Some (log, e') ∧
    ∀ pair pool i o, pool_order e pair pool i = Some o → 0 ≤ bo_matchable_amount o →
      ∃ o', pool_order e' pair pool i = Some o' ∧
        bo_matchable_amount o' = bo_matchable_amount o - committed pair pool i log ∧
        committed pair pool i log ≤ bo_matchable_amount o.
Proof.
  intros He%reachable_engine_coherent. apply proj1 in He. revert e He.
  induction rqs as [|rq rqs IH]; intros e Hok.
  { exists [], e. split; [done|]. intros pair pool i o Ho Hpos. exists o. simpl. split_and!; [done|lia|lia]. }
  destruct (find_match_takes e rq Hok) as (r & e1 & Hf & Hok1 & Htake).
  destruct (IH e1 Hok1) as (log & e2 & Hrun & Hlog).
  cbn [run_matches]. rewrite Hf. cbn [mbind option_bind]. rewrite Hrun. cbn [mbind option_bind].
  eexists _, _. split; [reflexivity|]. intros pair pool i o Ho Hpos.
  destruct (Htake pair pool i o Ho) as (o1 & Ho1 & Hm1 & Hb1). specialize (Hb1 Hpos).
  destruct (Hlog pair pool i o1 Ho1) as (o2 & Ho2 & Hm2 & Hb2); [lia|].
  exists o2. split; [done|]. destruct r as [m|]; simpl in *; lia.
Qed.

Lemma matches_never_overcommit_witness :
  let rq := mkMatchRequest 9 Ring2 (mkPair 2 1) (1, 15) "global" (mkTimestampedPriceFp one 0) in
  ∃ log e', run_matches sample_engine [rq; rq; rq; rq] = Some (log, e') ∧
    committed (mkPair 1 2) "global" 2 log ≤ 20.
Proof.
  intros rq.
  destruct (matches_never_overcommit (λ _, "global"%string) sample_engine [rq; rq; rq; rq]
    sample_engine_reachable) as (log & e' & Hrun & Hlog).
  exists log, e'. split; [exact Hrun|].
  destruct (pool_order sample_engine (mkPair 1 2) "global" 2) as [o|] eqn:Ho;
    [|vm_compute in Ho; discriminate Ho].
  assert (bo_matchable_amount o = 20) as Ha by (vm_compute in Ho; by injection Ho as <-).
  destruct (Hlog _ _ _ _ Ho) as (_ & _ & _ & H); [rewrite Ha; done|]. by rewrite Ha in H.
Defined.

(** The requested minimum is not guaranteed: the output range is rounded down and the
    input amount is rounded down again, so a match can ask the input party to pay less than
    the start of its range, below its order's minimum fill.  At price 3, a request for
    exactly 5 units is matched for 4. *)
Theorem match_below_input_minimum :
  ∃ (e : MatchingEngine) (range : Amount * Amount) (ts : TimestampedPriceFp)
    (m : SuccessfulMatch) (e' : MatchingEngine),
    reachable_engine (λ _, "global"%string) e ∧ price_ok (price ts) range ∧
    engine_find_match e 9 Ring2 (mkPair 2 1) range "global" ts = Some (Some m, e') ∧
    obligation_amount_in (party0_obligation (match_result m)) < range.1.
Proof.
  exists (upsert_order engine_new 7 (sample_order 1 20 zero) 20 "global"), (5, 5),
    (mkTimestampedPriceFp (from_integer 3) 0).
  destruct (engine_find_match (upsert_order engine_new 7 (sample_order 1 20 zero) 20 "global")
    9 Ring2 (mkPair 2 1) (5, 5) "global" (mkTimestampedPriceFp (from_integer 3) 0))
    as [[[m|] e']|] eqn:Hf; [|vm_compute in Hf; discriminate Hf..].
  exists m, e'. split_and!.
  - eapply reachable_engine_step; [apply reachable_engine_new|].
    apply (step_upsert (λ _, "global"%string)).
  - repeat split; vm_compute; done.
  - reflexivity.
  - vm_compute in Hf. injection Hf as <- _. vm_compute. done.
Qed.

(** Searching the all-pools book never does worse than searching a pool: if some pool has
    an external match, so does the all-pools book, with a counterparty whose matchable amount
    is at least as large, and without changing the engine. *)
Theorem all_pools_dominates (pool_of : Uuid → MatchingPoolName) (e : MatchingEngine)
    (ring : PrivacyRing) (input_pair : Pair) (range : Amount * Amount)
    (pool : MatchingPoolName) (ts : TimestampedPriceFp) (m : SuccessfulMatch)
    (e' : MatchingEngine) :
  reachable_engine pool_of e →
  find_match_external e ring input_pair range pool ts = Some (Some m, e') →
  e' = e ∧
  ∃ m', find_match_external_all_pools e ring input_pair range ts = Some (Some m') ∧
    (matchable_amount_bounds m).2 ≤ (matchable_amount_bounds m').2.
Proof.
  intros He%reachable_engine_coherent Hf. destruct He as (Hok & Hall & Hnone).
  destruct (find_match_helper_ok e 0 ring input_pair range pool ts true Hok)
    as (r & e'' & Hf' & Hspec).
  unfold find_match_external in Hf. rewrite Hf' in Hf. injection Hf as -> ->.
  destruct Hspec as (p & o & a & Hp & Ho & He & Ha & Hm & ->). split; [done|].
  assert (pool = pool_of (other_order_id m)) as ->.
  { destruct (decide (pool = pool_of (other_order_id m))) as [|Hne]; [done|].
    by rewrite Hnone in Ho. }
  rewrite <-Hall in Ho. unfold all_order in Ho.
  unfold find_match_external_all_pools. rewrite Hp.
  destruct (all_pools_book e !! pair_reverse input_pair) as [b|] eqn:Hb; [|done]. simpl in Ho.
  destruct (find_match_ok b 0 ring p (input_range_to_output_range range (price ts)) true)
    as (r & Hr & Hs); [destruct Hok as (_ & Hok & _); by apply (Hok _ _ Hb)|].
  rewrite Hr. cbn [mbind option_bind]. destruct r as [[[i a'] bounds]|];
    [|by rewrite (Hs _ _ Ho) in He].
  destruct Hs as (o' & Ho' & He' & Ha' & -> & Hbest).
  unfold build_match_result in Hm |- *. rewrite Hp in Hm |- *. cbn [mbind option_bind] in Hm |- *.
  eexists. split; [reflexivity|]. cbn [matchable_amount_bounds]. injection Hm as <-.
  cbn [matchable_amount_bounds snd other_order_id] in *.
  destruct (decide (other_order_id m = i)) as [Heq|Hne].
  - subst i. rewrite Ho in Ho'. injection Ho' as <-. lia.
  - pose proof (Hbest _ _ Ho He Hne) as Hlt. apply key_lt_iff in Hlt. simpl in Hlt. lia.
Qed.

Lemma all_pools_dominates_witness :
  ∃ m', find_match_external_all_pools sample_engine Ring2 (mkPair 2 1) (5, 12)
    (mkTimestampedPriceFp one 0) = Some (Some m').
Proof.
  destruct (find_match_external sample_engine Ring2 (mkPair 2 1) (5, 12) "global"
    (mkTimestampedPriceFp one 0)) as [[[m|] e']|] eqn:Hf; [|vm_compute in Hf; discriminate Hf..].
  destruct (all_pools_dominates (λ _, "global"%string) sample_engine Ring2 (mkPair 2 1) (5, 12)
    "global" (mkTimestampedPriceFp one 0) m e' sample_engine_reachable Hf) as (_ & m' & H & _).
  exists m'. exact H.
Defined.
