(* ===== verification/TaskTypes.v ===== *)
(** * Tasks

    src/crates/relayer-types/types-tasks/src/descriptors/mod.rs and history.rs.  A
    descriptor keeps the fields the state layer reads (the accounts it touches and what
    the history records); the rest of its payload is only read by the task driver. *)
From S2P Require Import Prelude Scalar FixedPoint DarkpoolTypes.
Local Open Scope Z_scope.

Abbreviation TaskIdentifier := Z (only parsing).
Abbreviation TaskQueueKey := Z (only parsing).

Inductive QueuedTaskState :=
| Queued
| Preemptive
| Running (state : string) (committed : bool)
| Completed
| Failed.
#[global] Instance QueuedTaskState_eq_dec : EqDecision QueuedTaskState.
Proof. solve_decision. Defined.

Definition is_running (s : QueuedTaskState) : bool :=
  match s with Running _ _ | Preemptive => true | _ => false end.
Definition is_committed (s : QueuedTaskState) : bool :=
  match s with Running _ true => true | _ => false end.

Inductive TaskDescriptor :=
| NewAccount (account_id : Uuid)
| NodeStartup (id : Uuid)
| Deposit (account_id : Uuid) (token : Address) (amount : Amount)
| CreateBalance (account_id : Uuid) (token : Address) (amount : Amount)
| CreateOrder (account_id : Uuid) (intent : Intent)
| CancelOrder (account_id : Uuid)
| RefreshAccount (account_id : Uuid)
| SettleInternalMatch (account_id other_account_id : Uuid)
| SettleExternalMatch (account_id : Uuid)
| SettlePrivateMatch (account_id other_account_id : Uuid)
| Withdraw (account_id : Uuid).
#[global] Instance TaskDescriptor_eq_dec : EqDecision TaskDescriptor.
Proof. solve_decision. Defined.

Definition queue_key (d : TaskDescriptor) : TaskQueueKey :=
  match d with
  | NewAccount a | NodeStartup a | Deposit a _ _ | CreateBalance a _ _ | CreateOrder a _
  | CancelOrder a | RefreshAccount a | SettleInternalMatch a _ | SettleExternalMatch a
  | SettlePrivateMatch a _ | Withdraw a => a
  end.

Definition is_yieldable (d : TaskDescriptor) : bool :=
  match d with CreateOrder _ _ | CancelOrder _ => true | _ => false end.

Definition affected_accounts (d : TaskDescriptor) : list Uuid :=
  match d with
  | NodeStartup _ => []
  | SettleInternalMatch a b | SettlePrivateMatch a b => [a; b]
  | NewAccount a | Deposit a _ _ | CreateBalance a _ _ | CreateOrder a _ | CancelOrder a
  | RefreshAccount a | SettleExternalMatch a | Withdraw a => [a]
  end.

Definition is_account_task (d : TaskDescriptor) : bool :=
  match d with NodeStartup _ => false | _ => true end.

Record QueuedTask := mkQueuedTask {
  task_id : TaskIdentifier;
  task_state : QueuedTaskState;
  task_descriptor : TaskDescriptor;
  task_created_at : Z;
}.
#[global] Instance QueuedTask_eq_dec : EqDecision QueuedTask.
Proof. solve_decision. Defined.

Definition set_state (s : QueuedTaskState) (t : QueuedTask) : QueuedTask :=
  mkQueuedTask (task_id t) s (task_descriptor t) (task_created_at t).

(** ** History *)

Inductive HistoricalTaskDescription :=
| HistNewAccount
| HistDeposit (account_id : Uuid) (token : Address) (amount : Amount)
| HistCreateBalance (account_id : Uuid) (token : Address) (amount : Amount)
| HistCreateOrder (account_id : Uuid) (token : Address) (amount : Amount)
| HistRefreshAccount (account_id : Uuid).

Record HistoricalTask := mkHistoricalTask {
  hist_id : TaskIdentifier;
  hist_state : QueuedTaskState;
  hist_created_at : Z;
  hist_task_info : HistoricalTaskDescription;
}.

Definition from_task_descriptor (d : TaskDescriptor) : option HistoricalTaskDescription :=
  match d with
  | NewAccount _ => Some HistNewAccount
  | CreateOrder a intent => Some (HistCreateOrder a (in_token intent) (amount_in intent))
  | Deposit a token amt => Some (HistDeposit a token amt)
  | CreateBalance a token amt => Some (HistCreateBalance a token amt)
  | RefreshAccount a => Some (HistRefreshAccount a)
  | CancelOrder _ | SettleInternalMatch _ _ | SettleExternalMatch _ | SettlePrivateMatch _ _
  | NodeStartup _ | Withdraw _ => None
  end.

Definition from_queued_task (t : QueuedTask) : option HistoricalTask :=
  info ← from_task_descriptor (task_descriptor t);
  Some (mkHistoricalTask (task_id t) (task_state t) (task_created_at t) info).
