(* ===== verification/TaskQueue.v ===== *)
(** * One task queue

    src/crates/state/src/storage/tx/task_queue/queue_type.rs: a queue of serial
    (exclusive) tasks and a set of concurrent (shared) tasks, with a preference for
    serial ones.  Mutating methods return the boolean of the source with the new queue.

    The theorems: the strong consistency of the preemption state is kept by every
    operation the storage layer accepts; the queue is a readers-writer lock (an
    exclusive task that may run is the only task that may run); and a task that may run
    can always be popped. *)
From S2P Require Import Prelude.
Local Open Scope Z_scope.

Definition MAX_CONCURRENT_TASKS : nat := 20.

Inductive TaskQueuePreemptionState :=
| NotPreempted
| SerialPreemptionQueued
| ConcurrentPreemptionsQueued.
#[global] Instance TaskQueuePreemptionState_eq_dec : EqDecision TaskQueuePreemptionState.
Proof. solve_decision. Defined.

Record TaskQueue := mkTaskQueue {
  concurrent_tasks : list Uuid;
  serial_tasks : list Uuid;
  preemption_state : TaskQueuePreemptionState;
}.
#[global] Instance TaskQueue_eq_dec : EqDecision TaskQueue.
Proof. solve_decision. Defined.

(** [TaskQueue::default()] *)
Definition queue_default : TaskQueue := mkTaskQueue [] [] NotPreempted.

Definition is_nil {A} (l : list A) : bool := match l with [] => true | _ => false end.

Definition check_preemption_state (q : TaskQueue) : bool :=
  match preemption_state q with
  | NotPreempted => is_nil (concurrent_tasks q)
  | ConcurrentPreemptionsQueued => negb (is_nil (concurrent_tasks q))
  | SerialPreemptionQueued => true
  end.

(** The error message, or nothing. *)
Definition check_invariants (q : TaskQueue) : option string :=
  if (MAX_CONCURRENT_TASKS <? length (concurrent_tasks q))%nat
  then Some "max concurrency reached for task queue"%string
  else if negb (check_preemption_state q)
  then Some "invalid preemption state for task queue"%string
  else None.

Definition can_preempt_serial (q : TaskQueue) : bool :=
  negb (bool_decide (preemption_state q = SerialPreemptionQueued)).
Definition can_preempt_concurrent (q : TaskQueue) : bool := is_nil (serial_tasks q).

Definition enqueue_serial_task (q : TaskQueue) (t : Uuid) : TaskQueue :=
  mkTaskQueue (concurrent_tasks q) (serial_tasks q ++ [t]) (preemption_state q).

Definition preempt_with_serial_task (q : TaskQueue) (t : Uuid) : bool * TaskQueue :=
  if negb (can_preempt_serial q) then (false, q)
  else (true, mkTaskQueue (concurrent_tasks q) (t :: serial_tasks q) SerialPreemptionQueued).

Definition preempt_with_concurrent_task (q : TaskQueue) (t : Uuid) : bool * TaskQueue :=
  if negb (can_preempt_concurrent q) then (false, q)
  else (true, mkTaskQueue (concurrent_tasks q ++ [t]) (serial_tasks q) ConcurrentPreemptionsQueued).

Definition pop_serial_task (q : TaskQueue) : bool * TaskQueue :=
  match preemption_state q with
  | ConcurrentPreemptionsQueued => (false, q)
  | SerialPreemptionQueued =>
      (true, mkTaskQueue (concurrent_tasks q) (tail (serial_tasks q)) NotPreempted)
  | NotPreempted =>
      (true, mkTaskQueue (concurrent_tasks q) (tail (serial_tasks q)) NotPreempted)
  end.

Definition pop_concurrent_task (q : TaskQueue) (idx : nat) : bool * TaskQueue :=
  match preemption_state q with
  | NotPreempted => (false, q)
  | SerialPreemptionQueued =>
      (true, mkTaskQueue (delete idx (concurrent_tasks q)) (serial_tasks q) SerialPreemptionQueued)
  | ConcurrentPreemptionsQueued =>
      let concurrent := delete idx (concurrent_tasks q) in
      (true, mkTaskQueue concurrent (serial_tasks q)
        (if is_nil concurrent then NotPreempted else ConcurrentPreemptionsQueued))
  end.

(** [iter().position(|t| t == id)] *)
Definition position (t : Uuid) (l : list Uuid) : option nat := fst <$> list_find (eq t) l.

Definition pop_task (q : TaskQueue) (t : Uuid) : bool * TaskQueue :=
  if bool_decide (head (serial_tasks q) = Some t) then pop_serial_task q
  else match position t (concurrent_tasks q) with
       | Some idx => pop_concurrent_task q idx
       | None => (false, q)
       end.

(** ** Archived views *)

Definition queue_is_empty (q : TaskQueue) : bool :=
  is_nil (concurrent_tasks q) && is_nil (serial_tasks q).
Definition all_tasks (q : TaskQueue) : list Uuid := concurrent_tasks q ++ serial_tasks q.

Definition can_task_run (q : TaskQueue) (t : Uuid) : bool :=
  let is_first_serial := bool_decide (head (serial_tasks q) = Some t) in
  if is_first_serial && is_nil (concurrent_tasks q) then true
  else bool_decide (t ∈ concurrent_tasks q).

Definition next_serial_task (q : TaskQueue) : option Uuid :=
  match head (serial_tasks q) with
  | Some t => if can_task_run q t then Some t else None
  | None => None
  end.

(** ** The invariant *)

(** Stronger than what the source checks: a serially preempted queue has its preemptive
    task. *)
Definition queue_ok (q : TaskQueue) : Prop :=
  (length (concurrent_tasks q) ≤ MAX_CONCURRENT_TASKS)%nat ∧
  match preemption_state q with
  | NotPreempted => concurrent_tasks q = []
  | ConcurrentPreemptionsQueued => concurrent_tasks q ≠ []
  | SerialPreemptionQueued => serial_tasks q ≠ []
  end.

Lemma is_nil_true {A} (l : list A) : is_nil l = true ↔ l = [].
Proof. by destruct l. Qed.
Lemma is_nil_false {A} (l : list A) : is_nil l = false ↔ l ≠ [].
Proof. by destruct l. Qed.

Lemma check_invariants_ok q :
  check_invariants q = None ↔
  (length (concurrent_tasks q) ≤ MAX_CONCURRENT_TASKS)%nat ∧
  match preemption_state q with
  | NotPreempted => concurrent_tasks q = []
  | ConcurrentPreemptionsQueued => concurrent_tasks q ≠ []
  | SerialPreemptionQueued => True
  end.
Proof.
  unfold check_invariants, check_preemption_state.
  destruct (Nat.ltb_spec MAX_CONCURRENT_TASKS (length (concurrent_tasks q))).
  { split; [done|]. intros [? _]. lia. }
  destruct (preemption_state q), (concurrent_tasks q); simpl in *; naive_solver.
Qed.

Lemma queue_default_ok : queue_ok queue_default.
Proof. split; [simpl; lia|done]. Qed.

Lemma can_task_run_iff q t :
  can_task_run q t = true ↔
  t ∈ concurrent_tasks q ∨ (concurrent_tasks q = [] ∧ head (serial_tasks q) = Some t).
Proof.
  unfold can_task_run. do 2 case_bool_decide; destruct (concurrent_tasks q); simpl; naive_solver.
Qed.

(** ** Operations *)

Lemma enqueue_serial_ok q t : queue_ok q → queue_ok (enqueue_serial_task q t).
Proof.
  intros [Hl Hs]. split; [done|]. simpl. destruct (preemption_state q); [done| |done].
  by destruct (serial_tasks q).
Qed.

Lemma preempt_serial_inv q t q' :
  preempt_with_serial_task q t = (true, q') →
  preemption_state q ≠ SerialPreemptionQueued ∧
  q' = mkTaskQueue (concurrent_tasks q) (t :: serial_tasks q) SerialPreemptionQueued.
Proof.
  unfold preempt_with_serial_task, can_preempt_serial. case_bool_decide; simpl; [done|].
  intros [= <-]. done.
Qed.

Lemma preempt_serial_ok q t q' :
  queue_ok q → preempt_with_serial_task q t = (true, q') → queue_ok q'.
Proof. intros [Hl _] [_ ->]%preempt_serial_inv. by split. Qed.

Lemma preempt_concurrent_inv q t q' :
  preempt_with_concurrent_task q t = (true, q') →
  serial_tasks q = [] ∧
  q' = mkTaskQueue (concurrent_tasks q ++ [t]) [] ConcurrentPreemptionsQueued.
Proof.
  unfold preempt_with_concurrent_task, can_preempt_concurrent.
  destruct (serial_tasks q); simpl; [|done]. by intros [= <-].
Qed.

Lemma preempt_concurrent_ok q t q' :
  preempt_with_concurrent_task q t = (true, q') → check_invariants q' = None → queue_ok q'.
Proof.
  intros [_ ->]%preempt_concurrent_inv [Hl Hs]%check_invariants_ok. by split.
Qed.

Lemma position_Some t l idx :
  position t l = Some idx → l !! idx = Some t.
Proof.
  unfold position. destruct (list_find (eq t) l) as [[i x]|] eqn:E; [|done].
  intros [= ->]. by apply list_find_Some in E as (? & -> & _).
Qed.

Lemma position_elem t l : t ∈ l → is_Some (position t l).
Proof.
  intros Hin. unfold position. destruct (list_find_elem_of (eq t) l t Hin eq_refl) as [? ->].
  by eexists.
Qed.

Lemma pop_serial_inv q q' t :
  head (serial_tasks q) = Some t → pop_serial_task q = (true, q') →
  preemption_state q ≠ ConcurrentPreemptionsQueued ∧
  q' = mkTaskQueue (concurrent_tasks q) (tail (serial_tasks q)) NotPreempted ∧
  all_tasks q ≡ₚ t :: all_tasks q'.
Proof.
  unfold pop_serial_task, all_tasks. intros Hh.
  destruct (preemption_state q); intros [= <-]; (split; [done|]); (split; [done|]); simpl;
    destruct (serial_tasks q); simplify_eq/=; by rewrite Permutation_middle.
Qed.

Lemma pop_concurrent_inv q q' t idx :
  concurrent_tasks q !! idx = Some t → pop_concurrent_task q idx = (true, q') →
  preemption_state q ≠ NotPreempted ∧ serial_tasks q' = serial_tasks q ∧
  concurrent_tasks q' = delete idx (concurrent_tasks q) ∧
  all_tasks q ≡ₚ t :: all_tasks q'.
Proof.
  unfold pop_concurrent_task, all_tasks. intros Hi.
  destruct (preemption_state q); intros [= <-]; (split; [done|]); (split; [done|]);
    (split; [done|]); simpl; by rewrite (delete_Permutation _ _ _ Hi) at 1.
Qed.

Lemma pop_task_inv q t q' :
  pop_task q t = (true, q') → all_tasks q ≡ₚ t :: all_tasks q'.
Proof.
  unfold pop_task. case_bool_decide as Hh; [intros H; by eapply pop_serial_inv in H as (_ & _ & H)|].
  destruct (position t (concurrent_tasks q)) as [idx|] eqn:Hp; [|done]. intros H.
  by eapply pop_concurrent_inv in H as (_ & _ & _ & H); [|by apply position_Some].
Qed.

Lemma pop_task_ok q t q' :
  queue_ok q → pop_task q t = (true, q') → check_invariants q' = None → queue_ok q'.
Proof.
  intros [Hl Hq]. unfold pop_task. case_bool_decide as Hh.
  - intros (_ & -> & _)%(pop_serial_inv _ _ _ Hh) [? ?]%check_invariants_ok. by split.
  - destruct (position t (concurrent_tasks q)) as [idx|]; [|done].
    unfold pop_concurrent_task. intros Hpop [Hl' Hc]%check_invariants_ok. split; [done|].
    destruct (preemption_state q) eqn:Hs; simplify_eq/=; [done|].
    by destruct (is_nil _); simpl in *.
Qed.

Lemma pop_task_progress q t :
  queue_ok q → NoDup (all_tasks q) → can_task_run q t = true →
  ∃ q', pop_task q t = (true, q') ∧ check_invariants q' = None.
Proof.
  intros [Hl Hq] Hnd Hrun%can_task_run_iff. unfold pop_task. case_bool_decide as Hh.
  - unfold pop_serial_task. destruct Hrun as [Hin|[Hc _]].
    { exfalso. unfold all_tasks in Hnd. apply NoDup_app in Hnd as (_ & Hd & _).
      apply (Hd t Hin). destruct (serial_tasks q); simplify_eq/=. by left. }
    destruct (preemption_state q); [| |by rewrite Hc in Hq];
      (eexists; split; [done|]); apply check_invariants_ok; simpl; rewrite Hc; simpl; split; [lia|done|lia|done].
  - destruct Hrun as [Hin|[_ ?]]; [|done].
    destruct (position_elem _ _ Hin) as [idx Hidx]. rewrite Hidx.
    pose proof (position_Some _ _ _ Hidx) as Hlk.
    assert (length (delete idx (concurrent_tasks q)) ≤ MAX_CONCURRENT_TASKS)%nat.
    { pose proof (length_delete (concurrent_tasks q) idx) as Hd.
      rewrite Hlk in Hd. specialize (Hd ltac:(by eexists)). lia. }
    unfold pop_concurrent_task. destruct (preemption_state q).
    + rewrite Hq in Hin. by apply not_elem_of_nil in Hin.
    + eexists. split; [done|]. by apply check_invariants_ok.
    + eexists. split; [done|]. apply check_invariants_ok. simpl. split; [done|].
      by destruct (delete idx (concurrent_tasks q)).
Qed.

(** ** Reachable queues *)

(** The mutations the storage layer makes to a queue: the operation succeeds and the
    queue it leaves passes the check of [write_task_queue].  Task ids are fresh. *)
Inductive queue_step : TaskQueue → TaskQueue → Prop :=
| qs_enqueue q t : t ∉ all_tasks q → queue_step q (enqueue_serial_task q t)
| qs_preempt_serial q t q' :
    t ∉ all_tasks q → preempt_with_serial_task q t = (true, q') →
    check_invariants q' = None → queue_step q q'
| qs_preempt_concurrent q t q' :
    t ∉ all_tasks q → preempt_with_concurrent_task q t = (true, q') →
    check_invariants q' = None → queue_step q q'
| qs_pop q t q' :
    pop_task q t = (true, q') → check_invariants q' = None → queue_step q q'
| qs_clear q : queue_step q queue_default.

Inductive reachable_queue : TaskQueue → Prop :=
| rq_default : reachable_queue queue_default
| rq_step q q' : reachable_queue q → queue_step q q' → reachable_queue q'.

Lemma queue_step_ok q q' :
  queue_ok q ∧ NoDup (all_tasks q) → queue_step q q' → queue_ok q' ∧ NoDup (all_tasks q').
Proof.
  intros [Hq Hnd]. destruct 1 as [q t Hf|q t q' Hf Hp Hc|q t q' Hf Hp Hc|q t q' Hp Hc|q].
  - split; [by apply enqueue_serial_ok|]. unfold all_tasks in *. simpl.
    rewrite app_assoc. apply NoDup_app. split_and!; [done| |apply NoDup_singleton].
    intros x Hx ->%list_elem_of_singleton. done.
  - split; [by eapply preempt_serial_ok|]. apply preempt_serial_inv in Hp as [_ ->].
    unfold all_tasks in *. simpl. rewrite <-Permutation_middle. by constructor.
  - split; [by eapply preempt_concurrent_ok|]. apply preempt_concurrent_inv in Hp as [Hs ->].
    unfold all_tasks in *. simpl. rewrite app_nil_r. rewrite Hs, app_nil_r in *.
    apply NoDup_app. split_and!; [done| |apply NoDup_singleton].
    intros x Hx ->%list_elem_of_singleton. done.
  - split; [by eapply pop_task_ok|]. apply pop_task_inv in Hp. rewrite Hp in Hnd.
    by apply NoDup_cons in Hnd as [_ ?].
  - split; [apply queue_default_ok|constructor].
Qed.

Lemma reachable_queue_ok q : reachable_queue q → queue_ok q ∧ NoDup (all_tasks q).
Proof.
  induction 1; [split; [apply queue_default_ok|constructor]|by eapply queue_step_ok].
Qed.

(** ** Properties *)

(** Every reachable queue is a readers-writer lock with write preference.  It holds at
    most [MAX_CONCURRENT_TASKS] shared tasks; a serially preempted queue has its preemptive
    task; two different tasks may run at once only if both are shared; a non-empty queue has
    a task that may run; a task that may run can be popped, which removes exactly that task;
    and no shared task is admitted while an exclusive one waits. *)
Theorem reachable_queue_lock (q : TaskQueue) :
  reachable_queue q →
  queue_ok q ∧
  (∀ t1 t2, can_task_run q t1 = true → can_task_run q t2 = true → t1 ≠ t2 →
    t1 ∈ concurrent_tasks q ∧ t2 ∈ concurrent_tasks q) ∧
  (all_tasks q ≠ [] → ∃ t, can_task_run q t = true) ∧
  (∀ t, can_task_run q t = true → ∃ q', pop_task q t = (true, q') ∧
    check_invariants q' = None ∧ all_tasks q ≡ₚ t :: all_tasks q') ∧
  (∀ t q', preempt_with_concurrent_task q t = (true, q') → serial_tasks q = []).
Proof.
  intros [Hq Hnd]%reachable_queue_ok. split_and!; [done| | | |].
  - intros t1 t2 [H1|[Hn1 H1]]%can_task_run_iff [H2|[Hn2 H2]]%can_task_run_iff Hne;
      [done|by rewrite Hn2 in H1; apply not_elem_of_nil in H1
      |by rewrite Hn1 in H2; apply not_elem_of_nil in H2|congruence].
  - intros Hne. destruct (concurrent_tasks q) as [|t ts] eqn:Hc.
    + unfold all_tasks in Hne. rewrite Hc in Hne. destruct (serial_tasks q) as [|t ts] eqn:Hs; [done|].
      exists t. apply can_task_run_iff. right. by rewrite Hs.
    + exists t. apply can_task_run_iff. left. rewrite Hc. by left.
  - intros t Hrun. destruct (pop_task_progress q t Hq Hnd Hrun) as (q' & Hp & Hc).
    exists q'. split_and!; [done|done|by apply pop_task_inv].
  - by intros t q' [? _]%preempt_concurrent_inv.
Qed.

Lemma reachable_queue_lock_witness :
  let q := mkTaskQueue [] [2; 1] SerialPreemptionQueued in
  reachable_queue q ∧ can_task_run q 2 = true ∧
  ∃ q', pop_task q 2 = (true, q') ∧ check_invariants q' = None ∧ all_tasks q ≡ₚ 2 :: all_tasks q'.
Proof.
  intros q.
  assert (reachable_queue q) as Hq.
  { eapply rq_step; [eapply rq_step; [apply rq_default|by apply (qs_enqueue _ 1), not_elem_of_nil]|].
    apply (qs_preempt_serial _ 2); [|done|done].
    by apply (bool_decide_unpack (2 ∉ [1])). }
  split; [done|]. split; [done|].
  by apply (reachable_queue_lock q Hq).
Defined.
