(* ===== verification/TaskStorage.v ===== *)
(** * Task queue storage

    src/crates/state/src/storage/tx/task_queue/storage.rs, with the task assignments and
    the task history (task_assignments.rs, task_history.rs) and the node metadata they
    read (node_metadata.rs).  The tables are maps; a write transaction is the state of the
    monad.  The database's own failures (I/O, decoding) are not modelled: every error here
    is one the source raises itself.

    The three feature flags of the source are compile-time constants that the tests
    override; they are a record of booleans here, [production_flags] being the shipped
    values. *)
From S2P Require Import Prelude Scalar TaskTypes TaskQueue.
Local Open Scope Z_scope.

Inductive StorageError :=
| NotFound (msg : string)
| TableDisabled (table : string)
| Other (msg : string)
| Rejected (msg : string).

Definition ERR_TASK_NOT_FOUND := Rejected "task not found".
Definition ERR_TASK_NOT_POPPED := Rejected "task not popped from queue".
Definition ERR_CANNOT_SERIALLY_PREEMPT := Rejected "serial preemption not allowed".
Definition ERR_PENDING_QUEUE_FULL := Rejected "serial preemption deferred-queue full".
Definition ERR_CANNOT_CONCURRENTLY_PREEMPT := Rejected "concurrent preemption not allowed".

Record FeatureFlags := mkFeatureFlags {
  settle_defer_enabled : bool;
  order_yield_enabled : bool;
  fairness_enabled : bool;
}.
Definition production_flags : FeatureFlags := mkFeatureFlags true true false.

Definition MAX_CONSECUTIVE_YIELDS : Z := 3.
Definition MAX_PENDING_PER_QUEUE : nat := 64.

Inductive PreemptOutcome := Preempted | Deferred.

Record PendingEntry := mkPendingEntry {
  entry_task : QueuedTask;
  target_keys : list TaskQueueKey;
  entry_seq : Z;
}.

(** Peer ids are opaque; they are only compared. *)
Abbreviation PeerId := Z (only parsing).

(** ** The tables *)

Record TaskDb := mkTaskDb {
  queues : gmap TaskQueueKey TaskQueue;
  tasks : gmap TaskIdentifier QueuedTask;
  task_to_queues : gmap TaskIdentifier (list TaskQueueKey);
  pending : gmap TaskQueueKey (list PendingEntry);
  pending_seq : option Z;
  yield_counts : gmap TaskQueueKey Z;
  assigned_tasks : gmap PeerId (gset TaskIdentifier);
  task_assignment : gmap TaskIdentifier PeerId;
  history_ids : gmap TaskQueueKey (list TaskIdentifier);
  history_items : gmap (TaskQueueKey * TaskIdentifier) HistoricalTask;
  peer_id : option PeerId;
  historical_state_enabled : option bool;
}.

Definition empty_task_db : TaskDb := mkTaskDb ∅ ∅ ∅ ∅ None ∅ ∅ ∅ ∅ ∅ None None.

Definition set_queues f (d : TaskDb) : TaskDb :=
  mkTaskDb (f (queues d)) (tasks d) (task_to_queues d) (pending d) (pending_seq d)
    (yield_counts d) (assigned_tasks d) (task_assignment d) (history_ids d) (history_items d)
    (peer_id d) (historical_state_enabled d).
Definition set_tasks f (d : TaskDb) : TaskDb :=
  mkTaskDb (queues d) (f (tasks d)) (task_to_queues d) (pending d) (pending_seq d)
    (yield_counts d) (assigned_tasks d) (task_assignment d) (history_ids d) (history_items d)
    (peer_id d) (historical_state_enabled d).
Definition set_task_to_queues f (d : TaskDb) : TaskDb :=
  mkTaskDb (queues d) (tasks d) (f (task_to_queues d)) (pending d) (pending_seq d)
    (yield_counts d) (assigned_tasks d) (task_assignment d) (history_ids d) (history_items d)
    (peer_id d) (historical_state_enabled d).
Definition set_pending f (d : TaskDb) : TaskDb :=
  mkTaskDb (queues d) (tasks d) (task_to_queues d) (f (pending d)) (pending_seq d)
    (yield_counts d) (assigned_tasks d) (task_assignment d) (history_ids d) (history_items d)
    (peer_id d) (historical_state_enabled d).
Definition set_pending_seq s (d : TaskDb) : TaskDb :=
  mkTaskDb (queues d) (tasks d) (task_to_queues d) (pending d) s
    (yield_counts d) (assigned_tasks d) (task_assignment d) (history_ids d) (history_items d)
    (peer_id d) (historical_state_enabled d).
Definition set_yield_counts f (d : TaskDb) : TaskDb :=
  mkTaskDb (queues d) (tasks d) (task_to_queues d) (pending d) (pending_seq d)
    (f (yield_counts d)) (assigned_tasks d) (task_assignment d) (history_ids d) (history_items d)
    (peer_id d) (historical_state_enabled d).
Definition set_assignments f g (d : TaskDb) : TaskDb :=
  mkTaskDb (queues d) (tasks d) (task_to_queues d) (pending d) (pending_seq d)
    (yield_counts d) (f (assigned_tasks d)) (g (task_assignment d)) (history_ids d)
    (history_items d) (peer_id d) (historical_state_enabled d).
Definition set_history f g (d : TaskDb) : TaskDb :=
  mkTaskDb (queues d) (tasks d) (task_to_queues d) (pending d) (pending_seq d)
    (yield_counts d) (assigned_tasks d) (task_assignment d) (f (history_ids d))
    (g (history_items d)) (peer_id d) (historical_state_enabled d).

(** A transaction on the task tables. *)
Abbreviation Txn := (M TaskDb StorageError) (only parsing).

(** ** Queries *)

Definition get_task_queue (key : TaskQueueKey) : Txn (option TaskQueue) :=
  gets (λ d, queues d !! key).
Definition get_task_queue_deserialized (key : TaskQueueKey) : Txn TaskQueue :=
  q ← get_task_queue key; mret (default queue_default q).

Definition is_queue_empty (key : TaskQueueKey) : Txn bool :=
  q ← get_task_queue key; mret (from_option queue_is_empty true q).
Definition concurrent_tasks_active (key : TaskQueueKey) : Txn bool :=
  q ← get_task_queue key; mret (from_option (λ q, negb (is_nil (concurrent_tasks q))) false q).
Definition serial_tasks_active (key : TaskQueueKey) : Txn bool :=
  q ← get_task_queue key; mret (from_option (λ q, negb (is_nil (serial_tasks q))) false q).

Definition get_task (id : TaskIdentifier) : Txn (option QueuedTask) := gets (λ d, tasks d !! id).

Definition next_runnable_task (key : TaskQueueKey) : Txn (option QueuedTask) :=
  q ← get_task_queue key;
  match q ≫= next_serial_task with
  | Some tid => get_task tid
  | None => mret None
  end.

Definition get_queue_keys_for_task (id : TaskIdentifier) : Txn (list TaskQueueKey) :=
  gets (λ d, default [] (task_to_queues d !! id)).

Definition is_queue_preemptable (key : TaskQueueKey) (serial : bool) : Txn bool :=
  q ← get_task_queue key;
  mret (from_option
    (λ q, if serial then can_preempt_serial q else can_preempt_concurrent q) true q).

(** Whether the task can run on one of its queues. *)
Definition can_run_on (id : TaskIdentifier) (key : TaskQueueKey) : Txn bool :=
  q ← get_task_queue key; mret (from_option (λ q, TaskQueue.can_task_run q id) false q).
Definition can_task_run (id : TaskIdentifier) : Txn bool :=
  keys ← get_queue_keys_for_task id;
  blocked ← any_m keys (λ key, ok ← can_run_on id key; mret (negb ok));
  mret (negb blocked).

Definition get_queued_tasks (key : TaskQueueKey) : Txn (list QueuedTask) :=
  gets (λ d, omap (λ id, tasks d !! id) (from_option all_tasks [] (queues d !! key))).

Definition is_serial_preemption_safe (key : TaskQueueKey) : Txn bool :=
  q ← get_task_queue key;
  match q with
  | None => mret true
  | Some q =>
      let can_preempt := can_preempt_serial q in
      match head (serial_tasks q) with
      | None => mret can_preempt
      | Some t =>
          task ← get_task t;
          task ← ok_or task ERR_TASK_NOT_FOUND;
          mret (can_preempt && negb (is_committed (task_state task)))
      end
  end.

Definition orphaned_preempt_head (key : TaskQueueKey) : Txn (option TaskIdentifier) :=
  q ← get_task_queue_deserialized key;
  if negb (bool_decide (preemption_state q = SerialPreemptionQueued)) then mret None else
  match head (serial_tasks q) with
  | None => mret None
  | Some head_id =>
      task ← get_task head_id;
      mret (t ← task; if is_committed (task_state t) then Some head_id else None)
  end.

Definition head_is_yieldable (key : TaskQueueKey) : Txn bool :=
  q ← get_task_queue key;
  match q ≫= λ q, head (serial_tasks q) with
  | None => mret false
  | Some t =>
      task ← get_task t;
      task ← ok_or task ERR_TASK_NOT_FOUND;
      mret (is_committed (task_state task) && is_yieldable (task_descriptor task))
  end.

Definition yield_count (key : TaskQueueKey) : Txn Z :=
  gets (λ d, default 0 (yield_counts d !! key)).

Definition get_pending_preempt_list (key : TaskQueueKey) : Txn (list PendingEntry) :=
  gets (λ d, default [] (pending d !! key)).

(** [min_by_key(|e| e.seq)]: the first entry with the least key. *)
Fixpoint min_entry (l : list PendingEntry) : option PendingEntry :=
  match l with
  | [] => None
  | e :: l' =>
      match min_entry l' with
      | Some e' => if entry_seq e' <? entry_seq e then Some e' else Some e
      | None => Some e
      end
  end.
Definition pending_preempt_head (key : TaskQueueKey) : Txn (option PendingEntry) :=
  l ← get_pending_preempt_list key; mret (min_entry l).
Definition has_pending_preemption (key : TaskQueueKey) : Txn bool :=
  l ← get_pending_preempt_list key; mret (negb (is_nil l)).
Definition is_pending_head (entry : PendingEntry) (key : TaskQueueKey) : Txn bool :=
  h ← pending_preempt_head key;
  mret (from_option (λ e, entry_seq e =? entry_seq entry) false h).

(** ** Helpers of the mutations *)

Definition write_task_queue (key : TaskQueueKey) (q : TaskQueue) : Txn unit :=
  match check_invariants q with
  | Some msg => throw (Rejected msg)
  | None => modify (set_queues <[key := q]>)
  end.

Definition update_task (id : TaskIdentifier) (task : QueuedTask) : Txn unit :=
  modify (set_tasks <[id := task]>).
Definition update_task_to_queues (id : TaskIdentifier) (keys : list TaskQueueKey) : Txn unit :=
  modify (set_task_to_queues <[id := keys]>).
Definition write_task (id : TaskIdentifier) (keys : list TaskQueueKey) (task : QueuedTask)
    : Txn unit :=
  update_task id task;; update_task_to_queues id keys.

Definition next_pending_seq : Txn Z :=
  cur ← gets (λ d, default 0 (pending_seq d));
  let next := u64_add cur 1 in
  modify (set_pending_seq (Some next));;
  mret next.

Definition append_pending_preemption (key : TaskQueueKey) (entry : PendingEntry) : Txn unit :=
  l ← get_pending_preempt_list key;
  modify (set_pending <[key := l ++ [entry]]>).

Definition remove_entry_from (entry : PendingEntry) (key : TaskQueueKey) : Txn unit :=
  l ← get_pending_preempt_list key;
  let l' := filter (λ e, entry_seq e ≠ entry_seq entry) l in
  if is_nil l' then modify (set_pending (delete key))
  else modify (set_pending <[key := l']>).
Definition remove_pending_preemption_entry (entry : PendingEntry) : Txn unit :=
  for_each (target_keys entry) (remove_entry_from entry).

Definition delete_pending_preemption (key : TaskQueueKey) : Txn unit :=
  l ← get_pending_preempt_list key;
  for_each l remove_pending_preemption_entry;;
  modify (set_pending (delete key)).

Definition bump_yield_count (key : TaskQueueKey) : Txn unit :=
  c ← yield_count key; modify (set_yield_counts <[key := c + 1]>).
Definition reset_yield_count (key : TaskQueueKey) : Txn unit :=
  modify (set_yield_counts (delete key)).

Definition requeue_task (id : TaskIdentifier) : Txn unit :=
  task ← get_task id;
  match task with
  | Some t => update_task id (set_state Queued t)
  | None => mret tt
  end.

Definition delete_task (id : TaskIdentifier) : Txn (option QueuedTask) :=
  task ← get_task id;
  modify (set_tasks (delete id));;
  modify (set_task_to_queues (delete id));;
  mret task.

(** ** Mutations *)

Definition enqueue_serial_task (key : TaskQueueKey) (task : QueuedTask) : Txn unit :=
  q ← get_task_queue_deserialized key;
  write_task_queue key (TaskQueue.enqueue_serial_task q (task_id task));;
  write_task (task_id task) [key] task.

(** One turn of the loop of [do_preempt_serial_inner]. *)
Definition preempt_serial_on (id : TaskIdentifier) (allow_yield : bool) (key : TaskQueueKey)
    : Txn unit :=
  safe ← is_serial_preemption_safe key;
  allowed ←
    (if (safe : bool) then mret true
     else if allow_yield then head_is_yieldable key else mret false);
  ensure allowed ERR_CANNOT_SERIALLY_PREEMPT;;
  q ← get_task_queue_deserialized key;
  match head (serial_tasks q) with Some t => requeue_task t | None => mret tt end;;
  let '(preempted, q') := preempt_with_serial_task q id in
  ensure preempted ERR_CANNOT_SERIALLY_PREEMPT;;
  write_task_queue key q'.
Definition do_preempt_serial_inner (keys : list TaskQueueKey) (task : QueuedTask)
    (allow_yield : bool) : Txn unit :=
  for_each keys (preempt_serial_on (task_id task) allow_yield);;
  write_task (task_id task) keys task.

Definition do_preempt_serial (keys : list TaskQueueKey) (task : QueuedTask) : Txn unit :=
  do_preempt_serial_inner keys task false.

Definition preempt_concurrent_on (id : TaskIdentifier) (key : TaskQueueKey) : Txn unit :=
  q ← get_task_queue_deserialized key;
  let '(preempted, q') := preempt_with_concurrent_task q id in
  ensure preempted ERR_CANNOT_CONCURRENTLY_PREEMPT;;
  write_task_queue key q'.
Definition preempt_queue_with_concurrent (keys : list TaskQueueKey) (task : QueuedTask)
    : Txn unit :=
  for_each keys (preempt_concurrent_on (task_id task));;
  write_task (task_id task) keys task.

Definition pop_from (id : TaskIdentifier) (key : TaskQueueKey) : Txn unit :=
  q ← get_task_queue_deserialized key;
  let '(popped, q') := TaskQueue.pop_task q id in
  ensure popped ERR_TASK_NOT_POPPED;;
  write_task_queue key q'.
Definition pop_task (id : TaskIdentifier) : Txn (option QueuedTask) :=
  keys ← get_queue_keys_for_task id;
  for_each keys (pop_from id);;
  delete_task id.

(** Delete the tasks, collecting those that existed. *)
Fixpoint delete_tasks (ids : list TaskIdentifier) : Txn (list QueuedTask) :=
  match ids with
  | [] => mret []
  | id :: ids' =>
      task ← delete_task id;
      rest ← delete_tasks ids';
      mret (match task with Some t => t :: rest | None => rest end)
  end.

Definition clear_task_queue (key : TaskQueueKey) : Txn (list QueuedTask) :=
  q ← get_task_queue key;
  all ← delete_tasks (from_option all_tasks [] q);
  delete_pending_preemption key;;
  write_task_queue key queue_default;;
  mret all.

Definition transition_task (id : TaskIdentifier) (new_state : QueuedTaskState) : Txn unit :=
  task ← get_task id;
  task ← ok_or task ERR_TASK_NOT_FOUND;
  update_task id (set_state new_state task).

Section Flags.
Context (flags : FeatureFlags).

(** The committed head of the queue may be yielded within its fairness budget. *)
Definition yield_allowed (key : TaskQueueKey) : Txn bool :=
  if order_yield_enabled flags then
    y ← head_is_yieldable key;
    if (y : bool) then c ← yield_count key; mret (c <? MAX_CONSECUTIVE_YIELDS) else mret false
  else mret false.

(** First pass: the queue can be neither preempted nor yielded. *)
Definition hard_blocked (key : TaskQueueKey) : Txn bool :=
  safe ← is_serial_preemption_safe key;
  if (safe : bool) then mret false else y ← yield_allowed key; mret (negb y).

Definition bump_yielded (key : TaskQueueKey) : Txn unit :=
  y ← head_is_yieldable key; if (y : bool) then bump_yield_count key else mret tt.

Definition reset_exhausted (key : TaskQueueKey) : Txn unit :=
  y ← head_is_yieldable key;
  if (y : bool) then
    c ← yield_count key;
    if MAX_CONSECUTIVE_YIELDS <=? c then reset_yield_count key else mret tt
  else mret tt.

Definition check_pending_depth (key : TaskQueueKey) : Txn unit :=
  l ← get_pending_preempt_list key;
  ensure (length l <? MAX_PENDING_PER_QUEUE)%nat ERR_PENDING_QUEUE_FULL.

(** Record the preemption as pending on every queue. *)
Definition defer_preemption (keys : list TaskQueueKey) (task : QueuedTask) : Txn unit :=
  for_each keys check_pending_depth;;
  seq ← next_pending_seq;
  let entry := mkPendingEntry task keys seq in
  for_each keys (λ key, append_pending_preemption key entry).

Definition preempt_queue_with_serial (keys : list TaskQueueKey) (task : QueuedTask)
    : Txn PreemptOutcome :=
  blocked ← any_m keys hard_blocked;
  fairness_defer ←
    (if fairness_enabled flags && settle_defer_enabled flags
     then any_m keys has_pending_preemption else mret false);
  if negb blocked && negb (fairness_defer : bool) then
    (if order_yield_enabled flags then for_each keys bump_yielded else mret tt);;
    do_preempt_serial_inner keys task (order_yield_enabled flags);;
    mret Preempted
  else
    (if order_yield_enabled flags then for_each keys reset_exhausted else mret tt);;
    ensure (settle_defer_enabled flags) ERR_CANNOT_SERIALLY_PREEMPT;;
    defer_preemption keys task;;
    mret Deferred.
End Flags.

(** ** Task assignments (task_assignments.rs) *)

(** The cursor walks the peer's keys in string order, which for hyphenated lower-case
    uuids is numeric order. *)
Definition get_assigned_tasks (peer : PeerId) : Txn (list TaskIdentifier) :=
  gets (λ d, merge_sort (≤) (elements (default ∅ (assigned_tasks d !! peer)))).

Definition get_task_assignment (id : TaskIdentifier) : Txn (option PeerId) :=
  gets (λ d, task_assignment d !! id).

Definition add_to (peer : PeerId) (id : TaskIdentifier) (m : gmap PeerId (gset TaskIdentifier))
    : gmap PeerId (gset TaskIdentifier) := <[peer := {[id]} ∪ default ∅ (m !! peer)]> m.
Definition remove_from (peer : PeerId) (id : TaskIdentifier)
    (m : gmap PeerId (gset TaskIdentifier)) : gmap PeerId (gset TaskIdentifier) :=
  <[peer := default ∅ (m !! peer) ∖ {[id]}]> m.

Definition add_assigned_task (peer : PeerId) (id : TaskIdentifier) : Txn unit :=
  modify (set_assignments (add_to peer id) <[id := peer]>).
Definition remove_assigned_task (peer : PeerId) (id : TaskIdentifier) : Txn unit :=
  modify (set_assignments (remove_from peer id) (delete id)).
Definition reassign_tasks (from to : PeerId) : Txn (list TaskIdentifier) :=
  ids ← get_assigned_tasks from;
  for_each ids (λ id,
    modify (set_assignments (λ m, add_to to id (remove_from from id m)) <[id := to]>));;
  mret ids.

(** ** Node metadata (node_metadata.rs) *)

Definition get_peer_id : Txn PeerId :=
  p ← gets peer_id; ok_or p (NotFound "peer-id").
Definition get_historical_state_enabled : Txn bool :=
  e ← gets historical_state_enabled; ok_or e (NotFound "historical-state-enabled").

(** ** Task history (task_history.rs) *)

Definition check_task_history_enabled : Txn unit :=
  e ← gets historical_state_enabled; ensure (default false e) (TableDisabled "task-history").
Definition get_task_ids_in_history (key : TaskQueueKey) : Txn (option (list TaskIdentifier)) :=
  check_task_history_enabled;; gets (λ d, history_ids d !! key).
Definition created_desc (t1 t2 : HistoricalTask) : Prop := hist_created_at t2 ≤ hist_created_at t1.
#[global] Instance created_desc_dec t1 t2 : Decision (created_desc t1 t2).
Proof. unfold created_desc. apply _. Defined.
Definition get_task_history (key : TaskQueueKey) : Txn (list HistoricalTask) :=
  ids ← get_task_ids_in_history key;
  gets (λ d, merge_sort created_desc
    (omap (λ id, history_items d !! (key, id)) (default [] ids))).
Definition get_truncated_task_history (n : nat) (key : TaskQueueKey) : Txn (list HistoricalTask) :=
  ts ← get_task_history key; mret (take n ts).
Definition append_task_to_history (key : TaskQueueKey) (t : HistoricalTask) : Txn unit :=
  check_task_history_enabled;;
  modify (set_history id <[(key, hist_id t) := t]>);;
  ids ← get_task_ids_in_history key;
  modify (set_history <[key := hist_id t :: default [] ids]> id).
Definition purge_task_history (key : TaskQueueKey) : Txn unit :=
  ids ← get_task_ids_in_history key;
  for_each (default [] ids) (λ i, modify (set_history id (delete (key, i))));;
  modify (set_history (delete key) id).
