(* ===== verification/TaskStorageSpec.v ===== *)
(** * Properties of the task queue storage

    The invariants of the task tables and how every storage operation of [TaskStorage]
    acts on them: the stored queues are consistent, the task index points into the queues,
    the pending preemptions form a FIFO that the same entry occupies in all its queues, and
    the yield budget is respected. *)
From S2P Require Import Prelude Scalar TaskTypes TaskQueue TaskStorage.
Local Open Scope Z_scope.

(** ** Invariants of the tables *)

Definition queues_ok (d : TaskDb) : Prop := map_Forall (λ _, queue_ok) (queues d).

Definition in_queue (d : TaskDb) (k : TaskQueueKey) (id : TaskIdentifier) : Prop :=
  ∃ q, queues d !! k = Some q ∧ id ∈ all_tasks q.

Record index_ok (d : TaskDb) : Prop := mkIndexOk {
  ix_dom : ∀ id, is_Some (tasks d !! id) ↔ is_Some (task_to_queues d !! id);
  ix_id : ∀ id t, tasks d !! id = Some t → task_id t = id;
  ix_queue : ∀ id ks k, task_to_queues d !! id = Some ks → k ∈ ks → in_queue d k id;
}.

Definition pend (d : TaskDb) (k : TaskQueueKey) : list PendingEntry := default [] (pending d !! k).
Definition counter (d : TaskDb) : Z := default 0 (pending_seq d).
Definition seq_lt (e1 e2 : PendingEntry) : Prop := entry_seq e1 < entry_seq e2.

Record pending_ok (d : TaskDb) : Prop := mkPendingOk {
  pn_sorted : ∀ k, StronglySorted seq_lt (pend d k);
  pn_seq : ∀ k e, e ∈ pend d k → 0 < entry_seq e ≤ counter d;
  pn_targets : ∀ k k' e, e ∈ pend d k → k' ∈ target_keys e ↔ e ∈ pend d k';
  pn_unique : ∀ k k' e e', e ∈ pend d k → e' ∈ pend d k' → entry_seq e = entry_seq e' → e = e';
  pn_depth : ∀ k, (length (pend d k) ≤ MAX_PENDING_PER_QUEUE)%nat;
  pn_counter : 0 ≤ counter d;
}.

Definition ycount (d : TaskDb) (k : TaskQueueKey) : Z := default 0 (yield_counts d !! k).
Definition yields_ok (d : TaskDb) : Prop := ∀ k, 0 ≤ ycount d k ≤ MAX_CONSECUTIVE_YIELDS.

(** Every task outside [X] that has a record is assigned, and listed by its peer. *)
Definition live_assigned (X : gset TaskIdentifier) (d : TaskDb) : Prop :=
  ∀ id, id ∉ X → is_Some (tasks d !! id) →
  ∃ p, task_assignment d !! id = Some p ∧ id ∈ (default ∅ (assigned_tasks d !! p) : gset _).

(** ** Frames: which tables an operation leaves alone *)

Definition frame_queues (d d' : TaskDb) : Prop := d' = set_queues (λ _, queues d') d.
Definition frame_tasks (d d' : TaskDb) : Prop :=
  d' = set_queues (λ _, queues d') (set_tasks (λ _, tasks d') d).
Definition frame_index (d d' : TaskDb) : Prop :=
  d' = set_queues (λ _, queues d') (set_tasks (λ _, tasks d')
         (set_task_to_queues (λ _, task_to_queues d') d)).
Definition frame_pending (d d' : TaskDb) : Prop := d' = set_pending (λ _, pending d') d.
Definition frame_yields (d d' : TaskDb) : Prop := d' = set_yield_counts (λ _, yield_counts d') d.

Ltac solve_frame :=
  unfold frame_queues, frame_tasks, frame_index, frame_pending, frame_yields;
  first [ by intros []
        | intros ??? H1 H2; etrans; [exact H2|]; rewrite H1 at 1; reflexivity
        | intros ?? H1; rewrite H1; reflexivity ].

#[global] Instance frame_queues_preorder : PreOrder frame_queues.
Proof. split; solve_frame. Qed.
#[global] Instance frame_tasks_preorder : PreOrder frame_tasks.
Proof. split; solve_frame. Qed.
#[global] Instance frame_index_preorder : PreOrder frame_index.
Proof. split; solve_frame. Qed.
#[global] Instance frame_pending_preorder : PreOrder frame_pending.
Proof. split; solve_frame. Qed.
#[global] Instance frame_yields_preorder : PreOrder frame_yields.
Proof. split; solve_frame. Qed.

Lemma frame_queues_tasks d d' : frame_queues d d' → frame_tasks d d'.
Proof. revert d d'. solve_frame. Qed.
Lemma frame_tasks_index d d' : frame_tasks d d' → frame_index d d'.
Proof. revert d d'. solve_frame. Qed.

(** ** Queries only read *)

Ltac solve_reads :=
  repeat first
    [ assumption
    | apply reads_ret | apply reads_gets | apply reads_throw | apply reads_ok_or
    | apply reads_ensure
    | apply reads_any_m; intros ?
    | apply reads_bind; [|intros ?]
    | match goal with |- reads (match ?x with _ => _ end) => destruct x end
    | match goal with |- reads (let '(_, _) := ?x in _) => destruct x end ].

Lemma reads_is_serial_preemption_safe k : reads (is_serial_preemption_safe k).
Proof. unfold is_serial_preemption_safe, get_task_queue, get_task. solve_reads. Qed.
Lemma reads_head_is_yieldable k : reads (head_is_yieldable k).
Proof. unfold head_is_yieldable, get_task_queue, get_task. solve_reads. Qed.
Lemma reads_yield_allowed flags k : reads (yield_allowed flags k).
Proof.
  unfold yield_allowed, yield_count. pose proof (reads_head_is_yieldable k). solve_reads.
Qed.
Lemma reads_hard_blocked flags k : reads (hard_blocked flags k).
Proof.
  unfold hard_blocked. pose proof (reads_is_serial_preemption_safe k).
  pose proof (reads_yield_allowed flags k). solve_reads.
Qed.
Lemma reads_has_pending k : reads (has_pending_preemption k).
Proof. unfold has_pending_preemption, get_pending_preempt_list. solve_reads. Qed.
Lemma reads_is_pending_head e k : reads (is_pending_head e k).
Proof.
  unfold is_pending_head, pending_preempt_head, get_pending_preempt_list. solve_reads.
Qed.
Lemma reads_can_task_run id : reads (can_task_run id).
Proof.
  unfold can_task_run, can_run_on, get_queue_keys_for_task, get_task_queue. solve_reads.
Qed.
Lemma reads_next_runnable_task k : reads (next_runnable_task k).
Proof. unfold next_runnable_task, get_task_queue, get_task. solve_reads. Qed.
Lemma reads_check_pending_depth k : reads (check_pending_depth k).
Proof. unfold check_pending_depth, get_pending_preempt_list. solve_reads. Qed.
#[export] Hint Resolve reads_is_serial_preemption_safe reads_head_is_yieldable
  reads_yield_allowed reads_hard_blocked reads_has_pending reads_is_pending_head
  reads_can_task_run reads_next_runnable_task reads_check_pending_depth : relayer.

(** Use that a query in the context left the state alone. *)
Ltac read_step :=
  match goal with
  | H : ?m ?s = (Ok _, ?s') |- _ =>
      lazymatch s' with s => fail | _ => idtac end;
      let E := fresh in assert (s' = s) as E by (eapply reads_Ok; [|exact H]; solve [auto with relayer]);
      subst s'
  end.

(** ** Queues and the task index *)

(** Going from [d] to [d'], no queue loses a task other than [id]. *)
Definition queue_sub (id : TaskIdentifier) (d d' : TaskDb) : Prop :=
  ∀ k x, x ≠ id → in_queue d k x → in_queue d' k x.

(** The same tasks have a record. *)
Definition same_ids (d d' : TaskDb) : Prop :=
  ∀ x, task_id <$> tasks d' !! x = task_id <$> tasks d !! x.

#[global] Instance queue_sub_preorder id : PreOrder (queue_sub id).
Proof. split; [by intros d k x|]. intros d1 d2 d3 H1 H2 k x ??. by apply H2, H1. Qed.
#[global] Instance same_ids_preorder : PreOrder same_ids.
Proof. split; [by intros d x|]. intros d1 d2 d3 H1 H2 x. by rewrite (H2 x), (H1 x). Qed.

Lemma same_ids_is_Some d d' x :
  same_ids d d' → is_Some (tasks d' !! x) ↔ is_Some (tasks d !! x).
Proof. intros H. by rewrite <-!(fmap_is_Some task_id), (H x). Qed.

Lemma write_task_queue_inv k q d u d' :
  write_task_queue k q d = (Ok u, d') →
  check_invariants q = None ∧ d' = set_queues <[k := q]> d.
Proof. unfold write_task_queue. destruct (check_invariants q); [done|]. by intros [= <- <-]. Qed.

Lemma queues_ok_lookup d k : queues_ok d → queue_ok (default queue_default (queues d !! k)).
Proof.
  intros H. destruct (queues d !! k) as [q|] eqn:E; [by apply H in E|apply queue_default_ok].
Qed.

Lemma queues_ok_insert d k q : queues_ok d → queue_ok q → queues_ok (set_queues <[k := q]> d).
Proof. intros. by apply map_Forall_insert_2. Qed.

(** Writing a queue that keeps the tasks other than [id]. *)
Lemma queue_sub_insert id d k q :
  (∀ x, x ≠ id → x ∈ all_tasks (default queue_default (queues d !! k)) → x ∈ all_tasks q) →
  queue_sub id d (set_queues <[k := q]> d).
Proof.
  intros Hsub k' x Hne (q0 & Hq & Hx). unfold in_queue. simpl.
  destruct (decide (k' = k)) as [->|]; simplify_map_eq; [|by exists q0].
  exists q. split; [done|]. apply Hsub; [done|]. by simplify_map_eq.
Qed.

Lemma in_queue_insert d k q x : x ∈ all_tasks q → in_queue (set_queues <[k := q]> d) k x.
Proof. intros. exists q. simpl. by simplify_map_eq. Qed.

(** Recording a task against queues that hold it. *)
Lemma index_ok_write d d' id ks task :
  index_ok d → task_to_queues d' = task_to_queues d → queue_sub id d d' → same_ids d d' →
  task_id task = id → (∀ k, k ∈ ks → in_queue d' k id) →
  index_ok (set_task_to_queues <[id := ks]> (set_tasks <[id := task]> d')).
Proof.
  intros [Hdom Hid Hq] Ht Hsub Hs Htid Hks. split; simpl.
  - intros x. destruct (decide (x = id)) as [->|]; simplify_map_eq; [by rewrite !is_Some_alt|].
    by rewrite Ht, (same_ids_is_Some _ _ _ Hs).
  - intros x t. destruct (decide (x = id)) as [->|]; simplify_map_eq; [by intros [= <-]|].
    intros Hx. specialize (Hs x). rewrite Hx in Hs. simpl in Hs.
    symmetry in Hs. apply fmap_Some in Hs as (t0 & Ht0 & ->). by apply Hid in Ht0.
  - intros x l k. rewrite Ht. destruct (decide (x = id)) as [->|]; simplify_map_eq.
    { intros [= <-]. apply Hks. }
    intros Hx Hk. by apply Hsub, (Hq _ _ _ Hx).
Qed.

(** Forgetting a task. *)
Lemma index_ok_forget d d' id :
  index_ok d → tasks d' = delete id (tasks d) → task_to_queues d' = delete id (task_to_queues d) →
  queue_sub id d d' → index_ok d'.
Proof.
  intros [Hdom Hid Hq] Ht Htq Hsub. split; intros x; rewrite ?Ht, ?Htq.
  - destruct (decide (x = id)) as [->|]; simplify_map_eq; [|done].
    by split; intros [? ?].
  - intros t (_ & ?)%lookup_delete_Some. by apply Hid.
  - intros ks k (? & Hx)%lookup_delete_Some Hk. apply Hsub; [done|]. by apply (Hq _ _ _ Hx).
Qed.

Lemma index_ok_same d d' :
  index_ok d → task_to_queues d' = task_to_queues d → queues d' = queues d → same_ids d d' →
  index_ok d'.
Proof.
  intros [Hdom Hid Hq] Ht Hqs Hs. split; intros x.
  - by rewrite Ht, (same_ids_is_Some _ _ _ Hs).
  - intros t Hx. specialize (Hs x). rewrite Hx in Hs. simpl in Hs.
    symmetry in Hs. apply fmap_Some in Hs as (t0 & Ht0 & ->). by apply Hid in Ht0.
  - intros ks k. rewrite Ht. intros Hx Hk. destruct (Hq _ _ _ Hx Hk) as (q & ? & ?).
    exists q. by rewrite Hqs.
Qed.

(** *** Enqueueing *)

Lemma enqueue_serial_task_inv k task d u d' :
  enqueue_serial_task k task d = (Ok u, d') →
  d' = set_task_to_queues <[task_id task := [k]]> (set_tasks <[task_id task := task]>
         (set_queues <[k := TaskQueue.enqueue_serial_task
                              (default queue_default (queues d !! k)) (task_id task)]> d)).
Proof.
  unfold enqueue_serial_task, write_task, update_task, update_task_to_queues,
    get_task_queue_deserialized, get_task_queue. intros H.
  inv_ok. match goal with H : write_task_queue _ _ _ = _ |- _ => apply write_task_queue_inv in H as [_ ->] end.
  done.
Qed.

Lemma enqueue_serial_task_ok k task d u d' :
  queues_ok d → index_ok d → enqueue_serial_task k task d = (Ok u, d') →
  queues_ok d' ∧ index_ok d'.
Proof.
  intros Hq Hi ->%enqueue_serial_task_inv. split.
  - apply (queues_ok_insert d); [done|]. by apply enqueue_serial_ok, queues_ok_lookup.
  - eapply (index_ok_write d); [done|done| |by intros x|done|].
    + apply queue_sub_insert. intros x _. unfold all_tasks. simpl. set_solver.
    + intros k' ->%list_elem_of_singleton. apply in_queue_insert. unfold all_tasks. simpl. set_solver.
Qed.

(** *** Serial preemption *)

Definition queue_at (d : TaskDb) (k : TaskQueueKey) : TaskQueue :=
  default queue_default (queues d !! k).
Definition head_at (d : TaskDb) (k : TaskQueueKey) : option TaskIdentifier :=
  head (serial_tasks (queue_at d k)).

Definition preempted_queue (id : TaskIdentifier) (q : TaskQueue) : TaskQueue :=
  mkTaskQueue (concurrent_tasks q) (id :: serial_tasks q) SerialPreemptionQueued.

(** The head of a queue may be displaced: it has not committed, or it may yield. *)
Definition displaceable (allow_yield : bool) (d : TaskDb) (t : TaskIdentifier) : Prop :=
  ∃ task, tasks d !! t = Some task ∧
    (is_committed (task_state task) = true →
     allow_yield = true ∧ is_yieldable (task_descriptor task) = true).

Lemma is_serial_preemption_safe_inv k d b d' :
  is_serial_preemption_safe k d = (Ok b, d') →
  match head_at d k with
  | None => b = can_preempt_serial (queue_at d k)
  | Some t => ∃ task, tasks d !! t = Some task ∧
      b = can_preempt_serial (queue_at d k) && negb (is_committed (task_state task))
  end.
Proof.
  unfold is_serial_preemption_safe, get_task_queue, get_task, head_at, queue_at. intros H. inv_ok.
  destruct (queues d !! k) as [q|]; simpl in *; inv_ok; [|done].
  destruct (head (serial_tasks q)); inv_ok; eauto.
Qed.

Lemma head_is_yieldable_inv k d b d' :
  head_is_yieldable k d = (Ok b, d') →
  match head_at d k with
  | None => b = false
  | Some t => ∃ task, tasks d !! t = Some task ∧
      b = is_committed (task_state task) && is_yieldable (task_descriptor task)
  end.
Proof.
  unfold head_is_yieldable, get_task_queue, get_task, head_at, queue_at. intros H. inv_ok.
  destruct (queues d !! k) as [q|]; simpl in *; inv_ok; [|done].
  destruct (head (serial_tasks q)); inv_ok; eauto.
Qed.

Definition requeued (o : option TaskIdentifier) (m : gmap TaskIdentifier QueuedTask) :=
  match o with Some t => alter (set_state Queued) t m | None => m end.

Lemma requeue_head_inv (o : option TaskIdentifier) d u d' :
  match o with Some t => requeue_task t | None => mret tt end d = (Ok u, d') →
  d' = set_tasks (requeued o) d.
Proof.
  destruct o as [t|]; [|intros [= <- <-]; by destruct d].
  unfold requeue_task, get_task, update_task. intros H. inv_ok.
  assert (alter (set_state Queued) t (tasks d) =
    match tasks d !! t with Some x => <[t := set_state Queued x]> (tasks d) | None => tasks d end) as E.
  { apply map_eq. intros i. destruct (decide (t = i)) as [<-|].
    - destruct (tasks d !! t) eqn:E; by simplify_map_eq.
    - destruct (tasks d !! t) eqn:E; by simplify_map_eq. }
  unfold set_tasks. simpl. rewrite E.
  destruct (tasks d !! t) eqn:E'; inv_ok; [done|]. by destruct d.
Qed.

Lemma preempt_serial_on_inv id allow k d u d' :
  preempt_serial_on id allow k d = (Ok u, d') →
  preemption_state (queue_at d k) ≠ SerialPreemptionQueued ∧
  (∀ t, head_at d k = Some t → displaceable allow d t) ∧
  d' = set_queues <[k := preempted_queue id (queue_at d k)]>
         (set_tasks (requeued (head_at d k)) d).
Proof.
  unfold preempt_serial_on, get_task_queue_deserialized, get_task_queue. intros H.
  do 3 inv_step. simplify_eq/=. rename Hm into Hsafe, Hm0 into Hall. repeat read_step.
  assert (s0 = d ∧ (∀ t, head_at d k = Some t → displaceable allow d t)) as [-> Hd].
  { destruct a.
    - injection Hall as <- <-. split; [done|]. intros t Ht.
      apply is_serial_preemption_safe_inv in Hsafe. rewrite Ht in Hsafe.
      destruct Hsafe as (task & ? & Hb). exists task. split; [done|].
      by destruct (is_committed _); [rewrite andb_false_r in Hb|].
    - destruct allow; [|inv_ok; congruence]. repeat read_step. split; [done|]. intros t Ht.
      apply head_is_yieldable_inv in Hall. rewrite Ht in Hall.
      destruct Hall as (task & ? & ->). exists task. split; [done|].
      inv_ok. apply andb_true_iff in Hc as [? ?]. done. }
  inv_ok. fold (queue_at d k) in *. fold (head_at d k) in *.
  apply requeue_head_inv in Hm0 as ->.
  destruct (preempt_with_serial_task (queue_at d k) id) as [b q'] eqn:Hp. inv_ok.
  apply preempt_serial_inv in Hp as [Hns ->]. apply write_task_queue_inv in H as [_ ->].
  done.
Qed.

(** What a serial preemption of [keys] by [id] does to the queues and to the records of the
    tasks it displaces. *)
Record preempted (id : TaskIdentifier) (allow : bool) (ks : list TaskQueueKey) (d d' : TaskDb)
    : Prop := mkPreempted {
  pr_nodup : NoDup ks;
  pr_frame : frame_tasks d d';
  pr_state : ∀ k, k ∈ ks → preemption_state (queue_at d k) ≠ SerialPreemptionQueued;
  pr_heads : ∀ k t, k ∈ ks → head_at d k = Some t → displaceable allow d t;
  pr_queues : ∀ k, queues d' !! k =
    if decide (k ∈ ks) then Some (preempted_queue id (queue_at d k)) else queues d !! k;
  pr_tasks : ∀ x, tasks d' !! x =
    if decide (Exists (λ k, head_at d k = Some x) ks) then set_state Queued <$> tasks d !! x
    else tasks d !! x;
}.

Lemma requeued_lookup o (m : gmap TaskIdentifier QueuedTask) x :
  requeued o m !! x = if decide (o = Some x) then set_state Queued <$> m !! x else m !! x.
Proof.
  destruct o as [t|]; [|by rewrite decide_False]. case_decide as H; simplify_eq/=.
  - by rewrite lookup_alter_eq.
  - rewrite lookup_alter_ne; congruence.
Qed.

(** After the first turn of the loop the other queues are as before. *)
Lemma queue_at_insert_ne d k q f k' :
  k ≠ k' → queue_at (set_queues <[k := q]> (set_tasks f d)) k' = queue_at d k'.
Proof. intros. unfold queue_at. simpl. by rewrite lookup_insert_ne. Qed.
Lemma queue_at_insert d k q f : queue_at (set_queues <[k := q]> (set_tasks f d)) k = q.
Proof. unfold queue_at. simpl. by rewrite lookup_insert_eq. Qed.

Lemma displaceable_requeued allow d o x q k :
  (∀ t, o = Some t → displaceable allow d t) →
  displaceable allow (set_queues <[k := q]> (set_tasks (requeued o) d)) x → displaceable allow d x.
Proof.
  intros Ho (task & Htask & Hc). simpl in *. rewrite requeued_lookup in Htask.
  case_decide; [by apply Ho|]. by exists task.
Qed.

Lemma preempt_serial_loop id allow ks d u d' :
  for_each ks (preempt_serial_on id allow) d = (Ok u, d') → preempted id allow ks d d'.
Proof.
  revert d. induction ks as [|k ks IH]; intros d; simpl.
  { intros [= <- <-]. split; [constructor|done|by intros ? ?%not_elem_of_nil| |done|].
    - by intros ?? ?%not_elem_of_nil.
    - intros x. case_decide as He; [by apply Exists_nil in He|done]. }
  intros ([] & d1 & H1 & H)%bind_Ok_inv.
  apply preempt_serial_on_inv in H1 as (Hns & Hd & ->). apply IH in H as [Hnd Hf Hst Hh Hq Ht].
  assert (k ∉ ks) as Hk by (intros Hk; apply (Hst _ Hk); by rewrite queue_at_insert).
  assert (∀ k', k' ∈ ks → k ≠ k') as Hne by set_solver.
  assert (∀ k' q f, k' ∈ ks → head_at (set_queues <[k := q]> (set_tasks f d)) k' = head_at d k')
    as Hhd by (intros; unfold head_at; rewrite queue_at_insert_ne; auto).
  split.
  - by constructor.
  - etrans; [|exact Hf]. done.
  - intros k' [->|Hk']%elem_of_cons; [done|]. specialize (Hst k' Hk').
    rewrite queue_at_insert_ne in Hst; auto.
  - intros k' t [->|Hk']%elem_of_cons Hht; [by apply Hd|].
    eapply displaceable_requeued; [exact Hd|]. apply (Hh k'); [done|]. by rewrite Hhd.
  - intros k'. rewrite Hq. simpl. destruct (decide (k' = k)) as [->|Hkk].
    + rewrite (decide_False (P := k ∈ ks)), lookup_insert_eq, decide_True by set_solver. done.
    + case_decide as Hin.
      * rewrite decide_True by set_solver. by rewrite queue_at_insert_ne.
      * rewrite decide_False, lookup_insert_ne by set_solver. done.
  - intros x. rewrite Ht. simpl. rewrite requeued_lookup.
    assert (Exists (λ k', head_at (set_queues <[k := preempted_queue id (queue_at d k)]>
      (set_tasks (requeued (head_at d k)) d)) k' = Some x) ks ↔ Exists (λ k', head_at d k' = Some x) ks) as E.
    { rewrite !Exists_exists. split; intros (k' & ? & He); exists k'; (split; [done|]); rewrite Hhd in *; done. }
    rewrite (decide_ext _ _ _ _ E). repeat case_decide; rewrite ?Exists_cons in *; try tauto.
    by destruct (tasks d !! x).
Qed.

Lemma preempted_same_ids id allow ks d d' : preempted id allow ks d d' → same_ids d d'.
Proof. intros [_ _ _ _ _ Ht] x. rewrite Ht. case_decide; [|done]. by destruct (tasks d !! x). Qed.

Lemma preempted_queue_sub id allow ks d d' : preempted id allow ks d d' → queue_sub id d d'.
Proof.
  intros Hp k x Hx (q & Hq & Hin). unfold in_queue. rewrite (pr_queues _ _ _ _ _ Hp).
  case_decide; [|by exists q]. eexists. split; [done|].
  unfold queue_at. rewrite Hq. unfold all_tasks, preempted_queue in *. simpl. set_solver.
Qed.

Lemma preempted_queues_ok id allow ks d d' :
  preempted id allow ks d d' → queues_ok d → queues_ok d'.
Proof.
  intros Hp Hok k q. rewrite (pr_queues _ _ _ _ _ Hp). case_decide; [|apply Hok].
  intros [= <-]. destruct (queues_ok_lookup d k Hok) as [? _]. by split.
Qed.

Lemma do_preempt_serial_inner_inv ks task allow d u d' :
  do_preempt_serial_inner ks task allow d = (Ok u, d') →
  ∃ d1, preempted (task_id task) allow ks d d1 ∧
    d' = set_task_to_queues <[task_id task := ks]> (set_tasks <[task_id task := task]> d1).
Proof.
  unfold do_preempt_serial_inner, write_task, update_task, update_task_to_queues.
  intros (? & d1 & H1 & H)%bind_Ok_inv. inv_ok. exists d1. split; [|done].
  by eapply preempt_serial_loop.
Qed.

Lemma do_preempt_serial_inner_ok ks task allow d u d' :
  queues_ok d → index_ok d → do_preempt_serial_inner ks task allow d = (Ok u, d') →
  queues_ok d' ∧ index_ok d' ∧ frame_index d d'.
Proof.
  intros Hq Hi (d1 & Hp & ->)%do_preempt_serial_inner_inv.
  pose proof (pr_frame _ _ _ _ _ Hp) as Hf. split_and!.
  - apply (preempted_queues_ok _ _ _ _ _ Hp Hq).
  - eapply (index_ok_write d); [done|by rewrite Hf|by eapply preempted_queue_sub
      |by eapply preempted_same_ids|done|].
    intros k Hk. unfold in_queue. rewrite (pr_queues _ _ _ _ _ Hp), decide_True by done.
    eexists. split; [done|]. unfold all_tasks, preempted_queue. simpl. set_solver.
  - apply frame_tasks_index in Hf. etrans; [exact Hf|]. done.
Qed.

(** *** Concurrent preemption and popping *)

(** Writing queues, losing at most [id]. *)
Definition queues_step (id : TaskIdentifier) (d d' : TaskDb) : Prop :=
  frame_queues d d' ∧ (queues_ok d → queues_ok d') ∧ queue_sub id d d'.
#[global] Instance queues_step_preorder id : PreOrder (queues_step id).
Proof.
  split; [intros d; split_and!; done|]. intros d1 d2 d3 (?&?&?) (?&?&?).
  split_and!; [by etrans|auto|by etrans].
Qed.

(** ... or nothing. *)
Definition queues_grow (id : TaskIdentifier) (d d' : TaskDb) : Prop :=
  queues_step id d d' ∧ ∀ k x, in_queue d k x → in_queue d' k x.
#[global] Instance queues_grow_preorder id : PreOrder (queues_grow id).
Proof.
  split; [by intros d|]. intros d1 d2 d3 [? G1] [? G2].
  split; [by etrans|]. intros k x ?. by apply G2, G1.
Qed.

Lemma preempt_concurrent_on_inv id k d u d' :
  preempt_concurrent_on id k d = (Ok u, d') →
  serial_tasks (queue_at d k) = [] ∧
  ∃ q', preempt_with_concurrent_task (queue_at d k) id = (true, q') ∧
    check_invariants q' = None ∧ d' = set_queues <[k := q']> d.
Proof.
  unfold preempt_concurrent_on, get_task_queue_deserialized, get_task_queue. intros H. inv_ok.
  fold (queue_at d k) in *. destruct (preempt_with_concurrent_task _ _) as [b q'] eqn:Hp. inv_ok.
  apply write_task_queue_inv in H as [? ->]. pose proof (preempt_concurrent_inv _ _ _ Hp) as [? _].
  eauto.
Qed.

Lemma preempt_concurrent_on_step id k d u d' :
  preempt_concurrent_on id k d = (Ok u, d') →
  queues_grow id d d' ∧ in_queue d' k id.
Proof.
  intros (Hs & q' & Hp & Hc & ->)%preempt_concurrent_on_inv.
  pose proof (preempt_concurrent_inv _ _ _ Hp) as [_ Hq'].
  assert (∀ x, x ∈ all_tasks (queue_at d k) → x ∈ all_tasks q') as Hsub.
  { intros x. rewrite Hq'. unfold all_tasks. rewrite Hs. simpl. set_solver. }
  split; [split; [split_and!; [done| |by apply queue_sub_insert; auto]|]|].
  - intros. apply queues_ok_insert; [done|]. by eapply preempt_concurrent_ok.
  - intros k' x (q & Hq & Hx). unfold in_queue. simpl. destruct (decide (k' = k)) as [->|].
    + rewrite lookup_insert_eq. exists q'. split; [done|]. apply Hsub.
      unfold queue_at. by rewrite Hq.
    + rewrite lookup_insert_ne by done. by exists q.
  - apply in_queue_insert. rewrite Hq'. unfold all_tasks. simpl. set_solver.
Qed.

Lemma preempt_concurrent_ok' ks task d u d' :
  queues_ok d → index_ok d → preempt_queue_with_concurrent ks task d = (Ok u, d') →
  queues_ok d' ∧ index_ok d' ∧ frame_index d d'.
Proof.
  unfold preempt_queue_with_concurrent, write_task, update_task, update_task_to_queues.
  intros Hq Hi (v & d1 & H1 & H)%bind_Ok_inv. inv_ok.
  eapply (for_each_rel (queues_grow (task_id task)) (λ k d, in_queue d k (task_id task))) in H1 as [[(Hf & Hok & Hsub) _] Hin].
  - split_and!; [auto| |]; [|by apply frame_queues_tasks, frame_tasks_index in Hf; etrans; [exact Hf|]].
    eapply (index_ok_write d); [done|by rewrite Hf|done| |done|done].
    intros x. by rewrite Hf.
  - intros k s w s' _ Hk. by eapply preempt_concurrent_on_step.
  - intros k s s' Hin [_ G]. by apply G.
Qed.

Lemma pop_from_inv id k d u d' :
  pop_from id k d = (Ok u, d') →
  ∃ q', TaskQueue.pop_task (queue_at d k) id = (true, q') ∧ check_invariants q' = None ∧
    d' = set_queues <[k := q']> d.
Proof.
  unfold pop_from, get_task_queue_deserialized, get_task_queue. intros H. inv_ok.
  fold (queue_at d k) in *. destruct (TaskQueue.pop_task _ _) as [b q'] eqn:Hp. inv_ok.
  apply write_task_queue_inv in H as [? ->]. eauto.
Qed.

Lemma pop_from_step id k d u d' : pop_from id k d = (Ok u, d') → queues_step id d d'.
Proof.
  intros (q' & Hp & Hc & ->)%pop_from_inv. split_and!; [done| |].
  - intros Hok. apply queues_ok_insert; [done|]. eapply pop_task_ok; [|done|done].
    by apply queues_ok_lookup.
  - apply queue_sub_insert. intros x Hx. fold (queue_at d k).
    rewrite (pop_task_inv _ _ _ Hp). set_solver.
Qed.

Lemma pop_task_storage_inv id d o d' :
  pop_task id d = (Ok o, d') →
  o = tasks d !! id ∧
  ∃ d1, queues_step id d d1 ∧
    d' = set_task_to_queues (delete id) (set_tasks (delete id) d1).
Proof.
  unfold pop_task, delete_task, get_task, get_queue_keys_for_task. intros H. inv_ok.
  eapply (for_each_rel (queues_step id) (λ _ _, True)) in Hm0 as [Hs _]; [| |done].
  - split; [|by eexists]. destruct Hs as [-> _]. done.
  - intros k s v s' _ Hk. split; [|done]. by eapply pop_from_step.
Qed.

Lemma pop_task_storage_ok id d o d' :
  queues_ok d → index_ok d → pop_task id d = (Ok o, d') →
  queues_ok d' ∧ index_ok d' ∧ frame_index d d' ∧ tasks d' = delete id (tasks d).
Proof.
  intros Hq Hi (_ & d1 & (Hf & Hok & Hsub) & ->)%pop_task_storage_inv.
  split_and!; [by apply Hok| | |by simpl; rewrite Hf].
  - eapply (index_ok_forget d); [done| | |done]; simpl; by rewrite Hf.
  - apply frame_queues_tasks, frame_tasks_index in Hf. etrans; [exact Hf|]. done.
Qed.

(** ** Pending preemptions *)

Lemma pending_ok_ext d d' :
  pending d' = pending d → pending_seq d' = pending_seq d → pending_ok d → pending_ok d'.
Proof.
  intros Hp Hs H. assert (∀ k, pend d' k = pend d k) as E by (intros; unfold pend; by rewrite Hp).
  assert (counter d' = counter d) as Ec by (unfold counter; by rewrite Hs).
  destruct H. split; intros *; rewrite ?E, ?Ec; eauto.
Qed.

Lemma sorted_filter (P : Z → Prop) `{∀ z, Decision (P z)} (l : list PendingEntry) :
  StronglySorted seq_lt l → StronglySorted seq_lt (filter (λ e, P (entry_seq e)) l).
Proof.
  induction 1 as [|e l Hs IH Hall]; [constructor|]. rewrite filter_cons. case_decide; [|done].
  constructor; [done|]. rewrite Forall_forall in *. intros x [_ Hx]%list_elem_of_filter. auto.
Qed.

(** Keeping the entries whose number satisfies [P], in every queue. *)
Definition pending_filtered (P : Z → Prop) `{∀ z, Decision (P z)} (d d' : TaskDb) : Prop :=
  frame_pending d d' ∧ ∀ k, pend d' k = filter (λ e, P (entry_seq e)) (pend d k).

Lemma pending_ok_filter (P : Z → Prop) `{∀ z, Decision (P z)} d d' :
  pending_filtered P d d' → pending_ok d → pending_ok d'.
Proof.
  intros [Hf Hp] [Hs Hq Ht Hu Hl Hc].
  assert (counter d' = counter d) as Ec by (unfold counter; by rewrite Hf).
  split; intros *; rewrite ?Hp, ?Ec, ?list_elem_of_filter.
  - by apply sorted_filter.
  - intros [_ ?]. eauto.
  - intros [? He]. rewrite (Ht _ _ _ He). tauto.
  - intros [_ ?] [_ ?]. eauto.
  - etrans; [apply length_filter|apply Hl].
  - done.
Qed.

Lemma pend_insert d k l k' :
  pend (set_pending <[k := l]> d) k' = if decide (k' = k) then l else pend d k'.
Proof. unfold pend. simpl. case_decide; simplify_map_eq; done. Qed.
Lemma pend_delete d k k' :
  pend (set_pending (delete k) d) k' = if decide (k' = k) then [] else pend d k'.
Proof. unfold pend. simpl. case_decide; simplify_map_eq; done. Qed.

Lemma remove_entry_from_inv e k d u d' :
  remove_entry_from e k d = (Ok u, d') →
  frame_pending d d' ∧
  ∀ k', pend d' k' = if decide (k' = k) then filter (λ x, entry_seq x ≠ entry_seq e) (pend d k')
                     else pend d k'.
Proof.
  unfold remove_entry_from, get_pending_preempt_list. intros H. inv_ok. fold (pend d k) in *.
  destruct (is_nil _) eqn:En; inv_ok; (split; [done|]); intros k';
    rewrite ?pend_insert, ?pend_delete; case_decide; subst; [|done|done|done].
  by apply is_nil_true in En.
Qed.

Lemma remove_entries_inv e ks d u d' :
  for_each ks (remove_entry_from e) d = (Ok u, d') →
  frame_pending d d' ∧
  ∀ k, pend d' k = if decide (k ∈ ks) then filter (λ x, entry_seq x ≠ entry_seq e) (pend d k)
                   else pend d k.
Proof.
  revert d. induction ks as [|k ks IH]; intros d; simpl.
  { intros [= <- <-]. split; [done|]. done. }
  intros (v & d1 & H1 & H)%bind_Ok_inv. apply remove_entry_from_inv in H1 as [Hf1 H1].
  apply IH in H as [Hf2 H2]. split; [by etrans|]. intros k'. rewrite H2, H1.
  repeat case_decide; rewrite ?elem_of_cons in *; subst; try tauto.
  rewrite list_filter_filter. apply list_filter_iff. tauto.
Qed.

(** Every entry with the number of [e] is in a queue [e] targets. *)
Definition targets_cover (e : PendingEntry) (d : TaskDb) : Prop :=
  ∀ k e', e' ∈ pend d k → entry_seq e' = entry_seq e → k ∈ target_keys e.

Lemma pending_targets_cover d k e : pending_ok d → e ∈ pend d k → targets_cover e d.
Proof.
  intros H He k' e' He' Hseq. rewrite (pn_targets _ H _ _ _ He).
  by rewrite <-(pn_unique _ H _ _ _ _ He' He Hseq).
Qed.

Lemma remove_pending_filtered e d u d' :
  targets_cover e d → remove_pending_preemption_entry e d = (Ok u, d') →
  pending_filtered (λ z, z ≠ entry_seq e) d d'.
Proof.
  intros Hc [Hf H]%remove_entries_inv. split; [done|]. intros k. rewrite H. case_decide as Hk; [done|].
  symmetry. apply filter_all. rewrite Forall_forall. intros x Hx Hseq. by apply Hk, (Hc k x).
Qed.

Lemma remove_list_filtered (l : list PendingEntry) d u d' :
  (∀ e, e ∈ l → targets_cover e d) →
  for_each l remove_pending_preemption_entry d = (Ok u, d') →
  pending_filtered (λ z, z ∉ entry_seq <$> l) d d'.
Proof.
  revert d. induction l as [|e l IH]; intros d Hc; simpl.
  { intros [= <- <-]. split; [done|]. intros k. symmetry. apply filter_all.
    rewrite Forall_forall. intros x _ ?%not_elem_of_nil. done. }
  intros (v & d1 & H1 & H)%bind_Ok_inv.
  apply remove_pending_filtered in H1 as [Hf1 H1]; [|apply Hc; by left].
  apply IH in H as [Hf2 H2].
  - split; [by etrans|]. intros k. rewrite H2, H1, list_filter_filter. apply list_filter_iff.
    intros x. rewrite not_elem_of_cons. tauto.
  - intros e' He' k x. rewrite H1. intros [_ Hx]%list_elem_of_filter. by apply Hc; [right|].
Qed.

Lemma delete_pending_filtered k d u d' :
  pending_ok d → delete_pending_preemption k d = (Ok u, d') →
  pending_filtered (λ z, z ∉ entry_seq <$> pend d k) d d'.
Proof.
  intros Hok. unfold delete_pending_preemption, get_pending_preempt_list. intros H. inv_ok.
  fold (pend d k) in *. apply remove_list_filtered in Hm0 as [Hf H].
  - split; [etrans; [exact Hf|done]|]. intros k'. rewrite pend_delete, H.
    case_decide; subst; [|done]. symmetry. apply filter_none.
    rewrite Forall_forall. intros x Hx Hn. apply Hn, list_elem_of_fmap. eauto.
  - intros e He. by eapply pending_targets_cover.
Qed.

(** *** Deferring *)

Definition frame_defer (d d' : TaskDb) : Prop :=
  d' = set_pending (λ _, pending d') (set_pending_seq (pending_seq d') d).

Lemma append_entries_inv e ks d u d' :
  NoDup ks → for_each ks (λ k, append_pending_preemption k e) d = (Ok u, d') →
  frame_pending d d' ∧
  ∀ k, pend d' k = if decide (k ∈ ks) then pend d k ++ [e] else pend d k.
Proof.
  intros Hnd. revert d. induction Hnd as [|k ks Hk Hnd IH]; intros d; simpl.
  { intros [= <- <-]. done. }
  intros (v & d1 & H1 & H)%bind_Ok_inv.
  unfold append_pending_preemption, get_pending_preempt_list in H1. inv_ok. fold (pend d k) in *.
  apply IH in H as [Hf H]. split; [etrans; [|exact Hf]; done|]. intros k'. rewrite H, pend_insert.
  repeat case_decide; rewrite ?elem_of_cons in *; subst; tauto.
Qed.

Lemma check_depths_inv ks d u d' :
  for_each ks check_pending_depth d = (Ok u, d') →
  d' = d ∧ ∀ k, k ∈ ks → (length (pend d k) < MAX_PENDING_PER_QUEUE)%nat.
Proof.
  revert d. induction ks as [|k ks IH]; intros d; simpl.
  { intros [= <- <-]. split; [done|]. by intros ? ?%not_elem_of_nil. }
  intros (v & d1 & H1 & H)%bind_Ok_inv.
  unfold check_pending_depth, get_pending_preempt_list in H1. inv_ok. fold (pend d k) in *.
  apply IH in H as [-> H]. split; [done|]. apply Nat.ltb_lt in Hc.
  intros k' [->|?]%elem_of_cons; auto.
Qed.

Lemma defer_preemption_inv ks task d u d' :
  NoDup ks → 0 ≤ counter d < U64_MAX → defer_preemption ks task d = (Ok u, d') →
  frame_defer d d' ∧ counter d' = counter d + 1 ∧
  (∀ k, k ∈ ks → (length (pend d k) < MAX_PENDING_PER_QUEUE)%nat) ∧
  ∀ k, pend d' k = if decide (k ∈ ks) then pend d k ++ [mkPendingEntry task ks (counter d + 1)]
                   else pend d k.
Proof.
  intros Hnd Hc. unfold defer_preemption, next_pending_seq. intros H. inv_ok.
  apply check_depths_inv in Hm as [-> Hd]. fold (counter d) in *.
  assert (u64_add (counter d) 1 = counter d + 1) as E by (apply u64_add_small; unfold U64_MAX in *; lia).
  rewrite E in *. apply append_entries_inv in H as [Hf H]; [|done]. split_and!.
  - unfold frame_defer. rewrite Hf. done.
  - unfold counter at 1. by rewrite Hf.
  - done.
  - exact H.
Qed.

Lemma seq_sorted_app l e :
  StronglySorted seq_lt l → (∀ x, x ∈ l → seq_lt x e) → StronglySorted seq_lt (l ++ [e]).
Proof.
  induction 1 as [|x l Hs IH Hall]; intros He; simpl; [by repeat constructor|].
  constructor; [apply IH; intros; apply He; by right|].
  rewrite Forall_app, Forall_singleton. split; [done|]. apply He. by left.
Qed.

Lemma defer_preemption_ok ks task d u d' :
  pending_ok d → NoDup ks → counter d < U64_MAX → defer_preemption ks task d = (Ok u, d') →
  pending_ok d'.
Proof.
  intros Hok Hnd Hc (Hf & Ec & Hd & Hp)%defer_preemption_inv; [|done|by pose proof (pn_counter _ Hok)].
  set (e := mkPendingEntry task ks (counter d + 1)) in *.
  assert (∀ k x, x ∈ pend d' k ↔ x ∈ pend d k ∨ (k ∈ ks ∧ x = e)) as Hin.
  { intros k x. rewrite Hp. case_decide; rewrite ?elem_of_app, ?list_elem_of_singleton; tauto. }
  assert (∀ k x, x ∈ pend d k → 0 < entry_seq x < entry_seq e) as Hlt.
  { intros k x Hx%(pn_seq _ Hok). simpl. lia. }
  pose proof (pn_counter _ Hok).
  split.
  - intros k. rewrite Hp. case_decide; [|apply Hok]. apply seq_sorted_app; [apply Hok|].
    intros x Hx. by apply (Hlt k).
  - intros k x [Hx|[_ ->]]%Hin; rewrite Ec; [apply (pn_seq _ Hok) in Hx; lia|simpl; lia].
  - intros k k' x [Hx|[Hk ->]]%Hin; rewrite Hin.
    + rewrite (pn_targets _ Hok _ _ _ Hx). split; [by left|]. intros [?|[_ ->]]; [done|].
      apply Hlt in Hx. lia.
    + split; [by right|]. intros [Hx%Hlt|[? _]]; [lia|done].
  - intros k k' x x' [Hx|[_ ->]]%Hin [Hx'|[_ ->]]%Hin Hs; [by eapply (pn_unique _ Hok)| | |done].
    + apply Hlt in Hx. lia.
    + apply Hlt in Hx'. lia.
  - intros k. rewrite Hp. case_decide as Hk; [|apply Hok].
    rewrite length_app. specialize (Hd k Hk). simpl. lia.
  - lia.
Qed.

(** The head of a pending list. *)
Lemma min_entry_spec l :
  match min_entry l with
  | None => l = []
  | Some e => e ∈ l ∧ ∀ x, x ∈ l → entry_seq e ≤ entry_seq x
  end.
Proof.
  induction l as [|e l IH]; simpl; [done|]. destruct (min_entry l) as [m|].
  - destruct IH as [Hm Hle]. destruct (Z.ltb_spec (entry_seq m) (entry_seq e)); split.
    + by right.
    + intros x [->|Hx]%elem_of_cons; [lia|auto].
    + by left.
    + intros x [->|Hx]%elem_of_cons; [lia|]. specialize (Hle x Hx). lia.
  - subst. split; [by left|]. by intros x ->%list_elem_of_singleton.
Qed.

(** ** Clearing a queue *)

Lemma delete_task_inv id d o d' :
  delete_task id d = (Ok o, d') →
  o = tasks d !! id ∧ d' = set_task_to_queues (delete id) (set_tasks (delete id) d).
Proof. unfold delete_task, get_task. intros H. inv_ok. done. Qed.

Lemma lookup_delete_list {A} (m : gmap TaskIdentifier A) id (l : list TaskIdentifier) x :
  (if decide (x ∈ l) then None else delete id m !! x) =
  (if decide (x ∈ id :: l) then None else m !! x).
Proof.
  destruct (decide (x = id)) as [->|].
  - rewrite lookup_delete_eq, (decide_True (P := id ∈ id :: l)) by (by left). by case_decide.
  - rewrite lookup_delete_ne by done. repeat case_decide; rewrite ?elem_of_cons in *; tauto.
Qed.

Lemma delete_tasks_inv ids d l d' :
  index_ok d → delete_tasks ids d = (Ok l, d') →
  frame_index d d' ∧ queues d' = queues d ∧
  (∀ x, tasks d' !! x = if decide (x ∈ ids) then None else tasks d !! x) ∧
  (∀ x, task_to_queues d' !! x = if decide (x ∈ ids) then None else task_to_queues d !! x) ∧
  NoDup (task_id <$> l) ∧
  (∀ t, t ∈ l → task_id t ∈ ids ∧ tasks d !! task_id t = Some t).
Proof.
  intros Hi. assert (∀ x t, tasks d !! x = Some t → task_id t = x) as Hid by apply Hi. clear Hi.
  revert d l Hid. induction ids as [|id ids IH]; intros d l Hid; simpl.
  { intros [= <- <-]. split_and!; try done; [constructor|by intros ? ?%not_elem_of_nil]. }
  intros (o & d1 & H1 & H)%bind_Ok_inv. apply delete_task_inv in H1 as [-> ->]. inv_ok.
  apply IH in Hm as (Hf & Hq & Ht & Htq & Hnd & Hl); [|simpl; by intros x t [_ ?%Hid]%lookup_delete_Some].
  simpl in *. split_and!.
  - etrans; [|exact Hf]. done.
  - done.
  - intros x. by rewrite Ht, lookup_delete_list.
  - intros x. by rewrite Htq, lookup_delete_list.
  - destruct (tasks d !! id) as [t|] eqn:E; [|done]. simpl. constructor; [|done].
    rewrite (Hid _ _ E). intros (t' & Heq & Ht')%list_elem_of_fmap. apply Hl in Ht' as [_ Ht'].
    rewrite <-Heq in Ht'. by rewrite lookup_delete_eq in Ht'.
  - intros t Hin. assert ((tasks d !! id = Some t) ∨ t ∈ a) as [E|Hin'].
    { destruct (tasks d !! id); [|by right]. apply elem_of_cons in Hin as [->|?]; auto. }
    + rewrite (Hid _ _ E). split; [by left|done].
    + apply Hl in Hin' as [? [_ ?]%lookup_delete_Some]. split; [by right|done].
Qed.

Record cleared (k : TaskQueueKey) (l : list QueuedTask) (d d' : TaskDb) : Prop := mkCleared {
  cl_queues : queues_ok d';
  cl_index : index_ok d';
  cl_pending : pending_ok d';
  cl_yields : yield_counts d' = yield_counts d;
  cl_assigned : assigned_tasks d' = assigned_tasks d;
  cl_assignment : task_assignment d' = task_assignment d;
  cl_peer : peer_id d' = peer_id d;
  cl_history : historical_state_enabled d' = historical_state_enabled d;
  cl_queue : queues d' = <[k := queue_default]> (queues d);
  cl_tasks : ∀ x, tasks d' !! x =
    if decide (x ∈ all_tasks (queue_at d k)) then None else tasks d !! x;
  cl_nodup : NoDup (task_id <$> l);
  cl_list : ∀ t, t ∈ l →
    task_id t ∈ all_tasks (queue_at d k) ∧ tasks d !! task_id t = Some t;
  cl_filter : pending_filtered (λ z, z ∉ entry_seq <$> pend d k) d
    (set_queues (λ _, queues d) (set_tasks (λ _, tasks d)
      (set_task_to_queues (λ _, task_to_queues d) d')));
}.

Lemma clear_task_queue_inv k d l d' :
  queues_ok d → index_ok d → pending_ok d → clear_task_queue k d = (Ok l, d') →
  cleared k l d d'.
Proof.
  intros Hq Hi Hp. unfold clear_task_queue, get_task_queue. intros H. inv_ok.
  match goal with H : write_task_queue _ _ _ = _ |- _ => apply write_task_queue_inv in H as [_ ->] end.
  assert (from_option all_tasks [] (queues d !! k) = all_tasks (queue_at d k)) as E.
  { unfold queue_at. by destruct (queues d !! k). }
  rewrite E in *. apply delete_tasks_inv in Hm0 as (Hf & Hqs & Ht & Htq & Hnd & Hl); [|done].
  rename Hm1 into Hdp, s0 into d1, s1 into d2.
  assert (pending_ok d1) as Hp1 by (eapply pending_ok_ext; [| |exact Hp]; by rewrite Hf).
  assert (pend d1 k = pend d k) as Epk by (unfold pend; by rewrite Hf).
  apply delete_pending_filtered in Hdp as Hfil'; [|done]. pose proof Hfil' as [Hf2 Hfil].
  assert (∀ k', pend d1 k' = pend d k') as Ep by (intros; unfold pend; by rewrite Hf).
  split; simpl; try (by rewrite Hf2; simpl; rewrite Hf).
  - apply queues_ok_insert; [|apply queue_default_ok]. unfold queues_ok. rewrite Hf2. simpl. by rewrite Hqs.
  - split; simpl; rewrite Hf2; simpl.
    + intros x. rewrite Ht, Htq. case_decide; [|apply Hi]. by split; intros [? ?].
    + intros x t. rewrite Ht. case_decide; [done|]. apply Hi.
    + intros x ks k'. rewrite Htq. case_decide as Hx; [done|]. intros Hks Hk'.
      destruct (ix_queue _ Hi _ _ _ Hks Hk') as (q & Hlk & Hin). unfold in_queue. simpl. rewrite Hqs.
      destruct (decide (k' = k)) as [->|]; [|rewrite lookup_insert_ne by done; by exists q].
      exfalso. apply Hx. unfold queue_at. by rewrite Hlk.
  - eapply pending_ok_ext; [| |eapply (pending_ok_filter _ _ _ Hfil'), Hp1]; done.
  - rewrite Hf2. simpl. by rewrite Hqs.
  - done.
  - done.
  - split; [|intros k'; unfold pend at 1; simpl; fold (pend d2 k'); by rewrite Hfil, Epk, (Ep k')].
    unfold frame_pending. rewrite Hf2. simpl. rewrite Hf. by destruct d.
Qed.

(** ** Yields *)

(** The head of the queue is a committed order task. *)
Definition yieldable_at (d : TaskDb) (k : TaskQueueKey) : bool :=
  match head_at d k ≫= λ t, tasks d !! t with
  | Some task => is_committed (task_state task) && is_yieldable (task_descriptor task)
  | None => false
  end.

Lemma head_is_yieldable_at k d b d' : head_is_yieldable k d = (Ok b, d') → b = yieldable_at d k.
Proof.
  intros H%head_is_yieldable_inv. unfold yieldable_at. destruct (head_at d k); simpl; [|done].
  by destruct H as (task & -> & ->).
Qed.

Lemma frame_yields_yieldable d d' k : frame_yields d d' → yieldable_at d' k = yieldable_at d k.
Proof. unfold yieldable_at, head_at, queue_at. by intros ->. Qed.

Lemma bump_yielded_inv k d u d' :
  bump_yielded k d = (Ok u, d') →
  frame_yields d d' ∧
  ∀ k', ycount d' k' = ycount d k' + (if decide (k' = k) then Z.b2z (yieldable_at d k) else 0).
Proof.
  unfold bump_yielded. intros (b & d1 & H1 & H)%bind_Ok_inv.
  rewrite (reads_Ok _ _ _ _ (reads_head_is_yieldable k) H1) in *.
  rewrite <-(head_is_yieldable_at _ _ _ _ H1).
  destruct b; unfold bump_yield_count, yield_count in H; inv_ok; (split; [done|]); intros k'.
  - unfold ycount. simpl. case_decide; subst; simplify_map_eq; simpl; [done|lia].
  - case_decide; simpl; lia.
Qed.

Lemma bump_yielded_loop ks d u d' :
  NoDup ks → for_each ks bump_yielded d = (Ok u, d') →
  frame_yields d d' ∧
  ∀ k, ycount d' k = ycount d k + (if decide (k ∈ ks) then Z.b2z (yieldable_at d k) else 0).
Proof.
  intros Hnd. revert d. induction Hnd as [|k ks Hk Hnd IH]; intros d; simpl.
  { intros [= <- <-]. split; [done|]. intros. lia. }
  intros (v & d1 & H1 & H)%bind_Ok_inv. apply bump_yielded_inv in H1 as [Hf1 H1].
  apply IH in H as [Hf2 H2]. split; [by etrans|]. intros k'.
  rewrite H2, H1, (frame_yields_yieldable _ _ _ Hf1).
  repeat case_decide; rewrite ?elem_of_cons in *; subst; try tauto; lia.
Qed.

(** Counts are kept or reset. *)
Definition yields_lower (d d' : TaskDb) : Prop :=
  frame_yields d d' ∧ ∀ k, ycount d' k = ycount d k ∨ ycount d' k = 0.
#[global] Instance yields_lower_preorder : PreOrder yields_lower.
Proof.
  split; [intros d; split; [done|by left]|]. intros d1 d2 d3 [? H1] [? H2].
  split; [by etrans|]. intros k. destruct (H2 k) as [->|]; auto.
Qed.

Lemma reset_exhausted_lower k d u d' : reset_exhausted k d = (Ok u, d') → yields_lower d d'.
Proof.
  unfold reset_exhausted. intros (b & d1 & H1 & H)%bind_Ok_inv.
  rewrite (reads_Ok _ _ _ _ (reads_head_is_yieldable k) H1) in *.
  destruct b; unfold yield_count, reset_yield_count in *; inv_ok; [|done].
  destruct (MAX_CONSECUTIVE_YIELDS <=? _); inv_ok; [|done]. split; [done|].
  intros k'. unfold ycount. simpl. destruct (decide (k' = k)) as [->|].
  - rewrite lookup_delete_eq. by right.
  - rewrite lookup_delete_ne by done. by left.
Qed.

(** A queue the first pass of [preempt_queue_with_serial] lets through is safe, or its head
    yields within the budget. *)
Lemma not_hard_blocked flags k d d' :
  hard_blocked flags k d = (Ok false, d') →
  (yieldable_at d k = false ∧
    ∀ t, head_at d k = Some t → displaceable false d t) ∨
  (order_yield_enabled flags = true ∧ yieldable_at d k = true ∧
    ycount d k < MAX_CONSECUTIVE_YIELDS).
Proof.
  unfold hard_blocked. intros (b & d1 & H1 & H)%bind_Ok_inv.
  rewrite (reads_Ok _ _ _ _ (reads_is_serial_preemption_safe k) H1) in *.
  apply is_serial_preemption_safe_inv in H1. destruct b.
  - left. unfold yieldable_at. destruct (head_at d k) as [t|]; simpl; [|done].
    destruct H1 as (task & E & Hb). rewrite E.
    destruct (is_committed (task_state task)) eqn:Ec; [by rewrite andb_false_r in Hb|].
    split; [done|]. intros ? [= <-]. exists task. split; [done|]. congruence.
  - right. apply bind_Ok_inv in H as (y & d2 & Hy & [= Hb _]). destruct y; [|done].
    unfold yield_allowed in Hy. destruct (order_yield_enabled flags); [|done].
    apply bind_Ok_inv in Hy as (b & d3 & Hh & Hy).
    rewrite (reads_Ok _ _ _ _ (reads_head_is_yieldable k) Hh) in *.
    apply head_is_yieldable_at in Hh. subst b. destruct (yieldable_at d k); [|done].
    unfold yield_count in Hy. inv_ok. split_and!; [done|done|]. unfold ycount.
    apply Z.ltb_lt. congruence.
Qed.

(** ** The serial preemption policy *)

Lemma preempt_queue_with_serial_inv flags ks task d o d' :
  NoDup ks → preempt_queue_with_serial flags ks task d = (Ok o, d') →
  match o with
  | Preempted => ∃ dy d1,
      frame_yields d dy ∧ (∀ k, k ∈ ks → hard_blocked flags k d = (Ok false, d)) ∧
      (∀ k, ycount dy k = ycount d k +
        (if order_yield_enabled flags && bool_decide (k ∈ ks) then Z.b2z (yieldable_at d k) else 0)) ∧
      preempted (task_id task) (order_yield_enabled flags) ks dy d1 ∧
      d' = set_task_to_queues <[task_id task := ks]> (set_tasks <[task_id task := task]> d1)
  | Deferred =>
      settle_defer_enabled flags = true ∧
      ∃ dy, yields_lower d dy ∧ defer_preemption ks task dy = (Ok tt, d')
  end.
Proof.
  intros Hnd. unfold preempt_queue_with_serial.
  intros (blocked & d1 & Hb & H)%bind_Ok_inv.
  assert (d1 = d) as -> by (eapply reads_Ok; [|exact Hb]; auto with relayer).
  apply bind_Ok_inv in H as (fd & d1 & Hfd & H).
  assert (d1 = d) as ->.
  { eapply reads_Ok; [|exact Hfd]. destruct (_ && _); auto with relayer. }
  destruct (negb blocked && negb fd) eqn:Ebf.
  - apply andb_true_iff in Ebf as [->%negb_true_iff _].
    apply any_m_false in Hb as [_ Hb]; [|auto with relayer].
    apply bind_Ok_inv in H as (? & dy & Hy & H). apply bind_Ok_inv in H as (? & d2 & Hp & H). inv_ok.
    apply do_preempt_serial_inner_inv in Hp as (d1 & Hp & ->).
    exists dy, d1. destruct (order_yield_enabled flags); simpl in *.
    + apply bump_yielded_loop in Hy as [Hf Hy]; [|done]. split_and!; [done|done| |done|done].
      intros k. rewrite Hy. repeat case_decide; repeat case_bool_decide; tauto.
    + injection Hy as <- <-. split_and!; [done|done| |done|done]. intros. lia.
  - apply bind_Ok_inv in H as (? & dy & Hy & H). apply bind_Ok_inv in H as (? & d2 & Hs & H). inv_ok.
    split; [done|]. destruct a. exists dy. split; [|done].
    destruct (order_yield_enabled flags); [|by injection Hy as <- <-].
    eapply (for_each_rel yields_lower (λ _ _, True)) in Hy as [? _]; [done| |done].
    intros k ??? _ Hk. split; [|done]. by eapply reset_exhausted_lower.
Qed.

(** The computation fails only with a rejection of the transition. *)
Definition only_rejects {S A} (m : M S StorageError A) : Prop :=
  ∀ s e s', m s = (Err e, s') → ∃ msg, e = Rejected msg.

Section Rejects.
Context {S : Type}.
Implicit Types (A B X : Type).

Lemma rejects_ret A (a : A) : only_rejects (mret a : M S _ A).
Proof. by intros ???. Qed.
Lemma rejects_gets A (f : S → A) : only_rejects (gets f).
Proof. by intros ???. Qed.
Lemma rejects_modify (f : S → S) : only_rejects (modify f).
Proof. by intros ???. Qed.
Lemma rejects_ensure c msg : only_rejects (ensure c (Rejected msg) : M S _ unit).
Proof. destruct c; [by intros ???|]. intros ??? [= <- <-]. eauto. Qed.
Lemma rejects_ok_or A (o : option A) msg : only_rejects (ok_or o (Rejected msg) : M S _ A).
Proof. destruct o; [by intros ???|]. intros ??? [= <- <-]. eauto. Qed.
Lemma rejects_throw A msg : only_rejects (throw (Rejected msg) : M S _ A).
Proof. intros ??? [= <- <-]. eauto. Qed.
Lemma rejects_bind A B (m : M S StorageError A) (f : A → M S StorageError B) :
  only_rejects m → (∀ a, only_rejects (f a)) → only_rejects (m ≫= f).
Proof.
  intros Hm Hf s e s'. unfold mbind, M_bind. destruct (m s) as [[a|e'] s1] eqn:E; [apply Hf|].
  intros [= <- <-]. by eapply Hm.
Qed.
Lemma rejects_for_each X (xs : list X) (body : X → M S StorageError unit) :
  (∀ x, only_rejects (body x)) → only_rejects (for_each xs body).
Proof.
  intros Hb. induction xs; simpl; [apply rejects_ret|]. apply rejects_bind; [done|]. by intros _.
Qed.
Lemma rejects_any_m X (xs : list X) (body : X → M S StorageError bool) :
  (∀ x, only_rejects (body x)) → only_rejects (any_m xs body).
Proof.
  intros Hb. induction xs; simpl; [apply rejects_ret|]. apply rejects_bind; [done|].
  intros []; [apply rejects_ret|done].
Qed.
End Rejects.

Ltac solve_rejects :=
  repeat first
    [ solve [auto 2 with relayer nocore] | apply rejects_ret | apply rejects_gets | apply rejects_modify
    | apply rejects_ensure | apply rejects_ok_or | apply rejects_throw
    | apply rejects_for_each; intros ? | apply rejects_any_m; intros ?
    | apply rejects_bind; [|intros ?]
    | match goal with |- only_rejects (match ?x with _ => _ end) => destruct x end
    | match goal with |- only_rejects (let '(_, _) := ?x in _) => destruct x end ].

Lemma rejects_is_serial_preemption_safe k : only_rejects (is_serial_preemption_safe k).
Proof.
  unfold is_serial_preemption_safe, get_task_queue, get_task, ERR_TASK_NOT_FOUND. solve_rejects.
Qed.
Lemma rejects_head_is_yieldable k : only_rejects (head_is_yieldable k).
Proof. unfold head_is_yieldable, get_task_queue, get_task, ERR_TASK_NOT_FOUND. solve_rejects. Qed.
Lemma rejects_write_task_queue k q : only_rejects (write_task_queue k q).
Proof. unfold write_task_queue. solve_rejects. Qed.
#[export] Hint Resolve rejects_is_serial_preemption_safe rejects_head_is_yieldable
  rejects_write_task_queue : relayer.

Lemma rejects_get_task id : only_rejects (get_task id).
Proof. apply rejects_gets. Qed.
Lemma rejects_get_queue_keys id : only_rejects (get_queue_keys_for_task id).
Proof. apply rejects_gets. Qed.
Lemma rejects_get_pending_list k : only_rejects (get_pending_preempt_list k).
Proof. apply rejects_gets. Qed.
Lemma rejects_get_assignment id : only_rejects (get_task_assignment id).
Proof. apply rejects_gets. Qed.
Lemma rejects_pending_head k : only_rejects (pending_preempt_head k).
Proof. unfold pending_preempt_head, get_pending_preempt_list. solve_rejects. Qed.
Lemma rejects_is_pending_head e k : only_rejects (is_pending_head e k).
Proof. unfold is_pending_head, pending_preempt_head, get_pending_preempt_list. solve_rejects. Qed.
Lemma rejects_can_task_run id : only_rejects (can_task_run id).
Proof. unfold can_task_run, can_run_on, get_queue_keys_for_task, get_task_queue. solve_rejects. Qed.
Lemma rejects_next_runnable k : only_rejects (next_runnable_task k).
Proof. unfold next_runnable_task, get_task_queue, get_task. solve_rejects. Qed.
Lemma rejects_transition id st : only_rejects (transition_task id st).
Proof. unfold transition_task, get_task, update_task, ERR_TASK_NOT_FOUND. solve_rejects. Qed.
Lemma rejects_enqueue k task : only_rejects (enqueue_serial_task k task).
Proof.
  unfold enqueue_serial_task, get_task_queue_deserialized, get_task_queue, write_task, update_task,
    update_task_to_queues. solve_rejects.
Qed.
Lemma rejects_preempt_inner ks task allow : only_rejects (do_preempt_serial_inner ks task allow).
Proof.
  unfold do_preempt_serial_inner, preempt_serial_on, requeue_task, write_task, update_task,
    update_task_to_queues, get_task, get_task_queue_deserialized, get_task_queue,
    ERR_CANNOT_SERIALLY_PREEMPT. solve_rejects.
Qed.
Lemma rejects_preempt_concurrent ks task : only_rejects (preempt_queue_with_concurrent ks task).
Proof.
  unfold preempt_queue_with_concurrent, preempt_concurrent_on, write_task, update_task,
    update_task_to_queues, get_task_queue_deserialized, get_task_queue,
    ERR_CANNOT_CONCURRENTLY_PREEMPT. solve_rejects.
Qed.
Lemma rejects_pop id : only_rejects (pop_task id).
Proof.
  unfold pop_task, pop_from, delete_task, get_task, get_queue_keys_for_task,
    get_task_queue_deserialized, get_task_queue, ERR_TASK_NOT_POPPED. solve_rejects.
Qed.
Lemma rejects_remove_pending e : only_rejects (remove_pending_preemption_entry e).
Proof.
  unfold remove_pending_preemption_entry, remove_entry_from, get_pending_preempt_list. solve_rejects.
Qed.
Lemma rejects_delete_tasks ids : only_rejects (delete_tasks ids).
Proof.
  induction ids; simpl; [apply rejects_ret|]. unfold delete_task, get_task. solve_rejects.
Qed.
#[export] Hint Resolve rejects_get_task rejects_get_queue_keys rejects_get_pending_list
  rejects_get_assignment rejects_pending_head rejects_is_pending_head rejects_can_task_run
  rejects_next_runnable rejects_transition rejects_enqueue rejects_preempt_inner
  rejects_preempt_concurrent rejects_pop rejects_remove_pending rejects_delete_tasks : relayer.

Lemma rejects_clear k : only_rejects (clear_task_queue k).
Proof.
  unfold clear_task_queue, delete_pending_preemption, get_task_queue, get_pending_preempt_list.
  solve_rejects.
Qed.
Lemma rejects_add_assigned p id : only_rejects (add_assigned_task p id).
Proof. apply rejects_modify. Qed.
Lemma rejects_remove_assigned p id : only_rejects (remove_assigned_task p id).
Proof. apply rejects_modify. Qed.
Lemma rejects_reassign from to : only_rejects (reassign_tasks from to).
Proof. unfold reassign_tasks, get_assigned_tasks. solve_rejects. Qed.
Lemma rejects_preempt_serial flags ks task : only_rejects (preempt_queue_with_serial flags ks task).
Proof.
  unfold preempt_queue_with_serial, hard_blocked, yield_allowed, yield_count,
    has_pending_preemption, get_pending_preempt_list, bump_yielded, bump_yield_count,
    reset_exhausted, reset_yield_count, defer_preemption, check_pending_depth, next_pending_seq,
    append_pending_preemption, get_pending_preempt_list,
    ERR_CANNOT_SERIALLY_PREEMPT, ERR_PENDING_QUEUE_FULL.
  solve_rejects.
Qed.
#[export] Hint Resolve rejects_clear rejects_add_assigned rejects_remove_assigned rejects_reassign
  rejects_preempt_serial : relayer.

(** The outcomes the policy allows: the task takes every queue, or every queue records it as
    pending and nothing else moves, or the transition is rejected. *)
Definition preempt_outcome (flags : FeatureFlags) (ks : list TaskQueueKey) (task : QueuedTask)
    (d : TaskDb) (r : result StorageError PreemptOutcome * TaskDb) : Prop :=
  let '(o, d') := r in
  match o with
  | Ok Preempted =>
      tasks d' !! task_id task = Some task ∧
      task_to_queues d' = <[task_id task := ks]> (task_to_queues d) ∧
      pending d' = pending d ∧ task_assignment d' = task_assignment d ∧
      (∀ k, k ∉ ks → queues d' !! k = queues d !! k) ∧
      ∀ k, k ∈ ks →
        preemption_state (queue_at d k) ≠ SerialPreemptionQueued ∧
        queues d' !! k = Some (preempted_queue (task_id task) (queue_at d k)) ∧
        ∀ t, head_at d k = Some t →
          ∃ old, tasks d !! t = Some old ∧
            (t ≠ task_id task → tasks d' !! t = Some (set_state Queued old)) ∧
            (is_committed (task_state old) = true →
              order_yield_enabled flags = true ∧ is_yieldable (task_descriptor old) = true ∧
              ycount d k < MAX_CONSECUTIVE_YIELDS)
  | Ok Deferred =>
      settle_defer_enabled flags = true ∧
      queues d' = queues d ∧ tasks d' = tasks d ∧ task_to_queues d' = task_to_queues d ∧
      (∀ k, k ∈ ks → (length (pend d k) < MAX_PENDING_PER_QUEUE)%nat) ∧
      ∀ k, pend d' k =
        if decide (k ∈ ks) then pend d k ++ [mkPendingEntry task ks (counter d + 1)] else pend d k
  | Err e => ∃ msg, e = Rejected msg
  end.

Lemma preempt_outcome_heads flags ks task d dy d1 k t :
  frame_yields d dy → hard_blocked flags k d = (Ok false, d) →
  preempted (task_id task) (order_yield_enabled flags) ks dy d1 →
  k ∈ ks → head_at d k = Some t →
  ∃ old, tasks d !! t = Some old ∧ tasks d1 !! t = Some (set_state Queued old) ∧
    (is_committed (task_state old) = true →
      order_yield_enabled flags = true ∧ is_yieldable (task_descriptor old) = true ∧
      ycount d k < MAX_CONSECUTIVE_YIELDS).
Proof.
  intros Hf Hb%not_hard_blocked Hp Hk Ht.
  assert (∀ k', head_at dy k' = head_at d k') as Eh by (intros; unfold head_at, queue_at; by rewrite Hf).
  assert (tasks dy = tasks d) as Et by (by rewrite Hf).
  destruct (pr_heads _ _ _ _ _ Hp k t Hk) as (old & Hold & _); [by rewrite Eh|].
  rewrite Et in Hold. exists old. split_and!; [done| |].
  - rewrite (pr_tasks _ _ _ _ _ Hp), decide_True, Et, Hold; [done|].
    apply Exists_exists. exists k. by rewrite Eh.
  - intros Hc. destruct Hb as [[_ Hd]|(? & Hy & ?)].
    + destruct (Hd t Ht) as (old' & ? & H'). simplify_eq. by destruct (H' Hc).
    + unfold yieldable_at in Hy. rewrite Ht in Hy. simpl in Hy. rewrite Hold in Hy.
      apply andb_true_iff in Hy as [_ ?]. done.
Qed.

Lemma preempt_serial_outcome flags ks task d :
  NoDup ks → 0 ≤ counter d < U64_MAX →
  preempt_outcome flags ks task d (preempt_queue_with_serial flags ks task d).
Proof.
  intros Hnd Hc. destruct (preempt_queue_with_serial flags ks task d) as [[o|e] d'] eqn:E; simpl;
    [|by eapply rejects_preempt_serial].
  apply preempt_queue_with_serial_inv in E; [|done]. destruct o.
  - destruct E as (dy & d1 & Hf & Hb & _ & Hp & ->).
    pose proof (pr_frame _ _ _ _ _ Hp) as Hf1.
    assert (∀ k', queue_at dy k' = queue_at d k') as Eq by (intros; unfold queue_at; by rewrite Hf).
    split_and!; simpl; [by rewrite lookup_insert_eq|by rewrite Hf1; simpl; rewrite Hf
      |by rewrite Hf1; simpl; rewrite Hf|by rewrite Hf1; simpl; rewrite Hf| |].
    + intros k Hk. by rewrite (pr_queues _ _ _ _ _ Hp), decide_False, Hf by done.
    + intros k Hk. rewrite (pr_queues _ _ _ _ _ Hp), decide_True, Eq by done.
      pose proof (pr_state _ _ _ _ _ Hp k Hk) as Hs. rewrite Eq in Hs.
      split_and!; [done|done|]. intros t Ht.
      destruct (preempt_outcome_heads _ _ _ _ _ _ _ _ Hf (Hb k Hk) Hp Hk Ht) as (old & ? & ? & ?).
      exists old. split_and!; [done| |done]. intros. by rewrite lookup_insert_ne.
  - destruct E as (Hs & dy & [Hf _] & H).
    assert (counter dy = counter d) as Ec by (unfold counter; by rewrite Hf).
    assert (∀ k, pend dy k = pend d k) as Ep by (intros; unfold pend; by rewrite Hf).
    apply defer_preemption_inv in H as (Hf' & _ & Hd & H); [|done|by rewrite Ec].
    split_and!; [done|by rewrite Hf'; simpl; rewrite Hf|by rewrite Hf'; simpl; rewrite Hf
      |by rewrite Hf'; simpl; rewrite Hf| |]; intros k; rewrite <-Ep; [auto|by rewrite <-Ec].
Qed.

(** ** Properties *)

(** C24: a serial preemption is all or nothing.  If it succeeds, the task is at the head of
    every target queue, none of which was already serially preempted; the task it displaces
    from a queue goes back to the queued state, and had not committed unless it was an order
    task of a queue whose yield budget is not used up.  If it is deferred, every target queue
    records it at the end of its pending list, with room, and no queue or task changes.
    Otherwise the transition is rejected. *)
Theorem serial_preemption_all_or_nothing (flags : FeatureFlags) (ks : list TaskQueueKey)
    (task : QueuedTask) (d : TaskDb) :
  NoDup ks → 0 ≤ counter d < U64_MAX →
  preempt_outcome flags ks task d (preempt_queue_with_serial flags ks task d).
Proof. apply preempt_serial_outcome. Qed.

Definition witness_task (id : TaskIdentifier) (s : QueuedTaskState) (desc : TaskDescriptor) : QueuedTask :=
  mkQueuedTask id s desc 0.
(** Queue 1 runs a committed order cancellation; queue 2 runs a committed withdrawal; queue 3
    is idle. *)
Definition witness_db : TaskDb :=
  let d1 := (enqueue_serial_task 1 (witness_task 10 (Running "Proving" true) (CancelOrder 1))
               empty_task_db).2 in
  (enqueue_serial_task 2 (witness_task 20 (Running "Submitting" true) (Withdraw 2)) d1).2.

Lemma serial_preemption_all_or_nothing_witness :
  let settle a b := witness_task 30 Queued (SettleInternalMatch a b) in
  let p ks t := preempt_queue_with_serial production_flags ks t witness_db in
  ((p [1; 3] (settle 1 3)).1 = Ok Preempted ∧
    preempt_outcome production_flags [1; 3] (settle 1 3) witness_db (p [1; 3] (settle 1 3))) ∧
  ((p [1; 2] (settle 1 2)).1 = Ok Deferred ∧
    preempt_outcome production_flags [1; 2] (settle 1 2) witness_db (p [1; 2] (settle 1 2))).
Proof.
  split; (split; [reflexivity|]);
    (apply serial_preemption_all_or_nothing; [apply (bool_decide_unpack _); exact I|]);
    vm_compute; split; discriminate || reflexivity.
Defined.
