(* ===== verification/TaskApplicator.v ===== *)
(** * The task queue applicator

    src/crates/state/src/applicator/task_queue.rs: the state transitions on task queues
    that raft commits, applied to the tables of [TaskStorage] on every node.  A transition
    runs in one write transaction ([with_tx]): on an error the tables are as before, while
    messages already sent to the task driver, the system bus and the event manager stay
    sent.

    The drain loop [run_unblocked_preemptions] runs with fuel; TaskInvariant shows that
    the fuel it is given is always enough. *)
From S2P Require Import Prelude Scalar TaskTypes TaskQueue TaskStorage.
Local Open Scope Z_scope.

(** The errors of applicator/error.rs that these handlers raise.  [Panicked] is an
    [unwrap] or [expect] of [None]; [OutOfFuel] is the model's own, the fuel of the drain
    loop; neither occurs in a reachable state.  Rejection messages are given without the
    task id the source formats into them. *)
Inductive StateApplicatorError :=
| EnqueueTask (msg : string)
| MissingEntry (msg : string)
| AppRejected (msg : string)
| Storage (e : StorageError)
| TaskQueueEmpty (key : TaskQueueKey)
| Panicked
| OutOfFuel.

(** [opt.unwrap()] *)
Definition unwrap {S A} (o : option A) : M S StateApplicatorError A := ok_or o Panicked.

(** [From<StorageError>] *)
Definition from_storage_error (e : StorageError) : StateApplicatorError :=
  match e with Rejected msg => AppRejected msg | e => Storage e end.

Inductive ApplicatorReturnType := RetNone | RetDeferred.

(** What the node is configured with and connected to. *)
Record AppConfig := mkAppConfig {
  cfg_flags : FeatureFlags;
  task_driver_open : bool;
  has_listeners : TaskIdentifier → bool;
}.

Record TaskStatus := mkTaskStatus {
  status_id : TaskIdentifier;
  status : string;
  status_description : option string;
}.

(** The tables and the messages sent so far, newest first. *)
Record TaskWorld := mkTaskWorld {
  tdb : TaskDb;
  driver_jobs : list QueuedTask;
  bus_messages : list TaskStatus;
  completion_events : list (TaskQueueKey * HistoricalTask);
}.
Definition set_tdb (d : TaskDb) (w : TaskWorld) : TaskWorld :=
  mkTaskWorld d (driver_jobs w) (bus_messages w) (completion_events w).

Abbreviation App := (M TaskWorld StateApplicatorError) (only parsing).

(** Run storage code in the transaction. *)
Definition db {A} (m : M TaskDb StorageError A) : App A := zoom tdb set_tdb from_storage_error m.

Definition PENDING_STATE : string := "Pending".
Definition new_running_state : QueuedTaskState := Running PENDING_STATE false.

Definition task_to_status (t : QueuedTask) : TaskStatus :=
  let '(s, d) :=
    match task_state t with
    | Queued => ("queued"%string, None)
    | Preemptive => ("preemptive"%string, None)
    | Running state _ => ("running"%string, Some state)
    | Completed => ("completed"%string, None)
    | Failed => ("failed"%string, None)
    end in
  mkTaskStatus (task_id t) s d.

(** The task queue transitions of state_transition.rs. *)
Inductive TaskTransition :=
| AppendTask (task : QueuedTask) (executor : PeerId)
| PopTask (id : TaskIdentifier) (success : bool)
| TransitionTask (id : TaskIdentifier) (state : QueuedTaskState)
| ClearTaskQueue (queue : TaskQueueKey)
| EnqueuePreemptiveTask (keys : list TaskQueueKey) (task : QueuedTask) (executor : PeerId)
    (serial : bool)
| ReassignTasks (from to : PeerId).

Section Applicator.
Context (cfg : AppConfig).

(** ** Helpers *)

Definition publish_task_updates (key : TaskQueueKey) (t : QueuedTask) : App unit :=
  if has_listeners cfg (task_id t)
  then modify (λ w, mkTaskWorld (tdb w) (driver_jobs w) (task_to_status t :: bus_messages w)
                      (completion_events w))
  else mret tt.
Definition publish_task_updates_multiple (keys : list TaskQueueKey) (t : QueuedTask) : App unit :=
  for_each keys (λ key, publish_task_updates key t).

Definition send_job (t : QueuedTask) : App unit :=
  ensure (task_driver_open cfg) (EnqueueTask "channel closed");;
  modify (λ w, mkTaskWorld (tdb w) (t :: driver_jobs w) (bus_messages w) (completion_events w)).

Definition maybe_execute_task (t : QueuedTask) : App unit :=
  my_peer_id ← db get_peer_id;
  executor ← db (get_task_assignment (task_id t));
  executor ← ok_or executor (MissingEntry "task not assigned");
  if executor =? my_peer_id then send_job t else mret tt.

Definition maybe_run_task (t : QueuedTask) : App unit :=
  can_run ← db (can_task_run (task_id t));
  if negb can_run then mret tt
  else db (transition_task (task_id t) new_running_state);; maybe_execute_task t.

Definition send_event (key : TaskQueueKey) (t : HistoricalTask) : App unit :=
  modify (λ w, mkTaskWorld (tdb w) (driver_jobs w) (bus_messages w)
                 ((key, t) :: completion_events w)).

Definition maybe_append_historical_task (keys : list TaskQueueKey) (t : QueuedTask)
    (executor : PeerId) : App unit :=
  history_enabled ← db get_historical_state_enabled;
  for_each keys (λ key,
    match from_queued_task t with
    | None => mret tt
    | Some h =>
        (if (history_enabled : bool) then db (append_task_to_history key h) else mret tt);;
        my_peer_id ← db get_peer_id;
        if my_peer_id =? executor then send_event key h else mret tt
    end).

Definition pop_and_record_task (keys : list TaskQueueKey) (id : TaskIdentifier) (success : bool)
    : App (option (QueuedTask * PeerId)) :=
  task ← db (TaskStorage.pop_task id);
  match task with
  | None => mret None
  | Some t =>
      let t := set_state (if success then Completed else Failed) t in
      executor ← db (get_task_assignment id);
      match executor with
      | None => mret None
      | Some peer =>
          db (remove_assigned_task peer (task_id t));;
          maybe_append_historical_task keys t peer;;
          mret (Some (t, peer))
      end
  end.

Definition app_clear_task_queue (key : TaskQueueKey) : App unit :=
  cleared ← db (TaskStorage.clear_task_queue key);
  for_each cleared (λ t,
    let t := set_state Failed t in
    executor ← db (get_task_assignment (task_id t));
    executor ← ok_or executor (MissingEntry "task not assigned");
    maybe_append_historical_task [key] t executor;;
    publish_task_updates key t;;
    assignment ← db (get_task_assignment (task_id t));
    match assignment with
    | Some peer => db (remove_assigned_task peer (task_id t))
    | None => mret tt
    end).

Definition try_preempt_queues (keys : list TaskQueueKey) (t : QueuedTask) (is_serial : bool)
    : App PreemptOutcome :=
  if is_serial then db (preempt_queue_with_serial (cfg_flags cfg) keys t)
  else db (preempt_queue_with_concurrent keys t);; mret Preempted.

(** One turn of the drain loop: [true] to go on, [false] to return. *)
Definition drain_step (key : TaskQueueKey) (executor : PeerId) : App bool :=
  entry ← db (pending_preempt_head key);
  match entry with
  | None => mret false
  | Some e =>
      live ← db (get_task (task_id (entry_task e)));
      match live with
      | Some _ => db (remove_pending_preemption_entry e);; mret true
      | None =>
          blocked ← db (any_m (target_keys e) (λ k,
            h ← is_pending_head e k;
            if negb h then mret true else safe ← is_serial_preemption_safe k; mret (negb safe)));
          if (blocked : bool) then mret false else
          db (do_preempt_serial (target_keys e) (entry_task e));;
          db (remove_pending_preemption_entry e);;
          db (add_assigned_task executor (task_id (entry_task e)));;
          archived ← db (get_task (task_id (entry_task e)));
          match archived with Some t => maybe_run_task t | None => mret tt end;;
          mret true
      end
  end.
Fixpoint drain_loop (fuel : nat) (key : TaskQueueKey) (executor : PeerId) : App unit :=
  match fuel with
  | O => throw OutOfFuel
  | S fuel' =>
      continue ← drain_step key executor;
      if (continue : bool) then drain_loop fuel' key executor else mret tt
  end.

(** The loop removes an entry of the queue's pending list in every turn but the last. *)
Definition run_unblocked_preemptions (key : TaskQueueKey) (executor : PeerId) : App unit :=
  l ← db (get_pending_preempt_list key);
  drain_loop (S (length l)) key executor.

(** ** State transitions *)

Definition append_task (task : QueuedTask) (executor : PeerId) : App ApplicatorReturnType :=
  let key := queue_key (task_descriptor task) in
  with_tx tdb set_tdb (
    db (TaskStorage.enqueue_serial_task key task);;
    db (add_assigned_task executor (task_id task));;
    archived ← db (get_task (task_id task));
    archived ← unwrap archived;
    maybe_run_task archived);;
  publish_task_updates key task;;
  mret RetNone.

(** Clear the queue after a failure, then start its next task. *)
Definition process_queue (success : bool) (key : TaskQueueKey) : App unit :=
  (if success then mret tt else app_clear_task_queue key);;
  next ← db (next_runnable_task key);
  match next with Some t => maybe_run_task t | None => mret tt end.

Definition pop_task (id : TaskIdentifier) (success : bool) : App ApplicatorReturnType :=
  '(keys, task) ← with_tx tdb set_tdb (
    keys ← db (get_queue_keys_for_task id);
    match keys with
    | [] => throw (AppRejected "key not found for task")
    | key0 :: _ =>
        popped ← pop_and_record_task keys id success;
        '(task, executor) ← ok_or popped (TaskQueueEmpty key0);
        for_each keys (process_queue success);;
        (if success then for_each keys (λ key, run_unblocked_preemptions key executor)
         else mret tt);;
        mret (keys, task)
    end);
  publish_task_updates_multiple keys task;;
  mret RetNone.

Definition transition_task_state (id : TaskIdentifier) (state : QueuedTaskState)
    : App ApplicatorReturnType :=
  '(keys, task) ← with_tx tdb set_tdb (
    keys ← db (get_queue_keys_for_task id);
    task ← db (get_task id);
    task ← ok_or task (AppRejected "invalid task id");
    ensure (is_running (task_state task)) (AppRejected "task is not running");;
    db (transition_task id state);;
    updated ← db (get_task id);
    updated ← unwrap updated;
    mret (keys, updated));
  publish_task_updates_multiple keys task;;
  mret RetNone.

Definition clear_queue (key : TaskQueueKey) : App ApplicatorReturnType :=
  with_tx tdb set_tdb (app_clear_task_queue key);; mret RetNone.

Definition enqueue_preemptive_task (keys : list TaskQueueKey) (task : QueuedTask)
    (executor : PeerId) (is_serial : bool) : App ApplicatorReturnType :=
  outcome ← with_tx tdb set_tdb (
    outcome ← try_preempt_queues keys task is_serial;
    match outcome with
    | Deferred => mret Deferred
    | Preempted =>
        db (add_assigned_task executor (task_id task));;
        archived ← db (get_task (task_id task));
        archived ← unwrap archived;
        maybe_run_task archived;;
        mret Preempted
    end);
  match outcome with
  | Deferred => mret RetDeferred
  | Preempted => publish_task_updates_multiple keys task;; mret RetNone
  end.

Definition app_reassign_tasks (from to : PeerId) : App ApplicatorReturnType :=
  with_tx tdb set_tdb (
    ids ← db (reassign_tasks from to);
    for_each ids (λ id,
      task ← db (get_task id);
      match task with
      | Some t => if is_running (task_state t) then maybe_run_task t else mret tt
      | None => mret tt
      end));;
  mret RetNone.

(** The task cases of [handle_state_transition]. *)
Definition handle_task_transition (t : TaskTransition) : App ApplicatorReturnType :=
  match t with
  | AppendTask task executor => append_task task executor
  | PopTask id success => pop_task id success
  | TransitionTask id state => transition_task_state id state
  | ClearTaskQueue queue => clear_queue queue
  | EnqueuePreemptiveTask keys task executor serial =>
      enqueue_preemptive_task keys task executor serial
  | ReassignTasks from to => app_reassign_tasks from to
  end.
End Applicator.
