(* ===== verification/TaskInvariant.v ===== *)
(** * Invariants of the task queue applicator

    On a node that is set up and has its task driver, every state transition of
    [TaskApplicator] keeps the invariant of the task tables and fails only by rejecting the
    transition; any other error is fatal to the raft core of every node.  So: no unassigned
    task, no empty queue under a recorded task, no disabled table, no failed [unwrap], no
    exhausted drain loop.  From the invariant: deferred settlements cannot deadlock, and the
    drain loop starts every settlement that can start. *)
From S2P Require Import Prelude Scalar TaskTypes TaskQueue TaskStorage TaskStorageSpec.
From S2P Require Import TaskApplicator.
Local Open Scope Z_scope.

(** The node metadata the handlers read is there. *)
Definition ready (d : TaskDb) : Prop :=
  is_Some (peer_id d) ∧ is_Some (historical_state_enabled d).

Record core_ok (d : TaskDb) : Prop := mkCoreOk {
  core_queues : queues_ok d;
  core_index : index_ok d;
  core_pending : pending_ok d;
  core_yields : yields_ok d;
  core_ready : ready d;
}.
Definition db_ok (d : TaskDb) : Prop := core_ok d ∧ live_assigned ∅ d.

(** The error a transition may end with: a rejection. *)
Definition benign (e : StateApplicatorError) : Prop :=
  match e with AppRejected _ => True | _ => False end.

(** ** A small program logic *)

(** From tables satisfying [P], the handler ends with [Q] or rejects. *)
Definition app_spec {A} (P : TaskDb → Prop) (m : M TaskWorld StateApplicatorError A)
    (Q : A → TaskDb → Prop) : Prop :=
  ∀ w, P (tdb w) →
  match m w with
  | (Ok a, w') => Q a (tdb w')
  | (Err e, _) => benign e
  end.

Section Logic.
Context {A : Type}.
Implicit Types (P R : TaskDb → Prop).

Lemma app_ret P (a : A) Q : (∀ d, P d → Q a d) → app_spec P (mret a) Q.
Proof. intros H w HP. by apply H. Qed.

Lemma app_bind {B} P (R : A → TaskDb → Prop) Q (m : M TaskWorld StateApplicatorError A)
    (f : A → M TaskWorld StateApplicatorError B) :
  app_spec P m R → (∀ a, app_spec (R a) (f a) Q) → app_spec P (m ≫= f) Q.
Proof.
  intros Hm Hf w HP. specialize (Hm w HP). unfold mbind, M_bind.
  destruct (m w) as [[a|e] w']; [by apply Hf|done].
Qed.

Lemma app_weaken P P' Q Q' (m : M TaskWorld StateApplicatorError A) :
  app_spec P m Q → (∀ d, P' d → P d) → (∀ a d, Q a d → Q' a d) → app_spec P' m Q'.
Proof.
  intros H HP HQ w Hw. specialize (H w (HP _ Hw)). destruct (m w) as [[a|e] w']; [by apply HQ|done].
Qed.

Lemma app_db_gen P Q (m : M TaskDb StorageError A) :
  (∀ d e d', P d → m d = (Err e, d') → ∃ msg, e = Rejected msg) →
  (∀ d a d', P d → m d = (Ok a, d') → Q a d') → app_spec P (db m) Q.
Proof.
  intros He H w HP. unfold db, zoom. specialize (H (tdb w)). specialize (He (tdb w)).
  destruct (m (tdb w)) as [[a|e] d']; [by apply H|].
  by destruct (He e d' HP eq_refl) as [msg ->].
Qed.

Lemma app_db P Q (m : M TaskDb StorageError A) :
  only_rejects m → (∀ d a d', P d → m d = (Ok a, d') → Q a d') → app_spec P (db m) Q.
Proof. intros Hr. apply app_db_gen. intros d e d' _. apply Hr. Qed.

Lemma app_read P (m : M TaskDb StorageError A) :
  only_rejects m → reads m → app_spec P (db m) (λ a d, P d ∧ m d = (Ok a, d)).
Proof.
  intros He Hr. apply app_db; [done|].
  intros d a d' HP Hm. pose proof (reads_Ok _ _ _ _ Hr Hm) as ->. done.
Qed.

Lemma app_ok_or P (o : option A) e :
  (o = None → ∀ d, P d → benign e) → app_spec P (ok_or o e) (λ a d, P d ∧ o = Some a).
Proof. intros H w HP. destruct o; simpl; [done|by eapply H]. Qed.

Lemma app_with_tx P Q (m : M TaskWorld StateApplicatorError A) :
  app_spec P m Q → app_spec P (with_tx tdb set_tdb m) Q.
Proof.
  intros H w HP. specialize (H w HP). unfold with_tx. by destruct (m w) as [[a|e] w'].
Qed.
End Logic.

Lemma app_for_each {A} (P : TaskDb → Prop) (xs : list A) body :
  (∀ x, x ∈ xs → app_spec P (body x) (λ _, P)) → app_spec P (for_each xs body) (λ _, P).
Proof.
  intros H. induction xs as [|x xs IH]; simpl; [by intros w HP|].
  eapply app_bind; [apply H; by left|]. intros v. apply IH. intros y Hy. apply H. by right.
Qed.

(** ** Frames *)

Lemma core_ok_ext d d' :
  core_ok d → queues d' = queues d → task_to_queues d' = task_to_queues d → same_ids d d' →
  pending d' = pending d → pending_seq d' = pending_seq d → yield_counts d' = yield_counts d →
  peer_id d' = peer_id d → historical_state_enabled d' = historical_state_enabled d →
  core_ok d'.
Proof.
  intros [Hq Hi Hp Hy Hr] E1 E2 Hs E3 E4 E5 E6 E7. split.
  - unfold queues_ok. by rewrite E1.
  - by eapply index_ok_same.
  - by eapply pending_ok_ext.
  - intros k. unfold ycount. rewrite E5. apply Hy.
  - unfold ready. by rewrite E6, E7.
Qed.

(** The queues and tasks changed, consistently. *)
Lemma core_ok_index d d' :
  core_ok d → queues_ok d' → index_ok d' → frame_index d d' → core_ok d'.
Proof.
  intros [_ _ Hp Hy Hr] Hq Hi Hf. split; [done|done| | |].
  - eapply pending_ok_ext; [| |exact Hp]; by rewrite Hf.
  - intros k. unfold ycount. rewrite Hf. apply Hy.
  - unfold ready. by rewrite Hf.
Qed.

Lemma core_ok_pending d d' :
  core_ok d → pending_ok d' → frame_pending d d' → core_ok d'.
Proof.
  intros [Hq Hi _ Hy Hr] Hp Hf. split; [|eapply index_ok_same; [exact Hi|..]| | |].
  - unfold queues_ok. by rewrite Hf.
  - by rewrite Hf.
  - by rewrite Hf.
  - intros x. by rewrite Hf.
  - done.
  - intros k. unfold ycount. rewrite Hf. apply Hy.
  - unfold ready. by rewrite Hf.
Qed.

Lemma live_assigned_ext X d d' :
  live_assigned X d → (∀ id, is_Some (tasks d' !! id) → is_Some (tasks d !! id)) →
  assigned_tasks d' = assigned_tasks d → task_assignment d' = task_assignment d →
  live_assigned X d'.
Proof. intros H Ht E1 E2 id Hid Hs. rewrite E1, E2. by apply H, Ht. Qed.

(** A task recorded or re-recorded in tables that are otherwise as before. *)
Lemma live_assigned_write d d' d1 id task ks :
  live_assigned ∅ d → same_ids d d1 → frame_tasks d d1 →
  d' = set_task_to_queues <[id := ks]> (set_tasks <[id := task]> d1) →
  live_assigned {[id]} d'.
Proof.
  intros H Hs Hf -> x Hx. simpl. rewrite lookup_insert_ne by set_solver.
  rewrite (same_ids_is_Some _ _ _ Hs). rewrite Hf. simpl. apply H. set_solver.
Qed.

Lemma live_assigned_add id p d :
  live_assigned {[id]} d → live_assigned ∅ (set_assignments (add_to p id) <[id := p]> d).
Proof.
  intros H x _ Hx. simpl in *. unfold add_to. destruct (decide (x = id)) as [->|Hne].
  - exists p. rewrite !lookup_insert_eq. split; [done|]. simpl. set_solver.
  - destruct (H x ltac:(set_solver) Hx) as (p' & Hp & Hin).
    exists p'. rewrite lookup_insert_ne by done. split; [done|].
    destruct (decide (p' = p)) as [->|].
    + rewrite lookup_insert_eq. simpl. set_solver.
    + by rewrite lookup_insert_ne.
Qed.

Lemma live_assigned_remove id p d :
  live_assigned ∅ d → tasks d !! id = None →
  live_assigned ∅ (set_assignments (remove_from p id) (delete id) d).
Proof.
  intros H Hn x _ Hx. simpl in *. assert (x ≠ id) by (intros ->; rewrite Hn in Hx; by destruct Hx).
  destruct (H x ltac:(set_solver) Hx) as (p' & Hp & Hin). exists p'.
  rewrite lookup_delete_ne by done. split; [done|]. unfold remove_from.
  destruct (decide (p' = p)) as [->|].
  - rewrite lookup_insert_eq. simpl. set_solver.
  - by rewrite lookup_insert_ne.
Qed.

Lemma core_ok_assignments d f g : core_ok d → core_ok (set_assignments f g d).
Proof. intros H. by eapply core_ok_ext. Qed.

Lemma db_ok_history f g d : db_ok d → db_ok (set_history f g d).
Proof. intros [Hc Hl]. split; [by eapply core_ok_ext|done]. Qed.

(** ** The helpers of the applicator *)

Section Handlers.
Context (cfg : AppConfig).
Hypothesis driver_open : task_driver_open cfg = true.

Lemma publish_spec P key t : app_spec P (publish_task_updates cfg key t) (λ _, P).
Proof. intros w HP. unfold publish_task_updates. by destruct (has_listeners _ _). Qed.
Lemma publish_multiple_spec P keys t : app_spec P (publish_task_updates_multiple cfg keys t) (λ _, P).
Proof. apply app_for_each. intros. apply publish_spec. Qed.

Lemma get_peer_id_spec (P : TaskDb → Prop) :
  (∀ d, P d → ready d) → app_spec P (db get_peer_id) (λ _, P).
Proof.
  intros HP. unfold get_peer_id. apply app_db_gen; intros d x d' H Hm.
  - destruct (HP d H) as [[p Hp] _]. unfold gets, ok_or, mbind, M_bind in Hm. by rewrite Hp in Hm.
  - by inv_ok.
Qed.

Lemma maybe_execute_spec (P : TaskDb → Prop) t :
  (∀ d, P d → ready d) →
  app_spec (λ d, P d ∧ is_Some (task_assignment d !! task_id t)) (maybe_execute_task cfg t) (λ _, P).
Proof.
  intros HP. unfold maybe_execute_task.
  eapply app_bind; [apply get_peer_id_spec; intros d [? _]; auto|]. intros me.
  eapply app_bind; [apply app_read; [solve_rejects|unfold get_task_assignment; solve_reads]|].
  intros executor. eapply app_bind.
  { apply app_ok_or. intros -> d [[_ [p Hp]] H]. unfold get_task_assignment in H. by inv_ok. }
  intros p w [[[Hw _] _] _]. destruct (p =? me); [|done].
  unfold send_job, ensure. by rewrite driver_open.
Qed.

Lemma transition_task_inv id s d u d' :
  transition_task id s d = (Ok u, d') →
  ∃ t, tasks d !! id = Some t ∧ d' = set_tasks <[id := set_state s t]> d.
Proof. unfold transition_task, get_task, update_task. intros H. inv_ok. eauto. Qed.

Lemma transition_same_ids id s t d :
  tasks d !! id = Some t → same_ids d (set_tasks <[id := set_state s t]> d).
Proof.
  intros Ht x. simpl. destruct (decide (x = id)) as [->|]; [|by rewrite lookup_insert_ne].
  by rewrite lookup_insert_eq, Ht.
Qed.

Lemma transition_db_ok id s t d :
  db_ok d → tasks d !! id = Some t → db_ok (set_tasks <[id := set_state s t]> d).
Proof.
  intros [Hc Hl] Ht. pose proof (transition_same_ids id s t d Ht) as Hs.
  split; [by eapply core_ok_ext|]. eapply live_assigned_ext; [done| |done|done].
  intros x. by rewrite (same_ids_is_Some _ _ _ Hs).
Qed.

(** Starting a task keeps the invariant, and the pending preemptions. *)
Lemma maybe_run_spec t m :
  app_spec (λ d, db_ok d ∧ pending d = m) (maybe_run_task cfg t) (λ _ d, db_ok d ∧ pending d = m).
Proof.
  unfold maybe_run_task. eapply app_bind; [apply app_read; [solve_rejects|auto with relayer]|].
  intros can_run. destruct (negb can_run); [apply app_ret; tauto|].
  eapply app_bind; [|intros ?; apply maybe_execute_spec; intros d [[Hc _] _]; apply Hc].
  apply app_db; [solve_rejects|]. intros d u d' [[Hok Hm] _] (old & Ht & ->)%transition_task_inv.
  split; [by split; [apply transition_db_ok|]|]. simpl.
  destruct Hok as [_ Hl]. destruct (Hl (task_id t)) as (p & -> & _); [set_solver|by eexists|done].
Qed.
Lemma maybe_run_ok t : app_spec db_ok (maybe_run_task cfg t) (λ _, db_ok).
Proof.
  intros w Hw. pose proof (maybe_run_spec t (pending (tdb w)) w (conj Hw eq_refl)) as H.
  destruct (maybe_run_task cfg t w) as [[a|e] w']; tauto.
Qed.
Lemma maybe_run_opt_ok (o : option QueuedTask) :
  app_spec db_ok (match o with Some t => maybe_run_task cfg t | None => mret tt end) (λ _, db_ok).
Proof. destruct o; [apply maybe_run_ok|by apply app_ret]. Qed.

Lemma append_task_to_history_inv key t d u d' :
  append_task_to_history key t d = (Ok u, d') → ∃ f g, d' = set_history f g d.
Proof.
  unfold append_task_to_history, check_task_history_enabled, get_task_ids_in_history. intros H.
  inv_ok. unfold check_task_history_enabled in *. inv_ok.
  eexists (λ _, _), (λ _, _). unfold set_history. simpl. reflexivity.
Qed.

(** Recording history touches no other table. *)
Lemma maybe_append_spec (P : TaskDb → Prop) keys t executor :
  (∀ f g d, P d → P (set_history f g d)) → (∀ d, P d → ready d) →
  app_spec P (maybe_append_historical_task keys t executor) (λ _, P).
Proof.
  intros HP Hr. unfold maybe_append_historical_task.
  set (R := λ (b : bool) d, P d ∧ historical_state_enabled d = Some b).
  eapply (app_bind _ R); [apply app_db_gen; intros d x d' H Hm|].
  { destruct (Hr d H) as [_ [b Hb]]. unfold get_historical_state_enabled, gets, ok_or, mbind, M_bind in Hm.
    by rewrite Hb in Hm. }
  { unfold get_historical_state_enabled in Hm. by inv_ok. }
  intros enabled. eapply (app_weaken (R enabled) _ (λ _, R enabled)); [|intros d H; exact H|intros a d [H _]; exact H].
  apply app_for_each. intros key _.
  destruct (from_queued_task t) as [h|]; [|by apply app_ret].
  eapply (app_bind _ (λ _, R enabled)).
  { destruct enabled; [|by apply app_ret]. apply app_db_gen; intros d x d' [H He] Hm.
    - unfold append_task_to_history, get_task_ids_in_history, check_task_history_enabled, gets, ensure,
        modify, mbind, M_bind in Hm. by rewrite He in Hm; simpl in Hm; rewrite He in Hm.
    - apply append_task_to_history_inv in Hm as (f & g & ->). split; [by apply HP|done]. }
  intros u. eapply (app_bind _ (λ _, R enabled)).
  { apply get_peer_id_spec. intros d [H _]. auto. }
  intros me w Hw. by destruct (me =? executor).
Qed.

(** Popping a recorded task and removing its assignment. *)
Lemma pop_and_record_spec keys id success :
  app_spec (λ d, db_ok d ∧ is_Some (task_to_queues d !! id)) (pop_and_record_task keys id success)
    (λ r d, db_ok d ∧ is_Some r).
Proof.
  unfold pop_and_record_task.
  eapply (app_bind _ (λ o d, db_ok d ∧ tasks d !! id = None ∧
    is_Some (task_assignment d !! id) ∧ ∃ t, o = Some t ∧ task_id t = id)).
  { apply app_db; [solve_rejects|]. intros d o d' [[Hc Hl] Hid] Hpop.
    pose proof (proj1 (pop_task_storage_inv _ _ _ _ Hpop)) as Ho.
    apply pop_task_storage_ok in Hpop as (Hq & Hi & Hf & Ht); [|apply Hc|apply Hc].
    rewrite <-(ix_dom _ (core_index _ Hc)) in Hid. destruct Hid as [t Hid].
    assert (tasks d' !! id = None) as Hn by (by rewrite Ht, lookup_delete_eq).
    split_and!.
    - split; [by eapply core_ok_index|]. eapply live_assigned_ext; [done| | |]; [|by rewrite Hf..].
      intros x. rewrite Ht. by intros [? (_ & ?)%lookup_delete_Some].
    - done.
    - destruct (Hl id) as (p & Hp & _); [set_solver|by eexists|]. exists p. by rewrite Hf.
    - exists t. rewrite Ho. split; [done|]. by apply (ix_id _ (core_index _ Hc)). }
  intros o. destruct o as [t|]; [|intros w (_ & _ & _ & ? & ? & _); done].
  eapply (app_bind _ (λ e d, db_ok d ∧ tasks d !! task_id t = None ∧ is_Some e)).
  { apply app_db; [solve_rejects|]. intros d e d' (Hok & Hn & Ha & t' & Heq & <-) Hm. unfold get_task_assignment in Hm.
    inv_ok. done. }
  intros [peer|]; [|intros w (_ & _ & [? ?]); done]. simpl.
  eapply (app_bind _ (λ _, db_ok)).
  { apply app_db; [solve_rejects|]. intros d u d' ([Hc Hl] & Hn & _) Hm. unfold remove_assigned_task in Hm. inv_ok.
    split; [by apply core_ok_assignments|by apply live_assigned_remove]. }
  intros u. eapply app_bind; [apply maybe_append_spec; [apply db_ok_history|intros d [Hc _]; apply Hc]|].
  intros v. apply app_ret. done.
Qed.

(** ** Clearing *)

(** The tasks still to be failed: not live, distinct, and assigned. *)
Definition to_fail (l : list QueuedTask) (d : TaskDb) : Prop :=
  NoDup (task_id <$> l) ∧
  ∀ t, t ∈ l → tasks d !! task_id t = None ∧ is_Some (task_assignment d !! task_id t).

Lemma fail_one_spec key t l :
  app_spec (λ d, db_ok d ∧ to_fail (t :: l) d)
    (let t := set_state Failed t in
     executor ← db (get_task_assignment (task_id t));
     executor ← ok_or executor (MissingEntry "task not assigned");
     maybe_append_historical_task [key] t executor;;
     publish_task_updates cfg key t;;
     assignment ← db (get_task_assignment (task_id t));
     match assignment with
     | Some peer => db (remove_assigned_task peer (task_id t))
     | None => mret tt
     end)
    (λ _ d, db_ok d ∧ to_fail l d).
Proof.
  set (P := λ d, db_ok d ∧ to_fail (t :: l) d). cbv zeta. unfold get_task_assignment.
  eapply app_bind; [apply app_read; [solve_rejects|solve_reads]|]. intros executor.
  eapply app_bind.
  { apply app_ok_or. intros -> d [[_ [_ Hl]] H].
    destruct (Hl t) as [_ [p Hp]]; [by left|]. simpl in H. inv_ok. }
  intros p. eapply (app_bind _ (λ _, P)).
  { eapply app_weaken; [apply (maybe_append_spec P)| |done].
    - intros f g d [H1 H2]. split; [by apply db_ok_history|done].
    - intros d [[Hc _] _]. apply Hc.
    - intros d [[H _] _]. exact H. }
  intros u. eapply app_bind; [apply publish_spec|]. intros v.
  eapply app_bind; [apply app_read; [solve_rejects|solve_reads]|]. intros [peer|]; [|apply app_ret].
  - apply app_db; [solve_rejects|]. intros d w d' [[[Hc Hl] [Hnd Hall]] _] Hm. unfold remove_assigned_task in Hm. inv_ok.
    destruct (Hall t) as [Hn _]; [by left|].
    split; [split; [by apply core_ok_assignments|by apply live_assigned_remove]|].
    apply NoDup_cons in Hnd as [Hnin Hnd]. split; [done|]. intros t' Ht'. simpl.
    destruct (Hall t') as [? ?]; [by right|]. split; [done|].
    rewrite lookup_delete_ne; [done|]. intros Heq. apply Hnin. rewrite Heq. by apply list_elem_of_fmap_2.
  - intros d [[_ [_ Hall]] Hm]. destruct (Hall t) as [_ [p' Hp']]; [by left|]. simpl in Hm. inv_ok.
Qed.

Lemma app_clear_ok key : app_spec db_ok (app_clear_task_queue cfg key) (λ _, db_ok).
Proof.
  unfold app_clear_task_queue.
  eapply (app_bind _ (λ l d, db_ok d ∧ to_fail l d)).
  { apply app_db; [solve_rejects|]. intros d l d' [[Hq Hi Hp Hy Hr] Hl] Hcl. apply clear_task_queue_inv in Hcl; [|done..].
    split; [split|split].
    - split; [apply Hcl|apply Hcl|apply Hcl| |].
      + intros k. unfold ycount. rewrite (cl_yields _ _ _ _ Hcl). apply Hy.
      + unfold ready. by rewrite (cl_peer _ _ _ _ Hcl), (cl_history _ _ _ _ Hcl).
    - eapply live_assigned_ext; [done| |apply Hcl|apply Hcl]. intros x. rewrite (cl_tasks _ _ _ _ Hcl).
      case_decide; [by intros [? ?]|done].
    - apply Hcl.
    - intros t Ht. destruct (cl_list _ _ _ _ Hcl t Ht) as [Hin Hlk].
      rewrite (cl_tasks _ _ _ _ Hcl), decide_True by done. split; [done|].
      rewrite (cl_assignment _ _ _ _ Hcl). destruct (Hl (task_id t)) as (p & -> & _); [set_solver|by eexists|done]. }
  intros l. induction l as [|t l IH]; [apply app_ret; tauto|].
  cbn [for_each]. eapply app_bind; [apply fail_one_spec|]. intros u. apply IH.
Qed.

(** ** The drain loop *)

(** No deferred settlement can start at the queue: its first entry is not the first entry of
    one of its target queues, or one of them cannot be preempted. *)
Definition drained (key : TaskQueueKey) (d : TaskDb) : Prop :=
  match min_entry (pend d key) with
  | None => True
  | Some e =>
      tasks d !! task_id (entry_task e) = None ∧
      ∃ k, k ∈ target_keys e ∧
        (is_pending_head e k d = (Ok false, d) ∨ is_serial_preemption_safe k d = (Ok false, d))
  end.

Lemma remove_pending_core e k d u d' :
  core_ok d → e ∈ pend d k → remove_pending_preemption_entry e d = (Ok u, d') →
  core_ok d' ∧ frame_pending d d' ∧ (length (pend d' k) < length (pend d k))%nat.
Proof.
  intros Hc He Hr. apply remove_pending_filtered in Hr as Hfil;
    [|eapply pending_targets_cover; [apply Hc|done]].
  pose proof Hfil as [Hf Hp]. split_and!; [|done|].
  - eapply core_ok_pending; [done| |done]. apply (pending_ok_filter _ _ _ Hfil), Hc.
  - rewrite Hp. apply length_filter_lt with e; [done|]. by intros ?.
Qed.

Definition blocked_on (e : PendingEntry) (k : TaskQueueKey) : M TaskDb StorageError bool :=
  h ← is_pending_head e k;
  if negb h then mret true else safe ← is_serial_preemption_safe k; mret (negb safe).

Lemma reads_blocked_on e k : reads (blocked_on e k).
Proof.
  unfold blocked_on. apply reads_bind; [auto with relayer|]. intros h.
  destruct (negb h); [auto with relayer|]. apply reads_bind; auto with relayer.
Qed.

Lemma blocked_on_true e k d :
  blocked_on e k d = (Ok true, d) →
  is_pending_head e k d = (Ok false, d) ∨ is_serial_preemption_safe k d = (Ok false, d).
Proof.
  unfold blocked_on. intros (h & d1 & Hh & H)%bind_Ok_inv.
  pose proof (reads_Ok _ _ _ _ (reads_is_pending_head e k) Hh) as ->.
  destruct h; simpl in H; [|by left]. right. apply bind_Ok_inv in H as (b & d2 & Hb & [= H _]).
  pose proof (reads_Ok _ _ _ _ (reads_is_serial_preemption_safe k) Hb) as ->. by destruct b.
Qed.

Lemma maybe_run_opt_pend (o : option QueuedTask) key n :
  app_spec (λ d, db_ok d ∧ (length (pend d key) < n)%nat)
    (match o with Some t => maybe_run_task cfg t | None => mret tt end)
    (λ _ d, db_ok d ∧ (length (pend d key) < n)%nat).
Proof.
  destruct o as [t|]; [|by apply app_ret]. intros w [Hok Hn].
  pose proof (maybe_run_spec t (pending (tdb w)) w (conj Hok eq_refl)) as H.
  destruct (maybe_run_task cfg t w) as [[a|e] w']; [|done]. destruct H as [? E].
  split; [done|]. unfold pend. by rewrite E.
Qed.

(** Running the preemption of an entry, dropping the entry and starting its task. *)
Lemma run_entry_spec e key executor n :
  app_spec (λ d, (db_ok d ∧ length (pend d key) = n) ∧ e ∈ pend d key)
    (db (do_preempt_serial (target_keys e) (entry_task e));;
     db (remove_pending_preemption_entry e);;
     db (add_assigned_task executor (task_id (entry_task e)));;
     archived ← db (get_task (task_id (entry_task e)));
     match archived with Some t => maybe_run_task cfg t | None => mret tt end;;
     mret true)
    (λ (b : bool) d, db_ok d ∧ if b then (length (pend d key) < n)%nat else drained key d).
Proof.
  eapply (app_bind _ (λ _ d, core_ok d ∧ live_assigned {[task_id (entry_task e)]} d ∧
    length (pend d key) = n ∧ e ∈ pend d key)).
  { apply app_db; [solve_rejects|]. intros d u d' [[[Hc Hl] Hn] He] Hp. unfold do_preempt_serial in Hp.
    apply do_preempt_serial_inner_inv in Hp as Hinv. destruct Hinv as (d1 & Hpr & E).
    apply do_preempt_serial_inner_ok in Hp as (? & ? & Hf); [|apply Hc|apply Hc].
    assert (pend d' key = pend d key) as Ep by (unfold pend; by rewrite Hf).
    rewrite Ep. split_and!; [by eapply core_ok_index| |done|done].
    eapply live_assigned_write; [done|by eapply preempted_same_ids|by eapply pr_frame|done]. }
  intros u. eapply (app_bind _ (λ _ d, core_ok d ∧ live_assigned {[task_id (entry_task e)]} d ∧
    (length (pend d key) < n)%nat)).
  { apply app_db; [solve_rejects|]. intros d v d' (Hc & Hl & Hn & He) (Hc' & Hf & Hlt)%(remove_pending_core _ key); [|done|done].
    split_and!; [done| |lia]. eapply live_assigned_ext; [done| | |]; by rewrite Hf. }
  intros v. eapply (app_bind _ (λ _ d, db_ok d ∧ (length (pend d key) < n)%nat)).
  { apply app_db; [solve_rejects|]. intros d w d' (Hc & Hl & Hn) Hm. unfold add_assigned_task in Hm. inv_ok.
    split; [|done]. split; [by apply core_ok_assignments|by apply live_assigned_add]. }
  intros w. eapply (app_bind _ (λ _ d, db_ok d ∧ (length (pend d key) < n)%nat)).
  { apply app_db; [solve_rejects|]. intros d o d' H Hm. unfold get_task in Hm. inv_ok. done. }
  intros o. eapply app_bind; [apply maybe_run_opt_pend|]. intros x. by apply app_ret.
Qed.

Lemma drain_step_spec key executor n :
  app_spec (λ d, db_ok d ∧ length (pend d key) = n) (drain_step cfg key executor)
    (λ continue d, db_ok d ∧
      if continue then (length (pend d key) < n)%nat else drained key d).
Proof.
  unfold drain_step, pending_preempt_head, get_pending_preempt_list, get_task.
  eapply app_bind; [apply app_read; [solve_rejects|solve_reads]|]. intros entry.
  destruct entry as [e|].
  2: { apply app_ret. intros d [[Hok _] Hm]. inv_ok. split; [done|]. unfold drained, pend.
       match goal with E : min_entry _ = None |- _ => by rewrite E end. }
  eapply (app_bind _ (λ live d, ((db_ok d ∧ length (pend d key) = n) ∧
    min_entry (pend d key) = Some e) ∧ live = tasks d !! task_id (entry_task e))).
  { apply app_db; [solve_rejects|]. intros d o d' [HP Hm] H. inv_ok. done. }
  intros [t|].
  { eapply (app_bind _ (λ _ d, db_ok d ∧ (length (pend d key) < n)%nat)); [|intros u; by apply app_ret].
    apply app_db; [solve_rejects|]. intros d u d' [[[[Hc Hl] <-] Hm] _] Hr. pose proof (min_entry_spec (pend d key)) as He.
    rewrite Hm in He. apply (remove_pending_core _ key) in Hr as (? & Hf & ?); [|done|apply He].
    split; [|done]. split; [done|]. eapply live_assigned_ext; [done| | |]; by rewrite Hf. }
  change (λ k : Z, h ← is_pending_head e k;
    if negb h then mret true else safe ← is_serial_preemption_safe k; mret (negb safe))
    with (blocked_on e).
  eapply app_bind; [apply app_read; [unfold blocked_on; solve_rejects|apply reads_any_m; intros; apply reads_blocked_on]|].
  intros [].
  { apply app_ret. intros d [[[[Hok _] Hm] Hn] Hb]. split; [done|]. unfold drained. rewrite Hm.
    split; [done|]. apply any_m_true in Hb as [_ (k & Hk & Hb)]; [|intros; apply reads_blocked_on].
    exists k. split; [done|]. by apply blocked_on_true. }
  eapply app_weaken; [apply run_entry_spec| |intros a d H; exact H].
  intros d [[[HP Hm] _] _]. split; [exact HP|]. pose proof (min_entry_spec (pend d key)) as He.
  rewrite Hm in He. apply He.
Qed.

(** The loop ends within its fuel, and leaves nothing that can start. *)
Lemma drain_loop_spec fuel key executor :
  app_spec (λ d, db_ok d ∧ (length (pend d key) < fuel)%nat) (drain_loop cfg fuel key executor)
    (λ _ d, db_ok d ∧ drained key d).
Proof.
  induction fuel as [|fuel IH]; [intros w [_ ?]; lia|]. intros w [Hok Hlt].
  pose proof (drain_step_spec key executor (length (pend (tdb w) key)) w (conj Hok eq_refl)) as Hs.
  cbn [drain_loop]. unfold mbind, M_bind.
  destruct (drain_step cfg key executor w) as [[[]|e] w']; [|done|done].
  destruct Hs as [Hok' Hlt']. apply IH. split; [done|]. lia.
Qed.

Lemma run_unblocked_spec key executor :
  app_spec db_ok (run_unblocked_preemptions cfg key executor) (λ _ d, db_ok d ∧ drained key d).
Proof.
  unfold run_unblocked_preemptions, get_pending_preempt_list.
  eapply app_bind; [apply app_read; [solve_rejects|solve_reads]|]. intros l.
  eapply app_weaken; [apply drain_loop_spec| |done]. intros d [Hok [= E]]. unfold pend.
  split; [done|]. rewrite E. lia.
Qed.

(** ** The transitions *)

Lemma unwrap_live_spec (o : option QueuedTask) :
  app_spec (λ d, db_ok d ∧ is_Some o) (unwrap o) (λ _, db_ok).
Proof.
  eapply app_weaken; [apply app_ok_or|intros d H; exact H|intros a d [[H _] _]; exact H].
  intros -> d [_ [? ?]]. done.
Qed.

(** Assign a task that has just been recorded, and start it. *)
Lemma assign_and_run_spec id executor :
  app_spec (λ d, core_ok d ∧ live_assigned {[id]} d ∧ is_Some (tasks d !! id))
    (db (add_assigned_task executor id);;
     archived ← db (get_task id);
     archived ← unwrap archived;
     maybe_run_task cfg archived)
    (λ _, db_ok).
Proof.
  eapply (app_bind _ (λ _ d, db_ok d ∧ is_Some (tasks d !! id))).
  { apply app_db; [solve_rejects|]. intros d u d' (Hc & Hl & Hs) Hm. unfold add_assigned_task in Hm. inv_ok.
    split; [|done]. split; [by apply core_ok_assignments|by apply live_assigned_add]. }
  intros u. eapply (app_bind _ (λ o d, db_ok d ∧ is_Some o)).
  { apply app_db; [solve_rejects|]. intros d o d' [? ?] Hm. unfold get_task in Hm. inv_ok. done. }
  intros o. eapply app_bind; [by apply unwrap_live_spec|]. intros t. apply maybe_run_ok.
Qed.

Lemma append_task_ok task executor :
  app_spec db_ok (append_task cfg task executor) (λ _, db_ok).
Proof.
  unfold append_task. eapply (app_bind _ (λ _, db_ok)).
  2: { intros ?. eapply app_bind; [apply publish_spec|intros ?; by apply app_ret]. }
  apply app_with_tx. eapply app_bind; [|intros ?; apply assign_and_run_spec].
  apply app_db; [solve_rejects|]. intros d u d' [Hc Hl] He. apply enqueue_serial_task_ok in He as Hok; [|apply Hc|apply Hc].
  apply enqueue_serial_task_inv in He. subst d'. split_and!.
  - eapply core_ok_index; [done|apply Hok|apply Hok|done].
  - eapply (live_assigned_write d); [done| | |reflexivity]; [by intros x|done].
  - simpl. rewrite lookup_insert_eq. by eexists.
Qed.

Lemma process_queue_ok success key : app_spec db_ok (process_queue cfg success key) (λ _, db_ok).
Proof.
  unfold process_queue. eapply (app_bind _ (λ _, db_ok)).
  { destruct success; [by apply app_ret|apply app_clear_ok]. }
  intros u. eapply app_bind; [apply app_read; [solve_rejects|auto with relayer]|]. intros o.
  eapply app_weaken; [apply maybe_run_opt_ok|by intros d [? _]|done].
Qed.

Lemma pop_task_app_ok id success : app_spec db_ok (pop_task cfg id success) (λ _, db_ok).
Proof.
  unfold pop_task. eapply (app_bind _ (λ _, db_ok)).
  2: { intros [keys task]. eapply app_bind; [apply publish_multiple_spec|intros ?; by apply app_ret]. }
  apply app_with_tx.
  eapply (app_bind _ (λ ks d, db_ok d ∧ (ks ≠ [] → is_Some (task_to_queues d !! id)))).
  { apply app_db; [solve_rejects|]. intros d ks d' Hok Hm. unfold get_queue_keys_for_task in Hm. inv_ok.
    split; [done|]. by destruct (task_to_queues d !! id). }
  intros [|key0 ks]; [by intros w _|]. eapply app_bind.
  { eapply app_weaken; [apply pop_and_record_spec| |]; [intros d [? Hs]; split; [done|by apply Hs]
      |intros r d H; exact H]. }
  intros r. eapply (app_bind _ (λ _, db_ok)).
  { eapply app_weaken; [apply app_ok_or|intros d H; exact H|intros a d [[H _] _]; exact H].
    intros -> d [_ [? ?]]. done. }
  intros [task executor]. eapply app_bind; [apply app_for_each; intros; apply process_queue_ok|].
  intros u. eapply (app_bind _ (λ _, db_ok)); [|intros ?; by apply app_ret].
  destruct success; [|by apply app_ret]. apply app_for_each. intros key _.
  eapply app_weaken; [apply run_unblocked_spec|done|by intros a d [? _]].
Qed.

Lemma transition_task_state_ok id s : app_spec db_ok (transition_task_state cfg id s) (λ _, db_ok).
Proof.
  unfold transition_task_state. eapply (app_bind _ (λ _, db_ok)).
  2: { intros [keys task]. eapply app_bind; [apply publish_multiple_spec|intros ?; by apply app_ret]. }
  apply app_with_tx. eapply app_bind; [apply app_read; [solve_rejects|unfold get_queue_keys_for_task; solve_reads]|].
  intros keys. eapply app_bind; [apply app_read; [solve_rejects|unfold get_task; solve_reads]|]. intros o.
  eapply app_bind; [apply app_ok_or; done|]. intros t.
  eapply (app_bind _ (λ _, db_ok)).
  { intros w [[[? _] _] _]. unfold ensure. by destruct (is_running _). }
  intros u. eapply (app_bind _ (λ _ d, db_ok d ∧ is_Some (tasks d !! id))).
  { apply app_db; [solve_rejects|]. intros d v d' Hok (old & Ht & ->)%transition_task_inv.
    split; [by apply transition_db_ok|]. simpl. rewrite lookup_insert_eq. by eexists. }
  intros v. eapply (app_bind _ (λ o d, db_ok d ∧ is_Some o)).
  { apply app_db; [solve_rejects|]. intros d o' d' [? ?] Hm. unfold get_task in Hm. inv_ok. done. }
  intros o'. eapply app_bind; [by apply unwrap_live_spec|]. intros t'. by apply app_ret.
Qed.

Lemma clear_queue_ok key : app_spec db_ok (clear_queue cfg key) (λ _, db_ok).
Proof.
  unfold clear_queue. eapply app_bind; [apply app_with_tx, app_clear_ok|]. intros ?. by apply app_ret.
Qed.

Lemma core_ok_yields d d' : core_ok d → frame_yields d d' → yields_ok d' → core_ok d'.
Proof.
  intros [Hq Hi Hp _ Hr] Hf Hy. split; [| | |done|].
  - unfold queues_ok. by rewrite Hf.
  - eapply index_ok_same; [done|by rewrite Hf..|]. intros x. by rewrite Hf.
  - eapply pending_ok_ext; [| |done]; by rewrite Hf.
  - unfold ready. by rewrite Hf.
Qed.

(** What a preemption needs to know about its arguments. *)
Definition preempt_guard (keys : list TaskQueueKey) (is_serial : bool) (d : TaskDb) : Prop :=
  is_serial = true → NoDup keys ∧ counter d < U64_MAX.

Definition recorded (id : TaskIdentifier) (o : PreemptOutcome) (d : TaskDb) : Prop :=
  match o with
  | Deferred => db_ok d
  | Preempted => core_ok d ∧ live_assigned {[id]} d ∧ is_Some (tasks d !! id)
  end.

Lemma preempt_serial_recorded keys task d o d' :
  db_ok d → NoDup keys → counter d < U64_MAX →
  preempt_queue_with_serial (cfg_flags cfg) keys task d = (Ok o, d') → recorded (task_id task) o d'.
Proof.
  intros [Hc Hl] Hnd Hlt H. apply preempt_queue_with_serial_inv in H; [|done].
  pose proof (core_yields _ Hc) as Hy. destruct o.
  - destruct H as (dy & d1 & Hf & Hb & Hcount & Hp & ->).
    assert (core_ok dy) as Hcy.
    { eapply core_ok_yields; [done|done|]. intros k. rewrite Hcount.
      destruct (_ && _) eqn:E; [|specialize (Hy k); lia].
      apply andb_true_iff in E as [_ Hk%bool_decide_eq_true].
      destruct (not_hard_blocked _ _ _ _ (Hb k Hk)) as [[-> _]|(_ & -> & ?)]; simpl;
        specialize (Hy k); lia. }
    assert (live_assigned ∅ dy) as Hly by (eapply live_assigned_ext; [done| | |]; by rewrite Hf).
    split_and!.
    + eapply core_ok_index; [exact Hcy| | |].
      * apply (preempted_queues_ok _ _ _ _ _ Hp), Hcy.
      * eapply (index_ok_write dy); [apply Hcy|by rewrite (pr_frame _ _ _ _ _ Hp)
          |by eapply preempted_queue_sub|by eapply preempted_same_ids|done|].
        intros k Hk. unfold in_queue. rewrite (pr_queues _ _ _ _ _ Hp), decide_True by done.
        eexists. split; [done|]. unfold all_tasks, preempted_queue. simpl. set_solver.
      * pose proof (frame_tasks_index _ _ (pr_frame _ _ _ _ _ Hp)) as Hf'. etrans; [exact Hf'|done].
    + eapply (live_assigned_write dy); [done|by eapply preempted_same_ids|by eapply pr_frame|done].
    + simpl. rewrite lookup_insert_eq. by eexists.
  - destruct H as (_ & dy & [Hf Hlow] & Hd).
    assert (core_ok dy) as Hcy.
    { eapply core_ok_yields; [done|done|]. intros k. unfold MAX_CONSECUTIVE_YIELDS.
      destruct (Hlow k) as [->| ->]; [apply Hy|lia]. }
    assert (counter dy < U64_MAX) as Hlt' by (unfold counter; by rewrite Hf).
    pose proof (defer_preemption_ok _ _ _ _ _ (core_pending _ Hcy) Hnd Hlt' Hd) as Hpok.
    apply defer_preemption_inv in Hd as (Hfd & _); [|done|split; [apply (core_pending _ Hcy)|done]].
    destruct Hcy as [Hq Hi _ Hyy Hr]. split; [split; [| |done| |]|].
    + unfold queues_ok. by rewrite Hfd.
    + eapply index_ok_same; [done|by rewrite Hfd..|]. intros x. by rewrite Hfd.
    + intros k. unfold ycount. rewrite Hfd. apply Hyy.
    + unfold ready. by rewrite Hfd.
    + eapply live_assigned_ext; [done| | |]; rewrite Hfd; simpl; by rewrite Hf.
Qed.

Lemma preempt_concurrent_recorded keys task d u d' :
  db_ok d → preempt_queue_with_concurrent keys task d = (Ok u, d') →
  recorded (task_id task) Preempted d'.
Proof.
  intros [Hc Hl] H.
  assert (is_Some (tasks d' !! task_id task) ∧
    ∀ x, x ≠ task_id task → tasks d' !! x = tasks d !! x) as [Hs Hne].
  { unfold preempt_queue_with_concurrent, write_task, update_task, update_task_to_queues in H.
    apply bind_Ok_inv in H as (v & d1 & H1 & H). inv_ok.
    eapply (for_each_rel (queues_grow (task_id task)) (λ k d, in_queue d k (task_id task)))
      in H1 as [[[Hf _] _] _].
    - rewrite Hf. simpl. rewrite lookup_insert_eq. split; [by eexists|]. intros x ?. by rewrite lookup_insert_ne.
    - intros k ??? _ Hk. by eapply preempt_concurrent_on_step.
    - intros k ?? Hin [_ G]. by apply G. }
  apply preempt_concurrent_ok' in H as (? & ? & Hf); [|apply Hc|apply Hc].
  split_and!; [by eapply core_ok_index| |done].
  intros x Hx. rewrite Hne by set_solver. rewrite Hf. apply Hl. set_solver.
Qed.

Lemma enqueue_preemptive_ok keys task executor is_serial :
  app_spec (λ d, db_ok d ∧ preempt_guard keys is_serial d)
    (enqueue_preemptive_task cfg keys task executor is_serial) (λ _, db_ok).
Proof.
  unfold enqueue_preemptive_task. eapply (app_bind _ (λ _, db_ok)).
  2: { intros []; [|by apply app_ret].
       eapply app_bind; [apply publish_multiple_spec|intros ?; by apply app_ret]. }
  apply app_with_tx. eapply (app_bind _ (recorded (task_id task))).
  { unfold try_preempt_queues. destruct is_serial.
    - apply app_db; [solve_rejects|]. intros d o d' [Hok Hg] H. destruct Hg as [? ?]; [done|].
      by eapply preempt_serial_recorded.
    - eapply app_bind; [|intros u; apply app_ret; intros d H; exact H].
      apply app_db; [solve_rejects|]. intros d u d' [Hok _] H. by eapply preempt_concurrent_recorded. }
  intros []; [|by apply app_ret].
  pose proof (assign_and_run_spec (task_id task) executor) as Hrun.
  intros w Hw. specialize (Hrun w Hw). revert Hrun. unfold mbind, M_bind.
  destruct (db (add_assigned_task executor (task_id task)) w) as [[?|?] w1]; [|done].
  destruct (db (get_task (task_id task)) w1) as [[o|?] w2]; [|done].
  destruct (unwrap o w2) as [[?|?] w3]; [|done].
  by destruct (maybe_run_task cfg _ w3) as [[?|?] ?].
Qed.

Lemma live_assigned_move from to id d :
  live_assigned ∅ d →
  live_assigned ∅ (set_assignments (λ m, add_to to id (remove_from from id m)) <[id := to]> d).
Proof.
  intros H. apply (live_assigned_add id to (set_assignments (remove_from from id) (λ m, m) d)).
  intros x Hx Hs. simpl in *. destruct (H x ltac:(set_solver) Hs) as (p & Hp & Hin).
  exists p. split; [done|]. unfold remove_from. destruct (decide (p = from)) as [->|].
  - rewrite lookup_insert_eq. simpl. set_solver.
  - by rewrite lookup_insert_ne.
Qed.

Lemma reassign_tasks_ok from to : app_spec db_ok (app_reassign_tasks cfg from to) (λ _, db_ok).
Proof.
  unfold app_reassign_tasks. eapply (app_bind _ (λ _, db_ok)); [|intros ?; by apply app_ret].
  apply app_with_tx. eapply (app_bind _ (λ _, db_ok)).
  { apply app_db; [solve_rejects|]. intros d ids d' Hok H. unfold reassign_tasks, get_assigned_tasks in H. inv_ok.
    match goal with H : for_each _ _ _ = _ |- _ => revert H end.
    apply (preserves_for_each db_ok); [|done]. intros id _. apply preserves_modify.
    intros d1 [Hc Hl]. split; [by apply core_ok_assignments|by apply live_assigned_move]. }
  intros ids. apply app_for_each. intros id _.
  eapply app_bind; [apply app_read; [solve_rejects|unfold get_task; solve_reads]|]. intros [t|]; [|apply app_ret; tauto].
  destruct (is_running _); [|apply app_ret; tauto].
  eapply app_weaken; [apply maybe_run_ok|by intros d [? _]|done].
Qed.
End Handlers.

(** ** Reachable states *)

Definition transition_guard (t : TaskTransition) (d : TaskDb) : Prop :=
  match t with
  | EnqueuePreemptiveTask keys _ _ serial => preempt_guard keys serial d
  | _ => True
  end.

Lemma app_guarded {A} (P R : TaskDb → Prop) Q (m : M TaskWorld StateApplicatorError A) :
  app_spec P m Q → app_spec (λ d, P d ∧ R d) m Q.
Proof. intros H. by eapply app_weaken; [exact H|intros d [? _]|]. Qed.

Lemma handle_task_transition_ok cfg t :
  task_driver_open cfg = true →
  app_spec (λ d, db_ok d ∧ transition_guard t d) (handle_task_transition cfg t) (λ _, db_ok).
Proof.
  intros Hopen. destruct t.
  - by apply app_guarded, append_task_ok.
  - by apply app_guarded, pop_task_app_ok.
  - by apply app_guarded, transition_task_state_ok.
  - by apply app_guarded, clear_queue_ok.
  - by apply enqueue_preemptive_ok.
  - by apply app_guarded, reassign_tasks_ok.
Qed.

(** A transition that fails leaves the tables as they were. *)
Definition rolls_back {A} (m : M TaskWorld StateApplicatorError A) : Prop :=
  ∀ w e w', m w = (Err e, w') → tdb w' = tdb w.
Definition never_fails {A} (m : M TaskWorld StateApplicatorError A) : Prop :=
  ∀ w e w', m w ≠ (Err e, w').

Lemma rolls_back_tx {A B} (m : M TaskWorld StateApplicatorError A)
    (f : A → M TaskWorld StateApplicatorError B) :
  (∀ a, never_fails (f a)) → rolls_back (with_tx tdb set_tdb m ≫= f).
Proof.
  intros Hf w e w'. unfold mbind, M_bind, with_tx.
  destruct (m w) as [[a|e'] w1]; [intros H; by apply Hf in H|]. by intros [= <- <-].
Qed.

Lemma never_fails_publish cfg keys t (r : ApplicatorReturnType) :
  never_fails (publish_task_updates_multiple cfg keys t;; mret r).
Proof.
  unfold publish_task_updates_multiple. induction keys as [|k keys IH]; intros w e w'; [done|].
  specialize (IH (publish_task_updates cfg k t w).2 e w'). revert IH.
  cbn [for_each]. unfold mbind, M_bind, publish_task_updates. by destruct (has_listeners _ _).
Qed.

Lemma handle_task_transition_rolls_back cfg t : rolls_back (handle_task_transition cfg t).
Proof.
  destruct t; simpl; apply rolls_back_tx.
  - intros _ w e w'. unfold mbind, M_bind, publish_task_updates. by destruct (has_listeners _ _).
  - intros [keys task]. apply never_fails_publish.
  - intros [keys task]. apply never_fails_publish.
  - by intros _ w e w'.
  - intros []; [apply never_fails_publish|by intros w e w'].
  - by intros _ w e w'.
Qed.

(** A freshly set up node. *)
Definition initial_world (me : PeerId) (history : bool) : TaskWorld :=
  mkTaskWorld (mkTaskDb ∅ ∅ ∅ ∅ None ∅ ∅ ∅ ∅ ∅ (Some me) (Some history)) [] [] [].

Inductive reachable_tasks (cfg : AppConfig) : TaskWorld → Prop :=
| rt_initial me history : reachable_tasks cfg (initial_world me history)
| rt_step w t :
    reachable_tasks cfg w → transition_guard t (tdb w) →
    reachable_tasks cfg (handle_task_transition cfg t w).2.

Lemma initial_db_ok me history : db_ok (tdb (initial_world me history)).
Proof.
  split; [split|].
  - apply map_Forall_empty.
  - split; simpl; intros *; rewrite ?lookup_empty; [by split; intros [? ?]|done|done].
  - split; unfold pend, counter; simpl; intros *; rewrite ?lookup_empty; simpl;
      try by intros ?%not_elem_of_nil.
    + constructor.
    + lia.
    + lia.
  - intros k. unfold ycount, MAX_CONSECUTIVE_YIELDS. simpl. rewrite lookup_empty. simpl. lia.
  - split; by eexists.
  - intros id _ [? H]. simpl in H. by rewrite lookup_empty in H.
Qed.

Lemma reachable_db_ok cfg w :
  task_driver_open cfg = true → reachable_tasks cfg w → db_ok (tdb w).
Proof.
  intros Hopen. induction 1 as [me history|w t Hr IH Hg]; [apply initial_db_ok|].
  pose proof (handle_task_transition_ok cfg t Hopen w (conj IH Hg)) as H.
  pose proof (handle_task_transition_rolls_back cfg t w) as Hrb.
  destruct (handle_task_transition cfg t w) as [[a|e] w']; [done|]. simpl.
  by rewrite (Hrb e w' eq_refl).
Qed.

(** ** Properties *)

(** C3: in every reachable state the task tables are consistent (each stored queue satisfies
    the lock invariant; the task index points into the queues; the pending preemptions are
    FIFO, hold the same entry in all its target queues and are at most 64 deep; yield counts
    are within budget; every recorded task is assigned to a peer that lists it), and every
    transition either keeps them consistent or is rejected, with the tables rolled back.  No
    transition ends in a missing assignment, an empty queue, a failed unwrap, a storage fault
    or an endless drain loop, each of which would stop the raft core of every node. *)
Theorem reachable_tasks_consistent (cfg : AppConfig) (w : TaskWorld) (t : TaskTransition) :
  task_driver_open cfg = true → reachable_tasks cfg w →
  db_ok (tdb w) ∧
  (transition_guard t (tdb w) →
   match handle_task_transition cfg t w with
   | (Ok _, w') => db_ok (tdb w')
   | (Err e, w') => benign e ∧ tdb w' = tdb w
   end).
Proof.
  intros Hopen Hok%reachable_db_ok; [|done]. split; [done|]. intros Hg.
  pose proof (handle_task_transition_ok cfg t Hopen w (conj Hok Hg)) as H.
  pose proof (handle_task_transition_rolls_back cfg t w) as Hrb.
  destruct (handle_task_transition cfg t w) as [[a|e] w']; [done|]. split; [done|]. by apply (Hrb e).
Qed.

Definition run_task_transitions (cfg : AppConfig) (ts : list TaskTransition) (w : TaskWorld)
    : TaskWorld :=
  foldl (λ w t, (handle_task_transition cfg t w).2) w ts.
Definition node_config : AppConfig := mkAppConfig production_flags true (λ _, true).

Lemma reachable_tasks_consistent_witness :
  let t1 := AppendTask (witness_task 10 Queued (Withdraw 1)) 7 in
  let t2 := EnqueuePreemptiveTask [1; 2] (witness_task 20 Queued (SettleInternalMatch 1 2)) 7 true in
  let w := run_task_transitions node_config [t1] (initial_world 7 true) in
  reachable_tasks node_config w ∧ transition_guard t2 (tdb w) ∧
  (handle_task_transition node_config t2 w).1 = Ok RetNone ∧
  match handle_task_transition node_config t2 w with
  | (Ok _, w') => db_ok (tdb w')
  | (Err e, w') => benign e ∧ tdb w' = tdb w
  end.
Proof.
  intros t1 t2 w. assert (reachable_tasks node_config w) as Hw by (apply (rt_step _ _ t1); [constructor|exact I]).
  assert (transition_guard t2 (tdb w)) as Hg.
  { intros _. split; [by apply (bool_decide_unpack _)|]. vm_compute. reflexivity. }
  split; [done|]. split; [done|]. split; [vm_compute; reflexivity|].
  exact (proj2 (reachable_tasks_consistent node_config w t2 eq_refl Hw) Hg).
Defined.

(** *** Deferred settlements *)

Definition lowest_pending (d : TaskDb) (e : PendingEntry) : Prop :=
  (∃ k, e ∈ pend d k) ∧ ∀ k x, x ∈ pend d k → entry_seq e ≤ entry_seq x.

Definition all_pending (d : TaskDb) : list PendingEntry := mjoin (map_to_list (pending d)).*2.

Lemma elem_of_all_pending d e : e ∈ all_pending d ↔ ∃ k, e ∈ pend d k.
Proof.
  unfold all_pending, pend. rewrite list_elem_of_join. split.
  - intros (l & He & ([k l'] & -> & Hk)%list_elem_of_fmap). exists k.
    apply elem_of_map_to_list in Hk. by rewrite Hk.
  - intros [k He]. destruct (pending d !! k) as [l|] eqn:E; [|by apply not_elem_of_nil in He].
    exists l. split; [done|]. apply list_elem_of_fmap. exists (k, l). split; [done|].
    by apply elem_of_map_to_list.
Qed.

Lemma lowest_pending_exists d k : pend d k ≠ [] → ∃ e, lowest_pending d e.
Proof.
  intros Hne. pose proof (min_entry_spec (all_pending d)) as H.
  destruct (min_entry (all_pending d)) as [e|].
  - destruct H as [He Hle]. exists e. split; [by apply elem_of_all_pending|].
    intros k' x Hx. apply Hle, elem_of_all_pending. eauto.
  - destruct (pend d k) as [|x l] eqn:E; [done|].
    assert (x ∈ all_pending d) as Hx by (apply elem_of_all_pending; exists k; rewrite E; by left).
    rewrite H in Hx. by apply not_elem_of_nil in Hx.
Qed.

Lemma lowest_pending_is_head d e k :
  pending_ok d → lowest_pending d e → k ∈ target_keys e → is_pending_head e k d = (Ok true, d).
Proof.
  intros Hok [[k0 He] Hle] Hk. rewrite (pn_targets _ Hok _ _ _ He) in Hk.
  unfold is_pending_head, pending_preempt_head, get_pending_preempt_list, gets, mbind, M_bind, mret, M_ret.
  fold (pend d k). f_equal. f_equal. pose proof (min_entry_spec (pend d k)) as H.
  destruct (min_entry (pend d k)) as [m|]; [|rewrite H in Hk; by apply not_elem_of_nil in Hk].
  simpl. apply Z.eqb_eq. destruct H as [Hm Hmin]. specialize (Hmin e Hk). specialize (Hle k m Hm). lia.
Qed.


(** Two queues with committed withdrawals, and a settlement between them deferred. *)
Definition deferred_script : list TaskTransition :=
  [ AppendTask (witness_task 10 Queued (Withdraw 1)) 7;
    TransitionTask 10 (Running "Submitting" true);
    AppendTask (witness_task 20 Queued (Withdraw 2)) 7;
    TransitionTask 20 (Running "Submitting" true);
    EnqueuePreemptiveTask [1; 2] (witness_task 30 Queued (SettleInternalMatch 1 2)) 7 true;
    EnqueuePreemptiveTask [2] (witness_task 31 Queued (SettleExternalMatch 2)) 7 true ].
Definition deferred_world : TaskWorld :=
  run_task_transitions node_config deferred_script (initial_world 7 true).

Lemma reachable_run cfg ts w :
  reachable_tasks cfg w →
  (∀ n t, ts !! n = Some t → transition_guard t (tdb (run_task_transitions cfg (take n ts) w))) →
  reachable_tasks cfg (run_task_transitions cfg ts w).
Proof.
  revert w. induction ts as [|t ts IH]; intros w Hw Hg; [done|]. apply IH.
  - apply rt_step; [done|]. apply (Hg 0%nat t eq_refl).
  - intros n t' Ht'. apply (Hg (S n) t' Ht').
Qed.

Lemma deferred_world_reachable : reachable_tasks node_config deferred_world.
Proof.
  apply reachable_run; [constructor|]. intros n t Ht.
  do 6 (destruct n as [|n]; [injection Ht as <-;
    first [exact I | intros _; split; [by apply (bool_decide_unpack _)|vm_compute; reflexivity]]|]).
  done.
Qed.


(** C22: the completion hook terminates and starts what can start.  In every reachable state
    the drain loop of a queue ends, at worst in a rejection, and when it ends the tables are consistent, the first deferred
    settlement of the queue is blocked in one of its target queues, and the settlement with
    the lowest number, if it is pending at this queue, is blocked by a task that holds one
    of its queues. *)
Theorem drain_terminates_and_drains (cfg : AppConfig) (w : TaskWorld) (key : TaskQueueKey)
    (executor : PeerId) :
  task_driver_open cfg = true → reachable_tasks cfg w →
  match run_unblocked_preemptions cfg key executor w with
  | (Ok _, w') =>
      db_ok (tdb w') ∧ drained key (tdb w') ∧
      ∀ e, lowest_pending (tdb w') e → e ∈ pend (tdb w') key →
        ∃ k, k ∈ target_keys e ∧ is_serial_preemption_safe k (tdb w') = (Ok false, tdb w')
  | (Err e, _) => benign e
  end.
Proof.
  intros Hopen Hok%reachable_db_ok; [|done].
  pose proof (run_unblocked_spec cfg Hopen key executor w Hok) as H.
  destruct (run_unblocked_preemptions cfg key executor w) as [[a|e] w']; [|done].
  destruct H as [Hok' Hd]. split_and!; [done|done|]. intros e Hlow He.
  pose proof (core_pending _ (proj1 Hok')) as Hp. unfold drained in Hd.
  pose proof (min_entry_spec (pend (tdb w') key)) as Hm.
  destruct (min_entry (pend (tdb w') key)) as [m|]; [|rewrite Hm in He; by apply not_elem_of_nil in He].
  destruct Hm as [Hin Hmin]. assert (m = e) as ->.
  { eapply (pn_unique _ Hp); [done|done|]. specialize (Hmin e He).
    pose proof (proj2 Hlow key m Hin). lia. }
  destruct Hd as [_ (k & Hk & [Hh|Hs])]; [|by exists k].
  by rewrite (lowest_pending_is_head _ _ _ Hp Hlow Hk) in Hh.
Qed.

Lemma drain_terminates_and_drains_witness :
  reachable_tasks node_config deferred_world ∧
  match run_unblocked_preemptions node_config 2 7 deferred_world with
  | (Ok _, w') =>
      db_ok (tdb w') ∧ drained 2 (tdb w') ∧
      ∀ e, lowest_pending (tdb w') e → e ∈ pend (tdb w') 2 →
        ∃ k, k ∈ target_keys e ∧ is_serial_preemption_safe k (tdb w') = (Ok false, tdb w')
  | (Err e, _) => benign e
  end.
Proof.
  split; [apply deferred_world_reachable|].
  exact (drain_terminates_and_drains node_config deferred_world 2 7 eq_refl deferred_world_reachable).
Defined.

(** *** Two ways in which a queue stops *)

(** The queue is held by the preemption of a task that no longer exists. *)
Definition orphaned (k : TaskQueueKey) (s : TaskIdentifier) (d : TaskDb) : Prop :=
  head_at d k = Some s ∧ preemption_state (queue_at d k) = SerialPreemptionQueued ∧
  concurrent_tasks (queue_at d k) = [] ∧ tasks d !! s = None ∧ task_to_queues d !! s = None.

(** A shared settlement of queue 1 runs; an exclusive one then preempts queues 1 and 2 and
    waits for it; the shared one fails. *)
Definition orphan_script : list TaskTransition :=
  [ EnqueuePreemptiveTask [1] (witness_task 10 Queued (SettleExternalMatch 1)) 7 false;
    EnqueuePreemptiveTask [1; 2] (witness_task 30 Queued (SettleInternalMatch 1 2)) 7 true;
    PopTask 10 false ].
Definition orphan_world : TaskWorld :=
  run_task_transitions node_config orphan_script (initial_world 7 true).

Lemma orphaned_safe_fails k s d :
  orphaned k s d → is_serial_preemption_safe k d = (Err ERR_TASK_NOT_FOUND, d).
Proof.
  intros (Hh & _ & _ & Ht & _). unfold head_at, queue_at in Hh.
  unfold is_serial_preemption_safe, get_task_queue, get_task, gets, mbind, M_bind.
  destruct (queues d !! k) as [q|]; [|done]. simpl in *. rewrite Hh. by rewrite Ht.
Qed.

Lemma orphaned_not_preempted flags ks task k s d d' :
  orphaned k s d → k ∈ ks → preempt_queue_with_serial flags ks task d ≠ (Ok Preempted, d').
Proof.
  intros Ho Hk. unfold preempt_queue_with_serial. intros (b & d1 & Hb & H)%bind_Ok_inv.
  apply bind_Ok_inv in H as (fd & d2 & _ & H). destruct b; simpl in H.
  - apply bind_Ok_inv in H as (u & d3 & _ & H). apply bind_Ok_inv in H as (v & d4 & _ & H).
    by apply bind_Ok_inv in H as (? & ? & _ & [= _]).
  - apply any_m_false in Hb as [_ Hb]; [|auto with relayer]. specialize (Hb k Hk).
    unfold hard_blocked in Hb. rewrite (bind_Err _ _ _ _ _ (orphaned_safe_fails _ _ _ Ho)) in Hb. done.
Qed.

Lemma occupied_not_shared ks task k d u d' :
  serial_tasks (queue_at d k) ≠ [] → k ∈ ks →
  preempt_queue_with_concurrent ks task d ≠ (Ok u, d').
Proof.
  intros Hs Hk. unfold preempt_queue_with_concurrent. intros (v & d1 & H & _)%bind_Ok_inv.
  revert d Hs H. induction ks as [|k' ks IH]; intros d Hs; [by apply not_elem_of_nil in Hk|].
  intros (x & d2 & H1 & H)%bind_Ok_inv. apply preempt_concurrent_on_inv in H1 as (Hs' & q' & _ & _ & ->).
  apply elem_of_cons in Hk as [->|Hk]; [done|]. eapply (IH Hk); [|exact H].
  unfold queue_at. simpl. rewrite lookup_insert_ne by congruence. exact Hs.
Qed.

(** Clearing a queue orphans the settlements it shares with another queue.  A settlement
    that preempts queues 1 and 2 and waits behind a shared task of queue 1 is deleted when
    that task fails, but stays at the head of queue 2.  From then on queue 2 admits no
    preemption, runs no task, cannot pop its head, and every task appended to it waits: only
    clearing the queue revives it. *)
Theorem clear_orphans_shared_settlement :
  reachable_tasks node_config orphan_world ∧ orphaned 2 30 (tdb orphan_world) ∧
  ∀ k s d, orphaned k s d →
    (∀ flags ks task d', k ∈ ks → preempt_queue_with_serial flags ks task d ≠ (Ok Preempted, d')) ∧
    (∀ ks task d', k ∈ ks → preempt_queue_with_concurrent ks task d ≠ (Ok tt, d')) ∧
    (∀ id, id ≠ s → can_run_on id k d = (Ok false, d)) ∧
    next_runnable_task k d = (Ok None, d) ∧
    (∀ cfg w success, tdb w = d →
      (pop_task cfg s success w).1 = Err (AppRejected "key not found for task")) ∧
    (∀ task d', task_id task ≠ s → enqueue_serial_task k task d = (Ok tt, d') → orphaned k s d').
Proof.
  split_and!.
  - apply reachable_run; [constructor|]. intros n t Ht.
    do 3 (destruct n as [|n]; [injection Ht as <-;
      first [exact I | by intros [=]
        | intros _; split; [by apply (bool_decide_unpack _)|vm_compute; reflexivity]]|]).
    done.
  - vm_compute. done.
  - intros k s d Ho. pose proof Ho as (Hh & Hs & Hc & Ht & Htq). unfold head_at, queue_at in *.
    destruct (queues d !! k) as [q|] eqn:Eq; simpl in *; [|done]. split_and!.
    + intros flags ks task d' Hk. by eapply orphaned_not_preempted.
    + intros ks task d' Hk. apply (occupied_not_shared _ _ k); [|done]. unfold queue_at. rewrite Eq.
      simpl. by destruct (serial_tasks q).
    + intros id Hid. unfold can_run_on, get_task_queue, gets, mbind, M_bind. rewrite Eq. simpl.
      unfold mret, M_ret. f_equal. f_equal. apply not_true_iff_false. rewrite can_task_run_iff, Hc, Hh.
      intros [?%not_elem_of_nil|[_ ?]]; congruence.
    + unfold next_runnable_task, get_task_queue, get_task, gets, mbind, M_bind. rewrite Eq. simpl.
      unfold next_serial_task. rewrite Hh. destruct (TaskQueue.can_task_run q s); [|done]. by rewrite Ht.
    + intros cfg w success <-. unfold pop_task, db, zoom, get_queue_keys_for_task, gets, with_tx, mbind, M_bind.
      by rewrite Htq.
    + intros task d' Hid ->%enqueue_serial_task_inv. unfold orphaned, head_at, queue_at. simpl.
      rewrite lookup_insert_eq, !lookup_insert_ne, Eq by done. simpl. split_and!; try done.
      by destruct (serial_tasks q).
Qed.

(** A withdrawal of queue 2 completes while queue 1 still blocks the first settlement; then
    the withdrawal of queue 1 fails. *)
Definition stranded_world : TaskWorld :=
  run_task_transitions node_config [PopTask 20 true; PopTask 10 false] deferred_world.

(** C38: a deferred settlement can be stranded.  Clearing queue 1 after a failure drops the
    settlement that targeted queues 1 and 2, but the settlement deferred behind it in queue 2
    is not started: the state is reachable, no task is left in any queue, and yet the
    settlement is still pending, although it is the head of its only queue and that queue
    can be preempted. *)
Theorem deferred_settlement_stranded :
  reachable_tasks node_config stranded_world ∧
  let d := tdb stranded_world in
  tasks d = ∅ ∧ map_Forall (λ _ q, all_tasks q = []) (queues d) ∧
  ∃ e, pend d 2 = [e] ∧ task_id (entry_task e) = 31 ∧ target_keys e = [2] ∧
    is_pending_head e 2 d = (Ok true, d) ∧ is_serial_preemption_safe 2 d = (Ok true, d).
Proof.
  split.
  - apply (reachable_run _ _ deferred_world deferred_world_reachable). intros n t Ht.
    do 2 (destruct n as [|n]; [injection Ht as <-; exact I|]). done.
  - split; [vm_compute; reflexivity|]. split.
    + apply (bool_decide_unpack (map_Forall (λ _ q, all_tasks q = []) (queues (tdb stranded_world)))).
      vm_compute. exact I.
    + eexists. split; [vm_compute; reflexivity|]. vm_compute. done.
Qed.
