(* ===== verification/AccountStorage.v ===== *)
(** * Account, order and matching pool storage

    src/crates/state/src/storage/tx/{account_index,order_auth,matching_pools,proofs,
    merkle_proofs}.rs: the
    account index keeps headers, orders and balances as separate entries, with indices from
    an order to its account, from an owner to an account and from an intent hash to an
    order; beside it are the order authorizations, the matching pools, the validity proofs,
    the Merkle paths of intents and balances and the executor address of node_metadata.rs.

    Keys are formatted strings in the source; each key space is a map of its own here.  A
    cursor over the orders of an account yields them in key order, which for hyphenated
    lower-case uuids is numeric order. *)
From S2P Require Import Prelude Scalar DarkpoolTypes StateWrapper Merkle ValidityBundles.
From S2P Require Import AccountTypes TaskStorage.
Local Open Scope Z_scope.

Abbreviation AccountId := Z (only parsing).
Abbreviation OrderId := Z (only parsing).

(** ** Order authorization (types-account/src/account/order_auth.rs) *)

(** [PublicIntentPermit]: what the owner of a public order signs. *)
Record PublicIntentPermit := mkPublicIntentPermit {
  permit_intent : Intent;
  permit_executor : Address;
}.
Record SignatureWithNonce := mkSignatureWithNonce { sig_nonce : Z; sig_bytes : list Z }.
Record SchnorrSignature := mkSchnorrSignature { sig_s : Z; sig_r : BabyJubJubPoint }.

Inductive OrderAuth :=
| PublicOrder (permit : PublicIntentPermit) (intent_signature : SignatureWithNonce)
| NativelySettledPrivateOrder (intent_signature : SignatureWithNonce)
| RenegadeSettledOrder (intent_signature new_output_balance_signature : SchnorrSignature).

(** [None]: the accessor panics on another variant. *)
Definition into_public (a : OrderAuth) : option (PublicIntentPermit * SignatureWithNonce) :=
  match a with PublicOrder permit sig => Some (permit, sig) | _ => None end.
Definition into_natively_settled_private_order (a : OrderAuth) : option SignatureWithNonce :=
  match a with NativelySettledPrivateOrder sig => Some sig | _ => None end.
Definition into_renegade_settled_order (a : OrderAuth)
    : option (SchnorrSignature * SchnorrSignature) :=
  match a with RenegadeSettledOrder i o => Some (i, o) | _ => None end.

(** ** Validity proofs (types-proofs/src/{validity_storage,stored_validity_proof}.rs) *)

Inductive ValidityProofLocator :=
| LocatorIntent (order_id : OrderId)
| LocatorBalance (account_id : AccountId) (mint : Address).
#[global] Instance ValidityProofLocator_eq_dec : EqDecision ValidityProofLocator.
Proof. solve_decision. Defined.
#[global] Instance ValidityProofLocator_countable : Countable ValidityProofLocator.
Proof.
  apply (inj_countable'
    (λ l, match l with LocatorIntent o => inl o | LocatorBalance a m => inr (a, m) end)
    (λ x : Z + Z * Z, match x with inl o => LocatorIntent o | inr (a, m) => LocatorBalance a m end)).
  by intros [].
Defined.

Definition proof_type_key (t : ValidityProofType) : string :=
  match t with
  | IntentOnlyFirstFill => "intent-only-first-fill"
  | IntentOnly => "intent-only"
  | IntentAndBalanceFirstFill => "intent-and-balance-first-fill"
  | IntentAndBalance => "intent-and-balance"
  | NewOutputBalance => "new-output-balance"
  | OutputBalance => "output-balance"
  end.
Definition witness_type_key (t : ValidityProofType) : string :=
  match t with
  | IntentOnlyFirstFill => "intent-only-first-fill-witness"
  | IntentOnly => "intent-only-witness"
  | IntentAndBalanceFirstFill => "intent-and-balance-first-fill-witness"
  | IntentAndBalance => "intent-and-balance-witness"
  | NewOutputBalance => "new-output-balance-witness"
  | OutputBalance => "output-balance-witness"
  end.
Definition ALL_VALIDITY_PROOF_KEYS : list string :=
  proof_type_key <$> [IntentOnlyFirstFill; IntentOnly; IntentAndBalanceFirstFill;
                      IntentAndBalance; NewOutputBalance; OutputBalance].
Definition ALL_VALIDITY_WITNESS_KEYS : list string :=
  witness_type_key <$> [IntentOnlyFirstFill; IntentOnly; IntentAndBalanceFirstFill;
                        IntentAndBalance; NewOutputBalance; OutputBalance].
Definition OUTPUT_BALANCE_VALIDITY_PROOF_KEYS : list string :=
  proof_type_key <$> [NewOutputBalance; OutputBalance].

(** ** Merkle paths (merkle_proofs.rs) *)

Inductive MerkleProofType :=
| IntentPath (order_id : OrderId)
| BalancePath (account_id : AccountId) (mint : Address).
#[global] Instance MerkleProofType_eq_dec : EqDecision MerkleProofType.
Proof. solve_decision. Defined.
#[global] Instance MerkleProofType_countable : Countable MerkleProofType.
Proof.
  apply (inj_countable'
    (λ t, match t with IntentPath o => inl o | BalancePath a m => inr (a, m) end)
    (λ x : Z + Z * Z, match x with inl o => IntentPath o | inr (a, m) => BalancePath a m end)).
  by intros [].
Defined.

(** ** The tables *)

Record AccountHeader := mkAccountHeader { header_id : AccountId; header_keychain : KeyChain }.

Record AccountDb := mkAccountDb {
  headers : gmap AccountId AccountHeader;
  db_orders : gmap (AccountId * OrderId) Order;
  db_balances : gmap (AccountId * Address * BalanceLocation) Balance;
  order_index : gmap OrderId AccountId;
  owner_index : gmap Address AccountId;
  intent_index : gmap Z (AccountId * OrderId);
  default_pools : gmap AccountId MatchingPoolName;
  order_auths : gmap OrderId OrderAuth;
  pools : gset MatchingPoolName;
  pool_assignment : gmap OrderId MatchingPoolName;
  validity_proofs : gmap (string * ValidityProofLocator) ProofPayload;
  merkle_proofs : gmap MerkleProofType MerkleAuthenticationPath;
  executor : option Address;
}.

Definition empty_account_db (executor : option Address) : AccountDb :=
  mkAccountDb ∅ ∅ ∅ ∅ ∅ ∅ ∅ ∅ ∅ ∅ ∅ ∅ executor.

Definition set_headers f d := mkAccountDb (f (headers d)) (db_orders d) (db_balances d)
  (order_index d) (owner_index d) (intent_index d) (default_pools d) (order_auths d) (pools d)
  (pool_assignment d) (validity_proofs d) (merkle_proofs d) (executor d).
Definition set_db_orders f d := mkAccountDb (headers d) (f (db_orders d)) (db_balances d)
  (order_index d) (owner_index d) (intent_index d) (default_pools d) (order_auths d) (pools d)
  (pool_assignment d) (validity_proofs d) (merkle_proofs d) (executor d).
Definition set_db_balances f d := mkAccountDb (headers d) (db_orders d) (f (db_balances d))
  (order_index d) (owner_index d) (intent_index d) (default_pools d) (order_auths d) (pools d)
  (pool_assignment d) (validity_proofs d) (merkle_proofs d) (executor d).
Definition set_order_index f d := mkAccountDb (headers d) (db_orders d) (db_balances d)
  (f (order_index d)) (owner_index d) (intent_index d) (default_pools d) (order_auths d) (pools d)
  (pool_assignment d) (validity_proofs d) (merkle_proofs d) (executor d).
Definition set_owner_index f d := mkAccountDb (headers d) (db_orders d) (db_balances d)
  (order_index d) (f (owner_index d)) (intent_index d) (default_pools d) (order_auths d) (pools d)
  (pool_assignment d) (validity_proofs d) (merkle_proofs d) (executor d).
Definition set_intent_index f d := mkAccountDb (headers d) (db_orders d) (db_balances d)
  (order_index d) (owner_index d) (f (intent_index d)) (default_pools d) (order_auths d) (pools d)
  (pool_assignment d) (validity_proofs d) (merkle_proofs d) (executor d).
Definition set_default_pools f d := mkAccountDb (headers d) (db_orders d) (db_balances d)
  (order_index d) (owner_index d) (intent_index d) (f (default_pools d)) (order_auths d) (pools d)
  (pool_assignment d) (validity_proofs d) (merkle_proofs d) (executor d).
Definition set_order_auths f d := mkAccountDb (headers d) (db_orders d) (db_balances d)
  (order_index d) (owner_index d) (intent_index d) (default_pools d) (f (order_auths d)) (pools d)
  (pool_assignment d) (validity_proofs d) (merkle_proofs d) (executor d).
Definition set_pools f g d := mkAccountDb (headers d) (db_orders d) (db_balances d)
  (order_index d) (owner_index d) (intent_index d) (default_pools d) (order_auths d) (f (pools d))
  (g (pool_assignment d)) (validity_proofs d) (merkle_proofs d) (executor d).
Definition set_validity_proofs f d := mkAccountDb (headers d) (db_orders d) (db_balances d)
  (order_index d) (owner_index d) (intent_index d) (default_pools d) (order_auths d) (pools d)
  (pool_assignment d) (f (validity_proofs d)) (merkle_proofs d) (executor d).
Definition set_merkle_proofs f d := mkAccountDb (headers d) (db_orders d) (db_balances d)
  (order_index d) (owner_index d) (intent_index d) (default_pools d) (order_auths d) (pools d)
  (pool_assignment d) (validity_proofs d) (f (merkle_proofs d)) (executor d).

Abbreviation ATxn := (M AccountDb StorageError) (only parsing).

(** ** Account getters (account_index.rs) *)

Definition get_account_header (a : AccountId) : ATxn (option AccountHeader) :=
  gets (λ d, headers d !! a).
Definition contains_account (a : AccountId) : ATxn bool :=
  h ← get_account_header a; mret (bool_decide (is_Some h)).
Definition get_account_default_matching_pool (a : AccountId) : ATxn (option MatchingPoolName) :=
  gets (λ d, default_pools d !! a).
Definition get_account_id_for_order (id : OrderId) : ATxn (option AccountId) :=
  gets (λ d, order_index d !! id).

Definition get_order (id : OrderId) : ATxn (option Order) :=
  a ← get_account_id_for_order id;
  match a with None => mret None | Some a => gets (λ d, db_orders d !! (a, id)) end.

Definition get_balance (a : AccountId) (token : Address) (l : BalanceLocation)
    : ATxn (option Balance) := gets (λ d, db_balances d !! (a, token, l)).
Definition has_darkpool_balance (a : AccountId) (m : Address) : ATxn bool :=
  b ← get_balance a m Darkpool; mret (bool_decide (is_Some b)).

Definition get_order_matchable_amount (id : OrderId) : ATxn (option Amount) :=
  a ← get_account_id_for_order id;
  match a with
  | None => mret None
  | Some a =>
      o ← get_order id;
      match o with
      | None => mret None
      | Some o =>
          bal ← get_balance a (order_input_token o) (balance_location (order_ring o));
          match bal with
          | None => mret (Some 0)
          | Some bal => mret (Some (Z.min (balance_amount bal) (order_amount_in o)))
          end
      end
  end.

(** The ids of the account's orders, in key order. *)
Definition order_ids (d : AccountDb) (a : AccountId) : list OrderId :=
  merge_sort (≤) (elements (set_map snd (filter (λ k, k.1 = a) (dom (db_orders d))) : gset OrderId)).
Definition fetch_orders_for_account (a : AccountId) : ATxn (list Order) :=
  gets (λ d, omap (λ id, db_orders d !! (a, id)) (order_ids d a)).
(** The balances of the account; they are only put into a map. *)
Definition fetch_balances_for_account (a : AccountId) : ATxn (list Balance) :=
  gets (λ d, (map_to_list (filter (λ kb, kb.1.1.1 = a) (db_balances d))).*2).
Definition get_account_orders (a : AccountId) : ATxn (list Order) := fetch_orders_for_account a.
Definition get_account_balances (a : AccountId) : ATxn (list Balance) :=
  fetch_balances_for_account a.

Definition get_orders_with_input_token (a : AccountId) (m : Address) : ATxn (list OrderId) :=
  os ← fetch_orders_for_account a;
  mret (order_id <$> filter (λ o, order_input_token o = m) os).
Definition get_orders_with_output_token (a : AccountId) (m : Address) : ATxn (list OrderId) :=
  os ← fetch_orders_for_account a;
  mret (order_id <$> filter (λ o, order_output_token o = m) os).

Definition set_default_pool (p : option MatchingPoolName) (a : Account) : Account :=
  mkAccount (account_id a) (orders a) (balances a) (keychain a) p.
Definition get_account (a : AccountId) : ATxn (option Account) :=
  h ← get_account_header a;
  match h with
  | None => mret None
  | Some h =>
      os ← fetch_orders_for_account a;
      bs ← fetch_balances_for_account a;
      p ← get_account_default_matching_pool a;
      mret (Some (set_default_pool p (account_new (header_id h) os bs (header_keychain h))))
  end.

Definition get_all_account_ids : ATxn (list AccountId) :=
  gets (λ d, header_id <$> (map_to_list (headers d)).*2).
Definition get_all_accounts : ATxn (list Account) :=
  ids ← get_all_account_ids;
  foldr (λ id rest, a ← get_account id; l ← rest; mret (option_list a ++ l)) (mret []) ids.

Definition get_account_by_owner (o : Address) : ATxn (option AccountId) :=
  gets (λ d, owner_index d !! o).
Definition get_all_owner_index_entries : ATxn (list (Address * AccountId)) :=
  gets (λ d, map_to_list (owner_index d)).
Definition get_order_by_intent_hash (h : Z) : ATxn (option (AccountId * OrderId)) :=
  gets (λ d, intent_index d !! h).

(** ** Account setters *)

Definition new_account (a : Account) : ATxn unit :=
  modify (set_headers <[account_id a := mkAccountHeader (account_id a) (keychain a)]>).
Definition add_order (a : AccountId) (o : Order) : ATxn unit :=
  modify (set_db_orders <[(a, order_id o) := o]>);;
  modify (set_order_index <[order_id o := a]>).
Definition update_order (a : AccountId) (o : Order) : ATxn unit :=
  modify (set_db_orders <[(a, order_id o) := o]>).
Definition update_balance (a : AccountId) (b : Balance) : ATxn unit :=
  modify (set_db_balances <[(a, balance_mint b, location b) := b]>).
Definition update_keychain (a : AccountId) (k : KeyChain) : ATxn unit :=
  modify (set_headers <[a := mkAccountHeader a k]>).
Definition set_account_default_matching_pool (a : AccountId) (p : option MatchingPoolName)
    : ATxn unit :=
  match p with
  | Some name => modify (set_default_pools <[a := name]>)
  | None => modify (set_default_pools (delete a))
  end.
Definition remove_order (a : AccountId) (id : OrderId) : ATxn unit :=
  modify (set_db_orders (delete (a, id)));;
  modify (set_order_index (delete id)).
Definition set_owner_to_account (o : Address) (a : AccountId) : ATxn unit :=
  modify (set_owner_index <[o := a]>).
Definition remove_owner_mapping (o : Address) : ATxn unit := modify (set_owner_index (delete o)).
Definition set_intent_to_order_and_account (h : Z) (a : AccountId) (id : OrderId) : ATxn unit :=
  modify (set_intent_index <[h := (a, id)]>).
Definition remove_intent_mapping (h : Z) : ATxn unit := modify (set_intent_index (delete h)).

(** ** Order authorization (order_auth.rs) *)

Definition get_order_auth (id : OrderId) : ATxn (option OrderAuth) := gets (λ d, order_auths d !! id).
Definition contains_order_auth (id : OrderId) : ATxn bool :=
  a ← get_order_auth id; mret (bool_decide (is_Some a)).
Definition write_order_auth (id : OrderId) (auth : OrderAuth) : ATxn unit :=
  modify (set_order_auths <[id := auth]>).
Definition delete_order_auth (id : OrderId) : ATxn unit := modify (set_order_auths (delete id)).

(** ** Matching pools (matching_pools.rs) *)

Definition GLOBAL_MATCHING_POOL : MatchingPoolName := "global".
Definition MATCHING_POOL_EXISTS_ERR := Rejected "matching pool already exists".
Definition MATCHING_POOL_DOES_NOT_EXIST_ERR : string := "matching pool does not exist".

Definition get_matching_pool_for_order (id : OrderId) : ATxn MatchingPoolName :=
  gets (λ d, default GLOBAL_MATCHING_POOL (pool_assignment d !! id)).
Definition matching_pool_exists (name : MatchingPoolName) : ATxn bool :=
  if bool_decide (name = GLOBAL_MATCHING_POOL) then mret true
  else gets (λ d, bool_decide (name ∈ pools d)).
Definition matching_pool_is_empty (name : MatchingPoolName) : ATxn bool :=
  gets (λ d, bool_decide (map_Forall (λ _ p, p ≠ name) (pool_assignment d))).
Definition create_matching_pool (name : MatchingPoolName) : ATxn unit :=
  exists_ ← matching_pool_exists name;
  ensure (negb exists_) MATCHING_POOL_EXISTS_ERR;;
  modify (set_pools ({[name]} ∪.) id).
Definition destroy_matching_pool (name : MatchingPoolName) : ATxn unit :=
  modify (set_pools id (filter (λ kv, kv.2 ≠ name)));;
  modify (set_pools (.∖ {[name]}) id).
Definition remove_order_from_matching_pool (id_ : OrderId) : ATxn unit :=
  modify (set_pools id (delete id_)).
Definition assign_order_to_matching_pool (id_ : OrderId) (name : MatchingPoolName) : ATxn unit :=
  exists_ ← matching_pool_exists name;
  ensure exists_ (Rejected MATCHING_POOL_DOES_NOT_EXIST_ERR);;
  if bool_decide (name = GLOBAL_MATCHING_POOL) then remove_order_from_matching_pool id_
  else modify (set_pools id <[id_ := name]>).

Definition remove_order_with_auth (a : AccountId) (id : OrderId) : ATxn unit :=
  remove_order a id;; delete_order_auth id;; remove_order_from_matching_pool id.

(** ** Validity proofs (proofs.rs) *)

Definition get_validity_proof (t : ValidityProofType) (l : ValidityProofLocator)
    : ATxn (option ProofPayload) := gets (λ d, validity_proofs d !! (proof_type_key t, l)).
Definition get_validity_witness (t : ValidityProofType) (l : ValidityProofLocator)
    : ATxn (option ProofPayload) := gets (λ d, validity_proofs d !! (witness_type_key t, l)).
Definition has_output_balance_validity_proof (l : ValidityProofLocator) : ATxn bool :=
  any_m OUTPUT_BALANCE_VALIDITY_PROOF_KEYS (λ prefix,
    gets (λ d, bool_decide (is_Some (validity_proofs d !! (prefix, l))))).
Definition write_validity_proof (t : ValidityProofType) (l : ValidityProofLocator)
    (p : ProofPayload) : ATxn unit := modify (set_validity_proofs <[(proof_type_key t, l) := p]>).
Definition write_validity_witness (t : ValidityProofType) (l : ValidityProofLocator)
    (w : ProofPayload) : ATxn unit := modify (set_validity_proofs <[(witness_type_key t, l) := w]>).
Definition write_validity_proof_bundle (l : ValidityProofLocator) (b : ValidityProofBundle)
    : ATxn unit :=
  write_validity_proof (bundle_type b) l (bundle_proof b);;
  write_validity_witness (bundle_type b) l (bundle_witness b).
Definition delete_validity_proof (t : ValidityProofType) (l : ValidityProofLocator) : ATxn unit :=
  modify (set_validity_proofs (delete (proof_type_key t, l))).
Definition delete_all_validity_proofs (l : ValidityProofLocator) : ATxn unit :=
  for_each ALL_VALIDITY_PROOF_KEYS (λ prefix, modify (set_validity_proofs (delete (prefix, l))));;
  for_each ALL_VALIDITY_WITNESS_KEYS (λ prefix, modify (set_validity_proofs (delete (prefix, l)))).

(** ** Merkle paths (merkle_proofs.rs) *)

Definition get_merkle_proof (t : MerkleProofType) : ATxn (option MerkleAuthenticationPath) :=
  gets (λ d, merkle_proofs d !! t).
Definition set_merkle_proof (t : MerkleProofType) (p : MerkleAuthenticationPath) : ATxn unit :=
  modify (set_merkle_proofs <[t := p]>).

(** The address of the executor key (node_metadata.rs). *)
Definition get_executor_address : ATxn Address :=
  e ← gets executor; ok_or e (NotFound "node metadata key executor-key not found").
