(* ===== verification/AccountApplicator.v ===== *)
(** * The account, matching pool and proof applicators

    src/crates/state/src/applicator/{account_index,matching_pools,order_book}.rs: the state
    transitions on accounts, orders and balances.  They write the tables of [AccountStorage]
    in one transaction and then bring the matching engine, which is in memory and is not
    rolled back, in line with them.

    The hash of a public intent permit ([keccak256] of its ABI encoding) is a parameter. *)
From S2P Require Import Prelude Scalar DarkpoolTypes StateWrapper Merkle ValidityBundles.
From S2P Require Import AccountTypes Book Engine.
From S2P Require Import TaskStorage TaskApplicator AccountStorage.
Local Open Scope Z_scope.

Inductive AdminOrderUpdateType := Created | Updated | Cancelled.

Inductive SystemBusMessage :=
| AdminOrderUpdate (a : AccountId) (o : Order) (pool : MatchingPoolName)
    (t : AdminOrderUpdateType) (matchable : Amount)
| AdminBalanceUpdate (a : AccountId) (b : Balance)
| Fill (a : AccountId) (o : Order) (fill_amount : Amount) (filled : bool)
| OwnerIndexChanged (owner : Address) (added : bool).

(** The tables, the matching engine, and the messages published so far, newest first. *)
Record AccountWorld := mkAccountWorld {
  adb : AccountDb;
  engine : MatchingEngine;
  bus : list SystemBusMessage;
}.
Definition set_adb (d : AccountDb) (w : AccountWorld) : AccountWorld :=
  mkAccountWorld d (engine w) (bus w).
Definition set_engine (f : MatchingEngine → MatchingEngine) (w : AccountWorld) : AccountWorld :=
  mkAccountWorld (adb w) (f (engine w)) (bus w).

Abbreviation AApp := (M AccountWorld StateApplicatorError) (only parsing).

(** Run storage code in the transaction. *)
Definition tx {A} (m : M AccountDb StorageError A) : AApp A := zoom adb set_adb from_storage_error m.

Definition publish (m : SystemBusMessage) : AApp unit :=
  modify (λ w, mkAccountWorld (adb w) (engine w) (m :: bus w)).
Definition with_engine (f : MatchingEngine → MatchingEngine) : AApp unit := modify (set_engine f).

Definition publish_admin_order_update (a : AccountId) (o : Order) (pool : MatchingPoolName)
    (t : AdminOrderUpdateType) (matchable : Amount) : AApp unit :=
  publish (AdminOrderUpdate a o pool t matchable).
Definition publish_admin_balance_update (a : AccountId) (b : Balance) : AApp unit :=
  publish (AdminBalanceUpdate a b).
Definition publish_fill (a : AccountId) (o : Order) (fill : Amount) (filled : bool) : AApp unit :=
  publish (Fill a o fill filled).
Definition publish_owner_index_changed (owner : Address) (added : bool) : AApp unit :=
  publish (OwnerIndexChanged owner added).

(** Put the order into its book with its matchable amount, or take it out if that is zero. *)
Definition sync_order (a : AccountId) (o : Order) (matchable : Amount) (pool : MatchingPoolName)
    : AApp unit :=
  if 0 <? matchable then with_engine (λ e, upsert_order e a o matchable pool)
  else with_engine (λ e, cancel_order e o pool).

Definition update_matchable_amounts (a : AccountId) (b : Balance) : AApp unit :=
  ids ← tx (get_orders_with_input_token a (balance_mint b));
  for_each ids (λ id,
    o ← tx (get_order id);
    match o with
    | None => mret tt
    | Some o =>
        pool ← tx (get_matching_pool_for_order id);
        matchable ← tx (get_order_matchable_amount id);
        sync_order a o (default 0 matchable) pool
    end).

Definition account_not_found : StateApplicatorError := AppRejected "account not found".
Definition pool_not_found : StateApplicatorError := AppRejected MATCHING_POOL_DOES_NOT_EXIST_ERR.
Definition order_not_found : StateApplicatorError := AppRejected "order not found".
Definition order_not_associated : StateApplicatorError :=
  AppRejected "order not associated with account".

Definition ensure_account (a : AccountId) : AApp unit :=
  exists_ ← tx (contains_account a); ensure exists_ account_not_found.
Definition ensure_pool (pool : MatchingPoolName) : AApp unit :=
  exists_ ← tx (matching_pool_exists pool); ensure exists_ pool_not_found.

Section Applicator.
Context (permit_hash : PublicIntentPermit → Z).

(** ** Accounts (account_index.rs) *)

Definition create_account (a : Account) : AApp ApplicatorReturnType :=
  ensure (bool_decide (orders a = ∅) && bool_decide (balances a = ∅))
    (AppRejected "cannot create a non-empty account");;
  with_tx adb set_adb (tx (new_account a));;
  mret RetNone.

Definition add_order_to_account (a : AccountId) (o : Order) (auth : OrderAuth)
    (pool : MatchingPoolName) : AApp ApplicatorReturnType :=
  let owner := intent_owner (inner (order_intent o)) in
  '(is_new_entry, matchable) ← with_tx adb set_adb (
    ensure_account a;;
    ensure_pool pool;;
    tx (add_order a o);;
    tx (write_order_auth (order_id o) auth);;
    tx (assign_order_to_matching_pool (order_id o) pool);;
    match auth with
    | PublicOrder permit _ =>
        tx (set_intent_to_order_and_account (permit_hash permit) a (order_id o))
    | _ => mret tt
    end;;
    old ← tx (get_account_by_owner owner);
    tx (set_owner_to_account owner a);;
    matchable ← tx (get_order_matchable_amount (order_id o));
    mret (bool_decide (old = None), default 0 matchable));
  (if (is_new_entry : bool) then publish_owner_index_changed owner true else mret tt);;
  (if 0 <? matchable then with_engine (λ e, upsert_order e a o matchable pool) else mret tt);;
  publish_admin_order_update a o pool Created matchable;;
  mret RetNone.

Definition remove_order_from_account (a : AccountId) (id : OrderId) : AApp ApplicatorReturnType :=
  '(o, pool, should_remove_owner) ← with_tx adb set_adb (
    ensure_account a;;
    o ← tx (get_order id);
    o ← ok_or o order_not_found;
    pool ← tx (get_matching_pool_for_order id);
    executor ← tx get_executor_address;
    let hash := permit_hash (mkPublicIntentPermit (inner (order_intent o)) executor) in
    tx (remove_intent_mapping hash);;
    tx (remove_order_with_auth a id);;
    tx (delete_all_validity_proofs (LocatorIntent id));;
    remaining ← tx (get_account_orders a);
    let should_remove_owner := bool_decide (remaining = []) in
    (if should_remove_owner then tx (remove_owner_mapping (intent_owner (inner (order_intent o))))
     else mret tt);;
    mret (o, pool, should_remove_owner));
  (if (should_remove_owner : bool)
   then publish_owner_index_changed (intent_owner (inner (order_intent o))) false else mret tt);;
  with_engine (λ e, cancel_order e o pool);;
  publish_admin_order_update a o pool Cancelled 0;;
  mret RetNone.

Definition app_update_order (o : Order) : AApp ApplicatorReturnType :=
  let id := order_id o in
  old ← tx (get_order id);
  old ← ok_or old order_not_found;
  a ← tx (get_account_id_for_order id);
  a ← ok_or a order_not_associated;
  let old_amount := order_amount_in old in
  let new_amount := order_amount_in o in
  if new_amount =? 0 then
    (if new_amount <? old_amount then publish_fill a o (old_amount - new_amount) true else mret tt);;
    remove_order_from_account a id
  else
    '(pool, matchable) ← with_tx adb set_adb (
      tx (update_order a o);;
      pool ← tx (get_matching_pool_for_order id);
      matchable ← tx (get_order_matchable_amount id);
      mret (pool, default 0 matchable));
    sync_order a o matchable pool;;
    publish_admin_order_update a o pool Updated matchable;;
    (if new_amount <? old_amount
     then publish_fill a o (old_amount - new_amount) (new_amount =? 0) else mret tt);;
    mret RetNone.

Definition update_account_balance (a : AccountId) (b : Balance) : AApp ApplicatorReturnType :=
  with_tx adb set_adb (ensure_account a;; tx (update_balance a b));;
  update_matchable_amounts a b;;
  publish_admin_balance_update a b;;
  mret RetNone.

Definition update_account_keychain (a : AccountId) (k : KeyChain) : AApp ApplicatorReturnType :=
  with_tx adb set_adb (ensure_account a;; tx (update_keychain a k));;
  mret RetNone.

Record OrderRefreshData := mkOrderRefreshData {
  refresh_order : Order;
  refresh_pool : MatchingPoolName;
  refresh_auth : OrderAuth;
}.

(** The monotonic clamp: a refresh does not raise the remaining amount of a filled ring 0
    order. *)
Definition clamp_refresh (stored : option Order) (o : Order) : Order :=
  match stored with
  | Some s =>
      if bool_decide (order_ring o = Ring0) && has_been_filled (order_metadata s)
         && (order_amount_in s <? order_amount_in o)
      then (decrement_amount_in o (order_amount_in o - order_amount_in s)).2
      else o
  | None => o
  end.

(** Drop the stored orders that the refresh does not list. *)
Definition remove_stale (a : AccountId) (keep : list OrderId) (o : Order)
    : AApp (option (Order * MatchingPoolName)) :=
  if bool_decide (order_id o ∈ keep) then mret None
  else
    pool ← tx (get_matching_pool_for_order (order_id o));
    tx (remove_order_with_auth a (order_id o));;
    mret (Some (o, pool)).

(** Write one refreshed order: the order written and its update event. *)
Definition refresh_one (a : AccountId) (r : OrderRefreshData)
    : AApp (option (OrderRefreshData * AdminOrderUpdateType * Amount)) :=
  ensure_pool (refresh_pool r);;
  stored ← tx (get_order (order_id (refresh_order r)));
  let o := clamp_refresh stored (refresh_order r) in
  tx (write_order_auth (order_id o) (refresh_auth r));;
  (if bool_decide (is_Some stored) then tx (update_order a o) else tx (add_order a o));;
  tx (assign_order_to_matching_pool (order_id o) (refresh_pool r));;
  matchable ← tx (get_order_matchable_amount (order_id o));
  mret (Some (mkOrderRefreshData o (refresh_pool r) (refresh_auth r),
              (if bool_decide (is_Some stored) then Updated else Created), default 0 matchable)).

(** The transaction of [refresh_account]: the orders dropped, with their pools, and the orders
    written. *)
Definition refresh_tables (a : AccountId) (rs : list OrderRefreshData) (bs : list Balance)
    : AApp (list (Order * MatchingPoolName) *
            list (OrderRefreshData * AdminOrderUpdateType * Amount)) :=
  ensure_account a;;
  for_each bs (λ b, tx (update_balance a b));;
  current ← tx (get_account_orders a);
  stale ← collect_m current (remove_stale a ((λ r, order_id (refresh_order r)) <$> rs));
  updates ← collect_m rs (refresh_one a);
  mret (stale, updates).

Definition refresh_account (a : AccountId) (rs : list OrderRefreshData) (bs : list Balance)
    : AApp ApplicatorReturnType :=
  '(stale, updates) ← with_tx adb set_adb (refresh_tables a rs bs);
  for_each bs (publish_admin_balance_update a);;
  for_each updates (λ '(r, t, matchable),
    publish_admin_order_update a (refresh_order r) (refresh_pool r) t matchable);;
  for_each stale (λ '(o, pool),
    with_engine (λ e, cancel_order e o pool);;
    publish_admin_order_update a o pool Cancelled 0);;
  for_each updates (λ '(r, _, _),
    matchable ← tx (get_order_matchable_amount (order_id (refresh_order r)));
    sync_order a (refresh_order r) (default 0 matchable) (refresh_pool r));;
  mret RetNone.

(** ** Matching pools (matching_pools.rs) *)

Definition app_create_matching_pool (name : MatchingPoolName) : AApp ApplicatorReturnType :=
  with_tx adb set_adb (tx (create_matching_pool name));; mret RetNone.
Definition app_destroy_matching_pool (name : MatchingPoolName) : AApp ApplicatorReturnType :=
  with_tx adb set_adb (ensure_pool name;; tx (destroy_matching_pool name));; mret RetNone.

Definition update_matching_engine_after_order_assignment (id : OrderId)
    (new_pool : MatchingPoolName) : AApp unit :=
  old_pool ← tx (get_matching_pool_for_order id);
  o ← tx (get_order id);
  o ← ok_or o order_not_found;
  matchable ← tx (get_order_matchable_amount id);
  a ← tx (get_account_id_for_order id);
  a ← ok_or a order_not_associated;
  with_engine (λ e,
    let e := if engine_contains_order e o old_pool then cancel_order e o old_pool else e in
    engine_update_order e a o (default 0 matchable) new_pool).
Definition app_assign_order_to_matching_pool (id : OrderId) (new_pool : MatchingPoolName)
    : AApp ApplicatorReturnType :=
  with_tx adb set_adb (
    ensure_pool new_pool;;
    update_matching_engine_after_order_assignment id new_pool;;
    tx (assign_order_to_matching_pool id new_pool));;
  mret RetNone.
Definition app_set_account_default_matching_pool (a : AccountId) (pool : option MatchingPoolName)
    : AApp ApplicatorReturnType :=
  with_tx adb set_adb (ensure_account a;; tx (set_account_default_matching_pool a pool));;
  mret RetNone.

(** ** Validity proofs (order_book.rs) *)

(** A proof for an unknown order is skipped. *)
Definition add_validity_proof (l : ValidityProofLocator) (b : ValidityProofBundle)
    : AApp ApplicatorReturnType :=
  with_tx adb set_adb (
    known ← match l with
            | LocatorIntent id => o ← tx (get_order id); mret (bool_decide (is_Some o))
            | LocatorBalance _ _ => mret true
            end;
    if (known : bool) then tx (write_validity_proof_bundle l b) else mret tt);;
  mret RetNone.

(** ** Merkle paths (merkle_proofs.rs) *)

Definition add_merkle_proof (t : MerkleProofType) (p : MerkleAuthenticationPath)
    : AApp ApplicatorReturnType :=
  with_tx adb set_adb (tx (set_merkle_proof t p));; mret RetNone.

(** ** Dispatch (mod.rs) *)

Inductive AccountTransition :=
| CreateAccount (a : Account)
| AddOrderToAccount (a : AccountId) (o : Order) (auth : OrderAuth) (pool : MatchingPoolName)
| RemoveOrderFromAccount (a : AccountId) (id : OrderId)
| UpdateOrder (o : Order)
| UpdateAccountBalance (a : AccountId) (b : Balance)
| UpdateAccountKeychain (a : AccountId) (k : KeyChain)
| RefreshAccount (a : AccountId) (rs : list OrderRefreshData) (bs : list Balance)
| AddValidityProof (l : ValidityProofLocator) (b : ValidityProofBundle)
| AddMerkleProof (t : MerkleProofType) (p : MerkleAuthenticationPath)
| CreateMatchingPool (name : MatchingPoolName)
| DestroyMatchingPool (name : MatchingPoolName)
| AssignOrderToMatchingPool (id : OrderId) (name : MatchingPoolName)
| SetAccountDefaultMatchingPool (a : AccountId) (pool : option MatchingPoolName).

Definition handle_account_transition (t : AccountTransition) : AApp ApplicatorReturnType :=
  match t with
  | CreateAccount a => create_account a
  | AddOrderToAccount a o auth pool => add_order_to_account a o auth pool
  | RemoveOrderFromAccount a id => remove_order_from_account a id
  | UpdateOrder o => app_update_order o
  | UpdateAccountBalance a b => update_account_balance a b
  | UpdateAccountKeychain a k => update_account_keychain a k
  | RefreshAccount a rs bs => refresh_account a rs bs
  | AddValidityProof l b => add_validity_proof l b
  | AddMerkleProof t p => add_merkle_proof t p
  | CreateMatchingPool name => app_create_matching_pool name
  | DestroyMatchingPool name => app_destroy_matching_pool name
  | AssignOrderToMatchingPool id name => app_assign_order_to_matching_pool id name
  | SetAccountDefaultMatchingPool a pool => app_set_account_default_matching_pool a pool
  end.
End Applicator.
