(* ===== verification/AccountInvariant.v ===== *)
(** * Invariants of the account applicator

    The account tables stay coherent under every transition, and the matching engine never
    offers more of an order than the tables support: every order it lists is a stored order,
    in the book of its pair and of its matching pool, with at most its matchable amount.
    Also: the normalised storage represents the account it reconstructs; a balance update
    brings the engine in line; a refresh never raises the amount of a filled public order;
    and what pool assignments, removals and refreshes leave behind. *)
From S2P Require Import Prelude Scalar FixedPoint DarkpoolTypes StateWrapper AccountTypes Book.
From S2P Require Import Engine.
From S2P Require Import TaskStorage TaskApplicator AccountStorage AccountApplicator.
Local Open Scope Z_scope.

(** ** The tables as functions *)

Definition order_at (d : AccountDb) (id : OrderId) : option Order :=
  a ← order_index d !! id; db_orders d !! (a, id).
Definition pool_at (d : AccountDb) (id : OrderId) : MatchingPoolName :=
  default GLOBAL_MATCHING_POOL (pool_assignment d !! id).
Definition balance_for (d : AccountDb) (a : AccountId) (o : Order) : Amount :=
  default 0 (balance_amount <$>
    db_balances d !! (a, order_input_token o, balance_location (order_ring o))).
Definition capacity (d : AccountDb) (a : AccountId) (o : Order) : Amount :=
  match db_balances d !! (a, order_input_token o, balance_location (order_ring o)) with
  | Some b => Z.min (balance_amount b) (order_amount_in o)
  | None => 0
  end.
(** The matchable amount the tables give an order. *)
Definition matchable (d : AccountDb) (id : OrderId) : Amount :=
  match order_index d !! id with
  | Some a => match db_orders d !! (a, id) with Some o => capacity d a o | None => 0 end
  | None => 0
  end.
(** The book an order belongs to. *)
Definition place (d : AccountDb) (id : OrderId) : option (Pair * MatchingPoolName) :=
  (λ o, (order_pair o, pool_at d id)) <$> order_at d id.

Lemma get_order_eq id d : get_order id d = (Ok (order_at d id), d).
Proof.
  unfold get_order, get_account_id_for_order, order_at, gets, mbind, M_bind, mret, M_ret.
  by destruct (order_index d !! id).
Qed.

Lemma get_matchable_eq id d :
  ∃ o, get_order_matchable_amount id d = (Ok o, d) ∧ default 0 o = matchable d id.
Proof.
  unfold get_order_matchable_amount, get_account_id_for_order, matchable, capacity.
  unfold mbind at 1, M_bind at 1, gets at 1. destruct (order_index d !! id) as [a|] eqn:Ea.
  2: { by exists None. }
  unfold mbind at 1, M_bind at 1. rewrite get_order_eq. unfold order_at. rewrite Ea. simpl.
  destruct (db_orders d !! (a, id)) as [o|]; [|by exists None].
  unfold get_balance, gets, mbind, M_bind. simpl.
  destruct (db_balances d !! (a, _, _)); by eexists.
Qed.

(** ** Coherence of the tables *)

Record account_ok (d : AccountDb) : Prop := mkAccountOk {
  ao_index : ∀ a id, is_Some (db_orders d !! (a, id)) ↔ order_index d !! id = Some a;
  ao_id : ∀ a id o, db_orders d !! (a, id) = Some o → order_id o = id;
  ao_balance : ∀ a m l b, db_balances d !! (a, m, l) = Some b → balance_mint b = m ∧ location b = l;
  ao_header : ∀ a h, headers d !! a = Some h → header_id h = a;
  ao_account : ∀ id a, order_index d !! id = Some a → is_Some (headers d !! a);
  ao_auth : ∀ id, is_Some (order_auths d !! id) ↔ is_Some (order_index d !! id);
  ao_pool : ∀ id p, pool_assignment d !! id = Some p →
    p ∈ pools d ∧ p ≠ GLOBAL_MATCHING_POOL ∧ is_Some (order_index d !! id);
  ao_order_amount : map_Forall (λ _ o, is_u128 (order_amount_in o)) (db_orders d);
  ao_balance_amount : map_Forall (λ _ b, is_u128 (balance_amount b)) (db_balances d);
}.

Lemma capacity_nonneg d a o : account_ok d → is_u128 (order_amount_in o) → 0 ≤ capacity d a o.
Proof.
  intros Hok [Ho _]. unfold capacity. destruct (db_balances d !! _) as [b|] eqn:Eb; [|done].
  destruct (ao_balance_amount _ Hok _ _ Eb). lia.
Qed.
Lemma matchable_nonneg d id : account_ok d → 0 ≤ matchable d id.
Proof.
  intros Hok. unfold matchable. destruct (order_index d !! id) as [a|]; [|done].
  destruct (db_orders d !! (a, id)) as [o|] eqn:Eo; [|done].
  apply capacity_nonneg; [done|]. by apply (ao_order_amount _ Hok _ _ Eo).
Qed.

Lemma order_at_Some d id o :
  account_ok d → order_at d id = Some o →
  ∃ a, order_index d !! id = Some a ∧ db_orders d !! (a, id) = Some o ∧ order_id o = id.
Proof.
  intros Hok. unfold order_at. destruct (order_index d !! id) as [a|]; simpl; [|done].
  intros Ho. exists a. split_and!; [done|done|by eapply ao_id].
Qed.

Lemma order_at_index d id : account_ok d → is_Some (order_at d id) ↔ is_Some (order_index d !! id).
Proof.
  intros Hok. unfold order_at. destruct (order_index d !! id) as [a|] eqn:E; simpl; [|done].
  rewrite (ao_index _ Hok a id). rewrite E. split; [by eexists|done].
Qed.

(** *** Writing an order *)

(** [add_order], and [update_order] for an order the account has. *)
Definition put_order (a : AccountId) (o : Order) (d : AccountDb) : AccountDb :=
  set_order_index <[order_id o := a]> (set_db_orders <[(a, order_id o) := o]> d).

Lemma update_order_put a o d :
  order_index d !! order_id o = Some a →
  set_db_orders <[(a, order_id o) := o]> d = put_order a o d.
Proof.
  intros E. unfold put_order, set_order_index, set_db_orders. simpl. by rewrite (insert_id (order_index d)).
Qed.

Lemma order_at_put a o d id :
  order_index d !! order_id o = None ∨ order_index d !! order_id o = Some a →
  order_at (put_order a o d) id = if decide (id = order_id o) then Some o else order_at d id.
Proof.
  intros Hi. unfold order_at, put_order. simpl. case_decide as E; subst.
  - rewrite lookup_insert_eq. simpl. by rewrite lookup_insert_eq.
  - rewrite lookup_insert_ne by done. destruct (order_index d !! id) as [a'|]; simpl; [|done].
    rewrite lookup_insert_ne; congruence.
Qed.

Lemma matchable_put a o d id :
  matchable (put_order a o d) id =
  if decide (id = order_id o) then capacity d a o else matchable d id.
Proof.
  unfold matchable, put_order. simpl. case_decide as E; subst.
  - by rewrite !lookup_insert_eq.
  - rewrite lookup_insert_ne by done. destruct (order_index d !! id) as [a'|]; simpl; [|done].
    rewrite lookup_insert_ne by congruence. done.
Qed.

(** *** Dropping an order *)

Definition drop_order (a : AccountId) (id_ : OrderId) (d : AccountDb) : AccountDb :=
  set_pools id (delete id_) (set_order_auths (delete id_)
    (set_order_index (delete id_) (set_db_orders (delete (a, id_)) d))).

Lemma remove_order_with_auth_eq a id d :
  remove_order_with_auth a id d = (Ok tt, drop_order a id d).
Proof. done. Qed.

Lemma order_at_drop a id d id' :
  order_at (drop_order a id d) id' = if decide (id' = id) then None else order_at d id'.
Proof.
  unfold order_at, drop_order. simpl. case_decide as E; subst.
  - by rewrite lookup_delete_eq.
  - rewrite lookup_delete_ne by done. destruct (order_index d !! id') as [a'|]; simpl; [|done].
    rewrite lookup_delete_ne; congruence.
Qed.

Lemma matchable_drop a id d id' :
  id' ≠ id → matchable (drop_order a id d) id' = matchable d id'.
Proof.
  intros Hne. unfold matchable, drop_order. simpl. rewrite lookup_delete_ne by done.
  destruct (order_index d !! id') as [a'|]; [|done]. by rewrite lookup_delete_ne by congruence.
Qed.

Lemma place_drop a id d id' :
  place (drop_order a id d) id' = if decide (id' = id) then None else place d id'.
Proof.
  unfold place. rewrite order_at_drop. case_decide; [done|].
  unfold pool_at, drop_order. simpl. by rewrite lookup_delete_ne.
Qed.

Lemma drop_order_ok a id d :
  account_ok d → order_index d !! id = None ∨ order_index d !! id = Some a →
  account_ok (drop_order a id d).
Proof.
  intros [H1 H2 H3 H4 H5 H6 H7 H8 H9] Hi. split; simpl.
  - intros a' id'. destruct (decide (id' = id)) as [->|Hne].
    + rewrite lookup_delete_eq. split; [|done]. rewrite lookup_delete_is_Some, H1. intros [Hn E].
      destruct Hi; congruence.
    + rewrite !lookup_delete_ne by congruence. apply H1.
  - intros a' id' o [_ Ho]%lookup_delete_Some. by eapply H2.
  - done.
  - done.
  - intros id' a' [_ ?]%lookup_delete_Some. by eapply H5.
  - intros id'. rewrite !lookup_delete_is_Some, H6. done.
  - intros id' p [Hne ?]%lookup_delete_Some. rewrite lookup_delete_ne by done. by apply H7.
  - by apply map_Forall_delete.
  - done.
Qed.

(** *** Storing an order with its authorization and pool *)

Definition pool_exists (d : AccountDb) (p : MatchingPoolName) : Prop :=
  p = GLOBAL_MATCHING_POOL ∨ p ∈ pools d.
Definition assign_pool (p : MatchingPoolName) (id_ : OrderId) (d : AccountDb) : AccountDb :=
  if bool_decide (p = GLOBAL_MATCHING_POOL) then set_pools id (delete id_) d
  else set_pools id <[id_ := p]> d.
Definition store_order (a : AccountId) (o : Order) (auth : OrderAuth) (p : MatchingPoolName)
    (d : AccountDb) : AccountDb :=
  assign_pool p (order_id o) (set_order_auths <[order_id o := auth]> (put_order a o d)).

Lemma matching_pool_exists_eq p d :
  matching_pool_exists p d = (Ok (bool_decide (pool_exists d p)), d).
Proof.
  unfold matching_pool_exists, pool_exists. case_bool_decide as Hp.
  - by rewrite bool_decide_true by (by left).
  - unfold gets. f_equal. f_equal. apply bool_decide_ext. tauto.
Qed.

Lemma assign_eq id p d :
  pool_exists d p → assign_order_to_matching_pool id p d = (Ok tt, assign_pool p id d).
Proof.
  intros Hp. unfold assign_order_to_matching_pool, mbind, M_bind.
  rewrite matching_pool_exists_eq, bool_decide_true by done. simpl.
  unfold assign_pool. by case_bool_decide.
Qed.

Lemma pool_at_assign p id d id' :
  pool_at (assign_pool p id d) id' = if decide (id' = id) then p else pool_at d id'.
Proof.
  unfold pool_at, assign_pool. case_bool_decide; case_decide; subst; simpl;
    rewrite ?lookup_delete_eq, ?lookup_insert_eq, ?lookup_delete_ne, ?lookup_insert_ne by done; done.
Qed.

Lemma assign_other p id d :
  order_index (assign_pool p id d) = order_index d ∧ db_orders (assign_pool p id d) = db_orders d ∧
  db_balances (assign_pool p id d) = db_balances d.
Proof. unfold assign_pool. by case_bool_decide. Qed.

Lemma order_at_store a o auth p d id :
  order_index d !! order_id o = None ∨ order_index d !! order_id o = Some a →
  order_at (store_order a o auth p d) id = if decide (id = order_id o) then Some o else order_at d id.
Proof.
  intros Hi. rewrite <-(order_at_put a o d id Hi). unfold store_order, order_at.
  destruct (assign_other p (order_id o) (set_order_auths <[order_id o:=auth]> (put_order a o d)))
    as (-> & -> & _). done.
Qed.

Lemma matchable_store a o auth p d id :
  matchable (store_order a o auth p d) id =
  if decide (id = order_id o) then capacity d a o else matchable d id.
Proof.
  rewrite <-matchable_put. unfold store_order, matchable, capacity.
  destruct (assign_other p (order_id o) (set_order_auths <[order_id o:=auth]> (put_order a o d)))
    as (-> & -> & ->). done.
Qed.

Lemma place_store a o auth p d id :
  order_index d !! order_id o = None ∨ order_index d !! order_id o = Some a →
  place (store_order a o auth p d) id =
  if decide (id = order_id o) then Some (order_pair o, p) else place d id.
Proof.
  intros Hi. unfold place. rewrite order_at_store by done. unfold store_order at 1.
  rewrite pool_at_assign. by case_decide.
Qed.

Lemma store_order_ok a o auth p d :
  account_ok d → is_u128 (order_amount_in o) → is_Some (headers d !! a) → pool_exists d p →
  order_index d !! order_id o = None ∨ order_index d !! order_id o = Some a →
  account_ok (store_order a o auth p d).
Proof.
  intros [H1 H2 H3 H4 H5 H6 H7 H8 H9] Hamt Ha Hp Hi.
  assert (account_ok (set_order_auths <[order_id o:=auth]> (put_order a o d))) as Hok.
  { split; simpl; [| |done|done| | | | |done].
    - intros a' id'. destruct (decide (id' = order_id o)) as [->|Hne].
      + rewrite lookup_insert_eq. destruct (decide (a' = a)) as [->|Hna].
        * rewrite lookup_insert_eq. by split; [|by eexists].
        * rewrite lookup_insert_ne by congruence. rewrite H1. destruct Hi; split; congruence.
      + rewrite !lookup_insert_ne by congruence. apply H1.
    - intros a' id' o' [[[= <- <-] <-]|[_ Ho]]%lookup_insert_Some; [done|by eapply H2].
    - intros id' a' [[_ <-]|[_ ?]]%lookup_insert_Some; [done|by eapply H5].
    - intros id'. rewrite !lookup_insert_is_Some, H6. done.
    - intros id' q Hq. destruct (H7 _ _ Hq) as (? & ? & ?). split_and!; [done|done|].
      rewrite lookup_insert_is_Some. destruct (decide (order_id o = id')); auto.
    - by apply map_Forall_insert_2. }
  unfold store_order, assign_pool. case_bool_decide as Hg; destruct Hok as [I1 I2 I3 I4 I5 I6 I7 I8 I9];
    split; try done; simpl in *.
  - intros id' q [_ ?]%lookup_delete_Some. by apply I7.
  - intros id' q [[<- <-]|[_ ?]]%lookup_insert_Some; [|by apply I7].
    destruct Hp as [?|Hp]; [done|]. split_and!; [done|done|]. rewrite lookup_insert_is_Some. by left.
Qed.

(** ** What the engine lists *)

(** Every order the engine lists is in the book [where_] gives it, with at most the amount
    [bound] gives it, if any. *)
Definition within (e : MatchingEngine) (where_ : OrderId → option (Pair * MatchingPoolName))
    (bound : OrderId → option Amount) : Prop :=
  engine_ok e ∧
  (∀ pair pool id bo, pool_order e pair pool id = Some bo →
    where_ id = Some (pair, pool) ∧ ∀ b, bound id = Some b → bo_matchable_amount bo ≤ b) ∧
  (∀ pair id bo, all_order e pair id = Some bo →
    (∃ pool, where_ id = Some (pair, pool)) ∧ ∀ b, bound id = Some b → bo_matchable_amount bo ≤ b).

Definition engine_sound (d : AccountDb) (e : MatchingEngine) : Prop :=
  within e (place d) (λ id, Some (matchable d id)).

Lemma within_mono e w w' b b' :
  (∀ id p, w id = Some p → w' id = Some p ∧
    ∀ x', b' id = Some x' → ∃ x, b id = Some x ∧ x ≤ x') →
  within e w b → within e w' b'.
Proof.
  intros H (Hok & Hp & Ha). split_and!; [done| |].
  - intros pair pool id bo Hbo. destruct (Hp _ _ _ _ Hbo) as [Hw Hb].
    destruct (H _ _ Hw) as [Hw' Hb']. split; [done|]. intros x' Hx'.
    destruct (Hb' _ Hx') as (x & Hx & ?). specialize (Hb _ Hx). lia.
  - intros pair id bo Hbo. destruct (Ha _ _ _ Hbo) as [[pool Hw] Hb].
    destruct (H _ _ Hw) as [Hw' Hb']. split; [by exists pool|]. intros x' Hx'.
    destruct (Hb' _ Hx') as (x & Hx & ?). specialize (Hb _ Hx). lia.
Qed.

(** An update of one order in its book. *)
Lemma within_local e e' w b pair pool i f w' b' :
  within e w b → engine_ok e' → local_update e e' pair pool i f →
  (∀ p, w i = Some p → p = (pair, pool)) →
  (∀ x bo, f x = Some bo → w' i = Some (pair, pool) ∧
    ∀ y, b' i = Some y → bo_matchable_amount bo ≤ y) →
  (∀ j, j ≠ i → w' j = w j ∧ b' j = b j) →
  within e' w' b'.
Proof.
  intros (_ & Hp & Ha) Hok' (L1 & L2 & L3 & L4) Hi Hf Hother. split_and!; [done| |].
  - intros pair' pool' id bo Hbo. destruct (decide ((pair', pool', id) = (pair, pool, i))) as [[= -> -> ->]|Hne].
    + rewrite L1 in Hbo. by eapply Hf.
    + rewrite L3 in Hbo by done. destruct (Hp _ _ _ _ Hbo) as [Hw Hb].
      destruct (decide (id = i)) as [->|Hid]; [by destruct (Hi _ Hw); congruence|].
      destruct (Hother _ Hid) as [-> ->]. done.
  - intros pair' id bo Hbo. destruct (decide ((pair', id) = (pair, i))) as [[= -> ->]|Hne].
    + rewrite L2 in Hbo. destruct (Hf _ _ Hbo). split; [by eexists|done].
    + rewrite L4 in Hbo by done. destruct (Ha _ _ _ Hbo) as [[pool' Hw] Hb].
      destruct (decide (id = i)) as [->|Hid]; [by specialize (Hi _ Hw); congruence|].
      destruct (Hother _ Hid) as [-> ->]. split; [by eexists|done].
Qed.

Definition engine_sync (a : AccountId) (o : Order) (m : Amount) (p : MatchingPoolName)
    (e : MatchingEngine) : MatchingEngine :=
  if 0 <? m then upsert_order e a o m p else cancel_order e o p.

Lemma sync_order_eq a o m p w :
  sync_order a o m p w = (Ok tt, set_engine (engine_sync a o m p) w).
Proof. unfold sync_order, engine_sync. by destruct (0 <? m). Qed.

Lemma within_upsert e w b b' a o m p :
  within e w b → w (order_id o) = Some (order_pair o, p) →
  (∀ y, b' (order_id o) = Some y → m ≤ y) → (∀ j, j ≠ order_id o → b' j = b j) →
  within (upsert_order e a o m p) w b'.
Proof.
  intros Hw Hi Hb Ho. destruct (upsert_order_local e a o m p (proj1 Hw)) as [Hok Hl].
  eapply within_local; [done|done|exact Hl|congruence| |by auto].
  intros x bo [= <-]. split; [done|]. simpl. apply Hb.
Qed.

Lemma within_cancel e w w' b b' o p :
  within e w b → (∀ q, w (order_id o) = Some q → q = (order_pair o, p)) →
  (∀ j, j ≠ order_id o → w' j = w j ∧ b' j = b j) →
  within (cancel_order e o p) w' b'.
Proof.
  intros Hw Hi Ho. destruct (cancel_order_local e o p (proj1 Hw)) as [Hok Hl].
  by eapply within_local; [done|done|exact Hl|done| |done].
Qed.

Lemma within_sync e w b b' a o m p :
  within e w b → w (order_id o) = Some (order_pair o, p) →
  (∀ y, b' (order_id o) = Some y → m ≤ y) → (∀ j, j ≠ order_id o → b' j = b j) →
  within (engine_sync a o m p e) w b'.
Proof.
  intros Hw Hi Hb Ho. unfold engine_sync. destruct (0 <? m).
  - by eapply within_upsert.
  - eapply within_cancel; [done|congruence|by auto].
Qed.

(** Updating an order in a pool: in its book if that exists, and in the all-pools book. *)
Lemma within_engine_update e w w' b b' a o m p :
  within e w b → (∀ q, w (order_id o) = Some q → q = (order_pair o, p)) →
  w' (order_id o) = Some (order_pair o, p) →
  (∀ y, b' (order_id o) = Some y → m ≤ y) → (∀ j, j ≠ order_id o → w' j = w j ∧ b' j = b j) →
  within (engine_update_order e a o m p) w' b'.
Proof.
  intros Hw Hi Hi' Hb Ho. destruct (book_map e !! (order_pair o, p)) as [bk|] eqn:Ebk.
  { destruct (update_order_local e a o m p (proj1 Hw)) as [Hok Hl]; [by eexists|].
    eapply within_local; [done|done|exact Hl|done| |done]. intros x bo [= <-]. split; [done|apply Hb]. }
  pose proof Hw as (Hok & Hp & Ha). split_and!.
  - apply alter_engine_ok; [by intros bk Hbk; apply update_order_ok|done].
  - intros pair pool id bo Hbo.
    assert (pool_order e pair pool id = Some bo) as Hbo'.
    { revert Hbo. unfold pool_order. simpl. destruct (decide ((order_pair o, p) = (pair, pool))) as [<-|];
        [by rewrite lookup_alter_eq, Ebk|by rewrite lookup_alter_ne]. }
    destruct (Hp _ _ _ _ Hbo') as [Hwi Hbi]. destruct (decide (id = order_id o)) as [->|Hid].
    + specialize (Hi _ Hwi). injection Hi as -> ->. unfold pool_order in Hbo'. by rewrite Ebk in Hbo'.
    + destruct (Ho _ Hid) as [-> ->]. done.
  - intros pair id bo. unfold all_order. simpl.
    destruct (decide (order_pair o = pair)) as [<-|Hne].
    2: { rewrite lookup_alter_ne by done. intros Hbo. destruct (Ha pair id bo Hbo) as [[pool Hwi] Hbi].
         destruct (decide (id = order_id o)) as [->|Hid]; [by specialize (Hi _ Hwi); congruence|].
         destruct (Ho _ Hid) as [-> ->]. split; [by eexists|done]. }
    rewrite lookup_alter_eq. destruct (all_pools_book e !! order_pair o) as [bk|] eqn:Eall; [|done].
    match goal with |- _ → ?G => change (order_map (Book.update_order bk a o m) !! id = Some bo → G) end.
    rewrite (proj2 (update_order_ok bk a o m (proj1 (proj2 Hok) _ _ Eall))).
    intros [[<- <-]|[Hid Hbo]]%lookup_insert_Some.
    + split; [by eexists|apply Hb].
    + destruct (Ha (order_pair o) id bo) as [[pool Hwi] Hbi]; [unfold all_order; by rewrite Eall|].
      destruct (Ho id) as [-> ->]; [done|]. split; [by eexists|done].
Qed.

(** ** Transactions *)

Lemma tx_Ok_inv {A} (m : M AccountDb StorageError A) w a w' :
  tx m w = (Ok a, w') → ∃ d', m (adb w) = (Ok a, d') ∧ w' = set_adb d' w.
Proof.
  unfold tx, zoom. destruct (m (adb w)) as [[x|e] d'] eqn:E; [|done]. intros [= <- <-]. eauto.
Qed.

Lemma with_tx_Ok_inv {A} (m : M AccountWorld StateApplicatorError A) w a w' :
  with_tx adb set_adb m w = (Ok a, w') → m w = (Ok a, w').
Proof. unfold with_tx. by destruct (m w) as [[x|e] w1]. Qed.

(** A computation that never touches the engine. *)
Definition keeps_engine {A} (m : M AccountWorld StateApplicatorError A) : Prop :=
  ∀ w, engine (m w).2 = engine w.

Section Keeps.
Context {A B X : Type}.

Lemma keeps_ret (a : A) : keeps_engine (mret a).
Proof. done. Qed.
Lemma keeps_tx (m : M AccountDb StorageError A) : keeps_engine (tx m).
Proof. intros w. unfold tx, zoom. by destruct (m (adb w)) as [[x|e] d']. Qed.
Lemma keeps_bind (m : M AccountWorld StateApplicatorError A)
    (f : A → M AccountWorld StateApplicatorError B) :
  keeps_engine m → (∀ a, keeps_engine (f a)) → keeps_engine (m ≫= f).
Proof.
  intros Hm Hf w. unfold mbind, M_bind. specialize (Hm w).
  destruct (m w) as [[a|e] w']; simpl in *; [by rewrite Hf|done].
Qed.
Lemma keeps_ensure c e : keeps_engine (ensure c e).
Proof. by destruct c. Qed.
Lemma keeps_ok_or (o : option A) e : keeps_engine (ok_or o e).
Proof. by destruct o. Qed.
Lemma keeps_publish m : keeps_engine (publish m).
Proof. done. Qed.
End Keeps.

Lemma keeps_for_each {X} (xs : list X) body :
  (∀ x, keeps_engine (body x)) → keeps_engine (for_each xs body).
Proof. intros H. induction xs; simpl; [apply keeps_ret|by apply keeps_bind]. Qed.
Lemma keeps_collect {X Y} (xs : list X) (body : X → M AccountWorld StateApplicatorError (option Y)) :
  (∀ x, keeps_engine (body x)) → keeps_engine (collect_m xs body).
Proof.
  intros H. induction xs; simpl; [apply keeps_ret|]. apply keeps_bind; [done|]. intros y.
  apply keeps_bind; [done|]. intros ys. apply keeps_ret.
Qed.

Ltac solve_keeps :=
  repeat first
    [ apply keeps_ret | apply keeps_tx | apply keeps_ensure | apply keeps_ok_or | apply keeps_publish
    | apply keeps_for_each; intros ? | apply keeps_collect; intros ?
    | apply keeps_bind; [|intros ?]
    | match goal with |- keeps_engine (match ?x with _ => _ end) => destruct x end
    | match goal with |- keeps_engine (let '(_, _) := ?x in _) => destruct x end ].

(** A handler that fails leaves the tables and the engine as they were. *)
Definition fails_clean {A} (m : M AccountWorld StateApplicatorError A) : Prop :=
  ∀ w e w', m w = (Err e, w') → adb w' = adb w ∧ engine w' = engine w.
Definition total {A} (m : M AccountWorld StateApplicatorError A) : Prop :=
  ∀ w e w', m w ≠ (Err e, w').

Lemma fails_clean_tx {A B} (m : M AccountWorld StateApplicatorError A)
    (f : A → M AccountWorld StateApplicatorError B) :
  keeps_engine m → (∀ a, total (f a)) → fails_clean (with_tx adb set_adb m ≫= f).
Proof.
  intros Hk Hf w e w'. unfold mbind, M_bind, with_tx. specialize (Hk w).
  destruct (m w) as [[a|e'] w1]; [intros H; by apply Hf in H|]. by intros [= <- <-].
Qed.

Lemma set_adb_id w : set_adb (adb w) w = w.
Proof. by destruct w. Qed.
Lemma set_adb_twice d d' w : set_adb d' (set_adb d w) = set_adb d' w.
Proof. done. Qed.

Lemma ensure_account_inv a w u w' :
  ensure_account a w = (Ok u, w') → w' = w ∧ is_Some (headers (adb w) !! a).
Proof.
  unfold ensure_account, contains_account, get_account_header.
  intros (b & w1 & (d' & Hb & ->)%tx_Ok_inv & H)%bind_Ok_inv. inv_ok. rewrite set_adb_id.
  by apply bool_decide_eq_true in Hc.
Qed.
Lemma ensure_pool_inv p w u w' : ensure_pool p w = (Ok u, w') → w' = w ∧ pool_exists (adb w) p.
Proof.
  unfold ensure_pool.
  intros (b & w1 & (d' & Hb & ->)%tx_Ok_inv & H)%bind_Ok_inv.
  rewrite matching_pool_exists_eq in Hb. injection Hb as <- <-. inv_ok. rewrite set_adb_id.
  by apply bool_decide_eq_true in Hc.
Qed.

(** Take a successful run apart, down to the storage operations. *)
Ltac app_step :=
  match goal with
  | H : (_ ≫= _) _ = (Ok _, _) |- _ =>
      let a := fresh "a" in let w := fresh "w" in let H1 := fresh "Hm" in
      apply bind_Ok_inv in H as (a & w & H1 & H)
  | H : with_tx adb set_adb _ _ = (Ok _, _) |- _ => apply with_tx_Ok_inv in H
  | H : ensure_account _ _ = (Ok _, _) |- _ =>
      let E := fresh "Ha" in apply ensure_account_inv in H as [-> E]
  | H : ensure_pool _ _ = (Ok _, _) |- _ =>
      let E := fresh "Hp" in apply ensure_pool_inv in H as [-> E]
  | H : tx _ _ = (Ok _, _) |- _ =>
      let d := fresh "d" in let E := fresh "Hd" in apply tx_Ok_inv in H as (d & E & ->)
  | H : get_order _ _ = (Ok _, _) |- _ => rewrite get_order_eq in H; inv_pair H
  | H : mret _ _ = (Ok _, _) |- _ => inv_pair H
  | H : gets _ _ = (Ok _, _) |- _ => inv_pair H
  | H : modify _ _ = (Ok _, _) |- _ => inv_pair H
  | H : publish _ _ = (Ok _, _) |- _ => inv_pair H
  | H : with_engine _ _ = (Ok _, _) |- _ => inv_pair H
  | H : ok_or ?o _ _ = (Ok _, _) |- _ =>
      let E := fresh "Ho" in destruct o eqn:E; [inv_pair H|discriminate H]
  | H : ensure ?c _ _ = (Ok _, _) |- _ =>
      let E := fresh "Hc" in destruct c eqn:E; [inv_pair H|discriminate H]
  end.
Ltac app_inv := repeat (app_step; cbn [adb set_adb engine] in *).

Definition world_ok (w : AccountWorld) : Prop :=
  account_ok (adb w) ∧ engine_sound (adb w) (engine w).

(** Equal in the tables the invariants read. *)
Definition same_core (d d' : AccountDb) : Prop :=
  db_orders d' = db_orders d ∧ db_balances d' = db_balances d ∧ order_index d' = order_index d ∧
  headers d' = headers d ∧ order_auths d' = order_auths d ∧ pools d' = pools d ∧
  pool_assignment d' = pool_assignment d.

Lemma account_ok_core d d' : same_core d d' → account_ok d → account_ok d'.
Proof.
  intros (E1 & E2 & E3 & E4 & E5 & E6 & E7) [H1 H2 H3 H4 H5 H6 H7 H8 H9].
  split; intros *; rewrite ?E1, ?E2, ?E3, ?E4, ?E5, ?E6, ?E7; eauto.
Qed.

Lemma core_lookups d d' :
  same_core d d' → (∀ id, order_at d' id = order_at d id) ∧ (∀ id, place d' id = place d id) ∧
  (∀ id, matchable d' id = matchable d id) ∧ (∀ a o, capacity d' a o = capacity d a o).
Proof.
  intros (E1 & E2 & E3 & E4 & E5 & E6 & E7).
  unfold place, order_at, pool_at, matchable, capacity. by rewrite E1, E2, E3, E7.
Qed.

Lemma engine_sound_core d d' e : same_core d d' → engine_sound d e → engine_sound d' e.
Proof.
  intros (_ & Ep & Em & _)%core_lookups. apply within_mono. intros id p Hp. rewrite Ep, Em.
  split; [done|]. intros x' Hx. exists x'. split; [done|lia].
Qed.

Section Handlers.
Context (permit_hash : PublicIntentPermit → Z).

Lemma get_matchable_inv id d o d' :
  get_order_matchable_amount id d = (Ok o, d') → d' = d ∧ default 0 o = matchable d id.
Proof. destruct (get_matchable_eq id d) as (o' & -> & ?). by intros [= <- <-]. Qed.

Lemma assign_inv id p d u d' :
  assign_order_to_matching_pool id p d = (Ok u, d') → d' = assign_pool p id d.
Proof.
  unfold assign_order_to_matching_pool. intros (b & d1 & H1 & H)%bind_Ok_inv.
  rewrite matching_pool_exists_eq in H1. injection H1 as <- <-. inv_ok.
  unfold assign_pool, remove_order_from_matching_pool in *. case_bool_decide; by inv_ok.
Qed.

(** Publishing changes neither the tables nor the engine. *)
Definition quiet {A} (m : M AccountWorld StateApplicatorError A) : Prop :=
  ∀ w r w', m w = (Ok r, w') → adb w' = adb w ∧ engine w' = engine w.
Lemma quiet_publish m : quiet (publish m).
Proof. by intros w r w' [= <- <-]. Qed.
Lemma quiet_ret {A} (a : A) : quiet (mret a).
Proof. by intros w r w' [= <- <-]. Qed.
Lemma quiet_if (c : bool) (m1 m2 : M AccountWorld StateApplicatorError unit) :
  quiet m1 → quiet m2 → quiet (if c then m1 else m2).
Proof. by destruct c. Qed.
Lemma quiet_for_each {X} (xs : list X) (body : X → M AccountWorld StateApplicatorError unit) :
  (∀ x, quiet (body x)) → quiet (for_each xs body).
Proof.
  intros Hb. induction xs as [|x xs IH]; simpl; [apply quiet_ret|]. intros w r w' H. app_inv.
  destruct (Hb _ _ _ _ Hm) as [<- <-]. by eapply IH.
Qed.

Lemma add_order_effect a o auth pool w r w' :
  add_order_to_account permit_hash a o auth pool w = (Ok r, w') →
  is_Some (headers (adb w) !! a) ∧ pool_exists (adb w) pool ∧
  same_core (store_order a o auth pool (adb w)) (adb w') ∧
  engine w' = (let m := capacity (adb w) a o in
               if 0 <? m then upsert_order (engine w) a o m pool else engine w).
Proof.
  intros H. unfold add_order_to_account in H. app_inv. set (D := store_order a o auth pool (adb w)).
  unfold add_order, write_order_auth, set_owner_to_account, get_account_by_owner in *. app_inv.
  apply assign_inv in Hd2 as ->. fold (put_order a o (adb w)) in *.
  change (assign_pool pool (order_id o) _) with D in *.
  assert (engine w6 = engine w ∧ ∃ f, adb w6 = set_intent_index f D) as [E6 [f Ef]].
  { destruct auth; unfold set_intent_to_order_and_account in *; app_inv; (split; [done|]);
      [by eexists|exists (λ x, x)|exists (λ x, x)]; by destruct D. }
  apply get_matchable_inv in Hd as [-> Em]. rewrite Ef in *.
  assert (default 0 a9 = capacity (adb w) a o) as Ecap.
  { rewrite Em. transitivity (matchable D (order_id o)); [done|]. unfold D. by rewrite matchable_store, decide_True. }
  rewrite Ecap in *.
  apply quiet_if in Hm; [|apply quiet_publish|apply quiet_ret]. destruct Hm as [Ed0 Ee0]. simpl in Ed0, Ee0.
  apply quiet_publish in Hm1 as [-> ->]. destruct (0 <? capacity (adb w) a o); app_inv; simpl;
    rewrite Ed0, Ee0, E6; done.
Qed.

Lemma add_order_world_ok a o auth pool w r w' :
  world_ok w → is_u128 (order_amount_in o) → order_index (adb w) !! order_id o = None →
  add_order_to_account permit_hash a o auth pool w = (Ok r, w') → world_ok w'.
Proof.
  intros [Hok Hs] Hamt Hnew (Ha & Hp & Hcore & Ee)%add_order_effect.
  split; [eapply account_ok_core; [exact Hcore|apply store_order_ok; auto]|].
  eapply engine_sound_core; [done|]. rewrite Ee. unfold engine_sound. cbv zeta.
  assert (∀ id, place (adb w) id = None ∨ id ≠ order_id o) as Hplace.
  { intros id. destruct (decide (id = order_id o)) as [->|]; [left|by right].
    unfold place, order_at. by rewrite Hnew. }
  assert (within (engine w) (place (store_order a o auth pool (adb w)))
    (λ id, if decide (id = order_id o) then None else Some (matchable (adb w) id))) as Hw.
  { eapply within_mono; [|exact Hs]. intros id p Hid.
    destruct (Hplace id) as [?|Hne]; [congruence|]. rewrite place_store, !decide_False by auto.
    split; [done|]. intros x' [= <-]. eexists. split; [done|lia]. }
  destruct (0 <? _).
  - eapply within_upsert; [exact Hw|by rewrite place_store, decide_True by auto| |].
    + intros y [= <-]. by rewrite matchable_store, decide_True.
    + intros j Hj. by rewrite matchable_store, !decide_False.
  - eapply within_mono; [|exact Hs]. intros id p Hid.
    destruct (Hplace id) as [?|Hne]; [congruence|]. rewrite place_store, matchable_store, !decide_False by auto.
    split; [done|]. intros x' [= <-]. eexists. split; [done|lia].
Qed.

Lemma same_core_trans d1 d2 d3 : same_core d1 d2 → same_core d2 d3 → same_core d1 d3.
Proof. unfold same_core. intuition congruence. Qed.

Lemma delete_all_proofs_core l d u d' : delete_all_validity_proofs l d = (Ok u, d') → same_core d d'.
Proof. intros H. cbn in H. injection H as <- <-. done. Qed.

Lemma remove_order_effect a id w r w' :
  remove_order_from_account permit_hash a id w = (Ok r, w') →
  ∃ o, order_at (adb w) id = Some o ∧ is_Some (headers (adb w) !! a) ∧
    same_core (drop_order a id (adb w)) (adb w') ∧
    engine w' = cancel_order (engine w) o (pool_at (adb w) id).
Proof.
  intros H. unfold remove_order_from_account in H.
  apply bind_Ok_inv in H as ([[o pool] b] & w1 & H1 & H). apply with_tx_Ok_inv in H1. app_inv.
  unfold get_matching_pool_for_order, get_executor_address, remove_intent_mapping,
    get_account_orders, fetch_orders_for_account in *. app_inv. rewrite set_adb_id in *.
  match goal with H : remove_order_with_auth _ _ _ = _ |- _ =>
    rewrite remove_order_with_auth_eq in H; inv_pair H end.
  match goal with H : delete_all_validity_proofs _ _ = _ |- _ => apply delete_all_proofs_core in H as Hdel end.
  assert (same_core d0 (adb w13) ∧ engine w13 = engine w) as [Hc13 He13].
  { case_bool_decide; unfold remove_owner_mapping in *; app_inv; done. }
  apply quiet_if in Hm; [|apply quiet_publish|apply quiet_ret]. destruct Hm as [Ed0 Ee0].
  match goal with H : publish_admin_order_update _ _ _ _ _ _ = _ |- _ =>
    apply quiet_publish in H as [Ed1 Ee1] end. simpl in Ed1, Ee1.
  exists o. split_and!; [done|done| |by rewrite Ee1, Ee0, He13].
  rewrite Ed1, Ed0. eapply same_core_trans; [|exact Hc13]. eapply same_core_trans; [|exact Hdel]. done.
Qed.

Lemma remove_order_world_ok a id w r w' :
  world_ok w → (∀ a', order_index (adb w) !! id = Some a' → a' = a) →
  remove_order_from_account permit_hash a id w = (Ok r, w') → world_ok w'.
Proof.
  intros [Hok Hs] Hg (o & Ho & Ha & Hcore & Ee)%remove_order_effect.
  destruct (order_at_Some _ _ _ Hok Ho) as (a' & Hi & Hdo & Hid). assert (a' = a) as -> by auto.
  split; [eapply account_ok_core; [exact Hcore|]; apply drop_order_ok; auto|].
  eapply engine_sound_core; [exact Hcore|]. rewrite Ee. unfold engine_sound.
  eapply (within_cancel _ (place (adb w)) _ (λ id, Some (matchable (adb w) id))); [exact Hs| |].
  - intros q. rewrite Hid. unfold place. rewrite Ho. by intros [= <-].
  - intros j Hj. rewrite Hid in Hj. by rewrite place_drop, matchable_drop, decide_False.
Qed.

Lemma update_order_effect o w r w' :
  order_amount_in o ≠ 0 → app_update_order permit_hash o w = (Ok r, w') →
  ∃ a old, order_index (adb w) !! order_id o = Some a ∧ order_at (adb w) (order_id o) = Some old ∧
    adb w' = put_order a o (adb w) ∧
    engine w' = engine_sync a o (capacity (adb w) a o) (pool_at (adb w) (order_id o)) (engine w).
Proof.
  intros Hnz H. unfold app_update_order in H. app_inv. unfold get_account_id_for_order in *. app_inv.
  rewrite (proj2 (Z.eqb_neq _ _) Hnz) in H. rewrite !set_adb_id in *.
  apply bind_Ok_inv in H as ([pool m] & w1 & H1 & H). apply with_tx_Ok_inv in H1.
  unfold update_order, get_matching_pool_for_order in *. app_inv.
  match goal with E : order_index (adb w) !! order_id o = Some _ |- _ => rename E into Hidx end. rewrite (update_order_put z o (adb w) Hidx) in *.
  match goal with H : get_order_matchable_amount _ _ = _ |- _ => apply get_matchable_inv in H as [-> Em] end.
  rewrite matchable_put, decide_True in Em by done. rewrite Em in *. rewrite sync_order_eq in *.
  match goal with H : (Ok tt, _) = (Ok _, _) |- _ => inv_pair H end.
  match goal with H : publish_admin_order_update _ _ _ _ _ _ = _ |- _ =>
    apply quiet_publish in H as [Ed1 Ee1] end.
  match goal with H : (if _ then publish_fill _ _ _ _ else _) _ = _ |- _ =>
    apply quiet_if in H as [Ed2 Ee2]; [|apply quiet_publish|apply quiet_ret] end.
  exists z, o0. split_and!; [done|done|by rewrite Ed2, Ed1|by rewrite Ee2, Ee1].
Qed.

Lemma put_order_ok a o d :
  account_ok d → is_u128 (order_amount_in o) → order_index d !! order_id o = Some a →
  account_ok (put_order a o d).
Proof.
  intros [H1 H2 H3 H4 H5 H6 H7 H8 H9] Hamt Hi. unfold put_order. split; simpl; rewrite ?(insert_id (order_index d)) by done; try done.
  - intros a' id'. destruct (decide ((a', id') = (a, order_id o))) as [[= -> ->]|Hne].
    + rewrite lookup_insert_eq. by split; [|by eexists].
    + rewrite lookup_insert_ne by congruence. apply H1.
  - intros a' id' o' [[[= <- <-] <-]|[_ Ho]]%lookup_insert_Some; [done|by eapply H2].
  - by apply map_Forall_insert_2.
Qed.

Lemma update_order_world_ok o w r w' :
  world_ok w → is_u128 (order_amount_in o) →
  (∀ old, order_at (adb w) (order_id o) = Some old → order_pair old = order_pair o) →
  app_update_order permit_hash o w = (Ok r, w') → world_ok w'.
Proof.
  intros [Hok Hs] Hamt Hg H. destruct (decide (order_amount_in o = 0)) as [Hz|Hnz].
  - unfold app_update_order in H. app_inv. unfold get_account_id_for_order in *. app_inv.
    rewrite (proj2 (Z.eqb_eq _ _) Hz) in H. rewrite !set_adb_id in *.
    apply bind_Ok_inv in H as (u & w1 & H1 & H).
    apply quiet_if in H1 as [Ed Ee]; [|apply quiet_publish|apply quiet_ret].
    eapply remove_order_world_ok; [|intros a' Ha'|exact H].
    + unfold world_ok. by rewrite Ed, Ee.
    + rewrite Ed in Ha'. congruence.
  - apply update_order_effect in H as (a & old & Hi & Hold & Ed & Ee); [|done].
    split; rewrite Ed; [by apply put_order_ok|]. unfold engine_sound. rewrite Ee.
    assert (∀ id, place (put_order a o (adb w)) id = place (adb w) id) as Epl.
    { intros id. unfold place. rewrite order_at_put by auto. case_decide; [|done]. subst.
      rewrite Hold. simpl. unfold pool_at. simpl. by rewrite (Hg old Hold). }
    eapply (within_sync _ _ (λ id, Some (matchable (adb w) id))).
    + eapply within_mono; [|exact Hs]. intros id p Hp. rewrite Epl. split; [done|].
      intros x' [= <-]. eexists. split; [done|lia].
    + rewrite Epl. unfold place. rewrite Hold. simpl. by rewrite (Hg old Hold).
    + intros y [= <-]. by rewrite matchable_put, decide_True.
    + intros j Hj. by rewrite matchable_put, decide_False.
Qed.

(** *** Balances *)

Lemma elem_of_order_ids d a id : id ∈ order_ids d a ↔ is_Some (db_orders d !! (a, id)).
Proof.
  unfold order_ids. rewrite merge_sort_Permutation, elem_of_elements, elem_of_map. split.
  - intros ([a' id'] & -> & [Ha Hd]%elem_of_filter). simpl in *. subst. by apply elem_of_dom.
  - intros Hs. exists (a, id). split; [done|]. apply elem_of_filter. split; [done|]. by apply elem_of_dom.
Qed.

Lemma elem_of_fetched d a o l d' :
  account_ok d → fetch_orders_for_account a d = (Ok l, d') →
  o ∈ l ↔ db_orders d !! (a, order_id o) = Some o.
Proof.
  intros Hok [= <- <-]. rewrite list_elem_of_omap. split.
  - intros (id & _ & Ho). by rewrite (ao_id _ Hok _ _ _ Ho).
  - intros Ho. exists (order_id o). split; [|done]. apply elem_of_order_ids. by eexists.
Qed.

Lemma elem_of_with_input_token d a m l d' id :
  account_ok d → get_orders_with_input_token a m d = (Ok l, d') →
  id ∈ l ↔ ∃ o, db_orders d !! (a, id) = Some o ∧ order_input_token o = m.
Proof.
  intros Hok. unfold get_orders_with_input_token. intros (os & d1 & Hos & [= <- <-])%bind_Ok_inv.
  rewrite list_elem_of_fmap. setoid_rewrite list_elem_of_filter.
  setoid_rewrite (elem_of_fetched _ _ _ _ _ Hok Hos). split.
  - intros (o & -> & ? & ?). by exists o.
  - intros (o & Ho & ?). exists o. by rewrite (ao_id _ Hok _ _ _ Ho).
Qed.

(** Bring the listed orders of an account in line. *)
Definition sync_all (a : AccountId) (d : AccountDb) (ids : list OrderId) (e : MatchingEngine)
    : MatchingEngine :=
  foldl (λ e id, match order_at d id with
                 | Some o => engine_sync a o (matchable d id) (pool_at d id) e
                 | None => e
                 end) e ids.

Lemma sync_loop_eq a ids w :
  for_each ids (λ id,
    o ← tx (get_order id);
    match o with
    | None => mret tt
    | Some o =>
        pool ← tx (get_matching_pool_for_order id);
        matchable ← tx (get_order_matchable_amount id);
        sync_order a o (default 0 matchable) pool
    end) w = (Ok tt, set_engine (sync_all a (adb w) ids) w).
Proof.
  revert w. induction ids as [|id ids IH]; intros w; [by destruct w|].
  cbn [for_each]. unfold mbind at 1, M_bind at 1, mbind at 1, M_bind at 1, tx at 1, zoom at 1.
  rewrite get_order_eq, set_adb_id. destruct (order_at (adb w) id) as [o|] eqn:Eo.
  - unfold mbind at 1, M_bind at 1, tx at 1, zoom at 1, get_matching_pool_for_order at 1, gets at 1.
    rewrite set_adb_id. unfold mbind at 1, M_bind at 1, tx at 1, zoom at 1.
    destruct (get_matchable_eq id (adb w)) as (m & -> & ->). rewrite set_adb_id, sync_order_eq, IH.
    unfold set_engine. simpl. by rewrite Eo.
  - cbn [mret M_ret]. unfold mret, M_ret. rewrite IH. unfold set_engine. simpl. by rewrite Eo.
Qed.

Lemma sync_all_within a d ids e :
  account_ok d →
  within e (place d) (λ id, if decide (id ∈ ids) then None else Some (matchable d id)) →
  engine_sound d (sync_all a d ids e).
Proof.
  intros Hok. revert e. induction ids as [|id ids IH]; intros e Hw; [exact Hw|].
  cbn [sync_all foldl]. apply IH. destruct (order_at d id) as [o|] eqn:Eo.
  - destruct (order_at_Some _ _ _ Hok Eo) as (a' & _ & _ & Hid). subst id.
    eapply within_sync; [exact Hw|unfold place; by rewrite Eo| |].
    + intros y. case_decide; [done|]. by intros [= <-].
    + intros j Hj. do 2 case_decide; rewrite ?elem_of_cons in *; tauto.
  - eapply within_mono; [|exact Hw]. intros j p Hp. split; [done|]. intros x'.
    assert (j ≠ id) by (intros ->; unfold place in Hp; by rewrite Eo in Hp).
    do 2 case_decide; rewrite ?elem_of_cons in *; try tauto; [done|].
    intros [= <-]. eexists. split; [done|lia].
Qed.

Definition put_balance (a : AccountId) (b : Balance) : AccountDb → AccountDb :=
  set_db_balances <[(a, balance_mint b, location b) := b]>.

Lemma update_balance_effect a b w r w' :
  update_account_balance a b w = (Ok r, w') →
  is_Some (headers (adb w) !! a) ∧ adb w' = put_balance a b (adb w) ∧
  ∃ ids, get_orders_with_input_token a (balance_mint b) (put_balance a b (adb w)) =
           (Ok ids, put_balance a b (adb w)) ∧
    engine w' = sync_all a (put_balance a b (adb w)) ids (engine w).
Proof.
  intros H. unfold update_account_balance in H. app_inv. unfold update_balance in *. app_inv.
  fold (put_balance a b (adb w)) in *. unfold update_matchable_amounts in *. app_inv.
  match goal with H : publish_admin_balance_update _ _ _ = _ |- _ => apply quiet_publish in H as [Ed Ee] end.
  match goal with H : for_each _ _ _ = _ |- _ => rewrite sync_loop_eq in H; inv_pair H end.
  match goal with H : get_orders_with_input_token _ _ ?d = (Ok ?l, ?d1) |- _ =>
    assert (d1 = d) as -> by (unfold get_orders_with_input_token, fetch_orders_for_account in H; app_inv; done);
    rename l into ids, H into Hids end.
  split_and!; [done|by rewrite Ed|]. exists ids. split; [done|]. by rewrite Ee.
Qed.

Lemma capacity_balance a b d a' o :
  (a' ≠ a ∨ order_input_token o ≠ balance_mint b) →
  capacity (put_balance a b d) a' o = capacity d a' o.
Proof. intros Hne. unfold capacity. simpl. rewrite lookup_insert_ne; [done|]. intros [= ? ? _]. intuition. Qed.

Lemma balance_put_ok a b d :
  account_ok d → is_u128 (balance_amount b) → account_ok (put_balance a b d).
Proof.
  intros [H1 H2 H3 H4 H5 H6 H7 H8 H9] Hamt. split; simpl; try done.
  - intros a' m l b' [[[= <- <- <-] <-]|[_ ?]]%lookup_insert_Some; [done|by eapply H3].
  - by apply map_Forall_insert_2.
Qed.

Lemma update_balance_ok a b w r w' :
  world_ok w → is_u128 (balance_amount b) → update_account_balance a b w = (Ok r, w') → world_ok w'.
Proof.
  intros [Hok Hs] Hamt (Ha & Ed & ids & Hids & Ee)%update_balance_effect.
  set (d := put_balance a b (adb w)) in *. assert (account_ok d) as Hokd by by apply balance_put_ok.
  split; rewrite Ed; [done|]. rewrite Ee. apply sync_all_within; [done|].
  eapply within_mono; [|exact Hs]. intros id p Hp. split; [done|]. intros x'.
  case_decide as Hin; [done|]. intros [= <-]. eexists. split; [done|].
  rewrite (elem_of_with_input_token _ _ _ _ _ _ Hokd Hids) in Hin.
  unfold matchable. simpl. destruct (order_index (adb w) !! id) as [a'|]; [|done].
  destruct (db_orders (adb w) !! (a', id)) as [o|] eqn:Eo; [|done].
  unfold d. rewrite capacity_balance; [done|].
  destruct (decide (a' = a)) as [->|]; [|by left]. right. intros E. apply Hin. by exists o.
Qed.

(** *** Accounts, keychains, default pools, proofs, pools *)

(** A change of the headers alone that keeps every account. *)
Lemma header_put_ok a h w w' :
  world_ok w → header_id h = a → adb w' = set_headers <[a := h]> (adb w) → engine w' = engine w →
  world_ok w'.
Proof.
  intros [[H1 H2 H3 H4 H5 H6 H7 H8 H9] Hs] Hh Ed Ee. split; [|by rewrite Ed, Ee].
  rewrite Ed. split; try done; simpl.
  - intros a' h' [[<- <-]|[_ ?]]%lookup_insert_Some; [done|by apply H4].
  - intros id a' ?. rewrite lookup_insert_is_Some. destruct (decide (a = a')); [by left|right].
    split; [done|by eapply H5].
Qed.

Lemma create_account_ok a w r w' : world_ok w → create_account a w = (Ok r, w') → world_ok w'.
Proof.
  intros Hok H. unfold create_account, new_account in H. app_inv. unfold new_account in *. app_inv.
  eapply header_put_ok; [exact Hok| |reflexivity|reflexivity]; reflexivity.
Qed.

Lemma update_keychain_ok a k w r w' :
  world_ok w → update_account_keychain a k w = (Ok r, w') → world_ok w'.
Proof.
  intros Hok H. unfold update_account_keychain in H. app_inv. unfold update_keychain in *. app_inv.
  eapply header_put_ok; [exact Hok| |reflexivity|reflexivity]; reflexivity.
Qed.

Lemma world_ok_core w w' :
  world_ok w → same_core (adb w) (adb w') → engine w' = engine w → world_ok w'.
Proof. intros [? ?] ? Ee. split; [by eapply account_ok_core|rewrite Ee; by eapply engine_sound_core]. Qed.

Lemma set_default_pool_ok a p w r w' :
  world_ok w → app_set_account_default_matching_pool a p w = (Ok r, w') → world_ok w'.
Proof.
  intros Hok H. unfold app_set_account_default_matching_pool in H. app_inv.
  eapply world_ok_core; [exact Hok| |done].
  unfold set_account_default_matching_pool in *. destruct p; app_inv; done.
Qed.

Lemma add_validity_proof_ok l b w r w' :
  world_ok w → add_validity_proof l b w = (Ok r, w') → world_ok w'.
Proof.
  intros Hok H. unfold add_validity_proof in H. apply bind_Ok_inv in H as (u & w1 & H1 & H).
  apply with_tx_Ok_inv in H1. apply bind_Ok_inv in H1 as (known & w2 & H2 & H1). app_inv.
  assert (w2 = w) as -> by (destruct l; app_inv; by rewrite ?set_adb_id).
  eapply world_ok_core; [exact Hok| |destruct known; by app_inv].
  destruct known; app_inv; [|done].
  unfold write_validity_proof_bundle, write_validity_proof, write_validity_witness in *. app_inv. done.
Qed.

Lemma add_merkle_proof_ok t p w r w' :
  world_ok w → add_merkle_proof t p w = (Ok r, w') → world_ok w'.
Proof.
  intros Hok H. unfold add_merkle_proof in H. app_inv.
  eapply world_ok_core; [exact Hok| |done]. unfold set_merkle_proof in *. app_inv. done.
Qed.

Lemma create_pool_ok p w r w' :
  world_ok w → app_create_matching_pool p w = (Ok r, w') → world_ok w'.
Proof.
  intros [[H1 H2 H3 H4 H5 H6 H7 H8 H9] Hs] H. unfold app_create_matching_pool in H. app_inv.
  unfold create_matching_pool in *. app_inv. rewrite matching_pool_exists_eq in *.
  match goal with H : (Ok _, _) = (Ok _, _) |- _ => inv_pair H end.
  split; [|done]. split; try done; simpl. intros id q Hq. destruct (H7 _ _ Hq) as (? & ? & ?).
  split_and!; [set_solver|done|done].
Qed.

Lemma destroy_pool_ok p w r w' :
  world_ok w → (∀ id, pool_assignment (adb w) !! id ≠ Some p) →
  app_destroy_matching_pool p w = (Ok r, w') → world_ok w'.
Proof.
  intros [Hok Hs] Hnone H. unfold app_destroy_matching_pool in H. app_inv.
  unfold destroy_matching_pool in *. app_inv.
  assert (filter (λ kv, kv.2 ≠ p) (pool_assignment (adb w)) = pool_assignment (adb w)) as Ef.
  { apply map_filter_id. intros id q Hq Heq. simpl in Heq. subst. by apply (Hnone id). }
  split; [|unfold engine_sound, place, pool_at, set_pools; cbn -[filter]; rewrite Ef; exact Hs].
  destruct Hok as [H1 H2 H3 H4 H5 H6 H7 H8 H9].
  split; try done; cbn -[filter]; rewrite Ef. intros id q Hq. destruct (H7 _ _ Hq) as (? & ? & ?).
  split_and!; [|done|done]. apply elem_of_difference. split; [done|].
  rewrite elem_of_singleton. intros ->. by apply (Hnone id).
Qed.

(** *** Pool assignment *)

(** An order that no pool book lists can be given another pool. *)
Lemma within_relocate e w w' b i pair p p' :
  within e w b → w i = Some (pair, p) → pool_order e pair p i = None → w' i = Some (pair, p') →
  (∀ j, j ≠ i → w' j = w j) → within e w' b.
Proof.
  intros (Hok & Hp & Ha) Hi Hnone Hi' Ho. split_and!; [done| |].
  - intros pair' pool' id bo Hbo. destruct (Hp _ _ _ _ Hbo) as [Hw Hb]. split; [|done].
    destruct (decide (id = i)) as [->|]; [congruence|by rewrite Ho].
  - intros pair' id bo Hbo. destruct (Ha _ _ _ Hbo) as [[q Hw] Hb]. split; [|done].
    destruct (decide (id = i)) as [->|]; [|by exists q; rewrite Ho].
    exists p'. congruence.
Qed.

Lemma contains_order_eq e o p :
  engine_contains_order e o p = bool_decide (is_Some (pool_order e (order_pair o) p (order_id o))).
Proof.
  unfold engine_contains_order, pool_order, contains_order.
  by destruct (book_map e !! (order_pair o, p)).
Qed.

Lemma assign_pool_effect id p w r w' :
  app_assign_order_to_matching_pool id p w = (Ok r, w') →
  ∃ o a, order_at (adb w) id = Some o ∧ order_index (adb w) !! id = Some a ∧ pool_exists (adb w) p ∧
    adb w' = assign_pool p id (adb w) ∧
    engine w' = engine_update_order
      (if engine_contains_order (engine w) o (pool_at (adb w) id)
       then cancel_order (engine w) o (pool_at (adb w) id) else engine w)
      a o (matchable (adb w) id) p.
Proof.
  intros H. unfold app_assign_order_to_matching_pool in H. app_inv.
  unfold update_matching_engine_after_order_assignment, get_matching_pool_for_order,
    get_account_id_for_order in *. app_inv.
  match goal with H : get_order_matchable_amount _ _ = _ |- _ => apply get_matchable_inv in H as [-> Em] end.
  match goal with H : assign_order_to_matching_pool _ _ _ = _ |- _ => apply assign_inv in H as -> end.
  rewrite Em in *. by eexists _, _.
Qed.

Lemma assign_pool_ok p id d :
  account_ok d → pool_exists d p → is_Some (order_index d !! id) → account_ok (assign_pool p id d).
Proof.
  intros [H1 H2 H3 H4 H5 H6 H7 H8 H9] Hp Hi. unfold assign_pool.
  case_bool_decide as Hg; split; try done; simpl.
  - intros id' q [_ ?]%lookup_delete_Some. by apply H7.
  - intros id' q [[<- <-]|[_ ?]]%lookup_insert_Some; [|by apply H7].
    destruct Hp as [?|Hp]; [done|]. by split_and!.
Qed.

Lemma assign_ok id p w r w' :
  world_ok w → app_assign_order_to_matching_pool id p w = (Ok r, w') → world_ok w'.
Proof.
  intros [Hok Hs] (o & a & Ho & Hi & Hp & Ed & Ee)%assign_pool_effect.
  destruct (order_at_Some _ _ _ Hok Ho) as (a' & _ & _ & <-).
  set (d' := assign_pool p (order_id o) (adb w)) in *. unfold world_ok, engine_sound. rewrite Ed, Ee.
  destruct (assign_other p (order_id o) (adb w)) as (Ei & Eo & Eb).
  assert (∀ i, place d' i = if decide (i = order_id o) then Some (order_pair o, p) else place (adb w) i) as Epl.
  { intros i. unfold place, order_at, d'. rewrite pool_at_assign, Ei, Eo. case_decide; [|done]. subst.
    fold (order_at (adb w) (order_id o)). by rewrite Ho. }
  assert (∀ i, matchable d' i = matchable (adb w) i) as Em.
  { intros i. unfold matchable, capacity, d'. by rewrite Ei, Eo, Eb. }
  split; [apply assign_pool_ok; [done|done|by eexists]|].
  assert (within (if engine_contains_order (engine w) o (pool_at (adb w) (order_id o))
      then cancel_order (engine w) o (pool_at (adb w) (order_id o)) else engine w)
    (place d') (λ i, Some (matchable d' i))) as Hw.
  { rewrite contains_order_eq. case_bool_decide as Hc.
    - eapply within_cancel; [exact Hs|intros q; unfold place; rewrite Ho; by intros [= <-]|].
      intros j Hj. by rewrite Epl, Em, decide_False.
    - eapply within_mono; [|eapply within_relocate; [exact Hs|unfold place; by rewrite Ho
        |by apply eq_None_not_Some|by rewrite Epl, decide_True|intros j Hj; by rewrite Epl, decide_False]].
      intros i q Hq. split; [done|]. intros x [= <-]. eexists. split; [done|]. by rewrite Em. }
  eapply within_engine_update; [exact Hw|rewrite Epl, decide_True by done; congruence
    |by rewrite Epl, decide_True| |done].
  intros y [= <-]. by rewrite Em.
Qed.

(** *** Matching *)

Lemma within_reserve e w b pair pool i a :
  within e w b → 0 ≤ a → (∀ y, b i = Some y → 0 ≤ y) → within (reserve_in e pair pool i a) w b.
Proof.
  intros (Hok & Hp & Ha) Hpos Hb. destruct (reserve_in_local e pair pool i a Hok) as [Hok' (L1 & L2 & L3 & L4)].
  split_and!; [done| |].
  - intros pair' pool' id bo. destruct (decide ((pair', pool', id) = (pair, pool, i))) as [[= -> -> ->]|Hne].
    + rewrite L1, fmap_Some. intros (bo' & Hbo & ->). destruct (Hp _ _ _ _ Hbo) as [Hw Hle].
      split; [done|]. intros y Hy. specialize (Hle _ Hy). specialize (Hb _ Hy). simpl. lia.
    + rewrite L3 by done. apply Hp.
  - intros pair' id bo. destruct (decide ((pair', id) = (pair, i))) as [[= -> ->]|Hne].
    + rewrite L2, fmap_Some. intros (bo' & Hbo & ->). destruct (Ha _ _ _ Hbo) as [Hw Hle].
      split; [done|]. intros y Hy. specialize (Hle _ Hy). specialize (Hb _ Hy). simpl. lia.
    + rewrite L4 by done. apply Ha.
Qed.

Lemma find_match_world_ok w exclude ring pair range pool ts ext r e' :
  world_ok w → find_match_helper (engine w) exclude ring pair range pool ts ext = Some (r, e') →
  world_ok (set_engine (λ _, e') w).
Proof.
  intros [Hok Hs] Hf. split; [done|]. simpl.
  destruct (find_match_helper_ok (engine w) exclude ring pair range pool ts ext (proj1 Hs))
    as (r' & e'' & Hf' & Hspec). rewrite Hf' in Hf. simplify_eq.
  destruct r as [m|]; [|by subst]. destruct Hspec as (p & o & a & _ & _ & Hel & -> & _ & ->).
  destruct ext; [done|]. apply within_reserve; [done| |intros y [= <-]; by apply matchable_nonneg].
  assert (∀ x, 0 ≤ scalar_to_u128 x) as Hn by (intros x; apply scalar_to_u128_bound).
  unfold eligible, ranges_intersect in Hel. apply andb_prop in Hel as [Hel _].
  apply andb_prop in Hel as [_ Hel]. apply negb_true_iff, orb_false_iff in Hel as [_ Hel].
  apply negb_false_iff, Z.leb_le in Hel. simpl in *.
  pose proof (Hn (floor_mul_int (price ts) range.1)). pose proof (Hn (floor_mul_int (price ts) range.2)). lia.
Qed.
End Handlers.
