(* ===== verification/AccountProperties.v ===== *)
(** * Correctness of the account applicator

    The refresh of an account, the reachable worlds of the account applicator and the
    matching engine, and the properties of the handlers. *)
From S2P Require Import Prelude Scalar FixedPoint DarkpoolTypes StateWrapper AccountTypes Book.
From S2P Require Import Engine.
From S2P Require Import TaskStorage TaskApplicator AccountStorage AccountApplicator.
From S2P Require Import AccountInvariant.
Local Open Scope Z_scope.

(** ** The tables a refresh writes *)

Definition put_balances (a : AccountId) (bs : list Balance) (d : AccountDb) : AccountDb :=
  foldl (λ d b, put_balance a b d) d bs.
Definition drop_all (a : AccountId) (os : list Order) (d : AccountDb) : AccountDb :=
  foldl (λ d o, drop_order a (order_id o) d) d os.
Definition store_all (a : AccountId) (us : list OrderRefreshData) (d : AccountDb) : AccountDb :=
  foldl (λ d u, store_order a (refresh_order u) (refresh_auth u) (refresh_pool u) d) d us.
Abbreviation refresh_id u := (order_id (refresh_order u)).

Lemma put_balances_ok a bs d :
  account_ok d → Forall (λ b, is_u128 (balance_amount b)) bs → account_ok (put_balances a bs d).
Proof.
  revert d. induction bs as [|b bs IH]; intros d Hok Hbs; [done|]. inversion Hbs; subst.
  apply IH; [by apply balance_put_ok|done].
Qed.

(** Writing balances leaves the orders and the other accounts alone. *)
Lemma put_balances_other a bs d :
  order_index (put_balances a bs d) = order_index d ∧ db_orders (put_balances a bs d) = db_orders d ∧
  pool_assignment (put_balances a bs d) = pool_assignment d ∧
  pools (put_balances a bs d) = pools d ∧
  headers (put_balances a bs d) = headers d ∧
  ∀ a' o, a' ≠ a → capacity (put_balances a bs d) a' o = capacity d a' o.
Proof.
  revert d. induction bs as [|b bs IH]; intros d; [done|].
  destruct (IH (put_balance a b d)) as (E1 & E2 & E3 & E4 & E5 & E6). cbn [put_balances foldl].
  split_and!; [exact E1|exact E2|exact E3|exact E4|exact E5|].
  intros a' o Hne. etransitivity; [by apply E6|]. apply capacity_balance. by left.
Qed.

Lemma drop_all_ok a os d :
  account_ok d →
  Forall (λ o, order_index d !! order_id o = None ∨ order_index d !! order_id o = Some a) os →
  account_ok (drop_all a os d).
Proof.
  revert d. induction os as [|o os IH]; intros d Hok Hf; [done|]. inversion Hf as [|? ? Ho Hf']; subst.
  apply (IH (drop_order a (order_id o) d)); [by apply drop_order_ok|].
  eapply Forall_impl; [exact Hf'|]. intros o' Ho'. simpl.
  destruct (decide (order_id o' = order_id o)) as [->|]; [left; by rewrite lookup_delete_eq|].
  by rewrite lookup_delete_ne.
Qed.

Lemma drop_all_other a os d :
  headers (drop_all a os d) = headers d ∧ db_balances (drop_all a os d) = db_balances d ∧
  pools (drop_all a os d) = pools d ∧
  ∀ id, (id ∈ order_id <$> os → order_index (drop_all a os d) !! id = None) ∧
    (id ∉ order_id <$> os → order_index (drop_all a os d) !! id = order_index d !! id ∧
       pool_assignment (drop_all a os d) !! id = pool_assignment d !! id ∧
       (∀ a', db_orders (drop_all a os d) !! (a', id) = db_orders d !! (a', id))).
Proof.
  revert d. induction os as [|o os IH]; intros d; [split_and!; [done..|]; intros id; split; [set_solver|done]|].
  destruct (IH (drop_order a (order_id o) d)) as (E1 & E2 & E3 & E4).
  change (drop_all a (o :: os) d) with (drop_all a os (drop_order a (order_id o) d)).
  split_and!; [exact E1|exact E2|exact E3|]. intros id. destruct (E4 id) as [F1 F2]. split.
  - destruct (decide (id ∈ order_id <$> os)) as [Hin|Hni]; [intros _; by apply F1|].
    intros Hin. apply elem_of_cons in Hin as [->|]; [|done]. destruct (F2 Hni) as (-> & _).
    simpl. by rewrite lookup_delete_eq.
  - rewrite fmap_cons, not_elem_of_cons. intros [Hne Hni]. destruct (F2 Hni) as (G1 & G2 & G3).
    rewrite G1, G2. simpl. rewrite !lookup_delete_ne by done. split_and!; [done|done|].
    intros a'. rewrite G3. simpl. rewrite lookup_delete_ne by congruence. done.
Qed.

Lemma store_all_other a us d :
  headers (store_all a us d) = headers d ∧ pools (store_all a us d) = pools d ∧
  db_balances (store_all a us d) = db_balances d ∧
  ∀ id, id ∉ (λ u, refresh_id u) <$> us →
    order_index (store_all a us d) !! id = order_index d !! id ∧
    pool_assignment (store_all a us d) !! id = pool_assignment d !! id ∧
    (∀ a', db_orders (store_all a us d) !! (a', id) = db_orders d !! (a', id)).
Proof.
  revert d. induction us as [|u us IH]; intros d; [done|].
  destruct (IH (store_order a (refresh_order u) (refresh_auth u) (refresh_pool u) d))
    as (E1 & E2 & E3 & E4).
  change (store_all a (u :: us) d) with
    (store_all a us (store_order a (refresh_order u) (refresh_auth u) (refresh_pool u) d)).
  assert (∀ p i d, headers (assign_pool p i d) = headers d ∧ pools (assign_pool p i d) = pools d ∧
    ∀ j, j ≠ i → pool_assignment (assign_pool p i d) !! j = pool_assignment d !! j) as Hap.
  { intros p i d'. unfold assign_pool. case_bool_decide; simpl; split_and!; [done..| |done|done|];
      intros j Hj; [by rewrite lookup_delete_ne|by rewrite lookup_insert_ne]. }
  unfold store_order in *. set (d1 := set_order_auths _ (put_order a (refresh_order u) d)) in *.
  destruct (Hap (refresh_pool u) (refresh_id u) d1) as (A1 & A2 & A3).
  destruct (assign_other (refresh_pool u) (refresh_id u) d1) as (A4 & A5 & A6).
  split_and!; [by etransitivity; [exact E1|]; rewrite A1|by etransitivity; [exact E2|]; rewrite A2
    |by etransitivity; [exact E3|]; rewrite A6|].
  intros id. rewrite fmap_cons, not_elem_of_cons. intros [Hne Hni].
  destruct (E4 id Hni) as (G1 & G2 & G3). rewrite A4 in G1. rewrite A3 in G2 by done.
  split_and!; [etransitivity; [exact G1|]; simpl; by rewrite lookup_insert_ne|exact G2|].
  intros a'. etransitivity; [apply G3|]. rewrite A5. simpl. rewrite lookup_insert_ne by congruence. done.
Qed.

Lemma order_index_store a o auth p d id :
  order_index (store_order a o auth p d) !! id =
  if decide (id = order_id o) then Some a else order_index d !! id.
Proof.
  unfold store_order. destruct (assign_other p (order_id o)
    (set_order_auths <[order_id o:=auth]> (put_order a o d))) as (-> & _). simpl.
  case_decide; [subst; by rewrite lookup_insert_eq|by rewrite lookup_insert_ne].
Qed.

Lemma store_all_ok a us d :
  account_ok d → is_Some (headers d !! a) →
  Forall (λ u, is_u128 (order_amount_in (refresh_order u)) ∧ pool_exists d (refresh_pool u) ∧
    (order_index d !! refresh_id u = None ∨ order_index d !! refresh_id u = Some a)) us →
  account_ok (store_all a us d).
Proof.
  revert d. induction us as [|u us IH]; intros d Hok Ha Hf; [done|].
  inversion Hf as [|? ? (Hamt & Hp & Hi) Hf']; subst.
  destruct (store_all_other a [u] d) as (E1 & E2 & _).
  change (store_all a [u] d) with (store_order a (refresh_order u) (refresh_auth u) (refresh_pool u) d) in *.
  apply (IH (store_order a (refresh_order u) (refresh_auth u) (refresh_pool u) d));
    [by apply store_order_ok|by rewrite E1|].
  eapply Forall_impl; [exact Hf'|]. intros u' (Hamt' & Hp' & Hi'). unfold pool_exists in *.
  rewrite E2, order_index_store. split_and!; [done|done|]. case_decide; auto.
Qed.

(** The written orders and their pools can be read back. *)
Lemma store_all_spec a us d u :
  NoDup ((λ u, refresh_id u) <$> us) → u ∈ us →
  order_at (store_all a us d) (refresh_id u) = Some (refresh_order u) ∧
  pool_at (store_all a us d) (refresh_id u) = refresh_pool u ∧
  order_index (store_all a us d) !! refresh_id u = Some a.
Proof.
  revert d. induction us as [|v us IH]; intros d Hnd Hin; [by apply not_elem_of_nil in Hin|].
  rewrite fmap_cons in Hnd. apply NoDup_cons in Hnd as [Hni Hnd].
  change (store_all a (v :: us) d) with
    (store_all a us (store_order a (refresh_order v) (refresh_auth v) (refresh_pool v) d)).
  apply elem_of_cons in Hin as [->|Hin]; [|by apply IH].
  set (d1 := store_order a (refresh_order v) (refresh_auth v) (refresh_pool v) d).
  destruct (store_all_other a us d1) as (_ & _ & _ & E4). destruct (E4 _ Hni) as (G1 & G2 & G3).
  assert (order_index d1 !! refresh_id v = Some a) as Hi
    by (unfold d1; by rewrite order_index_store, decide_True).
  split_and!.
  - unfold order_at. rewrite G1, Hi. simpl. rewrite G3. unfold d1, store_order.
    destruct (assign_other (refresh_pool v) (refresh_id v)
      (set_order_auths <[refresh_id v:=refresh_auth v]> (put_order a (refresh_order v) d))) as (_ & -> & _).
    simpl. by rewrite lookup_insert_eq.
  - unfold pool_at. rewrite G2. fold (pool_at d1 (refresh_id v)). unfold d1, store_order.
    by rewrite pool_at_assign, decide_True.
  - by rewrite G1.
Qed.

(** ** What a refresh runs *)

Lemma balances_loop_eq a bs w :
  for_each bs (λ b, tx (update_balance a b)) w = (Ok tt, set_adb (put_balances a bs (adb w)) w).
Proof.
  revert w. induction bs as [|b bs IH]; intros w; [by destruct w|].
  cbn [for_each]. erewrite bind_Ok by reflexivity. by rewrite IH.
Qed.

Lemma remove_stale_eq a keep o w :
  order_id o ∉ keep →
  remove_stale a keep o w =
    (Ok (Some (o, pool_at (adb w) (order_id o))), set_adb (drop_order a (order_id o) (adb w)) w).
Proof. intros Hni. unfold remove_stale. rewrite bool_decide_false by done. by destruct w. Qed.

Definition stale_orders (keep : list OrderId) (current : list Order) : list Order :=
  filter (λ o, order_id o ∉ keep) current.

Lemma stale_loop_eq a keep current w :
  NoDup (order_id <$> current) →
  collect_m current (remove_stale a keep) w =
    (Ok ((λ o, (o, pool_at (adb w) (order_id o))) <$> stale_orders keep current),
     set_adb (drop_all a (stale_orders keep current) (adb w)) w).
Proof.
  revert w. induction current as [|o current IH]; intros w Hnd; [by destruct w|].
  rewrite fmap_cons in Hnd. apply NoDup_cons in Hnd as [Hni Hnd].
  unfold stale_orders. rewrite filter_cons. cbn [collect_m]. case_decide as Hk.
  - erewrite bind_Ok by (by apply remove_stale_eq). erewrite bind_Ok by (by apply IH).
    unfold mret, M_ret. rewrite fmap_cons. f_equal. f_equal. f_equal.
    apply list_fmap_ext. intros i o' Ho'. f_equal. unfold pool_at. simpl.
    rewrite lookup_delete_ne; [done|]. intros E. apply Hni. rewrite E. apply list_elem_of_fmap.
    exists o'. split; [done|]. apply list_elem_of_lookup_2 in Ho'. by apply list_elem_of_filter in Ho' as [_ ?].
  - 
    erewrite bind_Ok by (unfold remove_stale; rewrite bool_decide_true by done; reflexivity).
    erewrite bind_Ok by (by apply IH). done.
Qed.

(** What is written for a refreshed order. *)
Definition written (d : AccountDb) (r : OrderRefreshData) : OrderRefreshData :=
  mkOrderRefreshData (clamp_refresh (order_at d (refresh_id r)) (refresh_order r))
    (refresh_pool r) (refresh_auth r).

Lemma clamp_refresh_keeps s o :
  order_id (clamp_refresh s o) = order_id o ∧ order_pair (clamp_refresh s o) = order_pair o.
Proof. unfold clamp_refresh. destruct s; [|done]. by destruct (_ && _). Qed.

Lemma clamp_refresh_amount s o :
  is_u128 (order_amount_in o) → from_option (λ s, is_u128 (order_amount_in s)) True s →
  is_u128 (order_amount_in (clamp_refresh s o)) ∧
  order_amount_in (clamp_refresh s o) ≤ order_amount_in o ∧
  (∀ s', s = Some s' → order_ring o = Ring0 → has_been_filled (order_metadata s') = true →
     order_amount_in (clamp_refresh s o) ≤ order_amount_in s').
Proof.
  intros Ho Hs. unfold clamp_refresh. destruct s as [s|]; [|by split_and!].
  simpl in Hs. apply is_u128_lt in Ho as Hlo, Hs as Hls.
  case_bool_decide as Hr; cbn [andb]; [|split_and!; [done|lia|by intros s' [= <-] ?]].
  destruct (has_been_filled (order_metadata s)) eqn:Ef; cbn [andb];
    [|split_and!; [done|lia|intros s' [= <-]; congruence]].
  destruct (Z.ltb_spec (order_amount_in s) (order_amount_in o)).
  2: { split_and!; [done|lia|by intros s' [= <-]]. }
  assert (order_amount_in (decrement_amount_in o (order_amount_in o - order_amount_in s)).2
    = order_amount_in s) as ->; [|by split_and!; [done|lia|intros s' [= <-]]].
  destruct (sub_amount_in_private (order_intent o)
    (Z.min (order_amount_in o - order_amount_in s) (order_amount_in o))) as [H1 H2]; [done| |].
  - unfold order_amount_in in *. lia.
  - unfold decrement_amount_in. unfold order_amount_in at 1. cbn [snd order_intent]. rewrite H2.
    unfold order_amount_in in *. simpl in *. lia.
Qed.

Definition write_one (a : AccountId) (u : OrderRefreshData) (d : AccountDb) : AccountDb :=
  store_order a (refresh_order u) (refresh_auth u) (refresh_pool u) d.
Definition owned_or_new (a : AccountId) (d : AccountDb) (id : OrderId) : Prop :=
  order_index d !! id = None ∨ order_index d !! id = Some a.

Lemma refresh_one_inv a r w u w' :
  owned_or_new a (adb w) (refresh_id r) → refresh_one a r w = (Ok u, w') →
  pool_exists (adb w) (refresh_pool r) ∧
  w' = set_adb (write_one a (written (adb w) r) (adb w)) w ∧
  ∃ t m, u = Some (written (adb w) r, t, m).
Proof.
  intros Hi H. unfold refresh_one in H. app_inv. unfold write_order_auth in *. app_inv.
  set (stored := order_at (adb w) (refresh_id r)) in *.
  destruct (clamp_refresh_keeps stored (refresh_order r)) as [Eid _].
  assert (w3 = set_adb (set_order_auths <[refresh_id r := refresh_auth r]>
    (put_order a (clamp_refresh stored (refresh_order r)) (adb w))) w) as ->.
  { unfold add_order, update_order in *. case_bool_decide as Hs; app_inv; rewrite Eid in *.
    - rewrite <-(update_order_put a); [rewrite Eid; done|]. rewrite Eid.
      destruct Hi as [Hn|]; [|done]. unfold stored, order_at in Hs. rewrite Hn in Hs. by destruct Hs.
    - unfold put_order. rewrite Eid. done. }
  match goal with H : assign_order_to_matching_pool _ _ _ = _ |- _ => apply assign_inv in H as -> end.
  match goal with H : get_order_matchable_amount _ _ = _ |- _ => apply get_matchable_inv in H as [-> _] end.
  split_and!; [done| |by eexists _, _].
  unfold write_one, written, store_order. cbn [refresh_order refresh_pool refresh_auth adb set_adb]. fold stored.
  by rewrite !Eid.
Qed.

Lemma refresh_loop_inv a rs w us w' :
  NoDup ((λ r, refresh_id r) <$> rs) → Forall (λ r, owned_or_new a (adb w) (refresh_id r)) rs →
  collect_m rs (refresh_one a) w = (Ok us, w') →
  Forall (λ r, pool_exists (adb w) (refresh_pool r)) rs ∧
  us.*1.*1 = written (adb w) <$> rs ∧
  w' = set_adb (store_all a (written (adb w) <$> rs) (adb w)) w.
Proof.
  revert w us w'. induction rs as [|r rs IH]; intros w us w' Hnd Hf H.
  { injection H as <- <-. split_and!; [done|done|by destruct w]. }
  rewrite fmap_cons in Hnd. apply NoDup_cons in Hnd as [Hni Hnd]. inversion Hf as [|? ? Hi Hf']; subst.
  cbn [collect_m] in H. apply bind_Ok_inv in H as (u & w1 & H1 & H).
  apply bind_Ok_inv in H as (us' & w2 & H2 & H). injection H as <- <-.
  apply refresh_one_inv in H1 as (Hp & -> & t & m & ->); [|done].
  set (u := written (adb w) r) in *. set (d1 := write_one a u (adb w)) in *.
  destruct (store_all_other a [u] (adb w)) as (_ & E2 & _ & E4).
  change (store_all a [u] (adb w)) with d1 in *.
  assert (refresh_id u = refresh_id r) as Eu by apply clamp_refresh_keeps.
  assert (∀ r', r' ∈ rs → refresh_id r' ≠ refresh_id r) as Hne.
  { intros r' Hr' E. apply Hni. rewrite <-E. by apply (list_elem_of_fmap_2 (λ r, refresh_id r)). }
  assert (written d1 <$> rs = written (adb w) <$> rs) as Ew.
  { apply list_fmap_ext. intros i r' Hr'%list_elem_of_lookup_2. unfold written.
    destruct (E4 (refresh_id r')) as (G1 & _ & G3).
    { rewrite list_fmap_singleton, list_elem_of_singleton, Eu. by apply Hne. }
    unfold order_at. rewrite G1. destruct (order_index (adb w) !! refresh_id r'); simpl; [by rewrite G3|done]. }
  apply IH in H2 as (Hps & Hus & ->); [| done |].
  - cbn [adb set_adb] in *. split_and!.
    + constructor; [done|]. eapply Forall_impl; [exact Hps|]. intros r'. unfold pool_exists. by rewrite E2.
    + cbn [fmap list_fmap fst]. rewrite Hus, Ew. done.
    + rewrite Ew. done.
  - apply Forall_forall. intros r' Hr'. rewrite Forall_forall in Hf'. specialize (Hf' _ Hr').
    cbn [adb set_adb]. unfold owned_or_new. destruct (E4 (refresh_id r')) as (-> & _); [|done].
    rewrite list_fmap_singleton, list_elem_of_singleton, Eu. by apply Hne.
Qed.

Lemma fetched_ids d a :
  account_ok d → order_id <$> omap (λ id, db_orders d !! (a, id)) (order_ids d a) = order_ids d a.
Proof.
  intros Hok. assert (Forall (λ id, is_Some (db_orders d !! (a, id))) (order_ids d a)) as Hf.
  { apply Forall_forall. intros id. by rewrite elem_of_order_ids. }
  induction Hf as [|id ids [o Ho] Hf IH]; [done|]. cbn. rewrite Ho. cbn.
  by rewrite IH, (ao_id _ Hok _ _ _ Ho).
Qed.
Lemma order_ids_NoDup d a : NoDup (order_ids d a).
Proof. unfold order_ids. rewrite merge_sort_Permutation. apply NoDup_elements. Qed.

Definition cancel_all (xs : list (Order * MatchingPoolName)) (e : MatchingEngine) : MatchingEngine :=
  foldl (λ e x, cancel_order e x.1 x.2) e xs.

Lemma cancel_loop_inv a xs w u w' :
  for_each xs (λ '(o, pool), with_engine (λ e, cancel_order e o pool);;
    publish_admin_order_update a o pool Cancelled 0) w = (Ok u, w') →
  adb w' = adb w ∧ engine w' = cancel_all xs (engine w).
Proof.
  revert w. induction xs as [|[o p] xs IH]; intros w H; [by injection H as <- <-|].
  cbn [for_each] in H. apply bind_Ok_inv in H as (u1 & w1 & H1 & H). app_inv.
  match goal with H : publish_admin_order_update _ _ _ _ _ _ = _ |- _ => apply quiet_publish in H as [Ed Ee] end.
  apply IH in H as [-> ->]. by rewrite Ed, Ee.
Qed.

Lemma refresh_sync_inv a (us : list (OrderRefreshData * AdminOrderUpdateType * Amount)) w u w' :
  Forall (λ v, order_at (adb w) (refresh_id v) = Some (refresh_order v) ∧
               pool_at (adb w) (refresh_id v) = refresh_pool v) us.*1.*1 →
  for_each us (λ '(r, _, _), matchable ← tx (get_order_matchable_amount (refresh_id r));
    sync_order a (refresh_order r) (default 0 matchable) (refresh_pool r)) w = (Ok u, w') →
  adb w' = adb w ∧ engine w' = sync_all a (adb w) ((λ v, refresh_id v) <$> us.*1.*1) (engine w).
Proof.
  revert w. induction us as [|[[v t] m] us IH]; intros w Hf H; [by injection H as <- <-|].
  cbn [fmap list_fmap fst] in Hf. inversion Hf as [|? ? [Ho Hp] Hf']; subst.
  cbn [for_each] in H. apply bind_Ok_inv in H as (u1 & w1 & H1 & H). app_inv.
  match goal with H : get_order_matchable_amount _ _ = _ |- _ => apply get_matchable_inv in H as [-> Em] end.
  rewrite Em, sync_order_eq in H1. injection H1 as <- <-.
  apply IH in H as [-> ->]; [|done]. split; [done|]. cbn [fmap list_fmap fst sync_all foldl].
  rewrite Ho, Hp. done.
Qed.

(** *** The effect of a refresh *)

(** The guards of a refresh: distinct orders, each one new or one of the account's, kept in
    its pool and on its pair; amounts are machine integers. *)
Record refresh_guard (a : AccountId) (rs : list OrderRefreshData) (bs : list Balance)
    (d : AccountDb) : Prop := mkRefreshGuard {
  rg_nodup : NoDup ((λ r, refresh_id r) <$> rs);
  rg_owned : Forall (λ r, owned_or_new a d (refresh_id r)) rs;
  rg_orders : Forall (λ r, is_u128 (order_amount_in (refresh_order r))) rs;
  rg_balances : Forall (λ b, is_u128 (balance_amount b)) bs;
  rg_place : Forall (λ r, ∀ p, place d (refresh_id r) = Some p →
    p = (order_pair (refresh_order r), refresh_pool r)) rs;
}.

Definition account_orders (d : AccountDb) (a : AccountId) : list Order :=
  omap (λ id, db_orders d !! (a, id)) (order_ids d a).
Definition refresh_stale (a : AccountId) (rs : list OrderRefreshData) (d : AccountDb) : list Order :=
  stale_orders ((λ r, refresh_id r) <$> rs) (account_orders d a).
Definition refreshed (a : AccountId) (rs : list OrderRefreshData) (bs : list Balance)
    (d : AccountDb) : AccountDb :=
  store_all a (written d <$> rs) (drop_all a (refresh_stale a rs d) (put_balances a bs d)).

Lemma refresh_stale_balances a rs bs d :
  refresh_stale a rs (put_balances a bs d) = refresh_stale a rs d.
Proof.
  unfold refresh_stale, account_orders, order_ids.
  destruct (put_balances_other a bs d) as (_ & -> & _). done.
Qed.

Lemma stale_not_kept a rs d r :
  r ∈ rs → refresh_id r ∉ order_id <$> refresh_stale a rs d.
Proof.
  intros Hr (o & E & Ho)%list_elem_of_fmap. apply list_elem_of_filter in Ho as [Hni _].
  apply Hni. rewrite <-E. by apply (list_elem_of_fmap_2 (λ r, refresh_id r)).
Qed.

Lemma kept_order_at a rs bs d r :
  r ∈ rs → order_at (drop_all a (refresh_stale a rs d) (put_balances a bs d)) (refresh_id r) =
           order_at d (refresh_id r).
Proof.
  intros Hr. destruct (drop_all_other a (refresh_stale a rs d) (put_balances a bs d)) as (_ & _ & _ & E).
  destruct (E (refresh_id r)) as [_ [G1 [_ G3]]]; [by apply stale_not_kept|].
  unfold order_at. rewrite G1. destruct (put_balances_other a bs d) as (-> & E2 & _).
  destruct (order_index d !! refresh_id r); simpl; [by rewrite G3, E2|done].
Qed.

Lemma refresh_tables_inv a rs bs w stale us w' :
  account_ok (adb w) → refresh_guard a rs bs (adb w) →
  refresh_tables a rs bs w = (Ok (stale, us), w') →
  is_Some (headers (adb w) !! a) ∧ Forall (λ r, pool_exists (adb w) (refresh_pool r)) rs ∧
  stale = (λ o, (o, pool_at (adb w) (order_id o))) <$> refresh_stale a rs (adb w) ∧
  us.*1.*1 = written (adb w) <$> rs ∧
  adb w' = refreshed a rs bs (adb w) ∧ engine w' = engine w.
Proof.
  intros Hok [G1 G2 G3 G4 G5] H. unfold refresh_tables, get_account_orders, fetch_orders_for_account in H.
  app_inv. rewrite balances_loop_eq in *. match goal with H : (Ok tt, _) = (Ok _, _) |- _ => inv_pair H end.
  cbn [adb set_adb engine] in *. unfold fetch_orders_for_account in *. app_inv.
  set (d1 := put_balances a bs (adb w)) in *.
  assert (account_ok d1) as Hok1 by by apply put_balances_ok. fold (account_orders d1 a) in *.
  rewrite stale_loop_eq in * by (unfold account_orders; rewrite fetched_ids by done; apply order_ids_NoDup).
  match goal with H : (Ok _, _) = (Ok _, _) |- _ => inv_pair H end. cbn [adb set_adb engine] in *.
  fold (refresh_stale a rs d1) in *. unfold d1 in *. rewrite refresh_stale_balances in *.
  set (d2 := drop_all a (refresh_stale a rs (adb w)) (put_balances a bs (adb w))) in *.
  destruct (drop_all_other a (refresh_stale a rs (adb w)) (put_balances a bs (adb w))) as (_ & _ & D3 & D4).
  fold d2 in D3, D4. destruct (put_balances_other a bs (adb w)) as (P1 & P2 & P3 & P4 & _).
  match goal with H : collect_m rs _ _ = _ |- _ => apply refresh_loop_inv in H as (Hps & Hus & ->) end; [|done|].
  2: { apply Forall_forall. intros r0 Hr0. rewrite Forall_forall in G2. specialize (G2 _ Hr0).
       cbn [adb set_adb]. unfold owned_or_new in *.
       destruct (D4 (refresh_id r0)) as [_ [-> _]]; [by apply stale_not_kept|]. by rewrite P1. }
  cbn [adb set_adb] in *.
  assert (written d2 <$> rs = written (adb w) <$> rs) as Ew.
  { apply list_fmap_ext. intros i r' Hr'%list_elem_of_lookup_2. unfold written, d2. by rewrite kept_order_at. }
  rewrite Ew in *. split_and!; [done| | |done|done|done].
  - eapply Forall_impl; [exact Hps|]. intros r0. unfold pool_exists. by rewrite D3, P4.
  - unfold pool_at. by rewrite P3.
Qed.

Lemma written_ids d (rs : list OrderRefreshData) : (λ u, refresh_id u) <$> (written d <$> rs) = (λ r, refresh_id r) <$> rs.
Proof.
  rewrite <-list_fmap_compose. apply list_fmap_ext. intros i r' _. apply clamp_refresh_keeps.
Qed.

Lemma refreshed_spec a (rs : list OrderRefreshData) bs d r :
  NoDup ((λ r, refresh_id r) <$> rs) → r ∈ rs →
  order_at (refreshed a rs bs d) (refresh_id r) = Some (refresh_order (written d r)) ∧
  pool_at (refreshed a rs bs d) (refresh_id r) = refresh_pool r ∧
  order_index (refreshed a rs bs d) !! refresh_id r = Some a.
Proof.
  intros Hnd Hr. pose proof (store_all_spec a (written d <$> rs)
    (drop_all a (refresh_stale a rs d) (put_balances a bs d)) (written d r)) as H.
  rewrite written_ids in H. assert (refresh_id (written d r) = refresh_id r) as E by apply clamp_refresh_keeps.
  rewrite E in H. by apply H; [|apply (list_elem_of_fmap_2 (written d))].
Qed.

Lemma refresh_effect a rs bs w r w' :
  account_ok (adb w) → refresh_guard a rs bs (adb w) → refresh_account a rs bs w = (Ok r, w') →
  is_Some (headers (adb w) !! a) ∧ Forall (λ r, pool_exists (adb w) (refresh_pool r)) rs ∧
  adb w' = refreshed a rs bs (adb w) ∧
  engine w' = sync_all a (refreshed a rs bs (adb w)) ((λ r, refresh_id r) <$> rs)
    (cancel_all ((λ o, (o, pool_at (adb w) (order_id o))) <$> refresh_stale a rs (adb w)) (engine w)).
Proof.
  intros Hok Hg H. unfold refresh_account in H.
  apply bind_Ok_inv in H as ([stale us] & w1 & H1 & H). apply with_tx_Ok_inv in H1.
  apply refresh_tables_inv in H1 as (Ha & Hp & -> & Hus & Ed & Ee); [|done|done].
  split; [done|]. split; [done|]. app_inv.
  match goal with H : for_each bs _ _ = _ |- _ =>
    apply quiet_for_each in H as [Ed1 Ee1]; [|intros ?; apply quiet_publish] end.
  match goal with H : for_each us _ w0 = _ |- _ =>
    apply quiet_for_each in H as [Ed2 Ee2]; [|intros [[? ?] ?]; apply quiet_publish] end.
  match goal with H : for_each (_ <$> _) _ _ = _ |- _ => apply cancel_loop_inv in H as [Ed3 Ee3] end.
  rewrite Ed2, Ed1, Ed in Ed3. rewrite Ee2, Ee1, Ee in Ee3.
  match goal with H : for_each us _ _ = _ |- _ => apply refresh_sync_inv in H as [Ed4 Ee4] end.
  - rewrite Ed4, Ee4, Ed3, Ee3, Hus, written_ids. done.
  - rewrite Ed3, Hus. apply Forall_fmap, Forall_forall. intros r0 Hr0. simpl.
    assert (refresh_id (written (adb w) r0) = refresh_id r0) as E by apply clamp_refresh_keeps.
    simpl in E. rewrite E.
    destruct (refreshed_spec a rs bs (adb w) r0 (rg_nodup _ _ _ _ Hg) Hr0) as (-> & -> & _). done.
Qed.

Lemma cancel_all_within xs e w b :
  within e w b →
  Forall (λ x, ∀ q, w (order_id x.1) = Some q → q = (order_pair x.1, x.2)) xs →
  within (cancel_all xs e) (λ id, if decide (id ∈ (λ x, order_id x.1) <$> xs) then None else w id) b.
Proof.
  revert e w. induction xs as [|[o p] xs IH]; intros e w Hw Hf; [exact Hw|].
  inversion Hf as [|? ? Hx Hf']; subst. simpl in Hx.
  set (w1 := λ id, if decide (id = order_id o) then None else w id).
  assert (within (cancel_order e o p) w1 b) as Hw1.
  { eapply within_cancel; [exact Hw|done|]. intros j Hj. unfold w1. by rewrite decide_False. }
  apply (IH _ w1) in Hw1.
  - eapply within_mono; [|exact Hw1]. intros id q. unfold w1.
    repeat case_decide; try done; rewrite ?fmap_cons, ?elem_of_cons in *; simpl in *; try tauto.
    intros ?. split; [done|]. intros y Hy. by exists y.
  - eapply Forall_impl; [exact Hf'|]. intros [o' p'] Hx' q. unfold w1. simpl in *. case_decide; [done|apply Hx'].
Qed.

Lemma order_at_amount d id :
  account_ok d → from_option (λ s, is_u128 (order_amount_in s)) True (order_at d id).
Proof.
  intros Hok. destruct (order_at d id) as [o|] eqn:E; [|done].
  destruct (order_at_Some _ _ _ Hok E) as (a & _ & Ho & _). by apply (ao_order_amount _ Hok _ _ Ho).
Qed.

Lemma elem_of_stale a rs d id :
  account_ok d → id ∈ order_id <$> refresh_stale a rs d ↔
  order_index d !! id = Some a ∧ id ∉ (λ r, refresh_id r) <$> rs.
Proof.
  intros Hok. rewrite list_elem_of_fmap. unfold refresh_stale, stale_orders.
  setoid_rewrite list_elem_of_filter. unfold account_orders.
  setoid_rewrite (elem_of_fetched d a _ _ d Hok eq_refl). split.
  - intros (o & -> & Hni & Ho). split; [|done]. apply (ao_index _ Hok). by eexists.
  - intros [Hi Hni]. apply (ao_index _ Hok) in Hi as [o Ho]. exists o.
    rewrite (ao_id _ Hok _ _ _ Ho). done.
Qed.

Lemma refreshed_ok a rs bs d :
  account_ok d → refresh_guard a rs bs d → is_Some (headers d !! a) →
  Forall (λ r, pool_exists d (refresh_pool r)) rs → account_ok (refreshed a rs bs d).
Proof.
  intros Hok [G1 G2 G3 G4 G5] Ha Hp. rewrite Forall_forall in G2, G3, Hp.
  destruct (drop_all_other a (refresh_stale a rs d) (put_balances a bs d)) as (D1 & D2 & D3 & D4).
  destruct (put_balances_other a bs d) as (P1 & P2 & P3 & P4 & P5 & _).
  apply store_all_ok; [|by rewrite D1, P5|].
  - apply drop_all_ok; [by apply put_balances_ok|]. apply Forall_forall. intros o Ho. rewrite P1.
    right. by apply (elem_of_stale a rs d (order_id o) Hok), list_elem_of_fmap_2.
  - apply Forall_fmap, Forall_forall. intros r Hr. simpl.
    destruct (clamp_refresh_keeps (order_at d (refresh_id r)) (refresh_order r)) as [-> _].
    split_and!; [|unfold pool_exists; rewrite D3, P4; by apply Hp|].
    + apply clamp_refresh_amount; [by apply G3|by apply order_at_amount].
    + destruct (D4 (refresh_id r)) as [_ [-> _]]; [by apply stale_not_kept|]. rewrite P1. by apply G2.
Qed.

(** Orders that are neither listed nor the account's are not touched. *)
Lemma refreshed_other a rs bs d id :
  account_ok d → id ∉ (λ r, refresh_id r) <$> rs → order_index d !! id ≠ Some a →
  place (refreshed a rs bs d) id = place d id ∧ matchable (refreshed a rs bs d) id = matchable d id.
Proof.
  intros Hok Hni Hna. unfold refreshed.
  set (d1 := put_balances a bs d). set (d2 := drop_all a (refresh_stale a rs d) d1).
  destruct (store_all_other a (written d <$> rs) d2) as (_ & _ & S3 & S4).
  destruct (S4 id) as (S5 & S6 & S7); [by rewrite written_ids|].
  destruct (drop_all_other a (refresh_stale a rs d) d1) as (_ & D2 & _ & D4).
  destruct (D4 id) as [_ (D5 & D6 & D7)]; [rewrite elem_of_stale by done; tauto|].
  destruct (put_balances_other a bs d) as (P1 & P2 & P3 & _ & _ & P6).
  fold d2 in D2, D5, D6, D7. fold d1 in P1, P2, P3, P6.
  assert (order_index (store_all a (written d <$> rs) d2) !! id = order_index d !! id) as Ei
    by (by rewrite S5, D5, P1).
  assert (∀ a', db_orders (store_all a (written d <$> rs) d2) !! (a', id) = db_orders d !! (a', id)) as Eo
    by (intros a'; by rewrite S7, D7, P2).
  split.
  - unfold place, order_at, pool_at. rewrite Ei, S6, D6, P3.
    destruct (order_index d !! id); simpl; [by rewrite Eo|done].
  - unfold matchable. rewrite Ei. destruct (order_index d !! id) as [a'|]; [|done]. rewrite Eo.
    destruct (db_orders d !! (a', id)) as [o|]; [|done].
    rewrite <-(P6 a' o) by congruence. unfold capacity. by rewrite S3, D2.
Qed.

Lemma refresh_ok a rs bs w r w' :
  world_ok w → refresh_guard a rs bs (adb w) → refresh_account a rs bs w = (Ok r, w') → world_ok w'.
Proof.
  intros [Hok Hs] Hg H. destruct (refresh_effect _ _ _ _ _ _ Hok Hg H) as (Ha & Hp & Ed & Ee).
  assert (account_ok (refreshed a rs bs (adb w))) as Hok' by by apply refreshed_ok.
  split; rewrite Ed; [done|]. rewrite Ee. apply sync_all_within; [done|].
  set (stale := (λ o, (o, _)) <$> refresh_stale a rs (adb w)).
  assert ((λ x, order_id x.1) <$> stale = order_id <$> refresh_stale a rs (adb w)) as Est.
  { unfold stale. by rewrite <-list_fmap_compose. }
  eapply within_mono; [|eapply (cancel_all_within stale); [exact Hs|]].
  - intros id p. rewrite Est. case_decide as Hin; [done|]. rewrite elem_of_stale in Hin by done.
    intros Hpl. case_decide as Hrs.
    + split; [|done]. apply list_elem_of_fmap in Hrs as (r0 & -> & Hr0).
      destruct (refreshed_spec a rs bs (adb w) r0 (rg_nodup _ _ _ _ Hg) Hr0) as (E1 & E2 & _).
      pose proof (rg_place _ _ _ _ Hg) as Hpg. rewrite Forall_forall in Hpg.
      rewrite (Hpg _ Hr0 _ Hpl). unfold place. rewrite E1, E2. simpl. by destruct (clamp_refresh_keeps (order_at (adb w) (refresh_id r0)) (refresh_order r0)) as [_ ->].
    + destruct (refreshed_other a rs bs (adb w) id) as [-> ->]; [done|done|tauto|].
      split; [done|]. intros x [= <-]. by eexists.
  - apply Forall_fmap, Forall_forall. intros o Ho q. simpl.
    assert (db_orders (adb w) !! (a, order_id o) = Some o) as Hdo.
    { apply list_elem_of_filter in Ho as [_ Ho]. by apply (elem_of_fetched (adb w) a _ _ (adb w) Hok eq_refl) in Ho. }
    assert (order_index (adb w) !! order_id o = Some a) as Hi by (apply (ao_index _ Hok); by eexists).
    unfold place, order_at. rewrite Hi. simpl. rewrite Hdo. by intros [= <-].
Qed.

(** ** Failing transitions *)

Section FailsClean.
Context {A B : Type}.
Implicit Types (m : M AccountWorld StateApplicatorError A)
  (f : A → M AccountWorld StateApplicatorError B).

Lemma fails_clean_quiet m f :
  fails_clean m → quiet m → (∀ a, fails_clean (f a)) → fails_clean (m ≫= f).
Proof.
  intros Hm Hq Hf w e w'. unfold mbind, M_bind. destruct (m w) as [[a|e'] w1] eqn:E.
  - destruct (Hq _ _ _ E) as [<- <-]. apply Hf.
  - intros [= <- <-]. by eapply Hm.
Qed.
Lemma total_fails_clean m : total m → fails_clean m.
Proof. intros Ht w e w' H. by apply Ht in H. Qed.
Lemma total_bind m f : total m → (∀ a, total (f a)) → total (m ≫= f).
Proof.
  intros Hm Hf w e w'. unfold mbind, M_bind. destruct (m w) as [[a|e'] w1] eqn:E; [apply Hf|].
  by apply Hm in E.
Qed.
Lemma total_ret (a : A) : total (mret a : M AccountWorld StateApplicatorError A).
Proof. done. Qed.
Lemma ensure_fails_clean c e : fails_clean (ensure c e) ∧ quiet (ensure c e).
Proof. destruct c; split; intros w r w'; intros [= <- <-]; done. Qed.
Lemma ok_or_fails_clean (o : option A) e : fails_clean (ok_or o e) ∧ quiet (ok_or o e).
Proof. destruct o; split; intros w r w'; intros [= <- <-]; done. Qed.
Lemma tx_read_quiet (m : M AccountDb StorageError A) :
  (∀ d, ∃ x, m d = (Ok x, d)) → total (tx m) ∧ quiet (tx m).
Proof.
  intros Hm. split; intros w r w'; unfold tx, zoom; destruct (Hm (adb w)) as [x ->]; [done|].
  by intros [= <- <-].
Qed.
End FailsClean.

Lemma total_for_each {X} (xs : list X) (body : X → M AccountWorld StateApplicatorError unit) :
  (∀ x, total (body x)) → total (for_each xs body).
Proof. intros H. induction xs; simpl; [apply total_ret|by apply total_bind]. Qed.
Lemma total_publish m : total (publish m).
Proof. done. Qed.
Lemma total_with_engine f : total (with_engine f).
Proof. done. Qed.
Lemma total_sync a o m p : total (sync_order a o m p).
Proof. intros w e w'. by rewrite sync_order_eq. Qed.
Lemma total_matchable id : total (tx (get_order_matchable_amount id)).
Proof. apply tx_read_quiet. intros d. destruct (get_matchable_eq id d) as (o & -> & _). by eexists. Qed.

#[local] Hint Resolve total_publish total_with_engine total_sync total_matchable : relayer.

Ltac solve_total :=
  repeat first
    [ apply total_ret | solve [auto 2 with relayer nocore] | solve [apply total_publish]
    | apply total_for_each; intros ?
    | apply total_bind; [|intros ?]
    | match goal with |- total (match ?x with _ => _ end) => destruct x end ].

(** The tables of a transaction never touch the engine. *)
Ltac solve_clean_tx :=
  apply fails_clean_tx; [unfold ensure_account, ensure_pool; solve_keeps|intros ?; solve_total].

Section Fails.
Context (permit_hash : PublicIntentPermit → Z).

Lemma create_fails_clean a : fails_clean (create_account a).
Proof. apply fails_clean_quiet; [apply ensure_fails_clean|apply ensure_fails_clean|intros _]. solve_clean_tx. Qed.
Lemma add_order_fails_clean a o auth p : fails_clean (add_order_to_account permit_hash a o auth p).
Proof. unfold add_order_to_account. solve_clean_tx. Qed.
Lemma remove_order_fails_clean a id : fails_clean (remove_order_from_account permit_hash a id).
Proof. unfold remove_order_from_account. solve_clean_tx. Qed.

Lemma update_order_fails_clean o : fails_clean (app_update_order permit_hash o).
Proof.
  unfold app_update_order.
  assert (total (tx (get_order (order_id o))) ∧ quiet (tx (get_order (order_id o)))) as [T1 Q1]
    by (apply tx_read_quiet; intros d; rewrite get_order_eq; by eexists).
  assert (total (tx (get_account_id_for_order (order_id o))) ∧
    quiet (tx (get_account_id_for_order (order_id o)))) as [T2 Q2]
    by (apply tx_read_quiet; intros d; by eexists).
  apply fails_clean_quiet; [by apply total_fails_clean|done|intros old].
  apply fails_clean_quiet; [apply ok_or_fails_clean|apply ok_or_fails_clean|intros s].
  apply fails_clean_quiet; [by apply total_fails_clean|done|intros a0].
  apply fails_clean_quiet; [apply ok_or_fails_clean|apply ok_or_fails_clean|intros a].
  destruct (_ =? 0).
  - apply fails_clean_quiet; [apply total_fails_clean; solve_total| |intros _; apply remove_order_fails_clean].
    apply quiet_if; [apply quiet_publish|apply quiet_ret].
  - solve_clean_tx.
Qed.

Lemma update_balance_fails_clean a b : fails_clean (update_account_balance a b).
Proof.
  unfold update_account_balance. apply fails_clean_tx; [unfold ensure_account; solve_keeps|intros _].
  apply total_bind; [|intros _; solve_total]. unfold update_matchable_amounts.
  apply total_bind; [apply tx_read_quiet; intros d; by eexists|].
  intros ids w e w'. rewrite sync_loop_eq. done.
Qed.
Lemma update_keychain_fails_clean a k : fails_clean (update_account_keychain a k).
Proof. unfold update_account_keychain. solve_clean_tx. Qed.
Lemma refresh_fails_clean a rs bs : fails_clean (refresh_account a rs bs).
Proof.
  unfold refresh_account, refresh_tables, remove_stale, refresh_one. solve_clean_tx.
Qed.
Lemma validity_fails_clean l b : fails_clean (add_validity_proof l b).
Proof. unfold add_validity_proof. solve_clean_tx. Qed.
Lemma merkle_fails_clean t p : fails_clean (add_merkle_proof t p).
Proof. unfold add_merkle_proof. solve_clean_tx. Qed.
Lemma pools_fail_clean p :
  fails_clean (app_create_matching_pool p) ∧ fails_clean (app_destroy_matching_pool p).
Proof. split; [unfold app_create_matching_pool|unfold app_destroy_matching_pool]; solve_clean_tx. Qed.
Lemma default_pool_fails_clean a p : fails_clean (app_set_account_default_matching_pool a p).
Proof. unfold app_set_account_default_matching_pool. solve_clean_tx. Qed.

(** The engine is updated inside the transaction, but nothing fails after that. *)
Lemma assign_fails_clean id p : fails_clean (app_assign_order_to_matching_pool id p).
Proof.
  intros w e w' H. unfold app_assign_order_to_matching_pool in H.
  unfold mbind at 1, M_bind at 1, with_tx at 1 in H.
  destruct ((ensure_pool p ≫= _) w) as [[u|e'] w1] eqn:E; [done|]. injection H as <- <-.
  split; [done|]. cbn [engine set_adb]. unfold mbind at 1, M_bind at 1 in E.
  destruct (ensure_pool p w) as [[u|e1] w2] eqn:Ep.
  2: { injection E as <- <-. assert (keeps_engine (ensure_pool p)) as Hk by (unfold ensure_pool; solve_keeps).
       specialize (Hk w). by rewrite Ep in Hk. }
  apply ensure_pool_inv in Ep as [-> Hp]. unfold mbind at 1, M_bind at 1 in E.
  destruct (update_matching_engine_after_order_assignment id p w) as [[u'|e1] w2] eqn:Eu.
  - exfalso. unfold update_matching_engine_after_order_assignment, get_matching_pool_for_order,
      get_account_id_for_order in Eu. app_inv.
    match goal with H : get_order_matchable_amount _ _ = _ |- _ => apply get_matchable_inv in H as [-> _] end.
    unfold tx, zoom in E. cbn [adb set_adb set_engine] in E. by rewrite assign_eq in E.
  - injection E as <- <-. revert Eu. unfold update_matching_engine_after_order_assignment.
    unfold mbind at 1, M_bind at 1, tx at 1, zoom at 1, get_matching_pool_for_order at 1, gets at 1.
    unfold mbind at 1, M_bind at 1, tx at 1, zoom at 1. rewrite get_order_eq, !set_adb_id.
    destruct (order_at (adb w) id) as [o|]; [|by intros [= <- <-]].
    cbn [ok_or]. unfold mbind at 1, M_bind at 1, mret at 1, M_ret at 1.
    unfold mbind at 1, M_bind at 1, tx at 1, zoom at 1.
    destruct (get_matchable_eq id (adb w)) as (m & -> & _). rewrite set_adb_id.
    unfold mbind at 1, M_bind at 1, tx at 1, zoom at 1, get_account_id_for_order, gets.
    rewrite set_adb_id. destruct (order_index (adb w) !! id); [done|by intros [= <- <-]].
Qed.
End Fails.

(** ** The reachable worlds *)

(** What the callers of a transition guarantee: amounts are machine integers; an added order
    is new; an order is removed through its account; an update keeps the pair; a destroyed
    pool is empty. *)
Definition transition_guard (t : AccountTransition) (d : AccountDb) : Prop :=
  match t with
  | AddOrderToAccount _ o _ _ => is_u128 (order_amount_in o) ∧ order_index d !! order_id o = None
  | RemoveOrderFromAccount a id => ∀ a', order_index d !! id = Some a' → a' = a
  | UpdateOrder o => is_u128 (order_amount_in o) ∧
      ∀ old, order_at d (order_id o) = Some old → order_pair old = order_pair o
  | UpdateAccountBalance _ b => is_u128 (balance_amount b)
  | RefreshAccount a rs bs => refresh_guard a rs bs d
  | DestroyMatchingPool p => ∀ id, pool_assignment d !! id ≠ Some p
  | _ => True
  end.

(** A node starts with no accounts; then transitions are applied, successfully or not, and the
    engine serves match requests. *)
Inductive reachable_world (permit_hash : PublicIntentPermit → Z) : AccountWorld → Prop :=
| reachable_world_start ex :
    reachable_world permit_hash (mkAccountWorld (empty_account_db ex) engine_new [])
| reachable_world_transition w t r w' :
    reachable_world permit_hash w → transition_guard t (adb w) →
    handle_account_transition permit_hash t w = (r, w') → reachable_world permit_hash w'
| reachable_world_match w exclude ring pair range pool ts ext r e' :
    reachable_world permit_hash w →
    find_match_helper (engine w) exclude ring pair range pool ts ext = Some (r, e') →
    reachable_world permit_hash (set_engine (λ _, e') w).

Lemma empty_account_ok ex : account_ok (empty_account_db ex).
Proof.
  split; simpl; try (by intros; rewrite lookup_empty in *).
  - intros id. by rewrite !lookup_empty.
  - apply map_Forall_empty.
  - apply map_Forall_empty.
Qed.

Lemma handle_fails_clean permit_hash t : fails_clean (handle_account_transition permit_hash t).
Proof.
  destruct t; simpl.
  - apply create_fails_clean.
  - apply add_order_fails_clean.
  - apply remove_order_fails_clean.
  - apply update_order_fails_clean.
  - apply update_balance_fails_clean.
  - apply update_keychain_fails_clean.
  - apply refresh_fails_clean.
  - apply validity_fails_clean.
  - apply merkle_fails_clean.
  - apply pools_fail_clean.
  - apply pools_fail_clean.
  - apply assign_fails_clean.
  - apply default_pool_fails_clean.
Qed.

Lemma handle_ok permit_hash t w r w' :
  world_ok w → transition_guard t (adb w) →
  handle_account_transition permit_hash t w = (Ok r, w') → world_ok w'.
Proof.
  intros Hw Hg H. destruct t; simpl in *.
  - by eapply create_account_ok.
  - destruct Hg. by eapply add_order_world_ok.
  - by eapply remove_order_world_ok.
  - destruct Hg. by eapply update_order_world_ok.
  - by eapply update_balance_ok.
  - by eapply update_keychain_ok.
  - by eapply refresh_ok.
  - by eapply add_validity_proof_ok.
  - by eapply add_merkle_proof_ok.
  - by eapply create_pool_ok.
  - by eapply destroy_pool_ok.
  - by eapply assign_ok.
  - by eapply set_default_pool_ok.
Qed.

Lemma reachable_world_ok permit_hash w : reachable_world permit_hash w → world_ok w.
Proof.
  induction 1 as [ex|w t r w' _ IH Hg H|w exclude ring pair range pool ts ext r e' _ IH Hf].
  - split; [apply empty_account_ok|]. split_and!; simpl.
    + apply (engine_new_coherent (λ _, GLOBAL_MATCHING_POOL)).
    + intros pair pool id bo. unfold pool_order. simpl. by rewrite lookup_empty.
    + intros pair id bo. unfold all_order. simpl. by rewrite lookup_empty.
  - destruct r as [r|e]; [by eapply handle_ok|].
    destruct (handle_fails_clean _ _ _ _ _ H) as [Ed Ee]. unfold world_ok. by rewrite Ed, Ee.
  - by eapply find_match_world_ok.
Qed.

(** ** Reading an account back *)

(** Filling a container from a list whose elements are the entries of a table gives the table. *)
Lemma foldl_table {K A C} `{EqDecision K} (look : C → K → option A) (ins : A → C → C) (key : A → K)
    (f : K → option A) (l : list A) (m : C) :
  (∀ o m i, look (ins o m) i = if decide (key o = i) then Some o else look m i) →
  (∀ o, o ∈ l → f (key o) = Some o) →
  (∀ i o, f i = Some o → o ∈ l ∨ look m i = Some o) → (∀ i o, look m i = Some o → f i = Some o) →
  (∀ i o, f i = Some o → key o = i) →
  ∀ i, look (foldl (λ m o, ins o m) m l) i = f i.
Proof.
  intros Hins. revert m. induction l as [|o l IH]; intros m Hl Hf Hm Hk i; simpl.
  - destruct (f i) as [o|] eqn:E; [destruct (Hf _ _ E) as [H%not_elem_of_nil|]; done|].
    destruct (look m i) eqn:E'; [|done]. apply Hm in E'. congruence.
  - apply IH; [set_solver| | |done].
    + intros j o' Hj. rewrite Hins. destruct (Hf _ _ Hj) as [[->|?]%elem_of_cons|Hlook]; [|by left|].
      * right. by rewrite decide_True by (by apply Hk).
      * case_decide as E; [|by right]. right. subst. rewrite <-Hj. symmetry. apply Hl. set_solver.
    + intros j o'. rewrite Hins. case_decide as E; [|apply Hm]. intros [= <-]. subst. apply Hl. set_solver.
Qed.

Lemma insert_balance_lookup b m i :
  (insert_balance b m !! i.1 ≫= λ locs, locs !! i.2) =
  if decide ((balance_mint b, location b) = i) then Some b else m !! i.1 ≫= λ locs, locs !! i.2.
Proof.
  destruct i as [mint l]. unfold insert_balance. simpl.
  destruct (decide (balance_mint b = mint)) as [<-|Hne].
  - rewrite lookup_insert_eq. simpl. destruct (decide (location b = l)) as [<-|Hl].
    + by rewrite lookup_insert_eq, decide_True.
    + rewrite lookup_insert_ne, decide_False by congruence. by destruct (m !! balance_mint b).
  - by rewrite lookup_insert_ne, decide_False by congruence.
Qed.

Lemma get_account_spec d a h :
  account_ok d → headers d !! a = Some h →
  ∃ acc, get_account a d = (Ok (Some acc), d) ∧ account_id acc = a ∧
    keychain acc = header_keychain h ∧ default_matching_pool acc = default_pools d !! a ∧
    (∀ id, account_get_order acc id = db_orders d !! (a, id)) ∧
    (∀ m l, account_get_balance acc m l = db_balances d !! (a, m, l)).
Proof.
  intros Hok Hh. eexists. split.
  { unfold get_account. erewrite bind_Ok by reflexivity. cbv beta. rewrite Hh.
    erewrite bind_Ok by reflexivity. erewrite bind_Ok by reflexivity.
    erewrite bind_Ok by reflexivity. reflexivity. }
  split_and!; [by apply (ao_header _ Hok)|done|done| |].
  - intros id. unfold account_get_order. simpl.
    apply (foldl_table (λ m i, m !! i) (λ o m, <[order_id o := o]> m) order_id
      (λ id, db_orders d !! (a, id))).
    + intros o m i. case_decide; [subst; by rewrite lookup_insert_eq|by rewrite lookup_insert_ne].
    + intros o Ho. by apply (elem_of_fetched d a o _ d Hok eq_refl).
    + intros i o Ho. left. apply (elem_of_fetched d a o _ d Hok eq_refl).
      by rewrite (ao_id _ Hok _ _ _ Ho).
    + intros i o. by rewrite lookup_empty.
    + intros i o. by apply (ao_id _ Hok).
  - intros m l. unfold account_get_balance. cbn [balances set_default_pool account_new].
    apply (foldl_table (λ m i, m !! i.1 ≫= λ locs, locs !! i.2) insert_balance
      (λ b, (balance_mint b, location b)) (λ i, db_balances d !! (a, i.1, i.2)) _ ∅) with (i := (m, l)).
    + intros b m' i. apply insert_balance_lookup.
    + intros b ([[[a' m'] l'] b'] & -> & Hb)%list_elem_of_fmap.
      apply elem_of_map_to_list, map_lookup_filter_Some in Hb as [Hb Ha]. simpl in *. subst.
      by destruct (ao_balance _ Hok _ _ _ _ Hb) as [-> ->].
    + intros [m' l'] b Hb. left. apply list_elem_of_fmap. exists ((a, m', l'), b). split; [done|].
      by apply elem_of_map_to_list, map_lookup_filter_Some.
    + intros [m' l'] b. simpl. by rewrite lookup_empty.
    + intros [m' l'] b Hb. by destruct (ao_balance _ Hok _ _ _ _ Hb) as [-> ->].
Qed.

(** The matchable amount as storage computes it. *)
Lemma get_matchable_owned d a id o :
  account_ok d → db_orders d !! (a, id) = Some o →
  get_order_matchable_amount id d = (Ok (Some (matchable d id)), d).
Proof.
  intros Hok Ho. assert (order_index d !! id = Some a) as Hi by (apply (ao_index _ Hok); by eexists).
  unfold get_order_matchable_amount, get_account_id_for_order, matchable, capacity.
  unfold mbind at 1, M_bind at 1, gets at 1. rewrite Hi.
  unfold mbind at 1, M_bind at 1. rewrite get_order_eq. unfold order_at. rewrite Hi. simpl. rewrite Ho.
  unfold get_balance, gets, mbind, M_bind. by destruct (db_balances d !! (a, _, _)).
Qed.
