(* ===== verification/AccountCorrect.v ===== *)
(** * Theorems about the account applicator

    What the invariants of [AccountInvariant] and [AccountProperties] give for the reachable
    worlds: soundness of what the matching engine offers, atomicity of failing transitions,
    the effect of balance updates, fills and refreshes, the account that the normalised
    storage represents, and what pool assignments and removals leave behind. *)
From S2P Require Import Prelude Scalar FixedPoint DarkpoolTypes StateWrapper AccountTypes Book.
From S2P Require Import Engine.
From S2P Require Import TaskStorage TaskApplicator AccountStorage AccountApplicator.
From S2P Require Import AccountInvariant.
From S2P Require Import AccountProperties.
Local Open Scope Z_scope.

(** ** A small run *)

(** The hash of the run: any function of the permit will do. *)
Definition sample_hash (p : PublicIntentPermit) : Z := amount_in (permit_intent p).
Definition sample_keychain : KeyChain :=
  mkKeyChain (mkPrivateKeyChain [] 1 (csprng_new 1) (csprng_new 2))
    (mkSchnorrPublicKey (mkPoint 0 1)).
Definition sample_balance (a : Amount) : Balance :=
  mkBalance (mkStateWrapper (csprng_new 1) (csprng_new 2)
    (mkDarkpoolBalance 1 3 0 (mkSchnorrPublicKey (mkPoint 0 1)) 0 0 a)
    (mkDarkpoolBalanceShare 0 0 0 (mkSchnorrPublicKey (mkPoint 0 1)) 0 0 0)) EOA.
Definition sample_public_order (a : Amount) (filled : bool) : Order :=
  mkOrder 1 (mkStateWrapper (csprng_new 1) (csprng_new 2) (mkIntent 1 2 3 one a)
    (mkIntentShare 1 2 3 one a)) Ring0 (mkOrderMetadata 0 true filled).
Definition sample_permit (a : Amount) : PublicIntentPermit :=
  mkPublicIntentPermit (inner (order_intent (sample_public_order a false))) 9.
Definition sample_auth (a : Amount) : OrderAuth :=
  PublicOrder (sample_permit a) (mkSignatureWithNonce 0 []).

Fixpoint apply_all (ts : list AccountTransition) (w : AccountWorld) : AccountWorld :=
  match ts with
  | [] => w
  | t :: ts' => apply_all ts' (handle_account_transition sample_hash t w).2
  end.
Fixpoint guards_hold (ts : list AccountTransition) (w : AccountWorld) : Prop :=
  match ts with
  | [] => True
  | t :: ts' => transition_guard t (adb w) ∧
      guards_hold ts' (handle_account_transition sample_hash t w).2
  end.

Lemma apply_all_reachable ts w :
  reachable_world sample_hash w → guards_hold ts w → reachable_world sample_hash (apply_all ts w).
Proof.
  revert w. induction ts as [|t ts IH]; intros w Hw Hg; [done|]. destruct Hg as [Ht Hg].
  apply IH; [|done]. destruct (handle_account_transition sample_hash t w) as [r w'] eqn:E.
  by eapply reachable_world_transition.
Qed.

Definition sample_start : AccountWorld := mkAccountWorld (empty_account_db (Some 9)) engine_new [].
(** An account with a balance of 50 and an order for 10 in the global pool. *)
Definition sample_setup : list AccountTransition :=
  [CreateAccount (new_empty_account 7 sample_keychain); UpdateAccountBalance 7 (sample_balance 50);
   AddOrderToAccount 7 (sample_public_order 10 false) (sample_auth 10) GLOBAL_MATCHING_POOL].
Definition sample_world : AccountWorld := apply_all sample_setup sample_start.
(** ... of which 6 have been filled. *)
Definition sample_filled_world : AccountWorld :=
  apply_all (sample_setup ++ [UpdateOrder (sample_public_order 4 true)]) sample_start.

Lemma sample_world_reachable : reachable_world sample_hash sample_world.
Proof.
  apply apply_all_reachable; [constructor|]. split_and!; try exact I; by vm_compute.
Qed.
Lemma sample_filled_world_reachable : reachable_world sample_hash sample_filled_world.
Proof.
  apply apply_all_reachable; [constructor|]. cbn [sample_setup app guards_hold transition_guard].
  split_and!; try exact I; [by vm_compute..|]. intros old. vm_compute. by intros [= <-].
Qed.

(** ** What the engine offers *)

(** The order behind an entry of a book. *)
Lemma listed_order d e pair pool id bo :
  account_ok d → engine_sound d e →
  (pool_order e pair pool id = Some bo ∨ (all_order e pair id = Some bo ∧ pool = pool_at d id)) →
  ∃ a o m, get_account_id_for_order id d = (Ok (Some a), d) ∧
    is_Some (headers d !! a) ∧ is_Some (order_auths d !! id) ∧
    get_order id d = (Ok (Some o), d) ∧ order_pair o = pair ∧
    get_matching_pool_for_order id d = (Ok pool, d) ∧
    get_order_matchable_amount id d = (Ok (Some m), d) ∧ bo_matchable_amount bo ≤ m.
Proof.
  intros Hok (_ & Hp & Ha) Hbo.
  assert (place d id = Some (pair, pool) ∧ bo_matchable_amount bo ≤ matchable d id) as [Hpl Hle].
  { destruct Hbo as [Hbo|[Hbo ->]].
    - destruct (Hp _ _ _ _ Hbo) as [? Hb]. split; [done|by apply Hb].
    - destruct (Ha _ _ _ Hbo) as [[p Hpl] Hb]. split; [|by apply Hb]. rewrite Hpl.
      unfold place in Hpl. destruct (order_at d id); naive_solver. }
  unfold place in Hpl. destruct (order_at d id) as [o|] eqn:Ho; [|done]. injection Hpl as <- <-.
  destruct (order_at_Some _ _ _ Hok Ho) as (a & Hi & Hdo & Hid).
  exists a, o, (matchable d id). split_and!.
  - unfold get_account_id_for_order, gets. by rewrite Hi.
  - by eapply ao_account.
  - apply (ao_auth _ Hok). by eexists.
  - by rewrite get_order_eq, Ho.
  - done.
  - done.
  - by eapply get_matchable_owned.
  - done.
Qed.



(** C25: a transition that fails, in any world whatever, leaves both the tables and the
    in-memory matching engine as they were, although the engine is not part of the
    transaction that is rolled back. *)
Theorem failed_transition_atomic (permit_hash : PublicIntentPermit → Z) (t : AccountTransition)
    (w : AccountWorld) :
  match handle_account_transition permit_hash t w with
  | (Err _, w') => adb w' = adb w ∧ engine w' = engine w
  | (Ok _, _) => True
  end.
Proof.
  destruct (handle_account_transition permit_hash t w) as [[r|e] w'] eqn:E; [done|].
  by eapply handle_fails_clean.
Qed.

(** ** Balance updates *)

Lemma engine_sync_local a o m p e :
  engine_ok e → engine_ok (engine_sync a o m p e) ∧
  local_update e (engine_sync a o m p e) (order_pair o) p (order_id o)
    (λ _, if 0 <? m then Some (book_order_new a o m) else None).
Proof.
  intros He. unfold engine_sync. destruct (0 <? m); [by apply upsert_order_local|by apply cancel_order_local].
Qed.

(** Orders that are not listed keep their entries; listed ones get their matchable amount. *)
Lemma sync_all_spec a d ids e :
  account_ok d → engine_ok e →
  (∀ pair pool id, id ∉ ids →
    pool_order (sync_all a d ids e) pair pool id = pool_order e pair pool id) ∧
  (∀ id o, id ∈ ids → order_at d id = Some o →
    pool_order (sync_all a d ids e) (order_pair o) (pool_at d id) id =
    if 0 <? matchable d id then Some (book_order_new a o (matchable d id)) else None).
Proof.
  intros Hok. revert e. induction ids as [|i ids IH]; intros e He; [split; [done|set_solver]|].
  cbn [sync_all foldl]. destruct (order_at d i) as [oi|] eqn:Ei.
  - destruct (order_at_Some _ _ _ Hok Ei) as (_ & _ & _ & Hid).
    destruct (engine_sync_local a oi (matchable d i) (pool_at d i) e He) as [He' (L1 & _ & L3 & _)].
    destruct (IH _ He') as [I1 I2]. rewrite Hid in *. split.
    + intros pair pool id [Hne Hni]%not_elem_of_cons. etransitivity; [by apply I1|]. apply L3. congruence.
    + intros id o Hin Ho. destruct (decide (id ∈ ids)) as [?|Hni]; [by apply I2|].
      apply elem_of_cons in Hin as [->|]; [|done]. simplify_eq. etransitivity; [by apply I1|exact L1].
  - destruct (IH _ He) as [I1 I2]. split.
    + intros pair pool id [Hne Hni]%not_elem_of_cons. by apply I1.
    + intros id o [->|Hin]%elem_of_cons Ho; [congruence|by apply I2].
Qed.

Lemma update_balance_runs a b w :
  is_Some (headers (adb w) !! a) → ∃ w', update_account_balance a b w = (Ok RetNone, w').
Proof.
  intros [h Hh]. unfold update_account_balance.
  erewrite bind_Ok.
  2: { unfold with_tx. erewrite bind_Ok; [reflexivity|]. unfold ensure_account.
       erewrite bind_Ok by reflexivity. rewrite set_adb_id.
       rewrite bool_decide_true by (by eexists). reflexivity. }
  erewrite bind_Ok.
  2: { unfold update_matchable_amounts. erewrite bind_Ok by reflexivity. apply sync_loop_eq. }
  erewrite bind_Ok by reflexivity. by eexists.
Qed.

(** C27: a balance update of a known account succeeds and brings the engine in line with the
    new balance at once: every order of the account that sells the token is listed in its
    pool's book with exactly its matchable amount, and is unlisted when that is zero; all
    other orders keep their entries. *)
Theorem balance_update_syncs_engine (permit_hash : PublicIntentPermit → Z) (w : AccountWorld)
    (a : AccountId) (b : Balance) :
  reachable_world permit_hash w → is_u128 (balance_amount b) → is_Some (headers (adb w) !! a) →
  ∃ w', update_account_balance a b w = (Ok RetNone, w') ∧
    db_balances (adb w') = <[(a, balance_mint b, location b) := b]> (db_balances (adb w)) ∧
    db_orders (adb w') = db_orders (adb w) ∧
    (∀ id o, db_orders (adb w) !! (a, id) = Some o → order_input_token o = balance_mint b →
      ∃ m, get_order_matchable_amount id (adb w') = (Ok (Some m), adb w') ∧
        pool_order (engine w') (order_pair o) (pool_at (adb w) id) id =
        if 0 <? m then Some (book_order_new a o m) else None) ∧
    (∀ pair pool id,
      (∀ o, db_orders (adb w) !! (a, id) = Some o → order_input_token o ≠ balance_mint b) →
      pool_order (engine w') pair pool id = pool_order (engine w) pair pool id).
Proof.
  intros Hw Hb Ha. destruct (reachable_world_ok _ _ Hw) as [Hok Hs].
  destruct (update_balance_runs a b w Ha) as [w' Hrun]. exists w'. split; [done|].
  destruct (update_balance_effect _ _ _ _ _ Hrun) as (_ & Ed & ids & Hids & Ee).
  rewrite Ed, Ee. split; [done|]. split; [done|]. set (d := put_balance a b (adb w)) in *.
  assert (account_ok d) as Hokd by (by apply balance_put_ok).
  destruct (sync_all_spec a d ids (engine w) Hokd (proj1 Hs)) as [I1 I2]. split.
  - intros id o Ho Ht. exists (matchable d id).
    split; [by eapply (get_matchable_owned d a id o)|].
    apply I2; [apply (elem_of_with_input_token _ _ _ _ _ _ Hokd Hids); by exists o|].
    unfold order_at. assert (order_index d !! id = Some a) as -> by (apply (ao_index _ Hokd); by eexists). done.
  - intros pair pool id Hno. apply I1. rewrite (elem_of_with_input_token _ _ _ _ _ _ Hokd Hids).
    intros (o & Ho & Ht). by apply (Hno o).
Qed.

Lemma balance_update_syncs_engine_witness :
  ∃ w', update_account_balance 7 (sample_balance 3) sample_world = (Ok RetNone, w') ∧
    db_orders (adb w') = db_orders (adb sample_world).
Proof.
  destruct (balance_update_syncs_engine sample_hash sample_world 7 (sample_balance 3)
    sample_world_reachable) as (w' & H1 & _ & H2 & _).
  - by vm_compute.
  - vm_compute. by eexists.
  - exists w'. exact (conj H1 H2).
Defined.

(** ** Reading an account back *)

(** The normalised tables represent the account they are read back as: [get_account]
    returns an account with exactly the stored orders, balances, keychain and default pool,
    and the matchable amount the account computes for each of its orders is the one storage
    computes without rebuilding the account. *)
Theorem get_account_represents (permit_hash : PublicIntentPermit → Z) (w : AccountWorld)
    (a : AccountId) (h : AccountHeader) :
  reachable_world permit_hash w → headers (adb w) !! a = Some h →
  ∃ acc, get_account a (adb w) = (Ok (Some acc), adb w) ∧ account_id acc = a ∧
    keychain acc = header_keychain h ∧ default_matching_pool acc = default_pools (adb w) !! a ∧
    (∀ id, account_get_order acc id = db_orders (adb w) !! (a, id)) ∧
    (∀ m l, account_get_balance acc m l = db_balances (adb w) !! (a, m, l)) ∧
    (∀ id o, account_get_order acc id = Some o →
      get_order_matchable_amount id (adb w) =
        (Ok (Some (get_matchable_amount_for_order acc o)), adb w)).
Proof.
  intros Hw Hh. destruct (reachable_world_ok _ _ Hw) as [Hok _].
  destruct (get_account_spec (adb w) a h Hok Hh) as (acc & H1 & H2 & H3 & H4 & H5 & H6).
  exists acc. split_and!; [done..|]. intros id o. rewrite H5. intros Ho.
  rewrite (get_matchable_owned _ _ _ _ Hok Ho). f_equal. f_equal. f_equal.
  assert (order_index (adb w) !! id = Some a) as Hi by (apply (ao_index _ Hok); by eexists).
  unfold matchable, capacity, get_matchable_amount_for_order. rewrite Hi, Ho, H6.
  destruct (db_balances (adb w) !! _); simpl; [done|].
  destruct (ao_order_amount _ Hok _ _ Ho). lia.
Qed.

Lemma get_account_represents_witness :
  ∃ acc, get_account 7 (adb sample_world) = (Ok (Some acc), adb sample_world) ∧ account_id acc = 7.
Proof.
  destruct (get_account_represents sample_hash sample_world 7 (mkAccountHeader 7 sample_keychain)
    sample_world_reachable) as (acc & H1 & H2 & _); [vm_compute; reflexivity|].
  exists acc. exact (conj H1 H2).
Defined.

(** ** Refreshes and fills *)


(** The indexer still reports the amount before the fill. *)
Definition sample_refresh : list OrderRefreshData :=
  [mkOrderRefreshData (sample_public_order 10 true) GLOBAL_MATCHING_POOL (sample_auth 10)].


Lemma for_each_deletes l (keys : list string) d :
  ∃ m, for_each keys (λ prefix, modify (set_validity_proofs (delete (prefix, l)))) d =
    ((Ok tt : result StorageError unit), set_validity_proofs (λ _, m) d) ∧
    ∀ k, m !! k = if decide (k.2 = l ∧ k.1 ∈ keys) then None else validity_proofs d !! k.
Proof.
  revert d. induction keys as [|k keys IH]; intros d.
  - exists (validity_proofs d). split; [by destruct d|]. intros [k' l']. by rewrite decide_False by set_solver.
  - cbn [for_each]. erewrite bind_Ok by reflexivity.
    destruct (IH (set_validity_proofs (delete (k, l)) d)) as (m & -> & Hm). exists m. split; [done|].
    intros [k' l']. rewrite Hm. simpl. destruct (decide (k' = k ∧ l' = l)) as [[-> ->]|Hne].
    + rewrite lookup_delete_eq, (decide_True (P := l = l ∧ k ∈ k :: keys)) by set_solver. by case_decide.
    + rewrite lookup_delete_ne by naive_solver. repeat case_decide; set_solver.
Qed.

Lemma delete_all_proofs_eq l d :
  ∃ m, delete_all_validity_proofs l d = (Ok tt, set_validity_proofs (λ _, m) d) ∧
    ∀ k, k ∈ ALL_VALIDITY_PROOF_KEYS ++ ALL_VALIDITY_WITNESS_KEYS → m !! (k, l) = None.
Proof.
  unfold delete_all_validity_proofs.
  destruct (for_each_deletes l ALL_VALIDITY_PROOF_KEYS d) as (m1 & H1 & E1).
  erewrite bind_Ok by exact H1.
  destruct (for_each_deletes l ALL_VALIDITY_WITNESS_KEYS (set_validity_proofs (λ _, m1) d)) as (m2 & H2 & E2).
  exists m2. split; [exact H2|]. intros k Hk%elem_of_app. rewrite E2. simpl. rewrite E1. simpl.
  repeat case_decide; [done|done|]. naive_solver.
Qed.

Lemma remove_order_runs permit_hash a id w o x :
  account_ok (adb w) → order_index (adb w) !! id = Some a → order_at (adb w) id = Some o →
  executor (adb w) = Some x →
  ∃ w', remove_order_from_account permit_hash a id w = (Ok RetNone, w') ∧
    (∀ m, m ∈ bus w → m ∈ bus w') ∧
    (∀ k, k ∈ ALL_VALIDITY_PROOF_KEYS ++ ALL_VALIDITY_WITNESS_KEYS →
      validity_proofs (adb w') !! (k, LocatorIntent id) = None) ∧
    intent_index (adb w') =
      delete (permit_hash (mkPublicIntentPermit (inner (order_intent o)) x)) (intent_index (adb w)).
Proof.
  intros Hok Hi Ho Hx. destruct (ao_account _ Hok _ _ Hi) as [h Hh].
  unfold remove_order_from_account.
  match goal with |- context [with_tx adb set_adb ?m] =>
    assert (∃ b w1, m w = (Ok (o, pool_at (adb w) id, b), w1) ∧ bus w1 = bus w ∧
      (∀ k, k ∈ ALL_VALIDITY_PROOF_KEYS ++ ALL_VALIDITY_WITNESS_KEYS →
        validity_proofs (adb w1) !! (k, LocatorIntent id) = None) ∧
      intent_index (adb w1) = delete (permit_hash (mkPublicIntentPermit (inner (order_intent o)) x))
        (intent_index (adb w))) as (b & w1 & Hm & Hb & Hp & Hint) end.
  { erewrite bind_Ok.
    2: { unfold ensure_account. erewrite bind_Ok by reflexivity. rewrite set_adb_id.
         rewrite bool_decide_true by (by eexists). reflexivity. }
    erewrite bind_Ok by (unfold tx, zoom; rewrite get_order_eq; reflexivity).
    rewrite set_adb_id, Ho. erewrite bind_Ok by reflexivity. erewrite bind_Ok by reflexivity.
    rewrite set_adb_id.
    erewrite bind_Ok by (unfold tx, zoom, get_executor_address; erewrite bind_Ok by reflexivity;
      rewrite Hx; reflexivity).
    rewrite set_adb_id. cbv zeta. erewrite bind_Ok by reflexivity. erewrite bind_Ok by reflexivity.
    match goal with |- context [(tx (delete_all_validity_proofs _) ≫= _) ?w0] =>
      destruct (delete_all_proofs_eq (LocatorIntent id) (adb w0)) as (pm & Hdel & Hpm) end.
    erewrite bind_Ok by (unfold tx, zoom; rewrite Hdel; reflexivity).
    erewrite bind_Ok by reflexivity.
    case_bool_decide; (erewrite bind_Ok by reflexivity; eexists _, _; split_and!; [reflexivity|done|exact Hpm|done]). }
  erewrite bind_Ok by (unfold with_tx; rewrite Hm; reflexivity). cbv beta iota.
  destruct b; (eexists; split; [reflexivity|]); simpl;
    (split; [intros m Hin; rewrite !elem_of_cons, Hb; tauto|done]).
Qed.



(** ** What assignments and removals leave behind *)


(** Removing a public order recomputes the hash of its permit from the current intent.
    After a partial fill that is no longer the hash the order was indexed under, so, for any
    hash that tells the two permits apart, the removal succeeds and leaves the order's hash
    pointing at an order that no longer exists. *)
Theorem partial_fill_leaks_intent (permit_hash : PublicIntentPermit → Z) (w : AccountWorld)
    (a : AccountId) (o : Order) (x : Address) (permit : PublicIntentPermit) :
  reachable_world permit_hash w → db_orders (adb w) !! (a, order_id o) = Some o →
  executor (adb w) = Some x →
  get_order_by_intent_hash (permit_hash permit) (adb w) = (Ok (Some (a, order_id o)), adb w) →
  permit_hash permit ≠ permit_hash (mkPublicIntentPermit (inner (order_intent o)) x) →
  ∃ w', remove_order_from_account permit_hash a (order_id o) w = (Ok RetNone, w') ∧
    get_order (order_id o) (adb w') = (Ok None, adb w') ∧
    get_order_by_intent_hash (permit_hash permit) (adb w') = (Ok (Some (a, order_id o)), adb w').
Proof.
  intros Hw Ho Hx Hidx Hne. destruct (reachable_world_ok _ _ Hw) as [Hok Hs].
  assert (order_index (adb w) !! order_id o = Some a) as Hi by (apply (ao_index _ Hok); by eexists).
  destruct (remove_order_runs permit_hash a (order_id o) w o x) as (w' & Hrun & _ & _ & Hint);
    [done|done|unfold order_at; by rewrite Hi|done|].
  exists w'. split; [done|]. destruct (remove_order_effect _ _ _ _ _ _ Hrun) as (o' & _ & _ & Hcore & _).
  destruct (core_lookups _ _ Hcore) as (Eo & _). split.
  - rewrite get_order_eq, Eo, order_at_drop, decide_True by done. done.
  - unfold get_order_by_intent_hash, gets in *. rewrite Hint, lookup_delete_ne by done.
    by injection Hidx as ->.
Qed.

Lemma partial_fill_leaks_intent_witness :
  ∃ w', remove_order_from_account sample_hash 7 1 sample_filled_world = (Ok RetNone, w') ∧
    get_order 1 (adb w') = (Ok None, adb w') ∧
    get_order_by_intent_hash (sample_hash (sample_permit 10)) (adb w') = (Ok (Some (7, 1)), adb w').
Proof.
  destruct (partial_fill_leaks_intent sample_hash sample_filled_world 7 (sample_public_order 4 true) 9
    (sample_permit 10) sample_filled_world_reachable) as (w' & H1 & H2 & H3).
  - vm_compute. reflexivity.
  - vm_compute. reflexivity.
  - vm_compute. reflexivity.
  - vm_compute. discriminate.
  - exists w'. exact (conj H1 (conj H2 H3)).
Defined.
