(* ===== verification/TaskProofs.v ===== *)
(** * Statements and witnesses of the relayer's tasks

    src/crates/workers/task-driver/src/tasks: the part of the tasks that computes what is
    proved.  For a task, the relayer takes its own copy of an intent or a balance, updates
    it as the contract will, and asks the proof manager for a proof about the old and the
    new version:
    - create_balance.rs, deposit.rs and withdraw.rs: the balance circuits;
    - validity_proofs/{intent_only,intent_and_balance,output_balance}.rs: the validity
      circuits, for the first and for later fills;
    - settlement/helpers/{ring1,ring2,ring3}.rs: the settlement circuits, and the versions
      of intents and balances after the settlement.

    A statement or witness is given by the scalars that it is serialized to, which is what
    the prover allocates.  [None] is a panic of the native code. *)
From S2P Require Import Prelude Scalar FixedPoint BaseType CircuitTypes Merkle StateGadgets.
From S2P Require Import ProverCircuit BalanceCircuits ValidityCircuits SettlementCircuits NativeAgreement.
From S2P Require Import DarkpoolTypes StateWrapper AccountTypes ValidityBundles AccountStorage.
Local Open Scope Z_scope.

(** ** Native values *)

Record Deposit := mkDeposit {
  deposit_from : Address;
  deposit_token : Address;
  deposit_amount : Amount;
}.
Definition deposit_values (d : Deposit) : DepositVar Scalar :=
  mkDepositVar (address_to_scalar (deposit_from d)) (address_to_scalar (deposit_token d))
    (scalar_from (deposit_amount d)).

Record Withdrawal := mkWithdrawal {
  withdrawal_to : Address;
  withdrawal_token : Address;
  withdrawal_amount : Amount;
}.
Definition withdrawal_values (d : Withdrawal) : WithdrawalVar Scalar :=
  mkWithdrawalVar (address_to_scalar (withdrawal_to d)) (address_to_scalar (withdrawal_token d))
    (scalar_from (withdrawal_amount d)).

Definition signature_values (s : SchnorrSignature) : SchnorrSignatureVar Scalar :=
  mkSignatureVar (sig_s s) (mkPointVar (point_x (sig_r s)) (point_y (sig_r s))).

(** The arrays of a [MerkleOpening<MERKLE_HEIGHT>]; a boolean is the scalar 0 or 1. *)
Definition opening_values (o : MerkleOpening) : MerkleOpeningVar MERKLE_HEIGHT Scalar :=
  mkOpeningVar (fun_to_vec (λ i, default 0 (elems o !! fin_to_nat i)))
    (fun_to_vec (λ i, if default false (indices o !! fin_to_nat i) then 1 else 0)).
Definition path_values (p : MerkleAuthenticationPath) : MerkleOpeningVar MERKLE_HEIGHT Scalar :=
  opening_values (opening_from_path p).

Definition partial_scalars (c : PartialCommitment) : PartialCommitmentVar Scalar :=
  mkPartialCommitmentVar (private_commitment c) (partial_public_commitment c).

(** ** New balances (create_balance.rs) *)

Definition create_darkpool_balance (token from_address fee_addr : Address)
    (auth : SchnorrPublicKey) (amt : Amount) (share_stream_seed recovery_stream_seed : Scalar)
    : option Balance :=
  let bal_inner :=
    DarkpoolTypes.with_amount (balance_new token from_address fee_addr auth) amt in
  wrapper ← state_wrapper_new bal_inner share_stream_seed recovery_stream_seed;
  Some (mkBalance wrapper Darkpool).

(** The recovery stream is sampled before the share stream. *)
Definition create_balance_and_update_keychain (k : PrivateKeyChain)
    (token from_address fee_addr : Address) (auth : SchnorrPublicKey) (amt : Amount)
    : option (Balance * PrivateKeyChain) :=
  let '(recovery_id_stream, k) := keychain_sample_recovery_id_stream k in
  let '(share_stream, k) := keychain_sample_share_stream k in
  balance ← create_darkpool_balance token from_address fee_addr auth amt (seed share_stream)
    (seed recovery_id_stream);
  Some (balance, k).

(** The balance is mutated: its recovery stream advances. *)
Definition get_balance_create_witness_statement (deposit : Deposit) (bal : Balance)
    : option (ValidBalanceCreateWitness Scalar * ValidBalanceCreateStatement Scalar * Balance) :=
  let w := state_wrapper bal in
  let witness := mkBalanceCreateWitness (csprng_values (get_original_share_stream w))
    (csprng_values (get_original_recovery_stream w)) (balance_values (inner w)) in
  let '(recovery_id, w) := compute_recovery_id w in
  balance_commitment ← compute_commitment w;
  let statement := mkBalanceCreateStatement (deposit_values deposit) balance_commitment
    recovery_id (balance_share_values (public_share w)) in
  Some (witness, statement, mkBalance w (location bal)).

(** ** Deposits and withdrawals (deposit.rs, withdraw.rs) *)

Definition get_valid_deposit_witness_statement (deposit : Deposit) (balance : Balance)
    (balance_opening : MerkleAuthenticationPath)
    : option (ValidDepositWitness MERKLE_HEIGHT Scalar * ValidDepositStatement Scalar * Balance) :=
  let old_balance := state_wrapper balance in
  let merkle_root := compute_root balance_opening in
  let old_balance_nullifier := compute_nullifier old_balance in
  let balance :=
    set_balance_amount (u128_add (balance_amount balance) (deposit_amount deposit)) balance in
  '(new_amount_share, w) ← reencrypt_amount_share (state_wrapper balance);
  let '(recovery_id, w) := compute_recovery_id w in
  new_balance_commitment ← compute_commitment w;
  let witness := mkDepositWitness (wrapper_values old_balance) (path_values balance_opening) in
  let statement := mkDepositStatement (deposit_values deposit) merkle_root old_balance_nullifier
    new_balance_commitment recovery_id new_amount_share in
  Some (witness, statement, mkBalance w (location balance)).

Definition build_withdrawal (amt : Amount) (bal : Balance) : Withdrawal :=
  mkWithdrawal (balance_owner bal) (balance_mint bal) amt.

Definition get_withdrawal_witness_statement (amt : Amount) (balance : Balance)
    (balance_opening : MerkleAuthenticationPath)
    : option (ValidWithdrawalWitness MERKLE_HEIGHT Scalar * ValidWithdrawalStatement Scalar *
              Balance) :=
  let old_balance := state_wrapper balance in
  let root := compute_root balance_opening in
  let nullifier := compute_nullifier old_balance in
  let balance := balance_withdraw balance amt in
  '(new_amount_share, w) ← reencrypt_amount_share (state_wrapper balance);
  let '(recovery_id, w) := compute_recovery_id w in
  new_balance_commitment ← compute_commitment w;
  let witness := mkWithdrawalWitness (wrapper_values old_balance) (path_values balance_opening) in
  let balance := mkBalance w (location balance) in
  let statement := mkWithdrawalStatement (withdrawal_values (build_withdrawal amt balance)) root
    nullifier new_balance_commitment recovery_id new_amount_share in
  Some (witness, statement, balance).

(** ** Validity of an intent alone (validity_proofs/intent_only.rs) *)

Definition generate_intent_only_first_fill_witness_statement (initial_intent : StateIntent)
    : option (IntentOnlyFirstFillValidityWitness Scalar *
              IntentOnlyFirstFillValidityStatement Scalar) :=
  let '(recovery_id, intent_clone) := compute_recovery_id initial_intent in
  intent_private_commitment ← compute_private_commitment intent_clone;
  private_shares ← private_shares initial_intent;
  let witness := mkIntentOnlyFirstFillWitness (intent_values (inner initial_intent))
    (csprng_values (share_stream initial_intent)) (csprng_values (recovery_stream initial_intent))
    (intent_share_values private_shares) in
  let statement := mkIntentOnlyFirstFillStatement
    (address_to_scalar (intent_owner (inner initial_intent))) intent_private_commitment recovery_id
    (intent_share_values (public_share initial_intent)) in
  Some (witness, statement).

Definition generate_intent_only_subsequent_fill_witness_statement (old_intent : StateIntent)
    (merkle_proof : MerkleAuthenticationPath)
    : option (IntentOnlyValidityWitness MERKLE_HEIGHT Scalar *
              IntentOnlyValidityStatement Scalar) :=
  let merkle_root := compute_root merkle_proof in
  let old_intent_nullifier := compute_nullifier old_intent in
  let new_amount := amount_in (inner old_intent) in
  '(new_amount_public_share, new_intent) ← stream_cipher_encrypt (V:=Amount) old_intent new_amount;
  let new_intent := set_public_share
    (set_amount_in_share new_amount_public_share (public_share new_intent)) new_intent in
  let '(recovery_id, new_intent) := compute_recovery_id new_intent in
  new_intent_partial_commitment ←
    compute_partial_commitment new_intent INTENT_PARTIAL_COMMITMENT_SIZE;
  let witness := mkIntentOnlyWitness (wrapper_values old_intent) (path_values merkle_proof)
    (intent_values (inner old_intent)) in
  let statement := mkIntentOnlyStatement (address_to_scalar (intent_owner (inner old_intent)))
    merkle_root old_intent_nullifier new_amount_public_share
    (partial_scalars new_intent_partial_commitment) recovery_id in
  Some (witness, statement).

(** ** Validity of an intent and its balance (validity_proofs/intent_and_balance.rs) *)

(** The balance re-encrypted for a settlement: the post-match shares, the recovery
    identifier and the partial commitment of the new version *)
Definition reencrypt_for_settlement (balance : StateBalance)
    : option (PostMatchBalanceShare * Scalar * PartialCommitment) :=
  let post_match_balance := post_match_balance (inner balance) in
  '(post_match_balance_shares, new_balance) ← stream_cipher_encrypt balance post_match_balance;
  let new_balance := update_from_post_match new_balance post_match_balance_shares in
  let '(balance_recovery_id, new_balance) := compute_recovery_id new_balance in
  balance_partial_commitment ←
    compute_partial_commitment new_balance BALANCE_PARTIAL_COMMITMENT_SIZE;
  Some (post_match_balance_shares, balance_recovery_id, balance_partial_commitment).

Definition generate_first_fill_witness_statement (initial_intent : StateIntent)
    (balance : StateBalance) (balance_merkle_proof : MerkleAuthenticationPath)
    (order_auth : SchnorrSignature)
    : option (SizedIntentAndBalanceFirstFillValidityWitness *
              IntentAndBalanceFirstFillValidityStatement Scalar) :=
  let '(intent_recovery_id, intent_clone) := compute_recovery_id initial_intent in
  intent_private_share_commitment ← compute_private_commitment intent_clone;
  private_intent_shares ← private_shares initial_intent;
  let intent_public_share := public_share initial_intent in
  let new_amount_public_share := amount_in_share intent_public_share in
  let old_balance_nullifier := compute_nullifier balance in
  let merkle_root := compute_root balance_merkle_proof in
  '(post_match_balance_shares, balance_recovery_id, balance_partial_commitment) ←
    reencrypt_for_settlement balance;
  let witness := mkFirstFillWitness (intent_values (inner initial_intent))
    (csprng_values (share_stream initial_intent)) (csprng_values (recovery_stream initial_intent))
    (intent_share_values private_intent_shares) new_amount_public_share
    (signature_values order_auth) (wrapper_values balance) (balance_values (inner balance))
    (post_match_share_values post_match_balance_shares) (path_values balance_merkle_proof) in
  let statement := mkFirstFillStatement merkle_root
    (build_pre_match_intent_share (intent_share_values intent_public_share))
    intent_private_share_commitment intent_recovery_id
    (partial_scalars balance_partial_commitment) old_balance_nullifier
    balance_recovery_id in
  Some (witness, statement).

Definition generate_subsequent_fill_witness_statement (old_intent : StateIntent)
    (balance : StateBalance) (intent_merkle_proof balance_merkle_proof : MerkleAuthenticationPath)
    : option (SizedIntentAndBalanceValidityWitness * IntentAndBalanceValidityStatement Scalar) :=
  let intent_merkle_root := compute_root intent_merkle_proof in
  let old_intent_nullifier := compute_nullifier old_intent in
  let new_amount := amount_in (inner old_intent) in
  '(new_amount_public_share, new_intent) ← stream_cipher_encrypt (V:=Amount) old_intent new_amount;
  let new_intent := set_public_share
    (set_amount_in_share new_amount_public_share (public_share new_intent)) new_intent in
  let '(intent_recovery_id, new_intent) := compute_recovery_id new_intent in
  new_intent_partial_commitment ←
    compute_partial_commitment new_intent INTENT_PARTIAL_COMMITMENT_SIZE;
  let balance_merkle_root := compute_root balance_merkle_proof in
  let old_balance_nullifier := compute_nullifier balance in
  '(post_match_balance_shares, balance_recovery_id, balance_partial_commitment) ←
    reencrypt_for_settlement balance;
  let witness := mkIntentAndBalanceWitness (wrapper_values old_intent)
    (path_values intent_merkle_proof) (intent_values (inner old_intent)) new_amount_public_share
    (wrapper_values balance) (path_values balance_merkle_proof) (balance_values (inner balance))
    (post_match_share_values post_match_balance_shares) in
  let statement := mkIntentAndBalanceStatement intent_merkle_root old_intent_nullifier
    (partial_scalars new_intent_partial_commitment) intent_recovery_id
    balance_merkle_root old_balance_nullifier
    (partial_scalars balance_partial_commitment) balance_recovery_id in
  Some (witness, statement).

(** ** Validity of an output balance (validity_proofs/output_balance.rs) *)

Definition generate_existing_witness_statement (output_balance : StateBalance)
    (merkle_proof : MerkleAuthenticationPath)
    : option (SizedOutputBalanceValidityWitness * OutputBalanceValidityStatement Scalar) :=
  let merkle_root := compute_root merkle_proof in
  let old_balance_nullifier := compute_nullifier output_balance in
  '(post_match_balance_shares, recovery_id, new_partial_commitment) ←
    reencrypt_for_settlement output_balance;
  let witness := mkOutputBalanceWitness (wrapper_values output_balance) (path_values merkle_proof)
    (balance_values (inner output_balance)) (post_match_share_values post_match_balance_shares) in
  let statement := mkOutputBalanceStatement merkle_root old_balance_nullifier
    (partial_scalars new_partial_commitment) recovery_id in
  Some (witness, statement).

(** The share stream is sampled before the recovery stream. *)
Definition create_new_output_balance (mint_ : Address) (existing_balance : StateBalance)
    (k : PrivateKeyChain) : option (StateBalance * PrivateKeyChain) :=
  let '(share_stream, k) := keychain_sample_share_stream k in
  let '(recovery_stream, k) := keychain_sample_recovery_id_stream k in
  let existing := inner existing_balance in
  let new_balance := balance_new mint_ (owner existing) (relayer_fee_recipient existing)
    (authority existing) in
  wrapper ← state_wrapper_new new_balance (seed share_stream) (seed recovery_stream);
  Some (wrapper, k).

Definition generate_new_witness_statement (new_output_balance existing_balance : StateBalance)
    (existing_balance_merkle_proof : MerkleAuthenticationPath)
    (new_output_balance_auth : SchnorrSignature)
    : option (SizedNewOutputBalanceValidityWitness * NewOutputBalanceValidityStatement Scalar) :=
  let existing_balance_merkle_root := compute_root existing_balance_merkle_proof in
  let existing_balance_nullifier := compute_nullifier existing_balance in
  let initial := new_output_balance in
  let shares := balance_share_values (public_share initial) in
  let '(recovery_id, new_output_balance) := compute_recovery_id new_output_balance in
  new_balance_partial_commitment ←
    compute_partial_commitment new_output_balance BALANCE_PARTIAL_COMMITMENT_SIZE;
  let witness := mkNewOutputBalanceWitness (wrapper_values initial) (balance_values (inner initial))
    (build_post_match_balance shares) (wrapper_values existing_balance)
    (path_values existing_balance_merkle_proof) (signature_values new_output_balance_auth) in
  let statement := mkNewOutputBalanceStatement existing_balance_merkle_root
    existing_balance_nullifier (build_pre_match_balance_share shares)
    (partial_scalars new_balance_partial_commitment) recovery_id in
  Some (witness, statement).

(** ** Fee rates (settlement/helpers/mod.rs, util/src/on_chain/config_utils.rs) *)

(** The protocol fees read from the contract at startup *)
Record ProtocolFees := mkProtocolFees {
  default_protocol_fee : FixedPoint;
  protocol_fee_overrides : gmap (Address * Address) FixedPoint;
}.
Definition fee_pair_key (asset0 asset1 : Address) : Address * Address :=
  if asset0 <? asset1 then (asset0, asset1) else (asset1, asset0).
Definition get_protocol_fee (f : ProtocolFees) (asset0 asset1 : Address) : FixedPoint :=
  default (default_protocol_fee f) (protocol_fee_overrides f !! fee_pair_key asset0 asset1).

(** What a settlement reads beside accounts: the quote token, the protocol fees, and the
    relayer's fee rate for the ticker of a base token ([None]: the token has no ticker)
    and fee address *)
Record SettlementConfig := mkSettlementConfig {
  cfg_usdc : Address;
  cfg_protocol_fees : ProtocolFees;
  cfg_relayer_fee : Address → option FixedPoint;
  cfg_relayer_fee_addr : Address;
}.

Section Settlement.
Context (cfg : SettlementConfig).

Definition settlement_relayer_fee (base_token : Address) : option (FixedPoint * Address) :=
  rate ← cfg_relayer_fee cfg base_token; Some (rate, cfg_relayer_fee_addr cfg).
Definition settlement_fee_rates (pair : Pair) : option FeeRates :=
  '(relayer_fee_rate, _) ← settlement_relayer_fee (pair_base_token (cfg_usdc cfg) pair);
  Some (mkFeeRates relayer_fee_rate
          (get_protocol_fee (cfg_protocol_fees cfg) (pair_in pair) (pair_out pair))).

(** ** Settlement of a public match (settlement/helpers/{ring1,ring2}.rs) *)

Definition generate_internal_settlement_proof (intent : Intent)
    (obligation : SettlementObligation)
    : option (IntentOnlyPublicSettlementWitness Scalar *
              IntentOnlyPublicSettlementStatement Scalar) :=
  let base := pair_base_token (cfg_usdc cfg) (pair_from_obligation obligation) in
  '(relayer_fee, relayer_fee_recipient) ← settlement_relayer_fee base;
  Some (mkIntentOnlyPublicWitness (intent_values intent),
        mkIntentOnlyPublicStatement (obligation_values obligation)
          (fixed_point_values relayer_fee) (address_to_scalar relayer_fee_recipient)).

Definition generate_external_settlement_proof (intent : Intent)
    (obligation : SettlementObligation) (match_res : BoundedMatchResult)
    (external_relayer_fee : FixedPoint)
    : option (IntentOnlyBoundedSettlementWitness Scalar *
              IntentOnlyBoundedSettlementStatement Scalar) :=
  let base := pair_base_token (cfg_usdc cfg) (pair_from_obligation obligation) in
  '(internal_relayer_fee, relayer_fee_recipient) ← settlement_relayer_fee base;
  Some (mkIntentOnlyBoundedWitness (intent_values intent),
        mkIntentOnlyBoundedStatement (bounded_match_values match_res)
          (fixed_point_values internal_relayer_fee) (fixed_point_values external_relayer_fee)
          (address_to_scalar relayer_fee_recipient)).

(** The values of the linked proofs are those of the stored validity witnesses. *)
Definition prove_intent_and_balance_public_settlement (intent : IntentVar Scalar)
    (in_balance out_balance : DarkpoolBalanceVar Scalar) (amount_share : Scalar)
    (in_balance_share out_balance_share : PostMatchBalanceVar Scalar)
    (obligation : SettlementObligation)
    : option (IntentAndBalancePublicSettlementWitness Scalar *
              IntentAndBalancePublicSettlementStatement Scalar) :=
  let witness := mkPublicSettlementWitness intent amount_share in_balance in_balance_share
    out_balance out_balance_share in
  fee_rates ← settlement_fee_rates (pair_from_obligation obligation);
  Some (witness, mkPublicSettlementStatement (obligation_values obligation) amount_share
    in_balance_share out_balance_share (fee_rates_values fee_rates)
    (bv_relayer_fee_recipient out_balance)).

Definition prove_intent_and_balance_bounded_settlement (intent : IntentVar Scalar)
    (in_balance out_balance : DarkpoolBalanceVar Scalar) (amount_share : Scalar)
    (in_balance_share out_balance_share : PostMatchBalanceVar Scalar)
    (obligation : SettlementObligation) (match_res : BoundedMatchResult)
    (external_relayer_fee : FixedPoint)
    : option (IntentAndBalanceBoundedSettlementWitness Scalar *
              IntentAndBalanceBoundedSettlementStatement Scalar) :=
  let witness := mkBoundedSettlementWitness intent amount_share in_balance in_balance_share
    out_balance out_balance_share in
  let base := pair_base_token (cfg_usdc cfg) (pair_from_obligation obligation) in
  '(internal_relayer_fee, relayer_fee_recipient) ← settlement_relayer_fee base;
  Some (witness, mkBoundedSettlementStatement (bounded_match_values match_res) amount_share
    in_balance_share out_balance_share (fixed_point_values internal_relayer_fee)
    (fixed_point_values external_relayer_fee) (address_to_scalar relayer_fee_recipient)).

(** ** Settlement of a private match (settlement/helpers/ring3.rs) *)

(** What a settlement takes from a validity bundle of a party, of either kind
    (private_fill_validity_bundle.rs) *)
Inductive PrivateFillValidityBundle :=
| FirstFill (witness : SizedIntentAndBalanceFirstFillValidityWitness)
| SubsequentFill (witness : SizedIntentAndBalanceValidityWitness).
Definition fill_intent (b : PrivateFillValidityBundle) : IntentVar Scalar :=
  match b with FirstFill x => ffw_intent x | SubsequentFill x => ibw_intent x end.
Definition fill_balance (b : PrivateFillValidityBundle) : DarkpoolBalanceVar Scalar :=
  match b with FirstFill x => ffw_balance x | SubsequentFill x => ibw_balance x end.
Definition fill_new_amount_public_share (b : PrivateFillValidityBundle) : Scalar :=
  match b with
  | FirstFill x => ffw_new_amount_public_share x
  | SubsequentFill x => ibw_new_amount_public_share x
  end.
Definition fill_post_match_balance_shares (b : PrivateFillValidityBundle)
    : PostMatchBalanceVar Scalar :=
  match b with
  | FirstFill x => ffw_post_match_balance_shares x
  | SubsequentFill x => ibw_post_match_balance_shares x
  end.

(** The output balance of a party, new or existing (output_balance.rs) *)
Inductive OutputBalance_ :=
| NewOutput (witness : SizedNewOutputBalanceValidityWitness)
| ExistingOutput (witness : SizedOutputBalanceValidityWitness).
Definition output_balance_of (b : OutputBalance_) : DarkpoolBalanceVar Scalar :=
  match b with NewOutput x => nbw_balance x | ExistingOutput x => obw_balance x end.
Definition output_post_match_balance_shares (b : OutputBalance_) : PostMatchBalanceVar Scalar :=
  match b with
  | NewOutput x => nbw_post_match_balance_shares x
  | ExistingOutput x => obw_post_match_balance_shares x
  end.

Definition apply_obligation_to_shares (pre_settlement_amount_public_share : Scalar)
    (pre_settlement_in_balance_shares pre_settlement_out_balance_shares
       : PostMatchBalanceVar Scalar)
    (obligation : SettlementObligation) (fee_rates : FeeRates)
    : Scalar * PostMatchBalanceVar Scalar * PostMatchBalanceVar Scalar :=
  let new_amount_public_share :=
    scalar_sub pre_settlement_amount_public_share
      (scalar_from (obligation_amount_in obligation)) in
  let in_ := pre_settlement_in_balance_shares in
  let new_in_balance_public_shares := mkPostMatchBalanceVar (qbv_relayer_fee_balance in_)
    (qbv_protocol_fee_balance in_)
    (scalar_sub (qbv_amount in_) (scalar_from (obligation_amount_in obligation))) in
  let fee_take := DarkpoolTypes.compute_fee_take fee_rates (obligation_amount_out obligation) in
  let net_receive := u128_sub (obligation_amount_out obligation) (fee_total fee_take) in
  let out := pre_settlement_out_balance_shares in
  let new_out_balance_public_shares := mkPostMatchBalanceVar
    (scalar_add (qbv_relayer_fee_balance out) (scalar_from (relayer_fee fee_take)))
    (scalar_add (qbv_protocol_fee_balance out) (scalar_from (protocol_fee fee_take)))
    (scalar_add (qbv_amount out) (scalar_from net_receive)) in
  (new_amount_public_share, new_in_balance_public_shares, new_out_balance_public_shares).

(** Both parties share the protocol fee of party 0. *)
Definition prove_intent_and_balance_private_settlement
    (obligation0 obligation1 : SettlementObligation)
    (validity_bundle0 validity_bundle1 : PrivateFillValidityBundle)
    (output_bundle0 output_bundle1 : OutputBalance_)
    : option (IntentAndBalancePrivateSettlementWitness Scalar *
              IntentAndBalancePrivateSettlementStatement Scalar) :=
  fee_rates0 ← settlement_fee_rates (pair_from_obligation obligation0);
  fee_rates1 ← settlement_fee_rates (pair_from_obligation obligation1);
  let protocol_fee := protocol_fee_rate fee_rates0 in
  let witness := mkPrivateSettlementWitness
    (obligation_values obligation0) (fill_intent validity_bundle0)
    (fill_new_amount_public_share validity_bundle0) (fill_balance validity_bundle0)
    (fill_post_match_balance_shares validity_bundle0) (output_balance_of output_bundle0)
    (output_post_match_balance_shares output_bundle0)
    (obligation_values obligation1) (fill_intent validity_bundle1)
    (fill_new_amount_public_share validity_bundle1) (fill_balance validity_bundle1)
    (fill_post_match_balance_shares validity_bundle1) (output_balance_of output_bundle1)
    (output_post_match_balance_shares output_bundle1) in
  let '(new_amount_public_share0, new_in_balance_public_shares0, new_out_balance_public_shares0) :=
    apply_obligation_to_shares (psw_pre_settlement_amount_public_share0 witness)
      (psw_pre_settlement_in_balance_shares0 witness)
      (psw_pre_settlement_out_balance_shares0 witness) obligation0 fee_rates0 in
  let '(new_amount_public_share1, new_in_balance_public_shares1, new_out_balance_public_shares1) :=
    apply_obligation_to_shares (psw_pre_settlement_amount_public_share1 witness)
      (psw_pre_settlement_in_balance_shares1 witness)
      (psw_pre_settlement_out_balance_shares1 witness) obligation1 fee_rates1 in
  let statement := mkPrivateSettlementStatement new_amount_public_share0
    new_in_balance_public_shares0 new_out_balance_public_shares0 new_amount_public_share1
    new_in_balance_public_shares1 new_out_balance_public_shares1
    (fixed_point_values (relayer_fee_rate fee_rates0))
    (fixed_point_values (relayer_fee_rate fee_rates1)) (fixed_point_values protocol_fee) in
  Some (witness, statement).

(** ** The versions after a settlement (settlement/helpers/{mod,ring0,ring1,ring2}.rs) *)

Definition mark_order_filled (o : Order) : Order :=
  mkOrder (order_id o) (order_intent o) (order_ring o) (mark_filled (order_metadata o)).
Definition set_order_intent (i : StateIntent) (o : Order) : Order :=
  mkOrder (order_id o) i (order_ring o) (order_metadata o).

Definition update_ring0_intent_after_match (order : Order) (obligation : SettlementObligation)
    : Order :=
  mark_order_filled (decrement_amount_in order (obligation_amount_in obligation)).2.

(** [update_ring1_intent_after_match] and [update_ring2_intent_after_match] have the same
    body. *)
Definition update_private_intent_after_match (order : Order) (obligation : SettlementObligation)
    : option Order :=
  order ← (if has_been_filled (order_metadata order) then
             '(_, intent) ← reencrypt_amount_in (order_intent order);
             Some (set_order_intent intent order)
           else Some order);
  let order := (decrement_amount_in order (obligation_amount_in obligation)).2 in
  Some (mark_order_filled (set_order_intent (advance_recovery_stream (order_intent order)) order)).

(** [None]: the order does not cover the obligation, and the match is rejected as stale
    (or encryption panics). *)
Definition build_updated_intent (order : Order) (obligation : SettlementObligation)
    : option Order :=
  if order_amount_in order <? obligation_amount_in obligation then None
  else match order_ring order with
       | Ring0 => Some (update_ring0_intent_after_match order obligation)
       | Ring1 | Ring2 | Ring3 => update_private_intent_after_match order obligation
       end.

Definition build_updated_input_balance (balance : Balance) (obligation : SettlementObligation)
    : option Balance :=
  '(_, w) ← reencrypt_post_match_share (state_wrapper balance);
  let w := apply_obligation_in_balance w obligation in
  Some (mkBalance (advance_recovery_stream w) (location balance)).

Definition build_existing_output_balance (balance : Balance) : option Balance :=
  '(_, w) ← reencrypt_post_match_share (state_wrapper balance); Some (mkBalance w (location balance)).

Definition build_updated_output_balance (balance : Balance) (obligation : SettlementObligation)
    (apply_fees : bool) : option Balance :=
  fee_rates ← settlement_fee_rates (pair_from_obligation obligation);
  let fee_take := DarkpoolTypes.compute_fee_take fee_rates (obligation_amount_out obligation) in
  let w := if apply_fees
    then apply_obligation_out_balance (state_wrapper balance) obligation fee_take
    else apply_obligation_out_balance_no_fees (state_wrapper balance) obligation fee_take in
  Some (mkBalance (advance_recovery_stream w) (location balance)).

(** [None]: the balance does not cover the obligation, and the match is rejected as stale. *)
Definition update_eoa_balance_amount (balance : Balance) (obligation : SettlementObligation)
    : option Balance :=
  if balance_amount balance <? obligation_amount_in obligation then None
  else Some (set_balance_amount (balance_amount balance - obligation_amount_in obligation) balance).
End Settlement.
