(* ===== verification/TaskBalances.v ===== *)
(** * Deposits, withdrawals and new balances

    The statements and witnesses that the tasks create_balance.rs, deposit.rs and withdraw.rs
    compute (TaskProofs.v) are accepted by the circuits, and the version of the balance that
    the relayer keeps after the task is the one that the contract's ledger has (Darkpool.v):
    the native update of the task and the update that the circuits check are the same. *)
From S2P Require Import Prelude Scalar FixedPoint BaseType Poseidon2 Circuit CircuitTypes Gadgets.
From S2P Require Import Merkle PoseidonGadget StateGadgets ProverCircuit BalanceCircuits.
From S2P Require Import ValidityCircuits SettlementCircuits CircuitScoping Darkpool DarkpoolExit.
From S2P Require Import NativeAgreement DarkpoolTypes StateWrapper AccountTypes ValidityBundles.
From S2P Require Import AccountStorage TaskProofs.
Local Open Scope Z_scope.

(** ** Paths *)

(** A path of the darkpool's tree for the leaf [leaf] *)
Record path_of (leaf : Scalar) (p : MerkleAuthenticationPath) : Prop := {
  path_leaf : value p = leaf;
  path_height : length (path_siblings p) = MERKLE_HEIGHT;
  path_scalars : Forall is_scalar (path_siblings p);
}.

Definition bit_of (b : bool) : Scalar := if b then 1 else 0.

Lemma path_values_lists p :
  length (path_siblings p) = MERKLE_HEIGHT →
  vec_to_list (mov_elems (path_values p)) = path_siblings p ∧
  vec_to_list (mov_indices (path_values p)) = bit_of <$> index_bits (leaf_index p) MERKLE_HEIGHT.
Proof.
  intros Hl. destruct p as [l i v]. cbn [path_siblings leaf_index] in *. split.
  - do 11 (destruct l as [|? l]; [discriminate Hl || reflexivity|]). discriminate Hl.
  - change i with (leaf_index (mkAuthPath l i v)) at 2. rewrite <-opening_indices. reflexivity.
Qed.

Lemma path_is_path leaf p : path_of leaf p → is_path (path_values p).
Proof.
  intros [_ Hl Hs]. destruct (path_values_lists p Hl) as [E1 E2].
  assert (Forall is_bit (vec_to_list (mov_indices (path_values p)))) as Hb.
  { rewrite E2. apply Forall_fmap, Forall_true. intros []; unfold is_bit, bit_of; simpl; auto. }
  split; [|done]. change (Forall is_scalar (vec_to_list (mov_elems (path_values p)) ++
    vec_to_list (mov_indices (path_values p)))). apply Forall_app. split; [by rewrite E1|].
  eapply Forall_impl; [exact Hb|]. intros x [-> | ->]; [apply is_scalar_0|by vm_compute].
Qed.

Lemma path_root leaf p :
  path_of leaf p → compute_root p = opening_root leaf (opening_path (path_values p)).
Proof.
  intros [<- Hl _]. destruct (path_values_lists p Hl) as [E1 E2]. unfold opening_path.
  rewrite E1, E2, <-list_fmap_compose. destruct p as [l i v]. cbn [path_siblings leaf_index] in *.
  rewrite compute_root_bits, Hl. do 2 f_equal. rewrite <-(list_fmap_id (index_bits i _)) at 1.
  apply list_fmap_ext. by intros ? [].
Qed.

(** ** Versions of an element *)

Lemma recovery_id_index {T Sh} (w : StateWrapper T Sh) rid w' :
  has_room 1 (recovery_stream w) → compute_recovery_id w = (rid, w') →
  1 ≤ index (recovery_stream w') < 2 ^ 64.
Proof.
  intros [H1 H2'] E. change w' with (rid, w').2. rewrite <-E. unfold compute_recovery_id.
  destruct (csprng_next (recovery_stream w)).
  change (1 ≤ u64_add (index (recovery_stream w)) 1 < 2 ^ 64). rewrite u64_add_small; lia.
Qed.

Section Versions.
Context {T Sh : Type} {F : Type → Type}.
Context `{Hs : SecretShare T Sh, Hc : CircuitType F, !CircuitTypeLaws F}.
Context {Hn : Native T Sh F} {valid : T → Prop} `{!SecretShareLaws T Sh valid}.
Context (HN : NUM (F:=F) ≠ 0%nat).
Implicit Types w : StateWrapper T Sh.

(** An element of the tree with its path: it has been inserted, so its recovery stream has
    advanced. *)
Record spendable (w : StateWrapper T Sh) (p : MerkleAuthenticationPath) : Prop := {
  sp_canonical : canonical (wrapper_values w);
  sp_path : ∃ c, compute_commitment w = Some c ∧ path_of c p;
  sp_index : 1 ≤ index (recovery_stream w) < 2 ^ 64;
}.

(** A version with the commitment that the contract inserts for it: any path to the
    commitment makes it spendable. *)
Record inserted (w : StateWrapper T Sh) (c : Scalar) : Prop := {
  in_canonical : canonical (wrapper_values w);
  in_commitment : compute_commitment w = Some c;
  in_index : 1 ≤ index (recovery_stream w) < 2 ^ 64;
}.

Lemma inserted_spendable w c p : inserted w c → path_of c p → spendable w p.
Proof. intros [H1 H2' H3] Hp. split; [exact H1| |exact H3]. exists c. split; [exact H2'|exact Hp]. Qed.

Lemma spendable_path w p : spendable w p → is_path (path_values p).
Proof. intros [_ (c & _ & Hp) _]. by eapply path_is_path. Qed.

Lemma spendable_opens w p :
  spendable w p →
  opens_to (wrapper_values w) (v_complement (wrapper_values w)) (path_values p) (compute_root p)
    (compute_nullifier w).
Proof using All.
  intros [_ (c & Ec & Hp) Hi]. rewrite commitment_values in Ec by done. injection Ec as <-.
  split.
  - by apply path_root.
  - cbn [wrapper_values swv_recovery_stream csprng_values csv_index].
    rewrite small_index by lia. lia.
  - by apply nullifier_values.
Qed.

(** The recovery identifier and the commitment that are computed for a new version *)
Lemma version_created w rid w' :
  has_room 1 (recovery_stream w) → compute_recovery_id w = (rid, w') →
  wrapper_values w' = v_advance_recovery (wrapper_values w) ∧
  1 ≤ index (recovery_stream w') < 2 ^ 64 ∧
  ∃ c, compute_commitment w' = Some c ∧
    creates (wrapper_values w) (v_complement (wrapper_values w)) c rid.
Proof using All.
  intros Hr E. destruct (compute_recovery_id_values w Hr) as [E1 E2]. rewrite E in E1, E2.
  cbn [fst snd] in *. split; [done|]. split; [by apply (recovery_id_index w rid)|].
  rewrite commitment_values by done. rewrite E2. eexists. split; [reflexivity|]. split; [done|]. reflexivity.
Qed.

Lemma version_partially_created k w rid w' :
  has_room 1 (recovery_stream w) → (1 ≤ k ≤ NUM (F:=F))%nat → compute_recovery_id w = (rid, w') →
  ∃ c, compute_partial_commitment w' k = Some c ∧
    creates_partial k (wrapper_values w) (v_complement (wrapper_values w))
      (partial_scalars c) rid.
Proof using All.
  intros Hr Hk E. destruct (compute_recovery_id_values w Hr) as [E1 E2]. rewrite E in E1, E2.
  cbn [fst snd] in *. pose proof (partial_commitment_values w' k Hk) as Hp. rewrite E2 in Hp.
  destruct (compute_partial_commitment w' k) as [c|]; [|done]. apply (inj Some) in Hp.
  exists c. split; [done|]. split; [done|]. exact Hp.
Qed.
End Versions.

(** ** Balances *)

(** An amount that the circuits admit *)
Definition admitted_amount (a : Amount) : Prop := 0 ≤ a < 2 ^ 100.

Lemma balance_num : NUM (F:=DarkpoolBalanceVar) ≠ 0%nat.
Proof. done. Qed.
Lemma intent_num : NUM (F:=IntentVar) ≠ 0%nat.
Proof. done. Qed.
#[local] Hint Resolve balance_num intent_num : core.

Lemma admitted_scalar a : admitted_amount a → scalar_from a = a.
Proof. intros [Ha Hb]. apply scalar_from_small. lia. Qed.
Lemma admitted_u128 a : admitted_amount a → is_u128 a.
Proof. intros [Ha Hb]. unfold is_u128, U128_MAX. lia. Qed.
Lemma admitted_fits a : admitted_amount a → fits 100 (scalar_from a).
Proof. intros Ha. by rewrite admitted_scalar. Qed.
Lemma has_room_le n m c : m ≤ n → has_room n c → has_room m c.
Proof. unfold has_room. lia. Qed.

Lemma recovery_id_inner {T Sh} (w w' : StateWrapper T Sh) rid :
  compute_recovery_id w = (rid, w') → inner w' = inner w.
Proof.
  intros E. change w' with (rid, w').2. rewrite <-E. unfold compute_recovery_id.
  by destruct (csprng_next (recovery_stream w)).
Qed.

(** ** Canonical structures *)

Section Structures.
Context {P R : Type → Type} `{CircuitType P} (to : ∀ A, R A → P A) (from : ∀ A, P A → R A).
Lemma canonical_struct (x : R Scalar) :
  canonical (to Scalar x) → @canonical R (struct_type to from) x.
Proof. done. Qed.
Lemma valid_struct `{WitnessType P} (x : R Scalar) :
  valid_witness (to Scalar x) → @valid_witness R (struct_type to from) (struct_witness to) x.
Proof. done. Qed.
End Structures.

Section Products.
Context {F G : Type → Type} `{CircuitType F, CircuitType G} (x : F Scalar) (y : G Scalar).
Lemma canonical_pair : canonical x → canonical y → canonical (F:=ProdT F G) (x, y).
Proof. intros Hx Hy. by apply Forall_app. Qed.
Lemma valid_pair `{WitnessType F, WitnessType G} :
  valid_witness x → valid_witness y → valid_witness (F:=ProdT F G) (x, y).
Proof. intros [Hx Bx] [Hy By']. split; [by apply canonical_pair|by apply Forall_app]. Qed.
Lemma valid_plain : canonical x → @valid_witness F _ (plain_witness F) x.
Proof. intros Hx. split; [done|apply Forall_nil_2]. Qed.
End Products.
Lemma canonical_id (x : Scalar) : is_scalar x → canonical (F:=Id) x.
Proof. intros Hx. apply Forall_cons_2; [done|apply Forall_nil_2]. Qed.
Lemma valid_opening {n} (o : MerkleOpeningVar n Scalar) : is_path o → valid_witness o.
Proof. by intros []. Qed.

(** A structure of canonical parts *)
Ltac canonical_parts :=
  apply canonical_struct; repeat refine (canonical_pair _ _ _ _);
  try refine (canonical_id _ _); try assumption.
Ltac valid_parts :=
  apply valid_struct; repeat refine (valid_pair _ _ _ _);
  first [refine (valid_opening _ _); assumption
        |refine (valid_plain _ _); try refine (canonical_id _ _); try assumption].

(** Splits the canonicity of a statement or witness into its scalars. *)
Ltac scalar_list := repeat first [apply Forall_nil_2|apply Forall_cons_2].

Section Balances.
Context {Cv : CurveSpec} {S : ProofSystem Cv}.
Implicit Types w : StateBalance.

(** The version of a balance with a new amount, as a deposit or a withdrawal makes it *)
Lemma amount_version w a :
  canonical (wrapper_values w) →
  has_room 1 (share_stream w) → has_room 1 (recovery_stream w) → admitted_amount a →
  ∃ share w1 rid w2 c,
    reencrypt_amount_share (set_inner (DarkpoolTypes.with_amount (inner w) a) w)
      = Some (share, w1) ∧
    compute_recovery_id w1 = (rid, w2) ∧ compute_commitment w2 = Some c ∧ inserted w2 c ∧
    inner w2 = DarkpoolTypes.with_amount (inner w) a ∧
    let new := v_update_amount (wrapper_values w) (scalar_from a) in
    wrapper_values w2 = v_advance_recovery new ∧ creates new (v_complement new) c rid ∧
    share = bv_amount (swv_public_share new).
Proof.
  intros Hc Hs Hr Ha. destruct (update_amount_values w a) as (share & w1 & E1 & E2 & E3 & E4 & E5);
    [by apply admitted_u128|done|].
  destruct (compute_recovery_id w1) as [rid w2] eqn:E6.
  destruct (version_created (F:=DarkpoolBalanceVar) balance_num w1 rid w2) as (E7 & Ei & c & E8 & E9);
    [by rewrite E3|done|].
  exists share, w1, rid, w2, c. split; [exact E1|]. split; [done|]. split; [exact E8|]. split.
  { split; [|exact E8|exact Ei]. rewrite E7, E4. apply canonical_update_amount; [exact Hc|].
    apply scalar_from_is_scalar. }
  cbv zeta. split_and!.
  - rewrite <-E2. by apply (recovery_id_inner w1 w2 rid).
  - rewrite E7, E4. reflexivity.
  - rewrite E4 in E9. exact E9.
  - rewrite E5, E4. reflexivity.
Qed.

Lemma opens_scalars {F} `{CircuitType F} {n} e priv (o : MerkleOpeningVar n Scalar) root nullifier :
  opens_to (F:=F) e priv o root nullifier → is_scalar root ∧ is_scalar nullifier.
Proof.
  intros [-> _ ->]. split; [apply opening_root_is_scalar, commitment_is_scalar|].
  apply poseidon_hash_is_scalar.
Qed.
Lemma creates_scalars {F} `{CircuitType F} e priv c rid :
  creates (F:=F) e priv c rid → is_scalar c ∧ is_scalar rid.
Proof. intros [-> ->]. split; apply poseidon_hash_is_scalar. Qed.

Lemma deposit_statement_canonical d root nullifier c rid share :
  is_scalar root → is_scalar nullifier → is_scalar c → is_scalar rid → is_scalar share →
  canonical (mkDepositStatement (deposit_values d) root nullifier c rid share).
Proof. intros. unfold canonical. scalar_list; try assumption; apply scalar_from_is_scalar. Qed.

(** A deposit into a balance of the darkpool: the proof that the task requests exists, and the
    balance that the relayer stores is the one that the ledger has after the deposit. *)
Lemma deposit_follows b p d L rest :
  let w := state_wrapper b in
  spendable w p → has_room 1 (share_stream w) → has_room 1 (recovery_stream w) →
  deposit_token d = balance_mint b → deposit_from d = balance_owner b →
  0 ≤ balance_amount b → 0 ≤ deposit_amount d →
  admitted_amount (balance_amount b + deposit_amount d) →
  lg_balances L ≡ₚ wrapper_values w :: rest →
  ∃ x s b', get_valid_deposit_witness_statement d b p = Some (x, s, b') ∧
    proved (ValidDeposit MERKLE_HEIGHT) s x ∧
    balance_amount b' = balance_amount b + deposit_amount d ∧ location b' = location b ∧
    inserted (state_wrapper b') (ds_new_balance_commitment s) ∧
    step L (mkLedger (wrapper_values (state_wrapper b') :: rest) (lg_intents L) (lg_notes L)
      (credit (address_to_scalar (balance_mint b)) (deposit_amount d) (lg_held L))).
Proof.
  intros w Hsp Hs Hr Et Ef Hb Hd Hn HL.
  assert (admitted_amount (balance_amount b)) as Hb' by (unfold admitted_amount in *; lia).
  assert (admitted_amount (deposit_amount d)) as Hd' by (unfold admitted_amount in *; lia).
  destruct (amount_version w (balance_amount b + deposit_amount d) (sp_canonical w p Hsp) Hs Hr Hn)
    as (share & w1 & rid & w2 & c & E1 & E2 & E3 & Ein & E4 & E5 & E6 & E7).
  assert (scalar_from (balance_amount b + deposit_amount d) =
    scalar_add (scalar_from (balance_amount b)) (scalar_from (deposit_amount d))) as Es.
  { rewrite (admitted_scalar _ Hb'), (admitted_scalar _ Hd'). reflexivity. }
  rewrite Es in *.
  unfold get_valid_deposit_witness_statement. fold w.
  rewrite u128_add_small by (unfold admitted_amount in Hn; lia).
  cbn [set_balance_amount state_wrapper location]. fold w. rewrite E1. cbn [mbind option_bind].
  rewrite E2. cbn [mbind option_bind]. rewrite E3. cbn [mbind option_bind].
  pose proof (spendable_opens (F:=DarkpoolBalanceVar) balance_num w p Hsp) as Ho.
  revert Ho. generalize (compute_root p) as root, (compute_nullifier w) as nullifier.
  intros root nullifier Ho.
  eexists _, _, _. split; [reflexivity|].
  match goal with |- proved _ ?s ?x ∧ _ => assert (proved (ValidDeposit MERKLE_HEIGHT) s x) as Hp end.
  { apply (implements_complete (ValidDeposit MERKLE_HEIGHT) valid_deposit_rel);
      [apply valid_deposit_implements|apply valid_deposit_scoped|..].
    - destruct (opens_scalars _ _ _ _ _ Ho), (creates_scalars _ _ _ _ E6).
      apply deposit_statement_canonical; [assumption..|]. rewrite E7. apply scalar_sub_is_scalar.
    - destruct (spendable_path w p Hsp). split; [|done].
      apply Forall_app. split; [apply Hsp|done].
    - split; cbn [dw_old_balance ds_deposit deposit_values dv_amount dv_token dv_from].
      + by apply admitted_fits.
      + by rewrite Et.
      + by rewrite Ef.
      + change (fits 100 (scalar_add (scalar_from (balance_amount b)) (scalar_from (deposit_amount d)))).
        rewrite <-Es. by apply admitted_fits.
      + exact Ho.
      + split; [exact E6|exact E7]. }
  split; [exact Hp|]. split; [unfold balance_amount at 1; cbn [state_wrapper]; by rewrite E4|].
  split; [done|]. split; [exact Ein|]. cbn [state_wrapper]. rewrite E5, <-Et.
  rewrite <-(admitted_scalar _ Hd') at 2. exact (step_deposit L _ _ _ rest Hp HL).
Qed.

Lemma withdrawal_statement_canonical d root nullifier c rid share :
  is_scalar root → is_scalar nullifier → is_scalar c → is_scalar rid → is_scalar share →
  canonical (mkWithdrawalStatement (withdrawal_values d) root nullifier c rid share).
Proof. intros. unfold canonical. scalar_list; try assumption; apply scalar_from_is_scalar. Qed.

(** A withdrawal from a balance whose fees have been paid, likewise *)
Lemma withdrawal_follows b p a L rest :
  let w := state_wrapper b in
  spendable w p → has_room 1 (share_stream w) → has_room 1 (recovery_stream w) →
  relayer_fee_balance (inner w) = 0 → protocol_fee_balance (inner w) = 0 →
  admitted_amount (balance_amount b) → 0 < a ≤ balance_amount b →
  lg_balances L ≡ₚ wrapper_values w :: rest →
  ∃ x s b', get_withdrawal_witness_statement a b p = Some (x, s, b') ∧
    proved (ValidWithdrawal MERKLE_HEIGHT) s x ∧
    balance_amount b' = balance_amount b - a ∧ location b' = location b ∧
    inserted (state_wrapper b') (ws_new_balance_commitment s) ∧
    step L (mkLedger (wrapper_values (state_wrapper b') :: rest) (lg_intents L) (lg_notes L)
      (credit (address_to_scalar (balance_mint b)) (- a) (lg_held L))).
Proof.
  intros w Hsp Hs Hr F1 F2 Hb Ha HL.
  assert (admitted_amount a) as Ha' by (unfold admitted_amount in *; lia).
  assert (admitted_amount (balance_amount b - a)) as Hn by (unfold admitted_amount in *; lia).
  destruct (amount_version w (balance_amount b - a) (sp_canonical w p Hsp) Hs Hr Hn)
    as (share & w1 & rid & w2 & c & E1 & E2 & E3 & Ein & E4 & E5 & E6 & E7).
  assert (scalar_from (balance_amount b - a) =
    scalar_sub (scalar_from (balance_amount b)) (scalar_from a)) as Es.
  { rewrite (admitted_scalar _ Hb), (admitted_scalar _ Ha'). reflexivity. }
  rewrite Es in *.
  unfold get_withdrawal_witness_statement, balance_withdraw. fold w.
  rewrite u128_sub_small by (unfold admitted_amount in Hn; lia).
  cbn [set_balance_amount state_wrapper location]. fold w. rewrite E1. cbn [mbind option_bind].
  rewrite E2. cbn [mbind option_bind]. rewrite E3. cbn [mbind option_bind].
  assert (build_withdrawal a (mkBalance w2 (location b)) = build_withdrawal a b) as ->.
  { unfold build_withdrawal, balance_owner, balance_mint. cbn [state_wrapper]. by rewrite E4. }
  pose proof (spendable_opens (F:=DarkpoolBalanceVar) balance_num w p Hsp) as Ho.
  revert Ho. generalize (compute_root p) as root, (compute_nullifier w) as nullifier.
  intros root nullifier Ho. eexists _, _, _. split; [reflexivity|].
  match goal with |- proved _ ?s ?x ∧ _ =>
    assert (proved (ValidWithdrawal MERKLE_HEIGHT) s x) as Hp end.
  { apply (implements_complete (ValidWithdrawal MERKLE_HEIGHT) valid_withdrawal_rel);
      [apply valid_withdrawal_implements|apply valid_withdrawal_scoped|..].
    - destruct (opens_scalars _ _ _ _ _ Ho), (creates_scalars _ _ _ _ E6).
      apply withdrawal_statement_canonical; [assumption..|]. rewrite E7. apply scalar_sub_is_scalar.
    - destruct (spendable_path w p Hsp). split; [|done].
      apply Forall_app. split; [apply Hsp|done].
    - split; cbn [ww_old_balance ws_withdrawal withdrawal_values wv_amount wv_token wv_to
        build_withdrawal withdrawal_amount withdrawal_token withdrawal_to].
      + by apply admitted_fits.
      + rewrite admitted_scalar by done. lia.
      + done.
      + done.
      + change (fits 100 (scalar_sub (scalar_from (balance_amount b)) (scalar_from a))).
        rewrite <-Es. by apply admitted_fits.
      + cbn [wrapper_values swv_inner values native_balance balance_values bv_relayer_fee_balance
          bv_protocol_fee_balance]. rewrite F1, F2. split; reflexivity.
      + exact Ho.
      + split; [exact E6|exact E7]. }
  split; [exact Hp|]. split; [unfold balance_amount at 1; cbn [state_wrapper]; by rewrite E4|].
  split; [done|]. split; [exact Ein|]. cbn [state_wrapper]. rewrite E5.
  rewrite <-(admitted_scalar _ Ha') at 2. exact (step_withdrawal L _ _ _ rest Hp HL).
Qed.

(** The seeds that a keychain samples *)
Lemma sampled_recovery_stream k :
  ∃ s k', keychain_sample_recovery_id_stream k = (csprng_new s, k') ∧ is_scalar s.
Proof. eexists _, _. split; [reflexivity|]. apply compute_poseidon_hash_is_scalar. Qed.
Lemma sampled_share_stream k :
  ∃ s k', keychain_sample_share_stream k = (csprng_new s, k') ∧ is_scalar s.
Proof. eexists _, _. split; [reflexivity|]. apply compute_poseidon_hash_is_scalar. Qed.

Lemma seeded_canonical s : is_scalar s → canonical (mkCSPRNGVar s 0).
Proof. intros Hs. unfold canonical. scalar_list; [done|apply is_scalar_0]. Qed.
Lemma balance_values_canonical b : is_balance b → canonical (balance_values b).
Proof.
  intros (_ & _ & _ & [H1 H2'] & _). unfold canonical.
  scalar_list; try assumption; apply scalar_from_is_scalar.
Qed.

(** The first deposit of a token, which creates the balance *)
Lemma create_follows k d fee_addr auth L :
  is_balance (DarkpoolTypes.with_amount
    (balance_new (deposit_token d) (deposit_from d) fee_addr auth) (deposit_amount d)) →
  admitted_amount (deposit_amount d) →
  ∃ b k' x s b',
    create_balance_and_update_keychain k (deposit_token d) (deposit_from d) fee_addr auth
      (deposit_amount d) = Some (b, k') ∧
    get_balance_create_witness_statement d b = Some (x, s, b') ∧
    proved ValidBalanceCreate s x ∧
    balance_amount b' = deposit_amount d ∧ location b' = Darkpool ∧
    inserted (state_wrapper b') (cs_balance_commitment s) ∧
    step L (mkLedger (wrapper_values (state_wrapper b') :: lg_balances L) (lg_intents L)
      (lg_notes L)
      (credit (address_to_scalar (deposit_token d)) (deposit_amount d) (lg_held L))).
Proof.
  intros Hb Ha. set (bal := DarkpoolTypes.with_amount _ _) in *.
  unfold create_balance_and_update_keychain.
  destruct (sampled_recovery_stream k) as (rs & k1 & -> & Hrs).
  destruct (sampled_share_stream k1) as (ss & k2 & -> & Hss).
  unfold create_darkpool_balance. fold bal. cbn [seed csprng_new].
  destruct (state_wrapper_new_values bal ss rs Hb) as (w & E1 & E2 & E3 & E4); [done|].
  rewrite E1. cbn [mbind option_bind]. exists (mkBalance w Darkpool), k2.
  unfold get_balance_create_witness_statement. cbn [state_wrapper location].
  destruct (compute_recovery_id w) as [rid w2] eqn:E5.
  destruct (version_created (F:=DarkpoolBalanceVar) balance_num w rid w2) as (E6 & Ei & c & E7 & E8);
    [by rewrite E3|done|].
  cbn [mbind option_bind]. rewrite E7. cbn [mbind option_bind].
  assert (seed (share_stream w) = ss) as Ess.
  { exact (f_equal (λ e, csv_seed (swv_share_stream e)) E4). }
  eexists (mkBalanceCreateWitness (mkCSPRNGVar ss 0) (mkCSPRNGVar rs 0) (balance_values bal)),
    (create_statement (mkCSPRNGVar rs 0) (mkCSPRNGVar ss 0) (balance_values bal)), _.
  split; [reflexivity|]. split.
  { unfold get_original_share_stream, get_original_recovery_stream. rewrite Ess, E3, E2.
    destruct E8 as [E8 E9]. change (balance_share_values (public_share w2)) with
      (swv_public_share (wrapper_values w2)). rewrite E6. rewrite E8, E9, E4. reflexivity. }
  match goal with |- ?P ∧ _ => assert P as Hp end.
  { apply create_proved; [by apply seeded_canonical|by apply seeded_canonical| | |done..].
    - by apply balance_values_canonical.
    - by apply admitted_fits. }
  split; [exact Hp|]. split; [|split; [done|split]].
  { unfold balance_amount. cbn [state_wrapper]. by rewrite (recovery_id_inner w w2 rid E5), E2. }
  { cbn [state_wrapper]. split; [| |exact Ei].
    - rewrite E6, E4. apply canonical_fresh; [by apply seeded_canonical|by apply seeded_canonical|].
      by apply balance_values_canonical.
    - rewrite E7. f_equal. destruct E8 as [_ E8]. rewrite E8, E4. reflexivity. }
  cbn [state_wrapper]. rewrite E6, E4, <-(admitted_scalar _ Ha) at 1. exact (step_create L _ _ Hp).
Qed.
End Balances.
