(* ===== verification/TaskValidity.v ===== *)
(** * Validity proofs

    The statements and witnesses of tasks/validity_proofs/{intent_only,intent_and_balance,
    output_balance}.rs (TaskProofs.v) are accepted by the validity circuits.  A proof of a
    balance or of a filled intent spends the element that the relayer stores and prepares
    the version that the settlement updates; a first fill shares the order as it was
    placed. *)
From S2P Require Import Prelude Scalar FixedPoint BaseType Poseidon2 Circuit CircuitTypes Gadgets.
From S2P Require Import Merkle PoseidonGadget StateGadgets ProverCircuit BalanceCircuits.
From S2P Require Import ValidityCircuits SettlementCircuits CircuitScoping Darkpool DarkpoolExit.
From S2P Require Import DarkpoolCorrect NativeAgreement DarkpoolTypes StateWrapper AccountTypes.
From S2P Require Import ValidityBundles AccountStorage TaskProofs TaskBalances.
Local Open Scope Z_scope.

(** ** Elements that a match can use *)

Record live_intent (i : StateIntent) : Prop := {
  li_valid : is_intent (inner i);
  li_amount : admitted_amount (amount_in (inner i));
  li_price : fits 127 (repr (min_price (inner i)));
  li_share : has_room 1 (share_stream i);
  li_recovery : has_room 1 (recovery_stream i);
  li_canonical : canonical (wrapper_values i);
}.

(** ** New versions *)

Lemma partial_scalar {F} `{CircuitTypeLaws F} k e priv c rid :
  creates_partial (F:=F) k e priv c rid → (2 ≤ k ≤ NUM (F:=F))%nat →
  canonical c ∧ is_scalar rid.
Proof.
  intros [-> ->] Hk. split; [|apply poseidon_hash_is_scalar]. unfold canonical.
  scalar_list; [apply poseidon_hash_is_scalar|]. cbn [v_advance_recovery swv_public_share pcv_partial_public_commitment v_partial_commitment].
  pose proof (flat_length (swv_public_share e)) as Hl.
  destruct (flat (swv_public_share e)) as [|x [|y l]]; simpl in Hl; [lia..|].
  destruct k as [|[|k]]; [lia..|]. apply v_resumable_is_scalar.
Qed.

(** The balance of a party, re-encrypted for the settlement *)
Lemma balance_reencrypted (b : StateBalance) :
  is_balance (inner b) → has_room 3 (share_stream b) → has_room 1 (recovery_stream b) →
  ∃ shares rid c, reencrypt_for_settlement b = Some (shares, rid, c) ∧
    let new := v_reencrypt_post_match (wrapper_values b) in
    creates_partial BALANCE_PARTIAL_COMMITMENT_SIZE new (v_complement new) (partial_scalars c) rid ∧
    post_match_share_values shares = build_post_match_balance (swv_public_share new).
Proof.
  intros Hb Hs Hr. destruct (reencrypt_post_match_values b Hb Hs) as (p & w & E1 & E2 & E3 & E4 & E5).
  unfold reencrypt_post_match_share in E1. unfold reencrypt_for_settlement.
  destruct (stream_cipher_encrypt b (post_match_balance (inner b))) as [[p' w']|]; [|done].
  cbn [mbind option_bind] in *. apply (inj Some) in E1. injection E1 as -> E1. rewrite E1.
  destruct (compute_recovery_id w) as [rid w2] eqn:E6.
  destruct (version_partially_created (F:=DarkpoolBalanceVar) balance_num
    BALANCE_PARTIAL_COMMITMENT_SIZE w rid w2)
    as (c & E7 & E8); [by rewrite E3|compute; lia|done|].
  rewrite E7. cbn [mbind option_bind]. exists p, rid, c. split; [reflexivity|].
  rewrite E4 in E5, E8. split; [exact E8|exact E5].
Qed.

(** An intent, re-encrypted for another fill *)
Lemma intent_reencrypted (i : StateIntent) :
  live_intent i →
  ∃ share w0 rid w2 c,
    stream_cipher_encrypt (V:=Amount) i (amount_in (inner i)) = Some (share, w0) ∧
    compute_recovery_id (set_public_share (set_amount_in_share share (public_share w0)) w0) =
      (rid, w2) ∧
    compute_partial_commitment w2 INTENT_PARTIAL_COMMITMENT_SIZE = Some c ∧
    let new := v_reencrypt_amount_in (wrapper_values i) in
    creates_partial INTENT_PARTIAL_COMMITMENT_SIZE new (v_complement new) (partial_scalars c) rid ∧
    share = iv_amount_in (swv_public_share new).
Proof.
  intros [_ Ha _ Hs Hr _].
  destruct (reencrypt_amount_in_values i (admitted_u128 _ Ha) Hs) as (p & w & E1 & E2 & E3 & E4 & E5).
  unfold reencrypt_amount_in in E1.
  destruct (stream_cipher_encrypt (V:=Amount) i (amount_in (inner i))) as [[p' w']|]; [|done].
  cbn [mbind option_bind] in *. apply (inj Some) in E1. injection E1 as -> E1.
  destruct (compute_recovery_id w) as [rid w2] eqn:E6.
  destruct (version_partially_created (F:=IntentVar) intent_num INTENT_PARTIAL_COMMITMENT_SIZE w
    rid w2) as (c & E7 & E8); [by rewrite E3|compute; lia|done|].
  exists p, w', rid, w2, c. rewrite E1. rewrite E4 in E5, E8. split; [done|]. split; [done|].
  split; [done|]. split; [exact E8|exact E5].
Qed.

(** An intent as it was placed: the element that the circuit derives from its private shares *)
Lemma cmap2_sub_sub {F} `{CircuitTypeLaws F} (x y : F Scalar) :
  canonical y → cmap2 scalar_sub x (cmap2 scalar_sub x y) = y.
Proof.
  intros Hy. apply flat_inj. rewrite !cmap2_flat. apply zip_sub_sub; [done|].
  by rewrite !flat_length.
Qed.

Lemma placed_intent (i : StateIntent) :
  canonical (share_values (public_share i)) →
  ∃ p, private_shares i = Some p ∧
    v_shared_intent (csprng_values (recovery_stream i)) (csprng_values (share_stream i))
      (intent_values (inner i)) (intent_share_values p) = wrapper_values i ∧
    intent_share_values p = v_complement (wrapper_values i).
Proof.
  intros Hc. unfold private_shares, parse.
  destruct (share_full (T:=Intent) (Sh:=IntentShare) (private_scalars i) []) as (p & Hp & Ep).
  { rewrite <-(complement_flat (F:=IntentVar)), flat_length. done. }
  { apply Forall_zip_sub. }
  rewrite app_nil_r in Hp. rewrite Hp. cbn [fmap option_fmap option_map fst].
  exists p. split; [done|].
  assert (intent_share_values p = v_complement (wrapper_values i)) as E.
  { apply flat_inj. rewrite complement_flat, <-Ep. apply intent_share_values_flat. }
  split; [|done]. rewrite E. unfold v_shared_intent, v_complement, wrapper_values.
  cbn [swv_inner swv_public_share]. f_equal. by apply cmap2_sub_sub.
Qed.

Lemma placed_commitments (i : StateIntent) rid i' :
  has_room 1 (recovery_stream i) → compute_recovery_id i = (rid, i') →
  rid = v_recovery_id (wrapper_values i) ∧
  compute_private_commitment i' =
    Some (v_private_commitment (v_complement (wrapper_values i))
      (v_advance_recovery (wrapper_values i))).
Proof.
  intros Hr E. destruct (compute_recovery_id_values (F:=IntentVar) i Hr) as [E1 E2].
  rewrite E in E1, E2. cbn [fst snd] in *. split; [done|].
  rewrite private_commitment_values, E2. reflexivity.
Qed.

Lemma wrapper_parts {F} `{CircuitType F} (e : StateWrapperVar F Scalar) :
  canonical e → canonical (swv_recovery_stream e) ∧ canonical (swv_share_stream e) ∧
    canonical (swv_inner e) ∧ canonical (swv_public_share e).
Proof. unfold canonical. cbn [flat wrapper_type]. rewrite !Forall_app. tauto. Qed.

Lemma complement_canonical {F} `{CircuitTypeLaws F} (e : StateWrapperVar F Scalar) :
  canonical (v_complement e).
Proof. unfold canonical, v_complement. rewrite cmap2_flat. apply Forall_zip_sub. Qed.

(** ** Accepted validity proofs *)

(** A balance whose next version a settlement can complete *)
Record live_balance (b : StateBalance) (p : MerkleAuthenticationPath) : Prop := {
  lb_valid : is_balance (inner b);
  lb_share : has_room 3 (share_stream b);
  lb_recovery : has_room 1 (recovery_stream b);
  lb_spendable : spendable b p;
}.

Lemma post_match_canonical (b : StateBalanceVar Scalar) :
  canonical (build_post_match_balance (swv_public_share (v_reencrypt_post_match b))).
Proof. unfold canonical. scalar_list; apply scalar_sub_is_scalar. Qed.

Section Validity.
Context {Cv : CurveSpec} {S : ProofSystem Cv}.

(** What a validity proof of a balance uses: the old version opens, and the next one is
    committed to in part. *)
Record balance_rotates (b : StateBalance) (p : MerkleAuthenticationPath) root nullifier shares rid
    c : Prop := {
  br_reencrypt : reencrypt_for_settlement b = Some (shares, rid, c);
  br_root : compute_root p = root;
  br_nullifier : compute_nullifier b = nullifier;
  br_opens : opens_to (wrapper_values b) (v_complement (wrapper_values b)) (path_values p) root
    nullifier;
  br_new : let new := v_reencrypt_post_match (wrapper_values b) in
    creates_partial BALANCE_PARTIAL_COMMITMENT_SIZE new (v_complement new) (partial_scalars c) rid;
  br_shares : post_match_share_values shares =
    build_post_match_balance (swv_public_share (v_reencrypt_post_match (wrapper_values b)));
  br_canonical : canonical (wrapper_values b);
  br_inner : canonical (balance_values (inner b));
  br_path : is_path (path_values p);
  br_root_scalar : is_scalar root;
  br_nullifier_scalar : is_scalar nullifier;
  br_partial_scalar : canonical (partial_scalars c);
  br_rid_scalar : is_scalar rid;
  br_shares_scalar : canonical (post_match_share_values shares);
}.

Lemma live_balance_rotates b p :
  live_balance b p → ∃ root nullifier shares rid c, balance_rotates b p root nullifier shares rid c.
Proof.
  intros [Hb Hs Hr Hsp].
  destruct (balance_reencrypted b Hb Hs Hr) as (shares & rid & c & E1 & E2 & E3).
  pose proof (spendable_opens (F:=DarkpoolBalanceVar) balance_num b p Hsp) as Ho.
  destruct (opens_scalars _ _ _ _ _ Ho) as [H1 H2'].
  destruct (partial_scalar _ _ _ _ _ E2) as [H3 H4]; [compute; lia|].
  exists (compute_root p), (compute_nullifier b), shares, rid, c.
  split; [exact E1|reflexivity|reflexivity|exact Ho|exact E2|exact E3|apply Hsp| | |exact H1
    |exact H2'|exact H3|exact H4|].
  - by apply balance_values_canonical.
  - exact (spendable_path (F:=DarkpoolBalanceVar) b p Hsp).
  - rewrite E3. apply post_match_canonical.
Qed.

(** The same for an intent that has been filled before *)
Record intent_rotates (i : StateIntent) (p : MerkleAuthenticationPath) root nullifier share w0 rid
    w2 c : Prop := {
  ir_encrypt : stream_cipher_encrypt (V:=Amount) i (amount_in (inner i)) = Some (share, w0);
  ir_recovery : compute_recovery_id
    (set_public_share (set_amount_in_share share (public_share w0)) w0) = (rid, w2);
  ir_commitment : compute_partial_commitment w2 INTENT_PARTIAL_COMMITMENT_SIZE = Some c;
  ir_root : compute_root p = root;
  ir_nullifier : compute_nullifier i = nullifier;
  ir_opens : opens_to (wrapper_values i) (v_complement (wrapper_values i)) (path_values p) root
    nullifier;
  ir_new : let new := v_reencrypt_amount_in (wrapper_values i) in
    creates_partial INTENT_PARTIAL_COMMITMENT_SIZE new (v_complement new) (partial_scalars c) rid;
  ir_share : share = iv_amount_in (swv_public_share (v_reencrypt_amount_in (wrapper_values i)));
  ir_canonical : canonical (wrapper_values i);
  ir_inner : canonical (intent_values (inner i));
  ir_path : is_path (path_values p);
  ir_root_scalar : is_scalar root;
  ir_nullifier_scalar : is_scalar nullifier;
  ir_partial_scalar : canonical (partial_scalars c);
  ir_rid_scalar : is_scalar rid;
  ir_share_scalar : is_scalar share;
}.

Lemma intent_values_canonical i : is_intent i → canonical (intent_values i).
Proof.
  intros (_ & _ & _ & Hp & _). unfold canonical.
  scalar_list; try assumption; apply scalar_from_is_scalar.
Qed.

Lemma live_intent_rotates i p :
  live_intent i → spendable i p →
  ∃ root nullifier share w0 rid w2 c, intent_rotates i p root nullifier share w0 rid w2 c.
Proof.
  intros Hi Hsp. destruct (intent_reencrypted i Hi)
    as (share & w0 & rid & w2 & c & E1 & E2 & E3 & E4 & E5).
  pose proof (spendable_opens (F:=IntentVar) intent_num i p Hsp) as Ho.
  destruct (opens_scalars _ _ _ _ _ Ho) as [H1 H2'].
  destruct (partial_scalar _ _ _ _ _ E4) as [H3 H4]; [compute; lia|].
  exists (compute_root p), (compute_nullifier i), share, w0, rid, w2, c.
  split; [exact E1|exact E2|exact E3|reflexivity|reflexivity|exact Ho|exact E4|exact E5|apply Hsp
    | | |exact H1|exact H2'|exact H3|exact H4|].
  - apply intent_values_canonical, Hi.
  - exact (spendable_path (F:=IntentVar) i p Hsp).
  - rewrite E5. apply scalar_sub_is_scalar.
Qed.

Lemma existing_output_accepted b p :
  live_balance b p →
  ∃ x s, generate_existing_witness_statement b p = Some (x, s) ∧
    proved (OutputBalanceValidityCircuit MERKLE_HEIGHT) s x ∧
    obw_old_balance x = wrapper_values b ∧ obw_balance x = balance_values (inner b) ∧
    obw_post_match_balance_shares x =
      build_post_match_balance (swv_public_share (v_reencrypt_post_match (wrapper_values b))).
Proof.
  intros Hb. destruct (live_balance_rotates b p Hb) as (root & nullifier & shares & rid & c & []).
  unfold generate_existing_witness_statement.
  rewrite br_reencrypt0, br_root0, br_nullifier0. cbn [mbind option_bind]. eexists _, _.
  split; [reflexivity|]. split; [|split; [reflexivity|split; [reflexivity|exact br_shares0]]].
  apply (implements_complete _ _ _ _ (output_balance_implements MERKLE_HEIGHT)
    (output_balance_scoped MERKLE_HEIGHT)).
  - canonical_parts.
  - valid_parts.
  - split; [reflexivity|exact br_opens0|]. split; [exact br_new0|exact br_shares0].
Qed.

Lemma intent_only_accepted i p :
  live_intent i → spendable i p →
  ∃ x s, generate_intent_only_subsequent_fill_witness_statement i p = Some (x, s) ∧
    proved (IntentOnlyValidityCircuit MERKLE_HEIGHT) s x ∧
    iow_old_intent x = wrapper_values i ∧ iow_intent x = intent_values (inner i).
Proof.
  intros Hi Hsp. destruct (live_intent_rotates i p Hi Hsp)
    as (root & nullifier & share & w0 & rid & w2 & c & []).
  unfold generate_intent_only_subsequent_fill_witness_statement.
  rewrite ir_encrypt0, ir_root0, ir_nullifier0. cbn [mbind option_bind].
  rewrite ir_recovery0. cbn [mbind option_bind]. rewrite ir_commitment0. cbn [mbind option_bind].
  eexists _, _. split; [reflexivity|]. split; [|split; reflexivity].
  apply (implements_complete _ _ _ _ (intent_only_implements MERKLE_HEIGHT)
    (intent_only_scoped MERKLE_HEIGHT)).
  - canonical_parts. apply scalar_from_is_scalar.
  - valid_parts.
  - split; [reflexivity|reflexivity|exact ir_share0|exact ir_opens0|exact ir_new0].
Qed.

Lemma intent_and_balance_accepted i b ip bp :
  live_intent i → spendable i ip → live_balance b bp →
  in_token (inner i) = mint (inner b) → intent_owner (inner i) = owner (inner b) →
  ∃ x s, generate_subsequent_fill_witness_statement i b ip bp = Some (x, s) ∧
    proved (IntentAndBalanceValidityCircuit MERKLE_HEIGHT) s x ∧
    ibw_old_intent x = wrapper_values i ∧ ibw_old_balance x = wrapper_values b ∧
    ibw_intent x = intent_values (inner i) ∧ ibw_balance x = balance_values (inner b) ∧
    ibw_new_amount_public_share x =
      iv_amount_in (swv_public_share (v_reencrypt_amount_in (wrapper_values i))) ∧
    ibw_post_match_balance_shares x =
      build_post_match_balance (swv_public_share (v_reencrypt_post_match (wrapper_values b))).
Proof.
  intros Hi Hsp Hb Et Eo. destruct (live_intent_rotates i ip Hi Hsp)
    as (root & nullifier & share & w0 & rid & w2 & c & []).
  destruct (live_balance_rotates b bp Hb) as (root' & nullifier' & shares & rid' & c' & []).
  unfold generate_subsequent_fill_witness_statement.
  rewrite ir_encrypt0, ir_root0, ir_nullifier0. cbn [mbind option_bind].
  rewrite ir_recovery0. cbn [mbind option_bind]. rewrite ir_commitment0. cbn [mbind option_bind].
  rewrite br_reencrypt0, br_root0, br_nullifier0. cbn [mbind option_bind].
  eexists _, _. split; [reflexivity|].
  split; [|split; [reflexivity|split; [reflexivity|split; [reflexivity|split; [reflexivity|
    split; [exact ir_share0|exact br_shares0]]]]]].
  apply (implements_complete _ _ _ _ (intent_and_balance_implements MERKLE_HEIGHT)
    (intent_and_balance_scoped MERKLE_HEIGHT)).
  - canonical_parts.
  - valid_parts.
  - split; [reflexivity|exact ir_opens0|split; [exact ir_new0|exact ir_share0]|reflexivity
      |exact br_opens0|split; [exact br_new0|exact br_shares0]| |].
    + exact (f_equal address_to_scalar Et).
    + exact (f_equal address_to_scalar Eo).
Qed.

(** What the first fill of an order uses: the intent as it was placed *)
Record intent_shared (i : StateIntent) rid i' c private : Prop := {
  is_recovery : compute_recovery_id i = (rid, i');
  is_commitment : compute_private_commitment i' = Some c;
  is_private : private_shares i = Some private;
  is_element :
    v_shared_intent (csprng_values (recovery_stream i)) (csprng_values (share_stream i))
      (intent_values (inner i)) (intent_share_values private) = wrapper_values i;
  is_complement : intent_share_values private = v_complement (wrapper_values i);
  is_rid : rid = v_recovery_id (wrapper_values i);
  is_private_commitment : c = v_private_commitment (v_complement (wrapper_values i))
    (v_advance_recovery (wrapper_values i));
  is_recovery_canonical : canonical (csprng_values (recovery_stream i));
  is_share_canonical : canonical (csprng_values (share_stream i));
  is_inner : canonical (intent_values (inner i));
  is_public : canonical (intent_share_values (public_share i));
  is_private_canonical : canonical (intent_share_values private);
  is_rid_scalar : is_scalar rid;
  is_commitment_scalar : is_scalar c;
}.

Lemma live_intent_shared i :
  live_intent i → ∃ rid i' c private, intent_shared i rid i' c private.
Proof.
  intros Hi. destruct (wrapper_parts _ (li_canonical i Hi)) as (C1 & C2 & C3 & C4).
  destruct (compute_recovery_id i) as [rid i'] eqn:E1.
  destruct (placed_commitments i rid i' (li_recovery i Hi) E1) as [E2 E3].
  destruct (placed_intent i C4) as (private & E4 & E5 & E6).
  exists rid, i', (v_private_commitment (v_complement (wrapper_values i))
    (v_advance_recovery (wrapper_values i))), private.
  split; [exact E1|exact E3|exact E4|exact E5|exact E6|exact E2|reflexivity|exact C1|exact C2
    |exact C3|exact C4| | |].
  - rewrite E6. apply complement_canonical.
  - rewrite E2. apply poseidon_hash_is_scalar.
  - apply poseidon_hash_is_scalar.
Qed.

Lemma intent_only_first_fill_accepted i :
  live_intent i →
  ∃ x s, generate_intent_only_first_fill_witness_statement i = Some (x, s) ∧
    proved IntentOnlyFirstFillValidityCircuit s x ∧ fow_intent x = intent_values (inner i) ∧
    v_shared_intent (fow_initial_intent_recovery_stream x) (fow_initial_intent_share_stream x)
      (fow_intent x) (fow_private_shares x) = wrapper_values i.
Proof.
  intros Hi. destruct (live_intent_shared i Hi) as (rid & i' & c & private & []).
  unfold generate_intent_only_first_fill_witness_statement.
  rewrite is_recovery0. cbn [mbind option_bind]. rewrite is_commitment0. cbn [mbind option_bind].
  rewrite is_private0. cbn [mbind option_bind]. eexists _, _.
  split; [reflexivity|]. split; [|split; [reflexivity|exact is_element0]].
  apply (implements_complete _ _ _ _ intent_only_first_fill_implements
    intent_only_first_fill_scoped).
  - canonical_parts. apply scalar_from_is_scalar.
  - apply valid_plain. canonical_parts.
  - split; cbn [fow_intent fow_initial_intent_recovery_stream fow_initial_intent_share_stream
      fow_private_shares fos_intent_public_share fos_recovery_id fos_intent_private_commitment].
    + apply admitted_fits, Hi.
    + apply Hi.
    + reflexivity.
    + rewrite is_element0, is_complement0. split; [reflexivity|].
      split; [exact is_rid0|exact is_private_commitment0].
Qed.

Lemma pre_match_intent_canonical (s : IntentVar Scalar) :
  canonical s → canonical (build_pre_match_intent_share s) ∧ is_scalar (iv_amount_in s).
Proof.
  unfold canonical. cbn [flat intent_type pre_match_intent_type build_pre_match_intent_share
    piv_in_token piv_out_token piv_owner piv_min_price]. rewrite !Forall_cons. tauto.
Qed.

(** The owner of the input balance has signed the commitment of the order. *)
Definition authorizes (b : StateBalance) {T Sh} `{SecretShare T Sh} (w : StateWrapper T Sh)
    (sig : SchnorrSignature) : Prop :=
  ∃ c, compute_commitment w = Some c ∧
    schnorr_verifies (public_key_values (authority (inner b))) [c] (signature_values sig) ∧
    canonical (signature_values sig).

Lemma first_fill_accepted i b bp sig :
  live_intent i → live_balance b bp → authorizes b i sig →
  in_token (inner i) = mint (inner b) → intent_owner (inner i) = owner (inner b) →
  ∃ x s, generate_first_fill_witness_statement i b bp sig = Some (x, s) ∧
    proved (IntentAndBalanceFirstFillValidityCircuit MERKLE_HEIGHT) s x ∧
    v_shared_intent (ffw_initial_intent_recovery_stream x) (ffw_initial_intent_share_stream x)
      (ffw_intent x) (ffw_private_intent_shares x) = wrapper_values i ∧
    ffw_old_balance x = wrapper_values b ∧
    ffw_intent x = intent_values (inner i) ∧ ffw_balance x = balance_values (inner b) ∧
    ffw_new_amount_public_share x = iv_amount_in (swv_public_share (wrapper_values i)) ∧
    ffw_post_match_balance_shares x =
      build_post_match_balance (swv_public_share (v_reencrypt_post_match (wrapper_values b))).
Proof.
  intros Hi Hb (cm & Ec & Hsig & Hcs) Et Eo.
  rewrite (commitment_values (F:=IntentVar)) in Ec by done. apply (inj Some) in Ec.
  destruct (live_intent_shared i Hi) as (rid & i' & c & private & []).
  destruct (live_balance_rotates b bp Hb) as (root' & nullifier' & shares & rid' & c' & []).
  destruct (pre_match_intent_canonical _ is_public0) as [Hpre Ha].
  unfold generate_first_fill_witness_statement.
  rewrite is_recovery0. cbn [mbind option_bind]. rewrite is_commitment0. cbn [mbind option_bind].
  rewrite is_private0. cbn [mbind option_bind].
  rewrite br_reencrypt0, br_root0, br_nullifier0. cbn [mbind option_bind].
  eexists _, _. split; [reflexivity|].
  split; [|split; [exact is_element0|split; [reflexivity|split; [reflexivity|split; [reflexivity|
    split; [reflexivity|exact br_shares0]]]]]].
  apply (implements_complete _ _ _ _ (intent_and_balance_first_fill_implements MERKLE_HEIGHT)
    (intent_and_balance_first_fill_scoped MERKLE_HEIGHT)).
  - canonical_parts.
  - valid_parts.
  - split; cbn [ffw_balance ffw_old_balance ffw_balance_opening ffw_post_match_balance_shares
      ffw_intent ffw_initial_intent_recovery_stream ffw_initial_intent_share_stream
      ffw_private_intent_shares ffw_new_amount_public_share ffw_intent_authorization_signature
      ffs_merkle_root ffs_old_balance_nullifier ffs_balance_partial_commitment
      ffs_balance_recovery_id ffs_intent_public_share ffs_intent_recovery_id
      ffs_intent_private_share_commitment].
    + reflexivity.
    + exact br_opens0.
    + split; [exact br_new0|exact br_shares0].
    + exact (f_equal address_to_scalar Eo).
    + apply Hi.
    + apply admitted_fits, Hi.
    + exact (f_equal address_to_scalar (eq_sym Et)).
    + rewrite is_element0, is_complement0. split; [reflexivity|]. split; [reflexivity|].
      split; [exact is_rid0|]. split; [exact is_private_commitment0|].
      rewrite Ec. exact Hsig.
Qed.

(** A balance as it is created *)
Lemma new_balance_created k m existing :
  is_balance (inner existing) → is_address m →
  ∃ w k', create_new_output_balance m existing k = Some (w, k') ∧
    inner w = balance_new m (owner (inner existing)) (relayer_fee_recipient (inner existing))
      (authority (inner existing)) ∧
    has_room 1 (recovery_stream w) ∧ canonical (wrapper_values w).
Proof.
  intros Hb Hm. unfold create_new_output_balance.
  destruct (sampled_share_stream k) as (ss & k1 & -> & Hss).
  destruct (sampled_recovery_stream k1) as (rs & k2 & -> & Hrs). cbn [seed csprng_new].
  set (b := balance_new _ _ _ _).
  assert (is_balance b) as Hb'.
  { destruct Hb as (_ & Ho & Hf & Ha & _). refine (conj Hm (conj Ho (conj Hf (conj Ha _)))).
    split_and!; by vm_compute. }
  destruct (state_wrapper_new_values b ss rs Hb') as (w & E1 & E2 & E3 & E4); [done|].
  rewrite E1. cbn [mbind option_bind]. exists w, k2.
  split; [reflexivity|]. split; [done|]. split; [by rewrite E3|]. rewrite E4.
  destruct (wrapper_parts _ (canonical_fresh (mkCSPRNGVar rs 0) (mkCSPRNGVar ss 0)
    (balance_values b)
    (seeded_canonical _ Hrs) (seeded_canonical _ Hss) (balance_values_canonical _ Hb')))
    as (_ & C2 & C3 & C4).
  unfold canonical. cbn [flat wrapper_type]. rewrite !Forall_app.
  split; [by apply seeded_canonical|]. split; [exact C2|]. split; [exact C3|exact C4].
Qed.

Lemma pre_match_balance_canonical (s : DarkpoolBalanceVar Scalar) :
  canonical s →
  canonical (build_pre_match_balance_share s) ∧ canonical (build_post_match_balance s).
Proof.
  unfold canonical. cbn [flat balance_type pre_match_balance_type post_match_balance_type
    build_pre_match_balance_share build_post_match_balance pbv_mint pbv_owner
    pbv_relayer_fee_recipient pbv_authority qbv_relayer_fee_balance qbv_protocol_fee_balance
    qbv_amount]. change (flat (bv_authority s)) with
    [pv_x (pkv_point (bv_authority s)); pv_y (pkv_point (bv_authority s))].
  rewrite !Forall_app, !Forall_cons. tauto.
Qed.

Lemma new_output_accepted w existing p sig m :
  inner w = balance_new m (owner (inner existing)) (relayer_fee_recipient (inner existing))
    (authority (inner existing)) →
  has_room 1 (recovery_stream w) → canonical (wrapper_values w) →
  spendable existing p → authorizes existing w sig →
  ∃ x s, generate_new_witness_statement w existing p sig = Some (x, s) ∧
    proved (NewOutputBalanceValidityCircuit MERKLE_HEIGHT) s x ∧
    nbw_new_balance x = wrapper_values w ∧ nbw_balance x = balance_values (inner w) ∧
    nbw_post_match_balance_shares x =
      build_post_match_balance (swv_public_share (wrapper_values w)).
Proof.
  intros Ei Hr Hc Hsp (cm & Ec & Hsig & Hcs).
  rewrite (commitment_values (F:=DarkpoolBalanceVar)) in Ec by done. apply (inj Some) in Ec.
  destruct (wrapper_parts _ Hc) as (C1 & C2 & C3 & C4).
  destruct (pre_match_balance_canonical _ C4) as [Hpre Hpost].
  pose proof (sp_canonical existing p Hsp) as Hce.
  pose proof (spendable_path (F:=DarkpoolBalanceVar) existing p Hsp) as Hpa.
  pose proof (spendable_opens (F:=DarkpoolBalanceVar) balance_num existing p Hsp) as Ho.
  revert Ho. unfold generate_new_witness_statement.
  generalize (compute_root p) as root, (compute_nullifier existing) as nullifier.
  intros root nullifier Ho. destruct (opens_scalars _ _ _ _ _ Ho) as [H1 H2'].
  destruct (compute_recovery_id w) as [rid w'] eqn:E1.
  destruct (version_partially_created (F:=DarkpoolBalanceVar) balance_num
    BALANCE_PARTIAL_COMMITMENT_SIZE w rid w' Hr) as (c & E2 & E3); [compute; lia|exact E1|].
  destruct (partial_scalar _ _ _ _ _ E3) as [H3 H4]; [compute; lia|].
  cbn [mbind option_bind]. rewrite E2. cbn [mbind option_bind]. eexists _, _.
  split; [reflexivity|]. split; [|split; [reflexivity|split; reflexivity]].
  apply (implements_complete _ _ _ _ (new_output_balance_implements MERKLE_HEIGHT)
    (new_output_balance_scoped MERKLE_HEIGHT)).
  - canonical_parts.
  - valid_parts.
  - rewrite <-Ec in Hsig. split; [reflexivity| | |exact E3|exact Ho|exact Hsig|..];
      cbn [nbw_balance nbw_existing_balance swv_inner wrapper_values values native_balance].
    + rewrite Ei. split; [reflexivity|]. split; reflexivity.
    + split; reflexivity.
    + rewrite Ei. reflexivity.
    + rewrite Ei. reflexivity.
    + rewrite Ei. reflexivity.
Qed.
End Validity.
