(* ===== verification/TaskSettlement.v ===== *)
(** * Settlement of a private match

    tasks/settlement/settle_private_match.rs with helpers/{mod,ring2,ring3,output_balance,
    private_fill_validity_bundle}.rs (TaskProofs.v): the validity proofs of two parties, the
    settlement proof that links them, and the versions of orders and balances that the
    relayer stores.  The settlement proof of a fillable match is accepted, and the stored
    versions are the elements of the ledger after the contract's step. *)
From S2P Require Import Prelude Scalar FixedPoint BaseType Poseidon2 Circuit CircuitTypes Gadgets.
From S2P Require Import Merkle PoseidonGadget StateGadgets ProverCircuit BalanceCircuits.
From S2P Require Import ValidityCircuits SettlementCircuits CircuitScoping Darkpool DarkpoolExit.
From S2P Require Import DarkpoolCorrect NativeAgreement DarkpoolTypes StateWrapper AccountTypes.
From S2P Require Import ValidityBundles AccountStorage TaskProofs TaskBalances TaskValidity.
Local Open Scope Z_scope.

(** ** Fillable obligations *)

(** The obligation of a party is within its order, its input balance and the range of its
    output balance. *)
Record fillable (i : Intent) (in_ out : DarkpoolBalance) (o : SettlementObligation) : Prop := {
  fl_input : input_token o = in_token i;
  fl_output : output_token o = out_token i;
  fl_amount_in : 0 ≤ obligation_amount_in o ≤ amount_in i;
  fl_capital : obligation_amount_in o ≤ amount in_;
  fl_amount_out : 0 ≤ obligation_amount_out o;
  fl_price : repr (min_price i) * obligation_amount_in o / 2 ^ 63 ≤ obligation_amount_out o;
  fl_in_range : admitted_amount (amount in_) ∧ admitted_amount (relayer_fee_balance in_) ∧
    admitted_amount (protocol_fee_balance in_);
  fl_mint : mint out = output_token o;
  fl_owner : owner out = intent_owner i;
  fl_out_nonneg : 0 ≤ amount out ∧ 0 ≤ relayer_fee_balance out ∧ 0 ≤ protocol_fee_balance out;
  fl_out_range : amount out + obligation_amount_out o < 2 ^ 100 ∧
    relayer_fee_balance out + obligation_amount_out o < 2 ^ 100 ∧
    protocol_fee_balance out + obligation_amount_out o < 2 ^ 100;
}.

(** Rates below one whose sum is at most one *)
Record admitted_rates (r : FeeRates) : Prop := {
  ar_valid : valid_rates r;
  ar_relayer : repr (relayer_fee_rate r) < 2 ^ 63;
  ar_protocol : repr (protocol_fee_rate r) < 2 ^ 63;
}.

Lemma admitted_rates_in_range r : admitted_rates r → rates_in_range (fee_rates_values r).
Proof. intros [(H1 & H2' & _) H3 H4]. split; unfold rate_in_range, fits; simpl; lia. Qed.

Section Fillable.
Context (i : Intent) (in_ out : DarkpoolBalance) (o : SettlementObligation).
Context (Hf : fillable i in_ out o).

Lemma fillable_amounts :
  admitted_amount (obligation_amount_in o) ∧ admitted_amount (obligation_amount_out o) ∧
  admitted_amount (amount out) ∧ admitted_amount (relayer_fee_balance out) ∧
  admitted_amount (protocol_fee_balance out).
Proof using Hf. destruct Hf. unfold admitted_amount in *. lia. Qed.

Lemma obligation_values_in_range : obligation_in_range (obligation_values o).
Proof using Hf. destruct fillable_amounts as (H1 & H2' & _). split; by apply admitted_fits. Qed.

Lemma balances_values_in_range :
  balance_in_range (balance_values in_) ∧ balance_in_range (balance_values out).
Proof using Hf.
  destruct fillable_amounts as (_ & _ & H1 & H2' & H3).
  destruct (fl_in_range _ _ _ _ Hf) as (H4 & H5 & H6).
  split; split; by apply admitted_fits.
Qed.

Lemma fillable_satisfies :
  admitted_amount (amount_in i) → satisfies_intent (intent_values i) (obligation_values o).
Proof using Hf.
  intros Ha. destruct fillable_amounts as (H1 & H2' & _). destruct Hf. split; simpl.
  - by rewrite fl_input0.
  - by rewrite fl_output0.
  - rewrite !admitted_scalar by done. lia.
  - rewrite !admitted_scalar by done. exact fl_price0.
Qed.

Lemma fillable_admits rates :
  admitted_amount (amount_in i) → admitted_rates rates →
  admits (intent_values i) (balance_values in_) (balance_values out) (obligation_values o)
    (fee_rates_values rates).
Proof using Hf.
  intros Ha Hr. pose proof (fillable_satisfies Ha) as Hs.
  destruct fillable_amounts as (H1 & H2' & H3 & H4 & H5).
  destruct (fee_take_bounds rates (obligation_amount_out o)) as (B1 & B2 & B3);
    [apply Hr|by apply admitted_u128|].
  destruct (compute_fee_take_exact rates (obligation_amount_out o)) as (E1 & E2);
    [apply Hr|by apply admitted_u128|]. rewrite E1, E2 in *.
  destruct Hf. split; [done|..]; unfold net_receive, floor_mul; simpl.
  - rewrite !admitted_scalar; [done|apply fl_in_range0|done].
  - by rewrite fl_mint0.
  - by rewrite fl_owner0.
  - rewrite !admitted_scalar by done. apply fits_100_intro. lia.
  - rewrite !admitted_scalar by done. apply fits_100_intro. lia.
  - rewrite !admitted_scalar by done. apply fits_100_intro. lia.
Qed.
End Fillable.

(** ** A party of the settlement *)

(** The order of a party with its authorization, its input balance and its output balance.
    An output balance without a path is new. *)
Record party := mkPartyState {
  pt_order : Order;
  pt_order_path : MerkleAuthenticationPath;
  pt_order_auth : SchnorrSignature;
  pt_in : Balance;
  pt_in_path : MerkleAuthenticationPath;
  pt_out : Balance;
  pt_out_path : option MerkleAuthenticationPath;
  pt_out_auth : SchnorrSignature;
}.
Abbreviation pt_intent p := (order_intent (pt_order p)) (only parsing).
Abbreviation pt_filled p := (has_been_filled (order_metadata (pt_order p))) (only parsing).

(** The proof of the order and its input balance
    ([update_intent_and_balance_validity_proof]) *)
Definition fill_proof (p : party) : option PrivateFillValidityBundle :=
  let b := state_wrapper (pt_in p) in
  if pt_filled p then
    '(x, _) ← generate_subsequent_fill_witness_statement (pt_intent p) b (pt_order_path p)
                (pt_in_path p);
    Some (SubsequentFill x)
  else
    '(x, _) ← generate_first_fill_witness_statement (pt_intent p) b (pt_in_path p)
                (pt_order_auth p);
    Some (FirstFill x).

(** The proof of the output balance ([update_output_balance_validity_proof]) *)
Definition output_proof (p : party) : option OutputBalance_ :=
  match pt_out_path p with
  | Some path =>
      '(x, _) ← generate_existing_witness_statement (state_wrapper (pt_out p)) path;
      Some (ExistingOutput x)
  | None =>
      '(x, _) ← generate_new_witness_statement (state_wrapper (pt_out p)) (state_wrapper (pt_in p))
                  (pt_in_path p) (pt_out_auth p);
      Some (NewOutput x)
  end.

(** The order and the balances that the relayer stores after the settlement *)
Definition settled_state (cfg : SettlementConfig) (p : party) (o : SettlementObligation)
    : option (Order * Balance * Balance) :=
  order ← build_updated_intent (pt_order p) o;
  in_ ← build_updated_input_balance (pt_in p) o;
  out ← (if pt_out_path p then build_existing_output_balance (pt_out p) else Some (pt_out p));
  out ← build_updated_output_balance cfg out o true;
  Some (order, in_, out).

(** The elements of the ledger that a party spends, and the versions that the settlement
    completes *)
Definition spent_intents (p : party) : list (StateIntentVar Scalar) :=
  if pt_filled p then [wrapper_values (pt_intent p)] else [].
Definition spent_outputs (p : party) : list (StateBalanceVar Scalar) :=
  if pt_out_path p then [wrapper_values (state_wrapper (pt_out p))] else [].
Definition intent_version (p : party) : StateIntentVar Scalar :=
  let e := wrapper_values (pt_intent p) in
  if pt_filled p then v_reencrypt_amount_in e else e.
Definition input_version (p : party) : StateBalanceVar Scalar :=
  v_reencrypt_post_match (wrapper_values (state_wrapper (pt_in p))).
Definition output_version (p : party) : StateBalanceVar Scalar :=
  let e := wrapper_values (state_wrapper (pt_out p)) in
  if pt_out_path p then v_reencrypt_post_match e else e.

(** What the relayer's state, the signatures of the owner and the match provide *)
Record party_ready `{CurveSpec} (p : party) (o : SettlementObligation) : Prop := {
  pr_ring : order_ring (pt_order p) = Ring2 ∨ order_ring (pt_order p) = Ring3;
  pr_intent : live_intent (pt_intent p);
  pr_filled : pt_filled p = true → spendable (pt_intent p) (pt_order_path p);
  pr_unfilled : pt_filled p = false →
    authorizes (state_wrapper (pt_in p)) (pt_intent p) (pt_order_auth p);
  pr_in : live_balance (state_wrapper (pt_in p)) (pt_in_path p);
  pr_token : in_token (inner (pt_intent p)) = balance_mint (pt_in p);
  pr_owner : intent_owner (inner (pt_intent p)) = balance_owner (pt_in p);
  pr_out : match pt_out_path p with
    | Some path => live_balance (state_wrapper (pt_out p)) path
    | None =>
        let w := state_wrapper (pt_out p) in let e := inner (state_wrapper (pt_in p)) in
        inner w = balance_new (mint (inner w)) (owner e) (relayer_fee_recipient e) (authority e) ∧
        has_room 1 (recovery_stream w) ∧ canonical (wrapper_values w) ∧
        authorizes (state_wrapper (pt_in p)) w (pt_out_auth p)
    end;
  pr_fillable : fillable (inner (pt_intent p)) (inner (state_wrapper (pt_in p)))
    (inner (state_wrapper (pt_out p))) o;
}.

Section Parties.
Context {Cv : CurveSpec} {S : ProofSystem Cv}.

(** The proofs of a party carry its values, and link to any settlement of them. *)
Record fill_of (p : party) (b : PrivateFillValidityBundle) : Prop := {
  fo_intent : fill_intent b = intent_values (inner (pt_intent p));
  fo_balance : fill_balance b = balance_values (inner (state_wrapper (pt_in p)));
  fo_amount_share : fill_new_amount_public_share b =
    iv_amount_in (swv_public_share (intent_version p));
  fo_shares : fill_post_match_balance_shares b =
    build_post_match_balance (swv_public_share (input_version p));
  fo_links sp :
    sp_intent sp = fill_intent b → sp_amount_share sp = fill_new_amount_public_share b →
    sp_input_balance sp = fill_balance b → sp_in_shares sp = fill_post_match_balance_shares b →
    party_input sp (spent_intents p) (wrapper_values (state_wrapper (pt_in p)))
      (intent_version p) (input_version p);
}.
Record output_of (p : party) (b : OutputBalance_) : Prop := {
  oo_balance : output_balance_of b = balance_values (inner (state_wrapper (pt_out p)));
  oo_shares : output_post_match_balance_shares b =
    build_post_match_balance (swv_public_share (output_version p));
  oo_links sp :
    sp_output_balance sp = output_balance_of b →
    sp_out_shares sp = output_post_match_balance_shares b →
    party_output sp (spent_outputs p) (output_version p);
}.

Lemma fill_proof_accepted p o : party_ready p o → ∃ b, fill_proof p = Some b ∧ fill_of p b.
Proof.
  intros Hp. unfold fill_proof.
  pose proof (pr_filled p o Hp) as H1. pose proof (pr_unfilled p o Hp) as H2'.
  destruct (pt_filled p) eqn:Ef.
  - destruct (intent_and_balance_accepted (pt_intent p) (state_wrapper (pt_in p))
      (pt_order_path p) (pt_in_path p)) as (x & s & E & Hx & E1 & E2 & E3 & E4 & E5 & E6);
      [apply Hp|by apply H1|apply Hp|apply Hp|apply Hp|].
    rewrite E. cbn [mbind option_bind]. exists (SubsequentFill x). split; [reflexivity|].
    split; unfold intent_version, spent_intents, input_version; rewrite ?Ef;
      [exact E3|exact E4|exact E5|exact E6|].
    intros sp F1 F2 F3 F4. rewrite <-E1, <-E2.
    apply (input_validity _ MERKLE_HEIGHT s x Hx). unfold intent_and_balance_link, party_input_link.
    rewrite F1, F2, F3, F4. reflexivity.
  - destruct (first_fill_accepted (pt_intent p) (state_wrapper (pt_in p))
      (pt_in_path p) (pt_order_auth p)) as (x & s & E & Hx & E1 & E2 & E3 & E4 & E5 & E6);
      [apply Hp|apply Hp|by apply H2'|apply Hp|apply Hp|].
    rewrite E. cbn [mbind option_bind]. exists (FirstFill x). split; [reflexivity|].
    split; unfold intent_version, spent_intents, input_version; rewrite ?Ef;
      [exact E3|exact E4|exact E5|exact E6|].
    intros sp F1 F2 F3 F4. rewrite <-E1, <-E2.
    apply (input_first_fill _ MERKLE_HEIGHT s x Hx). unfold first_fill_link, party_input_link.
    rewrite F1, F2, F3, F4. reflexivity.
Qed.

Lemma output_proof_accepted p o : party_ready p o → ∃ b, output_proof p = Some b ∧ output_of p b.
Proof.
  intros Hp. pose proof (pr_out p o Hp) as Ho. unfold output_proof.
  destruct (pt_out_path p) as [path|] eqn:Ep.
  - destruct (existing_output_accepted _ _ Ho) as (x & s & E & Hx & E1 & E2 & E3).
    rewrite E. cbn [mbind option_bind]. exists (ExistingOutput x). split; [reflexivity|].
    split; unfold output_version, spent_outputs; rewrite ?Ep; [exact E2|exact E3|].
    intros sp F1 F2. rewrite <-E1.
    apply (output_existing _ MERKLE_HEIGHT s x Hx). unfold output_balance_link, party_output_link.
    rewrite F1, F2. reflexivity.
  - destruct Ho as (E0 & Hr & Hc & Ha). destruct (pr_in p o Hp) as [_ _ _ Hsp].
    destruct (new_output_accepted _ _ _ _ _ E0 Hr Hc Hsp Ha) as (x & s & E & Hx & E1 & E2 & E3).
    rewrite E. cbn [mbind option_bind]. exists (NewOutput x). split; [reflexivity|].
    split; unfold output_version, spent_outputs; rewrite ?Ep; [exact E2|exact E3|].
    intros sp F1 F2. rewrite <-E1.
    apply (output_new _ MERKLE_HEIGHT s x Hx). unfold new_output_balance_link, party_output_link.
    rewrite F1, F2. reflexivity.
Qed.
End Parties.

(** ** The stored versions *)

Lemma intent_settled p o :
  live_intent (pt_intent p) → order_ring (pt_order p) ≠ Ring0 →
  0 ≤ obligation_amount_in o ≤ amount_in (inner (pt_intent p)) →
  ∃ order, build_updated_intent (pt_order p) o = Some order ∧
    wrapper_values (order_intent order) =
      v_advance_recovery (settle_intent (intent_version p) (obligation_values o)) ∧
    order_id order = order_id (pt_order p) ∧ order_ring order = order_ring (pt_order p) ∧
    has_been_filled (order_metadata order) = true ∧
    order_amount_in order = order_amount_in (pt_order p) - obligation_amount_in o.
Proof.
  intros Hi Hr Ho. destruct p as [[oid i ring meta] ? ? ? ? ? ? ?].
  cbn [pt_order order_intent order_ring] in *.
  assert (∃ i', (if has_been_filled meta then '(_, j) ← reencrypt_amount_in i; Some j else Some i)
    = Some i' ∧ inner i' = inner i ∧ recovery_stream i' = recovery_stream i ∧
    wrapper_values i' = (if has_been_filled meta then v_reencrypt_amount_in (wrapper_values i)
      else wrapper_values i)) as (i' & E1 & E2 & E3 & E4).
  { destruct (has_been_filled meta); [|by exists i].
    destruct (reencrypt_amount_in_values i) as (s & j & F1 & F2 & F3 & F4 & _);
      [apply admitted_u128, Hi|apply Hi|]. rewrite F1. by exists j. }
  assert (is_u128 (amount_in (inner i'))) as Hu by (rewrite E2; apply admitted_u128, Hi).
  set (w := apply_settlement_obligation i' o).
  exists (mkOrder oid (advance_recovery_stream w) ring (mark_filled meta)).
  unfold intent_version. cbn [pt_order order_intent order_metadata]. rewrite <-E4. split.
  - unfold build_updated_intent, update_private_intent_after_match.
    unfold order_amount_in at 1. cbn [order_intent order_metadata order_ring].
    destruct (Z.ltb_spec (amount_in (inner i)) (obligation_amount_in o)); [lia|].
    assert (Z.min (obligation_amount_in o) (amount_in (inner i')) = obligation_amount_in o) as Em
      by (rewrite E2; lia).
    destruct ring; [done|..]; destruct (has_been_filled meta);
      repeat (destruct (reencrypt_amount_in i) as [[? ?]|]; [|done]);
      cbn [mbind option_bind] in *; apply (inj Some) in E1; subst i';
      unfold mark_order_filled, set_order_intent, decrement_amount_in, order_amount_in;
      cbn [order_intent order_id order_ring order_metadata fst snd];
      rewrite Em; reflexivity.
  - split_and!; try done.
    + cbn [order_intent]. rewrite (advance_recovery_values (F:=IntentVar)).
      * unfold w. rewrite settle_intent_values; [done..|by rewrite E2].
      * change (has_room 1 (recovery_stream i')). rewrite E3. apply Hi.
    + unfold order_amount_in. cbn [order_intent]. rewrite <-E2.
      change (amount_in (inner w) = amount_in (inner i') - obligation_amount_in o).
      change (u128_sub (amount_in (inner i')) (obligation_amount_in o) =
        amount_in (inner i') - obligation_amount_in o).
      apply is_u128_lt in Hu. rewrite E2 in *. apply u128_sub_small. lia.
Qed.

Lemma input_settled p o path :
  live_balance (state_wrapper (pt_in p)) path →
  0 ≤ obligation_amount_in o ≤ balance_amount (pt_in p) →
  ∃ b, build_updated_input_balance (pt_in p) o = Some b ∧ location b = location (pt_in p) ∧
    wrapper_values (state_wrapper b) =
      v_advance_recovery (settle_input (input_version p) (obligation_values o)).
Proof.
  intros [Hb Hs Hr _] Ho. unfold build_updated_input_balance, input_version.
  destruct (reencrypt_post_match_values _ Hb Hs) as (sh & w & E1 & E2 & E3 & E4 & _).
  rewrite E1. cbn [mbind option_bind]. eexists. split; [reflexivity|]. split; [reflexivity|].
  cbn [state_wrapper]. rewrite (advance_recovery_values (F:=DarkpoolBalanceVar)).
  - rewrite settle_input_values, E4; [done|rewrite E2; apply Hb|by rewrite E2].
  - change (has_room 1 (recovery_stream w)). by rewrite E3.
Qed.

Section Output.
Context (cfg : SettlementConfig).

Lemma output_settled p o rates :
  match pt_out_path p with
  | Some path => live_balance (state_wrapper (pt_out p)) path
  | None => has_room 1 (recovery_stream (state_wrapper (pt_out p)))
  end →
  fillable (inner (pt_intent p)) (inner (state_wrapper (pt_in p)))
    (inner (state_wrapper (pt_out p))) o →
  settlement_fee_rates cfg (pair_from_obligation o) = Some rates → admitted_rates rates →
  ∃ b0 b,
    (if pt_out_path p then build_existing_output_balance (pt_out p) else Some (pt_out p)) = Some b0 ∧
    build_updated_output_balance cfg b0 o true = Some b ∧ location b = location (pt_out p) ∧
    wrapper_values (state_wrapper b) =
      v_advance_recovery (settle_output (output_version p) (obligation_values o)
        (fee_rates_values rates)).
Proof.
  intros Hout Hf Hrates Hr. unfold build_updated_output_balance, output_version.
  assert (∃ b0, (if pt_out_path p then build_existing_output_balance (pt_out p)
      else Some (pt_out p)) = Some b0 ∧
    inner (state_wrapper b0) = inner (state_wrapper (pt_out p)) ∧
    has_room 1 (recovery_stream (state_wrapper b0)) ∧ location b0 = location (pt_out p) ∧
    wrapper_values (state_wrapper b0) =
      (if pt_out_path p then v_reencrypt_post_match (wrapper_values (state_wrapper (pt_out p)))
       else wrapper_values (state_wrapper (pt_out p)))) as (b0 & E1 & E2 & E3 & E4 & E5).
  { destruct (pt_out_path p) as [path|]; [|by exists (pt_out p)].
    destruct Hout as [Hb Hs Hr' _].
    destruct (reencrypt_post_match_values _ Hb Hs) as (sh & w & F1 & F2 & F3 & F4 & _).
    unfold build_existing_output_balance. rewrite F1. cbn [mbind option_bind]. eexists.
    split; [reflexivity|]. cbn [state_wrapper]. rewrite F3. by split_and!. }
  destruct (fillable_amounts _ _ _ _ Hf) as (_ & Ho & _).
  eexists b0, _. rewrite Hrates. split; [exact E1|]. split; [reflexivity|]. split; [exact E4|].
  cbn [state_wrapper]. rewrite (advance_recovery_values (F:=DarkpoolBalanceVar)) by exact E3.
  rewrite (settle_output_values _ _ rates), E5; [done|apply Hr|by apply admitted_u128|..];
    rewrite E2; destruct Hf; lia.
Qed.

Lemma settled_state_versions p o rates `{CurveSpec} :
  party_ready p o → settlement_fee_rates cfg (pair_from_obligation o) = Some rates →
  admitted_rates rates →
  ∃ order in_ out, settled_state cfg p o = Some (order, in_, out) ∧
    wrapper_values (order_intent order) =
      v_advance_recovery (settle_intent (intent_version p) (obligation_values o)) ∧
    wrapper_values (state_wrapper in_) =
      v_advance_recovery (settle_input (input_version p) (obligation_values o)) ∧
    wrapper_values (state_wrapper out) =
      v_advance_recovery (settle_output (output_version p) (obligation_values o)
        (fee_rates_values rates)) ∧
    order_amount_in order = order_amount_in (pt_order p) - obligation_amount_in o ∧
    has_been_filled (order_metadata order) = true.
Proof.
  intros Hp Hrates Hr. pose proof (pr_fillable p o Hp) as Hf.
  destruct (intent_settled p o) as (order & E1 & E2 & _ & _ & E3 & E4);
    [apply Hp|by destruct (pr_ring p o Hp) as [-> | ->]|apply Hf|].
  destruct (input_settled p o _ (pr_in p o Hp)) as (in_ & E5 & _ & E6);
    [unfold balance_amount; destruct Hf; lia|].
  destruct (output_settled p o rates) as (b0 & out & E7 & E8 & _ & E9); [|done..|].
  { pose proof (pr_out p o Hp) as Hout. destruct (pt_out_path p); [done|apply Hout]. }
  exists order, in_, out. split; [|by split_and!]. unfold settled_state.
  rewrite E1. cbn [mbind option_bind]. rewrite E5. cbn [mbind option_bind].
  rewrite E7. cbn [mbind option_bind]. rewrite E8. reflexivity.
Qed.
End Output.

(** ** The settlement proof *)

Lemma apply_obligation_shares a i u o rates :
  admitted_amount (obligation_amount_out o) → admitted_rates rates →
  apply_obligation_to_shares a i u o rates =
  (scalar_sub a (ov_amount_in (obligation_values o)), settle_in_shares i (obligation_values o),
   settle_out_shares u (obligation_values o) (fee_rates_values rates)).
Proof.
  intros Ho Hr. unfold apply_obligation_to_shares, settle_out_shares, net_receive, floor_mul.
  pose proof (admitted_u128 _ Ho) as Hu. pose proof (ar_valid _ Hr) as Hv.
  destruct (compute_fee_take_exact rates _ Hv Hu) as [E1 E2].
  destruct (fee_take_bounds rates _ Hv Hu) as (B1 & B2 & B3).
  destruct (fee_total_exact rates _ Hv Hu) as [E3 B4].
  set (fees := DarkpoolTypes.compute_fee_take _ _) in *. clearbody fees.
  cbn [ov_amount_in ov_amount_out obligation_values frv_relayer_fee_rate frv_protocol_fee_rate
    fee_rates_values fixed_point_values fpv_repr].
  rewrite !(admitted_scalar _ Ho), <-E1, <-E2, E3.
  unfold admitted_amount in Ho. rewrite u128_sub_small by lia.
  rewrite !(admitted_scalar (relayer_fee fees)), !(admitted_scalar (protocol_fee fees))
    by (unfold admitted_amount; lia).
  rewrite (admitted_scalar (obligation_amount_out o - _)) by (unfold admitted_amount; lia).
  rewrite Z.sub_add_distr. reflexivity.
Qed.

Lemma fee_pair_key_comm a b : fee_pair_key a b = fee_pair_key b a.
Proof.
  unfold fee_pair_key. destruct (Z.ltb_spec a b), (Z.ltb_spec b a); [lia|done..|].
  by replace a with b by lia.
Qed.

(** The obligations of a match mirror each other. *)
Record opposite (o0 o1 : SettlementObligation) : Prop := {
  op_in : input_token o1 = output_token o0;
  op_out : output_token o1 = input_token o0;
  op_amount_in : obligation_amount_in o1 = obligation_amount_out o0;
  op_amount_out : obligation_amount_out o1 = obligation_amount_in o0;
}.

Lemma opposite_protocol_fee cfg o0 o1 r0 r1 :
  opposite o0 o1 →
  settlement_fee_rates cfg (pair_from_obligation o0) = Some r0 →
  settlement_fee_rates cfg (pair_from_obligation o1) = Some r1 →
  protocol_fee_rate r1 = protocol_fee_rate r0.
Proof.
  intros [E1 E2 _ _]. unfold settlement_fee_rates, pair_from_obligation, get_protocol_fee.
  cbn [pair_in pair_out]. rewrite E1, E2, (fee_pair_key_comm (output_token o0)).
  destruct (settlement_relayer_fee _ _) as [[? ?]|]; [|done].
  destruct (settlement_relayer_fee _ _) as [[? ?]|]; [|done].
  cbn [mbind option_bind]. intros [= <-] [= <-]. done.
Qed.

Section Settlement.
Context {Cv : CurveSpec} {S : ProofSystem Cv} (cfg : SettlementConfig).
Context (p0 p1 : party) (o0 o1 : SettlementObligation) (r0 r1 : FeeRates).
Context (H0 : party_ready p0 o0) (H1 : party_ready p1 o1) (Hop : opposite o0 o1).
Context (Hr0 : settlement_fee_rates cfg (pair_from_obligation o0) = Some r0).
Context (Hr1 : settlement_fee_rates cfg (pair_from_obligation o1) = Some r1).
Context (A0 : admitted_rates r0) (A1 : admitted_rates r1).

Lemma ready_in_range p o : party_ready p o → 
  intent_in_range (intent_values (inner (pt_intent p))) ∧
  balance_in_range (balance_values (inner (state_wrapper (pt_in p)))) ∧
  balance_in_range (balance_values (inner (state_wrapper (pt_out p)))).
Proof.
  intros Hp. destruct (balances_values_in_range _ _ _ _ (pr_fillable p o Hp)).
  split_and!; [|done..]. split; [apply Hp|apply admitted_fits, Hp].
Qed.

Lemma version_canonical p o : party_ready p o →
  canonical (intent_values (inner (pt_intent p))) ∧
  is_scalar (iv_amount_in (swv_public_share (intent_version p))) ∧
  canonical (balance_values (inner (state_wrapper (pt_in p)))) ∧
  canonical (build_post_match_balance (swv_public_share (input_version p))) ∧
  canonical (balance_values (inner (state_wrapper (pt_out p)))) ∧
  canonical (build_post_match_balance (swv_public_share (output_version p))).
Proof.
  intros Hp. destruct (wrapper_parts _ (li_canonical _ (pr_intent p o Hp))) as (_ & _ & C1 & C2).
  split; [exact C1|]. split.
  { unfold intent_version. destruct (pt_filled p); [apply scalar_sub_is_scalar|].
    apply (pre_match_intent_canonical _ C2). }
  destruct (pr_in p o Hp) as [Hb _ _ _]. split; [by apply balance_values_canonical|].
  split; [apply post_match_canonical|]. pose proof (pr_out p o Hp) as Ho. unfold output_version.
  destruct (pt_out_path p).
  - destruct Ho as [Hb' _ _ _]. split; [by apply balance_values_canonical|].
    apply post_match_canonical.
  - destruct Ho as (_ & _ & Hc & _). destruct (wrapper_parts _ Hc) as (_ & _ & C3 & C4).
    split; [exact C3|]. apply (pre_match_balance_canonical _ C4).
Qed.

(** What [prove_intent_and_balance_private_settlement] computes *)
Definition settlement_witness v0 v1 u0 u1 : IntentAndBalancePrivateSettlementWitness Scalar :=
  mkPrivateSettlementWitness
    (obligation_values o0) (fill_intent v0) (fill_new_amount_public_share v0) (fill_balance v0)
    (fill_post_match_balance_shares v0) (output_balance_of u0) (output_post_match_balance_shares u0)
    (obligation_values o1) (fill_intent v1) (fill_new_amount_public_share v1) (fill_balance v1)
    (fill_post_match_balance_shares v1) (output_balance_of u1) (output_post_match_balance_shares u1).
Definition settlement_statement v0 v1 u0 u1 : IntentAndBalancePrivateSettlementStatement Scalar :=
  mkPrivateSettlementStatement
    (scalar_sub (fill_new_amount_public_share v0) (ov_amount_in (obligation_values o0)))
    (settle_in_shares (fill_post_match_balance_shares v0) (obligation_values o0))
    (settle_out_shares (output_post_match_balance_shares u0) (obligation_values o0)
       (fee_rates_values r0))
    (scalar_sub (fill_new_amount_public_share v1) (ov_amount_in (obligation_values o1)))
    (settle_in_shares (fill_post_match_balance_shares v1) (obligation_values o1))
    (settle_out_shares (output_post_match_balance_shares u1) (obligation_values o1)
       (fee_rates_values r1))
    (fixed_point_values (relayer_fee_rate r0)) (fixed_point_values (relayer_fee_rate r1))
    (fixed_point_values (protocol_fee_rate r0)).

Lemma settlement_computed v0 v1 u0 u1 :
  prove_intent_and_balance_private_settlement cfg o0 o1 v0 v1 u0 u1 =
    Some (settlement_witness v0 v1 u0 u1, settlement_statement v0 v1 u0 u1) ∧
  rates0 (settlement_statement v0 v1 u0 u1) = fee_rates_values r0 ∧
  rates1 (settlement_statement v0 v1 u0 u1) = fee_rates_values r1.
Proof using H0 H1 Hop Hr0 Hr1 A0 A1.
  destruct (fillable_amounts _ _ _ _ (pr_fillable p0 o0 H0)) as (_ & F0 & _).
  destruct (fillable_amounts _ _ _ _ (pr_fillable p1 o1 H1)) as (_ & F1 & _).
  split; [|split; [reflexivity|]].
  - unfold prove_intent_and_balance_private_settlement. rewrite Hr0, Hr1. cbn [mbind option_bind].
    rewrite !apply_obligation_shares by done. reflexivity.
  - pose proof (opposite_protocol_fee cfg o0 o1 r0 r1 Hop Hr0 Hr1) as Ep.
    unfold rates1, fee_rates_values. cbn. by rewrite Ep.
Qed.

Lemma settle_in_canonical s o : canonical s → canonical (settle_in_shares s o).
Proof.
  unfold canonical. cbn [flat post_match_balance_type settle_in_shares qbv_relayer_fee_balance
    qbv_protocol_fee_balance qbv_amount]. rewrite !Forall_cons. intros (C1 & C2 & _ & C3).
  split_and!; try done. apply scalar_sub_is_scalar.
Qed.
Lemma settle_out_canonical s o r : canonical (settle_out_shares s o r).
Proof. unfold canonical. scalar_list; apply scalar_add_is_scalar. Qed.
Lemma obligation_canonical o : canonical (obligation_values o).
Proof. unfold canonical. scalar_list; apply scalar_from_is_scalar. Qed.
Lemma rate_scalar f : 0 ≤ repr f < 2 ^ 63 → is_scalar (fpv_repr (fixed_point_values f)).
Proof. pose proof scalar_modulus_bounds. unfold is_scalar. simpl. lia. Qed.

Lemma party_settled p o v u r x y z :
  party_ready p o → admitted_rates r → fill_of p v → output_of p u →
  x = scalar_sub (fill_new_amount_public_share v) (ov_amount_in (obligation_values o)) →
  y = settle_in_shares (fill_post_match_balance_shares v) (obligation_values o) →
  z = settle_out_shares (output_post_match_balance_shares u) (obligation_values o)
        (fee_rates_values r) →
  party_settles (mkParty _ (obligation_values o) (fill_intent v) (fill_new_amount_public_share v)
    (fill_balance v) (fill_post_match_balance_shares v) (output_balance_of u)
    (output_post_match_balance_shares u)) (fee_rates_values r) x y z.
Proof.
  intros Hp Hr V U -> -> ->. pose proof (pr_fillable p o Hp) as Hf. split; try done.
  - by eapply obligation_values_in_range.
  - cbn [sp_intent sp_input_balance sp_output_balance sp_obligation].
    rewrite (fo_intent p v V), (fo_balance p v V), (oo_balance p u U).
    eapply fillable_admits; [done| |done]. apply Hp.
Qed.

Lemma settlement_accepted v0 v1 u0 u1 :
  fill_of p0 v0 → fill_of p1 v1 → output_of p0 u0 → output_of p1 u1 →
  proved IntentAndBalancePrivateSettlementCircuit (settlement_statement v0 v1 u0 u1)
    (settlement_witness v0 v1 u0 u1).
Proof using H0 H1 Hop Hr0 Hr1 A0 A1.
  intros V0 V1 U0 U1. destruct (settlement_computed v0 v1 u0 u1) as (_ & R0 & R1).
  destruct (version_canonical p0 o0 H0) as (C1 & C2 & C3 & C4 & C5 & C6).
  destruct (version_canonical p1 o1 H1) as (D1 & D2 & D3 & D4 & D5 & D6).
  rewrite <-(fo_intent _ _ V0) in C1. rewrite <-(fo_amount_share _ _ V0) in C2.
  rewrite <-(fo_balance _ _ V0) in C3. rewrite <-(fo_shares _ _ V0) in C4.
  rewrite <-(oo_balance _ _ U0) in C5. rewrite <-(oo_shares _ _ U0) in C6.
  rewrite <-(fo_intent _ _ V1) in D1. rewrite <-(fo_amount_share _ _ V1) in D2.
  rewrite <-(fo_balance _ _ V1) in D3. rewrite <-(fo_shares _ _ V1) in D4.
  rewrite <-(oo_balance _ _ U1) in D5. rewrite <-(oo_shares _ _ U1) in D6.
  apply (implements_under_complete _ _ _ _ _ private_settlement_implements
    private_settlement_scoped).
  - destruct A0 as [(? & ? & _) ? ?], A1 as [(? & ? & _) ? ?]. canonical_parts;
      first [apply scalar_sub_is_scalar|by apply settle_in_canonical|apply settle_out_canonical
            |by apply rate_scalar].
  - apply valid_plain. canonical_parts; apply obligation_canonical.
  - unfold private_settlement_pre. rewrite R0, R1.
    split; [by apply admitted_rates_in_range|]. split; [by apply admitted_rates_in_range|].
    unfold party_in_range, party0, party1. cbn.
    rewrite (fo_intent _ _ V0), (fo_balance _ _ V0), (oo_balance _ _ U0).
    rewrite (fo_intent _ _ V1), (fo_balance _ _ V1), (oo_balance _ _ U1).
    split; by eapply ready_in_range.
  - split; rewrite ?R0, ?R1.
    + destruct Hop as [E1 E2 E3 E4]. cbn. by rewrite E1, E2, E3, E4.
    + by apply (party_settled p0).
    + by apply (party_settled p1).
Qed.

(** The whole settlement of the two parties *)
Lemma settlement_follows L rest_b rest_i :
  lg_balances L ≡ₚ wrapper_values (state_wrapper (pt_in p0)) ::
    wrapper_values (state_wrapper (pt_in p1)) :: spent_outputs p0 ++ spent_outputs p1 ++ rest_b →
  lg_intents L ≡ₚ spent_intents p0 ++ spent_intents p1 ++ rest_i →
  ∃ v0 v1 u0 u1 x s order0 in0 out0 order1 in1 out1,
    fill_proof p0 = Some v0 ∧ fill_proof p1 = Some v1 ∧
    output_proof p0 = Some u0 ∧ output_proof p1 = Some u1 ∧
    prove_intent_and_balance_private_settlement cfg o0 o1 v0 v1 u0 u1 = Some (x, s) ∧
    proved IntentAndBalancePrivateSettlementCircuit s x ∧
    settled_state cfg p0 o0 = Some (order0, in0, out0) ∧
    settled_state cfg p1 o1 = Some (order1, in1, out1) ∧
    step L (mkLedger
      (wrapper_values (state_wrapper in0) :: wrapper_values (state_wrapper in1) ::
       wrapper_values (state_wrapper out0) :: wrapper_values (state_wrapper out1) :: rest_b)
      (wrapper_values (order_intent order0) :: wrapper_values (order_intent order1) :: rest_i)
      (lg_notes L) (lg_held L)) ∧
    order_amount_in order0 = order_amount_in (pt_order p0) - obligation_amount_in o0 ∧
    order_amount_in order1 = order_amount_in (pt_order p1) - obligation_amount_in o1.
Proof using H0 H1 Hop Hr0 Hr1 A0 A1.
  intros HB HI. destruct (fill_proof_accepted p0 o0 H0) as (v0 & E1 & V0).
  destruct (fill_proof_accepted p1 o1 H1) as (v1 & E2 & V1).
  destruct (output_proof_accepted p0 o0 H0) as (u0 & E3 & U0).
  destruct (output_proof_accepted p1 o1 H1) as (u1 & E4 & U1).
  destruct (settlement_computed v0 v1 u0 u1) as (E5 & R0 & R1).
  pose proof (settlement_accepted v0 v1 u0 u1 V0 V1 U0 U1) as Hx.
  destruct (settled_state_versions cfg p0 o0 r0 H0 Hr0 A0)
    as (order0 & in0 & out0 & F0 & G1 & G2 & G3 & G4 & _).
  destruct (settled_state_versions cfg p1 o1 r1 H1 Hr1 A1)
    as (order1 & in1 & out1 & F1 & K1 & K2 & K3 & K4 & _).
  exists v0, v1, u0, u1, (settlement_witness v0 v1 u0 u1), (settlement_statement v0 v1 u0 u1),
    order0, in0, out0, order1, in1, out1.
  do 8 (split; [assumption|]). split; [|by split].
  rewrite G1, G2, G3, K1, K2, K3, <-R0, <-R1.
  apply (step_settle L (settlement_statement v0 v1 u0 u1) (settlement_witness v0 v1 u0 u1)
    (spent_intents p0) (wrapper_values (state_wrapper (pt_in p0))) (intent_version p0)
    (input_version p0) (spent_outputs p0) (output_version p0)
    (spent_intents p1) (wrapper_values (state_wrapper (pt_in p1))) (intent_version p1)
    (input_version p1) (spent_outputs p1) (output_version p1) rest_b rest_i Hx).
  - rewrite R0. by apply admitted_rates_in_range.
  - rewrite R1. by apply admitted_rates_in_range.
  - by apply (fo_links p0 v0 V0).
  - by apply (oo_links p0 u0 U0).
  - by apply (fo_links p1 v1 V1).
  - by apply (oo_links p1 u1 U1).
  - exact HB.
  - exact HI.
Qed.
End Settlement.
