(* ===== verification/TaskPublic.v ===== *)
(** * Settlement proofs of public and external matches

    tasks/settlement/helpers/{ring1,ring2}.rs (TaskProofs.v): the proofs that
    settle_internal_match.rs and settle_external_match.rs request.  The proof of a public
    match is accepted for every fillable obligation.  The proof of a bounded match is
    accepted exactly when the relayer's configured fee address is the one that the output
    balance was created with. *)
From S2P Require Import Prelude Scalar FixedPoint BaseType Poseidon2 Circuit CircuitTypes Gadgets.
From S2P Require Import Merkle PoseidonGadget StateGadgets ProverCircuit BalanceCircuits.
From S2P Require Import ValidityCircuits SettlementCircuits CircuitScoping Darkpool DarkpoolExit.
From S2P Require Import DarkpoolCorrect NativeAgreement DarkpoolTypes StateWrapper AccountTypes.
From S2P Require Import ValidityBundles AccountStorage TaskProofs TaskBalances TaskValidity.
From S2P Require Import TaskSettlement.
Local Open Scope Z_scope.

(** A bounded match that the relayer can offer on an order *)
Record offered (i : Intent) (in_ out : DarkpoolBalance) (r : BoundedMatchResult) : Prop := {
  of_input : internal_party_input_token r = in_token i;
  of_output : internal_party_output_token r = out_token i;
  of_amount : 0 ≤ max_internal_party_amount_in r ≤ amount_in i;
  of_capital : max_internal_party_amount_in r ≤ amount in_;
  of_price : repr (min_price i) ≤ repr (bounded_price r);
  of_price_range : fits 127 (repr (bounded_price r));
  of_mint : mint out = internal_party_output_token r;
  of_owner : owner out = intent_owner i;
  of_receive :
    amount out + repr (bounded_price r) * max_internal_party_amount_in r / 2 ^ 63 < 2 ^ 100;
}.

Lemma bounded_match_canonical r : fits 127 (repr (bounded_price r)) → canonical (bounded_match_values r).
Proof.
  intros [H1 H2']. unfold canonical. scalar_list; try apply scalar_from_is_scalar.
  pose proof scalar_modulus_bounds. unfold is_scalar. simpl. lia.
Qed.

Section Bounded.
Context (i : Intent) (in_ out : DarkpoolBalance) (r : BoundedMatchResult).
Context (Ho : offered i in_ out r) (Hi : admitted_amount (amount_in i)).

Lemma offered_amount : admitted_amount (max_internal_party_amount_in r).
Proof using Ho Hi. destruct Ho. unfold admitted_amount in *. lia. Qed.
Lemma offered_in_range : bounded_match_in_range (bounded_match_values r).
Proof using Ho Hi. split; [apply admitted_fits, offered_amount|apply Ho]. Qed.
Lemma offered_satisfies : satisfies_intent_bounded (intent_values i) (bounded_match_values r).
Proof using Ho Hi.
  pose proof offered_amount as Ha. destruct Ho. split; cbn [bmv_input_token bmv_output_token
    bmv_max_amount_in bmv_price bounded_match_values iv_in_token iv_out_token iv_amount_in
    iv_min_price intent_values].
  - by rewrite of_input0.
  - by rewrite of_output0.
  - rewrite !admitted_scalar by done. lia.
  - exact of_price0.
Qed.
Lemma offered_admits :
  admitted_amount (amount in_) → admitted_amount (amount out) →
  0 ≤ repr (bounded_price r) →
  admits_bounded (intent_values i) (balance_values in_) (balance_values out)
    (bounded_match_values r).
Proof using Ho Hi.
  intros H1 H2' H3. pose proof offered_amount as Ha. split; [apply offered_satisfies|..];
    destruct Ho; cbn [bmv_max_amount_in bmv_output_token bmv_price bounded_match_values bv_amount
      bv_mint bv_owner balance_values iv_owner intent_values].
  - by rewrite !admitted_scalar.
  - by rewrite of_mint0.
  - by rewrite of_owner0.
  - rewrite !admitted_scalar by done. unfold floor_mul. cbn [fpv_repr fixed_point_values].
    apply fits_100_intro. split; [|done]. unfold admitted_amount in *.
    apply Z.add_nonneg_nonneg; [lia|]. apply Z.div_pos; nia.
Qed.
End Bounded.

Section Public.
Context {Cv : CurveSpec} {S : ProofSystem Cv} (cfg : SettlementConfig).
Context (p : party) (o : SettlementObligation) (Hp : party_ready p o).

Lemma intent_only_settlement_accepted rates :
  settlement_fee_rates cfg (pair_from_obligation o) = Some rates → admitted_rates rates →
  ∃ x s, generate_internal_settlement_proof cfg (inner (pt_intent p)) o = Some (x, s) ∧
    proved IntentOnlyPublicSettlementCircuit s x ∧
    ipw_intent x = intent_values (inner (pt_intent p)) ∧
    ips_settlement_obligation s = obligation_values o.
Proof using Hp.
  unfold settlement_fee_rates, generate_internal_settlement_proof, settlement_relayer_fee.
  cbv zeta. destruct (cfg_relayer_fee cfg _) as [rate|]; [|done]. cbn [mbind option_bind].
  intros [= <-] [(Hr & _) Hr' _]. cbn [relayer_fee_rate] in *.
  eexists _, _. split; [reflexivity|]. split; [|split; reflexivity].
  pose proof (pr_fillable p o Hp) as Hf. pose proof (pr_intent p o Hp) as Hi.
  apply (implements_under_complete _ _ _ _ _ intent_only_public_implements
    intent_only_public_settlement_scoped).
  - canonical_parts; [apply obligation_canonical|by apply rate_scalar|apply scalar_from_is_scalar].
  - apply valid_plain. apply canonical_struct. apply (intent_values_canonical (inner (pt_intent p))), Hi.
  - split; [by eapply obligation_values_in_range|]. by apply (ready_in_range p o).
  - eapply fillable_satisfies; [exact Hf|apply Hi].
Qed.

Lemma intent_only_bounded_accepted r ext rate :
  cfg_relayer_fee cfg (pair_base_token (cfg_usdc cfg) (pair_from_obligation o)) = Some rate →
  0 ≤ repr rate < 2 ^ 63 → 0 ≤ repr ext < 2 ^ 63 →
  offered (inner (pt_intent p)) (inner (state_wrapper (pt_in p)))
    (inner (state_wrapper (pt_out p))) r →
  ∃ x s, generate_external_settlement_proof cfg (inner (pt_intent p)) o r ext = Some (x, s) ∧
    proved IntentOnlyBoundedSettlementCircuit s x ∧
    iobw_intent x = intent_values (inner (pt_intent p)).
Proof using Hp.
  intros Er Hr He Hof. unfold generate_external_settlement_proof, settlement_relayer_fee.
  cbv zeta. rewrite Er. cbn [mbind option_bind].
  eexists _, _. split; [reflexivity|]. split; [|reflexivity].
  pose proof (pr_intent p o Hp) as Hi.
  apply (implements_under_complete _ _ _ _ _ intent_only_bounded_implements
    intent_only_bounded_settlement_scoped).
  - canonical_parts; [apply bounded_match_canonical, Hof|by apply rate_scalar..|].
    apply scalar_from_is_scalar.
  - apply valid_plain. apply canonical_struct. apply (intent_values_canonical (inner (pt_intent p))), Hi.
  - split; [eapply offered_in_range; [exact Hof|apply Hi]|]. by apply (ready_in_range p o).
  - eapply offered_satisfies; [exact Hof|apply Hi].
Qed.

(** The values that a settlement takes from the validity bundles of a party are canonical. *)
Lemma bundles_canonical v u :
  fill_of p v → output_of p u →
  canonical (fill_intent v) ∧ is_scalar (fill_new_amount_public_share v) ∧
  canonical (fill_balance v) ∧ canonical (fill_post_match_balance_shares v) ∧
  canonical (output_balance_of u) ∧ canonical (output_post_match_balance_shares u).
Proof using Hp.
  intros V U. rewrite (fo_intent _ _ V), (fo_amount_share _ _ V), (fo_balance _ _ V),
    (fo_shares _ _ V), (oo_balance _ _ U), (oo_shares _ _ U). exact (version_canonical p o Hp).
Qed.

Lemma public_settlement_accepted v u rates :
  fill_of p v → output_of p u →
  settlement_fee_rates cfg (pair_from_obligation o) = Some rates → admitted_rates rates →
  ∃ x s, prove_intent_and_balance_public_settlement cfg (fill_intent v) (fill_balance v)
      (output_balance_of u) (fill_new_amount_public_share v) (fill_post_match_balance_shares v)
      (output_post_match_balance_shares u) o = Some (x, s) ∧
    proved IntentAndBalancePublicSettlementCircuit s x ∧
    pus_settlement_obligation s = obligation_values o ∧ pus_fee_rates s = fee_rates_values rates.
Proof using Hp.
  intros V U Hrates Ha. unfold prove_intent_and_balance_public_settlement. rewrite Hrates.
  cbn [mbind option_bind]. eexists _, _. split; [reflexivity|]. split; [|split; reflexivity].
  destruct (bundles_canonical v u V U) as (C1 & C2 & C3 & C4 & C5 & C6).
  apply (implements_under_complete _ _ _ _ _ public_settlement_implements public_settlement_scoped).
  - destruct Ha as [(? & ? & _) ? ?]. canonical_parts; try apply obligation_canonical.
    + unfold canonical. scalar_list; by apply rate_scalar.
    + rewrite (oo_balance _ _ U). apply scalar_from_is_scalar.
  - apply valid_plain. canonical_parts.
  - split; [eapply obligation_values_in_range, Hp|]. split; [by apply admitted_rates_in_range|].
    cbn [puw_intent puw_in_balance puw_out_balance].
    rewrite (fo_intent _ _ V), (fo_balance _ _ V), (oo_balance _ _ U). by apply (ready_in_range p o).
  - split; [|reflexivity..]. cbn [puw_intent puw_in_balance puw_out_balance
      pus_settlement_obligation pus_fee_rates].
    rewrite (fo_intent _ _ V), (fo_balance _ _ V), (oo_balance _ _ U).
    eapply fillable_admits; [apply Hp|apply Hp|done].
Qed.

(** The proof of a bounded match names the configured fee address, the circuit the one of
    the output balance. *)
Lemma bounded_settlement_accepted v u r ext rate :
  fill_of p v → output_of p u →
  cfg_relayer_fee cfg (pair_base_token (cfg_usdc cfg) (pair_from_obligation o)) = Some rate →
  0 ≤ repr rate < 2 ^ 63 → 0 ≤ repr ext < 2 ^ 63 →
  offered (inner (pt_intent p)) (inner (state_wrapper (pt_in p)))
    (inner (state_wrapper (pt_out p))) r →
  ∃ x s, prove_intent_and_balance_bounded_settlement cfg (fill_intent v) (fill_balance v)
      (output_balance_of u) (fill_new_amount_public_share v) (fill_post_match_balance_shares v)
      (output_post_match_balance_shares u) o r ext = Some (x, s) ∧
    (proved IntentAndBalanceBoundedSettlementCircuit s x ↔
     address_to_scalar (relayer_fee_recipient (inner (state_wrapper (pt_out p)))) =
     address_to_scalar (cfg_relayer_fee_addr cfg)).
Proof using Hp.
  intros V U Er Hr He Hof.
  unfold prove_intent_and_balance_bounded_settlement, settlement_relayer_fee. cbv zeta.
  rewrite Er. cbn [mbind option_bind]. eexists _, _. split; [reflexivity|].
  destruct (bundles_canonical v u V U) as (C1 & C2 & C3 & C4 & C5 & C6).
  match goal with |- proved ?C ?s ?x ↔ _ => assert (bounded_settlement_pre s x) as Hpre end.
  { split; [eapply offered_in_range; [exact Hof|apply Hp]|].
    cbn [bow_intent bow_in_balance bow_out_balance].
    rewrite (fo_intent _ _ V), (fo_balance _ _ V), (oo_balance _ _ U). by apply (ready_in_range p o). }
  split.
  - intros Hx. apply (implements_under_proved _ _ _ _ _ bounded_settlement_implements) in Hx
      as [_ _ _ _ E]; [|exact Hpre].
    cbn [bow_out_balance bos_relayer_fee_recipient] in E. by rewrite (oo_balance _ _ U) in E.
  - intros E. apply (implements_under_complete _ _ _ _ _ bounded_settlement_implements
      bounded_settlement_scoped); [| |exact Hpre|].
    + canonical_parts; [apply bounded_match_canonical, Hof|by apply rate_scalar..|].
      apply scalar_from_is_scalar.
    + apply valid_plain. canonical_parts.
    + pose proof (pr_fillable p o Hp) as Hf. destruct (fillable_amounts _ _ _ _ Hf)
        as (_ & _ & Hout & _).
      split; [|reflexivity..|]; cbn [bow_intent bow_in_balance bow_out_balance
        bos_bounded_match_result bos_relayer_fee_recipient];
        rewrite (oo_balance _ _ U); [|exact E].
      rewrite (fo_intent _ _ V), (fo_balance _ _ V).
      eapply offered_admits; [exact Hof|apply Hp|apply Hf|exact Hout|apply Hof].
Qed.
End Public.
