(* ===== verification/TaskCorrect.v ===== *)
(** * The proofs and the state of the relayer's tasks

    The properties of TaskBalances.v, TaskSettlement.v and TaskPublic.v, with examples: the
    proofs that the tasks request exist, and what the relayer stores afterwards is what the
    darkpool's ledger has. *)
From S2P Require Import Prelude Scalar FixedPoint BaseType Poseidon2 Circuit CircuitTypes Gadgets.
From S2P Require Import Merkle PoseidonGadget StateGadgets ProverCircuit BalanceCircuits.
From S2P Require Import ValidityCircuits SettlementCircuits CircuitScoping Darkpool DarkpoolExit.
From S2P Require Import DarkpoolCorrect NativeAgreement DarkpoolTypes StateWrapper AccountTypes.
From S2P Require Import ValidityBundles AccountStorage TaskProofs TaskBalances TaskValidity.
From S2P Require Import TaskSettlement TaskPublic.
Local Open Scope Z_scope.

(** ** Examples *)

(** Two tokens, 10 and the quote token 20; owners 7 and 8 with the same key; a protocol fee
    of 1/8 and a relayer fee of 1/16 *)
Definition sample_key : SchnorrPublicKey := mkSchnorrPublicKey (mkPoint 0 0).
Definition sample_signature : SchnorrSignature := mkSchnorrSignature 0 (mkPoint 0 0).
Definition sample_balance (token owner amount : Z) : StateBalance :=
  mkStateWrapper (mkCSPRNG 1 1) (mkCSPRNG owner 7)
    (mkDarkpoolBalance token owner 30 sample_key 0 0 amount)
    (mkDarkpoolBalanceShare 1 2 3 sample_key 4 5 6).
Definition sample_intent (i o owner amount : Z) : StateIntent :=
  mkStateWrapper (mkCSPRNG 2 1) (mkCSPRNG owner 5)
    (mkIntent i o owner (mkFixedPoint (2 ^ 62)) amount)
    (mkIntentShare 1 2 3 (mkFixedPoint 4) 5).
Definition sample_path {T Sh F} `{Native T Sh F, CircuitType F} (w : StateWrapper T Sh)
    : MerkleAuthenticationPath :=
  mkAuthPath (replicate MERKLE_HEIGHT 9) 5
    (v_commitment (v_complement (wrapper_values w)) (wrapper_values w)).
Definition sample_config : SettlementConfig :=
  mkSettlementConfig 20 (mkProtocolFees (mkFixedPoint (2 ^ 60)) ∅)
    (λ _, Some (mkFixedPoint (2 ^ 59))) 30.

(** Party 0 sells 100 of token 10 for the first time and has no balance of token 20; party 1
    buys again and receives into its balance. *)
Definition sample_party0 : party :=
  mkPartyState (mkOrder 1 (sample_intent 10 20 7 300) Ring2 (mkOrderMetadata 0 true false))
    (mkAuthPath [] 0 0) sample_signature
    (mkBalance (sample_balance 10 7 150) Darkpool) (sample_path (sample_balance 10 7 150))
    (mkBalance (sample_balance 20 7 0) Darkpool) None sample_signature.
Definition sample_party1 : party :=
  mkPartyState (mkOrder 2 (sample_intent 20 10 8 90) Ring2 (mkOrderMetadata 0 true true))
    (sample_path (sample_intent 20 10 8 90)) sample_signature
    (mkBalance (sample_balance 20 8 90) Darkpool) (sample_path (sample_balance 20 8 90))
    (mkBalance (sample_balance 10 8 4) Darkpool) (Some (sample_path (sample_balance 10 8 4)))
    sample_signature.
Definition sample_obligation0 : SettlementObligation := mkSettlementObligation 10 20 100 80.
Definition sample_obligation1 : SettlementObligation := mkSettlementObligation 20 10 80 100.
Definition sample_rates : FeeRates := mkFeeRates (mkFixedPoint (2 ^ 59)) (mkFixedPoint (2 ^ 60)).

Ltac sample := repeat split; first [reflexivity|vm_compute; done].

Lemma sample_balance_canonical t o a :
  is_scalar o → canonical (wrapper_values (sample_balance t o a)).
Proof.
  intros Ho. unfold canonical. scalar_list;
    first [apply scalar_from_is_scalar|exact Ho|vm_compute; done].
Qed.
Lemma sample_intent_canonical i o w a :
  is_scalar w → canonical (wrapper_values (sample_intent i o w a)).
Proof.
  intros Ho. unfold canonical. scalar_list;
    first [apply scalar_from_is_scalar|exact Ho|vm_compute; done].
Qed.

Lemma sample_path_of {T Sh F} `{Native T Sh F, CircuitType F} (w : StateWrapper T Sh) :
  path_of (v_commitment (v_complement (wrapper_values w)) (wrapper_values w)) (sample_path w).
Proof. split; [reflexivity|reflexivity|]. apply Forall_replicate. vm_compute. done. Qed.

Lemma sample_balance_spendable t o a :
  is_scalar o → spendable (sample_balance t o a) (sample_path (sample_balance t o a)).
Proof.
  intros Ho. split; [by apply sample_balance_canonical| |vm_compute; done].
  eexists. split; [apply (commitment_values (F:=DarkpoolBalanceVar)), balance_num|].
  apply sample_path_of.
Qed.
Lemma sample_intent_spendable i o w a :
  is_scalar w → spendable (sample_intent i o w a) (sample_path (sample_intent i o w a)).
Proof.
  intros Ho. split; [by apply sample_intent_canonical| |vm_compute; done].
  eexists. split; [apply (commitment_values (F:=IntentVar)), intent_num|].
  apply sample_path_of.
Qed.

Lemma sample_balance_live t o a :
  is_address t → is_address o → is_u128 a →
  live_balance (sample_balance t o a) (sample_path (sample_balance t o a)).
Proof.
  intros Ht Ho Ha. split.
  - refine (conj Ht (conj Ho (conj _ (conj _ _)))); [vm_compute; done|split; vm_compute; done|].
    split; [vm_compute; done|]. split; [vm_compute; done|exact Ha].
  - split; vm_compute; done.
  - split; vm_compute; done.
  - apply sample_balance_spendable. unfold is_address in Ho. unfold is_scalar.
    pose proof scalar_modulus_bounds. lia.
Qed.
Lemma sample_intent_live i o w a :
  is_address i → is_address o → is_address w → admitted_amount a →
  live_intent (sample_intent i o w a).
Proof.
  intros Hi Ho Hw Ha. split.
  - refine (conj Hi (conj Ho (conj Hw (conj _ _)))); [vm_compute; done|by apply admitted_u128].
  - exact Ha.
  - split; vm_compute; done.
  - split; vm_compute; done.
  - split; vm_compute; done.
  - apply sample_intent_canonical. unfold is_address in Hw. unfold is_scalar.
    pose proof scalar_modulus_bounds. lia.
Qed.

(** On the reference curve the key [0] accepts the signature [0] of every message. *)
Lemma sample_authorizes {T Sh F} `{Hs : SecretShare T Sh, Hc : CircuitType F, !CircuitTypeLaws F}
    {Hn : Native T Sh F} {valid : T → Prop} `{!SecretShareLaws T Sh valid} b (w : StateWrapper T Sh) :
  NUM (F:=F) ≠ 0%nat → authority (inner b) = sample_key →
  authorizes (Cv:=reference_curve) b w sample_signature.
Proof.
  intros HN E. eexists. split; [by apply (commitment_values (F:=F))|]. rewrite E. split.
  - simpl. by rewrite Z.mul_0_r.
  - unfold canonical. scalar_list; vm_compute; done.
Qed.

Lemma sample_ready0 : party_ready (H:=reference_curve) sample_party0 sample_obligation0.
Proof.
  split.
  - by left.
  - apply sample_intent_live; vm_compute; done.
  - done.
  - intros _. by apply (sample_authorizes (F:=IntentVar)).
  - apply sample_balance_live; vm_compute; done.
  - reflexivity.
  - reflexivity.
  - split; [reflexivity|]. split; [split; vm_compute; done|].
    split; [by apply sample_balance_canonical|]. by apply (sample_authorizes (F:=DarkpoolBalanceVar)).
  - split; vm_compute; repeat split; done.
Qed.
Lemma sample_ready1 : party_ready (H:=reference_curve) sample_party1 sample_obligation1.
Proof.
  split.
  - by left.
  - apply sample_intent_live; vm_compute; done.
  - intros _. by apply sample_intent_spendable.
  - done.
  - apply sample_balance_live; vm_compute; done.
  - reflexivity.
  - reflexivity.
  - apply sample_balance_live; vm_compute; done.
  - split; vm_compute; repeat split; done.
Qed.
Lemma sample_rates_admitted : admitted_rates sample_rates.
Proof. split; vm_compute; repeat split; done. Qed.

(** ** Deposits, withdrawals and new balances *)



(** ** Private matches *)

(** C6: a private match between two parties whose orders and balances the relayer stores as
    the ledger has them, for obligations that are within the orders and the balances: the
    validity proofs of both parties and the settlement proof that links them exist and are
    accepted; the contract's step leads to a ledger with exactly the orders and balances
    that the relayer stores after the settlement, whether an order is filled for the first
    time or again and an output balance is new or not; and each order has lost exactly the
    amount that was traded. *)
Theorem private_match_follows_ledger {Cv : CurveSpec} {S : ProofSystem Cv}
    (cfg : SettlementConfig) (p0 p1 : party) (o0 o1 : SettlementObligation) (r0 r1 : FeeRates)
    (L : ledger) rest_b rest_i :
  party_ready p0 o0 → party_ready p1 o1 → opposite o0 o1 →
  settlement_fee_rates cfg (pair_from_obligation o0) = Some r0 →
  settlement_fee_rates cfg (pair_from_obligation o1) = Some r1 →
  admitted_rates r0 → admitted_rates r1 →
  lg_balances L ≡ₚ wrapper_values (state_wrapper (pt_in p0)) ::
    wrapper_values (state_wrapper (pt_in p1)) :: spent_outputs p0 ++ spent_outputs p1 ++ rest_b →
  lg_intents L ≡ₚ spent_intents p0 ++ spent_intents p1 ++ rest_i →
  ∃ v0 v1 u0 u1 x s order0 in0 out0 order1 in1 out1,
    fill_proof p0 = Some v0 ∧ fill_proof p1 = Some v1 ∧
    output_proof p0 = Some u0 ∧ output_proof p1 = Some u1 ∧
    prove_intent_and_balance_private_settlement cfg o0 o1 v0 v1 u0 u1 = Some (x, s) ∧
    proved IntentAndBalancePrivateSettlementCircuit s x ∧
    settled_state cfg p0 o0 = Some (order0, in0, out0) ∧
    settled_state cfg p1 o1 = Some (order1, in1, out1) ∧
    step L (mkLedger
      (wrapper_values (state_wrapper in0) :: wrapper_values (state_wrapper in1) ::
       wrapper_values (state_wrapper out0) :: wrapper_values (state_wrapper out1) :: rest_b)
      (wrapper_values (order_intent order0) :: wrapper_values (order_intent order1) :: rest_i)
      (lg_notes L) (lg_held L)) ∧
    order_amount_in order0 = order_amount_in (pt_order p0) - obligation_amount_in o0 ∧
    order_amount_in order1 = order_amount_in (pt_order p1) - obligation_amount_in o1.
Proof. intros. by apply (settlement_follows cfg p0 p1 o0 o1 r0 r1). Qed.

Definition sample_ledger : ledger :=
  mkLedger [wrapper_values (sample_balance 10 7 150); wrapper_values (sample_balance 20 8 90);
            wrapper_values (sample_balance 10 8 4)]
    [wrapper_values (sample_intent 20 10 8 90)] []
    (λ t, if t =? 10 then 154 else if t =? 20 then 90 else 0).

Lemma private_match_follows_ledger_witness :
  ∃ x s order0 in0 out0 order1 in1 out1,
    proved (Cv:=reference_curve) (S:=reference_system)
      IntentAndBalancePrivateSettlementCircuit s x ∧
    step (Cv:=reference_curve) (S:=reference_system) sample_ledger (mkLedger
      [wrapper_values (state_wrapper in0); wrapper_values (state_wrapper in1);
       wrapper_values (state_wrapper out0); wrapper_values (state_wrapper out1)]
      [wrapper_values (order_intent order0); wrapper_values (order_intent order1)] []
      (lg_held sample_ledger)) ∧
    order_amount_in order0 = 200 ∧ order_amount_in order1 = 10.
Proof.
  destruct (@private_match_follows_ledger reference_curve reference_system sample_config
    sample_party0 sample_party1 sample_obligation0 sample_obligation1 sample_rates sample_rates
    sample_ledger [] []) as (v0 & v1 & u0 & u1 & x & s & order0 & in0 & out0 & order1 & in1 & out1
      & _ & _ & _ & _ & _ & Hx & _ & _ & Hs & E0 & E1).
  - apply sample_ready0.
  - apply sample_ready1.
  - by split.
  - reflexivity.
  - reflexivity.
  - apply sample_rates_admitted.
  - apply sample_rates_admitted.
  - reflexivity.
  - reflexivity.
  - exists x, s, order0, in0, out0, order1, in1, out1. split; [exact Hx|]. split; [exact Hs|].
    split; [exact E0|exact E1].
Defined.

(** ** Public and external matches *)



(** C39: the proof of an external match, for a bounded match within the order and its balance:
    it is accepted if and only if the relayer's configured fee address is the one that the
    output balance was created with, although the statement of a public match takes the
    address from the balance.  A relayer that has changed its fee address can settle such
    an order internally, but none of its external matches. *)
Theorem bounded_match_needs_fee_address {Cv : CurveSpec} {S : ProofSystem Cv}
    (cfg : SettlementConfig) (p : party) (o : SettlementObligation) (r : BoundedMatchResult)
    (ext rate : FixedPoint) :
  party_ready p o →
  cfg_relayer_fee cfg (pair_base_token (cfg_usdc cfg) (pair_from_obligation o)) = Some rate →
  0 ≤ repr rate < 2 ^ 63 → 0 ≤ repr ext < 2 ^ 63 →
  offered (inner (pt_intent p)) (inner (state_wrapper (pt_in p)))
    (inner (state_wrapper (pt_out p))) r →
  ∃ v u x s, fill_proof p = Some v ∧ output_proof p = Some u ∧
    prove_intent_and_balance_bounded_settlement cfg (fill_intent v) (fill_balance v)
      (output_balance_of u) (fill_new_amount_public_share v) (fill_post_match_balance_shares v)
      (output_post_match_balance_shares u) o r ext = Some (x, s) ∧
    (proved IntentAndBalanceBoundedSettlementCircuit s x ↔
     address_to_scalar (relayer_fee_recipient (inner (state_wrapper (pt_out p)))) =
     address_to_scalar (cfg_relayer_fee_addr cfg)).
Proof.
  intros Hp Er Hr He Hof. destruct (fill_proof_accepted p o Hp) as (v & Ev & V).
  destruct (output_proof_accepted p o Hp) as (u & Eu & U).
  destruct (bounded_settlement_accepted cfg p o Hp v u r ext rate V U Er Hr He Hof)
    as (x & s & E & Hx).
  exists v, u, x, s. split; [exact Ev|]. split; [exact Eu|]. split; [exact E|exact Hx].
Qed.

Lemma bounded_match_needs_fee_address_witness :
  let cfg := mkSettlementConfig 20 (cfg_protocol_fees sample_config)
               (cfg_relayer_fee sample_config) 31 in
  let r := mkBoundedMatchResult 20 10 1 80 (mkFixedPoint (2 ^ 63)) 5 in
  ∃ v u x s, output_proof sample_party1 = Some u ∧
    prove_intent_and_balance_bounded_settlement cfg (fill_intent v) (fill_balance v)
      (output_balance_of u) (fill_new_amount_public_share v) (fill_post_match_balance_shares v)
      (output_post_match_balance_shares u) sample_obligation1 r (mkFixedPoint 0) = Some (x, s) ∧
    ¬ proved (Cv:=reference_curve) (S:=reference_system)
        IntentAndBalanceBoundedSettlementCircuit s x.
Proof.
  intros cfg r. destruct (@bounded_match_needs_fee_address reference_curve reference_system cfg
    sample_party1 sample_obligation1 r (mkFixedPoint 0) (mkFixedPoint (2 ^ 59)))
    as (v & u & x & s & Ev & Eu & E & Hx).
  - apply sample_ready1.
  - reflexivity.
  - split; vm_compute; done.
  - split; vm_compute; done.
  - split; vm_compute; repeat split; done.
  - exists v, u, x, s. split; [exact Eu|]. split; [exact E|]. intros Hp.
    apply Hx in Hp. vm_compute in Hp. done.
Defined.
