(* ===== verification/TaskStates.v ===== *)
(** * The states of tasks

    src/crates/workers/task-driver/src/task_state.rs, the [TaskState] trait of traits.rs, and
    of each file of tasks/ the states of the task: their order, the commit point and the
    description.  [next_states] are the states that the task's [step] moves to. *)
From S2P Require Import Prelude TaskTypes.

(** [Ord] is derived: the order of the constructors. *)
Class TaskState (A : Type) := {
  state_rank : A → nat;
  commit_point : A;
  state_display : A → string;
  state_completed : A → bool;
  next_states : A → list A;
}.
Definition state_committed `{TaskState A} (s : A) : bool :=
  (state_rank commit_point <=? state_rank s)%nat.
Definition state_committing `{TaskState A} (s : A) : bool :=
  (state_rank s =? state_rank commit_point)%nat.

Inductive CreateNewAccountTaskState :=
| NewAccount_Pending | NewAccount_Creating | NewAccount_Completed.
#[global] Instance create_new_account_task_state : TaskState CreateNewAccountTaskState := {|
  state_rank s := match s with
    | NewAccount_Pending => 0 | NewAccount_Creating => 1 | NewAccount_Completed => 2 end%nat;
  commit_point := NewAccount_Creating;
  state_display s := match s with
    | NewAccount_Pending => "Pending" | NewAccount_Creating => "Creating"
    | NewAccount_Completed => "Completed" end%string;
  state_completed s := match s with NewAccount_Completed => true | _ => false end;
  next_states s := match s with
    | NewAccount_Pending => [NewAccount_Creating]
    | NewAccount_Creating => [NewAccount_Completed] | NewAccount_Completed => [] end;
|}.

Inductive NodeStartupTaskState :=
| NodeStartup_Pending | NodeStartup_FetchConstants | NodeStartup_GossipWarmup
| NodeStartup_InitializeRaft | NodeStartup_RefreshState | NodeStartup_JoinRaft
| NodeStartup_RunningStateMigrations | NodeStartup_Completed.
#[global] Instance node_startup_task_state : TaskState NodeStartupTaskState := {|
  state_rank s := match s with
    | NodeStartup_Pending => 0 | NodeStartup_FetchConstants => 1
    | NodeStartup_GossipWarmup => 2 | NodeStartup_InitializeRaft => 3
    | NodeStartup_RefreshState => 4 | NodeStartup_JoinRaft => 5
    | NodeStartup_RunningStateMigrations => 6 | NodeStartup_Completed => 7 end%nat;
  commit_point := NodeStartup_Completed;
  state_display s := match s with
    | NodeStartup_Pending => "Pending" | NodeStartup_FetchConstants => "Fetch Constants"
    | NodeStartup_GossipWarmup => "Gossip Warmup"
    | NodeStartup_InitializeRaft => "Initialize Raft"
    | NodeStartup_RefreshState => "Refresh State" | NodeStartup_JoinRaft => "Join Raft"
    | NodeStartup_RunningStateMigrations => "Running State Migrations"
    | NodeStartup_Completed => "Completed" end%string;
  state_completed s := match s with NodeStartup_Completed => true | _ => false end;
  next_states s := match s with
    | NodeStartup_Pending => [NodeStartup_FetchConstants]
    | NodeStartup_FetchConstants => [NodeStartup_GossipWarmup]
    | NodeStartup_GossipWarmup => [NodeStartup_JoinRaft; NodeStartup_InitializeRaft]
    | NodeStartup_InitializeRaft => [NodeStartup_JoinRaft; NodeStartup_RefreshState]
    | NodeStartup_RefreshState => [NodeStartup_RunningStateMigrations]
    | NodeStartup_JoinRaft => [NodeStartup_RunningStateMigrations]
    | NodeStartup_RunningStateMigrations => [NodeStartup_Completed]
    | NodeStartup_Completed => [] end;
|}.

Inductive DepositTaskState :=
| Deposit_Pending | Deposit_Proving | Deposit_Submitting | Deposit_UpdatingState
| Deposit_UpdatingValidityProofs | Deposit_Completed.
#[global] Instance deposit_task_state : TaskState DepositTaskState := {|
  state_rank s := match s with
    | Deposit_Pending => 0 | Deposit_Proving => 1 | Deposit_Submitting => 2
    | Deposit_UpdatingState => 3 | Deposit_UpdatingValidityProofs => 4 | Deposit_Completed => 5 end%nat;
  commit_point := Deposit_Submitting;
  state_display s := match s with
    | Deposit_Pending => "Pending" | Deposit_Proving => "Proving"
    | Deposit_Submitting => "Submitting" | Deposit_UpdatingState => "UpdatingState"
    | Deposit_UpdatingValidityProofs => "UpdatingValidityProofs"
    | Deposit_Completed => "Completed" end%string;
  state_completed s := match s with Deposit_Completed => true | _ => false end;
  next_states s := match s with
    | Deposit_Pending => [Deposit_Proving] | Deposit_Proving => [Deposit_Submitting]
    | Deposit_Submitting => [Deposit_UpdatingState]
    | Deposit_UpdatingState => [Deposit_UpdatingValidityProofs]
    | Deposit_UpdatingValidityProofs => [Deposit_Completed] | Deposit_Completed => [] end;
|}.

Inductive CreateBalanceTaskState :=
| CreateBalance_Pending | CreateBalance_Proving | CreateBalance_Submitting
| CreateBalance_UpdatingState | CreateBalance_UpdatingValidityProofs | CreateBalance_Completed.
#[global] Instance create_balance_task_state : TaskState CreateBalanceTaskState := {|
  state_rank s := match s with
    | CreateBalance_Pending => 0 | CreateBalance_Proving => 1 | CreateBalance_Submitting => 2
    | CreateBalance_UpdatingState => 3 | CreateBalance_UpdatingValidityProofs => 4
    | CreateBalance_Completed => 5 end%nat;
  commit_point := CreateBalance_Proving;
  state_display s := match s with
    | CreateBalance_Pending => "Pending" | CreateBalance_Proving => "Proving"
    | CreateBalance_Submitting => "Submitting" | CreateBalance_UpdatingState => "UpdatingState"
    | CreateBalance_UpdatingValidityProofs => "UpdatingValidityProofs"
    | CreateBalance_Completed => "Completed" end%string;
  state_completed s := match s with CreateBalance_Completed => true | _ => false end;
  next_states s := match s with
    | CreateBalance_Pending => [CreateBalance_Proving]
    | CreateBalance_Proving => [CreateBalance_Submitting]
    | CreateBalance_Submitting => [CreateBalance_UpdatingState]
    | CreateBalance_UpdatingState => [CreateBalance_UpdatingValidityProofs]
    | CreateBalance_UpdatingValidityProofs => [CreateBalance_Completed]
    | CreateBalance_Completed => [] end;
|}.

Inductive CreateOrderTaskState :=
| CreateOrder_Pending | CreateOrder_Creating | CreateOrder_CheckingAllowance
| CreateOrder_GeneratingPrivateIntentValidityProofs
| CreateOrder_GeneratingPrivateFillValidityProofs | CreateOrder_Completed.
#[global] Instance create_order_task_state : TaskState CreateOrderTaskState := {|
  state_rank s := match s with
    | CreateOrder_Pending => 0 | CreateOrder_Creating => 1 | CreateOrder_CheckingAllowance => 2
    | CreateOrder_GeneratingPrivateIntentValidityProofs => 3
    | CreateOrder_GeneratingPrivateFillValidityProofs => 4 | CreateOrder_Completed => 5 end%nat;
  commit_point := CreateOrder_Creating;
  state_display s := match s with
    | CreateOrder_Pending => "Pending" | CreateOrder_Creating => "Creating"
    | CreateOrder_CheckingAllowance => "CheckingAllowance"
    | CreateOrder_GeneratingPrivateIntentValidityProofs => "GeneratingPrivateIntentValidityProofs"
    | CreateOrder_GeneratingPrivateFillValidityProofs => "GeneratingPrivateFillValidityProofs"
    | CreateOrder_Completed => "Completed" end%string;
  state_completed s := match s with CreateOrder_Completed => true | _ => false end;
  next_states s := match s with
    | CreateOrder_Pending => [CreateOrder_Creating]
    | CreateOrder_Creating => [CreateOrder_CheckingAllowance; CreateOrder_GeneratingPrivateIntentValidityProofs; CreateOrder_GeneratingPrivateFillValidityProofs]
    | CreateOrder_CheckingAllowance => [CreateOrder_Completed]
    | CreateOrder_GeneratingPrivateIntentValidityProofs => [CreateOrder_Completed]
    | CreateOrder_GeneratingPrivateFillValidityProofs => [CreateOrder_Completed]
    | CreateOrder_Completed => [] end;
|}.

Inductive CancelOrderTaskState :=
| CancelOrder_Pending | CancelOrder_SubmittingCancellation | CancelOrder_UpdatingLocalState
| CancelOrder_Completed.
#[global] Instance cancel_order_task_state : TaskState CancelOrderTaskState := {|
  state_rank s := match s with
    | CancelOrder_Pending => 0 | CancelOrder_SubmittingCancellation => 1
    | CancelOrder_UpdatingLocalState => 2 | CancelOrder_Completed => 3 end%nat;
  commit_point := CancelOrder_SubmittingCancellation;
  state_display s := match s with
    | CancelOrder_Pending => "Pending"
    | CancelOrder_SubmittingCancellation => "SubmittingCancellation"
    | CancelOrder_UpdatingLocalState => "UpdatingLocalState"
    | CancelOrder_Completed => "Completed" end%string;
  state_completed s := match s with CancelOrder_Completed => true | _ => false end;
  next_states s := match s with
    | CancelOrder_Pending => [CancelOrder_SubmittingCancellation]
    | CancelOrder_SubmittingCancellation => [CancelOrder_UpdatingLocalState]
    | CancelOrder_UpdatingLocalState => [CancelOrder_Completed] | CancelOrder_Completed => [] end;
|}.

Inductive RefreshAccountTaskState :=
| RefreshAccount_Pending | RefreshAccount_EnsureAccountExists | RefreshAccount_RefreshingState
| RefreshAccount_Completed.
#[global] Instance refresh_account_task_state : TaskState RefreshAccountTaskState := {|
  state_rank s := match s with
    | RefreshAccount_Pending => 0 | RefreshAccount_EnsureAccountExists => 1
    | RefreshAccount_RefreshingState => 2 | RefreshAccount_Completed => 3 end%nat;
  commit_point := RefreshAccount_RefreshingState;
  state_display s := match s with
    | RefreshAccount_Pending => "Pending"
    | RefreshAccount_EnsureAccountExists => "EnsureAccountExists"
    | RefreshAccount_RefreshingState => "RefreshingState"
    | RefreshAccount_Completed => "Completed" end%string;
  state_completed s := match s with RefreshAccount_Completed => true | _ => false end;
  next_states s := match s with
    | RefreshAccount_Pending => [RefreshAccount_EnsureAccountExists]
    | RefreshAccount_EnsureAccountExists => [RefreshAccount_RefreshingState]
    | RefreshAccount_RefreshingState => [RefreshAccount_Completed]
    | RefreshAccount_Completed => [] end;
|}.

Inductive SettleInternalMatchTaskState :=
| SettleInternal_Pending | SettleInternal_SubmittingTx | SettleInternal_UpdatingState
| SettleInternal_UpdatingValidityProofs | SettleInternal_Completed.
#[global] Instance settle_internal_match_task_state : TaskState SettleInternalMatchTaskState := {|
  state_rank s := match s with
    | SettleInternal_Pending => 0 | SettleInternal_SubmittingTx => 1
    | SettleInternal_UpdatingState => 2 | SettleInternal_UpdatingValidityProofs => 3
    | SettleInternal_Completed => 4 end%nat;
  commit_point := SettleInternal_SubmittingTx;
  state_display s := match s with
    | SettleInternal_Pending => "Pending" | SettleInternal_SubmittingTx => "SubmittingTx"
    | SettleInternal_UpdatingState => "UpdatingState"
    | SettleInternal_UpdatingValidityProofs => "UpdatingValidityProofs"
    | SettleInternal_Completed => "Completed" end%string;
  state_completed s := match s with SettleInternal_Completed => true | _ => false end;
  next_states s := match s with
    | SettleInternal_Pending => [SettleInternal_SubmittingTx]
    | SettleInternal_SubmittingTx => [SettleInternal_UpdatingState]
    | SettleInternal_UpdatingState => [SettleInternal_UpdatingValidityProofs]
    | SettleInternal_UpdatingValidityProofs => [SettleInternal_Completed]
    | SettleInternal_Completed => [] end;
|}.

Inductive SettleExternalMatchTaskState :=
| SettleExternal_Pending | SettleExternal_GeneratingCalldata
| SettleExternal_ForwardingBoundedMatch | SettleExternal_Completed.
#[global] Instance settle_external_match_task_state : TaskState SettleExternalMatchTaskState := {|
  state_rank s := match s with
    | SettleExternal_Pending => 0 | SettleExternal_GeneratingCalldata => 1
    | SettleExternal_ForwardingBoundedMatch => 2 | SettleExternal_Completed => 3 end%nat;
  commit_point := SettleExternal_ForwardingBoundedMatch;
  state_display s := match s with
    | SettleExternal_Pending => "Pending"
    | SettleExternal_GeneratingCalldata => "Generating Calldata"
    | SettleExternal_ForwardingBoundedMatch => "Forwarding Bounded Match"
    | SettleExternal_Completed => "Completed" end%string;
  state_completed s := match s with SettleExternal_Completed => true | _ => false end;
  next_states s := match s with
    | SettleExternal_Pending => [SettleExternal_GeneratingCalldata]
    | SettleExternal_GeneratingCalldata => [SettleExternal_ForwardingBoundedMatch]
    | SettleExternal_ForwardingBoundedMatch => [SettleExternal_Completed]
    | SettleExternal_Completed => [] end;
|}.

Inductive SettlePrivateMatchTaskState :=
| SettlePrivate_Pending | SettlePrivate_SubmittingTx | SettlePrivate_UpdatingState
| SettlePrivate_UpdatingValidityProofs | SettlePrivate_Completed.
#[global] Instance settle_private_match_task_state : TaskState SettlePrivateMatchTaskState := {|
  state_rank s := match s with
    | SettlePrivate_Pending => 0 | SettlePrivate_SubmittingTx => 1
    | SettlePrivate_UpdatingState => 2 | SettlePrivate_UpdatingValidityProofs => 3
    | SettlePrivate_Completed => 4 end%nat;
  commit_point := SettlePrivate_SubmittingTx;
  state_display s := match s with
    | SettlePrivate_Pending => "Pending" | SettlePrivate_SubmittingTx => "SubmittingTx"
    | SettlePrivate_UpdatingState => "UpdatingState"
    | SettlePrivate_UpdatingValidityProofs => "UpdatingValidityProofs"
    | SettlePrivate_Completed => "Completed" end%string;
  state_completed s := match s with SettlePrivate_Completed => true | _ => false end;
  next_states s := match s with
    | SettlePrivate_Pending => [SettlePrivate_SubmittingTx]
    | SettlePrivate_SubmittingTx => [SettlePrivate_UpdatingState]
    | SettlePrivate_UpdatingState => [SettlePrivate_UpdatingValidityProofs]
    | SettlePrivate_UpdatingValidityProofs => [SettlePrivate_Completed]
    | SettlePrivate_Completed => [] end;
|}.

Inductive WithdrawTaskState :=
| Withdraw_Pending | Withdraw_Proving | Withdraw_SubmittingTx | Withdraw_UpdatingState
| Withdraw_UpdatingValidityProofs | Withdraw_Completed.
#[global] Instance withdraw_task_state : TaskState WithdrawTaskState := {|
  state_rank s := match s with
    | Withdraw_Pending => 0 | Withdraw_Proving => 1 | Withdraw_SubmittingTx => 2
    | Withdraw_UpdatingState => 3 | Withdraw_UpdatingValidityProofs => 4
    | Withdraw_Completed => 5 end%nat;
  commit_point := Withdraw_SubmittingTx;
  state_display s := match s with
    | Withdraw_Pending => "Pending" | Withdraw_Proving => "Proving"
    | Withdraw_SubmittingTx => "SubmittingTx" | Withdraw_UpdatingState => "UpdatingState"
    | Withdraw_UpdatingValidityProofs => "UpdatingValidityProofs"
    | Withdraw_Completed => "Completed" end%string;
  state_completed s := match s with Withdraw_Completed => true | _ => false end;
  next_states s := match s with
    | Withdraw_Pending => [Withdraw_Proving] | Withdraw_Proving => [Withdraw_SubmittingTx]
    | Withdraw_SubmittingTx => [Withdraw_UpdatingState]
    | Withdraw_UpdatingState => [Withdraw_UpdatingValidityProofs]
    | Withdraw_UpdatingValidityProofs => [Withdraw_Completed] | Withdraw_Completed => [] end;
|}.

(** ** The wrapper *)

Inductive TaskStateWrapper :=
| CreateNewAccountState (state : CreateNewAccountTaskState)
| NodeStartupState (state : NodeStartupTaskState)
| DepositState (state : DepositTaskState)
| CreateBalanceState (state : CreateBalanceTaskState)
| CreateOrderState (state : CreateOrderTaskState)
| CancelOrderState (state : CancelOrderTaskState)
| RefreshAccountState (state : RefreshAccountTaskState)
| SettleInternalMatchState (state : SettleInternalMatchTaskState)
| SettleExternalMatchState (state : SettleExternalMatchTaskState)
| SettlePrivateMatchState (state : SettlePrivateMatchTaskState)
| WithdrawState (state : WithdrawTaskState).

(** Every method of the wrapper calls the method of the wrapped state. *)
Definition with_state {B} (f : ∀ A, TaskState A → A → B) (w : TaskStateWrapper) : B :=
  match w with
  | CreateNewAccountState s => f _ _ s
  | NodeStartupState s => f _ _ s
  | DepositState s => f _ _ s
  | CreateBalanceState s => f _ _ s
  | CreateOrderState s => f _ _ s
  | CancelOrderState s => f _ _ s
  | RefreshAccountState s => f _ _ s
  | SettleInternalMatchState s => f _ _ s
  | SettleExternalMatchState s => f _ _ s
  | SettlePrivateMatchState s => f _ _ s
  | WithdrawState s => f _ _ s
  end.
Definition wrapper_committed : TaskStateWrapper → bool := with_state (λ _ _ s, state_committed s).
Definition is_committing : TaskStateWrapper → bool := with_state (λ _ _ s, state_committing s).
Definition wrapper_completed : TaskStateWrapper → bool := with_state (λ _ _ s, state_completed s).
Definition wrapper_display : TaskStateWrapper → string := with_state (λ _ _ s, state_display s).
Definition wrapper_rank : TaskStateWrapper → nat := with_state (λ _ _ s, state_rank s).

(** [From<TaskStateWrapper> for QueuedTaskState] *)
Definition queued_state (w : TaskStateWrapper) : QueuedTaskState :=
  Running (wrapper_display w) (wrapper_committed w).

Definition wrapper_next (w : TaskStateWrapper) : list TaskStateWrapper :=
  match w with
  | CreateNewAccountState s => CreateNewAccountState <$> next_states s
  | NodeStartupState s => NodeStartupState <$> next_states s
  | DepositState s => DepositState <$> next_states s
  | CreateBalanceState s => CreateBalanceState <$> next_states s
  | CreateOrderState s => CreateOrderState <$> next_states s
  | CancelOrderState s => CancelOrderState <$> next_states s
  | RefreshAccountState s => RefreshAccountState <$> next_states s
  | SettleInternalMatchState s => SettleInternalMatchState <$> next_states s
  | SettleExternalMatchState s => SettleExternalMatchState <$> next_states s
  | SettlePrivateMatchState s => SettlePrivateMatchState <$> next_states s
  | WithdrawState s => WithdrawState <$> next_states s
  end.

(** ** Properties *)

(** The state machines go forward, and stop at their commit point on the way. *)
Lemma next_forward w w' : w' ∈ wrapper_next w → (wrapper_rank w < wrapper_rank w')%nat.
Proof.
  destruct w as [s|s|s|s|s|s|s|s|s|s|s]; destruct s; cbn; rewrite ?elem_of_cons, elem_of_nil;
    intros H; decompose [or] H; subst; cbn; lia || done.
Qed.
Lemma next_stops_at_commit_point w w' :
  w' ∈ wrapper_next w → wrapper_committed w' = true →
  wrapper_committed w = true ∨ is_committing w' = true.
Proof.
  destruct w as [s|s|s|s|s|s|s|s|s|s|s]; destruct s; cbn; rewrite ?elem_of_cons, elem_of_nil;
    intros H; decompose [or] H; subst; cbn; auto.
Qed.
Lemma completed_committed w : wrapper_completed w = true → wrapper_committed w = true.
Proof. destruct w as [s|s|s|s|s|s|s|s|s|s|s]; by destruct s. Qed.
Lemma rank_bound w : (wrapper_rank w ≤ 7)%nat.
Proof. destruct w as [s|s|s|s|s|s|s|s|s|s|s]; destruct s; cbn; lia. Qed.
Lemma completed_final w : wrapper_completed w = true ↔ wrapper_next w = [].
Proof. destruct w as [s|s|s|s|s|s|s|s|s|s|s]; by destruct s. Qed.
