(* ===== verification/StateInterface.v ===== *)
(** * The state interface to task queues

    src/crates/state/src/interface/task_queue.rs, with [send_proposal] of interface/mod.rs.
    A write is a state transition that is proposed to raft; when it is committed the
    applicator (TaskApplicator.v) runs it and the waiter of the proposal gets the result.

    Raft is not part of the model.  What it does between two calls of the node is given by a
    schedule: each proposal takes a slot, which says which transitions of other proposals
    are applied first, and whether the proposal is accepted at all.  Theorems quantify over
    the schedule; an empty schedule is a node that is alone. *)
From S2P Require Import Prelude Scalar TaskTypes TaskQueue TaskStorage TaskApplicator.
Local Open Scope Z_scope.

Record slot := mkSlot {
  slot_others : list TaskTransition;
  slot_accepts : bool;
}.

(** The errors of state/src/error.rs that these methods return *)
Inductive StateError :=
| Replication
| Applicator (e : StateApplicatorError)
| Db (e : StorageError).

Definition ProposalWaiter : Type := result StateError ApplicatorReturnType.

(** What a node's methods on task queues read and write.  [node_accounts] are the accounts of
    the account index in the order of its table, each with a keychain; [node_fresh] the ids
    and times that new tasks get; [node_log] the proposals of this node with what became of
    them, newest first. *)
Record Node := mkNode {
  node_world : TaskWorld;
  node_schedule : list slot;
  node_accounts : list Uuid;
  node_is_leader : bool;
  node_now : Z;
  node_fresh : list (TaskIdentifier * Z);
  node_log : list (TaskTransition * bool);
}.

Abbreviation Interface := (M Node StateError) (only parsing).

Definition set_world (w : TaskWorld) (n : Node) : Node :=
  mkNode w (node_schedule n) (node_accounts n) (node_is_leader n) (node_now n) (node_fresh n)
    (node_log n).
Definition set_schedule (s : list slot) (n : Node) : Node :=
  mkNode (node_world n) s (node_accounts n) (node_is_leader n) (node_now n) (node_fresh n)
    (node_log n).
Definition log_proposal (t : TaskTransition) (ok : bool) (n : Node) : Node :=
  mkNode (node_world n) (node_schedule n) (node_accounts n) (node_is_leader n) (node_now n)
    (node_fresh n) ((t, ok) :: node_log n).

Section Interface.
Context (cfg : AppConfig).

(** ** Proposals *)

Definition apply_transition (t : TaskTransition) (w : TaskWorld) : TaskWorld :=
  (handle_task_transition cfg t w).2.
Definition apply_all (ts : list TaskTransition) (w : TaskWorld) : TaskWorld :=
  foldl (λ w t, apply_transition t w) w ts.

(** Other proposals are applied. *)
Definition next_slot : Interface bool := λ n,
  match node_schedule n with
  | [] => (Ok true, n)
  | s :: rest =>
      (Ok (slot_accepts s), set_schedule rest (set_world (apply_all (slot_others s) (node_world n)) n))
  end.

Definition is_ok {E A} (r : result E A) : bool := match r with Ok _ => true | Err _ => false end.

Definition send_proposal (t : TaskTransition) : Interface ProposalWaiter :=
  accepted ← next_slot;
  if negb accepted then throw Replication else λ n,
  let '(r, w) := handle_task_transition cfg t (node_world n) in
  (Ok (match r with Ok a => Ok a | Err e => Err (Applicator e) end),
   log_proposal t (is_ok r) (set_world w n)).

Definition await (w : ProposalWaiter) : Interface ApplicatorReturnType :=
  match w with Ok a => mret a | Err e => throw e end.

(** A read transaction *)
Definition with_read_tx {A} (m : M TaskDb StorageError A) : Interface A := λ n,
  match (m (tdb (node_world n))).1 with Ok a => (Ok a, n) | Err e => (Err (Db e), n) end.

(** ** Getters *)

Definition state_get_task (id : TaskIdentifier) : Interface (option QueuedTask) :=
  with_read_tx (get_task id).
Definition contains_task (id : TaskIdentifier) : Interface bool :=
  with_read_tx (t ← get_task id; mret (bool_decide (is_Some t))).
Definition get_task_status (id : TaskIdentifier) : Interface (option QueuedTaskState) :=
  with_read_tx (t ← get_task id; mret (task_state <$> t)).
Definition is_queue_paused_serial (key : TaskQueueKey) : Interface bool :=
  with_read_tx (q ← get_task_queue key;
    mret (from_option (λ q, bool_decide (preemption_state q = SerialPreemptionQueued)) false q)).
Definition serial_tasks_queue_len (key : TaskQueueKey) : Interface nat :=
  with_read_tx (q ← get_task_queue key; mret (from_option (λ q, length (serial_tasks q)) 0%nat q)).
Definition has_active_serial_tasks (key : TaskQueueKey) : Interface bool :=
  n ← serial_tasks_queue_len key; mret (0 <? n)%nat.
Definition state_get_queued_tasks (key : TaskQueueKey) : Interface (list QueuedTask) :=
  with_read_tx (get_queued_tasks key).
Definition state_get_task_history (len : nat) (key : TaskQueueKey) : Interface (list HistoricalTask) :=
  with_read_tx (
    running ← get_queued_tasks key;
    historical ← get_truncated_task_history (len - length running) key;
    mret (take len (omap from_queued_task running ++ historical))).

(** ** Setters *)

(** [QueuedTask::new]: a random id and the current time *)
Definition queued_task_new (d : TaskDescriptor) : Interface QueuedTask := λ n,
  match node_fresh n with
  | [] => (Ok (mkQueuedTask 0 Queued d (node_now n)), n)
  | (id, now) :: rest =>
      (Ok (mkQueuedTask id Queued d now),
       mkNode (node_world n) (node_schedule n) (node_accounts n) (node_is_leader n) (node_now n)
         rest (node_log n))
  end.

Definition state_append_task (d : TaskDescriptor) : Interface (TaskIdentifier * ProposalWaiter) :=
  task ← queued_task_new d;
  executor ← with_read_tx get_peer_id;
  waiter ← send_proposal (AppendTask task executor);
  mret (task_id task, waiter).
Definition state_pop_task (id : TaskIdentifier) (success : bool) : Interface ProposalWaiter :=
  send_proposal (PopTask id success).
Definition state_transition_task (id : TaskIdentifier) (s : QueuedTaskState)
    : Interface ProposalWaiter :=
  send_proposal (TransitionTask id s).
Definition state_clear_task_queue (key : TaskQueueKey) : Interface ProposalWaiter :=
  send_proposal (ClearTaskQueue key).
Definition state_enqueue_preemptive_task (keys : list TaskQueueKey) (d : TaskDescriptor)
    (serial : bool) : Interface (TaskIdentifier * ProposalWaiter) :=
  task ← queued_task_new d;
  executor ← with_read_tx get_peer_id;
  waiter ← send_proposal (EnqueuePreemptiveTask keys task executor serial);
  mret (task_id task, waiter).
Definition state_reassign_tasks (failed_peer : PeerId) : Interface ProposalWaiter :=
  local_peer ← with_read_tx get_peer_id;
  send_proposal (ReassignTasks failed_peer local_peer).

Definition append_account_refresh_task (account_id : Uuid) : Interface TaskIdentifier :=
  known ← gets (λ n, bool_decide (account_id ∈ node_accounts n));
  ensure known (Db (NotFound "account not found"));;
  '(tid, waiter) ← state_append_task (RefreshAccount account_id);
  _ ← await waiter;
  mret tid.

(** ** Clearing orphaned queues *)

(** Whether the head of the queue is old enough to be taken for orphaned *)
Definition head_is_stale (min_head_age_millis : Z) (id : TaskIdentifier) : Interface bool :=
  if 0 <? min_head_age_millis then
    created_at ← with_read_tx (t ← get_task id; mret (task_created_at <$> t));
    now ← gets node_now;
    mret (from_option (λ ts, min_head_age_millis <=? Z.max 0 (now - ts)) false created_at)
  else mret true.

Definition ignore_error {S E A} (m : M S E A) : M S E unit := λ s, (Ok tt, (m s).2).

(** One turn of the loop: whether the queue was cleared.  An error of the refresh is logged
    and dropped. *)
Definition clear_orphaned_queue (min_head_age_millis : Z) (account_id : Uuid) : Interface bool :=
  wedged_head ← with_read_tx (orphaned_preempt_head account_id);
  match wedged_head with
  | None => mret false
  | Some task_id =>
      stale ← head_is_stale min_head_age_millis task_id;
      if negb stale then mret false else
      waiter ← state_clear_task_queue account_id;
      _ ← await waiter;
      ignore_error (append_account_refresh_task account_id);;
      mret true
  end.

Fixpoint clear_orphaned_queues (min_head_age_millis : Z) (account_ids : list Uuid)
    : Interface nat :=
  match account_ids with
  | [] => mret 0%nat
  | a :: rest =>
      cleared ← clear_orphaned_queue min_head_age_millis a;
      n ← clear_orphaned_queues min_head_age_millis rest;
      mret (if (cleared : bool) then S n else n)
  end.
Definition clear_orphaned_preempted_queues (min_head_age_millis : Z) : Interface nat :=
  leader ← gets node_is_leader;
  if negb leader then mret 0%nat else
  account_ids ← gets node_accounts;
  clear_orphaned_queues min_head_age_millis account_ids.
End Interface.
