(* ===== verification/TaskDriver.v ===== *)
(** * The task driver

    src/crates/workers/task-driver/src/{driver,running_task,traits,hooks,error}.rs.  The
    driver runs a task step by step and reports each new state to the state machine of task
    queues, waiting for the report to be applied when the task commits or completes.  A step
    that fails with a retryable error is retried with a growing delay; a task that another
    one has preempted stops where it is.  At the end the task is popped and its hooks run.

    A task is any instance of the class [Task]: its fields, what a step does to them and to
    the rest of the system (the environment), and its hooks.  The environment is what steps
    act on: accounts, chain, proof manager. *)
From S2P Require Import Prelude Scalar TaskTypes TaskQueue TaskStorage TaskApplicator.
From S2P Require Import StateInterface TaskStates.
Local Open Scope Z_scope.

(** ** Tasks (traits.rs, hooks.rs) *)

Inductive TaskHook :=
| RunMatchingEngineHook (account_id : Uuid) (orders : list Uuid)
| RunMatchingEngineForBalanceHook (account_id : Uuid) (token : Address)
| RefreshAccountHook (account_ids : list Uuid).

(** A task error: its message and whether it is retryable *)
Record TaskError := mkTaskError { error_message : string; retryable : bool }.

Class Task (T Env : Type) := {
  task_wrapper : T → TaskStateWrapper;
  task_step : T → Env → result TaskError unit * (T * Env);
  bypass_task_queue : T → bool;
  success_hooks : T → list TaskHook;
  failure_hooks : T → list TaskHook;
}.

(** Every step of tasks/ assigns the state last, after all calls that can fail. *)
Class TaskLaws (T Env : Type) `{Task T Env} := {
  step_advances t e t' e' : wrapper_completed (task_wrapper t) = false →
    task_step t e = (Ok tt, (t', e')) → task_wrapper t' ∈ wrapper_next (task_wrapper t);
  step_fails t e err t' e' :
    task_step t e = (Err err, (t', e')) → task_wrapper t' = task_wrapper t;
  bypass_constant t e r t' e' :
    task_step t e = (r, (t', e')) → bypass_task_queue t' = bypass_task_queue t;
}.

(** What hooks read of the environment *)
Class HookEnv (Env : Type) := {
  orders_with_input_token : Env → Uuid → Address → list Uuid;
  engine_queue_open : Env → bool;
}.

(** ** The driver (error.rs, driver.rs) *)

(** [DriverPanicked] is an arithmetic underflow; [DriverOutOfFuel] is the model's own. *)
Inductive TaskDriverError :=
| TaskFailed
| JobQueueClosed
| TaskPreempted
| DriverState (e : StateError)
| DriverTask (msg : string)
| DriverPanicked
| DriverOutOfFuel.

Record RuntimeArgs := mkRuntimeArgs {
  backoff_amplification_factor : Z;
  backoff_ceiling_ms : Z;
  initial_backoff_ms : Z;
  n_retries : nat;
}.
Definition runtime_args_default : RuntimeArgs := mkRuntimeArgs 2 30000 100 5.

(** What the driver does, newest first: a step from a state, a delay, and a report of the
    task's state that was applied *)
Inductive DriverEvent :=
| Stepped (s : TaskStateWrapper)
| Slept (ms : Z)
| Reported (s : QueuedTaskState).

Record Driver (T Env : Type) := mkDriver {
  dr_node : Node;
  dr_task : T;
  dr_env : Env;
  dr_engine_jobs : list (Uuid * Uuid);
  dr_events : list DriverEvent;
}.
Arguments mkDriver {T Env} _ _ _ _ _.
Arguments dr_node {T Env} _.
Arguments dr_task {T Env} _.
Arguments dr_env {T Env} _.
Arguments dr_engine_jobs {T Env} _.
Arguments dr_events {T Env} _.

Section Driver.
Context {T Env : Type} `{Task T Env, HookEnv Env} (cfg : AppConfig) (args : RuntimeArgs).
Context (id : TaskIdentifier).
Local Abbreviation D := (M (Driver T Env) TaskDriverError) (only parsing).

Definition set_node (n : Node) (d : Driver T Env) : Driver T Env :=
  mkDriver n (dr_task d) (dr_env d) (dr_engine_jobs d) (dr_events d).
Definition event (e : DriverEvent) : D unit :=
  modify (λ d, mkDriver (dr_node d) (dr_task d) (dr_env d) (dr_engine_jobs d) (e :: dr_events d)).

(** A call of the state interface *)
Definition state {A} (m : M Node StateError A) : D A := zoom dr_node set_node DriverState m.

(** [match f() { Err(e) => ..., Ok(x) => ... }] *)
Definition catch {A} (m : D A) : D (result TaskDriverError A) := λ d,
  let '(r, d') := m d in (Ok r, d').

(** *** Running a task (running_task.rs) *)

Definition is_task_running : D bool :=
  task ← state (state_get_task id);
  mret (from_option (λ t, is_running (task_state t)) false task).

Definition call_step : D (result TaskError unit) := λ d,
  let '(r, (t, e)) := task_step (dr_task d) (dr_env d) in
  (Ok r, mkDriver (dr_node d) t e (dr_engine_jobs d) (Stepped (task_wrapper (dr_task d)) :: dr_events d)).

Definition transition_state : D unit :=
  t ← gets dr_task;
  let new_state := task_wrapper t in
  if bypass_task_queue t then mret tt else
  waiter ← state (state_transition_task cfg id (queued_state new_state));
  (if is_ok waiter then event (Reported (queued_state new_state)) else mret tt);;
  if is_committing new_state || wrapper_completed new_state
  then _ ← state (await waiter); mret tt
  else mret tt.

(** [true]: the step was taken; [false]: it failed and is to be retried *)
Definition running_step : D bool :=
  r ← call_step;
  match r with
  | Err e =>
      running ← (if retryable e then is_task_running else mret false);
      if (running : bool) then mret false else throw (DriverTask (error_message e))
  | Ok _ =>
      r ← catch transition_state;
      match r with
      | Ok _ => mret true
      | Err e =>
          running ← is_task_running;
          if negb running then throw TaskPreempted else throw e
      end
  end.

(** *** Retries (driver.rs) *)

(** The inner loop of [run_task_to_completion]: [false] when the retries are used up *)
Fixpoint retry_step (retries : nat) (curr_backoff : Z) : D bool :=
  stepped ← running_step;
  if (stepped : bool) then mret true else
  match retries with
  | O => throw DriverPanicked
  | S O => mret false
  | S retries' =>
      event (Slept curr_backoff);;
      retry_step retries'
        (Z.min (curr_backoff * backoff_amplification_factor args) (backoff_ceiling_ms args))
  end.

Definition driver_completed : D bool := gets (λ d, wrapper_completed (task_wrapper (dr_task d))).

(** The outer loop *)
Fixpoint run_steps (fuel : nat) : D unit :=
  completed ← driver_completed;
  if (completed : bool) then mret tt else
  match fuel with
  | O => throw DriverOutOfFuel
  | S fuel' =>
      stepped ← retry_step (n_retries args) (initial_backoff_ms args);
      if (stepped : bool) then run_steps fuel' else mret tt
  end.

(** A task has at most eight states, and every step that is taken moves to a later one. *)
Definition STEPS : nat := 8.
Definition run_task_to_completion : D unit :=
  run_steps STEPS;;
  completed ← driver_completed;
  if (completed : bool) then mret tt else throw TaskFailed.

(** *** Cleanup (running_task.rs) *)

(** [res = clear_res.and(res)] over the accounts *)
Fixpoint clear_queues (accounts : list Uuid) (res : ProposalWaiter) : D ProposalWaiter :=
  match accounts with
  | [] => mret res
  | a :: rest =>
      clear_res ← state (state_clear_task_queue cfg a);
      clear_queues rest (match clear_res with Ok _ => res | Err e => Err e end)
  end.

Definition pop_task_or_clear_queue (success : bool) (affected_accounts : list Uuid) : D unit :=
  res ← state (state_pop_task cfg id success);
  if is_ok res then mret tt else
  res ← clear_queues affected_accounts res;
  _ ← state (await res); mret tt.

(** No task of tasks/ overrides the trait's [cleanup], which does nothing. *)
Definition cleanup (success : bool) (affected_accounts : list Uuid) : D unit :=
  t ← gets dr_task;
  if bypass_task_queue t then mret tt
  else _ ← catch (pop_task_or_clear_queue success affected_accounts); mret tt.

(** *** Hooks *)

Definition send_engine_job (account_id order : Uuid) : D unit :=
  open ← gets (λ d, engine_queue_open (dr_env d));
  ensure open JobQueueClosed;;
  modify (λ d, mkDriver (dr_node d) (dr_task d) (dr_env d)
                 ((account_id, order) :: dr_engine_jobs d) (dr_events d)).

Definition run_hook (h : TaskHook) : D unit :=
  match h with
  | RunMatchingEngineHook account_id orders => for_each orders (send_engine_job account_id)
  | RunMatchingEngineForBalanceHook account_id token =>
      order_ids ← gets (λ d, orders_with_input_token (dr_env d) account_id token);
      for_each order_ids (send_engine_job account_id)
  | RefreshAccountHook account_ids =>
      for_each account_ids (λ a, _ ← state (append_account_refresh_task cfg a); mret tt)
  end.

(** An error of a hook is logged and dropped. *)
Definition run_post_task_hooks (success : bool) : D unit :=
  t ← gets dr_task;
  for_each (if success then success_hooks t else failure_hooks t) (λ h, ignore_error (run_hook h)).

(** *** Starting a task *)

(** The part of [start_task_helper] that follows the construction of the task *)
Definition drive_task (affected_accounts : list Uuid) : D unit :=
  res ← catch run_task_to_completion;
  match res with
  | Err TaskPreempted => throw TaskPreempted
  | _ =>
      cleanup (is_ok res) affected_accounts;;
      run_post_task_hooks (is_ok res);;
      match res with Ok _ => mret tt | Err e => throw e end
  end.
End Driver.

(** ** The executor (driver.rs) *)

(** [Descriptor::bypass_task_queue] *)
Definition descriptor_bypass (d : TaskDescriptor) : bool :=
  match d with NodeStartup _ | SettleExternalMatch _ => true | _ => false end.

(** Channels are given by numbers; [ex_sent] are the notifications sent, newest first. *)
Record Executor (Env : Type) := mkExecutor {
  ex_node : Node;
  ex_env : Env;
  ex_engine_jobs : list (Uuid * Uuid);
  ex_listeners : gmap TaskIdentifier (list nat);
  ex_sent : list (nat * result string unit);
}.
Arguments mkExecutor {Env} _ _ _ _ _.
Arguments ex_node {Env} _.
Arguments ex_env {Env} _.
Arguments ex_engine_jobs {Env} _.
Arguments ex_listeners {Env} _.
Arguments ex_sent {Env} _.

Inductive TaskDriverJob :=
| RunJob (task : QueuedTask) (channel : option nat)
| NotifyJob (task_id : TaskIdentifier) (channel : nat).

Section Executor.
Context {T Env : Type} `{Task T Env, HookEnv Env} (cfg : AppConfig) (args : RuntimeArgs).
(** [T::new] for the task of a descriptor, and [TaskDriverError::to_string] *)
Context (task_new : TaskDescriptor → Env → result TaskError T).
Context (show : TaskDriverError → string).
Local Abbreviation X := (M (Executor Env) TaskDriverError) (only parsing).

Definition set_ex_node (n : Node) (x : Executor Env) : Executor Env :=
  mkExecutor n (ex_env x) (ex_engine_jobs x) (ex_listeners x) (ex_sent x).
Definition ex_state {A} (m : M Node StateError A) : X A := zoom ex_node set_ex_node DriverState m.

Definition set_listeners f (x : Executor Env) : Executor Env :=
  mkExecutor (ex_node x) (ex_env x) (ex_engine_jobs x) (f (ex_listeners x)) (ex_sent x).
Definition send (r : result string unit) (channel : nat) : X unit :=
  modify (λ x, mkExecutor (ex_node x) (ex_env x) (ex_engine_jobs x) (ex_listeners x)
                 ((channel, r) :: ex_sent x)).
Definition add_listener (id : TaskIdentifier) (channel : nat) : X unit :=
  modify (set_listeners (λ l, <[id := default [] (l !! id) ++ [channel]]> l)).

(** Run the driver on a task that has been constructed. *)
Definition run_driver (id : TaskIdentifier) (t : T) (affected_accounts : list Uuid) : X unit :=
  λ x,
  let '(r, d) := drive_task cfg args id affected_accounts
                   (mkDriver (ex_node x) t (ex_env x) (ex_engine_jobs x) []) in
  (r, mkExecutor (dr_node d) (dr_env d) (dr_engine_jobs d) (ex_listeners x) (ex_sent x)).

Definition start_task_helper (id : TaskIdentifier) (descriptor : TaskDescriptor)
    (affected_accounts : list Uuid) : X unit :=
  env ← gets ex_env;
  match task_new descriptor env with
  | Err e =>
      (if descriptor_bypass descriptor then mret tt else
       waiter ← ex_state (state_pop_task cfg id false);
       _ ← ex_state (await waiter); mret tt);;
      throw (DriverTask (error_message e))
  | Ok t => run_driver id t affected_accounts
  end.

Definition notify_listeners (id : TaskIdentifier) (r : result string unit) : X unit :=
  channels ← gets (λ x, default [] (ex_listeners x !! id));
  modify (set_listeners (delete id));;
  for_each channels (send r).

Definition start_task (id : TaskIdentifier) (task : QueuedTask) (affected_accounts : list Uuid)
    (channel : option nat) : X unit := λ x,
  let x := match channel with Some c => (add_listener id c x).2 | None => x end in
  match start_task_helper id (task_descriptor task) affected_accounts x with
  | (Err TaskPreempted, x) => (Ok tt, x)
  | (res, x) =>
      let str_res := match res with Ok _ => Ok tt | Err e => Err (show e) end in
      (res, (notify_listeners id str_res x).2)
  end.

Definition TASK_NOT_FOUND_ERROR : string := "task not found".
Definition handle_notification_request (id : TaskIdentifier) (channel : nat) : X unit :=
  known ← ex_state (contains_task id);
  if negb known then send (Err TASK_NOT_FOUND_ERROR) channel else add_listener id channel.

Definition handle_job (job : TaskDriverJob) : X unit :=
  match job with
  | RunJob task channel =>
      start_task (task_id task) task (affected_accounts (task_descriptor task)) channel
  | NotifyJob id channel => handle_notification_request id channel
  end.
End Executor.
