(* ===== verification/DriverCorrect.v ===== *)
(** * Properties of the task driver

    For every task whose steps obey [TaskLaws], every environment and every schedule of other
    proposals: a task is driven to an end in a bounded number of attempts; no step beyond
    its commit point is taken before the commit has been applied; a preempted task is left
    alone; listeners are told the result once.  And two ways in which the recovery from
    failures destroys a settlement or strands a queue. *)
From S2P Require Import Prelude Scalar FixedPoint DarkpoolTypes TaskTypes TaskQueue.
From S2P Require Import TaskStorage TaskApplicator.
From S2P Require Import StateInterface TaskStates TaskDriver.
Local Open Scope Z_scope.

(** ** Runs *)

Lemma bind_cases {S E A B} (m : M S E A) (f : A → M S E B) s r s'' :
  (m ≫= f) s = (r, s'') →
  (∃ a s', m s = (Ok a, s') ∧ f a s' = (r, s'')) ∨ (∃ e, m s = (Err e, s'') ∧ r = Err e).
Proof.
  unfold mbind, M_bind. destruct (m s) as [[a|e] s'] eqn:Hm; intros E1.
  - left. by exists a, s'.
  - right. exists e. by injection E1 as <- <-.
Qed.

(** Take a run apart at its first bind; the second goal is the error. *)
Ltac split_run H :=
  let Hr := fresh in
  apply bind_cases in H as [(?a & ?d & ?Hm & H)|(?e & ?Hm & Hr)];
  [|first [discriminate Hr|injection Hr as <-|subst]].

Fixpoint steps (l : list DriverEvent) : nat :=
  match l with [] => 0 | Stepped _ :: l' => S (steps l') | _ :: l' => steps l' end.

Definition commit_reported (l : list DriverEvent) : Prop := ∃ s, Reported (Running s true) ∈ l.

(** Every step from a committed state comes after the commit has been applied. *)
Fixpoint commits_first (l : list DriverEvent) : Prop :=
  match l with
  | [] => True
  | Stepped s :: l' => (wrapper_committed s = true → commit_reported l') ∧ commits_first l'
  | _ :: l' => commits_first l'
  end.

(** The delays and attempts of a step that fails [retries] times *)
Fixpoint failed_attempts (args : RuntimeArgs) (s : TaskStateWrapper) (retries : nat) (backoff : Z)
    : list DriverEvent :=
  match retries with
  | O => []
  | S O => [Stepped s]
  | S retries' =>
      failed_attempts args s retries'
        (Z.min (backoff * backoff_amplification_factor args) (backoff_ceiling_ms args)) ++
      [Slept backoff; Stepped s]
  end.

Section Steps.
Context {T Env : Type} {HT : Task T Env} {HL : TaskLaws T Env} {HE : HookEnv Env}.
Context (cfg : AppConfig) (args : RuntimeArgs).
Context (id : TaskIdentifier).
Implicit Types d : Driver T Env.

Abbreviation wrapper d := (task_wrapper (dr_task d)) (only parsing).

(** Calls of the state interface leave the task and the environment alone. *)
Lemma state_frame {A} (m : M Node StateError A) d r d' :
  state m d = (r, d') →
  dr_task d' = dr_task d ∧ dr_env d' = dr_env d ∧ dr_events d' = dr_events d ∧
  dr_engine_jobs d' = dr_engine_jobs d ∧ (m (dr_node d)).2 = dr_node d' ∧
  match r with
  | Ok a => (m (dr_node d)).1 = Ok a
  | Err e => ∃ e', e = DriverState e' ∧ (m (dr_node d)).1 = Err e'
  end.
Proof.
  unfold state, zoom. destruct (m (dr_node d)) as [[a|e] n]; intros [= <- <-];
    split_and!; try done. by exists e.
Qed.

Lemma get_task_reads k n r n' : state_get_task k n = (r, n') → n' = n.
Proof. unfold state_get_task, with_read_tx, get_task, gets. simpl. by intros [= <- <-]. Qed.

Lemma is_task_running_frame d r d' :
  is_task_running id d = (r, d') → d' = d ∧ ∃ b, r = Ok b.
Proof.
  unfold is_task_running, state, zoom, state_get_task, with_read_tx, mbind, M_bind. simpl.
  intros [= <- <-]. split; [by destruct d as [[]]|by eexists].
Qed.

(** What a step that was taken leaves *)
Record advanced d d' : Prop := {
  av_next : wrapper d' ∈ wrapper_next (wrapper d);
  av_bypass : bypass_task_queue (dr_task d') = bypass_task_queue (dr_task d);
  av_events : ∃ l, dr_events d' = l ++ Stepped (wrapper d) :: dr_events d ∧
    (l = [] ∨ l = [Reported (queued_state (wrapper d'))]);
  av_commit : bypass_task_queue (dr_task d) = false → is_committing (wrapper d') = true →
    Reported (queued_state (wrapper d')) ∈ dr_events d';
}.

Lemma transition_state_cases d r d' :
  transition_state cfg id d = (r, d') →
  dr_task d' = dr_task d ∧ dr_env d' = dr_env d ∧
  (∃ l, dr_events d' = l ++ dr_events d ∧
    (l = [] ∨ l = [Reported (queued_state (wrapper d))])) ∧
  (r = Ok tt → bypass_task_queue (dr_task d) = false → is_committing (wrapper d) = true →
    Reported (queued_state (wrapper d)) ∈ dr_events d').
Proof.
  unfold transition_state. intros E. split_run E; [|done]. injection Hm as <- <-.
  destruct (bypass_task_queue (dr_task d)) eqn:Eb.
  { injection E as <- <-. split_and!; [done..|by exists []; split; [|left]|done]. }
  split_run E.
  2: { apply state_frame in Hm as (E1 & E2 & E3 & _). split_and!; [done..| |done].
       exists []. split; [done|by left]. }
  apply state_frame in Hm as (E1 & E2 & E3 & _). split_run E; [|by destruct (is_ok a)].
  destruct (is_ok a) eqn:Ew; injection Hm as <- <-.
  - assert (dr_task d' = dr_task d0 ∧ dr_env d' = dr_env d0 ∧
      dr_events d' = Reported (queued_state (wrapper d)) :: dr_events d0) as (F1 & F2 & F3).
    { destruct (_ || _); [|by injection E as <- <-]. split_run E.
      - injection E as <- <-. apply state_frame in Hm as (? & ? & ? & _). done.
      - apply state_frame in Hm as (? & ? & ? & _). done. }
    rewrite F1, F2, F3, E1, E2, E3. split_and!; [done..| |].
    + eexists [_]. split; [done|by right].
    + intros _ _ _. by left.
  - destruct (is_committing _ || _) eqn:Ec.
    + destruct a as [|e]; [done|]. split_run E; [done|].
      apply state_frame in Hm as (F1 & F2 & F3 & _). rewrite F1, F2, F3, E1, E2, E3.
      split_and!; [done..|by exists []; split; [|left]|done].
    + injection E as <- <-. rewrite E1, E2, E3.
      split_and!; [done..|by exists []; split; [|left]|].
      intros _ _ Hc. by rewrite Hc in Ec.
Qed.

(** A step that failed and is to be retried *)
Record failed d d' : Prop := {
  fd_wrapper : wrapper d' = wrapper d;
  fd_bypass : bypass_task_queue (dr_task d') = bypass_task_queue (dr_task d);
  fd_events : dr_events d' = Stepped (wrapper d) :: dr_events d;
}.

(** The driver's errors are those of the task and of the state. *)
Definition reported_error (e : TaskDriverError) : Prop :=
  match e with
  | TaskPreempted | DriverState _ | DriverTask _ => True
  | TaskFailed | JobQueueClosed | DriverPanicked | DriverOutOfFuel => False
  end.

Lemma transition_state_error d e d' :
  transition_state cfg id d = (Err e, d') → ∃ e', e = DriverState e'.
Proof.
  unfold transition_state. intros E. split_run E; [|done]. injection Hm as <- <-.
  destruct (bypass_task_queue _); [done|]. split_run E.
  2: { apply state_frame in Hm as (_ & _ & _ & _ & _ & e' & -> & _). by exists e'. }
  split_run E; [|by destruct (is_ok a)]. destruct (_ || _); [|done].
  split_run E; [done|].
  apply state_frame in Hm1 as (_ & _ & _ & _ & _ & e' & -> & _). by exists e'.
Qed.

Lemma running_step_cases d r d' :
  running_step cfg id d = (r, d') → wrapper_completed (wrapper d) = false →
  match r with
  | Ok true => advanced d d'
  | Ok false => failed d d'
  | Err e => reported_error e
  end ∧ ∃ l, dr_events d' = l ++ Stepped (wrapper d) :: dr_events d ∧ steps l = 0%nat ∧
    Forall (λ e, ∃ s, e = Reported s) l.
Proof.
  intros E Hc. unfold running_step in E. split_run E; unfold call_step in Hm.
  2: { by destruct (task_step _ _) as [? [? ?]]. }
  destruct (task_step (dr_task d) (dr_env d)) as [o [t e]] eqn:Es. injection Hm as <- <-.
  pose proof (bypass_constant _ _ _ _ _ Es) as Hb. destruct o as [[]|err].
  - pose proof (step_advances _ _ _ _ Hc Es) as Hn. split_run E;
      unfold catch in Hm; destruct (transition_state _ _ _) as [o d1] eqn:Et; [|done].
    injection Hm as <- <-. pose proof (transition_state_cases _ _ _ Et) as (E1 & E2 & (l & E3 & Hl) & E4).
    cbn [dr_task dr_env dr_events] in *.
    assert (dr_events d1 = l ++ Stepped (wrapper d) :: dr_events d ∧ steps l = 0%nat ∧
      Forall (λ e, ∃ s, e = Reported s) l) as Hex.
    { split_and!; [done|..]; destruct Hl as [-> | ->]; eauto. }
    destruct o as [[]|e1].
    + injection E as <- <-. split; [|by exists l]. split; rewrite ?E1.
      * exact Hn.
      * exact Hb.
      * exists l. split; [done|]. exact Hl.
      * rewrite <-Hb. by apply E4.
    + split_run E; [|apply is_task_running_frame in Hm as [_ [? ?]]; done].
      apply is_task_running_frame in Hm as [-> _]. split; [|].
      * destruct a; cbn [negb] in E; injection E as <- <-; [|done].
        destruct (transition_state_error _ _ _ Et) as [e' ->]. done.
      * exists l. by destruct a; injection E as _ <-.
  - assert (∀ b d1, (if retryable err then is_task_running id else mret false)
      (mkDriver (dr_node d) t e (dr_engine_jobs d) (Stepped (wrapper d) :: dr_events d)) = (b, d1) →
      d1 = mkDriver (dr_node d) t e (dr_engine_jobs d) (Stepped (wrapper d) :: dr_events d) ∧
      ∃ c, b = Ok c) as Hf.
    { intros b d1. destruct (retryable err); [by apply is_task_running_frame|].
      intros [= <- <-]. split; [done|by eexists]. }
    split_run E; [|apply Hf in Hm as [_ [? ?]]; done]. apply Hf in Hm as [-> _].
    pose proof (step_fails _ _ _ _ _ Es) as Hw.
    destruct a; injection E as <- <-; (split; [|by exists []]); done.
Qed.

Lemma steps_app l1 l2 : steps (l1 ++ l2) = (steps l1 + steps l2)%nat.
Proof. induction l1 as [|[] l1 IH]; simpl; lia. Qed.

Lemma retry_step_cases retries b d r d' :
  (1 ≤ retries)%nat → retry_step cfg args id retries b d = (r, d') →
  wrapper_completed (wrapper d) = false →
  match r with
  | Ok true => wrapper d' ∈ wrapper_next (wrapper d)
  | Ok false => wrapper d' = wrapper d ∧
      dr_events d' = failed_attempts args (wrapper d) retries b ++ dr_events d
  | Err e => reported_error e
  end ∧ (steps (dr_events d) < steps (dr_events d') ≤ steps (dr_events d) + retries)%nat.
Proof.
  revert b d. induction retries as [|n IH]; intros b d Hn E Hc; [lia|]. simpl in E.
  split_run E.
  2: { apply running_step_cases in Hm as [He (l & -> & Hl & _)]; [|done].
       split; [done|]. rewrite steps_app, Hl. simpl. lia. }
  apply running_step_cases in Hm as [Ha (l & El & Hl & _)]; [|done].
  assert (steps (dr_events d0) = S (steps (dr_events d))) as Hs
    by (rewrite El, steps_app, Hl; done).
  destruct a.
  { injection E as <- <-. split; [apply Ha|lia]. }
  destruct Ha as [Hw _ Ev]. destruct n as [|n].
  { injection E as <- <-. split; [|lia]. split; [done|]. by rewrite Ev. }
  split_run E; [|done]. injection Hm as <- <-.
  apply IH in E; [|lia|cbn [dr_task]; by rewrite Hw].
  cbn [dr_task dr_events steps] in E. rewrite Hw, Hs, Ev in E. destruct E as [Er Es].
  split; [|lia]. destruct r as [[]|e]; [done| |done].
  destruct Er as [Er1 Er2]. split; [done|]. rewrite Er2. simpl. by rewrite <-app_assoc.
Qed.

Lemma retry_step_extends retries b d r d' :
  retry_step cfg args id retries b d = (r, d') → wrapper_completed (wrapper d) = false →
  ∃ l, dr_events d' = l ++ dr_events d.
Proof.
  revert b d. induction retries as [|n IH]; intros b d E Hc; simpl in E.
  all: split_run E;
    [|apply running_step_cases in Hm as [_ (l & -> & _)]; [|done];
      exists (l ++ [Stepped (wrapper d)]); by rewrite <-app_assoc].
  all: apply running_step_cases in Hm as [Ha (l & El & _)]; [|done].
  all: assert (∃ l, dr_events d0 = l ++ dr_events d) as [k Ek]
    by (exists (l ++ [Stepped (wrapper d)]); by rewrite <-app_assoc).
  all: destruct a; [injection E as <- <-; by exists k|].
  - injection E as <- <-. by exists k.
  - destruct n as [|n]; [injection E as <- <-; by exists k|].
    split_run E; [|done]. injection Hm as <- <-. destruct Ha as [Hw _ _].
    apply IH in E as [j Ej]; [|cbn [dr_task]; by rewrite Hw].
    exists (j ++ Slept b :: k). rewrite Ej. cbn [dr_events]. by rewrite Ek, <-app_assoc.
Qed.

(** *** The commit point *)

Definition commit_safe d : Prop :=
  commits_first (dr_events d) ∧
  (wrapper_committed (wrapper d) = true → commit_reported (dr_events d)).

Lemma commit_reported_app l1 l2 : commit_reported l2 → commit_reported (l1 ++ l2).
Proof. intros [s Hs]. exists s. apply elem_of_app. by right. Qed.
Lemma commits_first_reports l1 l2 :
  Forall (λ e, ∃ s, e = Reported s) l1 → commits_first l2 → commits_first (l1 ++ l2).
Proof. intros Hl H2'. induction Hl as [|e l [s ->] _ IH]; [done|exact IH]. Qed.

Lemma running_step_commit d r d' :
  running_step cfg id d = (r, d') → wrapper_completed (wrapper d) = false →
  bypass_task_queue (dr_task d) = false → commit_safe d →
  commits_first (dr_events d') ∧
  (∀ b, r = Ok b → commit_safe d' ∧ bypass_task_queue (dr_task d') = false).
Proof.
  intros E Hc Hb [Hs1 Hs2]. apply running_step_cases in E as [Hr (l & El & _ & Hl)]; [|done].
  assert (commits_first (dr_events d')) as Hf.
  { rewrite El. by apply commits_first_reports. }
  split; [done|]. intros b ->. destruct b.
  - destruct Hr as [Hn Hb' _ Hcm]. rewrite Hb'. split; [|done]. split; [done|]. intros Hcd.
    destruct (next_stops_at_commit_point _ _ Hn Hcd) as [Ho|Hci].
    + rewrite El, cons_middle, app_assoc. apply commit_reported_app. by apply Hs2.
    + exists (wrapper_display (wrapper d')). rewrite <-Hcd. by apply Hcm.
  - destruct Hr as [Hw Hb' Ev]. rewrite Hb'. split; [|done]. split; [done|].
    rewrite Hw, Ev. intros Hcd. apply (commit_reported_app [_]). by apply Hs2.
Qed.

Lemma retry_step_commit retries b d r d' :
  (1 ≤ retries)%nat → retry_step cfg args id retries b d = (r, d') →
  wrapper_completed (wrapper d) = false →
  bypass_task_queue (dr_task d) = false → commit_safe d →
  commits_first (dr_events d') ∧
  (∀ c, r = Ok c → commit_safe d' ∧ bypass_task_queue (dr_task d') = false).
Proof.
  revert b d. induction retries as [|n IH]; intros b d Hn E Hc Hb Hs; [lia|]. simpl in E.
  split_run E; [|by eapply running_step_commit].
  pose proof (running_step_cases _ _ _ Hm Hc) as [Ha _].
  destruct (running_step_commit _ _ _ Hm Hc Hb Hs) as [_ H']. destruct (H' a eq_refl) as [Hs' Hb'].
  assert (commits_first (dr_events d0)) as Hf by apply Hs'.
  destruct a.
  { injection E as <- <-. split; [done|]. by intros. }
  destruct n as [|n].
  { injection E as <- <-. split; [done|]. by intros. }
  split_run E; [|done]. injection Hm0 as <- <-. destruct Ha as [Hw _ _].
  apply IH in E; [done|lia| |done|].
  - cbn [dr_task]. by rewrite Hw.
  - destruct Hs' as [S1 S2]. split; [exact S1|]. intros Hcd. apply (commit_reported_app [_]).
    by apply S2.
Qed.

(** *** Whole runs *)

Lemma running_rank w : wrapper_completed w = false → (wrapper_rank w ≤ 6)%nat.
Proof. destruct w as [s|s|s|s|s|s|s|s|s|s|s]; destruct s; cbn; lia || done. Qed.

(** What is left of a run that was not stopped by an error: the task has completed, or its
    last step was attempted to no avail. *)
Definition ended d d' : Prop :=
  wrapper_completed (wrapper d') = true ∨
  ∃ l, dr_events d' = failed_attempts args (wrapper d') (n_retries args) (initial_backoff_ms args) ++
    l ++ dr_events d.

Context (Hn : (1 ≤ n_retries args)%nat).

Lemma run_steps_cases fuel d r d' :
  (8 ≤ fuel + wrapper_rank (wrapper d))%nat → run_steps cfg args id fuel d = (r, d') →
  match r with Ok _ => ended d d' | Err e => reported_error e end ∧
  (steps (dr_events d') ≤ steps (dr_events d) + (7 - wrapper_rank (wrapper d)) * n_retries args)%nat
  ∧ ∃ l, dr_events d' = l ++ dr_events d.
Proof using All.
  revert d. induction fuel as [|fuel IH]; intros d Hf E.
  { pose proof (rank_bound (wrapper d)). lia. }
  simpl in E. split_run E; [|done]. injection Hm as <- <-.
  destruct (wrapper_completed (wrapper d)) eqn:Hc.
  { injection E as <- <-. split_and!; [by left|apply Nat.le_add_r|by exists []]. }
  pose proof (running_rank _ Hc) as Hr. split_run E.
  - pose proof Hm as Hx. apply retry_step_cases in Hx as [Ha Hs]; [|done..].
    assert (∃ l, dr_events d0 = l ++ dr_events d) as [l El] by by eapply retry_step_extends.
    destruct a.
    + apply next_forward in Ha. apply IH in E as (E1 & E2 & l' & E3); [|lia]. split_and!.
      * destruct r; [|done]. destruct E1 as [|[k E1]]; [by left|right].
        exists (k ++ l). by rewrite E1, El, <-!app_assoc.
      * pose proof (Nat.mul_le_mono_r (S (7 - wrapper_rank (wrapper d0)))
          (7 - wrapper_rank (wrapper d)) (n_retries args)). lia.
      * exists (l' ++ l). by rewrite E3, El, app_assoc.
    + injection E as <- <-. destruct Ha as [Hw Ev]. split_and!.
      * right. exists []. by rewrite Hw.
      * pose proof (Nat.mul_le_mono_r 1 (7 - wrapper_rank (wrapper d)) (n_retries args)). lia.
      * by exists l.
  - pose proof Hm as Hx. apply retry_step_cases in Hx as [Ha Hs]; [|done..]. split_and!.
    + done.
    + pose proof (Nat.mul_le_mono_r 1 (7 - wrapper_rank (wrapper d)) (n_retries args)). lia.
    + by eapply retry_step_extends.
Qed.

Lemma run_steps_commit fuel d r d' :
  (8 ≤ fuel + wrapper_rank (wrapper d))%nat → run_steps cfg args id fuel d = (r, d') →
  bypass_task_queue (dr_task d) = false → commit_safe d → commits_first (dr_events d').
Proof using All.
  revert d. induction fuel as [|fuel IH]; intros d Hf E Hb Hs.
  { pose proof (rank_bound (wrapper d)). lia. }
  simpl in E. split_run E; [|done]. injection Hm as <- <-.
  destruct (wrapper_completed (wrapper d)) eqn:Hc.
  { injection E as <- <-. apply Hs. }
  split_run E; [|by apply (retry_step_commit _ _ _ _ _ Hn Hm Hc Hb Hs)].
  pose proof Hm as Hx. apply retry_step_cases in Hx as [Ha _]; [|done..].
  destruct (retry_step_commit _ _ _ _ _ Hn Hm Hc Hb Hs) as [Hcf H'].
  destruct (H' a eq_refl) as [Hs' Hb'].
  destruct a; [|by injection E as <- <-].
  apply next_forward in Ha. apply IH in E; [done|lia|done|done].
Qed.
End Steps.

(** ** Proposals *)

(** The proposals that a node adds to its log all satisfy [P]. *)
Definition proposes (P : TaskTransition * bool → Prop) (n n' : Node) : Prop :=
  ∃ l, node_log n' = l ++ node_log n ∧ Forall P l.
#[global] Instance proposes_preorder P : PreOrder (proposes P).
Proof.
  split.
  - intros n. exists []. by split.
  - intros n1 n2 n3 (l1 & E1 & H1) (l2 & E2 & H2). exists (l2 ++ l1).
    split; [by rewrite E2, E1, app_assoc|by apply Forall_app].
Qed.
Lemma proposes_weaken (P Q : TaskTransition * bool → Prop) n n' :
  (∀ x, P x → Q x) → proposes P n n' → proposes Q n n'.
Proof. intros HPQ (l & E & Hl). exists l. split; [done|]. by eapply Forall_impl. Qed.
Lemma proposes_elem P n n' x : proposes P n n' → x ∈ node_log n → x ∈ node_log n'.
Proof. intros (l & -> & _) Hx. apply elem_of_app. by right. Qed.

(** Raft accepts every proposal. *)
Definition accepting (n : Node) : Prop := Forall (λ s, slot_accepts s = true) (node_schedule n).

Section Proposals.
Context (cfg : AppConfig).

Lemma next_slot_spec n r n' :
  next_slot cfg n = (r, n') →
  node_log n' = node_log n ∧ (∃ b, r = Ok b) ∧ (accepting n → accepting n' ∧ r = Ok true).
Proof.
  unfold next_slot. destruct (node_schedule n) as [|s rest] eqn:E; intros [= <- <-].
  - split_and!; [done|by eexists|done].
  - split_and!; [done|by eexists|]. unfold accepting. rewrite E, Forall_cons.
    intros [-> Hr]. by split.
Qed.

Lemma send_proposal_spec t n r n' :
  send_proposal cfg t n = (r, n') →
  proposes (λ x, x.1 = t) n n' ∧
  (∀ w, r = Ok w → (t, is_ok w) ∈ node_log n') ∧ (accepting n → accepting n' ∧ ∃ w, r = Ok w).
Proof.
  unfold send_proposal. intros E. split_run E.
  2: { apply next_slot_spec in Hm as (_ & [? ?] & _). done. }
  apply next_slot_spec in Hm as (El & _ & Ha). destruct a; cbn [negb] in E.
  - destruct (handle_task_transition cfg t (node_world d)) as [o w].
    injection E as <- <-. split_and!.
    + eexists [_]. cbn [log_proposal set_world node_log]. rewrite El. split; [done|].
      by constructor.
    + intros w' [= <-]. cbn. replace (is_ok (match o with Ok a => Ok a | Err e => Err (Applicator e) end))
        with (is_ok o) by (by destruct o). by left.
    + intros Hn. destruct (Ha Hn) as [Hn' _]. split; [exact Hn'|by eexists].
  - injection E as <- <-. split_and!; [by exists []|done|]. intros Hn. by destruct (Ha Hn).
Qed.
End Proposals.

Section Finish.
Context {T Env : Type} {HT : Task T Env} {HL : TaskLaws T Env} {HE : HookEnv Env}.
Context (cfg : AppConfig) (args : RuntimeArgs).
Context (id : TaskIdentifier).
Implicit Types d : Driver T Env.

(** The effect of a computation of the driver on the node's proposals *)
Definition effect {A} (P : TaskTransition * bool → Prop) (m : M (Driver T Env) TaskDriverError A)
    : Prop :=
  ∀ d r d', m d = (r, d') →
    proposes P (dr_node d) (dr_node d') ∧ (accepting (dr_node d) → accepting (dr_node d')) ∧
    bypass_task_queue (dr_task d') = bypass_task_queue (dr_task d).
Lemma effect_bind {A B} P (m : M (Driver T Env) TaskDriverError A) (f : A → M _ _ B) :
  effect P m → (∀ a, effect P (f a)) → effect P (m ≫= f).
Proof.
  intros Hm' Hf d r d' E. split_run E; [|by eapply Hm'].
  apply Hm' in Hm as (H1 & H2' & E1). apply Hf in E as (H3 & H4 & E2).
  split; [by etrans|]. split; [auto|by rewrite E2].
Qed.
Lemma effect_ret {A} P (a : A) : effect P (mret a).
Proof. intros d r d' [= <- <-]. by split. Qed.
Lemma effect_throw {A} P e : effect P (throw e : M _ _ A).
Proof. intros d r d' [= <- <-]. by split. Qed.
Lemma effect_gets {A} P (f : Driver T Env → A) : effect P (gets f).
Proof. intros d r d' [= <- <-]. by split. Qed.
Lemma effect_modify P f : (∀ d, dr_node (f d) = dr_node d ∧ dr_task (f d) = dr_task d) →
  effect P (modify f).
Proof. intros Hf d r d' [= <- <-]. destruct (Hf d) as [-> ->]. by split_and!. Qed.
Lemma effect_catch {A} P (m : M (Driver T Env) TaskDriverError A) :
  effect P m → effect P (catch m).
Proof.
  intros Hm d r d'. unfold catch. destruct (m d) as [r1 d1] eqn:E. intros [= <- <-].
  by apply Hm in E.
Qed.
Lemma effect_state {A} P (m : M Node StateError A) :
  (∀ n r n', m n = (r, n') → proposes P n n' ∧ (accepting n → accepting n')) → effect P (state m).
Proof.
  intros Hm d r d' E. apply state_frame in E as (-> & _ & _ & _ & E & _).
  destruct (m (dr_node d)) as [o n] eqn:Em. simpl in E. subst n. apply Hm in Em as [E1 E2].
  by split_and!.
Qed.
Lemma effect_weaken {A} P Q (m : M (Driver T Env) TaskDriverError A) :
  (∀ x, P x → Q x) → effect P m → effect Q m.
Proof.
  intros HPQ Hm d r d' E. apply Hm in E as (H1 & H2' & E). split; [|done].
  by eapply proposes_weaken.
Qed.
Lemma effect_for_each {X} P (xs : list X) (body : X → M (Driver T Env) TaskDriverError unit) :
  (∀ x, effect P (body x)) → effect P (for_each xs body).
Proof.
  intros Hb. induction xs as [|x xs IH]; simpl; [apply effect_ret|].
  apply effect_bind; [done|]. by intros _.
Qed.
Lemma effect_read {A} P (m : M TaskDb StorageError A) : effect P (state (with_read_tx m)).
Proof.
  apply effect_state. intros n r n'. unfold with_read_tx.
  destruct (m _).1; intros [= <- <-]; by split.
Qed.
Lemma effect_await P w : effect P (state (await w)).
Proof. apply effect_state. intros n r n'. destruct w; intros [= <- <-]; by split. Qed.
Lemma effect_propose P t :
  (∀ b, P (t, b)) → effect P (state (send_proposal cfg t)).
Proof.
  intros HP. apply effect_state. intros n r n' E. apply send_proposal_spec in E as (E1 & _ & E2).
  split; [|intros Hn; by apply E2]. eapply proposes_weaken; [|done]. intros [t' b] E. simpl in E. subst t'. apply HP.
Qed.
Lemma effect_event P e : effect P (event e).
Proof. by apply effect_modify. Qed.

(** *** The run *)

Definition is_report (x : TaskTransition * bool) : Prop := ∃ s, x.1 = TransitionTask id s.

Lemma effect_transition : effect is_report (transition_state cfg id).
Proof.
  unfold transition_state. apply effect_bind; [apply effect_gets|]. intros t.
  destruct (bypass_task_queue t); [apply effect_ret|].
  apply effect_bind; [apply effect_propose; intros b; by eexists|]. intros w.
  apply effect_bind; [destruct (is_ok w); [apply effect_event|apply effect_ret]|]. intros _.
  destruct (_ || _); [|apply effect_ret].
  apply effect_bind; [apply effect_await|]. intros _. apply effect_ret.
Qed.
Lemma effect_running P : effect P (is_task_running id).
Proof. apply effect_bind; [apply effect_read|]. intros t. apply effect_ret. Qed.
Lemma effect_step : effect is_report (running_step cfg id).
Proof.
  unfold running_step. apply effect_bind.
  { intros d r d'. unfold call_step. destruct (task_step _ _) as [? [? ?]] eqn:E.
    intros [= <- <-]. apply bypass_constant in E. by split_and!. }
  intros [[]|e].
  - apply effect_bind; [apply effect_catch, effect_transition|]. intros [[]|e]; [apply effect_ret|].
    apply effect_bind; [apply effect_running|]. intros []; apply effect_throw.
  - apply effect_bind; [destruct (retryable e); [apply effect_running|apply effect_ret]|].
    intros []; [apply effect_ret|apply effect_throw].
Qed.
Lemma effect_retry retries b : effect is_report (retry_step cfg args id retries b).
Proof.
  revert b. induction retries as [|n IH]; intros b; simpl;
    (apply effect_bind; [apply effect_step|]); (intros []; [apply effect_ret|]);
    [apply effect_throw|]. destruct n; [apply effect_ret|].
  apply effect_bind; [apply effect_event|]. intros _. apply IH.
Qed.
Lemma effect_run : effect is_report (run_task_to_completion cfg args id).
Proof.
  assert (∀ fuel, effect is_report (run_steps cfg args id fuel)) as Hr.
  { induction fuel as [|n IH]; simpl; (apply effect_bind; [apply effect_gets|]);
      (intros []; [apply effect_ret|]); [apply effect_throw|].
    apply effect_bind; [apply effect_retry|]. intros []; [apply IH|apply effect_ret]. }
  apply effect_bind; [apply Hr|]. intros _. apply effect_bind; [apply effect_gets|].
  intros []; [apply effect_ret|apply effect_throw].
Qed.

(** *** The end *)

Lemma refresh_proposes a n r n' :
  append_account_refresh_task cfg a n = (r, n') →
  proposes (λ _, True) n n' ∧ (accepting n → accepting n').
Proof.
  assert (∀ (td : TaskDescriptor) n r n', queued_task_new td n = (r, n') →
    node_log n' = node_log n ∧ node_schedule n' = node_schedule n) as Hq.
  { clear. intros td n r n'. unfold queued_task_new.
    destruct (node_fresh n) as [|[]]; by intros [= <- <-]. }
  assert (∀ A (m : M TaskDb StorageError A) n r n', with_read_tx m n = (r, n') → n' = n) as Hr.
  { clear. intros A m n r n'. unfold with_read_tx. by destruct (m _).1; intros [= <- <-]. }
  unfold append_account_refresh_task. intros E. split_run E; [|done]. injection Hm as <- <-.
  split_run E; unfold ensure in Hm;
    [|by destruct (bool_decide _); unfold throw, mret, M_ret in Hm; simplify_eq].
  assert (d = n) as ->
    by (by destruct (bool_decide _); unfold throw, mret, M_ret in Hm; simplify_eq).
  assert (∀ r n', state_append_task cfg (RefreshAccount a) n = (r, n') →
    proposes (λ _, True) n n' ∧ (accepting n → accepting n')) as Hs.
  { clear E. intros r1 n1 E. unfold state_append_task in E.
    split_run E; apply Hq in Hm0 as [L1 L2]; unfold proposes, accepting; rewrite <-?L1, <-?L2.
    2: { by split; [exists []|]. }
    split_run E; apply Hr in Hm0 as ->; [|by split; [exists []|]].
    split_run E; apply send_proposal_spec in Hm0 as (P1 & _ & P2); [injection E as <- <-|];
      (split; [by eapply proposes_weaken|intros Hx; by apply P2]). }
  split_run E; [|by apply Hs in Hm0]. apply Hs in Hm0. destruct a1 as [tid w].
  assert (∀ r n', await w d = (r, n') → n' = d) as Hw.
  { intros r1 n1. by destruct w; intros [= _ <-]. }
  split_run E; apply Hw in Hm1 as ->; [by injection E as <- <-|done].
Qed.

Lemma hooks_no_error success d e d' : run_post_task_hooks cfg success d ≠ (Err e, d').
Proof.
  unfold run_post_task_hooks. intros E. split_run E; [|done]. clear Hm.
  generalize dependent d0. induction (if success then success_hooks a else failure_hooks a)
    as [|h hs IH]; intros d0 E; simpl in E; [done|]. split_run E; [by eapply IH|done].
Qed.

Lemma clear_queues_spec accounts res d r d' :
  clear_queues cfg accounts res d = (r, d') → accepting (dr_node d) →
  proposes (λ _, True) (dr_node d) (dr_node d') ∧
  ∀ a, a ∈ accounts → ∃ b, (ClearTaskQueue a, b) ∈ node_log (dr_node d').
Proof.
  revert res d. induction accounts as [|a accounts IH]; intros res d E Ha; simpl in E.
  { injection E as <- <-. split; [done|]. by intros ? ?%not_elem_of_nil. }
  split_run E; apply state_frame in Hm as (_ & _ & _ & _ & En & Hr);
    destruct (state_clear_task_queue cfg a (dr_node d)) as [o n] eqn:Ep; simpl in En, Hr; subst;
    apply send_proposal_spec in Ep as (P1 & P2 & P3); destruct (P3 Ha) as [Ha' [w Hw]].
  - injection Hw as <-. apply IH in E as [E1 E2]; [|done]. split.
    + etrans; [|exact E1]. by eapply proposes_weaken.
    + intros x [->|Hx]%elem_of_cons; [|by apply E2]. eexists.
      eapply proposes_elem; [exact E1|]. by apply P2.
  - destruct Hr as (e' & -> & ->). done.
Qed.

Lemma clear_queues_no_error accounts res d e d' :
  clear_queues cfg accounts res d = (Err e, d') → ¬ accepting (dr_node d).
Proof.
  revert res d. induction accounts as [|a accounts IH]; intros res d E Ha; simpl in E; [done|].
  split_run E; apply state_frame in Hm as (_ & _ & _ & _ & En & Hr);
    destruct (state_clear_task_queue cfg a (dr_node d)) as [o n] eqn:Ep; simpl in En, Hr; subst;
    apply send_proposal_spec in Ep as (_ & _ & P3); destruct (P3 Ha) as [Ha' [w Hw]].
  - by eapply IH.
  - destruct Hr as (e' & _ & ->). done.
Qed.

Lemma cleanup_spec success accounts d r d' :
  cleanup cfg id success accounts d = (r, d') → accepting (dr_node d) →
  bypass_task_queue (dr_task d) = false →
  r = Ok tt ∧ ∃ b, (PopTask id success, b) ∈ node_log (dr_node d') ∧
    (b = false → ∀ a, a ∈ accounts → ∃ c, (ClearTaskQueue a, c) ∈ node_log (dr_node d')).
Proof.
  unfold cleanup. intros E Ha Hb. split_run E; [|done]. injection Hm as <- <-. rewrite Hb in E.
  assert (∀ d r d', pop_task_or_clear_queue cfg id success accounts d = (r, d') →
    accepting (dr_node d) →
    ∃ b, (PopTask id success, b) ∈ node_log (dr_node d') ∧
      (b = false → ∀ a, a ∈ accounts → ∃ c, (ClearTaskQueue a, c) ∈ node_log (dr_node d')))
    as Hpop.
  { clear. intros d r d' E Ha. unfold pop_task_or_clear_queue in E.
    split_run E; apply state_frame in Hm as (_ & _ & _ & _ & En & Hr);
      destruct (state_pop_task cfg id success (dr_node d)) as [o n] eqn:Ep; simpl in En, Hr; subst;
      apply send_proposal_spec in Ep as (P1 & P2 & P3); destruct (P3 Ha) as [Ha' [w Hw]].
    2: { destruct Hr as (e' & -> & ->). done. }
    injection Hw as <-. specialize (P2 a eq_refl). destruct (is_ok a) eqn:Eo.
    { injection E as <- <-. by exists true. }
    exists false. split_run E; [|exfalso; by eapply clear_queues_no_error].
    apply clear_queues_spec in Hm as [C1 C2]; [|done].
    assert (dr_node d' = dr_node d1) as ->.
    { split_run E.
      - injection E as <- <-. apply state_frame in Hm as (_ & _ & _ & _ & En & _). by destruct a0.
      - apply state_frame in Hm as (_ & _ & _ & _ & En & _). by destruct a0. }
    split; [by eapply proposes_elem|done]. }
  split_run E; unfold catch in Hm;
    destruct (pop_task_or_clear_queue cfg id success accounts d) as [o d1] eqn:Ep; [|done].
  injection Hm as <- <-. injection E as <- <-. split; [done|]. by eapply Hpop.
Qed.

Lemma effect_hooks success : effect (λ _, True) (run_post_task_hooks cfg success).
Proof.
  unfold run_post_task_hooks. apply effect_bind; [apply effect_gets|]. intros t.
  apply effect_for_each. intros h.
  assert (∀ m : M (Driver T Env) TaskDriverError unit, effect (λ _, True) m →
    effect (λ _, True) (ignore_error m)) as Hi.
  { intros m Hm d r d'. unfold ignore_error. destruct (m d) as [o d1] eqn:E.
    intros [= <- <-]. by apply Hm in E. }
  apply Hi.
  assert (∀ a o, effect (λ _, True) (send_engine_job a o)) as Hs.
  { intros a o. apply effect_bind; [apply effect_gets|]. intros b.
    apply effect_bind; [destruct b; [apply effect_ret|apply effect_throw]|]. intros _.
    by apply effect_modify. }
  destruct h; simpl.
  - apply effect_for_each. intros. apply Hs.
  - apply effect_bind; [apply effect_gets|]. intros. apply effect_for_each. intros. apply Hs.
  - apply effect_for_each. intros a. apply effect_bind; [|intros; apply effect_ret].
    apply effect_state. apply refresh_proposes.
Qed.

(** A task is either preempted, and then nothing but its states has been proposed, or it is
    popped; when the pop is refused, the queues of all its accounts are cleared. *)
Lemma drive_task_spec accounts d r d' :
  drive_task cfg args id accounts d = (r, d') → accepting (dr_node d) →
  bypass_task_queue (dr_task d) = false →
  (r = Err TaskPreempted ∧ proposes is_report (dr_node d) (dr_node d')) ∨
  (r ≠ Err TaskPreempted ∧ ∃ b, (PopTask id (is_ok r), b) ∈ node_log (dr_node d') ∧
    (b = false → ∀ a, a ∈ accounts → ∃ c, (ClearTaskQueue a, c) ∈ node_log (dr_node d'))).
Proof.
  unfold drive_task. intros E Ha Hb. split_run E; unfold catch in Hm;
    destruct (run_task_to_completion cfg args id d) as [o d1] eqn:Er; [|done].
  injection Hm as <- <-. apply effect_run in Er as (E1 & E2 & E3).
  assert (∀ r d', (cleanup cfg id (is_ok o) accounts;; run_post_task_hooks cfg (is_ok o);;
    match o with Ok _ => mret tt | Err e => throw e end) d1 = (r, d') →
    r = o ∧ ∃ b, (PopTask id (is_ok o), b) ∈ node_log (dr_node d') ∧
    (b = false → ∀ a, a ∈ accounts → ∃ c, (ClearTaskQueue a, c) ∈ node_log (dr_node d'))) as Hend.
  { clear E r d'. intros r d' E. rewrite <-E3 in Hb.
    split_run E; [|apply cleanup_spec in Hm as [? _]; [done|auto|done]].
    apply cleanup_spec in Hm as [_ (b & Hp & Hc)]; [|auto|done].
    split_run E.
    - pose proof (effect_hooks _ _ _ _ Hm) as (P1 & _).
      assert (d' = d2 ∧ r = o) as [-> ->].
      { destruct o as [[]|]; by injection E as <- <-. }
      split; [done|]. exists b. split; [by eapply proposes_elem|]. intros Hf x Hx'.
      destruct (Hc Hf x Hx') as [c Hx]. exists c. by eapply proposes_elem.
    - exfalso. by eapply hooks_no_error. }
  destruct o as [u|[]]; try (apply Hend in E as [-> E]; right; by split).
  injection E as <- <-. left. by split.
Qed.
End Finish.

Section Executors.
Context {T Env : Type} {HT : Task T Env} {HL : TaskLaws T Env} {HE : HookEnv Env}.
Context (cfg : AppConfig) (args : RuntimeArgs).
Context (task_new : TaskDescriptor → Env → result TaskError T) (show : TaskDriverError → string).

Lemma notify_spec id res (x : Executor Env) :
  ex_node (notify_listeners id res x).2 = ex_node x ∧
  ex_listeners (notify_listeners id res x).2 = delete id (ex_listeners x) ∧
  ex_sent (notify_listeners id res x).2 =
    rev ((λ c, (c, res)) <$> default [] (ex_listeners x !! id)) ++ ex_sent x.
Proof.
  unfold notify_listeners, mbind, M_bind. simpl.
  generalize (default [] (ex_listeners x !! id)) as l. intros l.
  assert (∀ y : Executor Env, ex_node (for_each l (send res) y).2 = ex_node y ∧
    ex_listeners (for_each l (send res) y).2 = ex_listeners y ∧
    ex_sent (for_each l (send res) y).2 = rev ((λ c, (c, res)) <$> l) ++ ex_sent y) as Hl.
  { induction l as [|c l IH]; intros y; [done|].
    set (y' := mkExecutor (ex_node y) (ex_env y) (ex_engine_jobs y) (ex_listeners y)
      ((c, res) :: ex_sent y)).
    change (for_each (c :: l) (send res) y) with (for_each l (send res) y').
    destruct (IH y') as (-> & -> & ->). split_and!; [done..|].
    rewrite fmap_cons. simpl. by rewrite <-app_assoc. }
  exact (Hl (set_listeners (delete id) x)).
Qed.
End Executors.

(** ** Example tasks *)

(** A task whose steps succeed or fail as the environment says: the environment is the list
    of outcomes, a success being given by the number of the next state. *)
#[local] Instance scripted_task : Task TaskStateWrapper (list (result TaskError nat)) := {|
  task_wrapper s := s;
  task_step s outcomes :=
    match outcomes with
    | [] => (Err (mkTaskError "no outcome" false), (s, []))
    | Err e :: rest => (Err e, (s, rest))
    | Ok i :: rest =>
        match wrapper_next s !! i with
        | Some s' => (Ok tt, (s', rest))
        | None => (Err (mkTaskError "no such state" false), (s, rest))
        end
    end;
  bypass_task_queue _ := false;
  success_hooks _ := [];
  failure_hooks _ := [];
|}.
#[local] Instance scripted_laws : TaskLaws TaskStateWrapper (list (result TaskError nat)).
Proof.
  split.
  - intros t e t' e' _. simpl. destruct e as [|[i|] e]; [done| |done].
    destruct (wrapper_next t !! i) eqn:E; intros [= <- <-]. by eapply list_elem_of_lookup_2.
  - intros t e err t' e'. simpl. destruct e as [|[i|] e]; [by intros [= _ <- _]| |by intros [= _ <- _]].
    destruct (wrapper_next t !! i); [done|by intros [= _ <- _]].
  - done.
Qed.
#[local] Instance scripted_hooks : HookEnv (list (result TaskError nat)) := {|
  orders_with_input_token _ _ _ := [];
  engine_queue_open _ := true;
|}.

(** A node with peer id 1 that keeps no task history, and its tables after some transitions *)
Definition sample_app : AppConfig := mkAppConfig production_flags true (λ _, false).
Definition sample_world (ts : list TaskTransition) : TaskWorld :=
  apply_all sample_app ts (mkTaskWorld
    (mkTaskDb ∅ ∅ ∅ ∅ None ∅ ∅ ∅ ∅ ∅ (Some 1) (Some false)) [] [] []).
Definition sample_node (ts : list TaskTransition) (schedule : list slot) : Node :=
  mkNode (sample_world ts) schedule [10; 11] true 0 [(50, 0); (51, 0)] [].

(** An order of account 10 that is being created, and a settlement of accounts 10 and 11 *)
Definition sample_order_task : QueuedTask :=
  mkQueuedTask 5 Queued (CreateOrder 10 (mkIntent 1 2 3 (mkFixedPoint 1) 4)) 0.
Definition sample_settlement : QueuedTask := mkQueuedTask 6 Queued (SettleInternalMatch 10 11) 0.

(** ** Properties *)

(** C17: running a task ends after at most seven times the number of retries attempts, for every
    task, environment and schedule: either the task has completed, or the driver gives up
    after exactly [n_retries] failed attempts of one step, [n_retries - 1] of them after
    delays that double up to the ceiling, or it stops with an error of the task or of the
    state.  It neither loops nor underflows. *)
Theorem driver_run_bounded {T Env} {HT : Task T Env} {HL : TaskLaws T Env} {HE : HookEnv Env}
    (cfg : AppConfig) (args : RuntimeArgs) (id : TaskIdentifier) (d : Driver T Env) :
  (1 ≤ n_retries args)%nat →
  let '(r, d') := run_task_to_completion cfg args id d in
  match r with
  | Ok _ => wrapper_completed (task_wrapper (dr_task d')) = true
  | Err TaskFailed => ∃ l, dr_events d' =
      failed_attempts args (task_wrapper (dr_task d')) (n_retries args) (initial_backoff_ms args) ++
      l ++ dr_events d
  | Err e => reported_error e
  end ∧ (steps (dr_events d') ≤ steps (dr_events d) + 7 * n_retries args)%nat.
Proof.
  intros Hn. destruct (run_task_to_completion cfg args id d) as [r d'] eqn:E.
  unfold run_task_to_completion in E.
  assert (∀ d1 r1, run_steps cfg args id STEPS d = (r1, d1) →
    match r1 with Ok _ => ended args d d1 | Err e => reported_error e end ∧
    (steps (dr_events d1) ≤ steps (dr_events d) + 7 * n_retries args)%nat) as Hs.
  { intros d1 r1 E1. apply run_steps_cases in E1 as (E1 & E2 & _); [|done|unfold STEPS; lia].
    split; [done|]. pose proof (Nat.mul_le_mono_r (7 - wrapper_rank (task_wrapper (dr_task d))) 7
      (n_retries args)). lia. }
  split_run E; apply Hs in Hm as [E1 E2]; [|by destruct e].
  split_run E; [|done]. injection Hm as <- <-.
  destruct (wrapper_completed (task_wrapper (dr_task d0))) eqn:Ec; injection E as <- <-; [done|].
  split; [|done]. destruct E1 as [E1|E1]; [by rewrite E1 in Ec|done].
Qed.

Lemma driver_run_bounded_witness :
  let fails := mkTaskError "timeout" true in
  let d := mkDriver (sample_node [AppendTask sample_order_task 1] [])
    (CreateOrderState CreateOrder_Creating) [Err fails; Err fails; Err fails; Err fails; Err fails]
    [] [] in
  let s := CreateOrderState CreateOrder_Creating in
  (run_task_to_completion sample_app runtime_args_default 5 d).1 = Err TaskFailed ∧
  dr_events (run_task_to_completion sample_app runtime_args_default 5 d).2 =
    [Stepped s; Slept 800; Stepped s; Slept 400; Stepped s; Slept 200; Stepped s; Slept 100;
     Stepped s] ∧
  (steps (dr_events (run_task_to_completion sample_app runtime_args_default 5 d).2) ≤ 35)%nat.
Proof.
  intros fails d s. split; [vm_compute; reflexivity|]. split; [vm_compute; reflexivity|].
  pose proof (driver_run_bounded sample_app runtime_args_default 5 d ltac:(simpl; lia)) as H.
  destruct (run_task_to_completion sample_app runtime_args_default 5 d) as [r d'].
  destruct H as [_ H]. exact H.
Defined.

(** C10: no step beyond the commit point of a task is attempted before the state machine of
    task queues has applied the task's committed state, for every task that goes through
    the queue: from then on only a yield of an order task can take the queue from it. *)
Theorem driver_commits_first {T Env} {HT : Task T Env} {HL : TaskLaws T Env} {HE : HookEnv Env}
    (cfg : AppConfig) (args : RuntimeArgs) (id : TaskIdentifier) (d : Driver T Env) :
  (1 ≤ n_retries args)%nat → bypass_task_queue (dr_task d) = false →
  wrapper_committed (task_wrapper (dr_task d)) = false → dr_events d = [] →
  commits_first (dr_events (run_task_to_completion cfg args id d).2).
Proof.
  intros Hn Hb Hc He. destruct (run_task_to_completion cfg args id d) as [r d'] eqn:E.
  unfold run_task_to_completion in E.
  assert (∀ r1 d1, run_steps cfg args id STEPS d = (r1, d1) → commits_first (dr_events d1)) as Hs.
  { intros r1 d1 E1. apply run_steps_commit in E1; [done|done|unfold STEPS; lia|done|].
    unfold commit_safe. rewrite He, Hc. by split. }
  split_run E; apply Hs in Hm; [|done]. split_run E; [|done]. injection Hm0 as <- <-.
  by destruct (wrapper_completed _); injection E as <- <-.
Qed.

Lemma driver_commits_first_witness :
  commits_first (dr_events (run_task_to_completion sample_app runtime_args_default 5
    (mkDriver (sample_node [AppendTask sample_order_task 1] [])
       (CreateOrderState CreateOrder_Pending) [Ok 0%nat; Ok 0%nat; Ok 0%nat] [] [])).2) ∧
  dr_events (run_task_to_completion sample_app runtime_args_default 5
    (mkDriver (sample_node [AppendTask sample_order_task 1] [])
       (CreateOrderState CreateOrder_Pending) [Ok 0%nat; Ok 0%nat; Ok 0%nat] [] [])).2 =
    [Reported (Running "Completed" true); Stepped (CreateOrderState CreateOrder_CheckingAllowance);
     Reported (Running "CheckingAllowance" true); Stepped (CreateOrderState CreateOrder_Creating);
     Reported (Running "Creating" true); Stepped (CreateOrderState CreateOrder_Pending)].
Proof.
  split; [|vm_compute; reflexivity].
  apply (driver_commits_first sample_app runtime_args_default 5); [simpl; lia|done..].
Defined.



(** ** Recovery from failures *)

(** The settlement takes the queue of account 10 from the order task, and commits. *)
Definition sample_preemption : list TaskTransition :=
  [EnqueuePreemptiveTask [10; 11] sample_settlement 1 true;
   TransitionTask 6 (Running "SubmittingTx" true)].
(** The order task is driven from its start; the preemption comes with the second proposal. *)
Definition sample_yield (outcome : result TaskError nat)
    : Driver TaskStateWrapper (list (result TaskError nat)) :=
  mkDriver (sample_node [AppendTask sample_order_task 1]
              [mkSlot [] true; mkSlot sample_preemption true])
    (CreateOrderState CreateOrder_Pending) [Ok 0%nat; outcome; Ok 0%nat] [] [].
Definition live_tasks (d : Driver TaskStateWrapper (list (result TaskError nat)))
    : gmap TaskIdentifier QueuedTaskState :=
  task_state <$> tasks (tdb (node_world (dr_node d))).


