(* ===== verification/TaskContext.v ===== *)
(** * What tasks act on

    src/crates/workers/task-driver/src/traits.rs ([TaskContext]) and utils/mod.rs, the methods
    of src/crates/state/src/interface/{account_index,merkle_proofs,proofs}.rs that tasks call,
    and tasks/validity_proofs/{intent_only,intent_and_balance,output_balance,balance_update,
    error}.rs.

    Tasks call services that are not part of the development: raft, the proof manager, the
    darkpool contract behind its RPC client, and the indexer.  They are the record
    [Services]; each call takes the number of calls before it, so that a service may answer
    the same request differently every time.  What the chain has included is kept in the
    environment, newest first. *)
From S2P Require Import Prelude Scalar FixedPoint BaseType CircuitTypes Merkle ProverCircuit.
From S2P Require Import BalanceCircuits ValidityCircuits SettlementCircuits DarkpoolTypes.
From S2P Require Import StateWrapper AccountTypes ValidityBundles TaskStorage TaskApplicator.
From S2P Require Import AccountStorage AccountApplicator StateInterface TaskProofs.
Local Open Scope Z_scope.

(** ** Transactions and messages *)

Record DepositAuth := mkDepositAuth {
  permit2_nonce : Z;
  permit2_deadline : Z;
  permit2_signature : list Z;
}.

(** The calldata of a settlement: what the parties owe, or the private proof of it *)
Inductive ObligationBundle :=
| PublicObligations (obligation0 obligation1 : SettlementObligation)
| PrivateObligations (statement : IntentAndBalancePrivateSettlementStatement Scalar).

(** A party's part of it.  A validity proof is given by its statement, which also tells whether
    the fill is the first one. *)
Inductive SettlementBundle :=
| PublicIntentSettlement (permit : PublicIntentPermit)
    (intent_signature executor_signature : SignatureWithNonce) (relayer_fee : FixedPoint * Address)
| PrivateIntentPublicBalance (intent_signature : option SignatureWithNonce) (validity : ProofPayload)
    (settlement : IntentOnlyPublicSettlementStatement Scalar)
| RenegadeSettledPrivateIntent (validity output : ProofPayload)
    (settlement : IntentAndBalancePublicSettlementStatement Scalar)
| RenegadeSettledPrivateFill (validity output : ProofPayload).

Inductive Transaction :=
| CreateBalanceTx (auth : DepositAuth) (statement : ValidBalanceCreateStatement Scalar)
| DepositTx (auth : DepositAuth) (statement : ValidDepositStatement Scalar)
| WithdrawTx (signature : list Z) (statement : ValidWithdrawalStatement Scalar)
| CancelPublicOrderTx (cancel_signature : SignatureWithNonce) (permit : PublicIntentPermit)
    (intent_signature : SignatureWithNonce)
| SettleMatchTx (obligations : ObligationBundle) (bundle0 bundle1 : SettlementBundle).

(** utils/indexer_client.rs *)
Inductive IndexerMessage :=
| RegisterMasterViewSeed (account_id : AccountId) (owner_address : Address) (seed : Scalar)
| UpdatePublicIntentMetadata (intent_hash : Z) (order : Order)
    (intent_signature : SignatureWithNonce) (permit : PublicIntentPermit)
    (matching_pool : MatchingPoolName).
Record ApiPublicIntent := mkApiPublicIntent {
  api_order : Order;
  api_permit : PublicIntentPermit;
  api_intent_signature : SignatureWithNonce;
  api_matching_pool : MatchingPoolName;
}.

(** The jobs of the proof manager that tasks send (job-types/src/proof_manager.rs) *)
Inductive ProofJob :=
| ValidBalanceCreateJob (s : ValidBalanceCreateStatement Scalar)
    (x : ValidBalanceCreateWitness Scalar)
| ValidDepositJob (s : ValidDepositStatement Scalar) (x : ValidDepositWitness MERKLE_HEIGHT Scalar)
| ValidWithdrawalJob (s : ValidWithdrawalStatement Scalar)
    (x : ValidWithdrawalWitness MERKLE_HEIGHT Scalar)
| ValidityJob (bundle : ValidityProofBundle)
| IntentOnlyPublicSettlementJob (s : IntentOnlyPublicSettlementStatement Scalar)
    (x : IntentOnlyPublicSettlementWitness Scalar)
| IntentAndBalancePublicSettlementJob (s : IntentAndBalancePublicSettlementStatement Scalar)
    (x : IntentAndBalancePublicSettlementWitness Scalar)
| IntentAndBalancePrivateSettlementJob (s : IntentAndBalancePrivateSettlementStatement Scalar)
    (x : IntentAndBalancePrivateSettlementWitness Scalar).

(** ** Services *)

Record Services := mkServices {
  (** the relayer's configuration, and the default key of the curve library *)
  sv_config : SettlementConfig;
  sv_default_key : SchnorrPublicKey;
  (** raft accepts a proposal *)
  sv_accepts : nat → bool;
  (** the proof manager returns a proof *)
  sv_prove : nat → ProofJob → bool;
  (** whether the chain includes a transaction, and what the client says of it: a receipt or
      an error message *)
  sv_submit : nat → list Transaction → Transaction → bool * result string unit;
  (** the path of a commitment that the receipt of a transaction has an insertion event for *)
  sv_merkle_path : nat → Transaction → Scalar → option MerkleAuthenticationPath;
  (** the balance of an owner that is approved to the darkpool; [None]: the RPC fails *)
  sv_usable_balance : nat → Address → Address → option Amount;
  (** the public intents of an account in the indexer; whether it takes a message *)
  sv_public_intents : nat → AccountId → option (list ApiPublicIntent);
  sv_indexer : nat → IndexerMessage → bool;
  (** the executor's signature of an obligation *)
  sv_executor_signature :
    SettlementObligation → FixedPoint * Address → option SignatureWithNonce;
}.

(** ** The environment *)

Record TaskEnv := mkTaskEnv {
  env_accounts : AccountWorld;
  env_chain : list Transaction;
  env_messages : list IndexerMessage;
  env_calls : nat;
}.
Definition set_accounts (w : AccountWorld) (e : TaskEnv) : TaskEnv :=
  mkTaskEnv w (env_chain e) (env_messages e) (env_calls e).
Definition set_chain (l : list Transaction) (e : TaskEnv) : TaskEnv :=
  mkTaskEnv (env_accounts e) l (env_messages e) (env_calls e).
Definition env_db (e : TaskEnv) : AccountDb := adb (env_accounts e).

(** [result.map_err(f)] *)
Definition map_err {S E F A} (f : E → F) (m : M S E A) : M S F A := λ s,
  let '(r, s') := m s in (match r with Ok a => Ok a | Err e => Err (f e) end, s').

(** [match result { Ok(x) => ..., Err(e) => ... }] *)
Definition attempt {S E F A} (m : M S E A) : M S F (result E A) := λ s,
  let '(r, s') := m s in (Ok r, s').

(** *** Messages of errors (state/src/error.rs, applicator/error.rs, storage/error.rs) *)

Definition display_storage_error (e : StorageError) : string :=
  match e with
  | NotFound msg => "entry not found: " ++ msg
  | TableDisabled table => "table disabled: " ++ table
  | Other msg => "other error: " ++ msg
  | Rejected msg => "Write rejected: " ++ msg
  end.
(** The message of [TaskQueueEmpty] is given without the key. *)
Definition display_applicator_error (e : StateApplicatorError) : string :=
  match e with
  | EnqueueTask msg => "error enqueuing task: " ++ msg
  | MissingEntry msg => "missing database entry: " ++ msg
  | AppRejected msg => "state transition rejected: " ++ msg
  | Storage e => "storage error: " ++ display_storage_error e
  | TaskQueueEmpty _ => "queue is empty, but should not be"
  | Panicked | OutOfFuel => EmptyString
  end.
(** A rejection reaches the waiter as [TransitionRejected] (replication/state_machine/mod.rs). *)
Definition display_state_error (e : StateError) : string :=
  match e with
  | Replication => "replication error"
  | Applicator (AppRejected msg) => "state transition rejected: " ++ msg
  | Applicator e => "state applicator error: " ++ display_applicator_error e
  | Db e => "database error: " ++ display_storage_error e
  end.

(** [s.contains(pattern)] *)
Fixpoint contains (pattern s : string) : bool :=
  String.prefix pattern s ||
  match s with EmptyString => false | String _ s' => contains pattern s' end.

(** *** Validity proof errors (error.rs); [VpPanicked] is a panic of the native code. *)
Inductive ValidityProofsError :=
| VpState (msg : string)
| MerkleProofNotFound
| VpProofGeneration (msg : string)
| VpPanicked.
Definition vp_from_state (e : StateError) : ValidityProofsError := VpState (display_state_error e).
Definition display_validity_error (e : ValidityProofsError) : string :=
  match e with
  | VpState msg => "state error: " ++ msg
  | MerkleProofNotFound => "merkle proof not found for intent"
  | VpProofGeneration msg => "proof generation failed: " ++ msg
  | VpPanicked => EmptyString
  end.

Section Context.
Context (permit_hash : PublicIntentPermit → Z) (svc : Services).

(** ** The state interface *)

Definition tick {E} : M TaskEnv E nat := λ e,
  (Ok (env_calls e), mkTaskEnv (env_accounts e) (env_chain e) (env_messages e) (S (env_calls e))).

Definition read {A} (m : M AccountDb StorageError A) : M TaskEnv StateError A := λ e,
  (match (m (env_db e)).1 with Ok a => Ok a | Err x => Err (Db x) end, e).

Definition propose (t : AccountTransition) : M TaskEnv StateError ProposalWaiter :=
  n ← tick;
  if negb (sv_accepts svc n) then throw Replication else λ e,
  let '(r, w) := handle_account_transition permit_hash t (env_accounts e) in
  (Ok (match r with Ok a => Ok a | Err x => Err (Applicator x) end), set_accounts w e).
Definition await_proposal (w : ProposalWaiter) : M TaskEnv StateError unit :=
  match w with Ok _ => mret tt | Err e => throw e end.
Definition propose_and_wait (t : AccountTransition) : M TaskEnv StateError unit :=
  waiter ← propose t; await_proposal waiter.

Definition get_account_keychain (a : AccountId) : M TaskEnv StateError (option KeyChain) :=
  read (h ← get_account_header a; mret (header_keychain <$> h)).
Definition state_order_matchable_amount (id : OrderId) : M TaskEnv StateError Amount :=
  read (m ← get_order_matchable_amount id; mret (default 0 m)).
Definition get_account_balance_value (a : AccountId) (token : Address) (l : BalanceLocation)
    : M TaskEnv StateError Amount :=
  read (b ← get_balance a token l; mret (default 0 (balance_amount <$> b))).
Definition get_account_darkpool_balance (a : AccountId) (token : Address)
    : M TaskEnv StateError (option Balance) := read (get_balance a token Darkpool).

(** The entries under the keys of a proof type are of that type. *)
Definition get_new_output_balance_validity_proof_and_witness (a : AccountId) (m : Address)
    : M TaskEnv StateError (option (ProofPayload * SizedNewOutputBalanceValidityWitness)) :=
  read (p ← get_validity_proof NewOutputBalance (LocatorBalance a m);
        w ← get_validity_witness NewOutputBalance (LocatorBalance a m);
        mret (match p, w with
              | Some p, Some (NewOutputBalanceWitness x) => Some (p, x)
              | _, _ => None
              end)).
Definition get_output_balance_validity_proof_and_witness (a : AccountId) (m : Address)
    : M TaskEnv StateError (option (ProofPayload * SizedOutputBalanceValidityWitness)) :=
  read (p ← get_validity_proof OutputBalance (LocatorBalance a m);
        w ← get_validity_witness OutputBalance (LocatorBalance a m);
        mret (match p, w with
              | Some p, Some (OutputBalanceWitness x) => Some (p, x)
              | _, _ => None
              end)).
Definition get_intent_and_balance_first_fill_validity_proof_and_witness (id : OrderId)
    : M TaskEnv StateError
        (option (ProofPayload * SizedIntentAndBalanceFirstFillValidityWitness)) :=
  read (p ← get_validity_proof IntentAndBalanceFirstFill (LocatorIntent id);
        w ← get_validity_witness IntentAndBalanceFirstFill (LocatorIntent id);
        mret (match p, w with
              | Some p, Some (IntentAndBalanceFirstFillWitness x) => Some (p, x)
              | _, _ => None
              end)).
Definition get_intent_and_balance_validity_proof_and_witness (id : OrderId)
    : M TaskEnv StateError (option (ProofPayload * SizedIntentAndBalanceValidityWitness)) :=
  read (p ← get_validity_proof IntentAndBalance (LocatorIntent id);
        w ← get_validity_witness IntentAndBalance (LocatorIntent id);
        mret (match p, w with
              | Some p, Some (IntentAndBalanceWitness x) => Some (p, x)
              | _, _ => None
              end)).

(** ** Services (utils/mod.rs) *)

Definition enqueue_proof_job (job : ProofJob) : M TaskEnv string unit :=
  n ← tick; ensure (sv_prove svc n job) "error enqueuing job with proof manager".

(** A transaction: its receipt names it. *)
Definition call_contract (n : nat) (t : Transaction) : M TaskEnv string Transaction := λ e,
  let '(included, response) := sv_submit svc n (env_chain e) t in
  (match response with Ok _ => Ok t | Err msg => Err msg end,
   if (included : bool) then set_chain (t :: env_chain e) e else e).
Definition submit (t : Transaction) : M TaskEnv string Transaction :=
  n ← tick; call_contract n t.
Definition find_merkle_authentication_path_with_tx (commitment : Scalar) (receipt : Transaction)
    : M TaskEnv string MerkleAuthenticationPath :=
  n ← tick; ok_or (sv_merkle_path svc n receipt commitment) "commitment not found in tx".

(** The relayer logs a message that the indexer does not take. *)
Definition submit_message (m : IndexerMessage) {E} : M TaskEnv E unit :=
  n ← tick;
  if sv_indexer svc n m
  then modify (λ e, mkTaskEnv (env_accounts e) (env_chain e) (m :: env_messages e) (env_calls e))
  else mret tt.

Definition create_ring0_balance (mint_ owner_ relayer_fee_recipient : Address) (amt : Amount)
    : option Balance :=
  let bal := DarkpoolTypes.with_amount
    (balance_new mint_ owner_ relayer_fee_recipient (sv_default_key svc)) amt in
  w ← state_wrapper_new bal 0 0; Some (mkBalance w EOA).
Definition fetch_eoa_balance (token owner_ : Address) : M TaskEnv string (option Balance) :=
  n ← tick;
  usable_balance ← ok_or (sv_usable_balance svc n token owner_) "rpc error";
  if usable_balance =? 0 then mret None else
  b ← ok_or (create_ring0_balance token owner_ (cfg_relayer_fee_addr (sv_config svc))
               usable_balance) EmptyString;
  mret (Some b).

(** ** Validity proofs *)

Local Abbreviation V := (M TaskEnv ValidityProofsError) (only parsing).

Definition vp_state {A} (m : M TaskEnv StateError A) : V A := map_err vp_from_state m.
(** A panic of the code that builds a witness *)
Definition vp_native {A} (o : option A) : V A := ok_or o VpPanicked.

(** Prove the statement of a bundle and store it ([add_intent_validity_proof],
    [add_balance_validity_proof]). *)
Definition prove_and_store (l : ValidityProofLocator) (b : ValidityProofBundle) : V unit :=
  map_err VpProofGeneration (enqueue_proof_job (ValidityJob b));;
  vp_state (propose_and_wait (AddValidityProof l b)).

Definition vp_get_order (id : OrderId) : V Order :=
  o ← vp_state (read (get_order id)); ok_or o (VpState "Order not found").

(** *** Intents alone (intent_only.rs) *)

Definition update_intent_only_validity_proof_first_fill (order : Order) : V unit :=
  '(x, s) ← vp_native (generate_intent_only_first_fill_witness_statement (order_intent order));
  prove_and_store (LocatorIntent (order_id order)) (IntentOnlyFirstFillBundle s x).
Definition update_intent_only_validity_proof_subsequent_fill (order : Order) : V unit :=
  merkle_proof ← vp_state (read (get_merkle_proof (IntentPath (order_id order))));
  merkle_proof ← ok_or merkle_proof MerkleProofNotFound;
  '(x, s) ← vp_native
    (generate_intent_only_subsequent_fill_witness_statement (order_intent order) merkle_proof);
  prove_and_store (LocatorIntent (order_id order)) (IntentOnlyBundle s x).
Definition update_intent_only_validity_proof (id : OrderId) : V unit :=
  matchable_amount ← vp_state (state_order_matchable_amount id);
  if matchable_amount =? 0 then mret tt else
  order ← vp_get_order id;
  if negb (has_been_filled (order_metadata order))
  then update_intent_only_validity_proof_first_fill order
  else update_intent_only_validity_proof_subsequent_fill order.

(** *** Intents with their balance (intent_and_balance.rs) *)

Definition get_capitalizing_balance (a : AccountId) (order : Order) : V StateBalance :=
  b ← vp_state (get_account_darkpool_balance a (order_input_token order));
  b ← ok_or b (VpState "darkpool balance not found for intent");
  mret (state_wrapper b).
Definition vp_balance_merkle_proof (a : AccountId) (m : Address) : V MerkleAuthenticationPath :=
  p ← vp_state (read (get_merkle_proof (BalancePath a m)));
  ok_or p (VpState "balance merkle proof not found").

Definition update_first_fill_validity_proof (order : Order) (balance : StateBalance)
    (balance_merkle_proof : MerkleAuthenticationPath) (order_auth : SchnorrSignature) : V unit :=
  '(x, s) ← vp_native (generate_first_fill_witness_statement (order_intent order) balance
              balance_merkle_proof order_auth);
  prove_and_store (LocatorIntent (order_id order)) (IntentAndBalanceFirstFillBundle s x).
Definition update_subsequent_fill_validity_proof (order : Order) (balance : StateBalance)
    (balance_merkle_proof : MerkleAuthenticationPath) : V unit :=
  intent_merkle_proof ← vp_state (read (get_merkle_proof (IntentPath (order_id order))));
  intent_merkle_proof ← ok_or intent_merkle_proof MerkleProofNotFound;
  '(x, s) ← vp_native (generate_subsequent_fill_witness_statement (order_intent order) balance
              intent_merkle_proof balance_merkle_proof);
  prove_and_store (LocatorIntent (order_id order)) (IntentAndBalanceBundle s x).
Definition update_intent_and_balance_validity_proof (a : AccountId) (id : OrderId)
    (order_auth : SchnorrSignature) : V unit :=
  matchable_amount ← vp_state (state_order_matchable_amount id);
  if matchable_amount =? 0 then mret tt else
  order ← vp_get_order id;
  balance ← get_capitalizing_balance a order;
  balance_merkle_proof ← vp_balance_merkle_proof a (order_input_token order);
  if negb (has_been_filled (order_metadata order))
  then update_first_fill_validity_proof order balance balance_merkle_proof order_auth
  else update_subsequent_fill_validity_proof order balance balance_merkle_proof.

(** *** Output balances (output_balance.rs) *)

Definition update_existing_output_balance_proof (a : AccountId) (m : Address)
    (output_balance : StateBalance) : V unit :=
  merkle_proof ← vp_state (read (get_merkle_proof (BalancePath a m)));
  merkle_proof ← ok_or merkle_proof (VpState "output balance merkle proof not found");
  '(x, s) ← vp_native (generate_existing_witness_statement output_balance merkle_proof);
  prove_and_store (LocatorBalance a m) (OutputBalanceBundle s x).

(** The keychain whose streams were sampled is stored before the proof is made. *)
Definition update_new_output_balance_proof (a : AccountId) (m existing_balance_mint : Address)
    (new_output_balance_auth : SchnorrSignature) : V unit :=
  keychain ← vp_state (get_account_keychain a);
  keychain ← ok_or keychain (VpState "keychain not found");
  balance ← vp_state (get_account_darkpool_balance a existing_balance_mint);
  balance ← ok_or balance (VpState "darkpool balance not found");
  existing_balance_merkle_proof ← vp_balance_merkle_proof a existing_balance_mint;
  let existing_balance := state_wrapper balance in
  '(new_output_balance, k) ← vp_native
    (create_new_output_balance m existing_balance (secret_keys keychain));
  vp_state (propose_and_wait
    (UpdateAccountKeychain a (mkKeyChain k (schnorr_public_key keychain))));;
  '(x, s) ← vp_native (generate_new_witness_statement new_output_balance existing_balance
              existing_balance_merkle_proof new_output_balance_auth);
  prove_and_store (LocatorBalance a m) (NewOutputBalanceBundle s x).

Definition update_output_balance_validity_proof (a : AccountId) (id : OrderId)
    (new_output_balance_auth : SchnorrSignature) (force : bool) : V unit :=
  matchable_amount ← vp_state (state_order_matchable_amount id);
  if matchable_amount =? 0 then mret tt else
  order ← vp_get_order id;
  let output_mint := order_output_token order in
  let input_mint := order_input_token order in
  has_proof ← vp_state (read (has_output_balance_validity_proof (LocatorBalance a output_mint)));
  if negb force && has_proof then mret tt else
  existing_output_balance ← vp_state (get_account_darkpool_balance a output_mint);
  match existing_output_balance with
  | Some output_balance =>
      update_existing_output_balance_proof a output_mint (state_wrapper output_balance)
  | None => update_new_output_balance_proof a output_mint input_mint new_output_balance_auth
  end.

(** *** After an update of a balance (balance_update.rs) *)

Definition get_private_fill_auth (id : OrderId)
    : V (option (SchnorrSignature * SchnorrSignature)) :=
  order_auth ← vp_state (read (get_order_auth id));
  order_auth ← ok_or order_auth (VpState "order auth not found");
  mret (into_renegade_settled_order order_auth).

Definition refresh_output_balance_validity_for_orders (a : AccountId) (ids : list OrderId)
    : V unit :=
  for_each ids (λ id,
    auth ← get_private_fill_auth id;
    match auth with
    | Some (_, balance_sig) => update_output_balance_validity_proof a id balance_sig true
    | None => mret tt
    end).
Definition refresh_intent_and_balance_validity_for_orders (a : AccountId) (ids : list OrderId)
    : V unit :=
  for_each ids (λ id,
    auth ← get_private_fill_auth id;
    match auth with
    | Some (intent_sig, _) => update_intent_and_balance_validity_proof a id intent_sig
    | None => mret tt
    end).
Definition refresh_validity_proofs_for_updated_balance (a : AccountId) (m : Address) : V unit :=
  output_order_ids ← vp_state (read (get_orders_with_output_token a m));
  refresh_output_balance_validity_for_orders a output_order_ids;;
  input_order_ids ← vp_state (read (get_orders_with_input_token a m));
  refresh_intent_and_balance_validity_for_orders a input_order_ids.
End Context.
