(* ===== verification/Tasks.v ===== *)
(** * The tasks of accounts and orders

    src/crates/workers/task-driver/src/tasks/{create_new_account,create_order,cancel_order,
    refresh_account}.rs: the fields of each task, its errors
    and which of them are retried, its [step], and its hooks.  Each is an instance of the
    class [Task] of the driver (TaskDriver.v).

    A step mutates the task's fields and the environment (TaskContext.v), and what it has
    mutated stays when it fails.  Where the native code panics ([unwrap], [unreachable!], an
    overflow in a witness) the step fails with an error that is not retried. *)
From S2P Require Import Prelude Scalar FixedPoint BaseType CircuitTypes Merkle ProverCircuit.
From S2P Require Import BalanceCircuits ValidityCircuits SettlementCircuits DarkpoolTypes.
From S2P Require Import StateWrapper AccountTypes ValidityBundles TaskStorage TaskApplicator.
From S2P Require Import AccountStorage AccountApplicator StateInterface TaskStates TaskDriver.
From S2P Require Import TaskProofs TaskContext.
Local Open Scope Z_scope.

(** ** Steps *)

Definition on_env {T E A} (m : M TaskEnv E A) : M (T * TaskEnv) E A :=
  zoom snd (λ e te, (te.1, e)) (λ e, e) m.
Definition field {T E A} (f : T → A) : M (T * TaskEnv) E A := gets (λ te, f te.1).
Definition assign {T E} (f : T → T) : M (T * TaskEnv) E unit := modify (λ te, (f te.1, te.2)).
Definition run_step {T E} (err : E → TaskError) (step : M (T * TaskEnv) E unit) (t : T)
    (e : TaskEnv) : result TaskError unit * (T * TaskEnv) := map_err err step (t, e).

#[global] Instance task_env_hooks : HookEnv TaskEnv := {|
  orders_with_input_token e a m :=
    match (get_orders_with_input_token a m (env_db e)).1 with Ok l => l | Err _ => [] end;
  engine_queue_open _ := true;
|}.

Section Tasks.
Context (permit_hash : PublicIntentPermit → Z) (svc : Services).

(** ** New accounts (create_new_account.rs) *)

Record CreateNewAccountTask := mkCreateNewAccountTask {
  na_account_id : AccountId;
  na_keychain : KeyChain;
  na_owner_address : Address;
  na_task_state : CreateNewAccountTaskState;
}.
Inductive CreateNewAccountTaskError := NaState (msg : string) | NaPanicked.
Definition create_new_account_error (e : CreateNewAccountTaskError) : TaskError :=
  match e with NaState msg => mkTaskError msg true | NaPanicked => mkTaskError "panicked" false end.
Definition set_na_state (s : CreateNewAccountTaskState) (t : CreateNewAccountTask) :=
  mkCreateNewAccountTask (na_account_id t) (na_keychain t) (na_owner_address t) s.

Definition task_create_account (t : CreateNewAccountTask)
    : M TaskEnv CreateNewAccountTaskError unit :=
  let acct := new_empty_account (na_account_id t) (na_keychain t) in
  map_err (λ e, NaState (display_state_error e))
    (propose_and_wait permit_hash svc (CreateAccount acct));;
  submit_message svc (RegisterMasterViewSeed (na_account_id t) (na_owner_address t)
    (master_view_seed (secret_keys (na_keychain t)))).
Definition create_new_account_step
    : M (CreateNewAccountTask * TaskEnv) CreateNewAccountTaskError unit :=
  t ← field id;
  match na_task_state t with
  | NewAccount_Pending => assign (set_na_state NewAccount_Creating)
  | NewAccount_Creating =>
      on_env (task_create_account t);; assign (set_na_state NewAccount_Completed)
  | NewAccount_Completed => throw NaPanicked
  end.
Definition create_new_account_task : Task CreateNewAccountTask TaskEnv := {|
  task_wrapper t := CreateNewAccountState (na_task_state t);
  task_step := run_step create_new_account_error create_new_account_step;
  bypass_task_queue _ := false;
  success_hooks _ := [];
  failure_hooks _ := [];
|}.

(** ** New orders (create_order.rs) *)

Record CreateOrderTask := mkCreateOrderTask {
  co_account_id : AccountId;
  co_order_id : OrderId;
  co_intent : Intent;
  co_ring : PrivacyRing;
  co_metadata : OrderMetadata;
  co_auth : OrderAuth;
  co_matching_pool : MatchingPoolName;
  co_task_state : CreateOrderTaskState;
}.
Inductive CreateOrderTaskError :=
| CoDarkpoolClient (msg : string)
| CoInvalidDescriptor (msg : string)
| CoState (msg : string)
| CoValidityProof (msg : string)
| CoPanicked.
Definition create_order_error (e : CreateOrderTaskError) : TaskError :=
  match e with
  | CoState msg => mkTaskError msg true
  | CoDarkpoolClient msg | CoInvalidDescriptor msg | CoValidityProof msg => mkTaskError msg false
  | CoPanicked => mkTaskError "panicked" false
  end.
Definition set_co_state (s : CreateOrderTaskState) (t : CreateOrderTask) :=
  mkCreateOrderTask (co_account_id t) (co_order_id t) (co_intent t) (co_ring t) (co_metadata t)
    (co_auth t) (co_matching_pool t) s.

Local Abbreviation CO := (M TaskEnv CreateOrderTaskError) (only parsing).
Definition co_state {A} (m : M TaskEnv StateError A) : CO A :=
  map_err (λ e, CoState (display_state_error e)) m.
Definition co_proof {A} (m : M TaskEnv ValidityProofsError A) : CO A :=
  map_err (λ e, match e with
                | VpPanicked => CoPanicked
                | e => CoValidityProof (display_validity_error e)
                end) m.

(** Zero seeds: the order is public. *)
Definition create_ring0_state_wrapper (t : CreateOrderTask) : option StateIntent :=
  state_wrapper_new (co_intent t) 0 0.
Definition create_private_intent_state_wrapper (t : CreateOrderTask) : CO StateIntent :=
  k ← co_state (get_account_keychain (co_account_id t));
  k ← ok_or k (CoState "keychain not found");
  let '(share_stream, keys) := keychain_sample_share_stream (secret_keys k) in
  let '(recovery_stream, keys) := keychain_sample_recovery_id_stream keys in
  co_state (propose_and_wait permit_hash svc
    (UpdateAccountKeychain (co_account_id t) (mkKeyChain keys (schnorr_public_key k))));;
  ok_or (state_wrapper_new (co_intent t) (seed share_stream) (seed recovery_stream)) CoPanicked.
Definition create_state_wrapper (t : CreateOrderTask) : CO StateIntent :=
  match co_ring t with
  | Ring0 => ok_or (create_ring0_state_wrapper t) CoPanicked
  | _ => create_private_intent_state_wrapper t
  end.

Definition send_indexer_message (t : CreateOrderTask) (order : Order) : CO unit :=
  match co_auth t with
  | PublicOrder permit intent_signature =>
      submit_message svc (UpdatePublicIntentMetadata (permit_hash permit) order intent_signature
        permit (co_matching_pool t))
  | _ => mret tt
  end.

Definition create_order (t : CreateOrderTask) : CO CreateOrderTaskState :=
  state_intent ← create_state_wrapper t;
  let order := mkOrder (co_order_id t) state_intent (co_ring t) (co_metadata t) in
  co_state (propose_and_wait permit_hash svc
    (AddOrderToAccount (co_account_id t) order (co_auth t) (co_matching_pool t)));;
  send_indexer_message t order;;
  mret (match co_ring t with
        | Ring0 => CreateOrder_CheckingAllowance
        | Ring1 => CreateOrder_GeneratingPrivateIntentValidityProofs
        | Ring2 | Ring3 => CreateOrder_GeneratingPrivateFillValidityProofs
        end).

Definition check_allowance (t : CreateOrderTask) : CO unit :=
  let in_token := in_token (co_intent t) in
  bal ← co_state (get_account_balance_value (co_account_id t) in_token EOA);
  if 0 <? bal then mret tt else
  balance ← map_err CoDarkpoolClient (fetch_eoa_balance svc in_token (intent_owner (co_intent t)));
  match balance with
  | Some bal =>
      co_state (propose_and_wait permit_hash svc (UpdateAccountBalance (co_account_id t) bal))
  | None => mret tt
  end.

Definition generate_private_intent_validity_proofs (t : CreateOrderTask) : CO unit :=
  check_allowance t;;
  co_proof (update_intent_only_validity_proof permit_hash svc (co_order_id t)).
(** The two proofs are made concurrently; the model makes the first one first. *)
Definition generate_private_fill_validity_proofs (t : CreateOrderTask) : CO unit :=
  match into_renegade_settled_order (co_auth t) with
  | Some (intent_signature, out_balance_signature) =>
      co_proof (update_intent_and_balance_validity_proof permit_hash svc (co_account_id t)
        (co_order_id t) intent_signature);;
      co_proof (update_output_balance_validity_proof permit_hash svc (co_account_id t)
        (co_order_id t) out_balance_signature false)
  | None => throw (CoInvalidDescriptor "invalid order auth")
  end.

Definition create_order_step : M (CreateOrderTask * TaskEnv) CreateOrderTaskError unit :=
  t ← field id;
  match co_task_state t with
  | CreateOrder_Pending => assign (set_co_state CreateOrder_Creating)
  | CreateOrder_Creating =>
      next_state ← on_env (create_order t); assign (set_co_state next_state)
  | CreateOrder_GeneratingPrivateIntentValidityProofs =>
      on_env (generate_private_intent_validity_proofs t);;
      assign (set_co_state CreateOrder_Completed)
  | CreateOrder_GeneratingPrivateFillValidityProofs =>
      on_env (generate_private_fill_validity_proofs t);;
      assign (set_co_state CreateOrder_Completed)
  | CreateOrder_CheckingAllowance =>
      on_env (check_allowance t);; assign (set_co_state CreateOrder_Completed)
  | CreateOrder_Completed => throw CoPanicked
  end.
Definition create_order_task : Task CreateOrderTask TaskEnv := {|
  task_wrapper t := CreateOrderState (co_task_state t);
  task_step := run_step create_order_error create_order_step;
  bypass_task_queue _ := false;
  success_hooks t := [RunMatchingEngineHook (co_account_id t) [co_order_id t]];
  failure_hooks t := [RefreshAccountHook [co_account_id t]];
|}.

(** ** Cancellations (cancel_order.rs) *)

Record CancelOrderTask := mkCancelOrderTask {
  cn_account_id : AccountId;
  cn_order_id : OrderId;
  cn_order_auth : OrderAuth;
  cn_cancel_signature : SignatureWithNonce;
  cn_task_state : CancelOrderTaskState;
}.
Inductive CancelOrderTaskError :=
| CnDarkpoolClient (msg : string)
| CnState (msg : string)
| CnPanicked.
Definition cancel_order_error (e : CancelOrderTaskError) : TaskError :=
  match e with
  | CnDarkpoolClient msg => mkTaskError msg true
  | CnState msg => mkTaskError msg false
  | CnPanicked => mkTaskError "panicked" false
  end.
Definition set_cn_state (s : CancelOrderTaskState) (t : CancelOrderTask) :=
  mkCancelOrderTask (cn_account_id t) (cn_order_id t) (cn_order_auth t) (cn_cancel_signature t) s.

(** An order whose nonce is spent on-chain has nothing left to cancel. *)
Definition submit_cancellation (t : CancelOrderTask) : M TaskEnv CancelOrderTaskError unit :=
  '(permit, intent_signature) ← ok_or (into_public (cn_order_auth t)) CnPanicked;
  r ← attempt (submit svc (CancelPublicOrderTx (cn_cancel_signature t) permit intent_signature));
  match r with
  | Ok _ => mret tt
  | Err msg => if contains "NonceAlreadySpent" msg then mret tt else throw (CnDarkpoolClient msg)
  end.
Definition update_local_state (t : CancelOrderTask) : M TaskEnv CancelOrderTaskError unit :=
  waiter ← map_err (λ e, CnState (display_state_error e))
    (propose permit_hash svc (RemoveOrderFromAccount (cn_account_id t) (cn_order_id t)));
  match waiter with
  | Ok _ => mret tt
  | Err e =>
      let msg := display_state_error e in
      if contains "not found" msg then mret tt else throw (CnState msg)
  end.
Definition cancel_order_step : M (CancelOrderTask * TaskEnv) CancelOrderTaskError unit :=
  t ← field id;
  match cn_task_state t with
  | CancelOrder_Pending => assign (set_cn_state CancelOrder_SubmittingCancellation)
  | CancelOrder_SubmittingCancellation =>
      on_env (submit_cancellation t);; assign (set_cn_state CancelOrder_UpdatingLocalState)
  | CancelOrder_UpdatingLocalState =>
      on_env (update_local_state t);; assign (set_cn_state CancelOrder_Completed)
  | CancelOrder_Completed => throw CnPanicked
  end.
Definition cancel_order_task : Task CancelOrderTask TaskEnv := {|
  task_wrapper t := CancelOrderState (cn_task_state t);
  task_step := run_step cancel_order_error cancel_order_step;
  bypass_task_queue _ := false;
  success_hooks _ := [];
  failure_hooks t := [RefreshAccountHook [cn_account_id t]];
|}.

(** ** Refreshes (refresh_account.rs) *)

Record RefreshAccountTask := mkRefreshAccountTask {
  ra_account_id : AccountId;
  ra_keychain : KeyChain;
  ra_additional_tokens : list Address;
  ra_refreshed_order_ids : list OrderId;
  ra_task_state : RefreshAccountTaskState;
}.
Inductive RefreshAccountTaskError :=
| RaIndexer (msg : string)
| RaDarkpoolClient (msg : string)
| RaState (msg : string)
| RaSetup (msg : string)
| RaPanicked.
Definition refresh_account_error (e : RefreshAccountTaskError) : TaskError :=
  match e with
  | RaIndexer msg | RaDarkpoolClient msg => mkTaskError msg true
  | RaState msg | RaSetup msg => mkTaskError msg false
  | RaPanicked => mkTaskError "panicked" false
  end.
Definition set_ra_state (s : RefreshAccountTaskState) (t : RefreshAccountTask) :=
  mkRefreshAccountTask (ra_account_id t) (ra_keychain t) (ra_additional_tokens t)
    (ra_refreshed_order_ids t) s.
Definition set_ra_refreshed (ids : list OrderId) (t : RefreshAccountTask) :=
  mkRefreshAccountTask (ra_account_id t) (ra_keychain t) (ra_additional_tokens t) ids
    (ra_task_state t).

Local Abbreviation RA := (M TaskEnv RefreshAccountTaskError) (only parsing).
Definition ra_state {A} (m : M TaskEnv StateError A) : RA A :=
  map_err (λ e, RaState (display_state_error e)) m.

Definition fetch_owner_for_account (t : RefreshAccountTask) : RA Address :=
  bals ← ra_state (read (get_account_balances (ra_account_id t)));
  ok_or (balance_owner <$> head bals) (RaSetup "cannot resolve owner").
Definition ensure_account_exists (t : RefreshAccountTask) : RA unit :=
  exists_ ← ra_state (read (contains_account (ra_account_id t)));
  if (exists_ : bool) then mret tt else
  ra_state (propose_and_wait permit_hash svc
    (CreateAccount (new_empty_account (ra_account_id t) (ra_keychain t)))).

Definition order_refresh_data (i : ApiPublicIntent) : OrderRefreshData :=
  mkOrderRefreshData (api_order i) (api_matching_pool i)
    (PublicOrder (api_permit i) (api_intent_signature i)).
(** A set of tokens, in the order in which they were found *)
Definition input_tokens (t : RefreshAccountTask) (intents : list ApiPublicIntent) : list Address :=
  remove_dups (((λ i, order_input_token (api_order i)) <$> intents) ++ ra_additional_tokens t).

(** What is proposed: the orders and the balances *)
Definition gather_refresh (t : RefreshAccountTask)
    : RA (option (list OrderRefreshData * list Balance)) :=
  n ← tick;
  public_intents ← ok_or (sv_public_intents svc n (ra_account_id t)) (RaIndexer "indexer error");
  if bool_decide (public_intents = []) && bool_decide (ra_additional_tokens t = [])
  then mret None else
  owner ← match head public_intents with
          | Some i => mret (intent_owner (inner (order_intent (api_order i))))
          | None => fetch_owner_for_account t
          end;
  bals ← collect_m (input_tokens t public_intents) (λ token,
    map_err RaDarkpoolClient (fetch_eoa_balance svc token owner));
  mret (Some (order_refresh_data <$> public_intents, bals)).
Definition refresh_state (t : RefreshAccountTask)
    : M (RefreshAccountTask * TaskEnv) RefreshAccountTaskError unit :=
  data ← on_env (gather_refresh t);
  match data with
  | None => mret tt
  | Some (os, bs) =>
      assign (set_ra_refreshed ((λ o, order_id (refresh_order o)) <$> os));;
      on_env (ra_state (propose_and_wait permit_hash svc
        (AccountApplicator.RefreshAccount (ra_account_id t) os bs)))
  end.
Definition refresh_account_step : M (RefreshAccountTask * TaskEnv) RefreshAccountTaskError unit :=
  t ← field id;
  match ra_task_state t with
  | RefreshAccount_Pending => assign (set_ra_state RefreshAccount_EnsureAccountExists)
  | RefreshAccount_EnsureAccountExists =>
      on_env (ensure_account_exists t);; assign (set_ra_state RefreshAccount_RefreshingState)
  | RefreshAccount_RefreshingState =>
      refresh_state t;; assign (set_ra_state RefreshAccount_Completed)
  | RefreshAccount_Completed => throw RaPanicked
  end.
Definition refresh_account_task : Task RefreshAccountTask TaskEnv := {|
  task_wrapper t := RefreshAccountState (ra_task_state t);
  task_step := run_step refresh_account_error refresh_account_step;
  bypass_task_queue _ := false;
  success_hooks t :=
    match ra_refreshed_order_ids t with
    | [] => []
    | ids => [RunMatchingEngineHook (ra_account_id t) ids]
    end;
  failure_hooks _ := [];
|}.
End Tasks.
