(* ===== verification/BalanceTasks.v ===== *)
(** * The tasks of darkpool balances

    src/crates/workers/task-driver/src/tasks/{create_balance,deposit,withdraw}.rs.  Each proves
    a new version of a balance (TaskProofs.v), submits it to the contract, stores the path and
    then the balance, and renews the validity proofs that depend on it. *)
From S2P Require Import Prelude Scalar FixedPoint BaseType CircuitTypes Merkle ProverCircuit.
From S2P Require Import BalanceCircuits DarkpoolTypes StateWrapper AccountTypes TaskStorage.
From S2P Require Import TaskApplicator AccountStorage AccountApplicator StateInterface TaskStates.
From S2P Require Import TaskDriver TaskProofs TaskContext Tasks.
Local Open Scope Z_scope.

(** The error types of the three tasks have the same variants; [BtMissing] is called [State] in
    withdraw.rs. *)
Inductive BalanceTaskError :=
| BtDarkpoolClient (msg : string)
| BtProofGeneration (msg : string)
| BtValidityProof (msg : string)
| BtMissing (msg : string)
| BtPanicked.
Definition balance_task_error (e : BalanceTaskError) : TaskError :=
  match e with
  | BtDarkpoolClient msg | BtProofGeneration msg | BtValidityProof msg => mkTaskError msg true
  | BtMissing msg => mkTaskError msg false
  | BtPanicked => mkTaskError "panicked" false
  end.

Section BalanceTasks.
Context (permit_hash : PublicIntentPermit → Z) (svc : Services).
Local Abbreviation BT := (M TaskEnv BalanceTaskError) (only parsing).

Definition bt_state {A} (m : M TaskEnv StateError A) : BT A :=
  map_err (λ e, BtMissing (display_state_error e)) m.
Definition bt_native {A} (o : option A) : BT A := ok_or o BtPanicked.
Definition bt_proof {A} (m : M TaskEnv ValidityProofsError A) : BT A :=
  map_err (λ e, match e with
                | VpPanicked => BtPanicked
                | e => BtValidityProof (display_validity_error e)
                end) m.
Definition bt_prove (job : ProofJob) : BT unit :=
  map_err BtProofGeneration (enqueue_proof_job svc job).

Definition bt_get_balance (a : AccountId) (token : Address) : BT Balance :=
  b ← bt_state (get_account_darkpool_balance a token); ok_or b (BtMissing "balance not found").
Definition bt_get_balance_merkle_proof (a : AccountId) (token : Address)
    : BT MerkleAuthenticationPath :=
  p ← bt_state (read (get_merkle_proof (BalancePath a token)));
  ok_or p (BtMissing "balance merkle proof not found").

(** The end of a submission: send the transaction and store the path of the new commitment. *)
Definition submit_balance_tx (a : AccountId) (token : Address) (t : Transaction)
    (commitment : Scalar) : BT unit :=
  receipt ← map_err BtDarkpoolClient (submit svc t);
  opening ← map_err BtDarkpoolClient
    (find_merkle_authentication_path_with_tx svc commitment receipt);
  bt_state (propose_and_wait permit_hash svc (AddMerkleProof (BalancePath a token) opening)).
Definition update_balance_proofs (a : AccountId) (token : Address) : BT unit :=
  bt_proof (refresh_validity_proofs_for_updated_balance permit_hash svc a token).

(** ** Deposits (deposit.rs) *)

Record DepositTask := mkDepositTask {
  dt_account_id : AccountId;
  dt_from_address : Address;
  dt_token : Address;
  dt_amount : Amount;
  dt_auth : DepositAuth;
  dt_updated_balance : option Balance;
  dt_proof_bundle : option (ValidDepositStatement Scalar);
  dt_task_state : DepositTaskState;
}.
Definition set_dt_balance (b : option Balance) (t : DepositTask) :=
  mkDepositTask (dt_account_id t) (dt_from_address t) (dt_token t) (dt_amount t) (dt_auth t) b
    (dt_proof_bundle t) (dt_task_state t).
Definition set_dt_bundle (s : option (ValidDepositStatement Scalar)) (t : DepositTask) :=
  mkDepositTask (dt_account_id t) (dt_from_address t) (dt_token t) (dt_amount t) (dt_auth t)
    (dt_updated_balance t) s (dt_task_state t).
Definition set_dt_state (s : DepositTaskState) (t : DepositTask) :=
  mkDepositTask (dt_account_id t) (dt_from_address t) (dt_token t) (dt_amount t) (dt_auth t)
    (dt_updated_balance t) (dt_proof_bundle t) s.
Local Abbreviation DT := (M (DepositTask * TaskEnv) BalanceTaskError) (only parsing).

Definition create_deposit (t : DepositTask) : Deposit :=
  mkDeposit (dt_from_address t) (dt_token t) (dt_amount t).
Definition deposit_generate_proof (t : DepositTask) : DT unit :=
  balance ← on_env (bt_get_balance (dt_account_id t) (dt_token t));
  balance_opening ← on_env (bt_get_balance_merkle_proof (dt_account_id t) (dt_token t));
  '(x, s, updated_balance) ← on_env (bt_native
    (get_valid_deposit_witness_statement (create_deposit t) balance balance_opening));
  assign (set_dt_balance (Some updated_balance));;
  on_env (bt_prove (ValidDepositJob s x));;
  assign (set_dt_bundle (Some s)).
Definition submit_deposit (t : DepositTask) : BT unit :=
  proof_bundle ← ok_or (dt_proof_bundle t) (BtMissing "proof bundle not found");
  submit_balance_tx (dt_account_id t) (dt_token t) (DepositTx (dt_auth t) proof_bundle)
    (ds_new_balance_commitment proof_bundle).
Definition deposit_update_state (t : DepositTask) : BT unit :=
  balance ← ok_or (dt_updated_balance t) (BtMissing "updated balance not found");
  bt_state (propose_and_wait permit_hash svc (UpdateAccountBalance (dt_account_id t) balance)).

Definition deposit_step : DT unit :=
  t ← field id;
  match dt_task_state t with
  | Deposit_Pending => assign (set_dt_state Deposit_Proving)
  | Deposit_Proving => deposit_generate_proof t;; assign (set_dt_state Deposit_Submitting)
  | Deposit_Submitting => on_env (submit_deposit t);; assign (set_dt_state Deposit_UpdatingState)
  | Deposit_UpdatingState =>
      on_env (deposit_update_state t);; assign (set_dt_state Deposit_UpdatingValidityProofs)
  | Deposit_UpdatingValidityProofs =>
      on_env (update_balance_proofs (dt_account_id t) (dt_token t));;
      assign (set_dt_state Deposit_Completed)
  | Deposit_Completed => throw BtPanicked
  end.
Definition deposit_task : Task DepositTask TaskEnv := {|
  task_wrapper t := DepositState (dt_task_state t);
  task_step := run_step balance_task_error deposit_step;
  bypass_task_queue _ := false;
  success_hooks t := [RunMatchingEngineForBalanceHook (dt_account_id t) (dt_token t)];
  failure_hooks t := [RefreshAccountHook [dt_account_id t]];
|}.

(** ** New balances (create_balance.rs) *)

Record CreateBalanceTask := mkCreateBalanceTask {
  cb_account_id : AccountId;
  cb_from_address : Address;
  cb_token : Address;
  cb_amount : Amount;
  cb_authority : SchnorrPublicKey;
  cb_auth : DepositAuth;
  cb_updated_balance_keychain : option (Balance * KeyChain);
  cb_proof_bundle : option (ValidBalanceCreateStatement Scalar);
  cb_task_state : CreateBalanceTaskState;
}.
Definition set_cb_updated (b : option (Balance * KeyChain)) (t : CreateBalanceTask) :=
  mkCreateBalanceTask (cb_account_id t) (cb_from_address t) (cb_token t) (cb_amount t)
    (cb_authority t) (cb_auth t) b (cb_proof_bundle t) (cb_task_state t).
Definition set_cb_bundle (s : option (ValidBalanceCreateStatement Scalar))
    (t : CreateBalanceTask) :=
  mkCreateBalanceTask (cb_account_id t) (cb_from_address t) (cb_token t) (cb_amount t)
    (cb_authority t) (cb_auth t) (cb_updated_balance_keychain t) s (cb_task_state t).
Definition set_cb_state (s : CreateBalanceTaskState) (t : CreateBalanceTask) :=
  mkCreateBalanceTask (cb_account_id t) (cb_from_address t) (cb_token t) (cb_amount t)
    (cb_authority t) (cb_auth t) (cb_updated_balance_keychain t) (cb_proof_bundle t) s.
Local Abbreviation CB := (M (CreateBalanceTask * TaskEnv) BalanceTaskError) (only parsing).

Definition cb_deposit (t : CreateBalanceTask) : Deposit :=
  mkDeposit (cb_from_address t) (cb_token t) (cb_amount t).
Definition create_balance_generate_proof (t : CreateBalanceTask) : CB unit :=
  k ← on_env (bt_state (get_account_keychain (cb_account_id t)));
  k ← on_env (ok_or k (BtMissing "keychain not found"));
  '(balance, keys) ← on_env (bt_native (create_balance_and_update_keychain (secret_keys k)
    (cb_token t) (cb_from_address t) (cfg_relayer_fee_addr (sv_config svc)) (cb_authority t)
    (cb_amount t)));
  '(x, s, balance) ← on_env (bt_native
    (get_balance_create_witness_statement (cb_deposit t) balance));
  assign (set_cb_updated (Some (balance, mkKeyChain keys (schnorr_public_key k))));;
  on_env (bt_prove (ValidBalanceCreateJob s x));;
  assign (set_cb_bundle (Some s)).
Definition create_balance_submit_deposit (t : CreateBalanceTask) : BT unit :=
  proof_bundle ← ok_or (cb_proof_bundle t) BtPanicked;
  submit_balance_tx (cb_account_id t) (cb_token t) (CreateBalanceTx (cb_auth t) proof_bundle)
    (cs_balance_commitment proof_bundle).
Definition create_balance_update_state (t : CreateBalanceTask) : BT unit :=
  '(balance, k) ← ok_or (cb_updated_balance_keychain t) BtPanicked;
  bt_state (propose_and_wait permit_hash svc (UpdateAccountBalance (cb_account_id t) balance));;
  bt_state (propose_and_wait permit_hash svc (UpdateAccountKeychain (cb_account_id t) k)).

Definition create_balance_step : CB unit :=
  t ← field id;
  match cb_task_state t with
  | CreateBalance_Pending => assign (set_cb_state CreateBalance_Proving)
  | CreateBalance_Proving =>
      create_balance_generate_proof t;; assign (set_cb_state CreateBalance_Submitting)
  | CreateBalance_Submitting =>
      on_env (create_balance_submit_deposit t);;
      assign (set_cb_state CreateBalance_UpdatingState)
  | CreateBalance_UpdatingState =>
      on_env (create_balance_update_state t);;
      assign (set_cb_state CreateBalance_UpdatingValidityProofs)
  | CreateBalance_UpdatingValidityProofs =>
      on_env (update_balance_proofs (cb_account_id t) (cb_token t));;
      assign (set_cb_state CreateBalance_Completed)
  | CreateBalance_Completed => throw BtPanicked
  end.
Definition create_balance_task : Task CreateBalanceTask TaskEnv := {|
  task_wrapper t := CreateBalanceState (cb_task_state t);
  task_step := run_step balance_task_error create_balance_step;
  bypass_task_queue _ := false;
  success_hooks t := [RunMatchingEngineForBalanceHook (cb_account_id t) (cb_token t)];
  failure_hooks t := [RefreshAccountHook [cb_account_id t]];
|}.

(** ** Withdrawals (withdraw.rs) *)

Record WithdrawTask := mkWithdrawTask {
  wt_account_id : AccountId;
  wt_token : Address;
  wt_amount : Amount;
  wt_signature : list Z;
  wt_updated_balance : option Balance;
  wt_proof_bundle : option (ValidWithdrawalStatement Scalar);
  wt_task_state : WithdrawTaskState;
}.
Definition set_wt_balance (b : option Balance) (t : WithdrawTask) :=
  mkWithdrawTask (wt_account_id t) (wt_token t) (wt_amount t) (wt_signature t) b
    (wt_proof_bundle t) (wt_task_state t).
Definition set_wt_bundle (s : option (ValidWithdrawalStatement Scalar)) (t : WithdrawTask) :=
  mkWithdrawTask (wt_account_id t) (wt_token t) (wt_amount t) (wt_signature t)
    (wt_updated_balance t) s (wt_task_state t).
Definition set_wt_state (s : WithdrawTaskState) (t : WithdrawTask) :=
  mkWithdrawTask (wt_account_id t) (wt_token t) (wt_amount t) (wt_signature t)
    (wt_updated_balance t) (wt_proof_bundle t) s.
Local Abbreviation WT := (M (WithdrawTask * TaskEnv) BalanceTaskError) (only parsing).

Definition withdraw_generate_proof (t : WithdrawTask) : WT unit :=
  balance ← on_env (bt_get_balance (wt_account_id t) (wt_token t));
  balance_opening ← on_env (bt_get_balance_merkle_proof (wt_account_id t) (wt_token t));
  '(x, s, updated_balance) ← on_env (bt_native
    (get_withdrawal_witness_statement (wt_amount t) balance balance_opening));
  assign (set_wt_balance (Some updated_balance));;
  on_env (bt_prove (ValidWithdrawalJob s x));;
  assign (set_wt_bundle (Some s)).
Definition submit_withdrawal (t : WithdrawTask) : BT unit :=
  proof_bundle ← ok_or (wt_proof_bundle t) (BtMissing "proof bundle not found");
  submit_balance_tx (wt_account_id t) (wt_token t) (WithdrawTx (wt_signature t) proof_bundle)
    (ws_new_balance_commitment proof_bundle).
Definition withdraw_update_state (t : WithdrawTask) : BT unit :=
  balance ← ok_or (wt_updated_balance t) BtPanicked;
  bt_state (propose_and_wait permit_hash svc (UpdateAccountBalance (wt_account_id t) balance)).

Definition withdraw_step : WT unit :=
  t ← field id;
  match wt_task_state t with
  | Withdraw_Pending => assign (set_wt_state Withdraw_Proving)
  | Withdraw_Proving => withdraw_generate_proof t;; assign (set_wt_state Withdraw_SubmittingTx)
  | Withdraw_SubmittingTx =>
      on_env (submit_withdrawal t);; assign (set_wt_state Withdraw_UpdatingState)
  | Withdraw_UpdatingState =>
      on_env (withdraw_update_state t);; assign (set_wt_state Withdraw_UpdatingValidityProofs)
  | Withdraw_UpdatingValidityProofs =>
      on_env (update_balance_proofs (wt_account_id t) (wt_token t));;
      assign (set_wt_state Withdraw_Completed)
  | Withdraw_Completed => throw BtPanicked
  end.
Definition withdraw_task : Task WithdrawTask TaskEnv := {|
  task_wrapper t := WithdrawState (wt_task_state t);
  task_step := run_step balance_task_error withdraw_step;
  bypass_task_queue _ := false;
  success_hooks _ := [];
  failure_hooks _ := [];
|}.
End BalanceTasks.
