(* ===== verification/SettleTasks.v ===== *)
(** * The settlement tasks

    src/crates/workers/task-driver/src/tasks/settlement/{settle_internal_match,
    settle_private_match}.rs and the [SettlementProcessor] of settlement/helpers/: the calldata
    of a match between two parties, its submission, and what is stored of it afterwards.  The
    proofs and the new versions of orders and balances are those of TaskProofs.v.

    The two parties are handled concurrently by the source where their order does not matter;
    the model handles party 0 first. *)
From S2P Require Import Prelude Scalar FixedPoint BaseType CircuitTypes Merkle ProverCircuit.
From S2P Require Import BalanceCircuits ValidityCircuits SettlementCircuits DarkpoolTypes.
From S2P Require Import StateWrapper AccountTypes ValidityBundles TaskStorage TaskApplicator.
From S2P Require Import AccountStorage AccountApplicator StateInterface TaskStates TaskDriver.
From S2P Require Import TaskProofs TaskContext Tasks.
Local Open Scope Z_scope.

(** ** The processor (helpers/mod.rs) *)

(** [SePanicked] is a panic of the native code. *)
Inductive SettlementError :=
| SeDarkpool (msg : string)
| SeProofGeneration (msg : string)
| SeState (msg : string)
| SeSigning (msg : string)
| SePanicked.
Definition display_settlement_error (e : SettlementError) : string :=
  match e with
  | SeDarkpool msg => "darkpool client error: " ++ msg
  | SeProofGeneration msg => "proof generation error: " ++ msg
  | SeState msg => "state error: " ++ msg
  | SeSigning msg => "signing error: " ++ msg
  | SePanicked => EmptyString
  end.

(** The balance whose scalars a witness holds *)
Definition balance_from_values (e : StateWrapperVar DarkpoolBalanceVar Scalar) : StateBalance :=
  let b := swv_inner e in
  let s := swv_public_share e in
  let key (k : SchnorrPublicKeyVar Scalar) :=
    mkSchnorrPublicKey (mkPoint (pv_x (pkv_point k)) (pv_y (pkv_point k))) in
  mkStateWrapper
    (mkCSPRNG (csv_seed (swv_recovery_stream e)) (csv_index (swv_recovery_stream e)))
    (mkCSPRNG (csv_seed (swv_share_stream e)) (csv_index (swv_share_stream e)))
    (mkDarkpoolBalance (bv_mint b) (bv_owner b) (bv_relayer_fee_recipient b)
       (key (bv_authority b)) (bv_relayer_fee_balance b) (bv_protocol_fee_balance b) (bv_amount b))
    (mkDarkpoolBalanceShare (bv_mint s) (bv_owner s) (bv_relayer_fee_recipient s)
       (key (bv_authority s)) (bv_relayer_fee_balance s) (bv_protocol_fee_balance s)
       (bv_amount s)).

Section Processor.
Context (permit_hash : PublicIntentPermit → Z) (svc : Services).
Local Abbreviation SE := (M TaskEnv SettlementError) (only parsing).
Local Abbreviation cfg := (sv_config svc) (only parsing).

Definition se_state {A} (m : M TaskEnv StateError A) : SE A :=
  map_err (λ e, SeState (display_state_error e)) m.
Definition se_native {A} (o : option A) : SE A := ok_or o SePanicked.
Definition se_prove (job : ProofJob) : SE unit :=
  map_err SeProofGeneration (enqueue_proof_job svc job).

(** *** Getters *)

Definition se_get_order (id : OrderId) : SE Order :=
  o ← se_state (read (get_order id)); ok_or o (SeState "order not found").
Definition se_get_auth (id : OrderId) : SE OrderAuth :=
  auth ← se_state (read (get_order_auth id)); ok_or auth (SeState "order auth not found").
Definition get_public_intent_auth (id : OrderId)
    : SE (PublicIntentPermit * SignatureWithNonce) :=
  auth ← se_get_auth id; se_native (into_public auth).
Definition get_natively_settled_intent_auth (id : OrderId) : SE SignatureWithNonce :=
  auth ← se_get_auth id; se_native (into_natively_settled_private_order auth).
Definition get_renegade_settled_auth (id : OrderId)
    : SE (SchnorrSignature * SchnorrSignature) :=
  auth ← se_get_auth id; se_native (into_renegade_settled_order auth).
Definition se_account_id_for_order (id : OrderId) : SE AccountId :=
  a ← se_state (read (get_account_id_for_order id));
  ok_or a (SeState "account not found for order").
Definition se_get_balance (a : AccountId) (token : Address) (l : BalanceLocation) : SE Balance :=
  b ← se_state (read (get_balance a token l)); ok_or b (SeState "input balance not found").

(** *** Versions after the settlement *)

Definition processor_updated_intent (id : OrderId) (obligation : SettlementObligation)
    : SE Order :=
  order ← se_get_order id;
  if order_amount_in order <? obligation_amount_in obligation
  then throw (SeState "rejecting stale/over-committed match")
  else se_native (build_updated_intent order obligation).
Definition processor_updated_input_balance (a : AccountId) (obligation : SettlementObligation)
    : SE Balance :=
  balance ← se_get_balance a (input_token obligation) Darkpool;
  se_native (build_updated_input_balance balance obligation).
Definition processor_existing_output_balance (a : AccountId) (m : Address) : SE Balance :=
  balance ← se_get_balance a m Darkpool; se_native (build_existing_output_balance balance).
Definition build_new_output_balance (a : AccountId) (m : Address) : SE Balance :=
  r ← se_state (get_new_output_balance_validity_proof_and_witness a m);
  '(_, witness) ← ok_or r (SeState "new output balance validity proof not found");
  mret (mkBalance (balance_from_values (nbw_new_balance witness)) Darkpool).
Definition processor_updated_output_balance (a : AccountId) (order : Order)
    (obligation : SettlementObligation) (apply_fees : bool) : SE Balance :=
  let output_mint := order_output_token order in
  has_balance ← se_state (read (has_darkpool_balance a output_mint));
  balance ← (if (has_balance : bool) then processor_existing_output_balance a output_mint
             else build_new_output_balance a output_mint);
  ok_or (build_updated_output_balance cfg balance obligation apply_fees)
    (SeState "base token has no ticker").

(** *** Stored state *)

Definition update_order_after_match (order : Order) : SE unit :=
  se_state (propose_and_wait permit_hash svc (UpdateOrder order)).
Definition se_find_path (commitment : Scalar) (receipt : Transaction)
    : SE MerkleAuthenticationPath :=
  map_err SeDarkpool (find_merkle_authentication_path_with_tx svc commitment receipt).
Definition update_intent_merkle_proof_after_match (updated_order : Order) (receipt : Transaction)
    : SE unit :=
  if bool_decide (order_ring updated_order = Ring0) then mret tt else
  commitment ← se_native (compute_commitment (order_intent updated_order));
  merkle_proof ← se_find_path commitment receipt;
  se_state (propose_and_wait permit_hash svc
    (AddMerkleProof (IntentPath (order_id updated_order)) merkle_proof)).
Definition store_balance_merkle_proof (a : AccountId) (balance : Balance) (receipt : Transaction)
    : SE unit :=
  commitment ← se_native (compute_commitment (state_wrapper balance));
  merkle_proof ← se_find_path commitment receipt;
  se_state (propose_and_wait permit_hash svc
    (AddMerkleProof (BalancePath a (balance_mint balance)) merkle_proof)).
Definition update_ring2_balance_merkle_proofs_after_match (a : AccountId)
    (updated_input_balance updated_output_balance : Balance) (receipt : Transaction) : SE unit :=
  store_balance_merkle_proof a updated_input_balance receipt;;
  store_balance_merkle_proof a updated_output_balance receipt.

Definition update_eoa_balance (a : AccountId) (obligation : SettlementObligation) : SE unit :=
  balance ← se_get_balance a (input_token obligation) EOA;
  balance ← ok_or (update_eoa_balance_amount balance obligation)
    (SeState "rejecting stale/over-committed match");
  se_state (propose_and_wait permit_hash svc (UpdateAccountBalance a balance)).
(** Both proposals are sent before the first is awaited. *)
Definition update_renegade_settled_balances (a : AccountId) (input_balance output_balance : Balance)
    : SE unit :=
  in_waiter ← se_state (propose permit_hash svc (UpdateAccountBalance a input_balance));
  out_waiter ← se_state (propose permit_hash svc (UpdateAccountBalance a output_balance));
  se_state (await_proposal in_waiter);;
  se_state (await_proposal out_waiter).
Definition update_balances_after_match (a : AccountId) (order : Order)
    (obligation : SettlementObligation) (darkpool_balances : option (Balance * Balance))
    : SE unit :=
  match balance_location (order_ring order) with
  | EOA => update_eoa_balance a obligation
  | Darkpool =>
      '(in_bal, out_bal) ← se_native darkpool_balances;
      update_renegade_settled_balances a in_bal out_bal
  end.

(** *** Stored proofs (output_balance.rs, private_fill_validity_bundle.rs, ring1.rs, ring2.rs) *)

Definition get_new_output_balance_bundle (a : AccountId) (m : Address)
    : SE (ProofPayload * OutputBalance_) :=
  r ← se_state (get_new_output_balance_validity_proof_and_witness a m);
  '(p, x) ← ok_or r (SeState "new output balance proof not found");
  mret (p, NewOutput x).
Definition get_existing_output_balance_bundle (a : AccountId) (m : Address)
    : SE (ProofPayload * OutputBalance_) :=
  r ← se_state (get_output_balance_validity_proof_and_witness a m);
  '(p, x) ← ok_or r (SeState "output balance proof not found");
  mret (p, ExistingOutput x).
Definition get_output_balance_bundle (a : AccountId) (order : Order)
    : SE (ProofPayload * OutputBalance_) :=
  let output_mint := order_output_token order in
  has_balance ← se_state (read (has_darkpool_balance a output_mint));
  if negb has_balance then get_new_output_balance_bundle a output_mint
  else get_existing_output_balance_bundle a output_mint.

Definition get_private_fill_validity_bundle (order : Order)
    : SE (ProofPayload * PrivateFillValidityBundle) :=
  if has_been_filled (order_metadata order) then
    r ← se_state (get_intent_and_balance_validity_proof_and_witness (order_id order));
    '(p, x) ← ok_or r (SeState "subsequent fill validity proof not found");
    mret (p, SubsequentFill x)
  else
    r ← se_state (get_intent_and_balance_first_fill_validity_proof_and_witness (order_id order));
    '(p, x) ← ok_or r (SeState "first fill validity proof not found");
    mret (p, FirstFill x).

(** ** Calldata *)

(** *** Public matches (ring0.rs, ring1.rs, ring2.rs, settlement_bundle.rs) *)

Definition se_relayer_fee (obligation : SettlementObligation) : SE (FixedPoint * Address) :=
  ok_or (settlement_relayer_fee cfg
           (pair_base_token (cfg_usdc cfg) (pair_from_obligation obligation)))
    (SeState "base token has no ticker").

Definition build_ring0_internal_settlement_bundle (order : Order)
    (obligation : SettlementObligation) : SE SettlementBundle :=
  relayer_fee ← se_relayer_fee obligation;
  executor_sig ← ok_or (sv_executor_signature svc obligation relayer_fee)
    (SeSigning "signing error");
  '(intent_permit, user_sig) ← get_public_intent_auth (order_id order);
  mret (PublicIntentSettlement intent_permit user_sig executor_sig relayer_fee).

Definition build_ring1_internal_settlement_bundle (order : Order)
    (obligation : SettlementObligation) : SE SettlementBundle :=
  let filled := has_been_filled (order_metadata order) in
  validity ← se_state (read (get_validity_proof (if filled then IntentOnly else IntentOnlyFirstFill)
                               (LocatorIntent (order_id order))));
  validity ← ok_or validity (SeState "validity proof not found");
  '(x, s) ← ok_or (generate_internal_settlement_proof cfg (inner (order_intent order)) obligation)
    (SeState "base token has no ticker");
  se_prove (IntentOnlyPublicSettlementJob s x);;
  if filled then mret (PrivateIntentPublicBalance None validity s)
  else
    intent_sig ← get_natively_settled_intent_auth (order_id order);
    mret (PrivateIntentPublicBalance (Some intent_sig) validity s).

Definition build_ring2_internal_settlement_bundle (order : Order)
    (obligation : SettlementObligation) : SE SettlementBundle :=
  a ← se_account_id_for_order (order_id order);
  '(validity, v) ← get_private_fill_validity_bundle order;
  '(output, u) ← get_output_balance_bundle a order;
  '(x, s) ← ok_or (prove_intent_and_balance_public_settlement cfg (fill_intent v) (fill_balance v)
      (output_balance_of u) (fill_new_amount_public_share v) (fill_post_match_balance_shares v)
      (output_post_match_balance_shares u) obligation)
    (SeState "base token has no ticker");
  se_prove (IntentAndBalancePublicSettlementJob s x);;
  mret (RenegadeSettledPrivateIntent validity output s).

(** Ring 3 is [unimplemented!]: its matches are settled privately. *)
Definition build_internal_settlement_bundle (id : OrderId) (obligation : SettlementObligation)
    : SE SettlementBundle :=
  order ← se_get_order id;
  match order_ring order with
  | Ring0 => build_ring0_internal_settlement_bundle order obligation
  | Ring1 => build_ring1_internal_settlement_bundle order obligation
  | Ring2 => build_ring2_internal_settlement_bundle order obligation
  | Ring3 => throw SePanicked
  end.

(** *** Private matches (ring3.rs) *)

Definition build_private_fill_calldata_bundle (id0 id1 : OrderId)
    (obligation0 obligation1 : SettlementObligation)
    : SE (SettlementBundle * SettlementBundle * ObligationBundle) :=
  account_id0 ← se_account_id_for_order id0;
  account_id1 ← se_account_id_for_order id1;
  order0 ← se_get_order id0;
  order1 ← se_get_order id1;
  '(validity0, v0) ← get_private_fill_validity_bundle order0;
  '(validity1, v1) ← get_private_fill_validity_bundle order1;
  '(output0, u0) ← get_output_balance_bundle account_id0 order0;
  '(output1, u1) ← get_output_balance_bundle account_id1 order1;
  '(x, s) ← ok_or
      (prove_intent_and_balance_private_settlement cfg obligation0 obligation1 v0 v1 u0 u1)
    (SeState "base token has no ticker");
  se_prove (IntentAndBalancePrivateSettlementJob s x);;
  mret (RenegadeSettledPrivateFill validity0 output0, RenegadeSettledPrivateFill validity1 output1,
        PrivateObligations s).
End Processor.

(** ** The tasks *)

Inductive PartyId := PARTY0 | PARTY1.

(** The fields [updated_order], [updated_input_balance] and [updated_output_balance] of a party *)
Record PartyUpdate := mkPartyUpdate {
  up_order : option Order;
  up_input_balance : option Balance;
  up_output_balance : option Balance;
}.
(** Both tasks have the same fields; the execution price is only carried along. *)
Record SettleMatchTask (St : Type) := mkSettleMatchTask {
  sm_account_id : AccountId;
  sm_other_account_id : AccountId;
  sm_order_id : OrderId;
  sm_other_order_id : OrderId;
  sm_match_result : MatchResult;
  sm_updated0 : PartyUpdate;
  sm_updated1 : PartyUpdate;
  sm_task_state : St;
}.
Arguments mkSettleMatchTask {St} _ _ _ _ _ _ _ _.
Arguments sm_account_id {St} _.
Arguments sm_other_account_id {St} _.
Arguments sm_order_id {St} _.
Arguments sm_other_order_id {St} _.
Arguments sm_match_result {St} _.
Arguments sm_updated0 {St} _.
Arguments sm_updated1 {St} _.
Arguments sm_task_state {St} _.
Abbreviation SettleInternalMatchTask := (SettleMatchTask SettleInternalMatchTaskState).
Abbreviation SettlePrivateMatchTask := (SettleMatchTask SettlePrivateMatchTaskState).

Inductive SettleMatchTaskError :=
| SmDarkpool (msg : string)
| SmSettlement (msg : string)
| SmState (msg : string)
| SmValidityProofs (msg : string)
| SmPanicked.
Definition settle_match_error (e : SettleMatchTaskError) : TaskError :=
  match e with
  | SmState msg => mkTaskError msg true
  | SmDarkpool msg | SmSettlement msg | SmValidityProofs msg => mkTaskError msg false
  | SmPanicked => mkTaskError "panicked" false
  end.

(** [branch_party!] *)
Definition branch_party {A} (p : PartyId) (x0 x1 : A) : A :=
  match p with PARTY0 => x0 | PARTY1 => x1 end.

Section SettleTasks.
Context (permit_hash : PublicIntentPermit → Z) (svc : Services) {St : Type}.
Local Abbreviation task := (SettleMatchTask St) (only parsing).
Local Abbreviation ST := (M TaskEnv SettleMatchTaskError) (only parsing).
Implicit Types t : task.

Definition st_settlement {A} (m : M TaskEnv SettlementError A) : ST A :=
  map_err (λ e, match e with
                | SePanicked => SmPanicked
                | e => SmSettlement (display_settlement_error e)
                end) m.
Definition st_proof {A} (m : M TaskEnv ValidityProofsError A) : ST A :=
  map_err (λ e, match e with
                | VpPanicked => SmPanicked
                | e => SmValidityProofs (display_validity_error e)
                end) m.

Definition set_sm_state (s : St) (t : task) : task :=
  mkSettleMatchTask (sm_account_id t) (sm_other_account_id t) (sm_order_id t)
    (sm_other_order_id t) (sm_match_result t) (sm_updated0 t) (sm_updated1 t) s.
Definition set_sm_updated (p : PartyId) (f : PartyUpdate → PartyUpdate) (t : task) : task :=
  mkSettleMatchTask (sm_account_id t) (sm_other_account_id t) (sm_order_id t)
    (sm_other_order_id t) (sm_match_result t) (branch_party p (f (sm_updated0 t)) (sm_updated0 t))
    (branch_party p (sm_updated1 t) (f (sm_updated1 t))) (sm_task_state t).

Definition party_account (t : task) (p : PartyId) : AccountId :=
  branch_party p (sm_account_id t) (sm_other_account_id t).
Definition party_order_id (t : task) (p : PartyId) : OrderId :=
  branch_party p (sm_order_id t) (sm_other_order_id t).
Definition party_updated (t : task) (p : PartyId) : PartyUpdate :=
  branch_party p (sm_updated0 t) (sm_updated1 t).
Definition get_obligation (t : task) (p : PartyId) : SettlementObligation :=
  branch_party p (party0_obligation (sm_match_result t)) (party1_obligation (sm_match_result t)).
Definition party_order (t : task) (p : PartyId) : ST Order :=
  ok_or (up_order (party_updated t p)) SmPanicked.
(** [input.zip(output)] *)
Definition get_updated_balances (t : task) (p : PartyId) : option (Balance * Balance) :=
  i ← up_input_balance (party_updated t p);
  o ← up_output_balance (party_updated t p);
  Some (i, o).

(** *** Steps that both tasks have, [darkpool r] telling whether a party of ring [r] is settled
    with its darkpool balances *)

Context (darkpool : PrivacyRing → bool) (apply_fees : bool).

Definition store_updated_order (p : PartyId) (o : Order) : M (task * TaskEnv) SettleMatchTaskError unit :=
  assign (set_sm_updated p
    (λ u, mkPartyUpdate (Some o) (up_input_balance u) (up_output_balance u))).
Definition build_updated_balances_for_party (p : PartyId)
    : M (task * TaskEnv) SettleMatchTaskError unit :=
  t ← field id;
  order ← on_env (party_order t p);
  if negb (darkpool (order_ring order)) then mret tt else
  input_balance ← on_env (st_settlement
    (processor_updated_input_balance (party_account t p) (get_obligation t p)));
  output_balance ← on_env (st_settlement (processor_updated_output_balance svc (party_account t p)
    order (get_obligation t p) apply_fees));
  assign (set_sm_updated p
    (λ u, mkPartyUpdate (up_order u) (Some input_balance) (Some output_balance))).
Definition update_merkle_proof_for_party (t : task) (receipt : Transaction) (p : PartyId)
    : ST unit :=
  order ← party_order t p;
  st_settlement (update_intent_merkle_proof_after_match permit_hash svc order receipt);;
  if negb (darkpool (order_ring order)) then mret tt else
  input_balance ← ok_or (up_input_balance (party_updated t p)) SmPanicked;
  output_balance ← ok_or (up_output_balance (party_updated t p)) SmPanicked;
  st_settlement (update_ring2_balance_merkle_proofs_after_match permit_hash svc (party_account t p)
    input_balance output_balance receipt).

(** What follows the transaction in [submit_tx] *)
Definition record_settlement (receipt : Transaction)
    : M (task * TaskEnv) SettleMatchTaskError unit :=
  t ← field id;
  order0 ← on_env (st_settlement
    (processor_updated_intent (sm_order_id t) (get_obligation t PARTY0)));
  order1 ← on_env (st_settlement
    (processor_updated_intent (sm_other_order_id t) (get_obligation t PARTY1)));
  store_updated_order PARTY0 order0;;
  store_updated_order PARTY1 order1;;
  build_updated_balances_for_party PARTY0;;
  build_updated_balances_for_party PARTY1;;
  t ← field id;
  on_env (update_merkle_proof_for_party t receipt PARTY0);;
  on_env (update_merkle_proof_for_party t receipt PARTY1).

Definition update_state_for_party (t : task) (p : PartyId) : ST unit :=
  order ← party_order t p;
  st_settlement (update_balances_after_match permit_hash svc (party_account t p) order
    (get_obligation t p) (get_updated_balances t p));;
  st_settlement (update_order_after_match permit_hash svc order).
Definition settle_update_state (t : task) : ST unit :=
  update_state_for_party t PARTY0;; update_state_for_party t PARTY1.

(** [update_ring2_validity_proofs] of the internal task, and all of the private one's *)
Definition update_darkpool_validity_proofs (t : task) (p : PartyId) : ST unit :=
  '(intent_sig, out_balance_sig) ← st_settlement (get_renegade_settled_auth (party_order_id t p));
  st_proof (update_intent_and_balance_validity_proof permit_hash svc (party_account t p)
    (party_order_id t p) intent_sig);;
  st_proof (update_output_balance_validity_proof permit_hash svc (party_account t p)
    (party_order_id t p) out_balance_sig false).
End SettleTasks.

Section Instances.
Context (permit_hash : PublicIntentPermit → Z) (svc : Services).

(** *** Internal matches (settle_internal_match.rs) *)

Local Abbreviation SI := (M (SettleInternalMatchTask * TaskEnv) SettleMatchTaskError)
  (only parsing).
Definition is_ring2 (r : PrivacyRing) : bool := bool_decide (r = Ring2).
Definition internal_submit_tx : SI unit :=
  t ← field id;
  let obligation_bundle := PublicObligations (party0_obligation (sm_match_result t))
    (party1_obligation (sm_match_result t)) in
  bundle0 ← on_env (st_settlement
    (build_internal_settlement_bundle svc (sm_order_id t) (get_obligation t PARTY0)));
  bundle1 ← on_env (st_settlement
    (build_internal_settlement_bundle svc (sm_other_order_id t) (get_obligation t PARTY1)));
  receipt ← on_env (map_err SmDarkpool
    (submit svc (SettleMatchTx obligation_bundle bundle0 bundle1)));
  record_settlement permit_hash svc is_ring2 false receipt.
Definition internal_update_validity_proofs_for_party (t : SettleInternalMatchTask) (p : PartyId)
    : M TaskEnv SettleMatchTaskError unit :=
  order ← st_settlement (se_get_order (party_order_id t p));
  match order_ring order with
  | Ring0 => mret tt
  | Ring1 =>
      st_proof (update_intent_only_validity_proof permit_hash svc (party_order_id t p))
  | Ring2 => update_darkpool_validity_proofs permit_hash svc t p
  | Ring3 => throw SmPanicked
  end.
Definition settle_internal_match_step : SI unit :=
  t ← field id;
  match sm_task_state t with
  | SettleInternal_Pending => assign (set_sm_state SettleInternal_SubmittingTx)
  | SettleInternal_SubmittingTx =>
      internal_submit_tx;; assign (set_sm_state SettleInternal_UpdatingState)
  | SettleInternal_UpdatingState =>
      on_env (settle_update_state permit_hash svc t);;
      assign (set_sm_state SettleInternal_UpdatingValidityProofs)
  | SettleInternal_UpdatingValidityProofs =>
      on_env (internal_update_validity_proofs_for_party t PARTY0);;
      on_env (internal_update_validity_proofs_for_party t PARTY1);;
      assign (set_sm_state SettleInternal_Completed)
  | SettleInternal_Completed => throw SmPanicked
  end.

Definition settle_success_hooks {St} (t : SettleMatchTask St) : list TaskHook :=
  [RunMatchingEngineHook (sm_account_id t) [sm_order_id t];
   RunMatchingEngineHook (sm_other_account_id t) [sm_other_order_id t]].
Definition settle_failure_hooks {St} (t : SettleMatchTask St) : list TaskHook :=
  [RefreshAccountHook [sm_account_id t; sm_other_account_id t]].
Definition settle_internal_match_task : Task SettleInternalMatchTask TaskEnv := {|
  task_wrapper t := SettleInternalMatchState (sm_task_state t);
  task_step := run_step settle_match_error settle_internal_match_step;
  bypass_task_queue _ := false;
  success_hooks := settle_success_hooks;
  failure_hooks := settle_failure_hooks;
|}.

(** *** Private matches (settle_private_match.rs) *)

Local Abbreviation SP := (M (SettlePrivateMatchTask * TaskEnv) SettleMatchTaskError)
  (only parsing).
Definition private_submit_tx : SP unit :=
  t ← field id;
  '(bundle0, bundle1, obligation_bundle) ← on_env (st_settlement
    (build_private_fill_calldata_bundle svc (sm_order_id t) (sm_other_order_id t)
      (get_obligation t PARTY0) (get_obligation t PARTY1)));
  receipt ← on_env (map_err SmDarkpool
    (submit svc (SettleMatchTx obligation_bundle bundle0 bundle1)));
  record_settlement permit_hash svc (λ _, true) true receipt.
Definition private_update_validity_proofs (t : SettlePrivateMatchTask)
    : M TaskEnv SettleMatchTaskError unit :=
  update_darkpool_validity_proofs permit_hash svc t PARTY0;;
  update_darkpool_validity_proofs permit_hash svc t PARTY1.
Definition settle_private_match_step : SP unit :=
  t ← field id;
  match sm_task_state t with
  | SettlePrivate_Pending => assign (set_sm_state SettlePrivate_SubmittingTx)
  | SettlePrivate_SubmittingTx =>
      private_submit_tx;; assign (set_sm_state SettlePrivate_UpdatingState)
  | SettlePrivate_UpdatingState =>
      on_env (settle_update_state permit_hash svc t);;
      assign (set_sm_state SettlePrivate_UpdatingValidityProofs)
  | SettlePrivate_UpdatingValidityProofs =>
      on_env (private_update_validity_proofs t);;
      assign (set_sm_state SettlePrivate_Completed)
  | SettlePrivate_Completed => throw SmPanicked
  end.
Definition settle_private_match_task : Task SettlePrivateMatchTask TaskEnv := {|
  task_wrapper t := SettlePrivateMatchState (sm_task_state t);
  task_step := run_step settle_match_error settle_private_match_step;
  bypass_task_queue _ := false;
  success_hooks := settle_success_hooks;
  failure_hooks := settle_failure_hooks;
|}.
End Instances.
