(* ===== verification/TaskRuns.v ===== *)
(** * Steps of the tasks

    The tasks of Tasks.v, BalanceTasks.v and SettleTasks.v obey the laws that the driver relies
    on (TaskDriver.v), so that the properties of DriverCorrect.v hold of them: a step that
    succeeds moves to one of the next states, and one that fails stays.  Then the invariants of
    a task and its environment: what every step keeps, a run of the driver keeps. *)
From S2P Require Import Prelude Scalar FixedPoint BaseType CircuitTypes Merkle ProverCircuit.
From S2P Require Import BalanceCircuits ValidityCircuits SettlementCircuits DarkpoolTypes.
From S2P Require Import StateWrapper AccountTypes ValidityBundles TaskTypes TaskStorage.
From S2P Require Import TaskApplicator AccountStorage AccountApplicator StateInterface TaskStates.
From S2P Require Import TaskDriver DriverCorrect TaskProofs TaskContext Tasks BalanceTasks.
From S2P Require Import SettleTasks.
Local Open Scope Z_scope.

(** ** Fields that a step keeps *)

Section Keeps.
Context {T E X : Type} (f : T → X).

Definition keeps_field {A} (m : M (T * TaskEnv) E A) : Prop :=
  ∀ te r te', m te = (r, te') → f te'.1 = f te.1.

Lemma keeps_field_ret {A} (a : A) : keeps_field (mret a).
Proof. by intros te r te' [= <- <-]. Qed.
Lemma keeps_field_throw {A} e : keeps_field (throw e : M _ _ A).
Proof. by intros te r te' [= <- <-]. Qed.
Lemma keeps_field_field {A} (g : T → A) : keeps_field (field g).
Proof. by intros te r te' [= <- <-]. Qed.
Lemma keeps_field_on_env {A} (m : M TaskEnv E A) : keeps_field (on_env m).
Proof.
  intros te r te'. unfold on_env, zoom. destruct (m te.2) as [[a|e] s]; by intros [= <- <-].
Qed.
Lemma keeps_field_assign g : (∀ t, f (g t) = f t) → keeps_field (assign g).
Proof. intros Hg te r te' [= <- <-]. apply Hg. Qed.
Lemma keeps_field_bind {A B} (m : M (T * TaskEnv) E A) (k : A → M (T * TaskEnv) E B) :
  keeps_field m → (∀ a, keeps_field (k a)) → keeps_field (m ≫= k).
Proof.
  intros Hm' Hk te r te' H. split_run H; [|by eapply Hm'].
  apply Hm' in Hm as <-. by eapply Hk.
Qed.
End Keeps.

(** Takes a computation of a step apart. *)
Ltac head_of t := lazymatch t with ?f _ => head_of f | _ => t end.
Ltac keeps_fields :=
  repeat first
    [ progress intros
    | match goal with
      | |- keeps_field _ (on_env _) => apply keeps_field_on_env
      | |- keeps_field _ (mret _) => apply keeps_field_ret
      | |- keeps_field _ (throw _) => apply keeps_field_throw
      | |- keeps_field _ (field _) => apply keeps_field_field
      | |- keeps_field _ (assign _) =>
          apply keeps_field_assign; solve [done | by intros [] | by intros ? []]
      | |- keeps_field _ (mbind _ _) => apply keeps_field_bind
      | |- keeps_field _ (match ?x with _ => _ end) => destruct x
      | |- keeps_field _ ?m => let f := head_of m in unfold f
      end ].

Section Stages.
Context {T E St : Type} (st : T → St) (set : St → T → T).
Context (Hset : ∀ s t, st (set s t) = s).

(** The shape of a case of [step]: the work, then the new state *)
Lemma stage_ok {A} (m : M (T * TaskEnv) E A) (s : A → St) te u te' :
  keeps_field st m → (m ≫= λ a, assign (set (s a))) te = (Ok u, te') →
  ∃ a te1, m te = (Ok a, te1) ∧ te' = (set (s a) te1.1, te1.2) ∧ st te'.1 = s a.
Proof using Hset.
  intros Hk H. apply bind_Ok_inv in H as (a & te1 & H1 & H). injection H as <- <-.
  exists a, te1. split; [done|]. split; [done|]. apply Hset.
Qed.
Lemma stage_err {A} (m : M (T * TaskEnv) E A) (s : A → St) te e te' :
  keeps_field st m → (m ≫= λ a, assign (set (s a))) te = (Err e, te') → st te'.1 = st te.1.
Proof. intros Hk H. split_run H; [done|]. by eapply Hk. Qed.
End Stages.

Lemma run_step_inv {T E} (err : E → TaskError) (step : M (T * TaskEnv) E unit) t e r te :
  run_step err step t e = (r, te) →
  ∃ r', step (t, e) = (r', te) ∧ r = match r' with Ok u => Ok u | Err x => Err (err x) end.
Proof.
  unfold run_step, map_err. destruct (step (t, e)) as [r' te']. intros [= <- <-]. by exists r'.
Qed.

(** ** The laws of the driver *)

(** A step of a task whose wrapper is [wrap] of its state field *)
Section Laws.
Context {T E St : Type} `{TaskState St} (st : T → St) (wrap : St → TaskStateWrapper).
Context (Hwrap : ∀ s s', wrap s' ∈ wrapper_next (wrap s) ↔ s' ∈ next_states s).
Context (Hcomp : ∀ s, wrapper_completed (wrap s) = state_completed s).

Definition moves (step : M (T * TaskEnv) E unit) : Prop := ∀ te r te',
  step te = (r, te') →
  match r with
  | Ok _ => state_completed (st te.1) = false → st te'.1 ∈ next_states (st te.1)
  | Err _ => st te'.1 = st te.1
  end.

Lemma moves_laws err step sh fh :
  moves step →
  @TaskLaws T TaskEnv {| task_wrapper t := wrap (st t); task_step := run_step err step;
    bypass_task_queue _ := false; success_hooks := sh; failure_hooks := fh |}.
Proof using Hwrap Hcomp.
  intros Hm. split; cbn [task_wrapper task_step bypass_task_queue].
  - intros t e t' e' Hc (r & Hs & Er)%run_step_inv. destruct r as [[]|]; [|done].
    apply Hm in Hs. rewrite Hcomp in Hc. apply Hwrap. by apply Hs.
  - intros t e x t' e' (r & Hs & Er)%run_step_inv. destruct r as [|]; [done|].
    apply Hm in Hs. cbn [fst] in Hs. by rewrite Hs.
  - done.
Qed.
End Laws.

Lemma bind_assoc {S E A B C} (m : M S E A) (k : A → M S E B) (j : B → M S E C) s :
  (m ≫= λ a, k a ≫= j) s = ((m ≫= k) ≫= j) s.
Proof. unfold mbind, M_bind. by destruct (m s) as [[] ?]. Qed.

(** Goes through the cases of a step. *)
Ltac next_state := rewrite ?elem_of_cons; tauto.
Ltac stage st set Hs r :=
  destruct r as [u|x];
  [ eapply (stage_ok st set) in Hs as (? & ? & _ & _ & ->);
    [cbn; intros _; next_state|done|keeps_fields]
  | eapply (stage_err st set) in Hs; [cbn [fst] in Hs; by rewrite Hs|keeps_fields] ].
Ltac step_cases st set Hs r :=
  first
    [ injection Hs as <- <-; cbn; first [done | intros _; next_state]
    | stage st set Hs r
    | rewrite bind_assoc in Hs; stage st set Hs r ].
Ltac step_moves step st set :=
  intros [t e] r te' Hs; unfold step in Hs; split_run Hs; [|done];
  match goal with Hf : field _ _ = _ |- _ => injection Hf as <- <- end;
  cbn [id fst] in *; destruct (st t) eqn:Est; step_cases st set Hs r.

Section TaskLaws.
Context (permit_hash : PublicIntentPermit → Z) (svc : Services).

Lemma create_new_account_moves : moves na_task_state (create_new_account_step permit_hash svc).
Proof. step_moves create_new_account_step na_task_state set_na_state. Qed.
Lemma cancel_order_moves : moves cn_task_state (cancel_order_step permit_hash svc).
Proof. step_moves cancel_order_step cn_task_state set_cn_state. Qed.
Lemma deposit_moves : moves dt_task_state (deposit_step permit_hash svc).
Proof. step_moves deposit_step dt_task_state set_dt_state. Qed.
Lemma create_balance_moves : moves cb_task_state (create_balance_step permit_hash svc).
Proof. step_moves create_balance_step cb_task_state set_cb_state. Qed.
Lemma withdraw_moves : moves wt_task_state (withdraw_step permit_hash svc).
Proof. step_moves withdraw_step wt_task_state set_wt_state. Qed.
Lemma refresh_account_moves : moves ra_task_state (refresh_account_step permit_hash svc).
Proof. step_moves refresh_account_step ra_task_state set_ra_state. Qed.

(** A new order is checked or proved, depending on its ring. *)
Lemma create_order_next t e s e' :
  create_order permit_hash svc t e = (Ok s, e') → s ∈ next_states CreateOrder_Creating.
Proof.
  unfold create_order. cbv zeta. intros H. do 3 split_run H. injection H as <- <-.
  destruct (co_ring t); cbn; next_state.
Qed.
Lemma create_order_moves : moves co_task_state (create_order_step permit_hash svc).
Proof.
  assert (∀ t e r te', co_task_state t = CreateOrder_Creating →
    (next_state ← on_env (create_order permit_hash svc t); assign (set_co_state next_state))
      (t, e) = (r, te') →
    match r with Ok _ => co_task_state te'.1 ∈ next_states CreateOrder_Creating
            | Err _ => co_task_state te'.1 = CreateOrder_Creating end) as Hc.
  { intros t e r te' Hst Hs. split_run Hs.
    - injection Hs as <- <-. cbn. unfold on_env, zoom in Hm. cbn [fst snd] in Hm.
      destruct (create_order permit_hash svc t e) as [[s|x] e1] eqn:Ec; [|done].
      injection Hm as <- <-. by apply create_order_next in Ec.
    - apply (keeps_field_on_env co_task_state) in Hm. by rewrite Hm. }
  intros [t e] r te' Hs. unfold create_order_step in Hs. split_run Hs; [|done].
  injection Hm as <- <-. cbn [id fst] in *. destruct (co_task_state t) eqn:Est.
  2: { apply Hc in Hs; [|done]. destruct r; [by intros _|done]. }
  all: step_cases co_task_state set_co_state Hs r.
Qed.

Lemma settle_private_match_moves :
  moves sm_task_state (settle_private_match_step permit_hash svc).
Proof.
  step_moves settle_private_match_step (sm_task_state (St:=SettlePrivateMatchTaskState))
    (set_sm_state (St:=SettlePrivateMatchTaskState)).
Qed.
Lemma settle_internal_match_moves :
  moves sm_task_state (settle_internal_match_step permit_hash svc).
Proof.
  step_moves settle_internal_match_step (sm_task_state (St:=SettleInternalMatchTaskState))
    (set_sm_state (St:=SettleInternalMatchTaskState)).
Qed.
End TaskLaws.

(** The wrappers of the states *)
Ltac wrapped := intros s s'; cbn; rewrite list_elem_of_fmap; split;
  [intros (? & [= <-] & ?); done|intros; eexists; split; [reflexivity|done]].

Section Instances.
Context (permit_hash : PublicIntentPermit → Z) (svc : Services).
Ltac laws wrap moves := apply (moves_laws _ wrap); [wrapped|done|apply moves].
Lemma create_new_account_laws : @TaskLaws CreateNewAccountTask TaskEnv (create_new_account_task permit_hash svc).
Proof. laws CreateNewAccountState create_new_account_moves. Qed.
Lemma create_order_laws : @TaskLaws CreateOrderTask TaskEnv (create_order_task permit_hash svc).
Proof. laws CreateOrderState create_order_moves. Qed.
Lemma cancel_order_laws : @TaskLaws CancelOrderTask TaskEnv (cancel_order_task permit_hash svc).
Proof. laws CancelOrderState cancel_order_moves. Qed.
Lemma refresh_account_laws : @TaskLaws RefreshAccountTask TaskEnv (refresh_account_task permit_hash svc).
Proof. laws RefreshAccountState refresh_account_moves. Qed.
Lemma deposit_laws : @TaskLaws DepositTask TaskEnv (deposit_task permit_hash svc).
Proof. laws DepositState deposit_moves. Qed.
Lemma create_balance_laws : @TaskLaws CreateBalanceTask TaskEnv (create_balance_task permit_hash svc).
Proof. laws CreateBalanceState create_balance_moves. Qed.
Lemma withdraw_laws : @TaskLaws WithdrawTask TaskEnv (withdraw_task permit_hash svc).
Proof. laws WithdrawState withdraw_moves. Qed.
Lemma settle_internal_match_laws : @TaskLaws SettleInternalMatchTask TaskEnv (settle_internal_match_task permit_hash svc).
Proof. laws SettleInternalMatchState settle_internal_match_moves. Qed.
Lemma settle_private_match_laws : @TaskLaws SettlePrivateMatchTask TaskEnv (settle_private_match_task permit_hash svc).
Proof. laws SettlePrivateMatchState settle_private_match_moves. Qed.
End Instances.

(** ** Invariants of a task and its environment *)

(** What holds of a task and its environment, whatever the driver does around the steps. *)
Section Around.
Context {T Env : Type} {HT : Task T Env} {HE : HookEnv Env}.
Context (cfg : AppConfig) (id : TaskIdentifier) (I : T → Env → Prop).

Definition preserves {A} (m : M (Driver T Env) TaskDriverError A) : Prop :=
  ∀ d r d', m d = (r, d') → I (dr_task d) (dr_env d) → I (dr_task d') (dr_env d').

Lemma preserves_same {A} (m : M (Driver T Env) TaskDriverError A) :
  (∀ d, dr_task (m d).2 = dr_task d ∧ dr_env (m d).2 = dr_env d) → preserves m.
Proof.
  intros Hm d r d' E. destruct (Hm d) as [E1 E2]. rewrite E in E1, E2. simpl in *. by rewrite E1, E2.
Qed.
Lemma kept_bind {A B} (m : M (Driver T Env) TaskDriverError A) (f : A → M _ _ B) :
  preserves m → (∀ a, preserves (f a)) → preserves (m ≫= f).
Proof.
  intros Hm' Hf d r d' E Hd. split_run E; [|by eapply Hm']. eapply Hf; [exact E|].
  by eapply Hm'.
Qed.
Lemma preserves_catch {A} (m : M (Driver T Env) TaskDriverError A) :
  preserves m → preserves (catch m).
Proof.
  intros Hm d r d'. unfold catch. destruct (m d) as [r1 d1] eqn:E. intros [= <- <-]. by apply Hm in E.
Qed.
Lemma preserves_ignore (m : M (Driver T Env) TaskDriverError unit) :
  preserves m → preserves (ignore_error m).
Proof.
  intros Hm d r d'. unfold ignore_error. destruct (m d) as [r1 d1] eqn:E. intros [= <- <-].
  by apply Hm in E.
Qed.
Lemma preserves_state {A} (m : M Node StateError A) : preserves (state m).
Proof. intros d r d' E Hd. apply state_frame in E as (-> & -> & _). done. Qed.
Lemma kept_for_each {X} (xs : list X) (body : X → M (Driver T Env) TaskDriverError unit) :
  (∀ x, preserves (body x)) → preserves (for_each xs body).
Proof.
  intros Hb. induction xs as [|x xs IH]; simpl; [by apply preserves_same|].
  apply kept_bind; [done|]. by intros _.
Qed.

Ltac preserved :=
  repeat first
    [ progress intros
    | match goal with
      | |- preserves (state _) => apply preserves_state
      | |- preserves (mbind _ _) => apply kept_bind
      | |- preserves (catch _) => apply preserves_catch
      | |- preserves (ignore_error _) => apply preserves_ignore
      | |- preserves (for_each _ _) => apply kept_for_each
      | |- preserves (match ?x with _ => _ end) => destruct x
      | |- preserves (mret _) => by apply preserves_same
      | |- preserves (throw _) => by apply preserves_same
      | |- preserves (gets _) => by apply preserves_same
      | |- preserves (modify _) => by apply preserves_same
      | |- preserves (event _) => by apply preserves_same
      | |- preserves (ensure _ _) => unfold ensure
      end ].

Lemma preserves_cleanup success accounts : preserves (cleanup cfg id success accounts).
Proof.
  assert (∀ l res, preserves (clear_queues cfg l res)) as Hc.
  { induction l as [|a l IH]; intros res; simpl; preserved; apply IH. }
  unfold cleanup, pop_task_or_clear_queue. preserved; auto.
Qed.
Lemma preserves_hooks success : preserves (run_post_task_hooks cfg success).
Proof. unfold run_post_task_hooks, run_hook, send_engine_job. preserved. Qed.
End Around.

(** An invariant [I] of the steps of a task: it holds as long as the task runs, and [F] holds
    once a step has failed in a way that is not retried. *)
Section DriverInvariant.
Context {T Env : Type} {HT : Task T Env} {HE : HookEnv Env}.
Context (cfg : AppConfig) (args : RuntimeArgs) (id : TaskIdentifier) (I F : T → Env → Prop).
Context (HF : ∀ t e, I t e → F t e).
Context (HI : ∀ t e r t' e', I t e → task_step t e = (r, (t', e')) →
  match r with Err x => if retryable x then I t' e' else F t' e' | Ok _ => I t' e' end).

Definition guarded {A} (m : M (Driver T Env) TaskDriverError A) : Prop :=
  ∀ d r d', m d = (r, d') → I (dr_task d) (dr_env d) →
  match r with Ok _ => I (dr_task d') (dr_env d') | Err _ => F (dr_task d') (dr_env d') end.

Lemma guarded_bind {A B} (m : M (Driver T Env) TaskDriverError A) (f : A → M _ _ B) :
  guarded m → (∀ a, guarded (f a)) → guarded (m ≫= f).
Proof.
  intros Hm' Hf d r d' E Hd. split_run E; [|exact (Hm' _ _ _ Hm Hd)].
  exact (Hf _ _ _ _ E (Hm' _ _ _ Hm Hd)).
Qed.
Lemma guarded_preserves {A} (m : M (Driver T Env) TaskDriverError A) : preserves I m → guarded m.
Proof using HF. intros Hm d r d' E Hd. specialize (Hm _ _ _ E Hd). destruct r; auto. Qed.

Lemma guarded_step : guarded (running_step cfg id).
Proof using HF HI.
  intros d r d' E Hd. unfold running_step in E. split_run E; unfold call_step in Hm;
    destruct (task_step (dr_task d) (dr_env d)) as [o [t ev]] eqn:Es; [|done].
  injection Hm as <- <-. apply HI in Es; [|done]. destruct o as [[]|x].
  - split_run E; unfold catch in Hm; destruct (transition_state _ _ _) as [o d1] eqn:Et; [|done].
    injection Hm as <- <-. apply transition_state_cases in Et as (E1 & E2 & _).
    cbn [dr_task dr_env] in *. destruct o as [[]|e1]; [injection E as <- <-; by rewrite E1, E2|].
    split_run E; apply is_task_running_frame in Hm as [-> [? Hr]]; [|done].
    destruct a; injection E as <- <-; rewrite E1, E2; auto.
  - split_run E.
    + assert (d0 = mkDriver (dr_node d) t ev (dr_engine_jobs d)
        (Stepped (task_wrapper (dr_task d)) :: dr_events d)) as ->.
      { destruct (retryable x); [by apply is_task_running_frame in Hm as [-> _]|].
        by injection Hm as <- <-. }
      destruct a; injection E as <- <-; cbn [dr_task dr_env]; destruct (retryable x); auto.
      discriminate Hm.
    + destruct (retryable x); [apply is_task_running_frame in Hm as [_ [? ?]]|]; done.
Qed.

Lemma guarded_retry retries b : guarded (retry_step cfg args id retries b).
Proof using HF HI.
  revert b. induction retries as [|n IH]; intros b; simpl;
    (apply guarded_bind; [apply guarded_step|intros []]);
    try (apply guarded_preserves; by apply preserves_same).
  destruct n as [|n]; [apply guarded_preserves; by apply preserves_same|].
  apply guarded_bind; [apply guarded_preserves; by apply preserves_same|]. intros _. apply IH.
Qed.
Lemma guarded_steps fuel : guarded (run_steps cfg args id fuel).
Proof using HF HI.
  induction fuel as [|fuel IH]; simpl;
    (apply guarded_bind; [apply guarded_preserves; by apply preserves_same|intros []]);
    try (apply guarded_preserves; by apply preserves_same).
  apply guarded_bind; [apply guarded_retry|]. intros []; [apply IH|].
  apply guarded_preserves. by apply preserves_same.
Qed.
Lemma guarded_run : guarded (run_task_to_completion cfg args id).
Proof using HF HI.
  apply guarded_bind; [apply guarded_steps|]. intros _.
  apply guarded_bind; [apply guarded_preserves; by apply preserves_same|].
  intros []; apply guarded_preserves; by apply preserves_same.
Qed.

(** A task that the driver reports as successful has completed. *)
Lemma run_completed d u d' :
  run_task_to_completion cfg args id d = (Ok u, d') →
  wrapper_completed (task_wrapper (dr_task d')) = true.
Proof.
  intros E. unfold run_task_to_completion in E. do 2 split_run E. injection Hm0 as <- <-.
  destruct (wrapper_completed (task_wrapper (dr_task d0))) eqn:Ec; [|done]. by injection E as _ <-.
Qed.

Lemma drive_invariant accounts d r d' :
  drive_task cfg args id accounts d = (r, d') → I (dr_task d) (dr_env d) →
  match r with
  | Ok _ => I (dr_task d') (dr_env d') ∧ wrapper_completed (task_wrapper (dr_task d')) = true
  | Err _ => F (dr_task d') (dr_env d')
  end.
Proof using HF HI.
  intros E Hd. unfold drive_task in E. split_run E; unfold catch in Hm;
    destruct (run_task_to_completion cfg args id d) as [o d1] eqn:Er; [|done].
  injection Hm as <- <-. pose proof (guarded_run _ _ _ Er Hd) as H1.
  set (J := λ (t : T) (e : Env), match o with
    | Ok _ => I t e ∧ wrapper_completed (task_wrapper t) = true
    | Err _ => F t e end).
  assert (J (dr_task d1) (dr_env d1)) as HJ.
  { unfold J. destruct o; [|done]. split; [done|]. by eapply run_completed. }
  assert (∀ k, (cleanup cfg id (is_ok o) accounts;; run_post_task_hooks cfg (is_ok o);;
    match o with Ok _ => mret tt | Err e => throw e end) d1 = k →
    J (dr_task k.2) (dr_env k.2) ∧ (is_ok k.1 = true → is_ok o = true)) as Hend.
  { clear E. intros [r' d2] E.
    split_run E; pose proof (preserves_cleanup cfg id J _ _ _ _ _ Hm HJ) as H2'; [|by split].
    split_run E; pose proof (preserves_hooks cfg J _ _ _ _ Hm0 H2') as H3; [|by split].
    destruct o; by injection E as <- <-. }
  unfold J in Hend. destruct o as [u|x].
  { apply Hend in E as [[H2' H3] _]. cbn [fst snd] in *. destruct r; auto. }
  assert (E' := Hend _ eq_refl). destruct x; first [by injection E as <- <-|rewrite E in E'];
    destruct E' as [H2' H3]; destruct r; solve [done|by discriminate H3].
Qed.
End DriverInvariant.
