(* ===== verification/TaskEffects.v ===== *)
(** * What the parts of a step change

    The environment of a task (TaskContext.v) after a proposal, a submission or the renewal of
    validity proofs: which tables and transactions each of them leaves alone, and what the
    others have become.  The invariants of whole tasks (TasksCorrect.v) are built from these. *)
From S2P Require Import Prelude Scalar FixedPoint BaseType CircuitTypes Merkle ProverCircuit.
From S2P Require Import BalanceCircuits ValidityCircuits SettlementCircuits DarkpoolTypes.
From S2P Require Import StateWrapper AccountTypes ValidityBundles TaskTypes TaskStorage.
From S2P Require Import TaskApplicator AccountStorage AccountApplicator AccountInvariant.
From S2P Require Import AccountProperties AccountCorrect StateInterface TaskStates TaskDriver.
From S2P Require Import DriverCorrect TaskProofs TaskContext Tasks BalanceTasks SettleTasks.
From S2P Require Import TaskRuns.
Local Open Scope Z_scope.

(** ** Parts of the environment that a computation keeps *)

Section Frame.
Context {X : Type} (P : list Transaction → AccountDb → X).

Definition view (e : TaskEnv) : X := P (env_chain e) (env_db e).
Definition frame {E A} (m : M TaskEnv E A) : Prop := ∀ e r e', m e = (r, e') → view e' = view e.

Lemma frame_ret {E A} (a : A) : frame (mret a : M TaskEnv E A).
Proof. by intros e r e' [= <- <-]. Qed.
Lemma frame_throw {E A} (x : E) : frame (throw x : M TaskEnv E A).
Proof. by intros e r e' [= <- <-]. Qed.
Lemma frame_ok_or {E A} (o : option A) (x : E) : frame (ok_or o x).
Proof. destruct o; by intros e r e' [= <- <-]. Qed.
Lemma frame_ensure {E} c (x : E) : frame (ensure c x).
Proof. destruct c; by intros e r e' [= <- <-]. Qed.
Lemma frame_read {A} (m : M AccountDb StorageError A) : frame (read m).
Proof. by intros e r e' [= <- <-]. Qed.
Lemma frame_tick {E} : frame (tick (E:=E)).
Proof. by intros e r e' [= <- <-]. Qed.
Lemma frame_map_err {E F A} (f : E → F) (m : M TaskEnv E A) : frame m → frame (map_err f m).
Proof.
  intros Hm e r e'. unfold map_err. destruct (m e) as [o e1] eqn:Em. intros [= <- <-].
  by apply Hm in Em.
Qed.
Lemma frame_bind {E A B} (m : M TaskEnv E A) (k : A → M TaskEnv E B) :
  frame m → (∀ a, frame (k a)) → frame (m ≫= k).
Proof.
  intros Hm' Hk e r e' H. split_run H; [|by apply Hm' in Hm]. apply Hm' in Hm as <-. by apply Hk in H.
Qed.
Lemma frame_for_each {E Y} (ys : list Y) (body : Y → M TaskEnv E unit) :
  (∀ y, frame (body y)) → frame (for_each ys body).
Proof.
  intros Hb. induction ys as [|y ys IH]; simpl; [apply frame_ret|]. apply frame_bind; [done|].
  by intros _.
Qed.
End Frame.

(** The same of the steps of a task *)
Section TaskFrame.
Context {T E X : Type} (P : list Transaction → AccountDb → X).

Definition task_frame {A} (m : M (T * TaskEnv) E A) : Prop :=
  ∀ te r te', m te = (r, te') → view P te'.2 = view P te.2.

Lemma task_frame_on_env {A} (m : M TaskEnv E A) : frame P m → task_frame (on_env m).
Proof.
  intros Hm te r te'. unfold on_env, zoom. destruct (m te.2) as [o e] eqn:Em. apply Hm in Em.
  by destruct o; intros [= <- <-].
Qed.
Lemma task_frame_same {A} (m : M (T * TaskEnv) E A) : (∀ te, (m te).2.2 = te.2) → task_frame m.
Proof. intros Hm te r te' H. specialize (Hm te). rewrite H in Hm. simpl in Hm. by rewrite Hm. Qed.
Lemma task_frame_bind {A B} (m : M (T * TaskEnv) E A) (k : A → M (T * TaskEnv) E B) :
  task_frame m → (∀ a, task_frame (k a)) → task_frame (m ≫= k).
Proof.
  intros Hm' Hk te r te' H. split_run H; [|by apply Hm' in Hm]. apply Hm' in Hm as <-. by apply Hk in H.
Qed.
End TaskFrame.

(** Takes a computation apart; [prop] is for the proposals in it. *)
Ltac frames prop :=
  repeat first
    [ progress intros
    | match goal with
      | |- frame _ (mbind _ _) => apply frame_bind
      | |- frame _ (mret _) => apply frame_ret
      | |- frame _ (throw _) => apply frame_throw
      | |- frame _ (ok_or _ _) => apply frame_ok_or
      | |- frame _ (ensure _ _) => apply frame_ensure
      | |- frame _ (read _) => apply frame_read
      | |- frame _ tick => apply frame_tick
      | |- frame _ (map_err _ _) => apply frame_map_err
      | |- frame _ (for_each _ _) => apply frame_for_each
      | |- frame _ (propose_and_wait _ _ _) => prop
      | |- frame _ (propose _ _ _) => prop
      | |- frame _ (match ?x with _ => _ end) => destruct x
      | |- frame _ (let _ := _ in _) => cbv zeta
      | |- frame _ ?m => let f := head_of m in unfold f
      end ].

Ltac task_frames prop :=
  repeat first
    [ progress intros
    | match goal with
      | |- task_frame _ (mbind _ _) => apply task_frame_bind
      | |- task_frame _ (on_env _) => apply task_frame_on_env; frames prop
      | |- task_frame _ (mret _) => by apply task_frame_same
      | |- task_frame _ (throw _) => by apply task_frame_same
      | |- task_frame _ (field _) => by apply task_frame_same
      | |- task_frame _ (assign _) => by apply task_frame_same
      | |- task_frame _ (match ?x with _ => _ end) => destruct x
      | |- task_frame _ (let _ := _ in _) => cbv zeta
      | |- task_frame _ ?m => let f := head_of m in unfold f
      end ].

Section Effects.
Context (permit_hash : PublicIntentPermit → Z) (svc : Services).

(** *** Proposals *)

Lemma propose_cases t e r e' :
  propose permit_hash svc t e = (r, e') →
  env_chain e' = env_chain e ∧
  match r with
  | Ok o => ∃ o', handle_account_transition permit_hash t (env_accounts e) = (o', env_accounts e') ∧
      is_ok o = is_ok o'
  | Err _ => env_accounts e' = env_accounts e
  end.
Proof.
  unfold propose. intros H. split_run H; [|done]. injection Hm as <- <-.
  destruct (sv_accepts svc _); [|by injection H as <- <-]. cbn [negb env_accounts] in H.
  destruct (handle_account_transition _ _ _) as [o w] eqn:Eh. injection H as <- <-.
  split; [done|]. exists o. split; [done|]. by destruct o.
Qed.
Lemma propose_and_wait_cases t e r e' :
  propose_and_wait permit_hash svc t e = (r, e') →
  env_chain e' = env_chain e ∧
  match r with
  | Ok _ => ∃ o, handle_account_transition permit_hash t (env_accounts e) = (Ok o, env_accounts e')
  | Err _ => env_db e' = env_db e
  end.
Proof.
  unfold propose_and_wait. intros H. split_run H; apply propose_cases in Hm as [E1 E2].
  - destruct E2 as (o & Eh & Eo). destruct a as [a|x], o as [o|y]; try done;
      injection H as <- <-; (split; [done|]); [by exists o|].
    by apply handle_fails_clean in Eh as [Eh _].
  - split; [done|]. unfold env_db. by rewrite E2.
Qed.

Definition transition_keeps {X} (P : list Transaction → AccountDb → X) (t : AccountTransition)
    : Prop :=
  ∀ w o w' c, handle_account_transition permit_hash t w = (Ok o, w') → P c (adb w') = P c (adb w).

Lemma frame_propose {X} (P : list Transaction → AccountDb → X) t :
  transition_keeps P t → frame P (propose_and_wait permit_hash svc t).
Proof.
  intros Ht e r e' [Ec H]%propose_and_wait_cases. unfold view. rewrite Ec.
  destruct r; [|by rewrite H]. destruct H as [o H]. by apply (Ht _ _ _ (env_chain e)) in H.
Qed.

Lemma frame_propose_only {X} (P : list Transaction → AccountDb → X) t :
  transition_keeps P t → frame P (propose permit_hash svc t).
Proof.
  intros Ht e r e' [Ec H]%propose_cases. unfold view, env_db. rewrite Ec.
  destruct r as [o|x]; [|by rewrite H]. destruct H as ([o'|x] & H & _).
  - by apply (Ht _ _ _ (env_chain e)) in H.
  - by apply handle_fails_clean in H as [-> _].
Qed.

(** The tables after a transition *)
Lemma update_order_at o w r w' :
  app_update_order permit_hash o w = (Ok r, w') →
  ∀ id, order_at (adb w') id =
    if decide (id = order_id o) then (if order_amount_in o =? 0 then None else Some o)
    else order_at (adb w) id.
Proof.
  intros H id. destruct (Z.eqb_spec (order_amount_in o) 0) as [Hz|Hnz].
  - unfold app_update_order in H. app_inv. unfold get_account_id_for_order in *. app_inv.
    rewrite (proj2 (Z.eqb_eq _ _) Hz) in H. rewrite !set_adb_id in *.
    apply bind_Ok_inv in H as (u & w1 & H1 & H).
    apply quiet_if in H1 as [Ed Ee]; [|apply quiet_publish|apply quiet_ret].
    apply remove_order_effect in H as (? & _ & _ & (E & _)%core_lookups & _).
    by rewrite E, order_at_drop, Ed.
  - apply update_order_effect in H as (a & old & Hi & Hold & Ed & Ee); [|done].
    rewrite Ed, order_at_put by auto. done.
Qed.
Lemma add_order_runs a o auth pool w :
  is_Some (headers (adb w) !! a) → pool_exists (adb w) pool →
  ∃ w', add_order_to_account permit_hash a o auth pool w = (Ok RetNone, w') ∧
    order_at (adb w') (order_id o) = Some o.
Proof.
  intros Ha Hp.
  assert (∃ w', add_order_to_account permit_hash a o auth pool w = (Ok RetNone, w')) as [w' Hr].
  { unfold add_order_to_account.
    match goal with |- context [with_tx adb set_adb ?m] =>
      assert (∃ b x w1, m w = (Ok (b, x), w1)) as (b & x & w1 & Hm) end.
    { erewrite bind_Ok.
      2: { unfold ensure_account. erewrite bind_Ok by reflexivity. rewrite set_adb_id.
           rewrite bool_decide_true by done. reflexivity. }
      erewrite bind_Ok.
      2: { unfold ensure_pool. erewrite bind_Ok
             by (unfold tx, zoom; rewrite matching_pool_exists_eq; reflexivity).
           rewrite set_adb_id, bool_decide_true by done. reflexivity. }
      do 2 erewrite bind_Ok by reflexivity.
      erewrite bind_Ok by (unfold tx, zoom; rewrite assign_eq; [reflexivity|exact Hp]).
      match goal with |- ∃ _ _ _, (?m ≫= _) ?w = _ =>
        assert (∃ w2, m w = (Ok tt, w2)) as [w2 E2] by (destruct auth; by eexists) end.
      erewrite bind_Ok by exact E2. do 2 erewrite bind_Ok by reflexivity.
      match goal with |- ∃ _ _ _, (tx ?m ≫= _) ?w = _ =>
        destruct (get_matchable_eq (order_id o) (adb w)) as (x & Ex & _) end.
      erewrite bind_Ok by (unfold tx, zoom; rewrite Ex; reflexivity). by eexists _, _, _. }
    erewrite bind_Ok by (unfold with_tx; rewrite Hm; reflexivity). destruct b, (0 <? x); by eexists. }
  exists w'. split; [done|]. apply add_order_effect in Hr as (_ & _ & Hc & _).
  apply core_lookups in Hc as [-> _]. unfold order_at, store_order.
  destruct (assign_other pool (order_id o) (set_order_auths <[order_id o:=auth]>
    (put_order a o (adb w)))) as (-> & -> & _).
  simpl. by rewrite lookup_insert_eq; simpl; rewrite lookup_insert_eq.
Qed.
Lemma add_validity_proof_effect l b w o w' :
  add_validity_proof l b w = (Ok o, w') →
  adb w' = adb w ∨
  adb w' = set_validity_proofs (λ m, <[(witness_type_key (bundle_type b), l) := bundle_witness b]>
    (<[(proof_type_key (bundle_type b), l) := bundle_proof b]> m)) (adb w).
Proof.
  intros H. unfold add_validity_proof in H. apply bind_Ok_inv in H as (u & w1 & H1 & H).
  apply with_tx_Ok_inv in H1. apply bind_Ok_inv in H1 as (known & w2 & H2 & H1). app_inv.
  assert (w2 = w) as -> by (destruct l; app_inv; by rewrite ?set_adb_id).
  destruct known; app_inv; [right|by left].
  unfold write_validity_proof_bundle, write_validity_proof, write_validity_witness in *. app_inv.
  done.
Qed.
Lemma update_keychain_effect a k w o w' :
  update_account_keychain a k w = (Ok o, w') →
  ∃ f, adb w' = set_headers f (adb w).
Proof.
  intros H. unfold update_account_keychain in H. app_inv. unfold update_keychain in *. app_inv.
  by eexists.
Qed.
Lemma add_merkle_proof_effect t p w o w' :
  add_merkle_proof t p w = (Ok o, w') → adb w' = set_merkle_proofs <[t := p]> (adb w).
Proof.
  intros H. unfold add_merkle_proof in H. app_inv. unfold set_merkle_proof in *. app_inv. done.
Qed.

(** *** Validity proofs *)

(** Making validity proofs writes the proofs and, for a new output balance, the keychain. *)
Section Validity.
Context {X : Type} (P : list Transaction → AccountDb → X).
Context (Hv : ∀ c l b d, P c (set_validity_proofs
  (λ m, <[(witness_type_key (bundle_type b), l) := bundle_witness b]>
        (<[(proof_type_key (bundle_type b), l) := bundle_proof b]> m)) d) = P c d).
Context (Hk : ∀ c f d, P c (set_headers f d) = P c d).

Lemma proofs_keep l b : transition_keeps P (AddValidityProof l b).
Proof using Hv. by intros w o w' c [-> | ->]%add_validity_proof_effect. Qed.
Lemma keychain_keeps a k : transition_keeps P (UpdateAccountKeychain a k).
Proof using Hk. by intros w o w' c [f ->]%update_keychain_effect. Qed.
Ltac validity := frames ltac:(apply frame_propose; first [apply proofs_keep|apply keychain_keeps]).

Lemma intent_and_balance_frame a id auth :
  frame P (update_intent_and_balance_validity_proof permit_hash svc a id auth).
Proof using Hv. validity. Qed.
Lemma output_balance_frame a id auth force :
  frame P (update_output_balance_validity_proof permit_hash svc a id auth force).
Proof using All. validity. Qed.
Lemma intent_only_frame id : frame P (update_intent_only_validity_proof permit_hash svc id).
Proof using Hv. validity. Qed.
Lemma refresh_proofs_frame a m :
  frame P (refresh_validity_proofs_for_updated_balance permit_hash svc a m).
Proof using All. validity. Qed.
Lemma update_darkpool_proofs_frame {St} (t : SettleMatchTask St) p :
  frame P (update_darkpool_validity_proofs permit_hash svc t p).
Proof using All. validity. Qed.
End Validity.

(** *** Submissions *)

(** What the tasks rely on of the contract and its client: a receipt is given only for a
    transaction that was included, and the nullifier of a balance is accepted once. *)
Definition spent_balance (t : Transaction) : option Scalar :=
  match t with
  | DepositTx _ s => Some (ds_old_balance_nullifier s)
  | WithdrawTx _ s => Some (ws_old_balance_nullifier s)
  | _ => None
  end.
Definition receipts_included : Prop := ∀ n l t,
  is_ok (sv_submit svc n l t).2 = true → (sv_submit svc n l t).1 = true.
Record contract_laws : Prop := {
  receipt_included : receipts_included;
  nullifier_once n l t t' : t' ∈ l → is_Some (spent_balance t) →
    spent_balance t' = spent_balance t →
    (sv_submit svc n l t).1 = false ∧ is_ok (sv_submit svc n l t).2 = false;
}.

Lemma submit_cases t e r e' :
  submit svc t e = (r, e') →
  ∃ n, env_accounts e' = env_accounts e ∧
    env_chain e' = (if (sv_submit svc n (env_chain e) t).1 then t :: env_chain e else env_chain e) ∧
    match r with
    | Ok t' => t' = t ∧ is_ok (sv_submit svc n (env_chain e) t).2 = true
    | Err msg => (sv_submit svc n (env_chain e) t).2 = Err msg
    end.
Proof.
  unfold submit. intros H. split_run H; [|done]. injection Hm as <- <-. exists (env_calls e).
  unfold call_contract in H. cbn [env_chain] in H.
  destruct (sv_submit svc _ _ t) as [[] [[]|msg]]; injection H as <- <-; by split_and!.
Qed.

Lemma map_err_inv {E F A} (f : E → F) (m : M TaskEnv E A) e r e' :
  map_err f m e = (r, e') →
  ∃ o, m e = (o, e') ∧ match r with Ok a => o = Ok a | Err x => ∃ y, o = Err y ∧ x = f y end.
Proof.
  unfold map_err. destruct (m e) as [o e1]. intros [= <- <-]. exists o. split; [done|].
  destruct o; [done|by eexists].
Qed.

Lemma find_path_cases cm t e r e' :
  find_merkle_authentication_path_with_tx svc cm t e = (r, e') →
  env_accounts e' = env_accounts e ∧ env_chain e' = env_chain e ∧
  match r with Ok q => ∃ n, sv_merkle_path svc n t cm = Some q | Err _ => True end.
Proof.
  unfold find_merkle_authentication_path_with_tx. intros H. split_run H; [|done].
  injection Hm as <- <-. destruct (sv_merkle_path svc _ t cm) as [q|] eqn:Eq;
    injection H as <- <-; split_and!; try done. by eexists.
Qed.

(** A transaction that spends a balance: it is included at most once, however often it is
    sent, and its path is stored once its receipt has been read. *)
Lemma submit_balance_tx_cases a token t cm l e r e' :
  contract_laws → is_Some (spent_balance t) → env_chain e = l ∨ env_chain e = t :: l →
  submit_balance_tx permit_hash svc a token t cm e = (r, e') →
  match r with
  | Ok _ => env_chain e' = t :: l ∧ ∃ n q, sv_merkle_path svc n t cm = Some q ∧
      env_db e' = set_merkle_proofs <[BalancePath a token := q]> (env_db e)
  | Err _ => (env_chain e' = l ∨ env_chain e' = t :: l) ∧ env_db e' = env_db e
  end.
Proof.
  intros [HL1 HL2] Hs Hl H. unfold submit_balance_tx in H.
  assert (∀ o e1, submit svc t e = (o, e1) → env_db e1 = env_db e ∧
    (env_chain e1 = l ∨ env_chain e1 = t :: l) ∧
    (∀ t', o = Ok t' → t' = t ∧ env_chain e1 = t :: l)) as Hsub.
  { intros o e1 (n & Ea & Ec & Eo)%submit_cases. unfold env_db. rewrite Ea, Ec. split; [done|].
    destruct Hl as [Hl|Hl]; rewrite Hl in *.
    - split; [destruct (_.1); auto|]. intros t' ->. destruct Eo as [-> Eo].
      by rewrite (HL1 _ _ _ Eo).
    - destruct (HL2 n (t :: l) t t) as [E1 E2]; [by left|done|done|]. rewrite E1. split; [by right|].
      intros t' ->. destruct Eo as [_ Eo]. by rewrite E2 in Eo. }
  split_run H; apply map_err_inv in Hm as (o & Hm & Ho); apply Hsub in Hm as (Ed & Ec & Eo);
    [|by split].
  destruct (Eo _ Ho) as [-> Ec'].
  split_run H; apply map_err_inv in Hm as (o' & Hm & Ho'); apply find_path_cases in Hm as (E1 & E2 & E3).
  2: { rewrite E2. unfold env_db. rewrite E1. by split. }
  subst o'. destruct E3 as [n Eq].
  unfold bt_state in H. apply map_err_inv in H as (o2 & H & Ho2).
  apply propose_and_wait_cases in H as [Ec2 H].
  unfold env_db in *. rewrite E1 in H. rewrite Ec2, E2. destruct r as [u|x].
  - subst o2. destruct H as [o2 H]. apply add_merkle_proof_effect in H. split; [done|].
    exists n, a0. split; [exact Eq|]. by rewrite H, ?E1, Ed.
  - destruct Ho2 as (y & -> & _). rewrite H. by split.
Qed.
End Effects.
