(* ===== verification/BalanceRuns.v ===== *)
(** * Runs of the balance tasks

    Invariants of deposits and withdrawals (BalanceTasks.v) from one step to the next: what the
    chain has included and what the relayer has stored, by the state of the task. *)
From S2P Require Import Prelude Scalar FixedPoint BaseType CircuitTypes Merkle ProverCircuit.
From S2P Require Import BalanceCircuits ValidityCircuits SettlementCircuits DarkpoolTypes.
From S2P Require Import StateWrapper AccountTypes ValidityBundles TaskTypes TaskStorage.
From S2P Require Import TaskApplicator AccountStorage AccountApplicator AccountInvariant.
From S2P Require Import AccountProperties AccountCorrect StateInterface TaskStates TaskDriver.
From S2P Require Import DriverCorrect TaskProofs TaskContext Tasks BalanceTasks SettleTasks.
From S2P Require Import TaskBalances TaskRuns TaskEffects.
Local Open Scope Z_scope.

(** ** Updates of a balance *)

(** What a deposit or a withdrawal does: the transaction, and the version of the balance that
    it commits to *)
Record BalanceUpdate := mkBalanceUpdate {
  bu_tx : Transaction;
  bu_commitment : Scalar;
  bu_balance : Balance;
}.

Lemma on_env_inv {T E A} (m : M TaskEnv E A) (t : T) e r te :
  on_env m (t, e) = (r, te) → te.1 = t ∧ m e = (r, te.2).
Proof.
  unfold on_env, zoom. cbn [fst snd]. destruct (m e) as [[a|x] e1]; by intros [= <- <-].
Qed.

Lemma bt_get_balance_inv a token e r e' :
  bt_get_balance a token e = (Ok r, e') →
  e' = e ∧ db_balances (env_db e) !! (a, token, Darkpool) = Some r.
Proof.
  unfold bt_get_balance, bt_state, get_account_darkpool_balance. intros H. split_run H.
  apply map_err_inv in Hm as (o & Hm & ->). injection Hm as <- <-.
  destruct (db_balances (env_db e) !! _) as [b|]; [|done]. by injection H as <- <-.
Qed.
Lemma bt_get_path_inv a token e r e' :
  bt_get_balance_merkle_proof a token e = (Ok r, e') →
  e' = e ∧ merkle_proofs (env_db e) !! BalancePath a token = Some r.
Proof.
  unfold bt_get_balance_merkle_proof, bt_state. intros H. split_run H.
  apply map_err_inv in Hm as (o & Hm & ->). injection Hm as <- <-.
  destruct (merkle_proofs (env_db e) !! _) as [p|]; [|done]. by injection H as <- <-.
Qed.

(** A case of [step]: work on the environment, then the new state *)
Lemma env_stage {T E A} (m : M TaskEnv E A) (g : T → T) t e r te :
  (on_env m ≫= λ _, assign g) (t, e) = (r, te) →
  ∃ o, m e = (o, te.2) ∧ is_ok r = is_ok o ∧ te.1 = if is_ok o then g t else t.
Proof.
  intros H. split_run H; apply on_env_inv in Hm as [Et Hm].
  - injection H as <- <-. exists (Ok a). cbn. by rewrite Et.
  - by exists (Err e0).
Qed.

Section Balances.
Context (permit_hash : PublicIntentPermit → Z) (svc : Services) (HL : contract_laws svc).
Context (a : AccountId) (token : Address) (c0 : list Transaction) (d0 : AccountDb).
Implicit Types u : BalanceUpdate.

(** The environment before the submission, while it is attempted, after it, and after the
    balance has been stored *)
Definition ready (e : TaskEnv) : Prop := env_chain e = c0 ∧ env_db e = d0.
Definition submitting u (e : TaskEnv) : Prop :=
  (env_chain e = c0 ∨ env_chain e = bu_tx u :: c0) ∧ env_db e = d0.
Definition path_found u (q : MerkleAuthenticationPath) : Prop :=
  ∃ n, sv_merkle_path svc n (bu_tx u) (bu_commitment u) = Some q.
Definition submitted u (e : TaskEnv) : Prop :=
  env_chain e = bu_tx u :: c0 ∧ ∃ q, path_found u q ∧
    env_db e = set_merkle_proofs <[BalancePath a token := q]> d0.
Definition stored u (e : TaskEnv) : Prop :=
  env_chain e = bu_tx u :: c0 ∧ ∃ q, path_found u q ∧
    merkle_proofs (env_db e) = <[BalancePath a token := q]> (merkle_proofs d0) ∧
    db_balances (env_db e) = <[(a, token, Darkpool) := bu_balance u]> (db_balances d0).

(** An update of the balance of [token] *)
Definition proper u : Prop :=
  is_Some (spent_balance (bu_tx u)) ∧ balance_mint (bu_balance u) = token ∧
  location (bu_balance u) = Darkpool.

(** Where the task is, [bal] and [call] being its fields for the new balance and for the
    transaction with its commitment; [computed] is the update that it works on. *)
Context (computed : BalanceUpdate → Prop) (Hcomp : ∀ u, computed u → proper u).
Inductive phase := Idle | Submit | Store | Done.
Definition at_phase (ph : phase) (bal : option Balance) (call : option (Transaction * Scalar))
    (e : TaskEnv) : Prop :=
  match ph with
  | Idle => ready e
  | Submit => ∃ u, computed u ∧ bal = Some (bu_balance u) ∧
      call = Some (bu_tx u, bu_commitment u) ∧ submitting u e
  | Store => ∃ u, computed u ∧ bal = Some (bu_balance u) ∧ submitted u e
  | Done => ∃ u, computed u ∧ stored u e
  end.

Lemma phase_submit {S} (f : S → Transaction * Scalar) bundle err bal e r e' :
  at_phase Submit bal (f <$> bundle) e →
  (s ← ok_or bundle err; submit_balance_tx permit_hash svc a token (f s).1 (f s).2) e = (r, e') →
  at_phase (if is_ok r then Store else Submit) bal (f <$> bundle) e'.
Proof using HL Hcomp.
  intros (u & Hu & Eb & Ec & Hc & Hd) H. destruct bundle as [s|]; [|done]. simpl in Ec.
  injection Ec as Ec. split_run H; [injection Hm as <- <-|discriminate Hm]. rewrite Ec in H. cbn [fst snd] in H.
  eapply (submit_balance_tx_cases _ _ _ _ _ _ _ _ _ _ HL) in H; [|by apply Hcomp|exact Hc].
  rewrite Hd in H. destruct r as [|]; cbn [is_ok].
  - destruct H as (E1 & n & q & Eq & E2). exists u. split_and!; [done..|]. split; [done|].
    exists q. split; [by exists n|done].
  - exists u. split_and!; [done|done|simpl; by rewrite Ec|done].
Qed.
Lemma phase_store bal call err e r e' :
  at_phase Store bal call e →
  (b ← ok_or bal err; bt_state (propose_and_wait permit_hash svc (UpdateAccountBalance a b))) e
    = (r, e') →
  at_phase (if is_ok r then Done else Store) bal call e'.
Proof using Hcomp.
  intros (u & Hu & -> & Hc & q & Hq & Hd) H. destruct (Hcomp u Hu) as (_ & Em & El).
  split_run H; [injection Hm as <- <-|discriminate Hm]. apply map_err_inv in H as (o & H & Ho).
  apply propose_and_wait_cases in H as [Ec H]. destruct r as [w|x]; exists u; (split; [done|]).
  - subst o. destruct H as [o H]. apply update_balance_effect in H as (_ & Ed & _).
    split; [by rewrite Ec|]. exists q. unfold env_db. rewrite Ed. unfold put_balance.
    rewrite Em, El. split; [done|]. unfold env_db in Hd. by rewrite Hd.
  - destruct Ho as (y & -> & _). split; [done|]. split; [by rewrite Ec|]. exists q. by rewrite H.
Qed.
Lemma phase_done bal call e r e' :
  at_phase Done bal call e → update_balance_proofs permit_hash svc a token e = (r, e') →
  at_phase Done bal call e'.
Proof.
  intros (u & Hu & Hs) H. exists u. split; [done|]. apply map_err_inv in H as (o & H & _).
  apply (refresh_proofs_frame permit_hash svc
    (λ c d, (c, db_balances d, merkle_proofs d))) in H; [|done..].
  injection H as E1 E2 E3. unfold stored. by rewrite E1, E2, E3.
Qed.
End Balances.

Lemma reencrypt_amount_inner w share w' :
  reencrypt_amount_share w = Some (share, w') → inner w' = inner w.
Proof.
  unfold reencrypt_amount_share, stream_cipher_encrypt.
  destruct (csprng_stream_cipher_encrypt _ _) as [[sh|] c]; [|discriminate].
  cbn [mbind option_bind]. intros [= <- <-]. reflexivity.
Qed.

(** The new version of a balance has its token and its place. *)
Lemma deposit_key d b p x s b' :
  get_valid_deposit_witness_statement d b p = Some (x, s, b') →
  balance_mint b' = balance_mint b ∧ location b' = location b ∧
  balance_amount b' = u128_add (balance_amount b) (deposit_amount d).
Proof.
  unfold get_valid_deposit_witness_statement.
  destruct (reencrypt_amount_share _) as [[sh w]|] eqn:E1; [|discriminate].
  apply reencrypt_amount_inner in E1. cbn [mbind option_bind].
  destruct (compute_recovery_id w) as [rid w2] eqn:E2. apply recovery_id_inner in E2.
  destruct (compute_commitment w2) as [c|]; [|discriminate]. cbn [mbind option_bind].
  intros [= _ _ <-]. unfold balance_mint, balance_amount. cbn [state_wrapper location].
  rewrite E2, E1. split_and!; reflexivity.
Qed.
Lemma withdrawal_key amt b p x s b' :
  get_withdrawal_witness_statement amt b p = Some (x, s, b') →
  balance_mint b' = balance_mint b ∧ location b' = location b ∧
  balance_amount b' = u128_sub (balance_amount b) amt.
Proof.
  unfold get_withdrawal_witness_statement.
  destruct (reencrypt_amount_share _) as [[sh w]|] eqn:E1; [|discriminate].
  apply reencrypt_amount_inner in E1. cbn [mbind option_bind].
  destruct (compute_recovery_id w) as [rid w2] eqn:E2. apply recovery_id_inner in E2.
  destruct (compute_commitment w2) as [c|]; [|discriminate]. cbn [mbind option_bind].
  intros [= _ _ <-]. unfold balance_mint, balance_amount. cbn [state_wrapper location].
  rewrite E2, E1. split_and!; reflexivity.
Qed.

(** ** Deposits *)

Section Deposits.
Context (permit_hash : PublicIntentPermit → Z) (svc : Services) (HL : contract_laws svc).
Context (a : AccountId) (from token : Address) (amt : Amount) (auth : DepositAuth).
Context (c0 : list Transaction) (d0 : AccountDb) (Hok : account_ok d0).

(** The update that the task computes from the stored balance and path *)
Definition deposit_update (u : BalanceUpdate) : Prop :=
  ∃ b p x s,
    db_balances d0 !! (a, token, Darkpool) = Some b ∧
    merkle_proofs d0 !! BalancePath a token = Some p ∧
    get_valid_deposit_witness_statement (mkDeposit from token amt) b p = Some (x, s, bu_balance u) ∧
    bu_tx u = DepositTx auth s ∧ bu_commitment u = ds_new_balance_commitment s.

Lemma deposit_proper u : deposit_update u → proper token u.
Proof using Hok.
  intros (b & p & x & s & Eb & Ep & E & Et & Ec). apply deposit_key in E as (E1 & E2 & _).
  destruct (ao_balance _ Hok _ _ _ _ Eb) as [E3 E4]. unfold proper. rewrite Et, E1, E2.
  split; [by eexists|by split].
Qed.

Definition deposit_fields (t : DepositTask) :=
  (dt_account_id t, dt_from_address t, dt_token t, dt_amount t, dt_auth t).
Definition deposit_phase (s : DepositTaskState) : phase :=
  match s with
  | Deposit_Pending | Deposit_Proving => Idle
  | Deposit_Submitting => Submit
  | Deposit_UpdatingState => Store
  | Deposit_UpdatingValidityProofs | Deposit_Completed => Done
  end.
Definition deposit_call (s : ValidDepositStatement Scalar) : Transaction * Scalar :=
  (DepositTx auth s, ds_new_balance_commitment s).
Definition deposit_progress (t : DepositTask) : TaskEnv → Prop :=
  at_phase svc a token c0 d0 deposit_update (deposit_phase (dt_task_state t))
    (dt_updated_balance t) (deposit_call <$> dt_proof_bundle t).
Definition deposit_inv (t : DepositTask) (e : TaskEnv) : Prop :=
  deposit_fields t = (a, from, token, amt, auth) ∧ deposit_progress t e.

Lemma deposit_proves t e te :
  deposit_fields t = (a, from, token, amt, auth) → env_db e = d0 →
  deposit_generate_proof svc t (t, e) = (Ok tt, te) →
  ∃ u, deposit_update u ∧ dt_updated_balance te.1 = Some (bu_balance u) ∧
    deposit_call <$> dt_proof_bundle te.1 = Some (bu_tx u, bu_commitment u).
Proof.
  intros Hf Hd H. unfold deposit_generate_proof in H. injection Hf as F1 F2 F3 F4 F5.
  rewrite F1, F3 in H. unfold create_deposit in H. rewrite F2, F3, F4 in H.
  split_run H. apply on_env_inv in Hm as [Et Hm]. apply bt_get_balance_inv in Hm as [Ee Eb].
  destruct d as [t1 e1]. cbn [fst snd] in *. subst t1 e1.
  split_run H. apply on_env_inv in Hm as [Et Hm]. apply bt_get_path_inv in Hm as [Ee Ep].
  destruct d as [t1 e1]. cbn [fst snd] in *. subst t1 e1.
  split_run H. apply on_env_inv in Hm as [Et Hm].
  destruct (get_valid_deposit_witness_statement _ _ _) as [[[x s] b']|] eqn:Es; [|discriminate Hm].
  injection Hm as <- Ee. destruct d as [t1 e1]. cbn [fst snd] in *. subst t1 e1.
  split_run H. injection Hm as _ <-. split_run H. apply on_env_inv in Hm as [Et Hm].
  destruct d as [t1 e1]. cbn [fst snd] in *. subst t1. injection H as <-. rewrite Hd in *.
  exists (mkBalanceUpdate (DepositTx auth s) (ds_new_balance_commitment s) b').
  split_and!; [|reflexivity..]. exists a0, a1, x, s. by split_and!.
Qed.
Lemma deposit_proves_ready t e r te :
  ready c0 d0 e → deposit_generate_proof svc t (t, e) = (r, te) → ready c0 d0 te.2.
Proof.
  intros [Hc Hd] H.
  assert (task_frame (λ c d, (c, d)) (deposit_generate_proof svc t)) as Hk by task_frames idtac.
  apply Hk in H. injection H as E1 E2. unfold ready. by rewrite E1, E2.
Qed.

Lemma deposit_step_inv t e r te :
  deposit_inv t e → deposit_step permit_hash svc (t, e) = (r, te) → deposit_inv te.1 te.2.
Proof using HL Hok.
  intros [Hf Hp] H. split.
  { etransitivity; [|exact Hf]. assert (keeps_field deposit_fields (deposit_step permit_hash svc))
      as Hk by keeps_fields. by apply Hk in H. }
  pose proof Hf as [= F1 F2 F3 F4 F5].
  unfold deposit_step in H. split_run H; [|done]. injection Hm as <- <-. cbn [id fst] in H.
  unfold deposit_progress in *. destruct (dt_task_state t) eqn:Est.
  1: { injection H as <- <-. exact Hp. }
  5: { injection H as <- <-. cbn [fst snd]. by rewrite Est. }
  1: { split_run H; pose proof (deposit_proves_ready _ _ _ _ Hp Hm) as Hr.
       - injection H as <- <-. destruct a0, Hp as [_ Hd]. destruct Hr as [Hr1 Hr2].
         destruct (deposit_proves _ _ _ Hf Hd Hm) as (u & Hu & E1 & E2).
         exists u. split_and!; [done..|]. split; [by left|done].
       - assert (keeps_field dt_task_state (deposit_generate_proof svc t)) as Hk by keeps_fields.
         apply Hk in Hm. cbn [fst] in Hm. by rewrite Hm, Est. }
  all: apply env_stage in H as (o & H & _ & ->).
  - unfold submit_deposit in H. rewrite F1, F3, F5 in H.
    eapply (phase_submit _ _ HL a token c0 d0 _ deposit_proper deposit_call) in H; [|exact Hp].
    destruct o; cbn; rewrite ?Est; exact H.
  - unfold deposit_update_state in H. rewrite F1 in H.
    eapply (phase_store _ _ a token c0 d0 _ deposit_proper) in H; [|exact Hp].
    destruct o; cbn; rewrite ?Est; exact H.
  - rewrite F1, F3 in H. eapply phase_done in H; [|exact Hp].
    destruct o; cbn; rewrite ?Est; exact H.
Qed.
End Deposits.

(** *** The attempts to submit *)

Section Attempts.
Context (permit_hash : PublicIntentPermit → Z) (svc : Services).

Lemma submit_spent a token tx cm e r e' :
  contract_laws svc → is_Some (spent_balance tx) → tx ∈ env_chain e →
  submit_balance_tx permit_hash svc a token tx cm e = (r, e') →
  is_ok r = false ∧ env_chain e' = env_chain e ∧ env_db e' = env_db e.
Proof.
  intros [_ Hn] Hs Hin H. unfold submit_balance_tx in H.
  assert (∀ o e1, submit svc tx e = (o, e1) → is_ok o = false ∧ env_chain e1 = env_chain e ∧
    env_db e1 = env_db e) as Hsub.
  { intros o e1 (n & Ea & Ec & Er)%submit_cases. destruct (Hn n (env_chain e) tx tx) as [E1 E2]; [done..|].
    rewrite E1 in Ec. unfold env_db. rewrite Ea. split; [|done].
    destruct o; [|done]. destruct Er as [_ Er]. by rewrite E2 in Er. }
  split_run H; apply map_err_inv in Hm as (o & Hm & Ho); apply Hsub in Hm as [E1 E2]; [|done].
  by rewrite Ho in E1.
Qed.
Lemma submit_lost a token tx cm e msg :
  (∀ n, sv_submit svc n (env_chain e) tx = (true, Err msg)) →
  ∃ e', submit_balance_tx permit_hash svc a token tx cm e = (Err (BtDarkpoolClient msg), e') ∧
    env_chain e' = tx :: env_chain e ∧ env_db e' = env_db e.
Proof.
  intros Hl. unfold submit_balance_tx, submit, call_contract, map_err, mbind, M_bind, tick.
  cbn [env_chain]. rewrite Hl. by eexists.
Qed.

Lemma deposit_attempt t s e r te :
  dt_task_state t = Deposit_Submitting → dt_proof_bundle t = Some s →
  deposit_step permit_hash svc (t, e) = (r, te) →
  ∃ o, submit_balance_tx permit_hash svc (dt_account_id t) (dt_token t) (DepositTx (dt_auth t) s)
         (ds_new_balance_commitment s) e = (o, te.2) ∧ is_ok r = is_ok o ∧
    (∀ x, o = Err x → r = Err x ∧ te.1 = t).
Proof.
  intros Hst Hs H. unfold deposit_step in H. split_run H; [|done]. injection Hm as <- <-.
  cbn [id fst] in H. rewrite Hst in H.
  assert (∀ e, submit_deposit permit_hash svc t e = submit_balance_tx permit_hash svc
    (dt_account_id t) (dt_token t) (DepositTx (dt_auth t) s) (ds_new_balance_commitment s) e) as Hd.
  { intros e1. unfold submit_deposit. by rewrite Hs. }
  split_run H; apply on_env_inv in Hm as [Et Hm]; rewrite Hd in Hm.
  - injection H as <- <-. by exists (Ok a).
  - exists (Err e0). split_and!; [done..|]. by intros x [= <-].
Qed.
End Attempts.

(** ** Withdrawals *)

Section Withdrawals.
Context (permit_hash : PublicIntentPermit → Z) (svc : Services) (HL : contract_laws svc).
Context (a : AccountId) (token : Address) (amt : Amount) (signature : list Z).
Context (c0 : list Transaction) (d0 : AccountDb) (Hok : account_ok d0).

(** The update that the task computes from the stored balance and path *)
Definition withdrawal_update (u : BalanceUpdate) : Prop :=
  ∃ b p x s,
    db_balances d0 !! (a, token, Darkpool) = Some b ∧
    merkle_proofs d0 !! BalancePath a token = Some p ∧
    get_withdrawal_witness_statement amt b p = Some (x, s, bu_balance u) ∧
    bu_tx u = WithdrawTx signature s ∧ bu_commitment u = ws_new_balance_commitment s.

Lemma withdrawal_proper u : withdrawal_update u → proper token u.
Proof using Hok.
  intros (b & p & x & s & Eb & Ep & E & Et & Ec). apply withdrawal_key in E as (E1 & E2 & _).
  destruct (ao_balance _ Hok _ _ _ _ Eb) as [E3 E4]. unfold proper. rewrite Et, E1, E2.
  split; [by eexists|by split].
Qed.

Definition withdrawal_fields (t : WithdrawTask) :=
  (wt_account_id t, wt_token t, wt_amount t, wt_signature t).
Definition withdrawal_phase (s : WithdrawTaskState) : phase :=
  match s with
  | Withdraw_Pending | Withdraw_Proving => Idle
  | Withdraw_SubmittingTx => Submit
  | Withdraw_UpdatingState => Store
  | Withdraw_UpdatingValidityProofs | Withdraw_Completed => Done
  end.
Definition withdrawal_call (s : ValidWithdrawalStatement Scalar) : Transaction * Scalar :=
  (WithdrawTx signature s, ws_new_balance_commitment s).
Definition withdrawal_progress (t : WithdrawTask) : TaskEnv → Prop :=
  at_phase svc a token c0 d0 withdrawal_update (withdrawal_phase (wt_task_state t))
    (wt_updated_balance t) (withdrawal_call <$> wt_proof_bundle t).
Definition withdrawal_inv (t : WithdrawTask) (e : TaskEnv) : Prop :=
  withdrawal_fields t = (a, token, amt, signature) ∧ withdrawal_progress t e.

Lemma withdrawal_proves t e te :
  withdrawal_fields t = (a, token, amt, signature) → env_db e = d0 →
  withdraw_generate_proof svc t (t, e) = (Ok tt, te) →
  ∃ u, withdrawal_update u ∧ wt_updated_balance te.1 = Some (bu_balance u) ∧
    withdrawal_call <$> wt_proof_bundle te.1 = Some (bu_tx u, bu_commitment u).
Proof.
  intros Hf Hd H. unfold withdraw_generate_proof in H. injection Hf as F1 F2 F3 F4.
  rewrite F1, F2, F3 in H.
  split_run H. apply on_env_inv in Hm as [Et Hm]. apply bt_get_balance_inv in Hm as [Ee Eb].
  destruct d as [t1 e1]. cbn [fst snd] in *. subst t1 e1.
  split_run H. apply on_env_inv in Hm as [Et Hm]. apply bt_get_path_inv in Hm as [Ee Ep].
  destruct d as [t1 e1]. cbn [fst snd] in *. subst t1 e1.
  split_run H. apply on_env_inv in Hm as [Et Hm].
  destruct (get_withdrawal_witness_statement _ _ _) as [[[x s] b']|] eqn:Es; [|discriminate Hm].
  injection Hm as <- Ee. destruct d as [t1 e1]. cbn [fst snd] in *. subst t1 e1.
  split_run H. injection Hm as _ <-. split_run H. apply on_env_inv in Hm as [Et Hm].
  destruct d as [t1 e1]. cbn [fst snd] in *. subst t1. injection H as <-. rewrite Hd in *.
  exists (mkBalanceUpdate (WithdrawTx signature s) (ws_new_balance_commitment s) b').
  split_and!; [|reflexivity..]. exists a0, a1, x, s. by split_and!.
Qed.
Lemma withdrawal_proves_ready t e r te :
  ready c0 d0 e → withdraw_generate_proof svc t (t, e) = (r, te) → ready c0 d0 te.2.
Proof.
  intros [Hc Hd] H.
  assert (task_frame (λ c d, (c, d)) (withdraw_generate_proof svc t)) as Hk by task_frames idtac.
  apply Hk in H. injection H as E1 E2. unfold ready. by rewrite E1, E2.
Qed.

Lemma withdraw_step_inv t e r te :
  withdrawal_inv t e → withdraw_step permit_hash svc (t, e) = (r, te) → withdrawal_inv te.1 te.2.
Proof using HL Hok.
  intros [Hf Hp] H. split.
  { etransitivity; [|exact Hf]. assert (keeps_field withdrawal_fields (withdraw_step permit_hash svc))
      as Hk by keeps_fields. by apply Hk in H. }
  pose proof Hf as [= F1 F2 F3 F4].
  unfold withdraw_step in H. split_run H; [|done]. injection Hm as <- <-. cbn [id fst] in H.
  unfold withdrawal_progress in *. destruct (wt_task_state t) eqn:Est.
  1: { injection H as <- <-. exact Hp. }
  5: { injection H as <- <-. cbn [fst snd]. by rewrite Est. }
  1: { split_run H; pose proof (withdrawal_proves_ready _ _ _ _ Hp Hm) as Hr.
       - injection H as <- <-. destruct a0, Hp as [_ Hd]. destruct Hr as [Hr1 Hr2].
         destruct (withdrawal_proves _ _ _ Hf Hd Hm) as (u & Hu & E1 & E2).
         exists u. split_and!; [done..|]. split; [by left|done].
       - assert (keeps_field wt_task_state (withdraw_generate_proof svc t)) as Hk by keeps_fields.
         apply Hk in Hm. cbn [fst] in Hm. by rewrite Hm, Est. }
  all: apply env_stage in H as (o & H & _ & ->).
  - unfold submit_withdrawal in H. rewrite F1, F2, F4 in H.
    eapply (phase_submit _ _ HL a token c0 d0 _ withdrawal_proper withdrawal_call) in H; [|exact Hp].
    destruct o; cbn; rewrite ?Est; exact H.
  - unfold withdraw_update_state in H. rewrite F1 in H.
    eapply (phase_store _ _ a token c0 d0 _ withdrawal_proper) in H; [|exact Hp].
    destruct o; cbn; rewrite ?Est; exact H.
  - rewrite F1, F2 in H. eapply phase_done in H; [|exact Hp].
    destruct o; cbn; rewrite ?Est; exact H.
Qed.
End Withdrawals.
