(* ===== verification/SettleRuns.v ===== *)
(** * Runs of the settlement tasks

    Invariants of the settlements (SettleTasks.v) from one step to the next.  None of their
    errors is retryable, so each of their steps is taken at most once. *)
From S2P Require Import Prelude Scalar FixedPoint BaseType CircuitTypes Merkle ProverCircuit.
From S2P Require Import BalanceCircuits ValidityCircuits SettlementCircuits DarkpoolTypes.
From S2P Require Import StateWrapper AccountTypes ValidityBundles TaskTypes TaskStorage.
From S2P Require Import TaskApplicator AccountStorage AccountApplicator AccountInvariant.
From S2P Require Import AccountProperties AccountCorrect StateInterface TaskStates TaskDriver.
From S2P Require Import DriverCorrect TaskProofs TaskContext Tasks BalanceTasks SettleTasks.
From S2P Require Import TaskBalances TaskRuns TaskEffects BalanceRuns.
Local Open Scope Z_scope.

(** ** Errors *)

Section Final.
Context {S : Type}.

(** The computation fails only with errors that are not retried. *)
Definition final {A} (m : M S SettleMatchTaskError A) : Prop :=
  ∀ s x s', m s = (Err x, s') → retryable (settle_match_error x) = false.

Lemma final_total {A} (m : M S SettleMatchTaskError A) : (∀ s, is_ok (m s).1 = true) → final m.
Proof. intros Hm s x s' E. specialize (Hm s). by rewrite E in Hm. Qed.
Lemma final_bind {A B} (m : M S SettleMatchTaskError A) (k : A → M S SettleMatchTaskError B) :
  final m → (∀ a, final (k a)) → final (m ≫= k).
Proof. intros Hm' Hk s x s' H. split_run H; [by eapply Hk|by eapply Hm']. Qed.
Lemma final_throw {A} x : retryable (settle_match_error x) = false → final (throw x : M S _ A).
Proof. by intros Hx s y s' [= <- <-]. Qed.
Lemma final_ok_or {A} (o : option A) x :
  retryable (settle_match_error x) = false → final (ok_or o x : M S _ A).
Proof. intros Hx. destruct o; [by apply final_total|by apply final_throw]. Qed.
End Final.

Lemma final_map_err {E A} (f : E → SettleMatchTaskError) (m : M TaskEnv E A) :
  (∀ y, retryable (settle_match_error (f y)) = false) → final (map_err f m).
Proof.
  intros Hf s x s' H. apply map_err_inv in H as (o & _ & y & _ & ->). apply Hf.
Qed.
Lemma final_on_env {T A} (m : M TaskEnv SettleMatchTaskError A) :
  final m → final (on_env (T:=T) m).
Proof. intros Hm [t e] x te H. apply on_env_inv in H as [_ H]. by eapply Hm. Qed.

Ltac finals :=
  repeat first
    [ progress intros
    | match goal with
      | |- final (mbind _ _) => apply final_bind
      | |- final (on_env _) => apply final_on_env
      | |- final (map_err _ _) => apply final_map_err; solve [done | by intros []]
      | |- final (ok_or _ _) => by apply final_ok_or
      | |- final (throw _) => by apply final_throw
      | |- final (mret _) => by apply final_total
      | |- final (field _) => by apply final_total
      | |- final (assign _) => by apply final_total
      | |- final (match ?x with _ => _ end) => destruct x
      | |- final (let _ := _ in _) => cbv zeta
      | |- final ?m => let f := head_of m in unfold f
      end ].

Section Runs.
Context (permit_hash : PublicIntentPermit → Z) (svc : Services).

Lemma settle_internal_final : final (settle_internal_match_step permit_hash svc).
Proof. finals. Qed.
Lemma settle_private_final : final (settle_private_match_step permit_hash svc).
Proof. finals. Qed.

(** ** Orders *)

(** The stored orders, and what the chain has included *)
Definition orders_view (c : list Transaction) (d : AccountDb) := (c, db_orders d, order_index d).

Lemma orders_view_at e e' :
  view orders_view e' = view orders_view e →
  env_chain e' = env_chain e ∧ ∀ id, order_at (env_db e') id = order_at (env_db e) id.
Proof. intros [= E1 E2 E3]. split; [done|]. intros id. unfold order_at. by rewrite E2, E3. Qed.

Lemma merkle_keeps t p : transition_keeps permit_hash orders_view (AddMerkleProof t p).
Proof. by intros w o w' c ->%add_merkle_proof_effect. Qed.
Lemma balance_keeps a b : transition_keeps permit_hash orders_view (UpdateAccountBalance a b).
Proof. by intros w o w' c (_ & -> & _)%update_balance_effect. Qed.

(** [o'] is the version of the order [id] after the settlement of an obligation *)
Definition updated_for (d : AccountDb) (id : OrderId) (ob : SettlementObligation) (o' : Order)
    : Prop :=
  ∃ o, order_at d id = Some o ∧ build_updated_intent o ob = Some o'.
(** What is stored of it: an order that has been used up is removed. *)
Definition kept (o : Order) : option Order := if order_amount_in o =? 0 then None else Some o.

Lemma processor_updated_intent_inv id ob e o' e' :
  processor_updated_intent id ob e = (Ok o', e') → e' = e ∧ updated_for (env_db e) id ob o'.
Proof.
  unfold processor_updated_intent, se_get_order. intros H. split_run H. split_run Hm.
  apply map_err_inv in Hm0 as (o & Hm0 & ->). unfold read in Hm0. rewrite get_order_eq in Hm0.
  injection Hm0 as <- <-. cbn [fst] in Hm. destruct (order_at (env_db e) id) as [o|] eqn:Eo; [|done].
  injection Hm as <- <-. destruct (_ <? _); [done|].
  destruct (build_updated_intent o ob) as [o1|] eqn:Eb; [|done]. injection H as <- <-.
  split; [done|]. by exists o.
Qed.

Section Task.
Context {St : Type} (darkpool : PrivacyRing → bool) (apply_fees : bool).
Implicit Types t : SettleMatchTask St.

Definition sm_static t :=
  (sm_account_id t, sm_other_account_id t, sm_order_id t, sm_other_order_id t, sm_match_result t).
Definition up_orders t := (up_order (sm_updated0 t), up_order (sm_updated1 t)).

Lemma record_settlement_orders t e te receipt :
  record_settlement permit_hash svc darkpool apply_fees receipt (t, e) = (Ok tt, te) →
  ∃ o0 o1, updated_for (env_db e) (sm_order_id t) (get_obligation t PARTY0) o0 ∧
    updated_for (env_db e) (sm_other_order_id t) (get_obligation t PARTY1) o1 ∧
    up_orders te.1 = (Some o0, Some o1).
Proof.
  unfold record_settlement. intros H. split_run H. injection Hm as <- <-. cbn [id fst] in H.
  split_run H. apply on_env_inv in Hm as [E1 Hm]. apply map_err_inv in Hm as (o & Hm & ->).
  apply processor_updated_intent_inv in Hm as [E2 H0]. destruct d as [t1 e1]. cbn [fst snd] in *. subst t1 e1.
  split_run H. apply on_env_inv in Hm as [E1 Hm]. apply map_err_inv in Hm as (o & Hm & ->).
  apply processor_updated_intent_inv in Hm as [E2 H1]. destruct d as [t1 e1]. cbn [fst snd] in *. subst t1 e1.
  do 2 (split_run H; injection Hm as _ <-). exists a, a0. split_and!; [done..|].
  match type of H with ?m _ = _ => assert (keeps_field up_orders m) as Hk by keeps_fields end.
  apply Hk in H. by rewrite H.
Qed.
Lemma record_settlement_frame receipt :
  task_frame orders_view (record_settlement (St:=St) permit_hash svc darkpool apply_fees receipt).
Proof. task_frames ltac:(apply frame_propose, merkle_keeps). Qed.

Lemma update_state_chain t p : frame (λ c d, c) (update_state_for_party permit_hash svc t p).
Proof. frames ltac:(first [by apply frame_propose|by apply frame_propose_only]). Qed.
Lemma update_state_orders t p o e u e' :
  up_order (party_updated t p) = Some o →
  update_state_for_party permit_hash svc t p e = (Ok u, e') →
  ∀ id, order_at (env_db e') id = if decide (id = order_id o) then kept o else order_at (env_db e) id.
Proof.
  intros Eo H. unfold update_state_for_party, party_order in H. rewrite Eo in H.
  split_run H. injection Hm as <- <-. split_run H.
  assert (frame orders_view (st_settlement (update_balances_after_match permit_hash svc
    (party_account t p) o (get_obligation t p) (get_updated_balances t p)))) as Hk.
  { frames ltac:(first [apply frame_propose, balance_keeps|apply frame_propose_only, balance_keeps]). }
  apply Hk in Hm. apply orders_view_at in Hm as [_ E1].
  apply map_err_inv in H as (? & H & ->). apply map_err_inv in H as (? & H & ->).
  apply propose_and_wait_cases in H as [_ [r H]]. intros id.
  unfold env_db in *. by rewrite (update_order_at _ _ _ _ _ H id), E1.
Qed.
Lemma settle_update_state_orders t o0 o1 e u e' :
  up_orders t = (Some o0, Some o1) → order_id o0 ≠ order_id o1 →
  settle_update_state permit_hash svc t e = (Ok u, e') →
  order_at (env_db e') (order_id o0) = kept o0 ∧ order_at (env_db e') (order_id o1) = kept o1.
Proof.
  intros [= E0 E1] Hne H. unfold settle_update_state in H. split_run H.
  pose proof (update_state_orders t PARTY0 _ _ _ _ E0 Hm) as H0.
  pose proof (update_state_orders t PARTY1 _ _ _ _ E1 H) as H1.
  rewrite !H1, H0, decide_False, !decide_True by done. done.
Qed.
End Task.

Lemma reencrypted_intent_inner w share w' :
  reencrypt_amount_in w = Some (share, w') → inner w' = inner w.
Proof.
  unfold reencrypt_amount_in, stream_cipher_encrypt.
  destruct (csprng_stream_cipher_encrypt _ _) as [[sh|] c]; [|discriminate].
  cbn [mbind option_bind]. intros [= <- <-]. reflexivity.
Qed.
Lemma decrement_amount o a :
  is_u128 (order_amount_in o) → 0 ≤ a ≤ order_amount_in o →
  order_amount_in (decrement_amount_in o a).2 = order_amount_in o - a.
Proof.
  intros Hu%is_u128_lt Ha. unfold decrement_amount_in, order_amount_in in *. cbn.
  rewrite Z.min_l by lia. apply u128_sub_small. lia.
Qed.
Lemma build_updated_intent_order o ob o' :
  is_u128 (order_amount_in o) → build_updated_intent o ob = Some o' →
  order_id o' = order_id o ∧ (0 ≤ obligation_amount_in ob →
    order_amount_in o' = order_amount_in o - obligation_amount_in ob).
Proof.
  intros Hu. unfold build_updated_intent.
  destruct (Z.ltb_spec (order_amount_in o) (obligation_amount_in ob)) as [|Hle]; [done|].
  assert (∀ o1, order_id o1 = order_id o → order_amount_in o1 = order_amount_in o →
    order_id (decrement_amount_in o1 (obligation_amount_in ob)).2 = order_id o ∧
    (0 ≤ obligation_amount_in ob →
     order_amount_in (decrement_amount_in o1 (obligation_amount_in ob)).2 =
       order_amount_in o - obligation_amount_in ob)) as Hd.
  { intros o1 E1 E2. split; [exact E1|]. intros Hn. by rewrite decrement_amount, E2 by (rewrite E2; done || lia). }
  assert (∀ o', update_private_intent_after_match o ob = Some o' →
    order_id o' = order_id o ∧ (0 ≤ obligation_amount_in ob →
      order_amount_in o' = order_amount_in o - obligation_amount_in ob)) as Hp.
  { clear o'. intros o'. unfold update_private_intent_after_match.
    destruct (has_been_filled _).
    - destruct (reencrypt_amount_in (order_intent o)) as [[sh w]|] eqn:Er; [|done].
      apply reencrypted_intent_inner in Er. cbn [mbind option_bind]. intros [= <-].
      apply (Hd (set_order_intent w o)); [done|]. unfold order_amount_in. cbn. by rewrite Er.
    - cbn [mbind option_bind]. intros [= <-]. by apply (Hd o). }
  destruct (order_ring o); [|exact (Hp o')..]. intros [= <-]. by apply (Hd o).
Qed.

(** ** Whole runs *)

Section Settlement.
Context {St : Type} (a0 a1 : AccountId) (i0 i1 : OrderId) (mr : MatchResult).
Context (c0 : list Transaction) (d0 : AccountDb) (settles : Transaction → Prop).
Context (Hok : account_ok d0) (Hne : i0 ≠ i1) (HR : receipts_included svc).
Implicit Types t : SettleMatchTask St.

Definition fixed t : Prop := sm_static t = (a0, a1, i0, i1, mr).
Definition updates (o0 o1 : Order) : Prop :=
  updated_for d0 i0 (party0_obligation mr) o0 ∧ updated_for d0 i1 (party1_obligation mr) o1.
Definition included (e : TaskEnv) : Prop := ∃ tx, settles tx ∧ env_chain e = tx :: c0.
Definition sent t (e : TaskEnv) : Prop :=
  included e ∧ ∃ o0 o1, updates o0 o1 ∧ up_orders t = (Some o0, Some o1).
Definition recorded (e : TaskEnv) : Prop :=
  included e ∧ ∃ o0 o1, updates o0 o1 ∧
    order_at (env_db e) i0 = kept o0 ∧ order_at (env_db e) i1 = kept o1.
Definition stopped (e : TaskEnv) : Prop := ready c0 d0 e ∨ included e.

Lemma included_chain e e' : env_chain e' = env_chain e → included e → included e'.
Proof. intros E (tx & H & Ht). exists tx. by rewrite E. Qed.

Lemma submit_settlement darkpool apply_fees tx t e r te :
  fixed t → ready c0 d0 e → settles tx →
  (receipt ← on_env (map_err SmDarkpool (submit svc tx));
   record_settlement permit_hash svc darkpool apply_fees receipt) (t, e) = (r, te) →
  match r with Ok _ => sent te.1 te.2 | Err _ => stopped te.2 end.
Proof using HR.
  intros Hf [Hc Hd] Htx H. split_run H; apply on_env_inv in Hm as [Et Hm];
    apply map_err_inv in Hm as (o & Hm & Ho); apply submit_cases in Hm as (n & Ea & Ec & Er).
  - subst o. destruct Er as [-> Er]. rewrite (HR _ _ _ Er), Hc in Ec.
    destruct d as [t1 e1]. cbn [fst snd] in *. subst t1.
    pose proof (record_settlement_frame darkpool apply_fees tx _ _ _ H) as Hv.
    apply orders_view_at in Hv as [Ec' _]. cbn [snd] in Ec'.
    assert (included te.2) as Hi by (exists tx; by rewrite Ec', Ec).
    destruct r as [[]|]; [|by right]. split; [done|].
    apply record_settlement_orders in H as (o0 & o1 & H0 & H1 & Eo). exists o0, o1.
    split; [|done]. pose proof Hf as [= F1 F2 F3 F4 F5]. unfold updates, env_db in *.
    rewrite Ea, Hd in *. unfold get_obligation, branch_party in *. by rewrite F3, F5 in H0; rewrite F4, F5 in H1.
  - destruct (sv_submit svc n (env_chain e) tx).1; [right; exists tx; by rewrite Ec, Hc|].
    left. unfold ready, env_db in *. by rewrite Ec, Ea.
Qed.
Lemma update_settlement t e r e' :
  sent t e → settle_update_state permit_hash svc t e = (r, e') →
  match r with Ok _ => recorded e' | Err _ => stopped e' end.
Proof using Hok Hne.
  intros (Hi & o0 & o1 & Hu & Eo) H.
  assert (included e') as Hi'.
  { assert (frame (λ c d, c) (settle_update_state permit_hash svc t)) as Hk.
    { unfold settle_update_state. apply frame_bind; intros; apply update_state_chain. }
    apply Hk in H. by eapply included_chain. }
  destruct r as [u|]; [|by right]. split; [done|]. exists o0, o1. split; [done|].
  destruct Hu as [(p0 & E0 & B0) (p1 & E1 & B1)].
  destruct (order_at_Some _ _ _ Hok E0) as (? & _ & Hd0 & I0).
  destruct (order_at_Some _ _ _ Hok E1) as (? & _ & Hd1 & I1).
  apply build_updated_intent_order in B0 as [J0 _]; [|by eapply (ao_order_amount _ Hok) in Hd0].
  apply build_updated_intent_order in B1 as [J1 _]; [|by eapply (ao_order_amount _ Hok) in Hd1].
  eapply settle_update_state_orders in H; [|exact Eo|congruence]. by rewrite J0, J1, I0, I1 in H.
Qed.
Lemma recorded_frame {E A} (m : M TaskEnv E A) e r e' :
  frame orders_view m → recorded e → m e = (r, e') → recorded e'.
Proof.
  intros Hm (Hi & o0 & o1 & Hu & E0 & E1) H. apply Hm in H. apply orders_view_at in H as [Ec Eo].
  split; [by eapply included_chain|]. exists o0, o1. by rewrite !Eo.
Qed.
Lemma ready_frame {E A} (m : M TaskEnv E A) e r e' :
  frame (λ c d, (c, d)) m → ready c0 d0 e → m e = (r, e') → ready c0 d0 e'.
Proof. intros Hm [Hc Hd] H. apply Hm in H. injection H as E1 E2. unfold ready. by rewrite E1, E2. Qed.
Lemma recorded_stopped e : recorded e → stopped e.
Proof. intros [H _]. by right. Qed.
End Settlement.

Section Internal.
Context (a0 a1 : AccountId) (i0 i1 : OrderId) (mr : MatchResult).
Context (c0 : list Transaction) (d0 : AccountDb).
Context (Hok : account_ok d0) (Hne : i0 ≠ i1) (HR : receipts_included svc).

Definition internal_settles (tx : Transaction) : Prop :=
  ∃ b0 b1, tx = SettleMatchTx (PublicObligations (party0_obligation mr) (party1_obligation mr)) b0 b1.
Definition internal_inv (t : SettleInternalMatchTask) (e : TaskEnv) : Prop :=
  fixed a0 a1 i0 i1 mr t ∧
  match sm_task_state t with
  | SettleInternal_Pending | SettleInternal_SubmittingTx => ready c0 d0 e
  | SettleInternal_UpdatingState => sent i0 i1 mr c0 d0 internal_settles t e
  | SettleInternal_UpdatingValidityProofs | SettleInternal_Completed =>
      recorded i0 i1 mr c0 d0 internal_settles e
  end.

Lemma internal_submit t e r te :
  fixed a0 a1 i0 i1 mr t → ready c0 d0 e → internal_submit_tx permit_hash svc (t, e) = (r, te) →
  match r with
  | Ok _ => sent i0 i1 mr c0 d0 internal_settles te.1 te.2
  | Err _ => stopped c0 d0 internal_settles te.2
  end.
Proof using HR.
  intros Hf Hr H. unfold internal_submit_tx in H. split_run H; [|done]. injection Hm as <- <-.
  cbn [id fst] in H. cbv zeta in H.
  split_run H; apply on_env_inv in Hm as [Et Hm]; (eapply ready_frame in Hm;
    [|frames idtac|exact Hr]); [|by left]. destruct d as [t1 e1]. cbn [fst snd] in *. subst t1.
  split_run H; apply on_env_inv in Hm0 as [Et Hm0]; (eapply ready_frame in Hm0;
    [|frames idtac|exact Hm]); [|by left]. destruct d as [t1 e2]. cbn [fst snd] in *. subst t1.
  eapply submit_settlement in H; try done. pose proof Hf as [= F1 F2 F3 F4 F5].
  rewrite F5. by eexists _, _.
Qed.
Lemma internal_proofs_frame t p :
  frame orders_view (internal_update_validity_proofs_for_party permit_hash svc t p).
Proof.
  unfold internal_update_validity_proofs_for_party. apply frame_bind; [frames idtac|]. intros o.
  destruct (order_ring o); [apply frame_ret|apply frame_map_err; by apply intent_only_frame| |apply frame_throw].
  by apply update_darkpool_proofs_frame.
Qed.

Lemma internal_step_inv t e r te :
  internal_inv t e → settle_internal_match_step permit_hash svc (t, e) = (r, te) →
  match r with Ok _ => internal_inv te.1 te.2 | Err _ => stopped c0 d0 internal_settles te.2 end.
Proof using Hok Hne HR.
  intros [Hf Hp] H.
  assert (fixed a0 a1 i0 i1 mr te.1) as Hf'.
  { unfold fixed. rewrite <-Hf.
    assert (keeps_field sm_static (settle_internal_match_step permit_hash svc)) as Hk by keeps_fields.
    by apply Hk in H. }
  unfold settle_internal_match_step in H. split_run H; [|done]. injection Hm as <- <-. cbn [id fst] in H.
  destruct (sm_task_state t) eqn:Est.
  - injection H as <- <-. by split.
  - split_run H; apply internal_submit in Hm; try done. injection H as <- <-. by split.
  - apply env_stage in H as (o & H & Eo & Et). eapply update_settlement in H; try done.
    destruct r, o; try done. split; [done|]. by rewrite Et.
  - split_run H; apply on_env_inv in Hm as [Et Hm]; eapply recorded_frame in Hm;
      eauto using internal_proofs_frame; [|by apply recorded_stopped in Hm].
    destruct d as [t1 e1]. cbn [fst snd] in *. subst t1.
    apply env_stage in H as (o & H & Eo & Et). eapply recorded_frame in H;
      eauto using internal_proofs_frame.
    destruct r, o; try done; [|by apply recorded_stopped in H]. split; [done|]. by rewrite Et.
  - injection H as <- <-. by apply recorded_stopped in Hp.
Qed.
End Internal.

Section Private.
Context (a0 a1 : AccountId) (i0 i1 : OrderId) (mr : MatchResult).
Context (c0 : list Transaction) (d0 : AccountDb).
Context (Hok : account_ok d0) (Hne : i0 ≠ i1) (HR : receipts_included svc).

(** The obligations are hidden in the statement of the settlement. *)
Definition private_settles (tx : Transaction) : Prop :=
  ∃ b0 b1 v0 v1 u0 u1 x s, tx = SettleMatchTx (PrivateObligations s) b0 b1 ∧
    prove_intent_and_balance_private_settlement (sv_config svc) (party0_obligation mr)
      (party1_obligation mr) v0 v1 u0 u1 = Some (x, s).
Definition private_inv (t : SettlePrivateMatchTask) (e : TaskEnv) : Prop :=
  fixed a0 a1 i0 i1 mr t ∧
  match sm_task_state t with
  | SettlePrivate_Pending | SettlePrivate_SubmittingTx => ready c0 d0 e
  | SettlePrivate_UpdatingState => sent i0 i1 mr c0 d0 private_settles t e
  | SettlePrivate_UpdatingValidityProofs | SettlePrivate_Completed =>
      recorded i0 i1 mr c0 d0 private_settles e
  end.

Lemma private_calldata_inv j0 j1 b0 b1 e bundle0 bundle1 obligations e' :
  build_private_fill_calldata_bundle svc j0 j1 b0 b1 e = (Ok (bundle0, bundle1, obligations), e') →
  ∃ v0 v1 u0 u1 x s, obligations = PrivateObligations s ∧
    prove_intent_and_balance_private_settlement (sv_config svc) b0 b1 v0 v1 u0 u1 = Some (x, s).
Proof.
  intros H. unfold build_private_fill_calldata_bundle in H. do 4 split_run H.
  do 4 (split_run H; match type of H with (let '(_, _) := ?p in _) _ = _ => destruct p end).
  split_run H. destruct (prove_intent_and_balance_private_settlement _ _ _ _ _ _ _) as [[x s]|] eqn:E;
    [|done]. injection Hm7 as <- <-. split_run H. injection H as <- <- <- <-.
  by eexists _, _, _, _, x, s.
Qed.
Lemma private_submit t e r te :
  fixed a0 a1 i0 i1 mr t → ready c0 d0 e → private_submit_tx permit_hash svc (t, e) = (r, te) →
  match r with
  | Ok _ => sent i0 i1 mr c0 d0 private_settles te.1 te.2
  | Err _ => stopped c0 d0 private_settles te.2
  end.
Proof using HR Hne.
  intros Hf Hr H. unfold private_submit_tx in H. split_run H; [|done]. injection Hm as <- <-.
  cbn [id fst] in H. pose proof Hf as [= F1 F2 F3 F4 F5].
  split_run H; apply on_env_inv in Hm as [Et Hm]; pose proof Hm as Hm';
    (eapply ready_frame in Hm; [|frames idtac|exact Hr]); [|by left].
  destruct d as [t1 e1], a as [[bundle0 bundle1] obligations]. cbn [fst snd] in *. subst t1.
  apply map_err_inv in Hm' as (o & Hm' & ->).
  apply private_calldata_inv in Hm' as (v0 & v1 & u0 & u1 & x & s & -> & Ep).
  eapply submit_settlement in H; try done. unfold get_obligation, branch_party in Ep.
  rewrite F5 in Ep. by exists bundle0, bundle1, v0, v1, u0, u1, x, s.
Qed.

Lemma private_step_inv t e r te :
  private_inv t e → settle_private_match_step permit_hash svc (t, e) = (r, te) →
  match r with Ok _ => private_inv te.1 te.2 | Err _ => stopped c0 d0 private_settles te.2 end.
Proof using Hok Hne HR.
  intros [Hf Hp] H.
  assert (fixed a0 a1 i0 i1 mr te.1) as Hf'.
  { unfold fixed. rewrite <-Hf.
    assert (keeps_field sm_static (settle_private_match_step permit_hash svc)) as Hk by keeps_fields.
    by apply Hk in H. }
  unfold settle_private_match_step in H. split_run H; [|done]. injection Hm as <- <-. cbn [id fst] in H.
  destruct (sm_task_state t) eqn:Est.
  - injection H as <- <-. by split.
  - split_run H; apply private_submit in Hm; try done. injection H as <- <-. by split.
  - apply env_stage in H as (o & H & Eo & Et). eapply update_settlement in H; try done.
    destruct r, o; try done. split; [done|]. by rewrite Et.
  - apply env_stage in H as (o & H & Eo & Et). eapply recorded_frame in H;
      [|unfold private_update_validity_proofs; apply frame_bind; intros;
        by apply update_darkpool_proofs_frame|exact Hp].
    destruct r, o; try done; [|by apply recorded_stopped in H]. split; [done|]. by rewrite Et.
  - injection H as <- <-. by apply recorded_stopped in Hp.
Qed.
End Private.
End Runs.
