(* ===== verification/TasksCorrect.v ===== *)
(** * Properties of the tasks under the driver

    For every behaviour of the services that the hypotheses allow, every schedule of other
    proposals and every number of retries: the tasks obey the laws of the driver; a deposit or
    withdrawal is included at most once, and the relayer stores the version that was included;
    a settlement is submitted at most once, and its orders are reduced by what was settled.
    And what goes wrong when a receipt is lost, when an order task runs again, and with the
    proof of a new output balance. *)
From S2P Require Import Prelude Scalar FixedPoint BaseType CircuitTypes Merkle ProverCircuit.
From S2P Require Import BalanceCircuits ValidityCircuits SettlementCircuits DarkpoolTypes.
From S2P Require Import StateWrapper AccountTypes ValidityBundles TaskTypes TaskStorage.
From S2P Require Import TaskApplicator AccountStorage AccountApplicator AccountInvariant.
From S2P Require Import AccountProperties AccountCorrect StateInterface TaskStates TaskDriver.
From S2P Require Import DriverCorrect TaskProofs TaskContext Tasks BalanceTasks SettleTasks.
From S2P Require Import NativeAgreement TaskBalances TaskCorrect TaskRuns TaskEffects BalanceRuns.
From S2P Require Import Engine SettleRuns.
Local Open Scope Z_scope.

(** ** Outcomes *)

(** What a balance task leaves: the balance has been updated and the update is the newest
    transaction; or, when the task has failed, nothing has happened, or the transaction is in
    and the relayer has stored none, the first or both of the path and the balance. *)
Definition update_outcome (svc : Services) (a : AccountId) (token : Address) (e0 : TaskEnv)
    (computed : BalanceUpdate → Prop) (ok : bool) (e : TaskEnv) : Prop :=
  let c0 := env_chain e0 in let d0 := env_db e0 in
  if ok then ∃ u, computed u ∧ stored svc a token c0 d0 u e
  else ready c0 d0 e ∨ ∃ u, computed u ∧
    (submitting c0 d0 u e ∨ submitted svc a token c0 d0 u e ∨ stored svc a token c0 d0 u e).

Lemma phase_outcome svc a token e0 computed ph bal call e :
  at_phase svc a token (env_chain e0) (env_db e0) computed ph bal call e →
  update_outcome svc a token e0 computed false e.
Proof.
  destruct ph; simpl; [by left|..]; intros Hp; right.
  - destruct Hp as (u & Hu & _ & _ & Hs). exists u. split; [done|by left].
  - destruct Hp as (u & Hu & _ & Hs). exists u. split; [done|by right; left].
  - destruct Hp as (u & Hu & Hs). exists u. split; [done|by right; right].
Qed.

(** What a settlement leaves of its orders *)
Definition settlement_outcome (i0 i1 : OrderId) (mr : MatchResult) (settles : Transaction → Prop)
    (e0 : TaskEnv) (ok : bool) (e : TaskEnv) : Prop :=
  let left_of id ob := ∃ o o', order_at (env_db e0) id = Some o ∧
    build_updated_intent o ob = Some o' ∧
    order_amount_in o' = order_amount_in o - obligation_amount_in ob ∧
    order_at (env_db e) id = if order_amount_in o' =? 0 then None else Some o' in
  if ok then (∃ tx, settles tx ∧ env_chain e = tx :: env_chain e0) ∧
    left_of i0 (party0_obligation mr) ∧ left_of i1 (party1_obligation mr)
  else (env_chain e = env_chain e0 ∧ env_db e = env_db e0) ∨
    ∃ tx, settles tx ∧ env_chain e = tx :: env_chain e0.

Lemma recorded_outcome i0 i1 mr settles e0 e :
  account_ok (env_db e0) → 0 ≤ obligation_amount_in (party0_obligation mr) →
  0 ≤ obligation_amount_in (party1_obligation mr) →
  recorded i0 i1 mr (env_chain e0) (env_db e0) settles e →
  settlement_outcome i0 i1 mr settles e0 true e.
Proof.
  intros Hok H0 H1 (Hi & o0 & o1 & [U0 U1] & E0 & E1). split; [exact Hi|].
  assert (∀ id ob o', 0 ≤ obligation_amount_in ob → updated_for (env_db e0) id ob o' →
    ∃ o, order_at (env_db e0) id = Some o ∧ build_updated_intent o ob = Some o' ∧
      order_amount_in o' = order_amount_in o - obligation_amount_in ob) as Hu.
  { intros id ob o' Hob (o & Eo & B). exists o. split_and!; [done..|].
    destruct (order_at_Some _ _ _ Hok Eo) as (a & _ & Hd & _).
    apply (ao_order_amount _ Hok) in Hd. by apply build_updated_intent_order in B as [_ ->]. }
  apply Hu in U0 as (p0 & ? & ? & ?); [|done]. apply Hu in U1 as (p1 & ? & ? & ?); [|done].
  split; [by exists p0, o0|by exists p1, o1].
Qed.

(** ** Parts of steps *)

Lemma create_ring0_runs permit_hash svc t e w r w1 :
  co_ring t = Ring0 → state_wrapper_new (co_intent t) 0 0 = Some w →
  sv_accepts svc (env_calls e) = true →
  add_order_to_account permit_hash (co_account_id t)
    (mkOrder (co_order_id t) w Ring0 (co_metadata t)) (co_auth t) (co_matching_pool t)
    (env_accounts e) = (Ok r, w1) →
  ∃ e1, create_order permit_hash svc t e = (Ok CreateOrder_CheckingAllowance, e1) ∧
    env_db e1 = adb w1.
Proof.
  intros Hr Ew Ha Eadd. unfold create_order.
  erewrite bind_Ok by (unfold create_state_wrapper, create_ring0_state_wrapper; rewrite Hr, Ew;
    reflexivity).
  cbv zeta. rewrite Hr. erewrite bind_Ok.
  2: { unfold co_state, map_err, propose_and_wait, propose. erewrite bind_Ok.
       2: { erewrite bind_Ok by reflexivity. rewrite Ha. cbn [negb env_accounts handle_account_transition].
            rewrite Eadd. reflexivity. }
       reflexivity. }
  unfold send_indexer_message, submit_message.
  destruct (co_auth t); [|by eexists..]. unfold mbind, M_bind, tick.
  destruct (sv_indexer svc _ _); by eexists.
Qed.

(** The orders and balances, and the proofs of one output balance *)
Definition output_view (l : ValidityProofLocator) (c : list Transaction) (d : AccountDb) :=
  (db_orders d, order_index d, db_balances d,
   validity_proofs d !! (proof_type_key NewOutputBalance, l),
   validity_proofs d !! (proof_type_key OutputBalance, l)).

Lemma intent_proof_keeps permit_hash a m id b :
  transition_keeps permit_hash (output_view (LocatorBalance a m)) (AddValidityProof (LocatorIntent id) b).
Proof.
  intros w o w' c [-> | ->]%add_validity_proof_effect; [done|]. unfold output_view. cbn.
  by rewrite !lookup_insert_ne.
Qed.

Lemma vp_get_order_eq id order e :
  order_at (env_db e) id = Some order → vp_get_order id e = (Ok order, e).
Proof.
  intros Ho. unfold vp_get_order, vp_state, map_err, read, mbind, M_bind.
  by rewrite get_order_eq, Ho.
Qed.
(** An output balance that has a proof gets no other. *)
Lemma output_proof_kept permit_hash svc a id auth order e r e' :
  order_at (env_db e) id = Some order →
  is_Some (validity_proofs (env_db e) !!
    (proof_type_key NewOutputBalance, LocatorBalance a (order_output_token order))) →
  update_output_balance_validity_proof permit_hash svc a id auth false e = (r, e') → e' = e.
Proof.
  intros Ho Hn H. unfold update_output_balance_validity_proof in H.
  split_run H; apply map_err_inv in Hm as (x & Hm & _); injection Hm as _ <-; [|done].
  destruct (a0 =? 0); [by injection H as <- <-|].
  rewrite (bind_Ok _ _ _ _ _ (vp_get_order_eq _ _ _ Ho)) in H. cbv zeta in H.
  assert (vp_state (read (has_output_balance_validity_proof
    (LocatorBalance a (order_output_token order)))) e = (Ok true, e)) as Hh.
  { unfold vp_state, map_err, read, has_output_balance_validity_proof,
      OUTPUT_BALANCE_VALIDITY_PROOF_KEYS. cbn. unfold gets, mbind, M_bind. by rewrite bool_decide_true. }
  rewrite (bind_Ok _ _ _ _ _ Hh) in H. by injection H as <- <-.
Qed.

Lemma darkpool_proofs_keep_outputs permit_hash svc {St} (t : SettleMatchTask St) p order e r e' :
  let l := LocatorBalance (party_account t p) (order_output_token order) in
  order_at (env_db e) (party_order_id t p) = Some order →
  is_Some (validity_proofs (env_db e) !! (proof_type_key NewOutputBalance, l)) →
  update_darkpool_validity_proofs permit_hash svc t p e = (r, e') →
  view (output_view l) e' = view (output_view l) e.
Proof.
  intros l Ho Hn H. unfold update_darkpool_validity_proofs in H.
  assert (frame (output_view l) (st_settlement (get_renegade_settled_auth (party_order_id t p)))) as F1
    by frames idtac.
  split_run H; [|by apply F1 in Hm]. apply F1 in Hm. rewrite <-Hm. destruct a as [intent_sig out_sig].
  assert (frame (output_view l) (st_proof (update_intent_and_balance_validity_proof permit_hash svc
    (party_account t p) (party_order_id t p) intent_sig))) as F2
    by (frames ltac:(apply frame_propose, intent_proof_keeps)).
  split_run H; [|by apply F2 in Hm0]. apply F2 in Hm0. rewrite <-Hm0.
  apply map_err_inv in H as (o & H & _). f_equal. rewrite Hm in Hm0. injection Hm0 as E1 E2 _ E4 _.
  assert (order_at (env_db d0) (party_order_id t p) = Some order) as Ho'
    by (rewrite <-Ho; unfold order_at; by rewrite E1, E2).
  apply (output_proof_kept _ _ _ _ _ _ _ _ _ Ho') in H; [done|]. fold l.
  change (proof_type_key NewOutputBalance) with "new-output-balance"%string. by rewrite E4.
Qed.

(** ** Examples *)

(** A contract that gives a receipt for what it includes, and refuses spent nullifiers *)
Definition already_spent (l : list Transaction) (t : Transaction) : bool :=
  bool_decide (is_Some (spent_balance t)) &&
  existsb (λ t', bool_decide (spent_balance t' = spent_balance t)) l.
Definition sample_services : Services := {|
  sv_config := sample_config;
  sv_default_key := sample_key;
  sv_accepts _ := true;
  sv_prove _ _ := true;
  sv_submit _ l t :=
    if already_spent l t then (false, Err "nullifier spent"%string) else (true, Ok tt);
  sv_merkle_path _ _ c := Some (mkAuthPath [] 0 c);
  sv_usable_balance _ _ _ := None;
  sv_public_intents _ _ := None;
  sv_indexer _ _ := true;
  sv_executor_signature _ _ := None;
|}.
Lemma sample_contract : contract_laws sample_services.
Proof.
  split.
  - intros n l t. cbn. by destruct (already_spent l t).
  - intros n l t t' Hin Hs E. cbn. assert (already_spent l t = true) as ->; [|done].
    apply andb_true_iff. split; [by apply bool_decide_eq_true|]. apply existsb_exists. exists t'.
    split; [by apply list_elem_of_In|by apply bool_decide_eq_true].
Qed.

(** The same with receipts that are lost *)
Definition lossy_services : Services := {|
  sv_config := sample_config;
  sv_default_key := sample_key;
  sv_accepts _ := true;
  sv_prove _ _ := true;
  sv_submit _ l t := (negb (already_spent l t), Err "timeout"%string);
  sv_merkle_path _ _ c := Some (mkAuthPath [] 0 c);
  sv_usable_balance _ _ _ := None;
  sv_public_intents _ _ := None;
  sv_indexer _ _ := true;
  sv_executor_signature _ _ := None;
|}.
Lemma lossy_contract : contract_laws lossy_services.
Proof.
  split; [by intros n l t|]. intros n l t t' Hin Hs E.
  destruct (nullifier_once _ sample_contract n l t t' Hin Hs E) as [H _]. cbn in *.
  by destruct (already_spent l t).
Qed.

(** Account 7 of AccountCorrect.v, which sells token 1, with a darkpool balance of it *)
Definition sample_env : TaskEnv :=
  let d := put_balance 7 (mkBalance (sample_balance 1 7 150) Darkpool)
             (adb AccountCorrect.sample_world) in
  mkTaskEnv (set_adb (set_merkle_proofs <[BalancePath 7 1 := mkAuthPath (replicate 10 9) 5 0]> d)
               AccountCorrect.sample_world) [] [] 0.
Lemma merkle_core f d : same_core d (set_merkle_proofs f d).
Proof. done. Qed.
Lemma sample_env_ok : account_ok (env_db sample_env).
Proof.
  destruct (reachable_world_ok _ _ AccountCorrect.sample_world_reachable) as [Hok _].
  eapply account_ok_core; [apply merkle_core|]. apply balance_put_ok; [exact Hok|by vm_compute].
Qed.
Definition sample_deposit : DepositTask :=
  mkDepositTask 7 7 1 25 (mkDepositAuth 0 0 []) None None Deposit_Pending.

(** ** Properties *)

(** C19: the nine tasks obey the laws that the driver is proved against: a step that succeeds
    moves the task to one of the next states of its state machine, one that fails leaves the
    state, and a task never changes whether it goes through its queue.  So the driver's
    termination and commit order hold of each of them, whatever the services answer. *)
Theorem tasks_obey_driver (permit_hash : PublicIntentPermit → Z) (svc : Services) :
  @TaskLaws _ _ (create_new_account_task permit_hash svc) ∧
  @TaskLaws _ _ (create_order_task permit_hash svc) ∧
  @TaskLaws _ _ (cancel_order_task permit_hash svc) ∧
  @TaskLaws _ _ (refresh_account_task permit_hash svc) ∧
  @TaskLaws _ _ (create_balance_task permit_hash svc) ∧
  @TaskLaws _ _ (deposit_task permit_hash svc) ∧
  @TaskLaws _ _ (withdraw_task permit_hash svc) ∧
  @TaskLaws _ _ (settle_internal_match_task permit_hash svc) ∧
  @TaskLaws _ _ (settle_private_match_task permit_hash svc).
Proof.
  split_and!.
  - apply create_new_account_laws.
  - apply create_order_laws.
  - apply cancel_order_laws.
  - apply refresh_account_laws.
  - apply create_balance_laws.
  - apply deposit_laws.
  - apply withdraw_laws.
  - apply settle_internal_match_laws.
  - apply settle_private_match_laws.
Qed.

(** C4: under the driver, with any number of retries, a deposit or a withdrawal is included at
    most once.  If the task succeeds, its transaction is the newest one, and the stored path
    and balance are the path of the new commitment and the version of the balance that the
    circuit's statement was computed with.  If it fails before the transaction is included,
    the stored tables are unchanged.  Relied on: the contract accepts a nullifier once, and a
    receipt means inclusion. *)
Theorem balance_tasks_update_once (permit_hash : PublicIntentPermit → Z) (svc : Services)
    (cfg : AppConfig) (args : RuntimeArgs) (id : TaskIdentifier) (accounts : list Uuid)
    (node : Node) (jobs : list (Uuid * Uuid)) (events : list DriverEvent) (e0 : TaskEnv)
    (a : AccountId) (token : Address) (amt : Amount) :
  contract_laws svc → account_ok (env_db e0) →
  (∀ from auth,
    let t := mkDepositTask a from token amt auth None None Deposit_Pending in
    let '(r, d) := drive_task (H:=deposit_task permit_hash svc) cfg args id accounts
                     (mkDriver node t e0 jobs events) in
    update_outcome svc a token e0 (deposit_update a from token amt auth (env_db e0)) (is_ok r)
      (dr_env d)) ∧
  (∀ signature,
    let t := mkWithdrawTask a token amt signature None None Withdraw_Pending in
    let '(r, d) := drive_task (H:=withdraw_task permit_hash svc) cfg args id accounts
                     (mkDriver node t e0 jobs events) in
    update_outcome svc a token e0 (withdrawal_update a token amt signature (env_db e0)) (is_ok r)
      (dr_env d)).
Proof.
  intros HL Hok. split.
  - intros from auth t. destruct (drive_task _ _ _ _ _) as [r d] eqn:E.
    set (I := deposit_inv svc a from token amt auth (env_chain e0) (env_db e0)).
    apply (drive_invariant (HT:=deposit_task permit_hash svc) cfg args id I I) in E; [|done|..].
    + destruct r as [[]|x]; [|destruct E as [_ E]; by eapply phase_outcome].
      destruct E as [[_ E] Hc]. unfold deposit_progress in E.
      assert (dt_task_state (dr_task d) = Deposit_Completed) as Est
        by (cbn in Hc; by destruct (dt_task_state (dr_task d))).
      by rewrite Est in E.
    + intros t1 e1 r1 t2 e2 Hi (r' & Hs & ->)%run_step_inv.
      eapply deposit_step_inv in Hs; [|done..]. destruct r' as [|x]; [done|]. by destruct (retryable _).
    + by split.
  - intros signature t. destruct (drive_task _ _ _ _ _) as [r d] eqn:E.
    set (I := withdrawal_inv svc a token amt signature (env_chain e0) (env_db e0)).
    apply (drive_invariant (HT:=withdraw_task permit_hash svc) cfg args id I I) in E; [|done|..].
    + destruct r as [[]|x]; [|destruct E as [_ E]; by eapply phase_outcome].
      destruct E as [[_ E] Hc]. unfold withdrawal_progress in E.
      assert (wt_task_state (dr_task d) = Withdraw_Completed) as Est
        by (cbn in Hc; by destruct (wt_task_state (dr_task d))).
      by rewrite Est in E.
    + intros t1 e1 r1 t2 e2 Hi (r' & Hs & ->)%run_step_inv.
      eapply withdraw_step_inv in Hs; [|done..]. destruct r' as [|x]; [done|]. by destruct (retryable _).
    + by split.
Qed.

Lemma balance_tasks_update_once_witness :
  let '(r, d) := drive_task (H:=deposit_task sample_hash sample_services) sample_app
    runtime_args_default 5 [7] (mkDriver (sample_node [] []) sample_deposit sample_env [] []) in
  update_outcome sample_services 7 1 sample_env
    (deposit_update 7 7 1 25 (mkDepositAuth 0 0 []) (env_db sample_env)) (is_ok r) (dr_env d).
Proof.
  destruct (balance_tasks_update_once sample_hash sample_services sample_app runtime_args_default
    5 [7] (sample_node [] []) [] [] sample_env 7 1 25 sample_contract sample_env_ok) as [H _].
  exact (H 7 (mkDepositAuth 0 0 [])).
Defined.

(** C5: under the driver, a match between two orders is submitted at most once: none of the
    errors of a settlement task is retried.  If the task succeeds, exactly one transaction was
    added, it carries the obligations of the match (in the clear, or in the statement of the
    private settlement), and each order is left with its amount before the match less its
    obligation, or is removed when nothing is left.  If the task fails before the transaction
    is included, the stored tables are unchanged. *)
Theorem settlement_tasks_settle_once (permit_hash : PublicIntentPermit → Z) (svc : Services)
    (cfg : AppConfig) (args : RuntimeArgs) (id : TaskIdentifier) (accounts : list Uuid)
    (node : Node) (jobs : list (Uuid * Uuid)) (events : list DriverEvent) (e0 : TaskEnv)
    (a0 a1 : AccountId) (i0 i1 : OrderId) (mr : MatchResult) :
  receipts_included svc → account_ok (env_db e0) → i0 ≠ i1 →
  0 ≤ obligation_amount_in (party0_obligation mr) →
  0 ≤ obligation_amount_in (party1_obligation mr) →
  let none := mkPartyUpdate None None None in
  (let t := mkSettleMatchTask a0 a1 i0 i1 mr none none SettleInternal_Pending in
   let '(r, d) := drive_task (H:=settle_internal_match_task permit_hash svc) cfg args id accounts
                    (mkDriver node t e0 jobs events) in
   settlement_outcome i0 i1 mr (internal_settles mr) e0 (is_ok r) (dr_env d)) ∧
  (let t := mkSettleMatchTask a0 a1 i0 i1 mr none none SettlePrivate_Pending in
   let '(r, d) := drive_task (H:=settle_private_match_task permit_hash svc) cfg args id accounts
                    (mkDriver node t e0 jobs events) in
   settlement_outcome i0 i1 mr (private_settles svc mr) e0 (is_ok r) (dr_env d)).
Proof.
  intros HR Hok Hne H0 H1 none. split.
  - intros t. destruct (drive_task _ _ _ _ _) as [r d] eqn:E.
    apply (drive_invariant (HT:=settle_internal_match_task permit_hash svc) cfg args id
      (internal_inv a0 a1 i0 i1 mr (env_chain e0) (env_db e0))
      (λ _ e, stopped (env_chain e0) (env_db e0) (internal_settles mr) e)) in E.
    + destruct r as [[]|x]; [|exact E]. destruct E as [[_ E] Hc]. apply recorded_outcome; try done.
      cbn in Hc. by destruct (sm_task_state (dr_task d)).
    + intros t1 e1 [_ Hp]. destruct (sm_task_state t1); [by left..| | |];
        destruct Hp as [Hi _]; by right.
    + intros t1 e1 r1 t2 e2 Hi (r' & Hs & ->)%run_step_inv.
      destruct r' as [u|x]; [|pose proof (settle_internal_final _ _ _ _ _ Hs) as ->];
        by eapply internal_step_inv in Hs.
    + by split.
  - intros t. destruct (drive_task _ _ _ _ _) as [r d] eqn:E.
    apply (drive_invariant (HT:=settle_private_match_task permit_hash svc) cfg args id
      (private_inv svc a0 a1 i0 i1 mr (env_chain e0) (env_db e0))
      (λ _ e, stopped (env_chain e0) (env_db e0) (private_settles svc mr) e)) in E.
    + destruct r as [[]|x]; [|exact E]. destruct E as [[_ E] Hc]. apply recorded_outcome; try done.
      cbn in Hc. by destruct (sm_task_state (dr_task d)).
    + intros t1 e1 [_ Hp]. destruct (sm_task_state t1); [by left..| | |];
        destruct Hp as [Hi _]; by right.
    + intros t1 e1 r1 t2 e2 Hi (r' & Hs & ->)%run_step_inv.
      destruct r' as [u|x]; [|pose proof (settle_private_final _ _ _ _ _ Hs) as ->];
        by eapply private_step_inv in Hs.
    + by split.
Qed.

Lemma settlement_tasks_settle_once_witness :
  let mr := mkMatchResult (mkSettlementObligation 1 2 6 5) (mkSettlementObligation 2 1 5 6) in
  let none := mkPartyUpdate None None None in
  let '(r, d) := drive_task (H:=settle_internal_match_task sample_hash sample_services) sample_app
    runtime_args_default 5 [7; 8] (mkDriver (sample_node [] [])
      (mkSettleMatchTask 7 8 1 2 mr none none SettleInternal_Pending) sample_env [] []) in
  settlement_outcome 1 2 mr (internal_settles mr) sample_env (is_ok r) (dr_env d).
Proof.
  intros mr none.
  destruct (settlement_tasks_settle_once sample_hash sample_services sample_app
    runtime_args_default 5 [7; 8] (sample_node [] []) [] [] sample_env 7 8 1 2 mr) as [H _].
  - exact (receipt_included _ sample_contract).
  - exact sample_env_ok.
  - done.
  - done.
  - done.
  - exact H.
Defined.

(** C33: a deposit whose receipt is lost after the transaction was included can not be finished:
    the attempt fails with a retryable error, the contract refuses every further attempt
    (the balance is spent), and the task ends with an error.  The deposit is on the chain, and
    the relayer keeps the old version of the balance and its path. *)
Theorem lost_receipt_strands_deposit (permit_hash : PublicIntentPermit → Z) (svc : Services)
    (t : DepositTask) (e : TaskEnv) (s : ValidDepositStatement Scalar) (msg : string) :
  contract_laws svc → dt_task_state t = Deposit_Submitting → dt_proof_bundle t = Some s →
  (∀ n, sv_submit svc n (env_chain e) (DepositTx (dt_auth t) s) = (true, Err msg)) →
  let '(r, (t1, e1)) := task_step (Task:=deposit_task permit_hash svc) t e in
  r = Err (mkTaskError msg true) ∧ t1 = t ∧
  env_chain e1 = DepositTx (dt_auth t) s :: env_chain e ∧ env_db e1 = env_db e ∧
  ∀ cfg args id accounts node jobs events,
    let '(r', d) := drive_task (H:=deposit_task permit_hash svc) cfg args id accounts
                      (mkDriver node t1 e1 jobs events) in
    is_ok r' = false ∧ env_chain (dr_env d) = env_chain e1 ∧ env_db (dr_env d) = env_db e.
Proof.
  intros HL Hst Hs Hlost. set (tx := DepositTx (dt_auth t) s) in *.
  assert (is_Some (spent_balance tx)) as Htx by by eexists.
  destruct (task_step t e) as [r [t1 e1]] eqn:E. apply run_step_inv in E as (r' & E & ->).
  apply (deposit_attempt _ _ _ s) in E as (o & E & _ & Er); [|done..].
  destruct (submit_lost permit_hash svc (dt_account_id t) (dt_token t) tx
    (ds_new_balance_commitment s) e msg Hlost) as (e' & E' & Ec & Ed).
  fold tx in E. rewrite E' in E. injection E as <- E. cbn [snd] in E. subst e1.
  destruct (Er _ eq_refl) as [-> Et]. cbn [fst] in Et. subst t1. split_and!; try done.
  intros cfg args id accounts node jobs events. destruct (drive_task _ _ _ _ _) as [r d] eqn:E.
  set (I := λ (t' : DepositTask) e1, t' = t ∧ env_chain e1 = env_chain e' ∧ env_db e1 = env_db e).
  apply (drive_invariant (HT:=deposit_task permit_hash svc) cfg args id I I) in E; [|done|..|by split].
  - destruct r; [|by destruct E as (_ & ? & ?)]. destruct E as [[Et _] Hc]. rewrite Et in Hc.
    cbn in Hc. by rewrite Hst in Hc.
  - intros t1 e1 r1 t2 e2 (-> & C1 & D1) (r' & Hr & ->)%run_step_inv.
    apply (deposit_attempt _ _ _ s) in Hr as (o & Hr & Eo & Hx); [|done..].
    apply submit_spent in Hr as (Hf & C2 & D2); [|done..|rewrite C1, Ec; by left].
    destruct o as [|x]; [done|]. destruct (Hx x eq_refl) as [-> Ht]. cbn [fst snd] in *. subst t2.
    assert (I t e2) as Hi by (split_and!; [done|by rewrite C2|by rewrite D2]).
    by destruct (retryable _).
Qed.

Lemma lost_receipt_strands_deposit_witness :
  let s := mkDepositStatement (deposit_values (mkDeposit 7 1 25)) 0 4 5 6 7 in
  let auth := mkDepositAuth 0 0 [] in
  let t := mkDepositTask 7 7 1 25 auth (Some (mkBalance (sample_balance 1 7 175) Darkpool)) (Some s)
             Deposit_Submitting in
  let '(r, (t1, e1)) := task_step (Task:=deposit_task sample_hash lossy_services) t sample_env in
  r = Err (mkTaskError "timeout" true) ∧ env_chain e1 = [DepositTx auth s] ∧
  env_db e1 = env_db sample_env.
Proof.
  intros s auth t.
  pose proof (lost_receipt_strands_deposit sample_hash lossy_services t sample_env s "timeout"
    lossy_contract eq_refl eq_refl (λ n, eq_refl)) as H.
  destruct (task_step t sample_env) as [r [t1 e1]]. destruct H as (H1 & _ & H3 & H4 & _).
  exact (conj H1 (conj H3 H4)).
Defined.

(** C34: running the creation of a public order again stores the order as it was created, with
    its whole amount and unfilled, whatever has been stored of it since: a fill in between is
    forgotten, and an order that was used up comes back. *)
Theorem rerun_reinflates_order (permit_hash : PublicIntentPermit → Z) (svc : Services)
    (t : CreateOrderTask) (e : TaskEnv) :
  co_ring t = Ring0 → co_task_state t = CreateOrder_Creating → is_intent (co_intent t) →
  is_Some (headers (env_db e) !! co_account_id t) →
  pool_exists (env_db e) (co_matching_pool t) → sv_accepts svc (env_calls e) = true →
  let '(r, (t1, e1)) := task_step (Task:=create_order_task permit_hash svc) t e in
  r = Ok tt ∧ ∃ o, order_at (env_db e1) (co_order_id t) = Some o ∧
    order_amount_in o = amount_in (co_intent t) ∧ order_metadata o = co_metadata t.
Proof.
  intros Hr Hst Hi Ha Hp Hacc.
  destruct (state_wrapper_new_values (co_intent t) 0 0 Hi) as (w & Ew & Ein & _); [by vm_compute|].
  set (o := mkOrder (co_order_id t) w Ring0 (co_metadata t)).
  destruct (add_order_runs permit_hash (co_account_id t) o (co_auth t) (co_matching_pool t)
    (env_accounts e) Ha Hp) as (w1 & Erun & Eat).
  destruct (create_ring0_runs permit_hash svc t e w RetNone w1) as (e1 & Er & Ed); [done..|].
  cbn [task_step create_order_task]. unfold run_step, map_err, create_order_step.
  erewrite bind_Ok by reflexivity. cbn [id fst]. rewrite Hst.
  erewrite bind_Ok by (unfold on_env, zoom; cbn [fst snd]; rewrite Er; reflexivity).
  cbn. split; [done|]. exists o. rewrite Ed. split_and!; [exact Eat| |done].
  unfold order_amount_in. cbn. by rewrite Ein.
Qed.

Lemma rerun_reinflates_order_witness :
  let intent := mkIntent 1 2 7 (mkFixedPoint 1) 10 in
  let t := mkCreateOrderTask 7 1 intent Ring0 (mkOrderMetadata 0 true false) (sample_auth 10)
             GLOBAL_MATCHING_POOL CreateOrder_Creating in
  let e := mkTaskEnv sample_filled_world [] [] 0 in
  (order_amount_in <$> order_at (env_db e) 1 = Some 4) ∧
  let '(r, (t1, e1)) := task_step (Task:=create_order_task sample_hash sample_services) t e in
  r = Ok tt ∧ order_amount_in <$> order_at (env_db e1) 1 = Some 10.
Proof.
  intros intent t e. split; [by vm_compute|].
  pose proof (rerun_reinflates_order sample_hash sample_services t e eq_refl eq_refl) as H.
  destruct (task_step t e) as [r [t1 e1]].
  destruct H as (H1 & o & H2 & H3 & _); [by vm_compute|by eexists; vm_compute|by left|done|].
  split; [exact H1|]. change (co_order_id t) with 1 in H2. rewrite H2. simpl. by rewrite H3.
Defined.


