(* ===== verification/RaftLog.v ===== *)
(** * The raft log

    src/crates/state/src/storage/tx/raft_log.rs and replication/log_store.rs, with the cursor
    of storage/cursor.rs they use: the log that openraft appends to, truncates, purges and
    reads back, on an ordered table of the storage engine.

    A table of the engine is the list of its rows in the order of the key bytes.  Deleting
    the last row of a table moves a cursor past the end, or back to the first row in newer
    versions (storage/cursor.rs, [delete]); [wraps] says which, and the theorems hold for
    both.  The engine's own failures and the archived form of the values are not modelled.

    [log_store_refines] shows that the log store implements a contiguous log with a purge
    point. *)
From S2P Require Import Prelude Scalar TaskTypes TaskStorage TaskApplicator.
From S2P Require Import AccountApplicator.
Local Open Scope Z_scope.

(** ** The types of the raft (replication/mod.rs and openraft) *)

Abbreviation NodeId := Z (only parsing).

(** The leader id of a log id is its term and its node. *)
Record LogId := mkLogId { leader_term : Z; leader_node : NodeId; log_index : Z }.
Record Vote := mkVote { vote_term : Z; vote_node : NodeId; vote_committed : bool }.
Record LogState := mkLogState { last_log_id : option LogId; last_purged_log_id : option LogId }.

Record Membership := mkMembership {
  configs : list (gset NodeId);
  nodes : gmap NodeId PeerId;
}.
Record StoredMembership := mkStoredMembership {
  membership_log_id : option LogId;
  membership : Membership;
}.
Definition default_membership : StoredMembership :=
  mkStoredMembership None (mkMembership [] ∅).
Record SnapshotMeta := mkSnapshotMeta {
  meta_last_log_id : option LogId;
  meta_last_membership : StoredMembership;
  snapshot_id : string;
}.

(** state_transition.rs: the transitions of the applicators, and those that the raft client
    turns into membership changes *)
Inductive StateTransition :=
| OnAccounts (t : AccountTransition)
| OnTasks (t : TaskTransition)
| AddRaftLearners (learners : list (NodeId * PeerId))
| AddRaftVoters (peers : list NodeId)
| RemoveRaftPeers (peers : list NodeId).
Record Proposal := mkProposal { proposal_id : Uuid; transition : StateTransition }.

Inductive EntryPayload :=
| Blank
| Normal (p : Proposal)
| MembershipEntry (m : Membership).
Record Entry := mkEntry { entry_log_id : LogId; payload : EntryPayload }.
Definition entry_index (e : Entry) : Z := log_index (entry_log_id e).

(** ** Keys *)

Abbreviation Key := (list Z) (only parsing).

(** [u64::to_be_bytes] and [u64::from_be_bytes] *)
Fixpoint be_bytes (n : nat) (x : Z) : Key :=
  match n with
  | O => []
  | S n' => (x / 256 ^ Z.of_nat n') mod 256 :: be_bytes n' x
  end.
Fixpoint from_be_bytes (k : Key) : Z :=
  match k with
  | [] => 0
  | b :: k' => b * 256 ^ Z.of_nat (length k') + from_be_bytes k'
  end.
Definition lsn_to_key (lsn : Z) : Key := be_bytes 8 lsn.
Definition parse_lsn (k : Key) : Z := from_be_bytes k.

(** The order of the rows *)
Fixpoint key_lt (a b : Key) : bool :=
  match a, b with
  | _, [] => false
  | [], _ :: _ => true
  | x :: a', y :: b' => (x <? y) || ((x =? y) && key_lt a' b')
  end.

(** ** Tables and cursors *)

Abbreviation Table V := (list (Key * V)) (only parsing).

(** [write] *)
Fixpoint table_put {V} (k : Key) (v : V) (t : Table V) : Table V :=
  match t with
  | [] => [(k, v)]
  | (k', v') :: t' =>
      if key_lt k k' then (k, v) :: t
      else if key_lt k' k then (k', v') :: table_put k v t' else (k, v) :: t'
  end.
(** [read] *)
Definition table_get {V} (k : Key) (t : Table V) : option V :=
  snd <$> head (filter (λ row, row.1 = k) t).

Record DbCursor V := mkCursor { rows : Table V; position : option nat }.
Arguments mkCursor {V}.
Arguments rows {V}.
Arguments position {V}.

Definition cursor {V} (t : Table V) : DbCursor V := mkCursor t None.
Definition get_current {V} (c : DbCursor V) : option (Key * V) := position c ≫= λ i, rows c !! i.
Definition seek_first {V} (c : DbCursor V) : DbCursor V := mkCursor (rows c) (Some 0%nat).
Definition seek_last {V} (c : DbCursor V) : DbCursor V :=
  mkCursor (rows c) (Some (pred (length (rows c)))).
(** The first row whose key is not less than [k], and whether there is one *)
Fixpoint first_from {V} (k : Key) (t : Table V) : nat :=
  match t with
  | [] => 0
  | (k', _) :: t' => if key_lt k' k then S (first_from k t') else 0
  end%nat.
Definition seek {V} (k : Key) (c : DbCursor V) : bool * DbCursor V :=
  let i := first_from k (rows c) in ((i <? length (rows c))%nat, mkCursor (rows c) (Some i)).
(** [into_iter]: the current row and those after it *)
Definition cursor_iter {V} (c : DbCursor V) : Table V :=
  match position c with Some i => drop i (rows c) | None => [] end.

(** [delete] *)
Definition cursor_delete {V} (wraps : bool) (c : DbCursor V) : result StorageError (DbCursor V) :=
  match position c ≫= λ i, rows c !! i ≫= λ _, Some i with
  | None => Err (Other "no current row")
  | Some i =>
      let t := delete i (rows c) in
      Ok (mkCursor t (if (i <? length t)%nat then Some i
                      else if wraps then Some 0%nat else None))
  end.

(** ** The raft tables *)

(** [raft-logs], and the three keys of [raft-metadata] *)
Record RaftDb := mkRaftDb {
  raft_logs : Table Entry;
  last_purged : option LogId;
  last_vote : option Vote;
  snapshot_metadata : option SnapshotMeta;
}.
Definition empty_raft_db : RaftDb := mkRaftDb [] None None None.
Definition set_raft_logs (t : Table Entry) (d : RaftDb) : RaftDb :=
  mkRaftDb t (last_purged d) (last_vote d) (snapshot_metadata d).

Abbreviation RTxn := (M RaftDb StorageError) (only parsing).

Definition get_last_purged_log_id : RTxn (option LogId) := gets last_purged.
Definition get_last_vote : RTxn (option Vote) := gets last_vote.
Definition get_snapshot_metadata : RTxn (option SnapshotMeta) := gets snapshot_metadata.

Definition logs_cursor : RTxn (DbCursor Entry) := gets (λ d, cursor (raft_logs d)).
Definition first_raft_log : RTxn (option (Z * Entry)) :=
  c ← logs_cursor;
  mret ('(k, v) ← get_current (seek_first c); Some (parse_lsn k, v)).
Definition last_raft_log : RTxn (option (Z * Entry)) :=
  c ← logs_cursor;
  mret ('(k, v) ← get_current (seek_last c); Some (parse_lsn k, v)).
Definition first_raft_log_index : RTxn (option Z) := kv ← first_raft_log; mret (fst <$> kv).
Definition last_raft_log_index : RTxn (option Z) := kv ← last_raft_log; mret (fst <$> kv).
Definition read_log_entry (index : Z) : RTxn Entry :=
  e ← gets (λ d, table_get (lsn_to_key index) (raft_logs d));
  ok_or e (NotFound "Log entry not found").

Definition set_last_purged_log_id (id : LogId) : RTxn unit :=
  modify (λ d, mkRaftDb (raft_logs d) (Some id) (last_vote d) (snapshot_metadata d)).
Definition set_last_vote (v : Vote) : RTxn unit :=
  modify (λ d, mkRaftDb (raft_logs d) (last_purged d) (Some v) (snapshot_metadata d)).
Definition set_snapshot_metadata (m : SnapshotMeta) : RTxn unit :=
  modify (λ d, mkRaftDb (raft_logs d) (last_purged d) (last_vote d) (Some m)).

Definition append_log_entries (entries : list Entry) : RTxn unit :=
  for_each entries (λ e,
    modify (λ d, set_raft_logs (table_put (lsn_to_key (entry_index e)) e (raft_logs d)) d)).

Section Store.
Context (wraps : bool).

(** The deletion loops.  A turn deletes a row or ends the loop, so one turn more than there
    are rows is enough. *)
Fixpoint truncate_loop (fuel : nat) (index : Z) (c : DbCursor Entry)
    : result StorageError (Table Entry) :=
  match fuel with
  | O => Err (Other "out of fuel")
  | S fuel' =>
      match get_current c with
      | Some (k, _) =>
          if index <=? parse_lsn k
          then match cursor_delete wraps c with
               | Ok c' => truncate_loop fuel' index c'
               | Err e => Err e
               end
          else Ok (rows c)
      | None => Ok (rows c)
      end
  end.
Fixpoint purge_loop (fuel : nat) (index : Z) (c : DbCursor Entry)
    : result StorageError (Table Entry) :=
  match fuel with
  | O => Err (Other "out of fuel")
  | S fuel' =>
      match get_current c with
      | None => Ok (rows c)
      | Some (k, _) =>
          if parse_lsn k <=? index
          then match cursor_delete wraps c with
               | Ok c' => purge_loop fuel' index c'
               | Err e => Err e
               end
          else Ok (rows c)
      end
  end.
Definition put_logs (r : result StorageError (Table Entry)) : RTxn unit :=
  match r with Ok t => modify (set_raft_logs t) | Err e => throw e end.

Definition truncate_logs (index : Z) : RTxn unit :=
  c ← logs_cursor;
  let '(found, c) := seek (lsn_to_key index) c in
  if negb found then mret tt
  else put_logs (truncate_loop (S (length (rows c))) index c).
Definition purge_logs (index : Z) : RTxn unit :=
  c ← logs_cursor;
  put_logs (purge_loop (S (length (rows c))) index (seek_first c)).

(** ** The log store (log_store.rs) *)

(** The errors of [new_log_read_error] and [new_log_write_error] *)
Inductive RaftStorageError := LogRead (e : StorageError) | LogWrite (e : StorageError).
Abbreviation Store := (M RaftDb RaftStorageError) (only parsing).

Definition with_read_tx {A} (m : RTxn A) : Store A := λ d,
  match (m d).1 with Ok a => (Ok a, d) | Err e => (Err (LogRead e), d) end.
Definition with_write_tx {A} (m : RTxn A) : Store A :=
  with_tx id (λ d _, d) (zoom id (λ d _, d) LogWrite m).

Inductive Bound := Included (x : Z) | Excluded (x : Z) | Unbounded.
Definition parse_low_high (start_bound end_bound : Bound) : Z * Z :=
  ((match start_bound with Included lo => lo | Excluded lo => u64_add lo 1 | Unbounded => 0 end),
   (match end_bound with Included hi => hi | Excluded hi => u64_sub hi 1 | Unbounded => U64_MAX end)).

Fixpoint read_until (high : Z) (l : Table Entry) : list Entry :=
  match l with
  | [] => []
  | (k, e) :: l' => if high <? parse_lsn k then [] else e :: read_until high l'
  end.
Definition try_get_log_entries (start_bound end_bound : Bound) : Store (list Entry) :=
  let '(low, high) := parse_low_high start_bound end_bound in
  if high <? low then mret []
  else with_read_tx (
    c ← logs_cursor;
    let '(found, c) := seek (lsn_to_key low) c in
    if negb found then mret [] else mret (read_until high (cursor_iter c))).

Definition get_log_state : Store LogState :=
  with_read_tx (
    purged ← get_last_purged_log_id;
    purged ←
      match purged with
      | Some id => mret (Some id)
      | None =>
          first ← first_raft_log;
          mret (match first with
                | Some (first_idx, e) =>
                    if 1 <? first_idx
                    then let id := entry_log_id e in
                         Some (mkLogId (leader_term id) (leader_node id) (log_index id - 1))
                    else None
                | None => None
                end)
      end;
    last ← last_raft_log;
    mret (mkLogState (match last with Some (_, e) => Some (entry_log_id e) | None => purged end)
            purged)).

Definition save_vote (v : Vote) : Store unit := with_write_tx (set_last_vote v).
Definition read_vote : Store (option Vote) := with_read_tx get_last_vote.
Definition append (entries : list Entry) : Store unit := with_write_tx (append_log_entries entries).
Definition truncate (id : LogId) : Store unit := with_write_tx (truncate_logs (log_index id)).
Definition purge (id : LogId) : Store unit :=
  with_write_tx (purge_logs (log_index id);; set_last_purged_log_id id).
End Store.

(** ** Keys keep the order of the indices *)

Lemma be_bytes_length n x : length (be_bytes n x) = n.
Proof. induction n; simpl; congruence. Qed.

Lemma mod_split n x :
  x mod 256 ^ Z.of_nat (S n) =
  (x / 256 ^ Z.of_nat n) mod 256 * 256 ^ Z.of_nat n + x mod 256 ^ Z.of_nat n.
Proof.
  rewrite Nat2Z.inj_succ, Z.pow_succ_r by lia. rewrite (Z.mul_comm 256).
  rewrite Z.rem_mul_r by lia. lia.
Qed.

Lemma from_be_bytes_mod n x : from_be_bytes (be_bytes n x) = x mod 256 ^ Z.of_nat n.
Proof.
  induction n as [|n IH]; [by rewrite Z.mod_1_r|].
  rewrite mod_split. cbn [be_bytes from_be_bytes]. by rewrite be_bytes_length, IH.
Qed.

Lemma be_bytes_lt n x y :
  key_lt (be_bytes n x) (be_bytes n y) = (x mod 256 ^ Z.of_nat n <? y mod 256 ^ Z.of_nat n).
Proof.
  induction n as [|n IH]; [by rewrite !Z.mod_1_r|].
  rewrite !mod_split. cbn [be_bytes key_lt]. rewrite IH.
  pose proof (Z.mod_pos_bound x (256 ^ Z.of_nat n)). pose proof (Z.mod_pos_bound y (256 ^ Z.of_nat n)).
  destruct (Z.ltb_spec ((x / 256 ^ Z.of_nat n) mod 256) ((y / 256 ^ Z.of_nat n) mod 256)),
    (Z.eqb_spec ((x / 256 ^ Z.of_nat n) mod 256) ((y / 256 ^ Z.of_nat n) mod 256)),
    (Z.ltb_spec (x mod 256 ^ Z.of_nat n) (y mod 256 ^ Z.of_nat n)); simpl; symmetry;
    (apply Z.ltb_lt || apply Z.ltb_ge); nia.
Qed.

Lemma is_u64_iff x : is_u64 x ↔ 0 ≤ x < 2 ^ 64.
Proof. unfold is_u64, U64_MAX. lia. Qed.

Lemma parse_lsn_key x : is_u64 x → parse_lsn (lsn_to_key x) = x.
Proof.
  intros Hx. unfold parse_lsn, lsn_to_key. rewrite from_be_bytes_mod.
  by apply Z.mod_small, is_u64_iff.
Qed.
Lemma lsn_key_lt x y : is_u64 x → is_u64 y → key_lt (lsn_to_key x) (lsn_to_key y) = (x <? y).
Proof.
  intros Hx Hy. unfold lsn_to_key. rewrite be_bytes_lt. f_equal; by apply Z.mod_small, is_u64_iff.
Qed.

#[local] Opaque lsn_to_key parse_lsn key_lt.

(** ** The log as a list *)

Definition row_of (e : Entry) : Key * Entry := (lsn_to_key (entry_index e), e).
Definition log_table (es : list Entry) : Table Entry := row_of <$> es.

Lemma log_table_app es es' : log_table (es ++ es') = log_table es ++ log_table es'.
Proof. apply fmap_app. Qed.
Lemma log_table_length es : length (log_table es) = length es.
Proof. apply length_fmap. Qed.

(** The indices are consecutive from [start], and fit a u64. *)
Definition consecutive (start : Z) (es : list Entry) : Prop :=
  0 ≤ start ∧ start + Z.of_nat (length es) ≤ 2 ^ 64 ∧
  ∀ i e, es !! i = Some e → entry_index e = start + Z.of_nat i.

Lemma consecutive_u64 start es e : consecutive start es → e ∈ es → is_u64 (entry_index e).
Proof.
  intros (H0 & H1 & H) [i Hi]%list_elem_of_lookup. pose proof (lookup_lt_Some _ _ _ Hi).
  rewrite (H _ _ Hi). unfold is_u64, U64_MAX. lia.
Qed.

Lemma consecutive_app start es es' :
  consecutive start (es ++ es') ↔
  consecutive start es ∧ consecutive (start + Z.of_nat (length es)) es'.
Proof.
  unfold consecutive. rewrite length_app. split.
  - intros (H0 & H1 & H). split_and!; try lia.
    + intros i e Hi. apply H. by apply lookup_app_l_Some.
    + intros i e Hi. rewrite (H (length es + i)%nat e); [lia|].
      rewrite lookup_app_r by lia. by replace (length es + i - length es)%nat with i by lia.
  - intros [(H0 & H1 & H) (H0' & H1' & H')]. split_and!; try lia. intros i e.
    intros [Hi|[Hl Hi]]%lookup_app_Some; [by apply H|]. rewrite (H' _ _ Hi). lia.
Qed.
Lemma consecutive_cons start e es :
  consecutive start (e :: es) ↔
  (0 ≤ start < 2 ^ 64 ∧ entry_index e = start) ∧ consecutive (start + 1) es.
Proof.
  change (e :: es) with ([e] ++ es). rewrite consecutive_app. simpl. split.
  - intros [(H0 & H1 & H) ?]. split; [|done]. split; [simpl in *; lia|].
    rewrite (H 0%nat e eq_refl). simpl. lia.
  - intros [[H0 H] ?]. split; [|done]. split_and!; simpl; try lia.
    intros [|i] e'; [|done]. intros [= <-]. simpl. lia.
Qed.

(** Where a seek ends *)
Lemma first_from_spec start es x :
  consecutive start es → is_u64 x →
  first_from (lsn_to_key x) (log_table es) = (Z.to_nat (x - start) `min` length es)%nat.
Proof.
  intros Hc Hx. revert start Hc. induction es as [|e es IH]; intros start Hc; simpl; [lia|].
  apply consecutive_cons in Hc as [[Hs He] Hc]. rewrite lsn_key_lt, He by (unfold is_u64, U64_MAX in *; lia).
  destruct (Z.ltb_spec start x); [|lia]. rewrite (IH _ Hc). lia.
Qed.

Lemma table_put_last start es e :
  consecutive start (es ++ [e]) → table_put (lsn_to_key (entry_index e)) e (log_table es) = log_table (es ++ [e]).
Proof.
  revert start. induction es as [|e' es IH]; intros start Hc; [done|].
  rewrite <-app_comm_cons in Hc. pose proof Hc as Hu.
  apply consecutive_cons in Hc as [[Hs He] Hc].
  pose proof (consecutive_u64 _ _ e Hu) as Hue. rewrite <-app_comm_cons. simpl.
  apply consecutive_app in Hc as [Hc1 Hc2]. apply consecutive_cons in Hc2 as [[Hs2 He2] _].
  rewrite !lsn_key_lt by (first [apply Hue; set_solver | unfold is_u64, U64_MAX; lia]).
  rewrite (proj2 (Z.ltb_ge _ _)), (proj2 (Z.ltb_lt _ _)) by lia. f_equal. apply (IH (start + 1)).
  apply consecutive_app. split; [done|]. apply consecutive_cons. split; [done|].
  split_and!; simpl; try lia. done.
Qed.

Lemma append_log_entries_spec start es es' d :
  raft_logs d = log_table es → consecutive start (es ++ es') →
  append_log_entries es' d = (Ok tt, set_raft_logs (log_table (es ++ es')) d).
Proof.
  intros Hd Hc. revert es d Hd Hc. induction es' as [|e es' IH]; intros es d Hd Hc.
  { rewrite app_nil_r. unfold set_raft_logs. rewrite <-Hd. by destruct d. }
  unfold append_log_entries in *. simpl. unfold mbind, M_bind, modify at 1.
  rewrite (cons_middle e es es'), app_assoc in *. rewrite Hd.
  rewrite (table_put_last start) by (by apply consecutive_app in Hc as [Hc _]).
  by rewrite (IH (es ++ [e]) (set_raft_logs _ d)) by done.
Qed.

(** ** The deletion loops *)

Section Loops.
Context (wraps : bool).

Lemma get_current_at (l l' : Table Entry) row :
  get_current (mkCursor (l ++ row :: l') (Some (length l))) = Some row.
Proof. unfold get_current. simpl. by rewrite list_lookup_middle. Qed.

Lemma cursor_delete_at (l l' : Table Entry) row :
  cursor_delete wraps (mkCursor (l ++ row :: l') (Some (length l))) =
  Ok (mkCursor (l ++ l') (match l' with
                          | [] => if wraps then Some 0%nat else None
                          | _ :: _ => Some (length l)
                          end)).
Proof.
  unfold cursor_delete. simpl. rewrite list_lookup_middle by done. simpl.
  rewrite delete_middle, length_app. destruct l'; simpl.
  - by rewrite Nat.add_0_r, Nat.ltb_irrefl.
  - by rewrite (proj2 (Nat.ltb_lt _ _)) by lia.
Qed.

Definition index_where (P : Z → Prop) (e : Entry) : Prop := is_u64 (entry_index e) ∧ P (entry_index e).

Lemma truncate_loop_spec es es' index fuel :
  Forall (index_where (λ i, index ≤ i)) es' → Forall (index_where (λ i, i < index)) es →
  (length es' < fuel)%nat →
  truncate_loop wraps fuel index
    (mkCursor (log_table es ++ log_table es') (match log_table es' with
       | [] => if wraps then Some 0%nat else None
       | _ :: _ => Some (length (log_table es)) end)) = Ok (log_table es).
Proof.
  intros Hge Hlt. revert fuel.
  induction Hge as [|e es' [Hu Hi] _ IH]; intros [|fuel] Hf; simpl in *; try lia.
  - rewrite app_nil_r. destruct wraps; [|done].
    destruct Hlt as [|e es [Hu Hi] _]; [done|]. simpl.
    by rewrite parse_lsn_key, (proj2 (Z.leb_gt _ _)).
  - rewrite get_current_at, cursor_delete_at. cbn [row_of].
    rewrite parse_lsn_key, (proj2 (Z.leb_le _ _)) by done. apply IH. lia.
Qed.

Lemma purge_loop_spec es es' index fuel :
  Forall (index_where (λ i, i ≤ index)) es → Forall (index_where (λ i, index < i)) es' →
  (length es < fuel)%nat →
  purge_loop wraps fuel index (mkCursor (log_table (es ++ es')) (Some 0%nat)) = Ok (log_table es').
Proof.
  intros Hle Hgt. revert fuel.
  induction Hle as [|e es [Hu Hi] Hes IH]; intros [|fuel] Hf; simpl in *; try lia.
  - destruct Hgt as [|e es' [Hu Hi] _]; [done|]. simpl.
    by rewrite parse_lsn_key, (proj2 (Z.leb_gt _ _)).
  - rewrite parse_lsn_key, (proj2 (Z.leb_le _ _)) by done.
    destruct (es ++ es') as [|e1 l] eqn:El; simpl.
    + apply app_eq_nil in El as [-> ->]. destruct fuel; [lia|]. by destruct wraps.
    + apply (IH fuel). lia.
Qed.
End Loops.

(** ** The abstract log *)

(** What the log store stores: the purge point, the entries after it, the vote. *)
Record LogSpec := mkLogSpec {
  spec_purged : option LogId;
  spec_entries : list Entry;
  spec_vote : option Vote;
}.
Definition empty_log : LogSpec := mkLogSpec None [] None.

Inductive LogOp :=
| OpAppend (entries : list Entry)
| OpTruncate (id : LogId)
| OpPurge (id : LogId)
| OpVote (v : Vote).

Definition run_op (wraps : bool) (op : LogOp) : M RaftDb RaftStorageError unit :=
  match op with
  | OpAppend es => append es
  | OpTruncate id => truncate wraps id
  | OpPurge id => purge wraps id
  | OpVote v => save_vote v
  end.
Definition spec_op (op : LogOp) (s : LogSpec) : LogSpec :=
  let '(mkLogSpec p es v) := s in
  match op with
  | OpAppend es' => mkLogSpec p (es ++ es') v
  | OpTruncate id => mkLogSpec p (filter (λ e, entry_index e < log_index id) es) v
  | OpPurge id => mkLogSpec (Some id) (filter (λ e, log_index id < entry_index e) es) v
  | OpVote v' => mkLogSpec p es (Some v')
  end.

(** The index the log starts at: after the purge point, or at the first index [g]. *)
Definition log_start (g : Z) (p : option LogId) : Z := from_option (λ id, log_index id + 1) g p.

(** What openraft asks of the log: appended entries continue it, nothing that is purged is
    truncated, and the purge point does not move back. *)
Definition op_ok (g : Z) (op : LogOp) (s : LogSpec) : Prop :=
  let start := log_start g (spec_purged s) in
  match op with
  | OpAppend es => consecutive (start + Z.of_nat (length (spec_entries s))) es
  | OpTruncate id => is_u64 (log_index id) ∧ start ≤ log_index id
  | OpPurge id => is_u64 (log_index id) ∧ start ≤ log_index id + 1
  | OpVote _ => True
  end.
Fixpoint ops_ok (g : Z) (ops : list LogOp) (s : LogSpec) : Prop :=
  match ops with
  | [] => True
  | op :: ops' => op_ok g op s ∧ ops_ok g ops' (spec_op op s)
  end.

Record represents (g : Z) (d : RaftDb) (s : LogSpec) : Prop := mkRepresents {
  rep_logs : raft_logs d = log_table (spec_entries s);
  rep_purged : last_purged d = spec_purged s;
  rep_vote : last_vote d = spec_vote s;
  rep_consecutive : consecutive (log_start g (spec_purged s)) (spec_entries s);
}.

(** A log splits at an index. *)
Lemma consecutive_split start es i :
  consecutive start es →
  let n := (Z.to_nat (i - start) `min` length es)%nat in
  Forall (index_where (λ x, x < i)) (take n es) ∧
  Forall (index_where (λ x, i ≤ x)) (drop n es) ∧
  consecutive start (take n es) ∧ consecutive (start + Z.of_nat n) (drop n es).
Proof.
  intros Hc n. pose proof Hc as Hc'. rewrite <-(take_drop n es) in Hc'.
  apply consecutive_app in Hc' as [H1 H2]. rewrite length_take_le in H2 by lia.
  split_and!; try done.
  - apply Forall_lookup. intros j e Hj. pose proof (lookup_lt_Some _ _ _ Hj) as Hl.
    split; [eapply consecutive_u64; [exact H1|by eapply list_elem_of_lookup_2]|].
    rewrite length_take in Hl.
    destruct H1 as (? & ? & H1). rewrite (H1 _ _ Hj). lia.
  - apply Forall_lookup. intros j e Hj. pose proof (lookup_lt_Some _ _ _ Hj) as Hl.
    split; [eapply consecutive_u64; [exact H2|by eapply list_elem_of_lookup_2]|].
    rewrite length_drop in Hl.
    destruct H2 as (? & ? & H2). rewrite (H2 _ _ Hj). lia.
Qed.

Lemma filter_keep (P : Entry → Prop) `{∀ e, Decision (P e)} l : Forall P l → filter P l = l.
Proof. induction 1; [done|]. rewrite filter_cons_True by done. by f_equal. Qed.
Lemma filter_drop (P : Entry → Prop) `{∀ e, Decision (P e)} l :
  Forall (λ e, ¬ P e) l → filter P l = [].
Proof. induction 1; [done|]. by rewrite filter_cons_False. Qed.

Lemma filter_below start es i :
  consecutive start es → filter (λ e, entry_index e < i) es = take (Z.to_nat (i - start) `min` length es) es.
Proof.
  intros (H1 & H2 & _)%(consecutive_split _ _ i).
  rewrite <-(take_drop (Z.to_nat (i - start) `min` length es)%nat es) at 1.
  rewrite filter_app, filter_keep, filter_drop, app_nil_r; [done| |].
  - eapply Forall_impl; [exact H2|]. intros e [_ ?]. simpl in *. lia.
  - eapply Forall_impl; [exact H1|]. by intros e [_ ?].
Qed.
Lemma filter_from start es i :
  consecutive start es → filter (λ e, i < entry_index e) es = drop (Z.to_nat (i + 1 - start) `min` length es) es.
Proof.
  intros (H1 & H2 & _)%(consecutive_split _ _ (i + 1)).
  rewrite <-(take_drop (Z.to_nat (i + 1 - start) `min` length es)%nat es) at 1.
  rewrite filter_app, filter_drop, filter_keep; [done| |].
  - eapply Forall_impl; [exact H2|]. intros e [_ ?]. simpl in *. lia.
  - eapply Forall_impl; [exact H1|]. intros e [_ ?]. simpl in *. lia.
Qed.

Section Refinement.
Context (wraps : bool) (g : Z).

Lemma with_write_tx_run {A} (m : M RaftDb StorageError A) d a d' :
  m d = (Ok a, d') → with_write_tx m d = (Ok a, d').
Proof. intros H. unfold with_write_tx, with_tx, zoom, id. by rewrite H. Qed.

Lemma truncate_logs_spec start es i d :
  raft_logs d = log_table es → consecutive start es → is_u64 i →
  truncate_logs wraps i d = (Ok tt, set_raft_logs (log_table (filter (λ e, entry_index e < i) es)) d).
Proof.
  intros Hd Hc Hi. rewrite (filter_below start) by done.
  pose proof (consecutive_split _ _ i Hc) as (H1 & H2 & _).
  unfold truncate_logs, logs_cursor, mbind, M_bind, gets. simpl. rewrite Hd.
  rewrite (first_from_spec start), log_table_length by done.
  set (n := (Z.to_nat (i - start) `min` length es)%nat) in *.
  destruct (Nat.ltb_spec n (length es)) as [Hn|Hn]; simpl.
  - pose proof (truncate_loop_spec wraps (take n es) (drop n es) i (S (length (log_table es))) H2 H1) as Hl.
    rewrite <-(log_table_app (take n es)), take_drop, !log_table_length, length_drop in Hl.
    rewrite length_take_le in Hl by lia.
    destruct (lookup_lt_is_Some_2 es n Hn) as [e He]. rewrite (drop_S _ _ _ He) in Hl.
    simpl in Hl. by rewrite Hl by lia.
  - rewrite firstn_all2 by lia. unfold set_raft_logs. rewrite <-Hd. by destruct d.
Qed.

Lemma purge_logs_spec start es i d :
  raft_logs d = log_table es → consecutive start es →
  purge_logs wraps i d = (Ok tt, set_raft_logs (log_table (filter (λ e, i < entry_index e) es)) d).
Proof.
  intros Hd Hc. rewrite (filter_from start) by done.
  pose proof (consecutive_split _ _ (i + 1) Hc) as (H1 & H2 & _).
  set (n := (Z.to_nat (i + 1 - start) `min` length es)%nat) in *.
  unfold purge_logs, logs_cursor, mbind, M_bind, gets, seek_first, cursor. cbn [rows]. rewrite Hd.
  rewrite <-(take_drop n es) at 2. rewrite purge_loop_spec; [done| | |].
  - eapply Forall_impl; [exact H1|]. intros e [? ?]. split; [done|]. simpl in *. lia.
  - eapply Forall_impl; [exact H2|]. intros e [? ?]. split; [done|]. simpl in *. lia.
  - rewrite length_take, log_table_length. lia.
Qed.

(** Every operation does on the tables what it does on the abstract log. *)
Lemma run_op_represents op d s :
  represents g d s → op_ok g op s →
  ∃ d', run_op wraps op d = (Ok tt, d') ∧ represents g d' (spec_op op s) ∧
    snapshot_metadata d' = snapshot_metadata d.
Proof.
  destruct s as [p es v]. intros [Hl Hp Hv Hc] Hok. destruct op as [es'|id|id|v']; simpl in *.
  - exists (set_raft_logs (log_table (es ++ es')) d). split; [|split; [|done]].
    + apply with_write_tx_run. eapply append_log_entries_spec; [done|]. by apply consecutive_app.
    + split; simpl; try done. by apply consecutive_app.
  - destruct Hok as [Hu Hs]. eexists. split; [apply with_write_tx_run; by eapply truncate_logs_spec|].
    split; [|done]. split; simpl; try done. rewrite (filter_below (log_start g p)) by done.
    by apply (consecutive_split _ _ (log_index id)).
  - destruct Hok as [Hu Hs]. eexists. split.
    + apply with_write_tx_run. rewrite (bind_Ok _ _ _ _ _ (purge_logs_spec _ _ _ _ Hl Hc)). done.
    + split; [|done]. split; simpl; try done. rewrite (filter_from (log_start g p)) by done.
      pose proof (consecutive_split _ _ (log_index id + 1) Hc) as (_ & _ & _ & H).
      set (n := (Z.to_nat _ `min` _)%nat) in *.
      destruct (decide (n = length es)) as [Hn|Hn].
      * rewrite Hn, drop_all. split_and!; simpl; unfold is_u64, U64_MAX in Hu; [lia|lia|done].
      * replace (log_index id + 1) with (log_start g p + Z.of_nat n) at 1 by lia. done.
  - eexists. split; [reflexivity|]. by split.
Qed.
End Refinement.

(** ** Reading the log *)

Definition spec_last (s : LogSpec) : option LogId :=
  match last (spec_entries s) with Some e => Some (entry_log_id e) | None => spec_purged s end.

Definition above (b : Bound) (x : Z) : bool :=
  match b with Included lo => lo <=? x | Excluded lo => lo <? x | Unbounded => true end.
Definition below (b : Bound) (x : Z) : bool :=
  match b with Included hi => x <=? hi | Excluded hi => x <? hi | Unbounded => true end.
(** The bounds fit a u64 and leave an index. *)
Definition bounds_ok (lo hi : Bound) : Prop :=
  match lo with Included x => is_u64 x | Excluded x => is_u64 (x + 1) ∧ 0 ≤ x | Unbounded => True end ∧
  match hi with Included x => is_u64 x | Excluded x => is_u64 (x - 1) ∧ is_u64 x | Unbounded => True end.

Lemma parse_low_high_spec lo hi :
  bounds_ok lo hi →
  let '(low, high) := parse_low_high lo hi in
  is_u64 low ∧ is_u64 high ∧
  ∀ x, is_u64 x → (above lo x && below hi x) = ((low <=? x) && (x <=? high)).
Proof.
  unfold bounds_ok, parse_low_high, is_u64, U64_MAX. intros [Hlo Hhi].
  destruct lo as [y|y|], hi as [z|z|]; simpl;
    rewrite ?u64_add_small, ?u64_sub_small by lia; (split_and!; [lia..|]); intros x Hx; lia.
Qed.

Lemma read_until_spec start es high :
  consecutive start es → read_until high (log_table es) = filter (λ e, entry_index e ≤ high) es.
Proof.
  intros Hc. revert start Hc. induction es as [|e es IH]; intros start Hc; [done|]. simpl.
  pose proof Hc as Hc'. apply consecutive_cons in Hc as [[Hs He] Hc].
  rewrite parse_lsn_key by (unfold is_u64, U64_MAX; lia). destruct (Z.ltb_spec high (entry_index e)).
  - rewrite filter_cons_False by lia. symmetry. apply filter_drop. apply Forall_lookup. intros j e' Hj.
    destruct Hc as (_ & _ & Hc). rewrite (Hc _ _ Hj). lia.
  - rewrite filter_cons_True by done. f_equal. by apply (IH (start + 1)).
Qed.

Lemma filter_ext_in (P Q : Entry → Prop) `{∀ e, Decision (P e)} `{∀ e, Decision (Q e)} (l : list Entry) :
  (∀ e, e ∈ l → P e ↔ Q e) → filter P l = filter Q l.
Proof.
  induction l as [|e l IH]; intros Hpq; [done|].
  pose proof (Hpq e (list_elem_of_here _ _)) as He.
  assert (IH' : filter P l = filter Q l) by (apply IH; intros; apply Hpq; by right).
  destruct (decide (P e)); [rewrite !filter_cons_True by tauto|rewrite !filter_cons_False by tauto]; congruence.
Qed.

Lemma read_range start es low high :
  consecutive start es → is_u64 low →
  (let '(found, c) := seek (lsn_to_key low) (cursor (log_table es)) in
   if negb found then [] else read_until high (cursor_iter c)) =
  filter (λ e, low ≤ entry_index e ∧ entry_index e ≤ high) es.
Proof.
  intros Hc Hl. unfold seek, cursor. cbn [rows]. rewrite (first_from_spec start), log_table_length by done.
  pose proof (consecutive_split _ _ low Hc) as (H1 & H2 & _ & H4).
  set (n := (Z.to_nat (low - start) `min` length es)%nat) in *.
  assert (Hr : filter (λ e, low ≤ entry_index e ∧ entry_index e ≤ high) es =
    filter (λ e, entry_index e ≤ high) (drop n es)).
  { rewrite <-(take_drop n es) at 1. rewrite filter_app, filter_drop; simpl.
    - apply filter_ext_in. intros e He. rewrite Forall_forall in H2. destruct (H2 e He) as [_ ?].
      simpl in *. tauto.
    - eapply Forall_impl; [exact H1|]. intros e [_ ?] [? _]. simpl in *. lia. }
  rewrite Hr. destruct (Nat.ltb_spec n (length es)) as [Hn|Hn]; simpl.
  - unfold cursor_iter. simpl. unfold log_table. rewrite <-fmap_drop. by apply (read_until_spec (start + Z.of_nat n)).
  - by rewrite drop_ge by lia.
Qed.

Section Reads.
Context (g : Z) (Hg : 0 ≤ g ≤ 1).

Lemma try_get_spec lo hi d s :
  represents g d s → bounds_ok lo hi →
  try_get_log_entries lo hi d =
  (Ok (filter (λ e, above lo (entry_index e) && below hi (entry_index e) = true) (spec_entries s)), d).
Proof.
  intros [Hl _ _ Hc] Hb. unfold try_get_log_entries. pose proof (parse_low_high_spec _ _ Hb) as Hp.
  destruct (parse_low_high lo hi) as [low high]. destruct Hp as (Hul & Huh & Hp).
  assert (Hf : filter (λ e, above lo (entry_index e) && below hi (entry_index e) = true) (spec_entries s) =
    filter (λ e, low ≤ entry_index e ∧ entry_index e ≤ high) (spec_entries s)).
  { apply filter_ext_in. intros e He. rewrite Hp by (by eapply consecutive_u64).
    rewrite andb_true_iff, !Z.leb_le. done. }
  rewrite Hf. destruct (Z.ltb_spec high low).
  - rewrite filter_drop; [done|]. apply Forall_forall. intros e _ ?. lia.
  - rewrite <-(read_range _ _ _ _ Hc Hul). unfold with_read_tx, logs_cursor, mbind, M_bind, gets.
    cbn [fst snd]. rewrite Hl. destruct (seek _ _) as [[] c]; done.
Qed.

Lemma last_raft_log_spec d es :
  raft_logs d = log_table es → ∃ o, last_raft_log d = (Ok o, d) ∧ snd <$> o = last es.
Proof.
  intros Hd. eexists. split; [reflexivity|]. unfold get_current, seek_last. simpl.
  rewrite Hd, log_table_length, last_lookup. unfold log_table. rewrite list_lookup_fmap.
  by destruct (es !! _).
Qed.
Lemma first_raft_log_spec d start es :
  raft_logs d = log_table es → consecutive start es →
  first_raft_log d = (Ok ((λ e, (start, e)) <$> head es), d).
Proof.
  intros Hd Hc. unfold first_raft_log, logs_cursor, mbind, M_bind, gets. simpl. rewrite Hd.
  destruct es as [|e es]; [done|]. apply consecutive_cons in Hc as [[Hs He] _]. simpl.
  by rewrite parse_lsn_key, He by (unfold is_u64, U64_MAX; lia).
Qed.

#[local] Opaque last_raft_log first_raft_log.

Lemma get_log_state_spec d s :
  represents g d s → get_log_state d = (Ok (mkLogState (spec_last s) (spec_purged s)), d).
Proof.
  intros [Hl Hp _ Hc]. destruct (last_raft_log_spec _ _ Hl) as (o & Ho & Hlast).
  unfold get_log_state, with_read_tx, get_last_purged_log_id, spec_last.
  unfold mbind at 1, M_bind at 1, gets. rewrite Hp. destruct (spec_purged s) as [p|].
  - unfold mbind, M_bind. simpl. rewrite Ho. simpl. rewrite <-Hlast. by destruct o as [[]|].
  - unfold mbind, M_bind. rewrite (first_raft_log_spec _ _ _ Hl Hc). simpl. rewrite Ho. simpl.
    rewrite <-Hlast. destruct (head (spec_entries s)); simpl.
    + rewrite (proj2 (Z.ltb_ge _ _)) by lia. by destruct o as [[]|].
    + by destruct o as [[]|].
Qed.

(** The purge point is rebuilt from the first entry. *)
Definition forget_purged (d : RaftDb) : RaftDb :=
  mkRaftDb (raft_logs d) None (last_vote d) (snapshot_metadata d).
Lemma get_log_state_rebuilt d s p :
  represents g d s → spec_purged s = Some p → 1 ≤ log_index p → spec_entries s ≠ [] →
  ∃ st, get_log_state (forget_purged d) = (Ok st, forget_purged d) ∧
    last_log_id st = spec_last s ∧ log_index <$> last_purged_log_id st = Some (log_index p).
Proof.
  intros [Hl _ _ Hc] Hp Hi Hne. rewrite Hp in Hc. simpl in Hc.
  destruct (last_raft_log_spec (forget_purged d) _ Hl) as (o & Ho & Hlast).
  unfold get_log_state, with_read_tx, get_last_purged_log_id, mbind, M_bind, gets. simpl.
  rewrite (first_raft_log_spec (forget_purged d) _ _ Hl Hc). simpl. rewrite Ho.
  unfold spec_last. rewrite <-Hlast. destruct (spec_entries s) as [|e es] eqn:Ees; [done|]. simpl.
  apply consecutive_cons in Hc as [[_ He] _].
  rewrite (proj2 (Z.ltb_lt _ _)) by lia. eexists. split; [reflexivity|]. simpl.
  unfold entry_index in He. rewrite He. split; [|f_equal; lia].
  destruct o as [[? ?]|]; [done|]. by rewrite last_cons in Hlast; destruct (last es).
Qed.
End Reads.

Fixpoint run_ops (wraps : bool) (ops : list LogOp) : M RaftDb RaftStorageError unit :=
  match ops with
  | [] => mret tt
  | op :: ops' => run_op wraps op;; run_ops wraps ops'
  end.
Definition spec_ops (ops : list LogOp) (s : LogSpec) : LogSpec := foldl (λ s op, spec_op op s) s ops.

Lemma run_ops_represents wraps g ops d s :
  represents g d s → ops_ok g ops s →
  ∃ d', run_ops wraps ops d = (Ok tt, d') ∧ represents g d' (spec_ops ops s).
Proof.
  revert d s. induction ops as [|op ops IH]; intros d s Hr Hok; [by exists d|].
  destruct Hok as [Hop Hok]. destruct (run_op_represents wraps g op d s Hr Hop) as (d1 & H1 & Hr1 & _).
  destruct (IH d1 _ Hr1 Hok) as (d' & H' & Hr'). exists d'. split; [|done].
  simpl. by rewrite (bind_Ok _ _ _ _ _ H1).
Qed.


Definition sample_entry (i : Z) : Entry := mkEntry (mkLogId 1 7 i) Blank.
Definition sample_ops : list LogOp :=
  [OpAppend (sample_entry <$> [0; 1; 2; 3]); OpVote (mkVote 1 7 true); OpPurge (mkLogId 1 7 1);
   OpTruncate (mkLogId 1 7 3); OpAppend (sample_entry <$> [3; 4])].

